(* ===== verification/_CoqProject ===== *)
-Q . S2P
Prelude.v
Acker.v
AckerConc.v
AckerWrappers.v
GoValue.v
Json.v
JsonFacts.v
Fs.v
FsFacts.v
Platforms.v
Txid.v
DiskData.v
Diskstore.v
Memlog.v
LogFacts.v
DiskFacts.v
DiskSpec.v
DiskInv.v
DiskOps.v
MemlogFacts.v
TestEncoder.v
Returns.v
Durable.v
Scenarios.v
Backend.v
Concert.v
Storetest.v
Statestore.v
StatestoreFacts.v
StatestoreSeq.v
StatestoreSpec.v
Interleaving.v
SharedInstance.v
Linearizable.v
Cursor.v
CursorFacts.v
CursorSpec.v
CursorProps.v
CursorConc.v
ManagedInput.v
AckedCursor.v
MemlogBackend.v
Recovery.v
CrashSafety.v
Compliance.v
Compliant.v
Feature.v
FeatureConc.v
Loader.v
Cleaner.v
Cleanup.v
LoadGen.v
LoadEvent.v
LoadUnits.v
LoadConc.v
Start.v
TestSupport.v
