(* ===== verification/Prelude.v ===== *)
(** * elastic-agent-inputs: a verification library for its core packages

    The repository holds the inputs of the Elastic agent: a load generator
    (inputs/loadgenerator) and, under pkg, what inputs are built from.  An input
    publishes events to a pipeline (pkg/publisher); the pipeline acknowledges them
    through ackers, and stateful inputs (pkg/manager/input/input-cursor) then
    write the cursor of their source to the state store (pkg/statestore), which
    keeps its documents in a backend, on disk that of memlog.  Plugins are found
    by a loader (pkg/manager/input) and features by a registry (pkg/feature).

    ** How the code is modelled

    A function that can panic or loop returns an [outcome]; code that changes
    state is in the state monad [M] (below), or in [IO] (Fs.v) when it works on
    files.  Pointers that are shared are indices into a heap of the state; state
    reached in one way only is a value.  Loops are structural where they can be.
    The others take fuel: [OutOfFuel] is no behaviour of the program, and each
    loop has a theorem that its fuel is enough ([ackLoop]: one more than the gap
    nodes; [readLog_loop]: the length of the log; [ensureWrite] and [syncFile]:
    the length of the fault script and of the data; [LoadGen.Run_loop] has no
    bound when it is configured to loop, and [Run_ends_iff] says when it ends).
    Sized integers are [Z] with their wrap-around ([wrap]).  The order in which Go
    ranges over a map is a parameter, any permutation.  Code of other modules is
    a parameter or a class with its documented laws (Backend.v, Concert.v, the
    encoder of DiskData.v), each with an instance.  Goroutines are step relations
    whose steps are critical sections and atomic operations, in any order.

    ** The files

    - Prelude.v: outcomes, the state monad, machine integers, automation.
    - Acker.v (pkg/publisher/acker/acker.go): [Tracking] is [trackingACKer] with its
      heap of gaps, [EventData] is [eventDataACKer].  Each call refines a step of a
      queue of outstanding events ([ACKEvents_correct], [AddEvent_correct]).
      AckerConc.v: the steps of both calls interleave, as labelled transitions
      ([EventPrivateReporter_fifo], [interleaving_no_panic]).  AckerWrappers.v: the
      interface [ACKer] as a class, and the ackers built from others as instances.
    - The memlog backend (pkg/statestore/backend/memlog).  GoValue.v and Json.v (with
      JsonFacts.v): documents and encoding/json.  Fs.v (FsFacts.v): the system
      calls, with a script of faults, bufio and util.go.  Platforms.v: [syncFile]
      on the other systems (util_darwin.go, util_windows.go), with one contract.
      Txid.v: the 64-bit IDs and the order of data files.  DiskData.v, Diskstore.v:
      op.go, json.go, diskstore.go.  Memlog.v: store.go, memlog.go.  LogFacts.v,
      DiskFacts.v, DiskSpec.v, DiskInv.v, DiskOps.v and MemlogFacts.v lead to two
      main results: Returns.v (every call returns, under all faults) and Durable.v
      (crash consistency, as a refinement of a finite map).  TestEncoder.v is an
      encoder with the laws of the class; Scenarios.v holds runs that lose data.
    - The state store (pkg/statestore).  Backend.v: backend.go, as a class with laws;
      two instances, Storetest.v (the backend in memory, storetest.go) and
      MemlogBackend.v (memlog, with a directory and a fault script per store).
      Statestore.v: registry.go, store.go, error.go.  StatestoreFacts.v,
      StatestoreSeq.v, StatestoreSpec.v: used by one goroutine at a time it refines
      shared tables ([statestore_refines_shared_tables], every call on a store and
      the opening of stores), and a backend store is open while it is in use
      ([backend_store_lifetime]).  Interleaving.v: any number of goroutines, one
      step per critical section or atomic operation; what holds in every
      interleaving, and the race of [Release], in which alone goroutines can panic
      ([only_release_race_panics]).  SharedInstance.v: goroutines that share an
      instance, with the steps of its calls and of [Close]
      ([close_waits_for_shared_calls]).  Linearizable.v: while no store is closed all
      calls are linearizable ([statestore_linearizable]).  Compliance.v: the compliance suite
      (internal/storecompliance), as programs over any backend; Compliant.v: memlog
      passes it.  Cleanup.v: pkg/statestore/cleanup.
    - Cursor inputs (pkg/manager/input/input-cursor).  Cursor.v: store.go, publish.go,
      cursor.go, clean.go, input.go, manager.go.  CursorFacts.v, CursorSpec.v: the
      persistent document follows the acknowledged updates.  CursorProps.v: that,
      the life of an input, a run of the cleaner, restarts.  Cleaner.v: the cleaner's
      goroutine, from [Init] to the closing of the store.  CursorConc.v: any
      number of inputs, the pipeline and the cleaner interleaved
      ([sources_are_exclusive]).  ManagedInput.v: [managedInput.Run] and [Test], with
      one goroutine per source in a group; an error of one source cancels the
      others, as the comment inside [Run] has it, and not that on [managedInput].
    - Put together.  AckedCursor.v: the ACKer and the cursor store, composed by the
      labels of the ACKer's steps ([persisted_cursor_was_acknowledged]).  Recovery.v:
      cursor store, state store and memlog, and a process that is killed
      ([cursor_survives_the_process]).  CrashSafety.v: all of them, on a disk that
      fails in any way ([crash_resumes_at_acknowledged_event]).
    - Feature.v: pkg/feature; FeatureConc.v: [Overwrite] with other goroutines between
      its critical sections.  Loader.v: the plugin loader and the stateless inputs of
      pkg/manager/input.
    - The load generator (inputs/loadgenerator).  LoadGen.v: [Run] of one stream, what
      it writes and when it ends.  LoadEvent.v: the text of an event (flog.go), which
      is JSON.  LoadUnits.v: the machine of units and their streams (core.go).
      LoadConc.v: the main loop and the goroutines of the streams, in any order
      ([streams_run_and_stop]).  Start.v: main.go, pkg/config and the command.
    - TestSupport.v: the helpers of tests (internal/resources, publisher/testing,
      internal/inputest).

    A definition has the name of the Go function or type where Rocq allows it
    ([Set_] for [Set]), with the type's name in front where two types of a file have
    the method.

    ** What the theorems show

    Functional behaviour on every branch of the ackers, the sorting of data
    files, the feature registry, the loader and [Run]; refinement of a queue
    (ackers), of a map (memlog), of shared tables (state store, also by concurrent
    calls) and of the last acknowledged value (cursors); invariants of the registry and of the
    features; safety in every interleaving for the ackers, the state store and
    the cursors' resources, and under every sequence of I/O errors for memlog;
    that a stream of the load generator does what [Run] does alone, in every
    interleaving, and ends when it is told to; termination of the
    loops; the round trip of a cursor through the store, a restart and a crash.
    Theorems named after what they show to go wrong (a race, lost updates, a name
    in capitals) are about defects: they state what the code does.  So it is
    where a comment says one thing and the code does another.

    ** Not modelled

    Logging.  Data in the page cache that a power loss would take: a call that
    has written has written.  The nesting limit of encoding/json.  The timers
    behind the cleaner and the pauses of streams, which are times the environment
    gives.  [Each] of a store while other goroutines call it (alone it is modelled),
    and concurrent accesses to memory without a lock.  Types that only carry fields to other modules ([ClientConfig],
    [ProcessingConfig], [Info]).  [TestPublisher], which returns its client, and
    the printing of goroutines in tests; magefile.go and tools. *)

From stdpp Require Import base gmap strings list fin_maps.
From Stdlib Require Import ZArith Lia.

(** ** Outcomes of Go code

    A Go function returns, panics, or (for a loop given too little fuel) is cut
    off.  [OutOfFuel] is never an answer of the program: every loop has a
    theorem that its fuel suffices. *)
Inductive outcome (A : Type) : Type :=
| Done (a : A)
| Panic (msg : string)
| OutOfFuel.
Arguments Done {_} _.
Arguments Panic {_} _.
Arguments OutOfFuel {_}.

#[export] Instance outcome_ret : MRet outcome := @Done.
#[export] Instance outcome_bind : MBind outcome := fun A B f m =>
  match m with
  | Done a => f a
  | Panic s => Panic s
  | OutOfFuel => OutOfFuel
  end.
#[export] Instance outcome_fmap : FMap outcome := fun A B f m =>
  match m with
  | Done a => Done (f a)
  | Panic s => Panic s
  | OutOfFuel => OutOfFuel
  end.

(** A pointer dereference: nil or a dangling address panics. *)
Definition deref {A : Type} (o : option A) : outcome A :=
  match o with
  | Some a => Done a
  | None => Panic "invalid memory address or nil pointer dereference"
  end.

(** ** State monad over outcomes *)
Definition M (S A : Type) : Type := S → outcome (A * S).
#[export] Instance M_ret {S} : MRet (M S) := fun A a s => Done (a, s).
#[export] Instance M_bind {S} : MBind (M S) := fun A B f m s =>
  match m s with
  | Done (a, s) => f a s
  | Panic msg => Panic msg
  | OutOfFuel => OutOfFuel
  end.
Definition gets {S A} (f : S → A) : M S A := fun s => Done (f s, s).
Definition modify {S} (f : S → S) : M S () := fun s => Done ((), f s).
Definition panic {S A} (msg : string) : M S A := fun _ => Panic msg.
Definition nonnil {S A} (o : option A) : M S A := fun s => a ← deref o; Done (a, s).

(** ** Machine integers: values of Go's sized types are integers in range, and
    arithmetic wraps around. *)
Declare Scope go_scope.
Delimit Scope go_scope with go.

Definition wrap (w : Z) (z : Z) : Z := z mod 2 ^ w.
Notation "'u64' z" := (wrap 64 z) (at level 9, z at level 9) : go_scope.
Notation "'u32' z" := (wrap 32 z) (at level 9, z at level 9) : go_scope.

(** Go's conversion [int64(x)] of a [uint64]. *)
Definition int64_of (z : Z) : Z :=
  let w := wrap 64 z in if decide (w < 2 ^ 63)%Z then w else (w - 2 ^ 64)%Z.

(** ** Automation *)
Create HintDb go.

(** Splits every [match] and [if] of the goal and of the hypotheses. *)
Ltac split_cases :=
  repeat first
    [ progress simplify_eq/=
    | case_match ].

(** Runs the monadic code one bind at a time. *)
Ltac run_outcome := repeat (progress (cbn [mbind outcome_bind mret outcome_ret fmap outcome_fmap deref])).

(** Runs state-passing code whose next results are known. *)
Ltac run_M := unfold mbind, M_bind, mret, M_ret, outcome_bind, outcome_ret, gets, modify, panic, nonnil, deref;
  cbn beta iota delta [fst snd].

(** ** Lemmas on outcomes *)
Lemma bind_Done_inv {A B} (m : outcome A) (f : A → outcome B) b :
  (m ≫= f) = Done b → ∃ a, m = Done a ∧ f a = Done b.
Proof. destruct m; naive_solver. Qed.

Lemma M_bind_eq {S A B} (m : M S A) (f : A → M S B) s a s' : m s = Done (a, s') → (m ≫= f) s = f a s'.
Proof. intros E. unfold mbind, M_bind. by rewrite E. Qed.

Lemma M_bind_inv {S A B} (m : M S A) (f : A → M S B) s b s'' : (m ≫= f) s = Done (b, s'') →
  ∃ a s', m s = Done (a, s') ∧ f a s' = Done (b, s'').
Proof. unfold mbind, M_bind. destruct (m s) as [[a s']| |]; [eauto|done..]. Qed.

(** Replaces the first call of a sequence by its known result. *)
Ltac mstep H := erewrite M_bind_eq; [|by eapply H]; cbn beta iota.

(** ** Lemmas on machine integers *)
Lemma wrap_range w z : (0 ≤ w)%Z → (0 ≤ wrap w z < 2 ^ w)%Z.
Proof. intros. apply Z.mod_pos_bound. lia. Qed.

Lemma wrap_small w z : (0 ≤ z < 2 ^ w)%Z → wrap w z = z.
Proof. apply Z.mod_small. Qed.

Lemma wrap_idem w z : wrap w (wrap w z) = wrap w z.
Proof. apply Zmod_mod. Qed.

Lemma wrap_add_l w a b : wrap w (wrap w a + b) = wrap w (a + b).
Proof. apply Zplus_mod_idemp_l. Qed.

Lemma wrap_sub_l w a b : wrap w (wrap w a - b) = wrap w (a - b).
Proof. apply Zminus_mod_idemp_l. Qed.

Lemma wrap_sub_r w a b : wrap w (a - wrap w b) = wrap w (a - b).
Proof. apply Zminus_mod_idemp_r. Qed.

Create Rewrite HintDb go_wrap.
#[export] Hint Rewrite wrap_idem wrap_add_l wrap_sub_l wrap_sub_r : go_wrap.
#[export] Hint Resolve wrap_range : go.


(** ** Counting the elements of a list that pass a test *)
Fixpoint count {A} (f : A → bool) (l : list A) : nat :=
  match l with
  | [] => 0
  | x :: l => Nat.b2n (f x) + count f l
  end.

Lemma count_app {A} (f : A → bool) l k : count f (l ++ k) = count f l + count f k.
Proof. induction l; simpl; lia. Qed.

Lemma count_le {A} (f : A → bool) l : count f l ≤ length l.
Proof. induction l as [|x l]; simpl; [lia|]. destruct (f x); simpl; lia. Qed.

Lemma count_lookup {A} (f : A → bool) l i x : l !! i = Some x → f x = true → 0 < count f l.
Proof.
  revert i. induction l as [|y l IH]; intros [|i] Hl Hf; simplify_eq/=; [rewrite Hf; simpl; lia|].
  specialize (IH i Hl Hf). lia.
Qed.

Lemma count_pos {A} (f : A → bool) l : 0 < count f l → ∃ i x, l !! i = Some x ∧ f x = true.
Proof.
  induction l as [|y l IH]; simpl; [lia|]. destruct (f y) eqn:Hf; [intros _; by exists 0, y|].
  intros (i & x & ? & ?)%IH. by exists (S i), x.
Qed.

Lemma count_insert {A} (f : A → bool) l i x y : l !! i = Some x →
  count f (<[ i := y ]> l) + Nat.b2n (f x) = count f l + Nat.b2n (f y).
Proof.
  revert i. induction l as [|z l IH]; intros [|i] Hl; simplify_eq/=; [lia|]. specialize (IH i Hl). lia.
Qed.

Lemma count_unique {A} (f : A → bool) l i j x y : count f l ≤ 1 →
  l !! i = Some x → l !! j = Some y → f x = true → f y = true → i = j.
Proof.
  revert i j. induction l as [|z l IH]; intros [|i] [|j] Hc Hi Hj Hx Hy; simplify_eq/=; try done.
  - pose proof (count_lookup f l j y Hj Hy). rewrite Hx in Hc. simpl in Hc. lia.
  - pose proof (count_lookup f l i x Hi Hx). rewrite Hy in Hc. simpl in Hc. lia.
  - f_equal. apply IH; [lia|done..].
Qed.

Lemma count_ext {A} (f g : A → bool) l : (∀ x, x ∈ l → f x = g x) → count f l = count g l.
Proof.
  induction l as [|x l IH]; intros Hfg; simpl; [done|]. rewrite IH by (intros; apply Hfg; by right).
  by rewrite (Hfg x) by left.
Qed.

(** ** Selecting from a list an element of which is replaced *)
Lemma omap_insert_same {A B} (f : A → option B) (l : list A) (i : nat) x y : l !! i = Some x → f y = f x → omap f (<[ i := y ]> l) = omap f l.
Proof.
  revert i. induction l as [|z l IH]; intros [|i] Hi Hf; simplify_eq/=; [by rewrite Hf|].
  destruct (f z); [f_equal|]; by eapply IH.
Qed.
Lemma omap_insert_new {A B} (f : A → option B) (l : list A) (i : nat) x y b : l !! i = Some x → f x = None → f y = Some b →
  omap f (<[ i := y ]> l) ≡ₚ omap f l ++ [b].
Proof.
  revert i. induction l as [|z l IH]; intros [|i] Hi Hx Hy; simplify_eq/=.
  - rewrite Hx, Hy. apply Permutation_cons_append.
  - destruct (f z); [simpl; f_equiv|]; by eapply IH.
Qed.

(** ** Strings *)
Lemma string_length_app s t : String.length (s +:+ t) = String.length s + String.length t.
Proof. induction s; simpl; [done|]. by f_equal. Qed.

(** [strings.ToLower] on ASCII. *)
Definition lower (c : Ascii.ascii) : Ascii.ascii :=
  let n := Ascii.nat_of_ascii c in
  if decide (65 ≤ n ≤ 90) then Ascii.ascii_of_nat (n + 32) else c.
Fixpoint ToLower (s : string) : string :=
  match s with
  | EmptyString => EmptyString
  | String c s => String (lower c) (ToLower s)
  end.
