(* ===== verification/Acker.v ===== *)
(** * Event acknowledgement tracking: pkg/publisher/acker

    [Module Tracking] models [trackingACKer] with the heap of [gapInfo] nodes
    its linked list lives in; [Module EventData] models [eventDataACKer] on top
    of it; the interleavings of the two goroutines that use it are in AckerConc.v, the
    remaining ackers (counting, last event, combined, connection only) in
    AckerWrappers.v.

    The specification is a plain queue of outstanding events ([spec_queue]):
    [true] for an event that was sent, [false] for one that was dropped. *)

From stdpp Require Import base gmap strings list fin_maps.
From Stdlib Require Import ZArith Lia.
From S2P Require Import Prelude.

(** ** The program *)
Module Tracking.

(** A node of the gap list. *)
Record gapInfo := mkGap {
  next : option nat;
  send : Z;
  dropped : Z
}.

(** [trackingACKer] with its [gapList]: the nodes by address, the next free
    address, the [head] and [tail] pointers and the [events] counter. *)
Record trackingACKer := mkTracking {
  nodes : gmap nat gapInfo;
  free : nat;
  head : nat;
  tail : nat;
  events : Z
}.

(** The arguments of one call of the callback [fn(acked, total)]. *)
Definition call : Type := Z * Z.

Definition emptyGap : gapInfo := mkGap None 0 0.

(** [TrackingCounter]: one empty gap that is head and tail. *)
Definition TrackingCounter : trackingACKer :=
  mkTracking {[ 0 := emptyGap ]} 1 0 0 0.

Definition set_nodes (f : gmap nat gapInfo → gmap nat gapInfo) (a : trackingACKer) :=
  mkTracking (f (nodes a)) (free a) (head a) (tail a) (events a).
Definition set_head (p : nat) (a : trackingACKer) :=
  mkTracking (nodes a) (free a) p (tail a) (events a).
Definition set_events (f : Z → Z) (a : trackingACKer) :=
  mkTracking (nodes a) (free a) (head a) (tail a) (f (events a)).

(** [&gapInfo{}] linked behind the tail: [a.lst.tail.next = tmp; a.lst.tail = tmp]. *)
Definition appendGap (current : gapInfo) (a : trackingACKer) : trackingACKer :=
  let tmp := free a in
  mkTracking
    (<[ tmp := emptyGap ]> (<[ tail a := mkGap (Some tmp) (send current) (dropped current) ]> (nodes a)))
    (S tmp) (head a) tmp (events a).

Definition addPublishedEvent (a : trackingACKer) : outcome trackingACKer :=
  current ← deref (nodes a !! tail a);
  let a := if decide (dropped current > 0)%Z then appendGap current a else a in
  current ← deref (nodes a !! tail a);
  Done (set_nodes <[ tail a := mkGap (next current) (send current + 1) (dropped current) ]> a).

(** Returns the state and the callback calls made. *)
Definition addDropEvent (a : trackingACKer) : outcome (trackingACKer * list call) :=
  current ← deref (nodes a !! tail a);
  if decide (send current = 0%Z ∧ next current = None) then
    if decide (head a ≠ tail a) then Panic "gap list expected to be empty"
    else Done (set_events (λ e, wrap 32 (e - 1)) a, [(0, 1)%Z])
  else
    Done (set_nodes <[ tail a := mkGap (next current) (send current) (dropped current + 1) ]> a, []).

Definition AddEvent (published : bool) (a : trackingACKer) : outcome (trackingACKer * list call) :=
  let a := set_events (λ e, wrap 32 (e + 1)) a in
  if published then a ← addPublishedEvent a; Done (a, [])
  else addDropEvent a.

(** One iteration of the loop of [ACKEvents]: takes [n], [total] and
    [emptyLst] and returns their new values. *)
Definition ackStep (n total : Z) (emptyLst : bool) (a : trackingACKer)
    : outcome (Z * Z * bool * trackingACKer) :=
  if emptyLst then Panic "too many events acked" else
  let cur := head a in
  current ← deref (nodes a !! cur);
  let '(emptyLst, a) :=
    if decide (n >= send current)%Z then
      match next current with
      | None => (true, a)
      | Some nx => (false, set_head nx a)
      end
    else (emptyLst, a) in
  if decide (n < send current)%Z then
    Done (0%Z, (total + n)%Z, emptyLst,
          set_nodes <[ cur := mkGap (next current) (send current - n) (dropped current) ]> a)
  else
    Done ((n - send current)%Z, (total + (send current + dropped current))%Z, emptyLst,
          set_nodes <[ cur := mkGap (next current) 0 0 ]> a).

Fixpoint ackLoop (fuel : nat) (n total : Z) (emptyLst : bool) (a : trackingACKer)
    : outcome (Z * trackingACKer) :=
  if decide (n > 0)%Z then
    match fuel with
    | 0 => OutOfFuel
    | S fuel =>
      r ← ackStep n total emptyLst a;
      let '(n, total, emptyLst, a) := r in
      ackLoop fuel n total emptyLst a
    end
  else Done (total, a).

(** The loop drops or empties a node per iteration, and one more iteration
    detects an empty list. *)
Definition ACKEvents (n : Z) (a : trackingACKer) : outcome (trackingACKer * list call) :=
  r ← ackLoop (S (size (nodes a))) n 0 false a;
  let '(total, a) := r in
  Done (set_events (λ e, wrap 32 (e - wrap 32 total)) a, [(n, total)]).

End Tracking.

(** [eventDataACKer] and [EventPrivateReporter]: the private fields of all
    events not yet reported, in the order of the calls of [AddEvent]. *)
Module EventData.
Section event_data.
Context {D : Type}.

Record eventDataACKer := mkEventData {
  acker : Tracking.trackingACKer;
  data : list D
}.

(** The arguments of one call of the callback [fn(acked, data)]. *)
Definition report : Type := Z * list D.

Definition EventPrivateReporter : eventDataACKer := mkEventData Tracking.TrackingCounter [].

Definition slice_out_of_range : string := "slice bounds out of range".

(** [data := a.data[:total]; a.data = a.data[total:]] *)
Definition onACK (acked total : Z) (dat : list D) : outcome (list D * list report) :=
  if decide (total = 0)%Z then Done (dat, [])
  else if decide (0 ≤ total ≤ Z.of_nat (length dat))%Z then
    let reported := take (Z.to_nat total) dat in
    Done (drop (Z.to_nat total) dat,
          if decide (0 < length reported) then [(acked, reported)] else [])
  else Panic slice_out_of_range.

(** The callback calls of the tracking acker, run in their order. *)
Fixpoint runCallbacks (calls : list Tracking.call) (dat : list D) : outcome (list D * list report) :=
  match calls with
  | [] => Done (dat, [])
  | (acked, total) :: calls =>
    r ← onACK acked total dat;
    r' ← runCallbacks calls r.1;
    Done (r'.1, r.2 ++ r'.2)
  end.

Definition AddEvent (private : D) (published : bool) (a : eventDataACKer)
    : outcome (eventDataACKer * list report) :=
  let dat := data a ++ [private] in
  r ← Tracking.AddEvent published (acker a);
  c ← runCallbacks r.2 dat;
  Done (mkEventData r.1 c.1, c.2).

Definition ACKEvents (n : Z) (a : eventDataACKer) : outcome (eventDataACKer * list report) :=
  r ← Tracking.ACKEvents n (acker a);
  c ← runCallbacks r.2 (data a);
  Done (mkEventData r.1 c.1, c.2).

End event_data.
Arguments eventDataACKer : clear implicits.
Arguments report : clear implicits.
End EventData.

(** ** The specification *)

(** [consume n q] is the number of events reported when [n] sent events of the
    outstanding events [q] are acknowledged: everything up to the [n]-th sent
    event, and the dropped events that follow it.  [None]: fewer than [n] sent
    events are outstanding. *)
Fixpoint consume (n : nat) (q : list bool) : option nat :=
  match q with
  | [] => if decide (n = 0) then Some 0 else None
  | false :: q => S <$> consume n q
  | true :: q =>
    match n with
    | 0 => Some 0
    | S n => S <$> consume n q
    end
  end.

Definition sent_events (q : list bool) : nat := length (filter (λ b, b = true) q).

(** A gap as the events it stands for, and a list of gaps. *)
Definition gap_events (g : Z * Z) : list bool :=
  replicate (Z.to_nat g.1) true ++ replicate (Z.to_nat g.2) false.
Definition gaps_events (l : list (nat * (Z * Z))) : list bool := l ≫= λ c, gap_events c.2.

(** The list segment from address [a] to address [b], with the counters found. *)
Fixpoint lseg (h : gmap nat Tracking.gapInfo) (a : nat) (l : list (nat * (Z * Z))) (b : nat) : Prop :=
  match l with
  | [] => a = b
  | (x, (s, d)) :: l =>
    a = x ∧ ∃ nx, h !! x = Some (Tracking.mkGap (Some nx) s d) ∧ lseg h nx l b
  end.

Definition full_gap (c : nat * (Z * Z)) : Prop := (0 < c.2.1 ∧ 0 < c.2.2)%Z.

(** The shape of the heap: the gaps [pre] followed by the tail gap [(s, d)]. *)
Record gap_list (a : Tracking.trackingACKer) (pre : list (nat * (Z * Z))) (s d : Z) : Prop := {
  gl_lseg : lseg (Tracking.nodes a) (Tracking.head a) pre (Tracking.tail a);
  gl_tail : Tracking.nodes a !! Tracking.tail a = Some (Tracking.mkGap None s d);
  gl_nodup : NoDup (pre.*1 ++ [Tracking.tail a]);
  gl_free : ∀ x g, Tracking.nodes a !! x = Some g → x < Tracking.free a;
  gl_full : Forall full_gap pre;
  gl_counts : (0 ≤ s ∧ 0 ≤ d ∧ (0 < d → 0 < s))%Z
}.

(** The acker's list holds exactly the outstanding events [q], in [S m] gaps. *)
Definition outstanding_gaps (m : nat) (a : Tracking.trackingACKer) (q : list bool) : Prop :=
  ∃ pre s d, gap_list a pre s d ∧ (pre = [] ∨ (0 < s)%Z) ∧
    q = gaps_events pre ++ gap_events (s, d) ∧ length pre = m.
Definition outstanding (a : Tracking.trackingACKer) (q : list bool) : Prop :=
  ∃ m, outstanding_gaps m a q.

(** ... and the [events] counter agrees, modulo its width. *)
Definition tracks (a : Tracking.trackingACKer) (q : list bool) : Prop :=
  outstanding a q ∧ Tracking.events a = wrap 32 (Z.of_nat (length q)).

(** ** Lemmas: the specification *)
Section spec_lemmas.
Implicit Types (q : list bool) (n : nat).

Lemma consume_sent q n s : consume n (replicate s true ++ q) =
  if decide (n < s) then Some n else Nat.add s <$> consume (n - s) q.
Proof.
  revert n. induction s as [|s IH]; intros n; simpl.
  - rewrite Nat.sub_0_r. by destruct (consume n q).
  - destruct n as [|n]; [done|]. rewrite IH.
    repeat case_decide; try lia; simpl; [done|]. by destruct (consume (n - s) q).
Qed.

Lemma consume_dropped q n d : consume n (replicate d false ++ q) = Nat.add d <$> consume n q.
Proof.
  induction d as [|d IH]; simpl; [by destruct (consume n q)|].
  rewrite IH. by destruct (consume n q).
Qed.

Lemma consume_gap q n s d : consume n (gap_events (s, d) ++ q) =
  if decide (n < Z.to_nat s) then Some n
  else Nat.add (Z.to_nat s + Z.to_nat d) <$> consume (n - Z.to_nat s) q.
Proof.
  unfold gap_events; simpl. rewrite <-(assoc_L (++)), consume_sent, consume_dropped.
  case_decide; [done|]. destruct (consume _ q); simpl; f_equal; lia.
Qed.

Lemma consume_le q n k : consume n q = Some k → k ≤ length q.
Proof.
  revert n k. induction q as [|[] q IH]; intros n k; simpl.
  - case_decide; naive_solver.
  - destruct n; [intros [= <-]; lia|].
    destruct (consume n q) eqn:E; intros [= <-]. apply IH in E. lia.
  - destruct (consume n q) eqn:E; intros [= <-]. apply IH in E. lia.
Qed.

Lemma consume_is_Some q n : is_Some (consume n q) ↔ n ≤ sent_events q.
Proof.
  unfold sent_events. revert n. induction q as [|[] q IH]; intros n; simpl.
  - case_decide; split; intros; [lia|eauto|by destruct H0|lia].
  - destruct n as [|n]; [split; [lia|eauto]|].
    rewrite fmap_is_Some, IH. lia.
  - by rewrite fmap_is_Some, IH.
Qed.

Lemma gap_events_length s d : length (gap_events (s, d)) = Z.to_nat s + Z.to_nat d.
Proof. unfold gap_events. by rewrite length_app, !length_replicate. Qed.

Lemma drop_gap q (s d : Z) k :
  drop (Z.to_nat s + Z.to_nat d + k) (gap_events (s, d) ++ q) = drop k q.
Proof. rewrite <-gap_events_length, drop_app_add; done. Qed.

Lemma drop_gap_part q (s d n : Z) : (0 ≤ n ≤ s)%Z →
  drop (Z.to_nat n) (gap_events (s, d) ++ q) = gap_events ((s - n)%Z, d) ++ q.
Proof.
  intros. unfold gap_events; simpl.
  replace (Z.to_nat s) with (Z.to_nat n + Z.to_nat (s - n)) by lia.
  rewrite replicate_add, <-!(assoc_L (++)).
  rewrite drop_app_length' by by rewrite length_replicate. done.
Qed.

End spec_lemmas.

(** ** Lemmas: the heap *)
Section heap_lemmas.
Implicit Types (h : gmap nat Tracking.gapInfo) (l : list (nat * (Z * Z))).

Lemma lseg_insert h a l b x g : x ∉ l.*1 → lseg h a l b → lseg (<[x := g]> h) a l b.
Proof.
  revert a. induction l as [|[y [s d]] l IH]; intros a Hx; simpl; [done|].
  apply not_elem_of_cons in Hx as [Hne Hx].
  intros [-> (nx & Hy & Hl)]. split; [done|]. exists nx.
  rewrite lookup_insert_ne by done. auto.
Qed.

Lemma lseg_snoc h a l b s d c :
  lseg h a l b → h !! b = Some (Tracking.mkGap (Some c) s d) →
  lseg h a (l ++ [(b, (s, d))]) c.
Proof.
  revert a. induction l as [|[y [s' d']] l IH]; intros a; simpl.
  - intros ->. eauto.
  - intros [-> (nx & Hy & Hl)] Hb. eauto 10.
Qed.

Lemma lseg_length h a l b : lseg h a l b → NoDup (l.*1) → length l ≤ size h.
Proof.
  intros Hl Hnd. rewrite <-size_dom.
  assert (list_to_set l.*1 ⊆ dom h) as Hsub.
  { revert a Hl. clear Hnd. induction l as [|[y [s' d']] l IH]; intros a; simpl; [set_solver|].
    intros [-> (nx & Hy & Hl)]. apply elem_of_dom_2 in Hy. apply IH in Hl. set_solver. }
  apply subseteq_size in Hsub. rewrite size_list_to_set, length_fmap in Hsub by done. done.
Qed.

Lemma gl_length a pre s d : gap_list a pre s d → length pre < size (Tracking.nodes a).
Proof.
  intros [Hl Ht Hnd _ _ _].
  assert (S (length pre) ≤ size (Tracking.nodes a)); [|lia].
  apply NoDup_app in Hnd as (Hnd & Hnotin & _).
  assert (lseg (delete (Tracking.tail a) (Tracking.nodes a)) (Tracking.head a) pre (Tracking.tail a)) as Hl'.
  { assert (Tracking.tail a ∉ pre.*1) as Hni by set_solver.
    revert Hl Hni. generalize (Tracking.head a). clear. induction pre as [|[y [s d]] pre IH]; simpl; [done|].
    intros h0 [-> (nx & Hy & Hl)] [Hne Hni]%not_elem_of_cons. split; [done|].
    exists nx. rewrite lookup_delete_ne by done. auto. }
  apply lseg_length in Hl'; [|done].
  rewrite map_size_delete, Ht in Hl'. simpl in Hl'.
  assert (size (Tracking.nodes a) ≠ 0); [|lia].
  intros Hz%map_size_empty_inv. by rewrite Hz in Ht.
Qed.

End heap_lemmas.

Lemma gaps_events_app l1 l2 : gaps_events (l1 ++ l2) = gaps_events l1 ++ gaps_events l2.
Proof. apply bind_app. Qed.

Lemma gap_events_head s d : (0 < s)%Z → ∃ q, gap_events (s, d) = true :: q.
Proof.
  intros. unfold gap_events; simpl. destruct (Z.to_nat s) eqn:E; [lia|]. simpl. eauto.
Qed.

(** The outstanding events never start with a dropped one: it was reported. *)
Lemma outstanding_head a pre s d : gap_list a pre s d →
  gaps_events pre ++ gap_events (s, d) = [] ∨
  ∃ q, gaps_events pre ++ gap_events (s, d) = true :: q.
Proof.
  intros [_ _ _ _ Hfull Hc]. destruct pre as [|[x [s' d']] pre]; simpl.
  - destruct (decide (0 < s)%Z) as [Hs|]; [right; by apply gap_events_head|].
    left. by replace s with 0%Z by lia; replace d with 0%Z by lia.
  - apply Forall_cons in Hfull as [[Hs _] _]. simpl in *.
    destruct (gap_events_head s' d' Hs) as [q ->]. simpl. eauto.
Qed.

Lemma consume_0 q : q = [] ∨ (∃ q', q = true :: q') → consume 0 q = Some 0.
Proof. by intros [->|[q' ->]]. Qed.

(** ** Lemmas: the operations *)
Lemma TrackingCounter_tracks : tracks Tracking.TrackingCounter [].
Proof.
  split; [|done]. exists 0, [], 0%Z, 0%Z. split; [|by auto].
  split; simpl; [done|done|apply NoDup_singleton| |constructor|done].
  intros x g [<- _]%lookup_singleton_Some. lia.
Qed.

Lemma update_tail a pre s d s' d' :
  gap_list a pre s d → (0 ≤ s' ∧ 0 ≤ d' ∧ (0 < d' → 0 < s'))%Z →
  gap_list (Tracking.set_nodes <[ Tracking.tail a := Tracking.mkGap None s' d' ]> a) pre s' d'.
Proof.
  intros [Hl Ht Hnd Hfree Hfull Hc] Hc'. split; simpl; try done.
  - apply lseg_insert; [|done]. apply NoDup_app in Hnd as (_ & ? & _). set_solver.
  - by rewrite lookup_insert_eq.
  - intros x g. rewrite lookup_insert. case_decide; [|by eauto].
    intros _. subst. by eapply Hfree.
Qed.

Lemma append_gap a pre s d :
  gap_list a pre s d → (0 < d)%Z →
  gap_list (Tracking.appendGap (Tracking.mkGap None s d) a)
    (pre ++ [(Tracking.tail a, (s, d))]) 0 0.
Proof.
  intros [Hl Ht Hnd Hfree Hfull Hc] Hd.
  assert (Hlt : Tracking.tail a < Tracking.free a) by (by eapply Hfree).
  assert (Hpre : ∀ x, x ∈ pre.*1 → x < Tracking.free a).
  { revert Hl. generalize (Tracking.head a). clear -Hfree.
    induction pre as [|[y [s d]] pre IH]; simpl; [set_solver|].
    intros h0 [-> (nx & Hy & Hl)] x [->|Hx]%elem_of_cons; eauto. }
  split; simpl.
  - apply lseg_snoc; [|by rewrite lookup_insert_ne, lookup_insert_eq by lia].
    apply NoDup_app in Hnd as (_ & ? & _).
    apply lseg_insert; [by intros ?%Hpre; lia|]. apply lseg_insert; [set_solver|done].
  - by rewrite lookup_insert_eq.
  - rewrite fmap_app. simpl. apply NoDup_app. split; [done|]. split; [|apply NoDup_singleton].
    intros x Hx Hx2%list_elem_of_singleton. subst x.
    apply elem_of_app in Hx as [Hx%Hpre|Hx%list_elem_of_singleton]; lia.
  - intros x g. rewrite !lookup_insert. repeat case_decide; [lia|lia|].
    intros Hx%Hfree. lia.
  - apply Forall_app. split; [done|]. apply Forall_singleton. unfold full_gap; simpl. lia.
  - lia.
Qed.

Lemma gap_events_sent s d : (0 ≤ s)%Z → d = 0%Z →
  gap_events ((s + 1)%Z, d) = gap_events (s, d) ++ [true].
Proof.
  intros ? ->. unfold gap_events; simpl. rewrite !app_nil_r.
  replace (Z.to_nat (s + 1)) with (Z.to_nat s + 1) by lia. by rewrite replicate_add.
Qed.

Lemma gap_events_dropped s d : (0 ≤ d)%Z →
  gap_events (s, (d + 1)%Z) = gap_events (s, d) ++ [false].
Proof.
  intros ?. unfold gap_events; simpl.
  replace (Z.to_nat (d + 1)) with (Z.to_nat d + 1) by lia.
  by rewrite replicate_add, (assoc_L (++)).
Qed.

Lemma addPublishedEvent_spec a q : outstanding a q →
  ∃ a', Tracking.addPublishedEvent a = Done a' ∧ outstanding a' (q ++ [true]) ∧
    Tracking.events a' = Tracking.events a.
Proof.
  intros (m & pre & s & d & Hgl & _ & -> & _). unfold Tracking.addPublishedEvent.
  rewrite (gl_tail _ _ _ _ Hgl). run_outcome. simpl.
  destruct (gl_counts _ _ _ _ Hgl) as (Hs & Hd & _).
  case_decide as Hd0.
  - assert (Hgl' := append_gap _ _ _ _ Hgl ltac:(lia)).
    rewrite (gl_tail _ _ _ _ Hgl'). run_outcome. simpl.
    eexists. split; [done|]. split; [|done].
    eexists _, _, _, _. split; [eapply update_tail; [exact Hgl'|lia]|]. split; [right; lia|].
    rewrite gaps_events_app. unfold gaps_events at 3. simpl. by rewrite app_nil_r.
  - rewrite (gl_tail _ _ _ _ Hgl). run_outcome. simpl.
    eexists. split; [done|]. split; [|done].
    eexists _, _, _, _. split; [eapply update_tail; [exact Hgl|lia]|]. split; [right; lia|].
    split; [|done]. by rewrite gap_events_sent, (assoc_L (++)) by lia.
Qed.

(** A dropped event is reported at once when nothing is outstanding. *)
Lemma addDropEvent_spec a q : outstanding a q →
  ∃ a' calls, Tracking.addDropEvent a = Done (a', calls) ∧
    match q with
    | [] => calls = [(0, 1)%Z] ∧ outstanding a' [] ∧
            Tracking.events a' = wrap 32 (Tracking.events a - 1)
    | _ => calls = [] ∧ outstanding a' (q ++ [false]) ∧
           Tracking.events a' = Tracking.events a
    end.
Proof.
  intros (m & pre & s & d & Hgl & Hlast & Hq & _). unfold Tracking.addDropEvent.
  rewrite (gl_tail _ _ _ _ Hgl). run_outcome. simpl.
  destruct (gl_counts _ _ _ _ Hgl) as (Hs & Hd & Hsd).
  case_decide as Hempty.
  - destruct Hempty as [-> _]. assert (d = 0%Z) as -> by lia.
    destruct Hlast as [->|]; [|lia]. simpl in Hq. subst q.
    rewrite decide_False by (pose proof (gl_lseg _ _ _ _ Hgl); naive_solver).
    eexists _, _. split; [done|]. split; [done|]. split; [|done].
    exists 0, [], 0%Z, 0%Z. destruct Hgl. split; [by split|]. by auto.
  - assert (0 < s)%Z by (destruct (decide (s = 0%Z)); [naive_solver|lia]).
    eexists _, _. split; [done|].
    assert (∃ e q', q = e :: q') as (e & q' & Hne).
    { destruct q; [|by eauto]. destruct (gap_events_head s d) as [? Hh]; [lia|].
      rewrite Hh in Hq. destruct (gaps_events pre); naive_solver. }
    rewrite Hne. split; [done|]. split; [|done]. rewrite <-Hne.
    eexists _, _, _, _. split; [eapply update_tail; [exact Hgl|lia]|]. split; [by auto|].
    split; [|done]. subst q. by rewrite gap_events_dropped, (assoc_L (++)) by lia.
Qed.

(** The head gap is the first of [pre], or the tail gap. *)
Lemma gl_head a pre s d : gap_list a pre s d →
  match pre with
  | [] => Tracking.head a = Tracking.tail a
  | (x, (s', d')) :: pre' => Tracking.head a = x ∧ (x ∉ pre'.*1) ∧ x ≠ Tracking.tail a ∧
      ∃ nx, Tracking.nodes a !! x = Some (Tracking.mkGap (Some nx) s' d') ∧
            lseg (Tracking.nodes a) nx pre' (Tracking.tail a)
  end.
Proof.
  intros [Hl _ Hnd _ _ _]. destruct pre as [|[x [s' d']] pre']; [done|].
  destruct Hl as [-> Hnx]. apply NoDup_cons in Hnd as [[Hx1 Hx2]%not_elem_of_app _].
  split; [done|]. split; [done|]. split; [|done].
  by intros ->; apply Hx2, list_elem_of_singleton.
Qed.

(** Emptying the head gap and moving [head] to the next one. *)
Lemma advance_head a x s' d' pre s d nx g :
  gap_list a ((x, (s', d')) :: pre) s d →
  Tracking.nodes a !! x = Some (Tracking.mkGap (Some nx) s' d') →
  gap_list (Tracking.set_nodes <[ x := g ]> (Tracking.set_head nx a)) pre s d.
Proof.
  intros Hgl Hx. destruct (gl_head _ _ _ _ Hgl) as (_ & Hx1 & Hx2 & nx' & Hx' & Hl).
  destruct Hgl as [_ Ht Hnd Hfree Hfull Hc]. simplify_eq. split; simpl; try done.
  - by apply lseg_insert.
  - by rewrite lookup_insert_ne.
  - by apply NoDup_cons in Hnd as [_ ?].
  - intros y gy. rewrite lookup_insert. case_decide; [intros _; subst|]; eauto.
  - by apply Forall_cons in Hfull as [_ ?].
Qed.

Lemma update_head a x s' d' s'' pre s d nx :
  gap_list a ((x, (s', d')) :: pre) s d → (0 < s'')%Z →
  Tracking.nodes a !! x = Some (Tracking.mkGap (Some nx) s' d') →
  gap_list (Tracking.set_nodes <[ x := Tracking.mkGap (Some nx) s'' d' ]> a)
    ((x, (s'', d')) :: pre) s d.
Proof.
  intros Hgl Hs'' Hx. destruct (gl_head _ _ _ _ Hgl) as (Hh & Hx1 & Hx2 & nx' & Hx' & Hl).
  destruct Hgl as [_ Ht Hnd Hfree Hfull Hc]. simplify_eq. split; simpl; try done.
  - split; [done|]. exists nx. rewrite lookup_insert_eq. split; [done|]. by apply lseg_insert.
  - by rewrite lookup_insert_ne.
  - intros y gy. rewrite lookup_insert. case_decide; [intros _; subst|]; eauto.
  - apply Forall_cons in Hfull as [[_ ?] ?]. constructor; [by split|done].
Qed.

(** What one iteration of the acknowledgement loop establishes: it took [k]
    events off the outstanding ones; with acknowledgements left over it also
    used up a gap, or emptied the last one and set [emptyLst]. *)
Definition step_result (m : nat) (n total : Z) (q : list bool) (a : Tracking.trackingACKer)
    (n' total' : Z) (emptyLst : bool) (a' : Tracking.trackingACKer) : Prop :=
  ∃ m' k, outstanding_gaps m' a' (drop k q) ∧ Tracking.events a' = Tracking.events a ∧
    (0 ≤ n')%Z ∧ k ≤ length q ∧ total' = (total + Z.of_nat k)%Z ∧
    consume (Z.to_nat n) q = Nat.add k <$> consume (Z.to_nat n') (drop k q) ∧
    (n' ≠ 0%Z → if emptyLst then drop k q = [] else m' < m).

(** [n] acknowledgements within the first gap, and beyond it. *)
Lemma consume_within s d q n : (0 < n < s)%Z →
  let q0 := gap_events (s, d) ++ q in
  let q1 := gap_events ((s - n)%Z, d) ++ q in
  drop (Z.to_nat n) q0 = q1 ∧ Z.to_nat n ≤ length q0 ∧
  consume (Z.to_nat n) q0 = Nat.add (Z.to_nat n) <$> consume 0 q1.
Proof.
  intros Hn. simpl. split_and!.
  - apply drop_gap_part. lia.
  - rewrite length_app, gap_events_length. lia.
  - rewrite !consume_gap, !decide_True by lia. simpl. f_equal. lia.
Qed.

Lemma consume_beyond s d q n : (0 ≤ s ≤ n)%Z →
  let q0 := gap_events (s, d) ++ q in
  let k := Z.to_nat s + Z.to_nat d in
  drop k q0 = q ∧ k ≤ length q0 ∧
  consume (Z.to_nat n) q0 = Nat.add k <$> consume (Z.to_nat (n - s)) q.
Proof.
  intros Hn. simpl. split_and!.
  - rewrite <-(Nat.add_0_r (_ + _)). apply drop_gap.
  - rewrite length_app, gap_events_length. lia.
  - rewrite consume_gap, decide_False by lia. do 2 f_equal. lia.
Qed.

Lemma ackStep_spec m a q n total : outstanding_gaps m a q → (0 < n)%Z →
  ∃ n' total' emptyLst a', Tracking.ackStep n total false a = Done (n', total', emptyLst, a') ∧
    step_result m n total q a n' total' emptyLst a'.
Proof.
  intros (pre & s & d & Hgl & Hlast & -> & <-) Hn. unfold Tracking.ackStep.
  pose proof (gl_head _ _ _ _ Hgl) as Hhd.
  destruct (gl_counts _ _ _ _ Hgl) as (Hs & Hd & Hsd).
  destruct pre as [|[x [s' d']] pre].
  - rewrite Hhd, (gl_tail _ _ _ _ Hgl). run_outcome. simpl.
    rewrite <-(app_nil_r (gap_events (s, d))).
    destruct (decide (n < s)%Z) as [Hlt|Hge].
    + rewrite decide_False by lia. eexists _, _, _, _. split; [done|].
      destruct (consume_within s d [] n) as (Hdrop & Hle & Hcons); [lia|].
      exists 0, (Z.to_nat n). rewrite Hdrop. split_and!; try done; try (simpl; lia).
      eexists [], _, _. split; [eapply update_tail; [done|lia]|]. by rewrite app_nil_r; auto.
    + rewrite decide_True by lia. eexists _, _, _, _. split; [done|].
      destruct (consume_beyond s d [] n) as (Hdrop & Hle & Hcons); [lia|].
      exists 0, (Z.to_nat s + Z.to_nat d). rewrite Hdrop. split_and!; try done; try (simpl; lia).
      eexists [], 0%Z, 0%Z. split; [eapply update_tail; [done|lia]|]. by auto.
  - destruct Hhd as (Hh & Hx1 & Hx2 & nx & Hx & Hl). rewrite Hh, Hx. run_outcome. simpl.
    pose proof (gl_full _ _ _ _ Hgl) as Hfull.
    apply Forall_cons in Hfull as [[Hs' Hd'] _]. simpl in Hs', Hd'.
    rewrite <-(assoc_L (++)). set (q := gaps_events pre ++ gap_events (s, d)).
    destruct (decide (n < s')%Z) as [Hlt|Hge].
    + rewrite decide_False by lia. eexists _, _, _, _. split; [done|].
      destruct (consume_within s' d' q n) as (Hdrop & Hle & Hcons); [lia|].
      exists (S (length pre)), (Z.to_nat n). rewrite Hdrop. split_and!; try done; try (simpl; lia).
      eexists _, s, d. split; [eapply update_head; [done|lia|done]|].
      split; [right; destruct Hlast; [done|lia]|]. simpl. by rewrite <-(assoc_L (++)).
    + rewrite decide_True by lia. eexists _, _, _, _. split; [done|].
      destruct (consume_beyond s' d' q n) as (Hdrop & Hle & Hcons); [lia|].
      exists (length pre), (Z.to_nat s' + Z.to_nat d'). rewrite Hdrop.
      split_and!; try done; try (simpl; lia).
      eexists pre, s, d. split; [by eapply advance_head|].
      split; [right; destruct Hlast; [done|lia]|]. done.
Qed.

#[local] Arguments Tracking.ackStep : simpl never.

(** The loop with enough fuel: the outstanding events the specification says
    are reported, or the panic when too many events were acknowledged. *)
Lemma ackLoop_spec fuel m a q n total : outstanding_gaps m a q → (0 ≤ n)%Z → m + 2 ≤ fuel →
  match consume (Z.to_nat n) q with
  | Some k => ∃ a', Tracking.ackLoop fuel n total false a = Done ((total + Z.of_nat k)%Z, a') ∧
      outstanding a' (drop k q) ∧ Tracking.events a' = Tracking.events a
  | None => Tracking.ackLoop fuel n total false a = Panic "too many events acked"
  end.
Proof.
  revert m a q n total. induction fuel as [|fuel IH]; intros m a q n total Hout Hn Hfuel; [lia|].
  assert (H0 : ∀ m a q, outstanding_gaps m a q → consume 0 q = Some 0).
  { intros ??? (pre & s & d & Hgl & _ & -> & _). by eapply consume_0, outstanding_head. }
  simpl. case_decide as Hpos; [|].
  - destruct (ackStep_spec m a q n total Hout) as (n' & total' & e & a' & -> & Hstep); [lia|].
    run_outcome. destruct Hstep as (m' & k & Hout' & Hev & Hn' & Hk & -> & Hcons & Hnext).
    rewrite Hcons. destruct (decide (n' = 0%Z)) as [->|Hne].
    + change (Z.to_nat 0) with 0. rewrite (H0 _ _ _ Hout'). simpl. destruct fuel; simpl;
        (eexists; split; [do 2 f_equal; lia|]; split; [|done]; rewrite Nat.add_0_r; by exists m').
    + specialize (Hnext Hne). destruct e.
      * rewrite Hnext. destruct fuel as [|fuel]; [lia|]. simpl.
        destruct (decide (Z.to_nat n' = 0)); [lia|]. by destruct (decide (n' > 0)%Z); [|lia].
      * specialize (IH m' a' (drop k q) n' (total + Z.of_nat k)%Z Hout' Hn' ltac:(lia)).
        destruct (consume (Z.to_nat n') (drop k q)) as [j|]; simpl; [|done].
        destruct IH as (a'' & -> & Hout'' & Hev''). exists a''.
        rewrite drop_drop in Hout''. split; [do 2 f_equal; lia|]. by rewrite Hev''.
  - assert (n = 0%Z) as -> by lia. change (Z.to_nat 0) with 0. rewrite (H0 _ _ _ Hout).
    exists a. split; [do 2 f_equal; lia|]. rewrite drop_0. split; [by exists m|done].
Qed.

Lemma fuel_enough m a q : outstanding_gaps m a q → m + 2 ≤ S (size (Tracking.nodes a)).
Proof. intros (pre & s & d & Hgl & _ & _ & <-). apply gl_length in Hgl. lia. Qed.

(** The counter is no part of the list. *)
Lemma set_events_outstanding f a m q :
  outstanding_gaps m a q → outstanding_gaps m (Tracking.set_events f a) q.
Proof.
  intros (pre & s & d & Hgl & Hrest). exists pre, s, d. split; [|done].
  destruct Hgl. by split.
Qed.

Lemma AddEvent_outstanding a q published : outstanding a q →
  ∃ a' calls, Tracking.AddEvent published a = Done (a', calls) ∧
    if decide (published = false ∧ q = [])
    then calls = [(0, 1)%Z] ∧ outstanding a' [] ∧
         Tracking.events a' = wrap 32 (wrap 32 (Tracking.events a + 1) - 1)
    else calls = [] ∧ outstanding a' (q ++ [published]) ∧
         Tracking.events a' = wrap 32 (Tracking.events a + 1).
Proof.
  intros [m Hout]. unfold Tracking.AddEvent. set (a1 := Tracking.set_events _ a).
  assert (Hout1 : outstanding a1 q) by (exists m; by apply set_events_outstanding).
  destruct published.
  - destruct (addPublishedEvent_spec a1 q Hout1) as (a' & -> & Hout' & Hev').
    run_outcome. eexists _, _. split; [done|]. by rewrite decide_False by naive_solver.
  - destruct (addDropEvent_spec a1 q Hout1) as (a' & calls & -> & Hspec).
    eexists _, _. split; [done|]. destruct q as [|e q].
    + by rewrite decide_True.
    + by rewrite decide_False by naive_solver.
Qed.

Lemma AddEvent_spec a q published : tracks a q →
  ∃ a' calls, Tracking.AddEvent published a = Done (a', calls) ∧
    if decide (published = false ∧ q = []) then calls = [(0, 1)%Z] ∧ tracks a' []
    else calls = [] ∧ tracks a' (q ++ [published]).
Proof.
  intros [Hout Hev]. destruct (AddEvent_outstanding a q published Hout) as (a' & calls & Hadd & Hspec).
  exists a', calls. split; [done|]. rewrite Hev in Hspec. autorewrite with go_wrap in Hspec.
  case_decide as Hd; destruct Hspec as (-> & Hout' & Hev'); split; [done| |done|];
    (split; [done|]); rewrite Hev'.
  - by destruct Hd as [_ ->].
  - rewrite length_app. simpl. f_equal. lia.
Qed.

Lemma ACKEvents_spec a q n : tracks a q → (0 ≤ n)%Z →
  match consume (Z.to_nat n) q with
  | Some k => ∃ a', Tracking.ACKEvents n a = Done (a', [(n, Z.of_nat k)]) ∧ tracks a' (drop k q)
  | None => Tracking.ACKEvents n a = Panic "too many events acked"
  end.
Proof.
  intros [[m Hout] Hev] Hn. unfold Tracking.ACKEvents.
  pose proof (ackLoop_spec _ m a q n 0 Hout Hn (fuel_enough _ _ _ Hout)) as Hloop.
  destruct (consume (Z.to_nat n) q) as [k|] eqn:Hc; [|by rewrite Hloop].
  destruct Hloop as (a' & -> & [m' Hout'] & Hev'). run_outcome.
  eexists. split; [done|]. split; [exists m'; by apply set_events_outstanding|]. simpl.
  apply consume_le in Hc. rewrite Hev', Hev, length_drop.
  autorewrite with go_wrap. f_equal. lia.
Qed.

Lemma sent_events_app q1 q2 : sent_events (q1 ++ q2) = sent_events q1 + sent_events q2.
Proof. unfold sent_events. by rewrite filter_app, length_app. Qed.

Lemma sent_events_snoc q b : sent_events (q ++ [b]) = sent_events q + Nat.b2n b.
Proof. rewrite sent_events_app. by destruct b. Qed.

Lemma consume_count q n k : consume n q = Some k → sent_events (take k q) = n.
Proof.
  revert n k. induction q as [|[] q IH]; intros n k; simpl.
  - case_decide; naive_solver.
  - destruct n as [|n]; [by intros [= <-]|].
    destruct (consume n q) as [j|] eqn:E; intros [= <-]. simpl.
    unfold sent_events in *. simpl. by rewrite (IH n j).
  - destruct (consume n q) as [j|] eqn:E; intros [= <-]. by apply IH.
Qed.

(** ** Properties *)

(** C13.  Acknowledging [n] sent events reports exactly the events up to the
    [n]-th sent one with the dropped events behind it, in one call of the
    callback, and leaves the rest outstanding; acknowledging more than were
    sent panics.  The loop never runs out of fuel: it terminates. *)
Theorem ACKEvents_correct a q n : tracks a q → (0 ≤ n)%Z →
  match consume (Z.to_nat n) q with
  | Some k => ∃ a', Tracking.ACKEvents n a = Done (a', [(n, Z.of_nat k)]) ∧ tracks a' (drop k q)
  | None => Tracking.ACKEvents n a = Panic "too many events acked"
  end.
Proof. apply ACKEvents_spec. Qed.

(** C22.  [AddEvent] appends the event to the outstanding ones, and reports a
    dropped event at once (acked 0, total 1) when nothing is outstanding; the
    "gap list expected to be empty" panic is unreachable. *)
Theorem AddEvent_correct a q published : tracks a q →
  ∃ a' calls, Tracking.AddEvent published a = Done (a', calls) ∧
    if decide (published = false ∧ q = []) then calls = [(0, 1)%Z] ∧ tracks a' []
    else calls = [] ∧ tracks a' (q ++ [published]).
Proof. apply AddEvent_spec. Qed.

(** ** Witnesses: the example of the documentation, [X X D D X D D X D X X X] *)
Definition doc_events : list bool :=
  [true; true; false; false; true; false; false; true; false; true; true; true].

Definition doc_acker : Tracking.trackingACKer :=
  Tracking.mkTracking
    (<[ 3 := Tracking.mkGap None 3 0 ]> (<[ 2 := Tracking.mkGap (Some 3) 1 1 ]>
      (<[ 1 := Tracking.mkGap (Some 2) 1 2 ]> {[ 0 := Tracking.mkGap (Some 1) 2 2 ]})))
    4 0 3 12.

(** It is the state after adding these events. *)
Fixpoint addAll (l : list bool) (a : Tracking.trackingACKer)
    : outcome (Tracking.trackingACKer * list Tracking.call) :=
  match l with
  | [] => Done (a, [])
  | p :: l =>
    r ← Tracking.AddEvent p a;
    r' ← addAll l r.1;
    Done (r'.1, r.2 ++ r'.2)
  end.

Example doc_acker_reached : addAll doc_events Tracking.TrackingCounter = Done (doc_acker, []).
Proof. vm_compute. reflexivity. Qed.

Lemma doc_tracks : tracks doc_acker doc_events.
Proof.
  split; [|reflexivity].
  exists 3, [(0, (2%Z, 2%Z)); (1, (1%Z, 2%Z)); (2, (1%Z, 1%Z))], 3%Z, 0%Z.
  split; [|split; [right; lia|split; reflexivity]].
  split.
  - simpl. split; [done|]. exists 1. split; [done|]. split; [done|]. exists 2.
    split; [done|]. split; [done|]. exists 3. done.
  - reflexivity.
  - apply (bool_decide_unpack _). vm_compute. exact I.
  - assert (map_Forall (λ x _, x < 4) (Tracking.nodes doc_acker)) as H
      by (apply (bool_decide_unpack _); vm_compute; exact I).
    exact H.
  - repeat constructor; simpl; lia.
  - lia.
Qed.

Lemma ACKEvents_correct_witness :
  ∃ a', Tracking.ACKEvents 3 doc_acker = Done (a', [(3, 7)%Z]) ∧
    tracks a' [true; false; true; true; true].
Proof. exact (ACKEvents_correct doc_acker doc_events 3 doc_tracks ltac:(lia)). Defined.

Lemma AddEvent_correct_witness :
  ∃ a' calls, Tracking.AddEvent false doc_acker = Done (a', calls) ∧
    calls = [] ∧ tracks a' (doc_events ++ [false]).
Proof. exact (AddEvent_correct doc_acker doc_events false doc_tracks). Defined.
