(* ===== verification/AckerConc.v ===== *)
(** * Event acknowledgement: all interleavings of publishing and acknowledging

    [AddEvent] of an [eventDataACKer] is called by the goroutine that publishes,
    [ACKEvents] by the one that handles acknowledgements.  The locks make these the
    atomic steps: the append to [data] under [mu]; the tracking acker's [AddEvent]
    under the list lock, with the data that [onACK] takes if it reports a dropped
    event; each iteration of the acknowledgement loop; and [onACK]'s taking of data
    under [mu].  The callback is called after [mu] was given back, which is a step of
    its own: so calls of the callback by the two goroutines may come in another
    order than the data was taken ([reports_can_overtake]). *)

From stdpp Require Import base gmap strings list fin_maps relations.
From Stdlib Require Import ZArith Lia.
From S2P Require Import Prelude Acker.

Section interleaving.
Context {D : Type}.
Abbreviation report := (EventData.report D).

(** The producer is idle; has appended to [data] and goes on with the tracking
    acker; calls the callback, with the list lock held. *)
Inductive prod_pc :=
| ProdIdle
| ProdAdd (published : bool)
| ProdReport (reps : list report).

Inductive ack_pc :=
| AckIdle
| AckLoop (acked n total : Z) (emptyLst : bool)
| AckTake (acked total : Z)
| AckReport (reps : list report).

(** The shared state, the program counters, and for the statements the history
    of all events, all data taken from the queue in order, the calls of the callback
    in order and the number of events acknowledged. *)
Record sys := mkSys {
  trk : Tracking.trackingACKer;
  dat : list D;
  producer : prod_pc;
  ack : ack_pc;
  history : list (D * bool);
  reported : list D;
  delivered : list report;
  acknowledged : nat
}.

Definition init : sys := mkSys Tracking.TrackingCounter [] ProdIdle AckIdle [] [] [] 0.

Definition published_in (l : list (D * bool)) : nat := length (filter (λ e, e.2 = true) l).

(** The events [AddEvent] has completed for: all but the one being added. *)
Definition added (s : sys) : list (D * bool) :=
  match producer s with
  | ProdAdd _ => take (length (history s) - 1) (history s)
  | _ => history s
  end.

(** The producer calls the callback for a dropped event with the list locked. *)
Definition lock_free (p : prod_pc) : Prop := match p with ProdReport (_ :: _) => False | _ => True end.

(** The data of reports. *)
Definition data_of (reps : list report) : list D := mjoin reps.*2.

(** What a step shows to the outside: an event is added, the callback is called. *)
Inductive label :=
| Append (private : D) (published : bool)
| Deliver (reps : list report)
| Silent.

Inductive step : sys → label → sys → Prop :=
| step_append d p a dt ak h r dl n :
    step (mkSys a dt ProdIdle ak h r dl n) (Append d p) (mkSys a (dt ++ [d]) (ProdAdd p) ak (h ++ [(d, p)]) r dl n)
| step_add p a dt ak h r dl n a' calls dt' reps :
    Tracking.AddEvent p a = Done (a', calls) →
    EventData.runCallbacks calls dt = Done (dt', reps) →
    step (mkSys a dt (ProdAdd p) ak h r dl n) Silent (mkSys a' dt' (ProdReport reps) ak h (r ++ data_of reps) dl n)
| step_add_report a dt reps ak h r dl n :
    step (mkSys a dt (ProdReport reps) ak h r dl n) (Deliver reps) (mkSys a dt ProdIdle ak h r (dl ++ reps) n)
| step_ack k a dt p h r dl n :
    (* outputs acknowledge events that were added and not acknowledged yet *)
    n + k ≤ published_in (added (mkSys a dt p AckIdle h r dl n)) →
    step (mkSys a dt p AckIdle h r dl n) Silent
         (mkSys a dt p (AckLoop (Z.of_nat k) (Z.of_nat k) 0 false) h r dl (n + k))
| step_iter a dt p acked k total e h r dl n k' total' e' a' :
    lock_free p → (k > 0)%Z →
    Tracking.ackStep k total e a = Done (k', total', e', a') →
    step (mkSys a dt p (AckLoop acked k total e) h r dl n) Silent
         (mkSys a' dt p (AckLoop acked k' total' e') h r dl n)
| step_loop_done a dt p acked k total e h r dl n :
    ¬ (k > 0)%Z →
    step (mkSys a dt p (AckLoop acked k total e) h r dl n) Silent
         (mkSys (Tracking.set_events (λ ev, wrap 32 (ev - wrap 32 total)) a) dt p
            (AckTake acked total) h r dl n)
| step_take a dt p acked total h r dl n dt' reps :
    EventData.onACK acked total dt = Done (dt', reps) →
    step (mkSys a dt p (AckTake acked total) h r dl n) Silent
         (mkSys a dt' p (AckReport reps) h (r ++ data_of reps) dl n)
| step_report a dt p reps h r dl n :
    step (mkSys a dt p (AckReport reps) h r dl n) (Deliver reps) (mkSys a dt p AckIdle h r (dl ++ reps) n).

Definition steps (s s' : sys) : Prop := ∃ lab, step s lab s'.
Definition reachable : sys → Prop := rtc steps init.

(** The data that a goroutine has taken and not given to the callback yet. *)
Definition prod_pending (s : sys) : list D := match producer s with ProdReport reps => data_of reps | _ => [] end.
Definition ack_pending (s : sys) : list D := match ack s with AckReport reps => data_of reps | _ => [] end.

(** No call is in progress. *)
Definition quiet (s : sys) : Prop := producer s = ProdIdle ∧ ack s = AckIdle.
End interleaving.
Arguments sys : clear implicits.
Arguments label : clear implicits.
Arguments added : simpl never.

Lemma data_of_app {D} (reps reps' : list (EventData.report D)) : data_of (reps ++ reps') = data_of reps ++ data_of reps'.
Proof. unfold data_of. by rewrite fmap_app, join_app. Qed.

(** ** The invariant *)
Lemma published_in_sent {D} (l : list (D * bool)) : published_in l = sent_events l.*2.
Proof.
  unfold published_in, sent_events.
  induction l as [|[d []] l IH]; simpl; [done|by rewrite IH|done].
Qed.

Section interleaving_lemmas.
Context {D : Type}.
Implicit Types (s : sys D).

(** [gone] are the events no longer outstanding; the data of the last [t] of them
    has not been taken from the queue yet. *)
Record inv_at s (q gone : list bool) (m t : nat) : Prop := {
  inv_list : outstanding_gaps m (trk s) q;
  inv_queue : (added s).*2 = gone ++ q;
  inv_fifo : reported s ++ dat s = (history s).*1;
  inv_gone : length gone = length (reported s) + t;
  inv_producer : match producer s with ProdAdd p => ∃ h d, history s = h ++ [(d, p)] | _ => True end;
  inv_ack : match ack s with
            | AckIdle | AckReport _ => t = 0 ∧ acknowledged s = sent_events gone
            | AckLoop acked n total e =>
                (0 ≤ n)%Z ∧ total = Z.of_nat t ∧ (e = true → n = 0%Z) ∧
                acknowledged s = sent_events gone + Z.to_nat n ∧ Z.to_nat n ≤ sent_events q
            | AckTake acked total => total = Z.of_nat t ∧ acknowledged s = sent_events gone
            end;
  inv_delivered : data_of (delivered s) ++ ack_pending s ++ prod_pending s ≡ₚ reported s;
  inv_order : Forall (λ e, e.2 = true) (history s) →
    data_of (delivered s) ++ ack_pending s = reported s ∧ prod_pending s = []
}.
Definition inv s : Prop := ∃ q gone m t, inv_at s q gone m t.

Lemma added_snoc a dt (h : list (D * bool)) d p ak r dl n : added (mkSys a dt (ProdAdd p) ak (h ++ [(d, p)]) r dl n) = h.
Proof. unfold added; simpl. rewrite length_app. simpl. apply take_app_length'. lia. Qed.

(** What is not taken yet: acknowledged, outstanding, or being added. *)
Lemma inv_dat_length s q gone m t : inv_at s q gone m t →
  length (dat s) = t + length q + match producer s with ProdAdd _ => 1 | _ => 0 end.
Proof.
  intros [_ Hq Hf Hg Hp _ _ _]. apply (f_equal length) in Hf, Hq.
  rewrite length_app, length_fmap in Hf. rewrite length_app, length_fmap in Hq.
  unfold added in Hq. destruct (producer s) as [|p|]; [lia| |lia].
  destruct Hp as (h & d & Hh). rewrite Hh, length_take, length_app in Hq.
  rewrite Hh, length_app in Hf. simpl in *. lia.
Qed.

Lemma onACK_prefix acked t (dt : list D) : t ≤ length dt →
  ∃ reps, EventData.onACK acked (Z.of_nat t) dt = Done (drop t dt, reps) ∧
    data_of reps = take t dt ∧ (t = 0 → reps = []).
Proof.
  intros Ht. unfold EventData.onACK. case_decide as H0.
  - assert (t = 0) as -> by lia. eexists. by rewrite drop_0.
  - rewrite decide_True by lia. rewrite Nat2Z.id. eexists. split; [done|].
    rewrite decide_True by (rewrite length_take; lia). unfold data_of. simpl. rewrite app_nil_r.
    split; [done|lia].
Qed.

Lemma init_inv : inv (init : sys D).
Proof.
  exists [], [], 0, 0. split; try done. exists [], 0%Z, 0%Z.
  destruct TrackingCounter_tracks as [(m & pre & s & d & Hgl & Hlast & Hq & _) _].
  split; [|by auto]. split; simpl; try done.
  - apply NoDup_singleton.
  - apply (gl_free _ _ _ _ Hgl).
Qed.

(** The producer's step: [AddEvent] and the data that is taken with it. *)
Lemma add_event_step s q gone m t p : inv_at s q gone m t → producer s = ProdAdd p →
  ∃ a' calls dt' reps gone' q' m',
    Tracking.AddEvent p (trk s) = Done (a', calls) ∧
    EventData.runCallbacks calls (dat s) = Done (dt', reps) ∧
    inv_at (mkSys a' dt' (ProdReport reps) (ack s) (history s) (reported s ++ data_of reps) (delivered s) (acknowledged s))
      q' gone' m' t.
Proof.
  intros Hinv Hp. pose proof (inv_dat_length _ _ _ _ _ Hinv) as Hlen. rewrite Hp in Hlen.
  destruct Hinv as [Hl Hq Hf Hg Hpr Ha Hd Ho]. rewrite Hp in Hpr. destruct Hpr as (h & d & Hh).
  destruct s as [a dt pr ak hist rep dl n]; simpl in *. subst pr hist.
  rewrite added_snoc in Hq. rewrite fmap_app in Hf. unfold prod_pending, ack_pending in Hd, Ho; simpl in Hd, Ho.
  rewrite app_nil_r in Hd.
  destruct (AddEvent_outstanding a q p) as (a' & calls & -> & Hspec); [by exists m|].
  case_decide as Hdrop.
  - destruct Hspec as (-> & [m' Hout'] & _). destruct Hdrop as [-> ->].
    destruct (onACK_prefix 0 1 dt) as (reps & Hcb & Hjoin & _); [lia|].
    exists a', [(0, 1)%Z], (drop 1 dt), reps, (gone ++ [false]), [], m'.
    split; [done|]. split; [|split].
    + cbn -[EventData.onACK]. change 1%Z with (Z.of_nat 1). rewrite Hcb. run_outcome.
      simpl. by rewrite app_nil_r.
    + done.
    + unfold added; simpl. rewrite fmap_app, Hq. simpl. by rewrite !app_nil_r.
    + simpl. by rewrite Hjoin, <-(assoc_L (++)), take_drop, Hf, fmap_app.
    + simpl in Hlen |- *. rewrite !length_app, Hjoin, length_take, Nat.min_l by lia. simpl. lia.
    + done.
    + simpl. destruct ak; rewrite ?sent_events_snoc; simpl; intuition lia.
    + unfold ack_pending, prod_pending. simpl. rewrite (assoc_L (++)). by rewrite Hd.
    + intros [_ Hall]%Forall_app. by inversion Hall.
  - destruct Hspec as (-> & [m' Hout'] & _).
    exists a', [], dt, [], gone, (q ++ [p]), m'. split; [done|]. split; [done|].
    split; simpl; rewrite ?app_nil_r; try done.
    + unfold added; simpl. rewrite fmap_app, Hq. simpl. by rewrite (assoc_L (++)).
    + by rewrite fmap_app.
    + destruct ak; rewrite ?sent_events_snoc; simpl; intuition lia.
Qed.

(** One iteration of the acknowledgement loop. *)
Lemma ack_iter_step s q gone m t acked n total e : inv_at s q gone m t →
  ack s = AckLoop acked n total e → (n > 0)%Z →
  ∃ n' total' e' a' q' gone' m' t',
    Tracking.ackStep n total e (trk s) = Done (n', total', e', a') ∧
    inv_at (mkSys a' (dat s) (producer s) (AckLoop acked n' total' e') (history s)
              (reported s) (delivered s) (acknowledged s)) q' gone' m' t'.
Proof.
  intros [Hl Hq Hf Hg Hp Ha Hd Ho] Hack Hn. rewrite Hack in Ha.
  destruct Ha as (_ & Htot & He & Hackd & Hsent).
  assert (e = false) as -> by (destruct e; [specialize (He eq_refl); lia|done]).
  destruct (ackStep_spec m (trk s) q n total Hl) as (n' & total' & e' & a' & -> & Hstep); [lia|].
  destruct Hstep as (m' & k & Hout' & _ & Hn' & Hk & -> & Hcons & Hnext).
  destruct (proj2 (consume_is_Some q (Z.to_nat n)) Hsent) as [j Hj].
  rewrite Hj in Hcons. destruct (consume (Z.to_nat n') (drop k q)) as [i|] eqn:Hi; [|done].
  simpl in Hcons. assert (j = k + i) as -> by congruence.
  apply consume_count in Hj as Hcount. rewrite <-take_take_drop, sent_events_app in Hcount.
  rewrite (consume_count _ _ _ Hi) in Hcount.
  exists n', (total + Z.of_nat k)%Z, e', a', (drop k q), (gone ++ take k q), m', (t + k).
  assert (Hap : ack_pending s = []) by (unfold ack_pending; by rewrite Hack). rewrite Hap in Hd, Ho.
  split; [done|]. split; simpl; try done.
  - unfold added in *; simpl. by rewrite Hq, <-(assoc_L (++)), take_drop.
  - rewrite length_app, length_take. lia.
  - assert (Z.to_nat n' ≤ sent_events (drop k q)) as Hle by (apply consume_is_Some; by eauto).
    split_and!; try done; [lia| |rewrite sent_events_app; lia].
    intros ->. destruct (decide (n' = 0%Z)) as [|Hne]; [done|].
    specialize (Hnext Hne). simpl in Hnext. rewrite Hnext in Hle. unfold sent_events in Hle.
    simpl in Hle. lia.
Qed.

(** The callback is called with data that was pending. *)
Lemma deliver_pending s s' reps : step s (Deliver reps) s' →
  (producer s = ProdReport reps ∧ s' = mkSys (trk s) (dat s) ProdIdle (ack s) (history s) (reported s) (delivered s ++ reps) (acknowledged s)) ∨
  (ack s = AckReport reps ∧ s' = mkSys (trk s) (dat s) (producer s) AckIdle (history s) (reported s) (delivered s ++ reps) (acknowledged s)).
Proof. inversion 1; subst; [left|right]; done. Qed.

Lemma deliver_inv s s' reps : step s (Deliver reps) s' → inv s → inv s'.
Proof.
  intros Hstep (q & gone & m & t & [Hl Hq Hf Hg Hp Ha Hd Ho]). exists q, gone, m, t.
  unfold prod_pending, ack_pending in Hd, Ho.
  destruct (deliver_pending _ _ _ Hstep) as [[E ->]|[E ->]]; rewrite E in *; split; simpl; try done;
    rewrite ?data_of_app; unfold prod_pending, ack_pending; simpl; rewrite ?app_nil_r.
  - unfold added in *. simpl. by rewrite E in Hq.
  - rewrite <-Hd, <-(assoc_L (++)). f_equiv. by rewrite (comm (++)).
  - intros Hall. destruct (Ho Hall) as [Hr He]. by rewrite He, app_nil_r.
  - by rewrite <-(assoc_L (++)).
  - done.
Qed.

Lemma step_inv s lab s' : step s lab s' → inv s → inv s'.
Proof.
  intros Hstep Hinv. destruct lab as [d p|reps|]; [|by eapply deliver_inv|]; destruct Hinv as (q & gone & m & t & Hinv).
  - inversion Hstep; subst. destruct Hinv as [Hl Hq Hf Hg Hp Ha Hd Ho]. exists q, gone, m, t. split; simpl in *; try done.
    + by rewrite added_snoc.
    + by rewrite fmap_app, (assoc_L (++)), Hf.
    + by eauto.
    + intros [Hall _]%Forall_app. by apply Ho.
  - inversion Hstep as [|? ? ? ? ? ? ? ? ? ? ? ? Hadd0 Hcb0| |? ? ? ? ? ? ? ? Hack
      |? ? ? ? ? ? ? ? ? ? ? ? ? ? ? _ Hpos Hit0| |? ? ? ? ? ? ? ? ? ? ? Hcb0|]; subst.
    + destruct (add_event_step _ _ _ _ _ _ Hinv eq_refl)
        as (? & ? & ? & ? & gone' & q' & m' & Hadd & Hcb & Hinv').
      simpl in *. rewrite Hadd in Hadd0. simplify_eq. rewrite Hcb in Hcb0. simplify_eq.
      by exists q', gone', m', t.
    + exists q, gone, m, t. destruct Hinv as [Hl Hq Hf Hg Hp Ha Hd Ho]. split; try done.
      simpl in *. destruct Ha as [-> ->]. rewrite published_in_sent, Hq, sent_events_app in Hack.
      split_and!; try lia; done.
    + destruct (ack_iter_step _ _ _ _ _ _ _ _ _ Hinv eq_refl Hpos)
        as (? & ? & ? & ? & q' & gone' & m' & t' & Hit & Hinv').
      simpl in *. rewrite Hit in Hit0. simplify_eq. by exists q', gone', m', t'.
    + exists q, gone, m, t. destruct Hinv as [Hl Hq Hf Hg Hp Ha Hd Ho]. split; try done.
      * by apply set_events_outstanding.
      * simpl in *. split; [by apply Ha|]. destruct Ha as (? & ? & ? & -> & ?). lia.
    + pose proof (inv_dat_length _ _ _ _ _ Hinv) as Hlen.
      destruct Hinv as [Hl Hq Hf Hg Hp Ha Hd Ho]. simpl in *. destruct Ha as [-> ->].
      destruct (onACK_prefix acked t dt) as (reps' & Hcb & Hjoin & _); [lia|].
      rewrite Hcb in Hcb0. simplify_eq. unfold ack_pending, prod_pending in *. simpl in *.
      exists q, gone, m, 0. split; simpl; unfold ack_pending, prod_pending; simpl; try done.
      * by rewrite Hjoin, <-(assoc_L (++)), take_drop.
      * rewrite length_app, Hjoin, length_take. lia.
      * rewrite <-Hd, <-(assoc_L (++)). f_equiv. apply (comm (++)).
      * intros Hall. destruct (Ho Hall) as [Hr He]. rewrite <-Hr, app_nil_r. done.
Qed.

Lemma reachable_inv s : reachable s → inv s.
Proof.
  intros Hr. assert (inv (init : sys D)) as Hinit by apply init_inv. revert Hinit.
  induction Hr as [|x y z [lab Hstep] _ IH]; [done|]. intros ?. apply IH. by eapply step_inv.
Qed.

(** Reported data is a prefix of the history, made of events that are gone. *)
Lemma inv_reported s q gone m t : inv_at s q gone m t →
  take (length (reported s)) (history s).*2 = take (length (reported s)) gone.
Proof.
  intros [_ Hq Hf Hg Hp _ _ _].
  assert (Hh : ∃ l, (history s).*2 = gone ++ l).
  { unfold added in Hq. destruct (producer s) as [|p|]; [by eauto| |by eauto].
    destruct Hp as (h & d & Hh). rewrite Hh, length_app, take_app_length' in Hq by (simpl; lia).
    rewrite Hh, fmap_app, Hq, <-(assoc_L (++)). by eauto. }
  destruct Hh as [l ->]. by rewrite take_app_le by lia.
Qed.

Lemma sent_events_take k q : sent_events (take k q) ≤ sent_events q.
Proof. rewrite <-(take_drop k q) at 2. rewrite sent_events_app. lia. Qed.

Lemma inv_acknowledged s q gone m t : inv_at s q gone m t → sent_events gone ≤ acknowledged s.
Proof. intros [_ _ _ _ _ Ha _ _]. destruct (ack s); destruct_and?; lia. Qed.

(** What was taken was acknowledged. *)
Lemma inv_never_early s : inv s → published_in (take (length (reported s)) (history s)) ≤ acknowledged s.
Proof.
  intros (q & gone & m & t & Hinv). rewrite published_in_sent, fmap_take, (inv_reported _ _ _ _ _ Hinv).
  etrans; [apply sent_events_take|by eapply inv_acknowledged].
Qed.

(** Nothing stays in the queue. *)
Lemma inv_complete s : inv s → quiet s → acknowledged s = published_in (history s) → reported s = (history s).*1.
Proof.
  intros (q & gone & m & t & Hinv) [Hp Hi] Hall. pose proof (inv_dat_length _ _ _ _ _ Hinv) as Hlen.
  destruct Hinv as [Hl Hq Hf _ _ Ha _ _]. rewrite Hp in Hlen. rewrite Hi in Ha.
  destruct Ha as [-> Hack]. rewrite Hack, published_in_sent in Hall.
  unfold added in Hq. rewrite Hp in Hq. rewrite Hq, sent_events_app in Hall.
  assert (q = []) as ->.
  { destruct Hl as (pre & s0 & d & Hgl & _ & -> & _).
    destruct (outstanding_head _ _ _ _ Hgl) as [|[q' Hq']]; [done|].
    rewrite Hq' in Hall. unfold sent_events in Hall. simpl in Hall. lia. }
  rewrite <-Hf. apply length_zero_iff_nil in Hlen. by rewrite Hlen, app_nil_r.
Qed.
End interleaving_lemmas.

(** ** Properties *)

(** C14.  In every interleaving of publishing and acknowledging, the private
    data of the events is taken from the queue in the order of [AddEvent], and what
    was taken is given to the callback exactly once, but for at most one report that
    each goroutine still has to deliver.  No sent event is taken before it was
    acknowledged.  The callback sees the events in order if none was dropped; and once
    all sent events are acknowledged and nobody is running, it has seen all. *)
Theorem EventPrivateReporter_fifo {D} (s : sys D) : reachable s →
  let given := data_of (delivered s) in
  reported s ++ dat s = (history s).*1 ∧
  given ++ ack_pending s ++ prod_pending s ≡ₚ reported s ∧
  published_in (take (length (reported s)) (history s)) ≤ acknowledged s ∧
  (Forall (λ e, e.2 = true) (history s) → given ++ ack_pending s = reported s) ∧
  (quiet s → acknowledged s = published_in (history s) → given ≡ₚ (history s).*1).
Proof.
  intros Hinv%reachable_inv given. pose proof Hinv as (q & gone & m & t & [_ _ Hf _ _ _ Hd Ho]). split_and!.
  - done.
  - done.
  - by apply inv_never_early.
  - intros Hall. by apply Ho.
  - intros Hquiet Hall. rewrite <-(inv_complete s Hinv Hquiet Hall), <-Hd.
    destruct Hquiet as [Hp Hi]. unfold ack_pending, prod_pending. by rewrite Hp, Hi, !app_nil_r.
Qed.

(** C23.  No interleaving makes the acker panic: whatever call is pending in a
    reachable state, its next step returns. *)
Theorem interleaving_no_panic {D} (s : sys D) : reachable s →
  match producer s with
  | ProdAdd p => ∃ a' calls r, Tracking.AddEvent p (trk s) = Done (a', calls) ∧
                EventData.runCallbacks calls (dat s) = Done r
  | _ => True
  end ∧
  match ack s with
  | AckLoop acked n total e => (n > 0)%Z → ∃ r, Tracking.ackStep n total e (trk s) = Done r
  | AckTake acked total => ∃ r, EventData.onACK acked total (dat s) = Done r
  | _ => True
  end.
Proof.
  intros (q & gone & m & t & Hinv)%reachable_inv. split.
  - destruct (producer s) as [|p|] eqn:Hp; [done| |done].
    destruct (add_event_step _ _ _ _ _ _ Hinv Hp) as (? & ? & ? & ? & _ & _ & _ & ? & ? & _).
    by eauto.
  - destruct (ack s) as [|acked n total e|acked total|] eqn:Ha; [done| | |done].
    + intros Hn. destruct (ack_iter_step _ _ _ _ _ _ _ _ _ Hinv Ha Hn)
        as (? & ? & ? & ? & _ & _ & _ & _ & ? & _). by eauto.
    + pose proof (inv_dat_length _ _ _ _ _ Hinv) as Hlen.
      pose proof (inv_ack _ _ _ _ _ Hinv) as Hack. rewrite Ha in Hack. destruct Hack as [-> _].
      destruct (onACK_prefix acked t (dat s)) as (? & ? & _); [lia|]. by eauto.
Qed.

(** ** Witnesses *)

(** A run, step by step. *)
Ltac run_step R := eapply rtc_l; [eexists; eapply R; first [exact I|lia|vm_compute; reflexivity|vm_compute; repeat constructor|idtac]|]; simpl.

(** A drop that arrives between the loop and the taking of data of an
    acknowledgement: the drop takes the data of the acknowledged event, the
    acknowledgement that of the drop, and its callback runs first. *)
Definition racing : sys nat :=
  mkSys (Tracking.mkTracking {[ 0 := Tracking.emptyGap ]} 1 0 0 0) [] ProdIdle AckIdle
    [(10, true); (11, false)] [10; 11] [(1%Z, [11]); (0%Z, [10])] 1.

Lemma racing_reachable : reachable racing.
Proof.
  unfold reachable, racing, init.
  eapply rtc_l; [exists (Append 10 true); constructor|]. simpl.
  run_step @step_add. run_step @step_add_report.
  eapply rtc_l; [eexists; apply (step_ack 1); vm_compute; repeat constructor|]. simpl.
  run_step @step_iter. run_step @step_loop_done.
  eapply rtc_l; [exists (Append 11 false); constructor|]. simpl.
  run_step @step_add. run_step @step_take. run_step @step_report. run_step @step_add_report.
  apply rtc_refl.
Qed.

Lemma EventPrivateReporter_fifo_witness :
  published_in (take 2 (history racing)) ≤ 1 ∧ data_of (delivered racing) ≡ₚ (history racing).*1.
Proof.
  destruct (EventPrivateReporter_fifo racing racing_reachable) as (_ & _ & H1 & _ & H2).
  split; [exact H1|]. apply H2; [by split|reflexivity].
Defined.

(** The callback is not always called in the order of the events. *)
Lemma reports_can_overtake : ∃ s : sys nat, reachable s ∧ quiet s ∧
  (history s).*1 = [10; 11] ∧ data_of (delivered s) = [11; 10].
Proof. exists racing. split; [apply racing_reachable|]. by split_and!. Qed.

(** The same run earlier: a call of [AddEvent] and one of [ACKEvents] are
    both in progress. *)
Definition racing_mid : sys nat :=
  mkSys (Tracking.mkTracking {[ 0 := Tracking.mkGap None 1 0 ]} 1 0 0 1)
    [10; 11] (ProdAdd false) (AckLoop 1 1 0 false) [(10, true); (11, false)] [] [] 1.

Lemma racing_mid_reachable : reachable racing_mid.
Proof.
  unfold reachable, racing_mid, init.
  eapply rtc_l; [exists (Append 10 true); constructor|]. simpl.
  run_step @step_add. run_step @step_add_report.
  eapply rtc_l; [eexists; apply (step_ack 1); vm_compute; repeat constructor|]. simpl.
  eapply rtc_l; [exists (Append 11 false); constructor|]. simpl.
  apply rtc_refl.
Qed.

Lemma interleaving_no_panic_witness :
  (∃ a' calls r, Tracking.AddEvent false (trk racing_mid) = Done (a', calls) ∧
     EventData.runCallbacks calls [10; 11] = Done r) ∧
  (∃ r, Tracking.ackStep 1 0 false (trk racing_mid) = Done r).
Proof.
  destruct (interleaving_no_panic racing_mid racing_mid_reachable) as [H1 H2].
  split; [exact H1|]. apply H2. lia.
Defined.
