(* ===== verification/AckerWrappers.v ===== *)
(** * The ackers built from others: pkg/publisher/acker/acker.go

    An acker is an instance of the interface [ACKer]; its callback's calls are
    outputs.  [P] are the private fields of events, where [None] is nil. *)

From stdpp Require Import base list.
From Stdlib Require Import ZArith Lia.
From S2P Require Import Prelude.
From S2P Require Import Acker.

(** The interface [publisher.ACKer] on states [A], with outputs [O]. *)
Class ACKer (A P O : Type) := {
  add_event : option P → bool → A → outcome (A * list O);
  ack_events : Z → A → outcome (A * list O);
  close_acker : A → outcome (A * list O)
}.

Section ackers.
Context {P : Type}.

(** [Nil] *)
#[export] Instance nilACKer {O} : ACKer () P O := {
  add_event _ _ a := Done (a, []);
  ack_events _ a := Done (a, []);
  close_acker a := Done (a, [])
}.

(** [RawCounting]: [countACKer]. *)
Record countACKer := Count {}.
#[export] Instance RawCounting : ACKer countACKer P Z := {
  add_event _ _ a := Done (a, []);
  ack_events n a := Done (a, [n]);
  close_acker a := Done (a, [])
}.

(** [TrackingCounter] *)
#[export] Instance trackingACKer_acker : ACKer Tracking.trackingACKer P (Z * Z) := {
  add_event _ published a := Tracking.AddEvent published a;
  ack_events n a := Tracking.ACKEvents n a;
  close_acker a := Done (a, [])
}.

(** [Counting] hands the total to its callback. *)
Record countingACKer := CountingOf { counted : Tracking.trackingACKer }.
Definition total_only (r : Tracking.trackingACKer * list (Z * Z)) : countingACKer * list Z := (CountingOf r.1, snd <$> r.2).
#[export] Instance Counting : ACKer countingACKer P Z := {
  add_event _ published a := r ← Tracking.AddEvent published (counted a); Done (total_only r);
  ack_events n a := r ← Tracking.ACKEvents n (counted a); Done (total_only r);
  close_acker a := Done (a, [])
}.

(** [EventPrivateReporter] *)
#[export] Instance eventDataACKer_acker : ACKer (EventData.eventDataACKer (option P)) P (Z * list (option P)) := {
  add_event p published a := EventData.AddEvent p published a;
  ack_events n a := EventData.ACKEvents n a;
  close_acker a := Done (a, [])
}.

(** [LastEventPrivateReporter]: the callback keeps [ignored]; the loop runs from
    the last element to the first. *)
Fixpoint last_data (rev_data : list (option P)) : option P :=
  match rev_data with
  | [] => None
  | Some d :: _ => Some d
  | None :: rev_data => last_data rev_data
  end.
Definition on_report (ignored : Z) (r : Z * list (option P)) : Z * list (Z * P) :=
  match last_data (rev r.2) with
  | Some d => (0%Z, [((ignored + r.1)%Z, d)])
  | None => ((ignored + r.1)%Z, [])
  end.
Fixpoint on_reports (ignored : Z) (rs : list (Z * list (option P))) : Z * list (Z * P) :=
  match rs with
  | [] => (ignored, [])
  | r :: rs =>
    let '(ignored, out) := on_report ignored r in
    let '(ignored, outs) := on_reports ignored rs in (ignored, out ++ outs)
  end.
Record lastEventACKer := mkLast { reporter : EventData.eventDataACKer (option P); ignored : Z }.
Definition LastEventPrivateReporter : lastEventACKer := mkLast EventData.EventPrivateReporter 0.
Definition report_last (i : Z) (r : EventData.eventDataACKer (option P) * list (Z * list (option P))) :
    lastEventACKer * list (Z * P) := (mkLast r.1 (on_reports i r.2).1, (on_reports i r.2).2).
#[export] Instance lastEventACKer_acker : ACKer lastEventACKer P (Z * P) := {
  add_event p published a := r ← EventData.AddEvent p published (reporter a); Done (report_last (ignored a) r);
  ack_events n a := r ← EventData.ACKEvents n (reporter a); Done (report_last (ignored a) r);
  close_acker a := Done (a, [])
}.

(** A value of the interface type. *)
Record anyACKer (O : Type) := AnyACKer { astate : Type; aops : ACKer astate P O; avalue : astate }.
Arguments AnyACKer {_ _} _ _.
Arguments astate {_} _.
Arguments aops {_} _.
Arguments avalue {_} _.
Definition dispatch {O} (f : ∀ A, ACKer A P O → A → outcome (A * list O)) (a : anyACKer O) : outcome (anyACKer O * list O) :=
  r ← f (astate a) (aops a) (avalue a); Done (AnyACKer (aops a) r.1, r.2).
#[export] Instance any_acker {O} : ACKer (anyACKer O) P O := {
  add_event p published := dispatch (λ A _, add_event p published);
  ack_events n := dispatch (λ A _, ack_events n);
  close_acker := dispatch (λ A _, close_acker)
}.

(** [Combine]: [ackerList]. *)
Fixpoint each_acker {O} (f : anyACKer O → outcome (anyACKer O * list O)) (l : list (anyACKer O)) :
    outcome (list (anyACKer O) * list O) :=
  match l with
  | [] => Done ([], [])
  | a :: l =>
    r ← f a;
    rs ← each_acker f l;
    Done (r.1 :: rs.1, r.2 ++ rs.2)
  end.
#[export] Instance Combine {O} : ACKer (list (anyACKer O)) P O := {
  add_event p published := each_acker (add_event p published);
  ack_events n := each_acker (ack_events n);
  close_acker := each_acker close_acker
}.

(** [ConnectionOnly]: [clientOnlyACKer], whose [acker] is nil after [Close]. *)
Record clientOnlyACKer (O : Type) := mkClientOnly { sub : option (anyACKer O) }.
Arguments mkClientOnly {_} _.
Arguments sub {_} _.
Definition ConnectionOnly {O} (a : anyACKer O) : clientOnlyACKer O := mkClientOnly (Some a).
Definition forward_sub {O} (f : anyACKer O → outcome (anyACKer O * list O)) (a : clientOnlyACKer O) :
    outcome (clientOnlyACKer O * list O) :=
  match sub a with
  | Some s => r ← f s; Done (mkClientOnly (Some r.1), r.2)
  | None => Done (a, [])
  end.
#[export] Instance clientOnlyACKer_acker {O} : ACKer (clientOnlyACKer O) P O := {
  add_event p published := forward_sub (add_event p published);
  ack_events n := forward_sub (ack_events n);
  close_acker a :=
    match sub a with
    | Some s => r ← close_acker s; Done (mkClientOnly None, r.2)
    | None => Done (mkClientOnly None, [])
    end
}.

(** ** Sequences of calls *)
Inductive acall := CAdd (p : option P) (published : bool) | CAck (n : Z) | CEnd.
Definition run_call {A O} `{!ACKer A P O} (c : acall) (a : A) : outcome (A * list O) :=
  match c with
  | CAdd p published => add_event p published a
  | CAck n => ack_events n a
  | CEnd => close_acker a
  end.
Fixpoint run_calls {A O} `{!ACKer A P O} (l : list acall) (a : A) : outcome (A * list O) :=
  match l with
  | [] => Done (a, [])
  | c :: l => r ← run_call c a; rs ← run_calls l r.1; Done (rs.1, r.2 ++ rs.2)
  end.

Definition is_end (c : acall) : bool := match c with CEnd => true | _ => false end.

(** The calls up to and including the first [Close]. *)
Fixpoint until_close (l : list acall) : list acall :=
  match l with
  | [] => []
  | CEnd :: _ => [CEnd]
  | c :: l => c :: until_close l
  end.
End ackers.
Arguments acall : clear implicits.
Arguments anyACKer : clear implicits.
Arguments lastEventACKer : clear implicits.
Arguments clientOnlyACKer : clear implicits.
Arguments AnyACKer {_ _ _} _ _.
Arguments astate {_ _} _.
Arguments aops {_ _} _.
Arguments avalue {_ _} _.
Arguments mkClientOnly {_ _} _.
Arguments sub {_ _} _.

(** ** Lemmas *)
Lemma closed_ignores {P O} (l : list (acall P)) (a : clientOnlyACKer P O) :
  sub a = None → run_calls l a = Done (mkClientOnly None, []).
Proof.
  destruct a as [s]. simpl. intros ->. induction l as [|c l IH]; [done|]. simpl.
  assert (E : run_call c (mkClientOnly None : clientOnlyACKer P O) = Done (mkClientOnly None, [])) by (by destruct c).
  rewrite E. cbn [mbind outcome_bind]. simpl. by rewrite IH.
Qed.

Lemma last_data_spec {P} (l : list (option P)) : last_data (rev l) = last (omap id l).
Proof.
  induction l as [|x l IH] using rev_ind; [done|]. rewrite rev_app_distr, omap_app. simpl.
  destruct x as [d|]; simpl; [by rewrite last_snoc|]. by rewrite app_nil_r.
Qed.

Definition sum_fst {B} (l : list (Z * B)) : Z := foldr (λ x s, (x.1 + s)%Z) 0%Z l.

Lemma sum_fst_app {B} (l k : list (Z * B)) : sum_fst (l ++ k) = (sum_fst l + sum_fst k)%Z.
Proof. induction l as [|x l IH]; simpl; [lia|]. rewrite IH. lia. Qed.

Lemma on_reports_app {P} i (l k : list (Z * list (option P))) :
  on_reports i (l ++ k) = ((on_reports (on_reports i l).1 k).1, (on_reports i l).2 ++ (on_reports (on_reports i l).1 k).2).
Proof.
  revert i. induction l as [|r l IH]; intros i; simpl; [by destruct (on_reports i k)|].
  destruct (on_report i r) as [i1 o1]. rewrite IH. destruct (on_reports i1 l) as [i2 o2]. simpl. by rewrite app_assoc.
Qed.

Lemma on_reports_account {P} i (l : list (Z * list (option P))) :
  (sum_fst (on_reports i l).2 + (on_reports i l).1)%Z = (i + sum_fst l)%Z ∧
  (on_reports i l).2.*2 = omap (λ r, last (omap id r.2)) l.
Proof.
  revert i. induction l as [|[n dat] l IH]; intros i; [simpl; split; [lia|done]|].
  cbn [on_reports]. unfold on_report. cbn [fst snd]. rewrite last_data_spec.
  change (omap (λ r : Z * list (option P), last (omap id r.2)) ((n, dat) :: l)) with
    (match last (omap id dat) with Some d => d :: omap (λ r : Z * list (option P), last (omap id r.2)) l | None => omap (λ r : Z * list (option P), last (omap id r.2)) l end).
  destruct (last (omap id dat)) as [d|].
  - destruct (IH 0%Z) as [Hs Hd]. destruct (on_reports 0 l) as [i2 o2]. simpl in Hs |- *. split; [lia|]. f_equal. exact Hd.
  - destruct (IH (i + n)%Z) as [Hs Hd]. destruct (on_reports (i + n) l) as [i2 o2]. simpl in Hs |- *. split; [lia|exact Hd].
Qed.

Lemma last_run_call {P} (c : acall P) (a : lastEventACKer P) r :
  run_call c (reporter a) = Done r → run_call c a = Done (report_last (ignored a) r).
Proof.
  destruct c; simpl; [by intros ->|by intros ->|]. intros [= <-]. unfold report_last. simpl. by destruct a.
Qed.

Lemma each_acker_all {P O} (f : anyACKer P O → outcome (anyACKer P O * list O)) (l : list (anyACKer P O)) (rs : list (anyACKer P O * list O)) :
  Forall2 (λ a r, f a = Done r) l rs → each_acker f l = Done (rs.*1, concat (rs.*2)).
Proof. induction 1 as [|a r l rs E _ IH]; [done|]. simpl. rewrite E. cbn [mbind outcome_bind]. by rewrite IH. Qed.

Lemma concat_app_perm {A B} (l : list (A * list B)) (k : list (A * list B)) : length l = length k →
  concat (l.*2) ++ concat (k.*2) ≡ₚ concat (zip_with (λ x y, x.2 ++ y.2) l k).
Proof.
  revert k. induction l as [|x l IH]; intros [|y k] Hl; try done. simpl. rewrite <- IH by (simpl in Hl; lia).
  rewrite <- !app_assoc. apply Permutation_app_head. rewrite !app_assoc. apply Permutation_app_tail, Permutation_app_comm.
Qed.

(** ** The properties *)

(** C28. [ConnectionOnly] forwards to its acker until the client is closed, the close
    included, and from then on ignores every event and acknowledgement. *)
Theorem connection_only_until_close {P O : Type} (a : anyACKer P O) (l : list (acall P)) :
  run_calls l (ConnectionOnly a) =
    (r ← run_calls (until_close l) a;
     Done (if existsb is_end l then mkClientOnly None else ConnectionOnly r.1, r.2)).
Proof.
  revert a. induction l as [|c l IH]; intros a; [done|]. destruct c as [p published|n|]; cbn [run_calls until_close existsb is_end orb].
  - change (run_call (CAdd p published) (ConnectionOnly a)) with (r ← run_call (CAdd p published) a; Done (ConnectionOnly r.1, r.2)).
    destruct (run_call (CAdd p published) a) as [[a' o]| |]; try done. cbn [mbind outcome_bind fst snd]. rewrite IH.
    by destruct (run_calls (until_close l) a') as [[a'' o']| |].
  - change (run_call (CAck n) (ConnectionOnly a)) with (r ← run_call (CAck n) a; Done (ConnectionOnly r.1, r.2)).
    destruct (run_call (CAck n) a) as [[a' o]| |]; try done. cbn [mbind outcome_bind fst snd]. rewrite IH.
    by destruct (run_calls (until_close l) a') as [[a'' o']| |].
  - change (run_call CEnd (ConnectionOnly a)) with (r ← run_call CEnd a; Done (mkClientOnly (P := P) (O := O) None, r.2)).
    destruct (run_call CEnd a) as [[a' o]| |]; try done. cbn [mbind outcome_bind fst snd].
    by rewrite closed_ignores.
Qed.

(** [Combine] is each of its ackers on its own: if the calls succeed on every
    one, they succeed on the list, each acker ends in the state it would reach
    alone, and the callbacks run are exactly theirs. *)
Theorem combine_runs_each {P O : Type} (l : list (acall P)) (as_ : list (anyACKer P O)) (rs : list (anyACKer P O * list O)) :
  Forall2 (λ a r, run_calls l a = Done r) as_ rs →
  ∃ outs, run_calls l as_ = Done (rs.*1, outs) ∧ outs ≡ₚ concat (rs.*2).
Proof.
  revert as_ rs. induction l as [|c l IH]; intros as_ rs Hrs.
  - exists []. assert (rs.*1 = as_ ∧ concat (rs.*2) = []) as [<- ->]; [|done].
    induction Hrs as [|a r as_ rs E _ [IH1 IH2]]; [done|]. injection E as <-. cbn. split; [by f_equal|exact IH2].
  - assert (Hsplit : ∃ r1 r2, Forall2 (λ a r, run_call c a = Done r) as_ r1 ∧ Forall2 (λ a r, run_calls l a = Done r) (r1.*1) r2 ∧
      rs = zip_with (λ x y, (y.1, x.2 ++ y.2)) r1 r2 ∧ length r1 = length r2).
    { clear IH. induction Hrs as [|a r as_ rs E _ (r1 & r2 & H1 & H2 & -> & Hl)]; [exists [], []; by repeat split; constructor|].
      cbn [run_calls] in E. apply bind_Done_inv in E as (x & Ex & E). apply bind_Done_inv in E as (y & Ey & [= <-]).
      exists (x :: r1), (y :: r2). split_and!; [by constructor|by constructor|done|simpl; by f_equal]. }
    destruct Hsplit as (r1 & r2 & H1 & H2 & -> & Hl). destruct (IH _ _ H2) as (outs & E & Hp).
    exists (concat (r1.*2) ++ outs). cbn [run_calls].
    assert (E1 : run_call c as_ = Done (r1.*1, concat (r1.*2))) by (destruct c; by apply each_acker_all).
    rewrite E1. cbn [mbind outcome_bind fst snd]. rewrite E. cbn [mbind outcome_bind fst snd]. split.
    + do 2 f_equal. clear -Hl. revert r2 Hl. induction r1 as [|x r1 IH]; intros [|y r2] Hl; try done. simpl. f_equal. apply IH. by injection Hl.
    + rewrite Hp, (concat_app_perm r1 r2 Hl). clear -Hl. revert r2 Hl.
      induction r1 as [|x r1 IH]; intros [|y r2] Hl; try done. simpl. rewrite (IH r2); [done|by injection Hl].
Qed.

(** C27. [LastEventPrivateReporter] loses no acknowledgement: on any calls, the counts
    it reports and those it still holds back add up to what [EventPrivateReporter]
    reports, and its data are the last ones that are not nil of each batch that has
    any. *)
Theorem last_reporter_accounts {P : Type} (l : list (acall P)) a reports :
  run_calls l (EventData.EventPrivateReporter : EventData.eventDataACKer (option P)) = Done (a, reports) →
  ∃ i outs, run_calls l (LastEventPrivateReporter (P := P)) = Done (mkLast a i, outs) ∧
    (sum_fst outs + i)%Z = sum_fst reports ∧ outs.*2 = omap (λ r, last (omap id r.2)) reports.
Proof.
  intros E. exists (on_reports 0 reports).1, (on_reports 0 reports).2. split; [|by apply (on_reports_account 0 reports)].
  unfold LastEventPrivateReporter. generalize 0%Z as i. revert E. generalize (EventData.EventPrivateReporter (D := option P)) as b.
  revert a reports. induction l as [|c l IH]; intros a reports b E i; [by injection E as -> <-|].
  cbn [run_calls] in E |- *. apply bind_Done_inv in E as ([b1 r1] & E1 & E). apply bind_Done_inv in E as ([b2 r2] & E2 & [= <- <-]).
  rewrite (last_run_call c (mkLast b i) _ E1). cbn [mbind outcome_bind report_last fst snd].
  rewrite (IH _ _ _ E2). cbn [mbind outcome_bind fst snd]. by rewrite on_reports_app.
Qed.

(** ** Witnesses *)
Definition two_counts : list (anyACKer () Z) := [AnyACKer RawCounting Count; AnyACKer RawCounting Count].
Lemma combine_runs_each_witness : ∃ outs, run_calls [CAdd None true; CAck 1; CAck 2] two_counts = Done (two_counts, outs) ∧
  outs ≡ₚ [1; 2; 1; 2]%Z.
Proof.
  destruct (combine_runs_each [CAdd None true; CAck 1; CAck 2] two_counts
    [(AnyACKer RawCounting Count, [1; 2]%Z); (AnyACKer RawCounting Count, [1; 2]%Z)]) as (outs & E & Hp).
  { repeat constructor. }
  by exists outs.
Defined.

Definition some_calls : list (acall nat) := [CAdd (Some 7) true; CAdd None false; CAdd None true; CAck 1; CAck 1].
Lemma last_reporter_accounts_witness : ∃ a i outs, run_calls some_calls (LastEventPrivateReporter (P := nat)) = Done (mkLast a i, outs) ∧
  (sum_fst outs + i)%Z = 2%Z ∧ outs.*2 = [7].
Proof.
  destruct (run_calls some_calls (EventData.EventPrivateReporter : EventData.eventDataACKer (option nat))) as [[a rs]| |] eqn:E;
    [|vm_compute in E; discriminate E..].
  destruct (last_reporter_accounts some_calls a rs E) as (i & outs & E' & Hs & Hd).
  exists a, i, outs. vm_compute in E. injection E as <- <-. split; [done|]. rewrite Hs, Hd. by split.
Defined.
