(* ===== verification/GoValue.v ===== *)
(** * Values of the state store and their numbers

    The structured data of the store ([mapstr.M], that is
    [map[string]interface{}]) and Go's 64-bit floating point numbers.  After a
    round trip through JSON every number is a [float64]: [as_json]. *)

From stdpp Require Import base gmap strings list fin_maps.
From Stdlib Require Import ZArith Lia SpecFloat.
From S2P Require Import Prelude.

#[local] Set Warnings "-register-all".

Abbreviation bytes := (list Byte.byte).
Definition bs (s : string) : bytes := String.list_byte_of_string s.

Abbreviation float64 := spec_float.

(** Round to nearest even, as Go's conversions and [strconv.ParseFloat] do. *)
Definition float64_of_Z (z : Z) : float64 := binary_normalize 53 1024 z 0 false.

(** [(-1)^neg * m * 10^e], correctly rounded; [None]: out of range.  A negative
    exponent divides with 66 more bits than the result has and a sticky bit,
    so that rounding the quotient once is rounding the number. *)
Definition float64_of_decimal (neg : bool) (m e : Z) : option float64 :=
  let sgn z := if neg then (- z)%Z else z in
  if decide (m = 0%Z) then Some (S754_zero neg)
  else if decide (e > 400)%Z then None
  else
    let f :=
      if decide (0 ≤ e)%Z then binary_normalize 53 1024 (sgn (m * 10 ^ e)%Z) 0 neg
      else if decide ((Z.log2 m + 1) / 3 + 1 + e < -330)%Z then S754_zero neg
      else
        let p := (10 ^ (- e))%Z in
        let s := (66 + Z.log2 p)%Z in
        let q := (m * 2 ^ s / p)%Z in
        let sticky := if decide (m * 2 ^ s mod p = 0)%Z then 0%Z else 1%Z in
        binary_normalize 53 1024 (sgn (2 * q + sticky)%Z) (- (s + 1)) neg in
    match f with
    | S754_infinity _ => None
    | f => Some f
    end.

(** Go values held by [interface{}] in the store: integers of any Go type,
    floats, strings, slices and maps.  A nil map is the empty map. *)
Inductive gval :=
| VNull
| VBool (b : bool)
| VInt (z : Z)
| VFloat (f : float64)
| VStr (s : string)
| VArr (l : list gval)
| VObj (m : gmap string gval).

Abbreviation mapstr := (gmap string gval).

#[export] Instance spec_float_eq_dec : EqDecision spec_float.
Proof. solve_decision. Defined.

#[export] Instance gval_eq_dec : EqDecision gval.
Proof.
  refine (fix go (v w : gval) {struct v} : Decision (v = w) :=
    match v, w with
    | VNull, VNull => left eq_refl
    | VBool a, VBool b => cast_if (decide (a = b))
    | VInt a, VInt b => cast_if (decide (a = b))
    | VFloat a, VFloat b => cast_if (decide (a = b))
    | VStr a, VStr b => cast_if (decide (a = b))
    | VArr a, VArr b =>
        let _ : EqDecision gval := go in cast_if (decide (a = b))
    | VObj a, VObj b =>
        let _ : EqDecision gval := go in cast_if (decide (a = b))
    | _, _ => right _
    end); try clear go; abstract congruence.
Defined.

(** The number of constructors, for inductions through arrays and maps. *)
Fixpoint gval_size (v : gval) : nat :=
  match v with
  | VArr l => S (foldr (λ w n, gval_size w + n) 0 l)
  | VObj m => S (map_fold (λ _ w n, gval_size w + n) 0 m)
  | _ => 1
  end.

(** What a value is after JSON encoding and decoding into [interface{}]. *)
Fixpoint as_json (v : gval) : gval :=
  match v with
  | VInt z => VFloat (float64_of_Z z)
  | VArr l => VArr (as_json <$> l)
  | VObj m => VObj (as_json <$> m)
  | v => v
  end.

(** ** Lemmas *)
Lemma gval_size_elem l v : v ∈ l → gval_size v ≤ foldr (λ w n, gval_size w + n) 0 l.
Proof. induction 1; simpl; lia. Qed.

Lemma gval_size_lookup (m : mapstr) k v :
  m !! k = Some v → gval_size v ≤ map_fold (λ _ w n, gval_size w + n) 0 m.
Proof.
  intros Hk. rewrite (map_fold_delete_L _ _ k v m); [lia| |done].
  intros. lia.
Qed.

Lemma gval_ind_nested (P : gval → Prop) :
  P VNull → (∀ b, P (VBool b)) → (∀ z, P (VInt z)) → (∀ f, P (VFloat f)) → (∀ s, P (VStr s)) →
  (∀ l, (∀ v, v ∈ l → P v) → P (VArr l)) →
  (∀ m, (∀ k v, m !! k = Some v → P v) → P (VObj m)) →
  ∀ v, P v.
Proof.
  intros Hnull Hbool Hint Hfloat Hstr Harr Hobj.
  assert (∀ n v, gval_size v ≤ n → P v) as H; [|intros v; by eapply H].
  induction n as [|n IH]; intros v; destruct v; simpl; intros Hn; try done; try lia.
  - apply Harr. intros v Hv%gval_size_elem. apply IH. lia.
  - apply Hobj. intros k v Hv%gval_size_lookup. apply IH. lia.
Qed.

Lemma as_json_idem v : as_json (as_json v) = as_json v.
Proof.
  induction v using gval_ind_nested; simpl; try done; f_equal.
  - rewrite <-list_fmap_compose. apply list_fmap_ext. intros i v Hv.
    apply list_elem_of_lookup_2 in Hv. simpl. auto.
  - rewrite <-map_fmap_compose. apply map_fmap_ext. simpl. eauto.
Qed.

Lemma as_json_map_idem (m : mapstr) : as_json <$> (as_json <$> m) = as_json <$> m.
Proof. rewrite <-map_fmap_compose. apply map_fmap_ext. intros. apply as_json_idem. Qed.

#[export] Hint Rewrite as_json_idem as_json_map_idem : go_wrap.
