(* ===== verification/Json.v ===== *)
(** * The JSON decoder: Go's encoding/json, as far as the store uses it

    [json.Decoder] over a stream of bytes: [more] is [Decoder.More] and [parse]
    reads the next value, as a parse tree that keeps the order of object
    members and the text of numbers.  [to_gval] is the decoding into
    [interface{}].  The decoder's limit on the nesting depth (10000) is not
    modelled. *)

From stdpp Require Import base gmap strings list fin_maps.
From Stdlib Require Import ZArith Lia.
From Stdlib Require Strings.Byte.
From S2P Require Import Prelude GoValue.

#[export] Instance byte_eq_dec : EqDecision Byte.byte := Byte.byte_eq_dec.

#[local] Set Warnings "-register-all".
Inductive json :=
| JNull
| JBool (b : bool)
| JNum (lit : bytes)
| JStr (s : string)
| JArr (l : list json)
| JObj (l : list (string * json)).

(** ** Characters *)
Definition code (b : Byte.byte) : Z := Z.of_N (Byte.to_N b).
Definition in_range (lo hi : Z) (b : Byte.byte) : bool := bool_decide (lo ≤ code b ≤ hi)%Z.
Definition is_ws (b : Byte.byte) : bool :=
  bool_decide (b = Byte.x20 ∨ b = Byte.x09 ∨ b = Byte.x0a ∨ b = Byte.x0d).
Definition is_digit : Byte.byte → bool := in_range 48 57.
Definition is_hex (b : Byte.byte) : bool := is_digit b || in_range 97 102 b || in_range 65 70 b.

Definition quote : Byte.byte := Byte.x22.
Definition backslash : Byte.byte := Byte.x5c.
Definition open_brace : Byte.byte := Byte.x7b.
Definition close_brace : Byte.byte := Byte.x7d.
Definition open_bracket : Byte.byte := Byte.x5b.
Definition close_bracket : Byte.byte := Byte.x5d.
Definition comma : Byte.byte := Byte.x2c.
Definition colon : Byte.byte := Byte.x3a.
Definition newline : Byte.byte := Byte.x0a.

Fixpoint skip_ws (b : bytes) : bytes :=
  match b with
  | c :: r => if is_ws c then skip_ws r else b
  | [] => []
  end.

(** ** Numbers *)
Fixpoint take_digits (b : bytes) : bytes * bytes :=
  match b with
  | c :: r => if is_digit c then let '(ds, r') := take_digits r in (c :: ds, r') else ([], b)
  | [] => ([], [])
  end.

Definition scan_sign (signs : list Byte.byte) (b : bytes) : bytes * bytes :=
  match b with
  | c :: r => if bool_decide (c ∈ signs) then ([c], r) else ([], b)
  | [] => ([], [])
  end.

Definition scan_int (b : bytes) : option (bytes * bytes) :=
  match b with
  | c :: r =>
    if bool_decide (c = Byte.x30) then Some ([c], r)
    else if is_digit c then Some (take_digits b) else None
  | [] => None
  end.

(** Digits after a point or an exponent mark: at least one. *)
Definition scan_digits (b : bytes) : option (bytes * bytes) :=
  match take_digits b with
  | ([], _) => None
  | dr => Some dr
  end.

Definition scan_frac (b : bytes) : option (bytes * bytes) :=
  match b with
  | c :: r =>
    if bool_decide (c = Byte.x2e)
    then dr ← scan_digits r; Some (c :: dr.1, dr.2)
    else Some ([], b)
  | [] => Some ([], [])
  end.

Definition scan_exp (b : bytes) : option (bytes * bytes) :=
  match b with
  | c :: r =>
    if bool_decide (c = Byte.x65 ∨ c = Byte.x45) then
      let '(sg, r1) := scan_sign [Byte.x2b; Byte.x2d] r in
      dr ← scan_digits r1; Some (c :: sg ++ dr.1, dr.2)
    else Some ([], b)
  | [] => Some ([], [])
  end.

Definition scan_number (b : bytes) : option (bytes * bytes) :=
  let '(sg, b0) := scan_sign [Byte.x2d] b in
  i ← scan_int b0;
  f ← scan_frac i.2;
  e ← scan_exp f.2;
  Some (sg ++ i.1 ++ f.1 ++ e.1, e.2).

Definition digits_value (ds : bytes) : Z := foldl (λ n c, (10 * n + (code c - 48))%Z) 0%Z ds.

(** [strconv.ParseFloat] on the text of a JSON number. *)
Definition lit_float (lit : bytes) : option float64 :=
  let '(sg, b) := scan_sign [Byte.x2d] lit in
  let '(ds, b) := take_digits b in
  let '(fs, b) := match b with
                  | c :: r => if bool_decide (c = Byte.x2e) then take_digits r else ([], b)
                  | [] => ([], [])
                  end in
  let e := match b with
           | _ :: r =>
             let '(es, r) := scan_sign [Byte.x2b; Byte.x2d] r in
             let n := digits_value (take_digits r).1 in
             if bool_decide (es = [Byte.x2d]) then (- n)%Z else n
           | [] => 0%Z
           end in
  float64_of_decimal (bool_decide (sg ≠ [])) (digits_value (ds ++ fs)) (e - Z.of_nat (length fs)).

(** [strconv.ParseUint(lit, 10, 64)] *)
Definition parse_uint (lit : bytes) : option Z :=
  match take_digits lit with
  | ((_ :: _) as ds, []) =>
    let n := digits_value ds in if decide (n < 2 ^ 64)%Z then Some n else None
  | _ => None
  end.

(** ** Strings *)

(** The raw text between the quotes; escapes are checked, not decoded. *)
Fixpoint scan_string (b : bytes) : option (bytes * bytes) :=
  match b with
  | [] => None
  | c :: r =>
    if bool_decide (c = quote) then Some ([], r)
    else if bool_decide (c = backslash) then
      match r with
      | e :: r' =>
        if bool_decide (e = Byte.x75) then
          match r' with
          | h1 :: h2 :: h3 :: h4 :: r'' =>
            if is_hex h1 && is_hex h2 && is_hex h3 && is_hex h4 then
              lr ← scan_string r''; Some (c :: e :: h1 :: h2 :: h3 :: h4 :: lr.1, lr.2)
            else None
          | _ => None
          end
        else if bool_decide (e ∈ bs "bfnrt/" ++ [backslash; quote]) then
          lr ← scan_string r'; Some (c :: e :: lr.1, lr.2)
        else None
      | [] => None
      end
    else if in_range 0 31 c then None
    else lr ← scan_string r; Some (c :: lr.1, lr.2)
  end.

(** [utf8.DecodeRune]: the length of the valid encoding the bytes start with,
    0 if they start with none. *)
Definition rune_length (b : bytes) : nat :=
  let cont := in_range 128 191 in
  match b with
  | [] => 0
  | c0 :: r =>
    if in_range 0 127 c0 then 1 else
    match r with
    | [] => 0
    | c1 :: r =>
      if in_range 194 223 c0 then if cont c1 then 2 else 0 else
      match r with
      | [] => 0
      | c2 :: r =>
        if in_range 224 239 c0 then
          let lo := if decide (code c0 = 224)%Z then 160%Z else 128%Z in
          let hi := if decide (code c0 = 237)%Z then 159%Z else 191%Z in
          if in_range lo hi c1 && cont c2 then 3 else 0
        else
          match r with
          | [] => 0
          | c3 :: _ =>
            if in_range 240 244 c0 then
              let lo := if decide (code c0 = 240)%Z then 144%Z else 128%Z in
              let hi := if decide (code c0 = 244)%Z then 143%Z else 191%Z in
              if in_range lo hi c1 && cont c2 && cont c3 then 4 else 0
            else 0
          end
      end
    end
  end.

Definition replacement : bytes := [Byte.xef; Byte.xbf; Byte.xbd].

Definition byte_of (z : Z) : Byte.byte := default Byte.x00 (Byte.of_N (Z.to_N z)).

(** [utf8.EncodeRune] for a rune below 0x110000 that is no surrogate. *)
Definition encode_rune (z : Z) : bytes :=
  if decide (z < 128)%Z then [byte_of z]
  else if decide (z < 2048)%Z then [byte_of (192 + z / 64); byte_of (128 + z mod 64)]
  else if decide (z < 65536)%Z then
    [byte_of (224 + z / 4096); byte_of (128 + z / 64 mod 64); byte_of (128 + z mod 64)]
  else
    [byte_of (240 + z / 262144); byte_of (128 + z / 4096 mod 64);
     byte_of (128 + z / 64 mod 64); byte_of (128 + z mod 64)].

Definition hex_value (c : Byte.byte) : Z :=
  if is_digit c then (code c - 48)%Z
  else if in_range 97 102 c then (code c - 87)%Z else (code c - 55)%Z.

(** [getu4]: the code unit of an escape [\uXXXX] at the head. *)
Definition getu4 (b : bytes) : option Z :=
  match b with
  | c :: u :: h1 :: h2 :: h3 :: h4 :: _ =>
    if bool_decide (c = backslash) && bool_decide (u = Byte.x75) then
      Some (foldl (λ n h, (16 * n + hex_value h)%Z) 0%Z [h1; h2; h3; h4])
    else None
  | _ => None
  end.

Definition unescape (e : Byte.byte) : Byte.byte :=
  if bool_decide (e = Byte.x62) then Byte.x08
  else if bool_decide (e = Byte.x66) then Byte.x0c
  else if bool_decide (e = Byte.x6e) then Byte.x0a
  else if bool_decide (e = Byte.x72) then Byte.x0d
  else if bool_decide (e = Byte.x74) then Byte.x09
  else e.

(** [unquote]: every step reads at least one byte. *)
Fixpoint unquote_loop (fuel : nat) (b : bytes) : bytes :=
  match fuel with
  | 0 => []
  | S fuel =>
    match b with
    | [] => []
    | c :: r =>
      if bool_decide (c = backslash) then
        match getu4 b with
        | Some u =>
          let b' := drop 6 b in
          if decide (55296 ≤ u ≤ 57343)%Z then
            match getu4 b' with
            | Some u2 =>
              if decide (u < 56320 ∧ 56320 ≤ u2 ≤ 57343)%Z then
                encode_rune (65536 + (u - 55296) * 1024 + (u2 - 56320))
                  ++ unquote_loop fuel (drop 6 b')
              else replacement ++ unquote_loop fuel b'
            | None => replacement ++ unquote_loop fuel b'
            end
          else encode_rune u ++ unquote_loop fuel b'
        | None =>
          match r with
          | e :: r' => unescape e :: unquote_loop fuel r'
          | [] => []
          end
        end
      else
        match rune_length b with
        | 0 => replacement ++ unquote_loop fuel r
        | n => take n b ++ unquote_loop fuel (drop n b)
        end
    end
  end.

Definition unquote (lit : bytes) : string :=
  String.string_of_list_byte (unquote_loop (length lit) lit).

(** ** Values *)
Fixpoint strip_prefix (w b : bytes) : option bytes :=
  match w, b with
  | [], _ => Some b
  | x :: w, c :: r => if bool_decide (x = c) then strip_prefix w r else None
  | _ :: _, [] => None
  end.

(** A string in an object's key or as a value, from its opening quote on. *)
Definition parse_string (b : bytes) : option (string * bytes) :=
  match skip_ws b with
  | c :: r => if bool_decide (c = quote) then lr ← scan_string r; Some (unquote lr.1, lr.2) else None
  | [] => None
  end.

(** The next byte after white space must be [c]. *)
Definition expect (c : Byte.byte) (b : bytes) : option bytes :=
  match skip_ws b with
  | c' :: r => if bool_decide (c' = c) then Some r else None
  | [] => None
  end.

Fixpoint parse_value (fuel : nat) (b : bytes) : option (json * bytes) :=
  match fuel with
  | 0 => None
  | S fuel =>
    match skip_ws b with
    | [] => None
    | c :: r =>
      if bool_decide (c = open_brace) then
        match expect close_brace r with
        | Some r' => Some (JObj [], r')
        | None => mr ← parse_members fuel r; Some (JObj mr.1, mr.2)
        end
      else if bool_decide (c = open_bracket) then
        match expect close_bracket r with
        | Some r' => Some (JArr [], r')
        | None => er ← parse_elements fuel r; Some (JArr er.1, er.2)
        end
      else if bool_decide (c = quote) then sr ← parse_string (c :: r); Some (JStr sr.1, sr.2)
      else if bool_decide (c = Byte.x74) then r ← strip_prefix (bs "rue") r; Some (JBool true, r)
      else if bool_decide (c = Byte.x66) then r ← strip_prefix (bs "alse") r; Some (JBool false, r)
      else if bool_decide (c = Byte.x6e) then r ← strip_prefix (bs "ull") r; Some (JNull, r)
      else nr ← scan_number (c :: r); Some (JNum nr.1, nr.2)
    end
  end
with parse_members (fuel : nat) (b : bytes) : option (list (string * json) * bytes) :=
  match fuel with
  | 0 => None
  | S fuel =>
    kr ← parse_string b;
    r ← expect colon kr.2;
    vr ← parse_value fuel r;
    match expect comma vr.2 with
    | Some r => mr ← parse_members fuel r; Some ((kr.1, vr.1) :: mr.1, mr.2)
    | None => r ← expect close_brace vr.2; Some ([(kr.1, vr.1)], r)
    end
  end
with parse_elements (fuel : nat) (b : bytes) : option (list json * bytes) :=
  match fuel with
  | 0 => None
  | S fuel =>
    vr ← parse_value fuel b;
    match expect comma vr.2 with
    | Some r => er ← parse_elements fuel r; Some (vr.1 :: er.1, er.2)
    | None => r ← expect close_bracket vr.2; Some ([vr.1], r)
    end
  end.

(** [Decoder.Decode], up to the conversion to the target's type: the next
    value and the rest of the stream.  A level of nesting reads at least one
    byte in two calls. *)
Definition parse (b : bytes) : option (json * bytes) := parse_value (2 * length b + 2) b.

(** [Decoder.More] *)
Definition more (b : bytes) : bool :=
  match skip_ws b with
  | [] => false
  | c :: _ => negb (bool_decide (c = close_bracket ∨ c = close_brace))
  end.

(** ** Conversions to Go values *)

(** Decoding into [interface{}]; a number out of the range of [float64] is an
    error, later members of an object replace earlier ones. *)
Fixpoint to_gval (j : json) : option gval :=
  match j with
  | JNull => Some VNull
  | JBool b => Some (VBool b)
  | JNum lit => VFloat <$> lit_float lit
  | JStr s => Some (VStr s)
  | JArr l =>
    VArr <$> (fix go (l : list json) : option (list gval) :=
      match l with
      | [] => Some []
      | j :: l => v ← to_gval j; vs ← go l; Some (v :: vs)
      end) l
  | JObj l =>
    VObj <$> (fix go (l : list (string * json)) (m : mapstr) : option mapstr :=
      match l with
      | [] => Some m
      | (k, j) :: l => v ← to_gval j; go l (<[ k := v ]> m)
      end) l ∅
  end.

(** The members of an object decoded into an existing map. *)
Fixpoint members_into (l : list (string * json)) (m : mapstr) : option mapstr :=
  match l with
  | [] => Some m
  | (k, j) :: l => v ← to_gval j; members_into l (<[ k := v ]> m)
  end.

(** Struct fields match object keys up to Unicode case folding: ASCII letters,
    the long s and the Kelvin sign. *)
Fixpoint fold_bytes (b : bytes) : bytes :=
  match b with
  | Byte.xe2 :: Byte.x84 :: Byte.xaa :: r => Byte.x6b :: fold_bytes r
  | Byte.xc5 :: Byte.xbf :: r => Byte.x73 :: fold_bytes r
  | c :: r => (if in_range 65 90 c then byte_of (code c + 32) else c) :: fold_bytes r
  | [] => []
  end.
Definition field_is (field key : string) : bool :=
  bool_decide (fold_bytes (bs key) = bs field).

(** Text that decoding leaves alone: valid UTF-8. *)
Fixpoint valid_utf8_loop (fuel : nat) (b : bytes) : bool :=
  match fuel, b with
  | _, [] => true
  | 0, _ => false
  | S fuel, _ => match rune_length b with 0 => false | n => valid_utf8_loop fuel (drop n b) end
  end.
Definition valid_utf8 (s : string) : bool := valid_utf8_loop (length (bs s)) (bs s).

Fixpoint text_ok (v : gval) : bool :=
  match v with
  | VStr s => valid_utf8 s
  | VFloat f => match f with SpecFloat.S754_finite _ _ _ | SpecFloat.S754_zero _ => true | _ => false end
  | VArr l => forallb text_ok l
  | VObj m => map_fold (λ k v b, valid_utf8 k && text_ok v && b) true m
  | _ => true
  end.
