(* ===== verification/JsonFacts.v ===== *)
(** * Facts about the JSON decoder

    A value, once complete, decodes the same whatever follows it in the stream
    ([parse_extend]), and no proper prefix of the text of an object decodes
    ([parse_prefix_none]): what makes a torn write detectable. *)

From stdpp Require Import base gmap strings list fin_maps.
From Stdlib Require Import ZArith Lia.
From S2P Require Import Prelude GoValue Json.

(** Numbers end where another character follows; all other values end in a
    character of their own. *)
Definition is_number (j : json) : bool := match j with JNum _ => true | _ => false end.

(** A scanner whose answer does not depend on what follows, if something does. *)
Definition extends {A} (f : bytes → option (A * bytes)) : Prop :=
  ∀ b q x r, r ≠ [] → f b = Some (x, r) → f (b ++ q) = Some (x, r ++ q).

(** ... and one that does not need to see what follows. *)
Definition delimited {A} (f : bytes → option (A * bytes)) : Prop :=
  ∀ b q x r, f b = Some (x, r) → f (b ++ q) = Some (x, r ++ q).

Lemma skip_ws_app b q : skip_ws b ≠ [] → skip_ws (b ++ q) = skip_ws b ++ q.
Proof. induction b as [|c r IH]; simpl; [done|]. destruct (is_ws c); auto. Qed.

Lemma skip_ws_cons b c r q : skip_ws b = c :: r → skip_ws (b ++ q) = c :: r ++ q.
Proof. intros H. rewrite skip_ws_app; by rewrite H. Qed.

Lemma expect_app c b r q : expect c b = Some r → expect c (b ++ q) = Some (r ++ q).
Proof.
  unfold expect. destruct (skip_ws b) as [|c' r'] eqn:E; [done|].
  rewrite (skip_ws_cons _ _ _ _ E). case_bool_decide; naive_solver.
Qed.

(** A character that is there and differs still differs with more behind it. *)
Lemma expect_app_None c b q : expect c b = None → skip_ws b ≠ [] → expect c (b ++ q) = None.
Proof.
  unfold expect. destruct (skip_ws b) as [|c' r'] eqn:E; [done|].
  rewrite (skip_ws_cons _ _ _ _ E). by case_bool_decide.
Qed.

Lemma take_digits_extend b q ds r : r ≠ [] → take_digits b = (ds, r) →
  take_digits (b ++ q) = (ds, r ++ q).
Proof.
  intros Hr. revert ds. induction b as [|c b IH]; intros ds; simpl; [naive_solver|].
  destruct (is_digit c); [|naive_solver].
  destruct (take_digits b) as [ds' r'] eqn:E. intros [= <- ->]. by rewrite (IH ds').
Qed.

Lemma scan_digits_extend : extends scan_digits.
Proof.
  intros b q x r Hr. unfold scan_digits. destruct (take_digits b) as [ds r'] eqn:E.
  destruct ds as [|d ds]; [done|]. intros [= <- ->]. by rewrite (take_digits_extend _ _ _ _ Hr E).
Qed.

Lemma scan_int_extend : extends scan_int.
Proof.
  intros b q x r Hr. destruct b as [|c b]; [done|]. unfold scan_int. simpl app.
  cbn beta iota. case_bool_decide; [naive_solver|]. destruct (is_digit c) eqn:Hd; [|done].
  intros [= E]. assert (take_digits (c :: b) = (x, r)) as E' by exact E.
  f_equal. exact (take_digits_extend (c :: b) q _ _ Hr E').
Qed.

Lemma scan_sign_extend signs b q x r : b ≠ [] → scan_sign signs b = (x, r) →
  scan_sign signs (b ++ q) = (x, r ++ q).
Proof.
  destruct b as [|c b]; [done|]. intros _. simpl. case_bool_decide; naive_solver.
Qed.

Lemma scan_frac_extend : extends scan_frac.
Proof.
  intros b q x r Hr. destruct b as [|c b]; simpl; [naive_solver|].
  case_bool_decide; [|naive_solver]. destruct (scan_digits b) as [[ds r']|] eqn:E; [|done].
  simpl. intros [= <- ->]. by rewrite (scan_digits_extend _ q _ _ Hr E).
Qed.

Lemma scan_exp_extend : extends scan_exp.
Proof.
  intros b q x r Hr. destruct b as [|c b]; simpl; [naive_solver|].
  case_bool_decide; [|naive_solver].
  destruct (scan_sign _ b) as [sg r1] eqn:Es.
  destruct (scan_digits r1) as [[ds r']|] eqn:E; [|done].
  simpl. intros [= <- ->].
  assert (b ≠ []) as Hb by (by intros ->; simplify_eq/=).
  rewrite (scan_sign_extend _ _ q _ _ Hb Es). by rewrite (scan_digits_extend _ q _ _ Hr E).
Qed.

Lemma scan_exp_nil x r : scan_exp [] = Some (x, r) → r = [].
Proof. by intros [= _ <-]. Qed.

Lemma scan_number_extend : extends scan_number.
Proof.
  intros b q x r Hr. unfold scan_number. destruct (scan_sign _ b) as [sg b0] eqn:Es.
  destruct (scan_int b0) as [[i b1]|] eqn:Ei; [|done]. simpl.
  destruct (scan_frac b1) as [[f b2]|] eqn:Ef; [|done]. simpl.
  destruct (scan_exp b2) as [[e b3]|] eqn:Ee; [|done]. simpl. intros [= <- ->].
  assert (b2 ≠ []) as H2 by (intros ->; by apply Hr, (scan_exp_nil e)).
  assert (b1 ≠ []) as H1 by (intros ->; by simplify_eq/=).
  assert (b ≠ []) as Hb by (by intros ->; simplify_eq/=).
  rewrite (scan_sign_extend _ _ q _ _ Hb Es), (scan_int_extend _ q _ _ H1 Ei). simpl.
  rewrite (scan_frac_extend _ q _ _ H2 Ef). simpl. by rewrite (scan_exp_extend _ q _ _ Hr Ee).
Qed.

Lemma scan_string_delimited : delimited scan_string.
Proof.
  intros b. remember (length b) as n eqn:Hn.
  revert b Hn. induction (lt_wf n) as [n _ IH]. intros b -> q x r.
  assert (Hrec : ∀ b' x' r', length b' < length b → scan_string b' = Some (x', r') →
    scan_string (b' ++ q) = Some (x', r' ++ q)) by (intros b' x' r' Hlt; by apply (IH _ Hlt b')).
  clear IH. destruct b as [|c b]; [done|]. cbn [scan_string app]. simpl in Hrec.
  case_bool_decide; [naive_solver|]. case_bool_decide.
  - destruct b as [|e b]; [done|]. cbn [app]. case_bool_decide.
    + destruct b as [|h1 [|h2 [|h3 [|h4 b]]]]; try done. cbn [app].
      destruct (is_hex h1 && is_hex h2 && is_hex h3 && is_hex h4); [|done].
      destruct (scan_string b) as [[l r']|] eqn:E; [|done]. cbn. intros [= <- <-].
      by rewrite (Hrec b l r') by (simpl; lia || done).
    + case_bool_decide; [|done].
      destruct (scan_string b) as [[l r']|] eqn:E; [|done]. cbn. intros [= <- <-].
      by rewrite (Hrec b l r') by (simpl; lia || done).
  - destruct (in_range 0 31 c); [done|].
    destruct (scan_string b) as [[l r']|] eqn:E; [|done]. cbn. intros [= <- <-].
    by rewrite (Hrec b l r') by (simpl; lia || done).
Qed.

Lemma strip_prefix_app w b r q : strip_prefix w b = Some r → strip_prefix w (b ++ q) = Some (r ++ q).
Proof.
  revert b. induction w as [|x w IH]; intros b; [by destruct b; intros [= <-]|].
  destruct b as [|c b]; simpl; [done|]. case_bool_decide; [|done]. apply IH.
Qed.

Lemma parse_string_delimited : delimited parse_string.
Proof.
  intros b q x r. unfold parse_string. destruct (skip_ws b) as [|c b'] eqn:E; [done|].
  rewrite (skip_ws_cons _ _ _ _ E). case_bool_decide; [|done].
  destruct (scan_string b') as [[l r']|] eqn:Es; [|done]. simpl. intros [= <- <-].
  by rewrite (scan_string_delimited _ q _ _ Es).
Qed.

#[local] Arguments strip_prefix : simpl never.

(** ** Values *)

(** What a scanner left is nonempty when the next character was found there. *)
Lemma expect_nonempty c b r : expect c b = Some r → b ≠ [].
Proof. by intros H ->. Qed.

Lemma expect_skip c b r : expect c b = Some r → skip_ws b ≠ [].
Proof. unfold expect. by destruct (skip_ws b). Qed.

Definition value_extends (fuel : nat) : Prop := ∀ fuel' b q j r, fuel ≤ fuel' →
  (r ≠ [] ∨ is_number j = false) →
  parse_value fuel b = Some (j, r) → parse_value fuel' (b ++ q) = Some (j, r ++ q).
Definition members_extends (fuel : nat) : Prop := ∀ fuel' b q l r, fuel ≤ fuel' →
  parse_members fuel b = Some (l, r) → parse_members fuel' (b ++ q) = Some (l, r ++ q).
Definition elements_extends (fuel : nat) : Prop := ∀ fuel' b q l r, fuel ≤ fuel' →
  parse_elements fuel b = Some (l, r) → parse_elements fuel' (b ++ q) = Some (l, r ++ q).

Lemma parse_members_nil fuel : parse_members fuel [] = None.
Proof. by destruct fuel. Qed.
Lemma parse_elements_nil fuel : parse_elements fuel [] = None.
Proof. destruct fuel as [|fuel]; [done|]. simpl. by destruct fuel. Qed.

Lemma parse_members_ws fuel b : skip_ws b = [] → parse_members fuel b = None.
Proof. intros H. destruct fuel; [done|]. simpl. unfold parse_string. by rewrite H. Qed.
Lemma parse_value_ws fuel b : skip_ws b = [] → parse_value fuel b = None.
Proof. intros H. destruct fuel; [done|]. simpl. by rewrite H. Qed.
Lemma parse_elements_ws fuel b : skip_ws b = [] → parse_elements fuel b = None.
Proof. intros H. destruct fuel; [done|]. simpl. by rewrite parse_value_ws. Qed.

Lemma value_extends_S fuel :
  members_extends fuel → elements_extends fuel → value_extends (S fuel).
Proof.
  intros Hm He fuel' b q j r Hf Hr. destruct fuel' as [|fuel']; [lia|].
  cbn [parse_value]. destruct (skip_ws b) as [|c b'] eqn:E; [done|].
  rewrite (skip_ws_cons _ _ _ _ E).
  case_bool_decide.
  { destruct (expect close_brace b') as [r'|] eqn:Ec.
    { intros [= <- <-]. by rewrite (expect_app _ _ _ _ Ec). }
    destruct (parse_members fuel b') as [[l r']|] eqn:Em; [|done]. simpl. intros [= <- <-].
    rewrite (expect_app_None _ _ _ Ec) by (intros Hws; by rewrite (parse_members_ws _ _ Hws) in Em).
    by rewrite (Hm fuel' _ q _ _ ltac:(lia) Em). }
  case_bool_decide.
  { destruct (expect close_bracket b') as [r'|] eqn:Ec.
    { intros [= <- <-]. by rewrite (expect_app _ _ _ _ Ec). }
    destruct (parse_elements fuel b') as [[l r']|] eqn:Em; [|done]. simpl. intros [= <- <-].
    rewrite (expect_app_None _ _ _ Ec) by (intros Hws; by rewrite (parse_elements_ws _ _ Hws) in Em).
    by rewrite (He fuel' _ q _ _ ltac:(lia) Em). }
  case_bool_decide.
  { destruct (parse_string (c :: b')) as [[s r']|] eqn:Es; [|done]. simpl. intros [= <- <-].
    change (c :: b' ++ q) with ((c :: b') ++ q). by rewrite (parse_string_delimited _ q _ _ Es). }
  case_bool_decide.
  { destruct (strip_prefix _ b') eqn:Es; [|done]. simpl. intros [= <- <-].
    by rewrite (strip_prefix_app _ _ _ q Es). }
  case_bool_decide.
  { destruct (strip_prefix _ b') eqn:Es; [|done]. simpl. intros [= <- <-].
    by rewrite (strip_prefix_app _ _ _ q Es). }
  case_bool_decide.
  { destruct (strip_prefix _ b') eqn:Es; [|done]. simpl. intros [= <- <-].
    by rewrite (strip_prefix_app _ _ _ q Es). }
  destruct (scan_number (c :: b')) as [[n r']|] eqn:Es; [|done]. simpl. intros [= <- <-].
  destruct Hr as [Hr|]; [|done].
  change (c :: b' ++ q) with ((c :: b') ++ q). by rewrite (scan_number_extend _ q _ _ Hr Es).
Qed.

Lemma members_extends_S fuel :
  value_extends fuel → members_extends fuel → members_extends (S fuel).
Proof.
  intros Hv Hm fuel' b q l r Hf. destruct fuel' as [|fuel']; [lia|]. cbn [parse_members].
  destruct (parse_string b) as [[k r1]|] eqn:Ek; [|done]. simpl.
  destruct (expect colon r1) as [r2|] eqn:Ec; [|done]. simpl.
  destruct (parse_value fuel r2) as [[v r3]|] eqn:Ev; [|done]. simpl. intros Hrest.
  rewrite (parse_string_delimited _ q _ _ Ek). simpl. rewrite (expect_app _ _ _ _ Ec). simpl.
  assert (skip_ws r3 ≠ []) as Hws.
  { destruct (expect comma r3) eqn:E1; [by eapply expect_skip|].
    destruct (expect close_brace r3) eqn:E2; [by eapply expect_skip|done]. }
  assert (r3 ≠ []) as Hr3 by (by intros ->).
  rewrite (Hv fuel' _ q _ _ ltac:(lia) (or_introl Hr3) Ev). simpl.
  destruct (expect comma r3) as [r4|] eqn:E1.
  - rewrite (expect_app _ _ _ _ E1).
    destruct (parse_members fuel r4) as [[ms r5]|] eqn:Em; [|done]. simpl in *.
    by rewrite (Hm fuel' _ q _ _ ltac:(lia) Em); simplify_eq.
  - rewrite (expect_app_None _ _ _ E1 Hws).
    destruct (expect close_brace r3) as [r4|] eqn:E2; [|done]. simpl in *.
    by rewrite (expect_app _ _ _ _ E2); simplify_eq.
Qed.

Lemma elements_extends_S fuel :
  value_extends fuel → elements_extends fuel → elements_extends (S fuel).
Proof.
  intros Hv He fuel' b q l r Hf. destruct fuel' as [|fuel']; [lia|]. cbn [parse_elements].
  destruct (parse_value fuel b) as [[v r3]|] eqn:Ev; [|done]. simpl. intros Hrest.
  assert (skip_ws r3 ≠ []) as Hws.
  { destruct (expect comma r3) eqn:E1; [by eapply expect_skip|].
    destruct (expect close_bracket r3) eqn:E2; [by eapply expect_skip|done]. }
  assert (r3 ≠ []) as Hr3 by (by intros ->).
  rewrite (Hv fuel' _ q _ _ ltac:(lia) (or_introl Hr3) Ev). simpl.
  destruct (expect comma r3) as [r4|] eqn:E1.
  - rewrite (expect_app _ _ _ _ E1).
    destruct (parse_elements fuel r4) as [[ms r5]|] eqn:Em; [|done]. simpl in *.
    by rewrite (He fuel' _ q _ _ ltac:(lia) Em); simplify_eq.
  - rewrite (expect_app_None _ _ _ E1 Hws).
    destruct (expect close_bracket r3) as [r4|] eqn:E2; [|done]. simpl in *.
    by rewrite (expect_app _ _ _ _ E2); simplify_eq.
Qed.

Lemma parse_extends fuel : value_extends fuel ∧ members_extends fuel ∧ elements_extends fuel.
Proof.
  induction fuel as [|fuel (Hv & Hm & He)]; [by split_and!|].
  auto using value_extends_S, members_extends_S, elements_extends_S.
Qed.

Lemma parse_extend b q j r : parse b = Some (j, r) → r ≠ [] ∨ is_number j = false →
  parse (b ++ q) = Some (j, r ++ q).
Proof.
  intros Hp Hr. unfold parse in *. eapply (proj1 (parse_extends _)); [|done|done].
  rewrite length_app. lia.
Qed.

(** Whether a value is a number shows in its first character. *)
Definition number_start (c : Byte.byte) : bool :=
  negb (bool_decide (c ∈ [open_brace; open_bracket; quote; Byte.x74; Byte.x66; Byte.x6e])).

Lemma parse_value_start fuel b j r : parse_value fuel b = Some (j, r) →
  ∃ c b', skip_ws b = c :: b' ∧ is_number j = number_start c.
Proof.
  destruct fuel as [|fuel]; [done|]. cbn [parse_value].
  destruct (skip_ws b) as [|c b']; [done|]. intros H. exists c, b'. split; [done|].
  unfold number_start.
  case_bool_decide as H1; [subst; by repeat case_match; simplify_option_eq|].
  case_bool_decide as H2; [subst; by repeat case_match; simplify_option_eq|].
  case_bool_decide as H3; [subst; by simplify_option_eq|].
  case_bool_decide as H4; [subst; by simplify_option_eq|].
  case_bool_decide as H5; [subst; by simplify_option_eq|].
  case_bool_decide as H6; [subst; by simplify_option_eq|].
  rewrite bool_decide_false by (rewrite !elem_of_cons, elem_of_nil; tauto).
  by simplify_option_eq.
Qed.

(** A proper prefix of a text that decodes completely does not decode. *)
Lemma parse_prefix_none p q j : parse (p ++ q) = Some (j, []) → q ≠ [] → is_number j = false →
  parse p = None.
Proof.
  intros Hp Hq Hj. destruct (parse p) as [[j' r']|] eqn:E; [exfalso|done].
  assert (Hex : ¬ (r' ≠ [] ∨ is_number j' = false)).
  { intros Hr. rewrite (parse_extend _ q _ _ E Hr) in Hp. injection Hp as _ Hnil.
    by apply app_eq_nil in Hnil as [_ ?]. }
  destruct r' as [|x r']; [|by destruct Hex; left].
  destruct (is_number j') eqn:Hn; [|by destruct Hex; right].
  apply parse_value_start in E as (c & b' & Hws & Hc).
  apply parse_value_start in Hp as (c2 & b2 & Hws2 & Hc2).
  rewrite (skip_ws_cons _ _ _ _ Hws) in Hws2. congruence.
Qed.

(** ** White space between values *)
Lemma skip_ws_newline b : skip_ws (newline :: b) = skip_ws b.
Proof. done. Qed.

Lemma more_newline b : more (newline :: b) = more b.
Proof. done. Qed.

Lemma skip_ws_length b : length (skip_ws b) ≤ length b.
Proof. induction b as [|c b IH]; simpl; [lia|]. destruct (is_ws c); simpl; lia. Qed.

Lemma parse_value_skip fuel b b' : skip_ws b = skip_ws b' → parse_value fuel b = parse_value fuel b'.
Proof. intros H. destruct fuel; [done|]. cbn [parse_value]. by rewrite H. Qed.

Lemma parse_newline b : ∀ j r, parse b = Some (j, r) → r ≠ [] ∨ is_number j = false →
  parse (newline :: b) = Some (j, r).
Proof.
  intros j r Hp Hr. unfold parse in *.
  rewrite (parse_value_skip _ _ b) by done.
  rewrite <-(app_nil_r b) at 2. rewrite <-(app_nil_r r).
  eapply (proj1 (parse_extends _)); [|done|exact Hp]. simpl. lia.
Qed.

(** ** A value takes at least one byte, and [parse] has fuel enough *)

(** A scanner that leaves no more than it was given. *)
Definition shrinks {A} (f : bytes → option (A * bytes)) : Prop :=
  ∀ b x r, f b = Some (x, r) → length r ≤ length b.
(** ... and one that takes at least a byte. *)
Definition consumes {A} (f : bytes → option (A * bytes)) : Prop :=
  ∀ b x r, f b = Some (x, r) → length r < length b.

Lemma take_digits_shrinks b ds r : take_digits b = (ds, r) → length b = length ds + length r.
Proof.
  revert ds. induction b as [|c b IH]; intros ds; simpl; [by intros [= <- <-]|].
  destruct (is_digit c); [|by intros [= <- <-]].
  destruct (take_digits b) as [ds' r'] eqn:E. intros [= <- ->]. simpl. by rewrite (IH ds').
Qed.

Lemma scan_digits_shrinks : shrinks scan_digits.
Proof.
  intros b x r. unfold scan_digits. destruct (take_digits b) as [[|d ds] r'] eqn:E; [done|].
  intros [= <- <-]. apply take_digits_shrinks in E. lia.
Qed.

Lemma scan_sign_shrinks signs b x r : scan_sign signs b = (x, r) → length r ≤ length b.
Proof. destruct b as [|c b]; simpl; [naive_solver|]. case_bool_decide; intros [= <- <-]; simpl; lia. Qed.

Lemma scan_int_consumes : consumes scan_int.
Proof.
  intros b x r. destruct b as [|c b]; [done|]. unfold scan_int. case_bool_decide; [naive_solver|].
  destruct (is_digit c) eqn:Hd; [|done]. intros [= E]. pose proof (take_digits_shrinks (c :: b) x r E).
  assert (x ≠ []) as Hx; [|destruct x; [done|simpl in *; lia]].
  intros ->. simpl in E. rewrite Hd in E. by destruct (take_digits b).
Qed.

Lemma scan_frac_shrinks : shrinks scan_frac.
Proof.
  intros b x r. destruct b as [|c b]; simpl; [naive_solver|]. case_bool_decide; [|naive_solver].
  destruct (scan_digits b) as [[ds r']|] eqn:E; [|done]. apply scan_digits_shrinks in E.
  simpl. intros [= <- <-]. lia.
Qed.

Lemma scan_exp_shrinks : shrinks scan_exp.
Proof.
  intros b x r. destruct b as [|c b]; simpl; [naive_solver|]. case_bool_decide; [|naive_solver].
  destruct (scan_sign _ b) as [sg r1] eqn:Es. apply scan_sign_shrinks in Es.
  destruct (scan_digits r1) as [[ds r']|] eqn:E; [|done]. apply scan_digits_shrinks in E.
  simpl. intros [= <- <-]. lia.
Qed.

Lemma scan_number_consumes : consumes scan_number.
Proof.
  intros b x r. unfold scan_number. destruct (scan_sign _ b) as [sg b0] eqn:Es.
  apply scan_sign_shrinks in Es.
  destruct (scan_int b0) as [[i b1]|] eqn:Ei; [|done]. apply scan_int_consumes in Ei. simpl.
  destruct (scan_frac b1) as [[f b2]|] eqn:Ef; [|done]. apply scan_frac_shrinks in Ef. simpl.
  destruct (scan_exp b2) as [[e b3]|] eqn:Ee; [|done]. apply scan_exp_shrinks in Ee. simpl.
  intros [= <- <-]. lia.
Qed.

Lemma scan_string_consumes : consumes scan_string.
Proof.
  intros b. remember (length b) as n eqn:Hn. revert b Hn.
  induction (lt_wf n) as [n _ IH]. intros b -> x r.
  assert (Hrec : ∀ b' x' r', length b' < length b → scan_string b' = Some (x', r') →
    length r' < length b') by (intros b' x' r' Hlt; by apply (IH _ Hlt b')).
  clear IH. destruct b as [|c b]; [done|]. cbn [scan_string]. simpl in *.
  case_bool_decide; [intros [= _ <-]; lia|]. case_bool_decide.
  - destruct b as [|e b]; [done|]. case_bool_decide.
    + destruct b as [|h1 [|h2 [|h3 [|h4 b]]]]; try done. destruct (_ && _); [|done].
      destruct (scan_string b) as [[l r']|] eqn:E; [|done]. simpl. intros [= <- <-].
      apply Hrec in E; simpl in *; lia.
    + case_bool_decide; [|done].
      destruct (scan_string b) as [[l r']|] eqn:E; [|done]. simpl. intros [= <- <-].
      apply Hrec in E; simpl in *; lia.
  - destruct (in_range 0 31 c); [done|].
    destruct (scan_string b) as [[l r']|] eqn:E; [|done]. simpl. intros [= <- <-].
    apply Hrec in E; simpl in *; lia.
Qed.

Lemma strip_prefix_shrinks w b r : strip_prefix w b = Some r → length r ≤ length b.
Proof.
  revert b. induction w as [|x w IH]; intros b.
  { destruct b; intros [= <-]; simpl; lia. }
  destruct b as [|c b]; [done|].
  change (strip_prefix (x :: w) (c :: b)) with (if bool_decide (x = c) then strip_prefix w b else None).
  case_bool_decide; [|done].
  intros ?%IH. simpl. lia.
Qed.

Lemma skip_ws_shrinks b c r : skip_ws b = c :: r → length r < length b.
Proof. intros H. pose proof (skip_ws_length b) as Hl. rewrite H in Hl. simpl in Hl. lia. Qed.

Lemma expect_consumes c b r : expect c b = Some r → length r < length b.
Proof.
  unfold expect. destruct (skip_ws b) as [|c' b'] eqn:E; [done|]. apply skip_ws_shrinks in E.
  case_bool_decide; [|done]. by intros [= <-].
Qed.

Lemma parse_string_consumes : consumes parse_string.
Proof.
  intros b x r. unfold parse_string. destruct (skip_ws b) as [|c b'] eqn:E; [done|].
  apply skip_ws_shrinks in E. case_bool_decide; [|done].
  destruct (scan_string b') as [[l r']|] eqn:Es; [|done]. apply scan_string_consumes in Es.
  simpl. intros [= <- <-]. lia.
Qed.

Lemma parse_consumes_fuel fuel :
  consumes (parse_value fuel) ∧ consumes (parse_members fuel) ∧ consumes (parse_elements fuel).
Proof.
  induction fuel as [|fuel (Hv & Hm & He)]; [by split_and!|]. split_and!.
  - intros b j r. cbn [parse_value]. destruct (skip_ws b) as [|c b'] eqn:E; [done|].
    pose proof (skip_ws_shrinks _ _ _ E) as Hb. pose proof (skip_ws_length b) as Hl. rewrite E in Hl.
    case_bool_decide; [destruct (expect close_brace b') eqn:Ec|case_bool_decide;
      [destruct (expect close_bracket b') eqn:Ec|case_bool_decide;
        [|case_bool_decide; [|case_bool_decide; [|case_bool_decide]]]]]; intros Hrest;
      simplify_option_eq; try apply expect_consumes in Ec;
      repeat match goal with
      | H : parse_members _ _ = Some ?x |- _ => destruct x; apply Hm in H
      | H : parse_elements _ _ = Some ?x |- _ => destruct x; apply He in H
      | H : parse_string _ = Some ?x |- _ => destruct x; apply parse_string_consumes in H
      | H : scan_number _ = Some ?x |- _ => destruct x; apply scan_number_consumes in H
      | H : strip_prefix _ _ = Some _ |- _ => apply strip_prefix_shrinks in H
      end; simpl in *; lia.
  - intros b l r. cbn [parse_members].
    destruct (parse_string b) as [[k r1]|] eqn:Ek; [|done]. apply parse_string_consumes in Ek. simpl.
    destruct (expect colon r1) as [r2|] eqn:Ec; [|done]. apply expect_consumes in Ec. simpl.
    destruct (parse_value fuel r2) as [[v r3]|] eqn:Ev; [|done]. apply Hv in Ev. simpl.
    destruct (expect comma r3) as [r4|] eqn:E1.
    + apply expect_consumes in E1. destruct (parse_members fuel r4) as [[ms r5]|] eqn:Em; [|done].
      apply Hm in Em. simpl. intros [= <- <-]. lia.
    + destruct (expect close_brace r3) as [r4|] eqn:E2; [|done]. apply expect_consumes in E2.
      simpl. intros [= <- <-]. lia.
  - intros b l r. cbn [parse_elements].
    destruct (parse_value fuel b) as [[v r3]|] eqn:Ev; [|done]. apply Hv in Ev. simpl.
    destruct (expect comma r3) as [r4|] eqn:E1.
    + apply expect_consumes in E1. destruct (parse_elements fuel r4) as [[ms r5]|] eqn:Em; [|done].
      apply He in Em. simpl. intros [= <- <-]. lia.
    + destruct (expect close_bracket r3) as [r4|] eqn:E2; [|done]. apply expect_consumes in E2.
      simpl. intros [= <- <-]. lia.
Qed.

Lemma parse_consumes : consumes parse.
Proof. intros b. apply parse_consumes_fuel. Qed.

Definition value_enough (fuel : nat) : Prop := ∀ fuel' b x, 2 * length b + 1 ≤ fuel' →
  parse_value fuel b = Some x → parse_value fuel' b = Some x.
Definition members_enough (fuel : nat) : Prop := ∀ fuel' b x, 2 * length b ≤ fuel' →
  parse_members fuel b = Some x → parse_members fuel' b = Some x.
Definition elements_enough (fuel : nat) : Prop := ∀ fuel' b x, 2 * length b + 2 ≤ fuel' →
  parse_elements fuel b = Some x → parse_elements fuel' b = Some x.

Lemma value_enough_S fuel : members_enough fuel → elements_enough fuel → value_enough (S fuel).
Proof.
  intros Hm He fuel' b x Hf. destruct fuel' as [|fuel']; [lia|]. cbn [parse_value].
  destruct (skip_ws b) as [|c b'] eqn:E; [done|].
  pose proof (skip_ws_shrinks _ _ _ E) as Hb.
  case_bool_decide.
  { destruct (expect close_brace b'); [done|].
    destruct (parse_members fuel b') eqn:Em; [|done]. by rewrite (Hm fuel' b' _ ltac:(lia) Em). }
  case_bool_decide; [|done].
  destruct (expect close_bracket b'); [done|].
  destruct (parse_elements fuel b') eqn:Em; [|done]. by rewrite (He fuel' b' _ ltac:(lia) Em).
Qed.

Lemma members_enough_S fuel : value_enough fuel → members_enough fuel → members_enough (S fuel).
Proof.
  intros Hv Hm fuel' b x Hf.
  destruct (parse_string b) as [[k r1]|] eqn:Ek; [|by cbn [parse_members]; rewrite Ek].
  pose proof (parse_string_consumes _ _ _ Ek) as Hk.
  destruct fuel' as [|fuel']; [lia|]. cbn [parse_members]. rewrite Ek. simpl.
  destruct (expect colon r1) as [r2|] eqn:Ec; [|done]. simpl. apply expect_consumes in Ec.
  destruct (parse_value fuel r2) as [[v r3]|] eqn:Ev; [|done].
  rewrite (Hv fuel' r2 _ ltac:(lia) Ev). simpl. apply parse_consumes_fuel in Ev.
  destruct (expect comma r3) as [r4|] eqn:E1; [|done]. apply expect_consumes in E1.
  destruct (parse_members fuel r4) eqn:Em; [|done]. by rewrite (Hm fuel' r4 _ ltac:(lia) Em).
Qed.

Lemma elements_enough_S fuel : value_enough fuel → elements_enough fuel → elements_enough (S fuel).
Proof.
  intros Hv He fuel' b x Hf. destruct fuel' as [|fuel']; [lia|]. cbn [parse_elements].
  destruct (parse_value fuel b) as [[v r3]|] eqn:Ev; [|done].
  rewrite (Hv fuel' b _ ltac:(lia) Ev). simpl. apply parse_consumes_fuel in Ev.
  destruct (expect comma r3) as [r4|] eqn:E1; [|done]. apply expect_consumes in E1.
  destruct (parse_elements fuel r4) eqn:Em; [|done]. by rewrite (He fuel' r4 _ ltac:(lia) Em).
Qed.

Lemma parse_enough fuel : value_enough fuel ∧ members_enough fuel ∧ elements_enough fuel.
Proof.
  induction fuel as [|fuel (Hv & Hm & He)]; [by split_and!|].
  auto using value_enough_S, members_enough_S, elements_enough_S.
Qed.

(** [parse] decodes what any amount of fuel decodes. *)
Lemma parse_any_fuel fuel b x : parse_value fuel b = Some x → parse b = Some x.
Proof. apply parse_enough. lia. Qed.

(** White space before a value does not matter. *)
Lemma parse_skip b b' : skip_ws b = skip_ws b' → parse b = parse b'.
Proof.
  intros H. unfold parse. destruct (parse_value _ b) as [x|] eqn:E.
  - rewrite (parse_value_skip _ _ _ H) in E. by apply parse_any_fuel in E.
  - destruct (parse_value _ b') as [x|] eqn:E'; [|done].
    rewrite <-(parse_value_skip _ _ _ H) in E'. apply parse_any_fuel in E'. unfold parse in E'. congruence.
Qed.

Lemma more_skip b b' : skip_ws b = skip_ws b' → more b = more b'.
Proof. intros H. unfold more. by rewrite H. Qed.

(** An array element by element, for texts put together from texts of values. *)
Lemma parse_value_array fuel b :
  parse_value (S fuel) (open_bracket :: b) =
  match expect close_bracket b with
  | Some r => Some (JArr [], r)
  | None => er ← parse_elements fuel b; Some (JArr er.1, er.2)
  end.
Proof. reflexivity. Qed.

Lemma parse_array_end b r : expect close_bracket b = Some r → parse (open_bracket :: b) = Some (JArr [], r).
Proof. intros H. apply (parse_any_fuel 1). by rewrite parse_value_array, H. Qed.

Lemma parse_array_elements fuel b l r : expect close_bracket b = None →
  parse_elements fuel b = Some (l, r) → parse (open_bracket :: b) = Some (JArr l, r).
Proof. intros Hc H. apply (parse_any_fuel (S fuel)). by rewrite parse_value_array, Hc, H. Qed.
