(* ===== verification/Fs.v ===== *)
(** * Files and writers: Go's os, io and bufio, and memlog's util.go

    The world is the home directory of one store, with a script of faults: each
    system call takes the next one and succeeds once the script is used up.
    A failing call has no effect, except that a write may have written, and a
    read have read, a prefix.  Theorems quantify over every script, so they
    cover every sequence of I/O errors and every crash (a script that fails for
    good from some call on).  Data a call has written stays written: the page
    cache is not modelled. *)

From stdpp Require Import base gmap strings list fin_maps.
From Stdlib Require Import ZArith Lia.
From S2P Require Import Prelude GoValue.

Inductive errno := EINTR | EAGAIN | ENOENT | EACCES | EISDIR | EIO | ENOSPC | EMFILE | ENOTSUP | EDQUOT | EFBIG
  | ECONNRESET | ENETDOWN | ENETUNREACH | errno0.
#[export] Instance errno_eq_dec : EqDecision errno.
Proof. solve_decision. Defined.

(** The error values of the store; [Wrapped] is [fmt.Errorf("...%w")]. *)
Inductive goerr :=
| Errno (e : errno)
| errRegClosed
| errLogInvalid
| errTxIDInvalid
| errKeyUnknown
| ErrCorruptStore
| errEncode
| errDecode
| errConvert
| errText (msg : string)
| Wrapped (msg : string) (e : goerr).
#[export] Instance goerr_eq_dec : EqDecision goerr.
Proof. solve_decision. Defined.

(** [errors.Is] *)
Fixpoint errors_is (e target : goerr) : bool :=
  bool_decide (e = target) ||
  match e with
  | Wrapped _ e => errors_is e target
  | _ => false
  end.

(** [os.IsNotExist], which does not unwrap, on the result of a call. *)
Definition isNotExist (e : option goerr) : bool := bool_decide (e = Some (Errno ENOENT)).

(** [fmt.Errorf] around the error of a call. *)
Definition wrap_err (msg : string) (err : option goerr) : option goerr := Wrapped msg <$> err.

(** A file with its content and its [os.FileMode]. *)
Record file := mkFile { content : bytes; fmode : Z }.

Definition ModePerm : Z := 511.
(** The type bits: directory, symlink, device, pipe, socket, character device, irregular. *)
Definition ModeType : Z := (2 ^ 31 + 2 ^ 27 + 2 ^ 26 + 2 ^ 25 + 2 ^ 24 + 2 ^ 21 + 2 ^ 19)%Z.
Definition isRegular (f : file) : bool := bool_decide (Z.land (fmode f) ModeType = 0%Z).

Inductive home_state := HomeAbsent | HomeIsFile | HomeDir.

Inductive fault := FOk | FFail (n : nat) (e : errno).

Record world := mkWorld {
  home_is : home_state;
  files : gmap string file;
  faults : list fault
}.

(** ** Computations *)
Definition IO (A : Type) : Type := world → outcome (A * world).
#[export] Instance io_ret : MRet IO := fun A a w => Done (a, w).
#[export] Instance io_bind : MBind IO := fun A B f m w =>
  match m w with
  | Done (a, w') => f a w'
  | Panic s => Panic s
  | OutOfFuel => OutOfFuel
  end.

Definition io_panic {A} (msg : string) : IO A := fun _ => Panic msg.

(** A computation that does no I/O. *)
Definition io_lift {A} (m : outcome A) : IO A := fun w =>
  match m with
  | Done a => Done (a, w)
  | Panic s => Panic s
  | OutOfFuel => OutOfFuel
  end.

Definition set_files (f : gmap string file → gmap string file) (w : world) : world :=
  mkWorld (home_is w) (f (files w)) (faults w).

(** The next fault of the script. *)
Definition next_fault : IO fault := fun w =>
  match faults w with
  | [] => Done (FOk, w)
  | f :: fs => Done (f, mkWorld (home_is w) (files w) fs)
  end.

Definition get_files : IO (gmap string file) := fun w => Done (files w, w).
Definition modify_files (f : gmap string file → gmap string file) : IO unit :=
  fun w => Done (tt, set_files f w).
Definition get_fuel : IO nat := fun w => Done (S (length (faults w)), w).

(** A call that either fails with no effect or runs [m]. *)
Definition syscall {A} (m : IO (goerr + A)) : IO (goerr + A) :=
  f ← next_fault;
  match f with
  | FFail _ e => mret (inl (Errno e))
  | FOk => m
  end.

(** [if err != nil { return err }] *)
Definition err_bind {A B} (m : IO (goerr + A)) (k : A → IO (goerr + B)) : IO (goerr + B) :=
  r ← m;
  match r with
  | inl e => mret (inl e)
  | inr a => k a
  end.
Definition err_then {B} (m : IO (option goerr)) (k : IO (goerr + B)) : IO (goerr + B) :=
  err ← m;
  match err with
  | Some e => mret (inl e)
  | None => k
  end.
Notation "x ←? m ; k" := (err_bind m (fun x => k))
  (at level 20, m at level 100, k at level 200, right associativity) : go_scope.
Notation "'try' m ; k" := (err_then m k)
  (at level 20, m at level 100, k at level 200, right associativity) : go_scope.

(** ** Calls on names in the home directory *)
Definition os_remove (name : string) : IO (option goerr) :=
  r ← syscall (fs ← get_files;
    match fs !! name with
    | None => mret (inl (Errno ENOENT))
    | Some _ => modify_files (delete name);; mret (inr tt)
    end);
  mret (match r with inl e => Some e | inr _ => None end).

Definition os_rename (old new : string) : IO (option goerr) :=
  r ← syscall (fs ← get_files;
    match fs !! old with
    | None => mret (inl (Errno ENOENT))
    | Some f => modify_files (λ fs, <[ new := f ]> (delete old fs));; mret (inr tt)
    end);
  mret (match r with inl e => Some e | inr _ => None end).

(** An open file: its name and the position of the next write. *)
Record handle := mkHandle { h_name : string; h_pos : nat }.

(** [os.OpenFile] for reading and writing. *)
Definition os_open (name : string) (create trunc : bool) (mode : Z) : IO (goerr + handle) :=
  syscall (fs ← get_files;
    match fs !! name with
    | Some f =>
      if isRegular f then
        (if trunc then modify_files <[ name := mkFile [] (fmode f) ]> else mret tt);;
        mret (inr (mkHandle name 0))
      else mret (inl (Errno EISDIR))
    | None =>
      if create then
        modify_files <[ name := mkFile [] (Z.land mode ModePerm) ]>;;
        mret (inr (mkHandle name 0))
      else mret (inl (Errno ENOENT))
    end).

Definition file_content (name : string) (fs : gmap string file) : bytes :=
  match fs !! name with Some f => content f | None => [] end.

Definition write_at (pos : nat) (p b : bytes) : bytes :=
  take pos b ++ replicate (pos - length b) Byte.x00 ++ p ++ drop (pos + length p) b.

(** [File.Write]: all of [p], or a prefix and an error. *)
Definition file_write (p : bytes) (h : handle) : IO (nat * option goerr * handle) :=
  f ← next_fault;
  let '(n, err) := match f with
                   | FOk => (length p, None)
                   | FFail n e => (min n (length p), Some (Errno e))
                   end in
  modify_files (alter (λ f, mkFile (write_at (h_pos h) (take n p) (content f)) (fmode f)) (h_name h));;
  mret (n, err, mkHandle (h_name h) (h_pos h + n)).

Definition file_truncate (h : handle) : IO (option goerr) :=
  r ← syscall (modify_files (alter (λ f, mkFile [] (fmode f)) (h_name h));; mret (inr tt));
  mret (match r with inl e => Some e | inr _ => None end).

(** [os.Stat] of the home directory itself, and [os.MkdirAll]. *)
Definition os_stat_home : IO (goerr + bool) :=
  syscall (fun w => Done (match home_is w with
                          | HomeAbsent => inl (Errno ENOENT)
                          | HomeIsFile => inr false
                          | HomeDir => inr true
                          end, w)).
Definition os_mkdir_home : IO (option goerr) :=
  r ← syscall (fun w => Done (inr tt, mkWorld HomeDir (files w) (faults w)));
  mret (match r with inl e => Some e | inr _ => None end).

(** A call with no effect on the directory: [Sync], [Close], [Stat], [Seek]. *)
Definition file_call : IO (option goerr) :=
  r ← syscall (mret (inr tt));
  mret (match r with inl e => Some e | inr _ => None end).

Definition file_size (h : handle) : IO (goerr + nat) :=
  syscall (fs ← get_files; mret (inr (length (file_content (h_name h) fs)))).

Definition seek_end (h : handle) : IO (goerr + handle) :=
  syscall (fs ← get_files; mret (inr (mkHandle (h_name h) (length (file_content (h_name h) fs))))).

(** [os.Open] and reading to the end.  A decoder that meets a read error
    behaves as at the end of the data read so far, so this is a prefix. *)
Definition os_read (name : string) : IO (goerr + bytes) :=
  r ← syscall (fs ← get_files;
    match fs !! name with
    | None => mret (inl (Errno ENOENT))
    | Some f => mret (inr (if isRegular f then content f else []))
    end);
  match r with
  | inl e => mret (inl e)
  | inr b =>
    f ← next_fault;
    mret (inr (match f with FOk => b | FFail n _ => take n b end))
  end.

(** The names of the directory; errors are ignored by [filepath.Glob]. *)
Definition os_names : IO (list string) :=
  f ← next_fault;
  fs ← get_files;
  let names := (map_to_list fs).*1 in
  mret (match f with FOk => names | FFail n _ => take n names end).

(** ** util.go: writers *)
Module Util.

Definition isRetryErr (e : goerr) : bool :=
  errors_is e (Errno EINTR) || errors_is e (Errno EAGAIN).

(** [ensureWriter.Write] over any writer [w]. *)
Section ensure_writer.
Context {W : Type} (write : bytes → W → IO (nat * option goerr * W)).

Fixpoint ensureWrite (fuel : nat) (N : nat) (p : bytes) (w : W) : IO (nat * option goerr * W) :=
  match p with
  | [] => mret (N, None, w)
  | _ =>
    match fuel with
    | 0 => fun _ => OutOfFuel
    | S fuel =>
      r ← write p w;
      let '(n, err, w) := r in
      if decide (length p < n) then io_panic "slice bounds out of range" else
      let N := N + n in
      let p := drop n p in
      match err with
      | Some e => if isRetryErr e then ensureWrite fuel N p w else mret (N, Some e, w)
      | None => ensureWrite fuel N p w
      end
    end
  end.
End ensure_writer.

(** [countWriter.Write]: the bytes written so far, and the writer. *)
Definition countWrite {W} (write : bytes → W → IO (nat * option goerr * W))
    (p : bytes) (c : Z * W) : IO (nat * option goerr * (Z * W)) :=
  r ← write p c.2;
  let '(n, err, w) := r in
  mret (n, err, (wrap 64 (c.1 + wrap 64 (Z.of_nat n)), w)).

(** [syncFile] (util_other.go). *)
Fixpoint syncFile_loop (fuel : nat) : IO (option goerr) :=
  match fuel with
  | 0 => fun _ => OutOfFuel
  | S fuel =>
    err ← file_call;
    match err with
    | None => mret None
    | Some e => if isRetryErr e then syncFile_loop fuel else mret (Some e)
    end
  end.

Definition syncFile : IO (option goerr) := fuel ← get_fuel; syncFile_loop fuel.

(** [trySyncPath]: open, sync, close; errors are ignored. *)
Definition trySyncPath : IO unit :=
  err ← file_call;
  match err with
  | Some _ => mret tt
  | None => syncFile;; file_call;; mret tt
  end.

Definition GOOS : string := "linux".

Definition fileEnsurePermissions (h : handle) (wantPerm : Z) : IO (option goerr) :=
  if decide (GOOS = "windows") then mret None else
  r ← syscall (fs ← get_files;
    match fs !! h_name h with
    | Some f => mret (inr (fmode f))
    | None => mret (inl (Errno ENOENT))
    end);
  match r with
  | inl e => if isNotExist (Some e) then mret None else mret (Some e)
  | inr mode =>
    let wantPerm := Z.land wantPerm ModePerm in
    let perm := Z.land mode ModePerm in
    if decide (wantPerm = perm) then mret None else
    r ← syscall (
      modify_files (alter (λ f, mkFile (content f) (Z.lor (Z.ldiff mode ModePerm) wantPerm)) (h_name h));;
      mret (inr tt));
    mret (match r with inl e => Some e | inr _ => None end)
  end.

Definition pathEnsurePermissions (name : string) (wantPerm : Z) : IO (option goerr) :=
  r ← os_open name false false wantPerm;
  match r with
  | inl e => if isNotExist (Some e) then mret None else mret (Some e)
  | inr h =>
    err ← fileEnsurePermissions h wantPerm;
    file_call;;
    mret err
  end.

End Util.

(** ** bufio.Writer over [ensureWriter] over a file *)
Module Bufio.

Record writer := mkWriter { buf : bytes; size : nat; werr : option goerr; out : handle }.

Definition defaultBufSize : nat := 4096.
Definition NewWriterSize (h : handle) (sz : nat) : writer :=
  mkWriter [] (if decide (sz = 0) then defaultBufSize else sz) None h.

Definition available (b : writer) : nat := size b - length (buf b).

(** The write of the underlying [ensureWriter]. *)
Definition raw_write (p : bytes) (h : handle) : IO (nat * option goerr * handle) :=
  fuel ← get_fuel; Util.ensureWrite file_write fuel 0 p h.

Definition Flush (b : writer) : IO (option goerr * writer) :=
  match werr b with
  | Some e => mret (Some e, b)
  | None =>
    if decide (buf b = []) then mret (None, b) else
    r ← raw_write (buf b) (out b);
    let '(n, err, h) := r in
    let err := if decide (n < length (buf b) ∧ err = None)
               then Some (errText "short write") else err in
    match err with
    | Some e => mret (Some e, mkWriter (drop n (buf b)) (size b) (Some e) h)
    | None => mret (None, mkWriter [] (size b) None h)
    end
  end.

(** The loop of [Write]: a first round fills and flushes the buffer, a second
    writes the rest past it, and a third ends the loop. *)
Fixpoint write_loop (fuel : nat) (nn : nat) (p : bytes) (b : writer)
    : IO (nat * option goerr * writer) :=
  if decide (available b < length p ∧ werr b = None) then
    match fuel with
    | 0 => fun _ => OutOfFuel
    | S fuel =>
      if decide (buf b = []) then
        r ← raw_write p (out b);
        let '(n, err, h) := r in
        write_loop fuel (nn + n) (drop n p) (mkWriter [] (size b) err h)
      else
        let n := available b in
        r ← Flush (mkWriter (buf b ++ take n p) (size b) None (out b));
        write_loop fuel (nn + n) (drop n p) r.2
    end
  else
    match werr b with
    | Some e => mret (nn, Some e, b)
    | None => mret (nn + length p, None, mkWriter (buf b ++ p) (size b) None (out b))
    end.

Definition Write (p : bytes) (b : writer) : IO (nat * option goerr * writer) := write_loop 2 0 p b.

Definition WriteByte (c : Byte.byte) (b : writer) : IO (option goerr * writer) :=
  match werr b with
  | Some e => mret (Some e, b)
  | None =>
    r ← (if decide (available b = 0) then Flush b else mret (None, b));
    match r with
    | (Some e, b) => mret (Some e, b)
    | (None, b) => mret (None, mkWriter (buf b ++ [c]) (size b) None (out b))
    end
  end.

End Bufio.
