(* ===== verification/FsFacts.v ===== *)
(** * Specifications of file-system computations under faults

    [spec q m fs Q]: started with the files [fs] and any fault script (the empty
    one when [q] is true), [m] terminates without a panic in a result and files
    that satisfy [Q]; it does not change the home directory itself and makes no
    file that is not regular.  One rule per system call, the rules of the monad, and
    the specifications of util.go and of buffered writing. *)

From stdpp Require Import base gmap strings list fin_maps.
From Stdlib Require Import ZArith Lia.
From S2P Require Import Prelude GoValue Fs.

Definition quiet (q : bool) (w : world) : Prop := q = true → faults w = [].

(** Every file is a regular one. *)
Definition all_regular (fs : gmap string file) : Prop := ∀ n f, fs !! n = Some f → isRegular f = true.

Definition spec {A} (q : bool) (m : IO A) (fs : gmap string file)
    (Q : A → gmap string file → Prop) : Prop :=
  ∀ w, files w = fs → quiet q w →
  ∃ a w', m w = Done (a, w') ∧ Q a (files w') ∧ home_is w' = home_is w ∧
    length (faults w') ≤ length (faults w) ∧ (all_regular (files w) → all_regular (files w')).

Section rules.
Context {A B : Type}.
Implicit Types (m : IO A) (f : A → IO B) (Q : A → gmap string file → Prop).

Lemma spec_ret q (a : A) fs Q : Q a fs → spec q (mret a) fs Q.
Proof. intros H w <- _. exists a, w. auto. Qed.

Lemma spec_mono q m fs Q Q' :
  spec q m fs Q → (∀ a fs', Q a fs' → Q' a fs') → spec q m fs Q'.
Proof. intros H HQ w Hw Hq. destruct (H w Hw Hq) as (a & w' & ? & ? & ?). eauto 10. Qed.

Lemma spec_bind q m f fs Q R :
  spec q m fs Q → (∀ a fs', Q a fs' → spec q (f a) fs' R) → spec q (m ≫= f) fs R.
Proof.
  intros Hm Hf w Hw Hq. destruct (Hm w Hw Hq) as (a & w1 & Em & HQ & Hh & Hl & Hrg).
  assert (quiet q w1) as Hq1.
  { intros Hqt. specialize (Hq Hqt). rewrite Hq in Hl. by destruct (faults w1); [|simpl in Hl; lia]. }
  destruct (Hf a _ HQ w1 eq_refl Hq1) as (b & w2 & Ef & HR & Hh2 & Hl2 & Hrg2).
  exists b, w2. split_and!; [|done|congruence|lia|auto].
  unfold mbind, io_bind. by rewrite Em.
Qed.

Lemma spec_regular q m fs Q : all_regular fs → spec q m fs Q →
  spec q m fs (λ a fs', Q a fs' ∧ all_regular fs').
Proof.
  intros Hr H w Hw Hq. destruct (H w Hw Hq) as (a & w' & ? & ? & ? & ? & Hr'). subst fs.
  exists a, w'. auto 10.
Qed.

Lemma spec_quiet m fs Q : spec false m fs Q → spec true m fs Q.
Proof. intros H w Hw _. by apply H. Qed.
End rules.

(** Applies the rule for the first computation of a sequence. *)
Ltac spec_step H := eapply spec_bind; [eapply H|]; cbn beta.

(** ** System calls *)
Lemma spec_next_fault q fs :
  spec q next_fault fs (λ f fs', fs' = fs ∧ (q = true → f = FOk)).
Proof.
  intros w <- Hq. unfold next_fault. destruct (faults w) as [|f l] eqn:E.
  - exists FOk, w. rewrite E. auto.
  - exists f, (mkWorld (home_is w) (files w) l). split_and!; simpl; auto; try lia.
    intros Hqt. specialize (Hq Hqt). congruence.
Qed.

Lemma spec_get_files q fs : spec q get_files fs (λ r fs', r = fs ∧ fs' = fs).
Proof. intros w <- _. eexists _, _. split_and!; [done|done|done..]. Qed.

Lemma spec_modify_files q g fs : (all_regular fs → all_regular (g fs)) →
  spec q (modify_files g) fs (λ _ fs', fs' = g fs).
Proof. intros Hg w <- _. eexists _, _. split_and!; [done|done|done|done|exact Hg]. Qed.

Lemma regular_insert n f fs : isRegular f = true → all_regular fs → all_regular (<[ n := f ]> fs).
Proof. intros Hf Hfs m g. rewrite lookup_insert_Some. intros [[_ <-]|[_ ?]]; eauto. Qed.
Lemma regular_delete n fs : all_regular fs → all_regular (delete n fs).
Proof. intros Hfs m g. rewrite lookup_delete_Some. intros [_ ?]; eauto. Qed.
Lemma regular_alter (g : file → file) n fs : (∀ f, isRegular (g f) = isRegular f) →
  all_regular fs → all_regular (alter g n fs).
Proof.
  intros Hg Hfs m f. rewrite lookup_alter_Some. intros [(_ & f0 & Hf & ->)|[_ ?]]; [rewrite Hg|]; eauto.
Qed.
#[local] Hint Resolve regular_insert regular_delete regular_alter : core.

Lemma created_isRegular mode : isRegular (mkFile [] (Z.land mode ModePerm)) = true.
Proof.
  unfold isRegular. apply bool_decide_eq_true_2. simpl. rewrite <-Z.land_assoc.
  change (Z.land ModePerm ModeType) with 0%Z. apply Z.land_0_r.
Qed.

Lemma spec_syscall {A} q (m : IO (goerr + A)) fs Q :
  spec q m fs Q →
  spec q (syscall m) fs (λ r fs', Q r fs' ∨ (q = false ∧ fs' = fs ∧ ∃ e, r = inl (Errno e))).
Proof.
  intros Hm. unfold syscall. spec_step spec_next_fault. intros f ? [-> Hf].
  destruct f as [|n e].
  - eapply spec_mono; [exact Hm|]. auto.
  - apply spec_ret. right. destruct q; [by specialize (Hf eq_refl)|]. eauto.
Qed.

(** What a failing call leaves: nothing changed, and no failure when quiet. *)
Definition failed (q : bool) (fs fs' : gmap string file) (err : option goerr) : Prop :=
  q = false ∧ fs' = fs ∧ ∃ e, err = Some (Errno e).

Lemma spec_file_call q fs : spec q file_call fs (λ err fs', fs' = fs ∧ (err = None ∨ failed q fs fs' err)).
Proof.
  unfold file_call. spec_step (spec_syscall (A := unit)).
  { apply spec_ret. by instantiate (1 := λ r fs', r = inr tt ∧ fs' = fs). }
  intros r fs' Hr. apply spec_ret. unfold failed. naive_solver.
Qed.

Lemma spec_os_remove q n fs :
  spec q (os_remove n) fs (λ err fs',
    (err = None ∧ is_Some (fs !! n) ∧ fs' = delete n fs) ∨
    (err = Some (Errno ENOENT) ∧ fs !! n = None ∧ fs' = fs) ∨ failed q fs fs' err).
Proof.
  unfold os_remove. spec_step (spec_syscall (A := unit)).
  { spec_step spec_get_files. intros ? ? [-> ->].
    instantiate (1 := λ r fs', (r = inr tt ∧ is_Some (fs !! n) ∧ fs' = delete n fs) ∨
      (r = inl (Errno ENOENT) ∧ fs !! n = None ∧ fs' = fs)).
    destruct (fs !! n) eqn:E; [|apply spec_ret; auto].
    spec_step spec_modify_files; [eauto|]. intros _ ? ->. apply spec_ret. eauto. }
  intros r fs' Hr. apply spec_ret. unfold failed. naive_solver.
Qed.

Lemma spec_os_rename q old new fs :
  spec q (os_rename old new) fs (λ err fs',
    (err = None ∧ ∃ f, fs !! old = Some f ∧ fs' = <[ new := f ]> (delete old fs)) ∨
    (err = Some (Errno ENOENT) ∧ fs !! old = None ∧ fs' = fs) ∨ failed q fs fs' err).
Proof.
  unfold os_rename. spec_step (spec_syscall (A := unit)).
  { spec_step spec_get_files. intros ? ? [-> ->].
    instantiate (1 := λ r fs', (r = inr tt ∧ ∃ f, fs !! old = Some f ∧ fs' = <[ new := f ]> (delete old fs)) ∨
      (r = inl (Errno ENOENT) ∧ fs !! old = None ∧ fs' = fs)).
    destruct (fs !! old) eqn:E; [|apply spec_ret; auto].
    spec_step spec_modify_files; [eauto|]. intros _ ? ->. apply spec_ret. eauto. }
  intros r fs' Hr. apply spec_ret. unfold failed. naive_solver.
Qed.

(** The file an open call finds or makes. *)
Definition opened (create trunc : bool) (mode : Z) (o : option file) : option file :=
  match o with
  | Some f => if isRegular f then Some (if trunc then mkFile [] (fmode f) else f) else None
  | None => if create then Some (mkFile [] (Z.land mode ModePerm)) else None
  end.

Lemma spec_os_open q n create trunc mode fs :
  spec q (os_open n create trunc mode) fs (λ r fs',
    (∃ f, opened create trunc mode (fs !! n) = Some f ∧ r = inr (mkHandle n 0) ∧ fs' = <[ n := f ]> fs) ∨
    (opened create trunc mode (fs !! n) = None ∧ fs' = fs ∧
       r = inl (Errno (if fs !! n is Some _ then EISDIR else ENOENT))) ∨
    (∃ e, r = inl (Errno e) ∧ failed q fs fs' (Some (Errno e)))).
Proof.
  unfold os_open. eapply spec_mono.
  { apply spec_syscall. spec_step spec_get_files. intros ? ? [-> ->].
    instantiate (1 := λ r fs',
      (∃ f, opened create trunc mode (fs !! n) = Some f ∧ r = inr (mkHandle n 0) ∧ fs' = <[ n := f ]> fs) ∨
      (opened create trunc mode (fs !! n) = None ∧ fs' = fs ∧
         r = inl (Errno (if fs !! n is Some _ then EISDIR else ENOENT)))).
    destruct (fs !! n) as [f|] eqn:E; simpl.
    - destruct (isRegular f); [|apply spec_ret; auto].
      destruct trunc.
      + spec_step spec_modify_files; [intros Hr; apply regular_insert; [by apply (Hr n f)|done]|]. intros _ ? ->. apply spec_ret. eauto.
      + eapply (spec_bind _ _ _ _ (λ _ fs', fs' = fs)); [by apply spec_ret|].
        intros _ ? ->. apply spec_ret. left. eexists. split_and!; [done|done|].
        by rewrite insert_id.
    - destruct create; [|apply spec_ret; auto].
      spec_step spec_modify_files; [apply regular_insert, created_isRegular|]. intros _ ? ->. apply spec_ret. eauto. }
  unfold failed. cbn beta. naive_solver.
Qed.

Definition appended (n : string) (p : bytes) (fs fs' : gmap string file) : Prop :=
  ∃ f, fs !! n = Some f ∧ fs' = <[ n := mkFile (content f ++ p) (fmode f) ]> fs.

Lemma write_at_end b p : write_at (length b) p b = b ++ p.
Proof.
  unfold write_at. rewrite firstn_all, Nat.sub_diag, drop_ge by lia. simpl. by rewrite app_nil_r.
Qed.

Lemma alter_known (g : file → file) (n : string) (fs : gmap string file) f : fs !! n = Some f → alter g n fs = <[ n := g f ]> fs.
Proof.
  intros Hf. apply map_eq. intros k. destruct (decide (k = n)) as [->|].
  - by rewrite lookup_alter_eq, Hf, lookup_insert_eq.
  - by rewrite lookup_alter_ne, lookup_insert_ne.
Qed.

(** Writing at the end of a file. *)
Lemma spec_file_write q p h fs f :
  fs !! h_name h = Some f → h_pos h = length (content f) →
  spec q (file_write p h) fs (λ '(n, err, h') fs',
    n ≤ length p ∧ h' = mkHandle (h_name h) (h_pos h + n) ∧
    fs' = <[ h_name h := mkFile (content f ++ take n p) (fmode f) ]> fs ∧
    ((err = None ∧ n = length p) ∨ (q = false ∧ ∃ e, err = Some (Errno e)))).
Proof.
  intros Hf Hpos. unfold file_write. spec_step spec_next_fault. intros flt ? [-> Hflt].
  destruct (match flt with FOk => (length p, None) | FFail n e => (n `min` length p, Some (Errno e)) end)
    as [n err] eqn:E.
  spec_step spec_modify_files; [eauto|]. intros _ ? ->. apply spec_ret. split_and!.
  - destruct flt; simplify_eq; lia.
  - done.
  - rewrite (alter_known _ _ _ f) by done. by rewrite Hpos, write_at_end.
  - destruct flt as [|m e]; simplify_eq; [auto|].
    right. destruct q; [by specialize (Hflt eq_refl)|]. eauto.
Qed.

Lemma spec_file_truncate q h fs f : fs !! h_name h = Some f →
  spec q (file_truncate h) fs (λ err fs',
    (err = None ∧ fs' = <[ h_name h := mkFile [] (fmode f) ]> fs) ∨ failed q fs fs' err).
Proof.
  intros Hf. unfold file_truncate. spec_step (spec_syscall (A := unit)).
  { spec_step spec_modify_files; [eauto|]. intros _ ? ->. apply spec_ret.
    instantiate (1 := λ r fs', r = inr tt ∧ fs' = <[ h_name h := mkFile [] (fmode f) ]> fs).
    split; [done|]. by rewrite (alter_known _ _ _ f). }
  intros r fs' Hr. apply spec_ret. unfold failed. naive_solver.
Qed.

Lemma spec_file_size q h fs :
  spec q (file_size h) fs (λ r fs', fs' = fs ∧
    (r = inr (length (file_content (h_name h) fs)) ∨ (q = false ∧ ∃ e, r = inl (Errno e)))).
Proof.
  unfold file_size. eapply spec_mono.
  { apply spec_syscall. spec_step spec_get_files. intros ? ? [-> ->]. apply spec_ret.
    by instantiate (1 := λ r fs', r = inr (length (file_content (h_name h) fs)) ∧ fs' = fs). }
  naive_solver.
Qed.

Lemma spec_seek_end q h fs :
  spec q (seek_end h) fs (λ r fs', fs' = fs ∧
    (r = inr (mkHandle (h_name h) (length (file_content (h_name h) fs))) ∨
     (q = false ∧ ∃ e, r = inl (Errno e)))).
Proof.
  unfold seek_end. eapply spec_mono.
  { apply spec_syscall. spec_step spec_get_files. intros ? ? [-> ->]. apply spec_ret.
    by instantiate (1 := λ r fs', r = inr (mkHandle (h_name h) (length (file_content (h_name h) fs))) ∧ fs' = fs). }
  naive_solver.
Qed.

Lemma spec_os_read q n fs :
  spec q (os_read n) fs (λ r fs', fs' = fs ∧
    ((∃ f b, fs !! n = Some f ∧ r = inr b ∧ b `prefix_of` (if isRegular f then content f else []) ∧
       (q = true → b = if isRegular f then content f else [])) ∨
     (fs !! n = None ∧ r = inl (Errno ENOENT)) ∨
     (q = false ∧ ∃ e, r = inl (Errno e)))).
Proof.
  unfold os_read. spec_step (spec_syscall (A := bytes)).
  { spec_step spec_get_files. intros ? ? [-> ->].
    instantiate (1 := λ r fs', fs' = fs ∧
      ((∃ f, fs !! n = Some f ∧ r = inr (if isRegular f then content f else [])) ∨
       (fs !! n = None ∧ r = inl (Errno ENOENT)))).
    destruct (fs !! n) eqn:E; apply spec_ret; eauto 10. }
  intros r fs' Hr. destruct r as [e|b]; [apply spec_ret; naive_solver|].
  spec_step spec_next_fault. intros flt ? [-> Hflt]. apply spec_ret.
  destruct Hr as [[-> [(f & Hf & [= ->])|[_ ?]]]|(_ & _ & ? & ?)]; [|done|done].
  split; [done|]. left. exists f. eexists. split_and!; [done|done| |].
  - destruct flt; [done|]. apply prefix_take.
  - intros Hq. by rewrite (Hflt Hq).
Qed.

Lemma spec_os_names q fs :
  spec q os_names fs (λ l fs', fs' = fs ∧ l `prefix_of` (map_to_list fs).*1 ∧
    (q = true → l = (map_to_list fs).*1)).
Proof.
  unfold os_names. spec_step spec_next_fault. intros flt ? [-> Hflt].
  spec_step spec_get_files. intros ? ? [-> ->]. apply spec_ret. split_and!; [done| |].
  - destruct flt; [done|]. apply prefix_take.
  - intros Hq. by rewrite (Hflt Hq).
Qed.

(** ** util.go

    The retry loops: a retry takes a fault off the script, so one more round
    than there are faults is enough. *)
Module UtilFacts.
Import Util.

Lemma syncFile_loop_spec q fuel w : quiet q w → length (faults w) < fuel →
  ∃ err w', syncFile_loop fuel w = Done (err, w') ∧ files w' = files w ∧ home_is w' = home_is w ∧
    length (faults w') ≤ length (faults w) ∧
    (err = None ∨ q = false ∧ ∃ e, err = Some (Errno e) ∧ isRetryErr (Errno e) = false).
Proof.
  revert w. induction fuel as [|fuel IH]; intros w Hq Hf; [lia|].
  destruct w as [h fs l]. cbn [faults] in *. destruct l as [|flt l].
  { exists None, (mkWorld h fs []). split_and!; auto. }
  assert (q = false) as -> by (destruct q; [by specialize (Hq eq_refl)|done]).
  destruct flt as [|n e].
  { exists None, (mkWorld h fs l). split_and!; simpl; auto. }
  change (syncFile_loop (S fuel) (mkWorld h fs (FFail n e :: l))) with
    ((if isRetryErr (Errno e) then syncFile_loop fuel else mret (Some (Errno e))) (mkWorld h fs l)).
  destruct (isRetryErr (Errno e)) eqn:He.
  - destruct (IH (mkWorld h fs l)) as (err & w' & -> & ? & ? & ? & ?); [done|simpl in *; lia|].
    exists err, w'. simpl in *. split_and!; auto; lia.
  - exists (Some (Errno e)), (mkWorld h fs l). split_and!; simpl; auto. right. eauto.
Qed.

Lemma spec_syncFile q fs :
  spec q syncFile fs (λ err fs', fs' = fs ∧ (err = None ∨ failed q fs fs' err)).
Proof.
  intros w <- Hq. destruct (syncFile_loop_spec q (S (length (faults w))) w Hq)
    as (err & w' & E & Hfs & ? & ? & Herr); [lia|].
  exists err, w'. rewrite Hfs. split_and!; auto. unfold failed. naive_solver.
Qed.

Lemma spec_trySyncPath q fs : spec q trySyncPath fs (λ _ fs', fs' = fs).
Proof.
  unfold trySyncPath. spec_step spec_file_call. intros err ? [-> _].
  destruct err; [by apply spec_ret|].
  spec_step spec_syncFile. intros _ ? [-> _]. spec_step spec_file_call. intros _ ? [-> _].
  by apply spec_ret.
Qed.

(** One step of the loop of [ensureWrite] over a file. *)
Lemma ensureWrite_step fuel N p h w : p ≠ [] →
  ensureWrite file_write (S fuel) N p h w =
  match file_write p h w with
  | Done (n, err, h', w') =>
    if decide (length p < n) then Panic "slice bounds out of range" else
    match err with
    | Some e => if isRetryErr e then ensureWrite file_write fuel (N + n) (drop n p) h' w'
                else Done (N + n, Some e, h', w')
    | None => ensureWrite file_write fuel (N + n) (drop n p) h' w'
    end
  | Panic s => Panic s
  | OutOfFuel => OutOfFuel
  end.
Proof.
  intros Hp. destruct p as [|c p]; [done|]. cbn -[file_write decide].
  unfold mbind, io_bind. destruct (file_write _ _ _) as [[[[n err] h'] w']| |]; [|done..].
  destruct (decide _); [done|]. destruct err as [e|]; [|done]. by destruct (isRetryErr e).
Qed.

(** A failed write took a fault off the script. *)
Lemma file_write_fault p h w n e h' w' :
  file_write p h w = Done (n, Some e, h', w') → length (faults w') < length (faults w).
Proof.
  destruct w as [hm fs [|[|m e'] l]]; cbv -[length take min write_at alter lt];
    intros H; simplify_eq; simpl; lia.
Qed.

Definition all_or_prefix (q : bool) (p : bytes) (n : nat) (err : option goerr) : Prop :=
  (err = None ∧ n = length p) ∨
  (q = false ∧ n ≤ length p ∧ ∃ e, err = Some (Errno e) ∧ isRetryErr (Errno e) = false).

Lemma ensureWrite_file q fuel N p h w f :
  quiet q w → length (faults w) < fuel →
  files w !! h_name h = Some f → h_pos h = length (content f) →
  ∃ n err w', ensureWrite file_write fuel N p h w = Done (N + n, err, mkHandle (h_name h) (h_pos h + n), w') ∧
    all_or_prefix q p n err ∧
    files w' = <[ h_name h := mkFile (content f ++ take n p) (fmode f) ]> (files w) ∧
    home_is w' = home_is w ∧ length (faults w') ≤ length (faults w).
Proof.
  revert N p h w f. induction fuel as [|fuel IH]; intros N p h w f Hq Hl Hf Hpos; [lia|].
  destruct p as [|c p'] eqn:Hp.
  { exists 0, None, w. rewrite !Nat.add_0_r, app_nil_r. split_and!; try done.
    - by destruct h.
    - by left.
    - symmetry. apply insert_id. rewrite Hf. by destruct f. }
  rewrite <-Hp, ensureWrite_step by (by subst).
  destruct (spec_file_write q p h _ f Hf Hpos w eq_refl Hq)
    as ([[n err] h'] & w' & E & (Hn & -> & Hfs & Herr) & Hh & Hlen & _).
  rewrite E. rewrite decide_False by lia.
  assert (quiet q w') as Hq'.
  { intros Hqt. specialize (Hq Hqt). rewrite Hq in Hlen. by destruct (faults w'); [|simpl in Hlen; lia]. }
  destruct Herr as [[-> ->]|(-> & e & ->)].
  - rewrite drop_ge by lia. exists (length p), None, w'.
    split_and!; [by destruct fuel|by left|done..].
  - destruct (isRetryErr (Errno e)) eqn:He.
    + apply file_write_fault in E.
      destruct (IH (N + n) (drop n p) (mkHandle (h_name h) (h_pos h + n)) w'
                   (mkFile (content f ++ take n p) (fmode f))) as (n2 & err & w2 & -> & Hall & Hfs2 & Hh2 & Hl2).
      { done. } { lia. } { by rewrite Hfs, lookup_insert_eq. }
      { simpl. rewrite length_app, length_take. lia. }
      exists (n + n2), err, w2. simpl. rewrite !Nat.add_assoc. split_and!; [done| |..].
      * destruct Hall as [[-> ->]|(_ & Hn2 & ?)]; [left|right]; rewrite ?length_drop in *; split_and!; auto; lia.
      * rewrite Hfs2, Hfs. simpl. rewrite insert_insert_eq. f_equal. f_equal.
        rewrite <-app_assoc. f_equal. by rewrite take_take_drop.
      * congruence.
      * lia.
    + exists n, (Some (Errno e)), w'. split_and!; try done. right. eauto.
Qed.

Lemma spec_ensureWrite q p h fs f :
  fs !! h_name h = Some f → h_pos h = length (content f) →
  spec q (Bufio.raw_write p h) fs (λ '(n, err, h') fs',
    all_or_prefix q p n err ∧ h' = mkHandle (h_name h) (h_pos h + n) ∧
    fs' = <[ h_name h := mkFile (content f ++ take n p) (fmode f) ]> fs).
Proof.
  intros Hf Hpos w <- Hq.
  destruct (ensureWrite_file q (S (length (faults w))) 0 p h w f) as (n & err & w' & E & ? & Hfs & ? & ?); auto.
  exists (n, err, mkHandle (h_name h) (h_pos h + n)), w'. split_and!; auto.
  intros Hr. rewrite Hfs. apply regular_insert; [by apply (Hr (h_name h) f)|done].
Qed.

(** The mode after [Chmod]: the wanted permission bits, all other bits kept. *)
Definition chmod (want : Z) (f : file) : file :=
  mkFile (content f) (Z.lor (Z.ldiff (fmode f) ModePerm) (Z.land want ModePerm)).

Lemma chmod_perm_bits want f : Z.land (fmode (chmod want f)) ModePerm = Z.land want ModePerm.
Proof.
  apply Z.bits_inj'. intros n _. simpl.
  rewrite !Z.land_spec, Z.lor_spec, Z.ldiff_spec, Z.land_spec.
  destruct (Z.testbit ModePerm n), (Z.testbit (fmode f) n), (Z.testbit want n); done.
Qed.

Lemma chmod_other_bits want f : Z.ldiff (fmode (chmod want f)) ModePerm = Z.ldiff (fmode f) ModePerm.
Proof.
  apply Z.bits_inj'. intros n _. simpl.
  rewrite !Z.ldiff_spec, Z.lor_spec, Z.ldiff_spec, Z.land_spec.
  destruct (Z.testbit ModePerm n), (Z.testbit (fmode f) n), (Z.testbit want n); done.
Qed.

Lemma chmod_id want f : Z.land want ModePerm = Z.land (fmode f) ModePerm → chmod want f = f.
Proof.
  intros H. destruct f as [c m]. unfold chmod. simpl in *. f_equal. rewrite H.
  apply Z.bits_inj'. intros n _.
  rewrite Z.lor_spec, Z.ldiff_spec, Z.land_spec. destruct (Z.testbit ModePerm n), (Z.testbit m n); done.
Qed.

Lemma chmod_isRegular want f : isRegular (chmod want f) = isRegular f.
Proof.
  unfold isRegular. apply bool_decide_ext.
  replace (Z.land (fmode (chmod want f)) ModeType) with (Z.land (Z.ldiff (fmode (chmod want f)) ModePerm) ModeType).
  2:{ change ModeType with (Z.ldiff ModeType ModePerm) at 2. apply Z.bits_inj'. intros n _.
      rewrite !Z.land_spec, !Z.ldiff_spec, <-andb_assoc, (andb_comm (negb _)). 
      by rewrite <-Z.ldiff_spec. }
  rewrite chmod_other_bits.
  replace (Z.land (fmode f) ModeType) with (Z.land (Z.ldiff (fmode f) ModePerm) ModeType); [done|].
  change ModeType with (Z.ldiff ModeType ModePerm) at 2. apply Z.bits_inj'. intros n _.
  rewrite !Z.land_spec, !Z.ldiff_spec, <-andb_assoc, (andb_comm (negb _)).
  by rewrite <-Z.ldiff_spec.
Qed.

Lemma spec_fileEnsurePermissions q h want fs f : fs !! h_name h = Some f →
  spec q (fileEnsurePermissions h want) fs (λ err fs',
    (err = None ∧ fs' = <[ h_name h := chmod want f ]> fs) ∨ (q = false ∧ fs' = fs)).
Proof.
  intros Hf. unfold fileEnsurePermissions. rewrite decide_False by done.
  spec_step (spec_syscall (A := Z)).
  { spec_step spec_get_files. intros ? ? [-> ->]. rewrite Hf. apply spec_ret.
    by instantiate (1 := λ r fs', r = inr (fmode f) ∧ fs' = fs). }
  intros r fs' [[-> ->]|(-> & -> & e & ->)].
  2:{ destruct (isNotExist _); apply spec_ret; auto. }
  cbn zeta. destruct (decide _) as [He|He].
  { apply spec_ret. left. split; [done|]. rewrite chmod_id by done. by rewrite insert_id. }
  spec_step (spec_syscall (A := unit)).
  { spec_step spec_modify_files.
    { intros Hr. rewrite (alter_known _ _ _ f) by done. apply regular_insert; [|done].
      rewrite <-(Hr (h_name h) f) by done. exact (chmod_isRegular want f). }
    intros _ ? ->. apply spec_ret.
    instantiate (1 := λ r fs', r = inr tt ∧ fs' = <[ h_name h := chmod want f ]> fs).
    split; [done|]. by rewrite (alter_known _ _ _ f). }
  intros r fs' Hr. apply spec_ret. naive_solver.
Qed.

Lemma spec_pathEnsurePermissions q n want fs :
  spec q (pathEnsurePermissions n want) fs (λ err fs',
    (fs !! n = None ∧ err = None ∧ fs' = fs) ∨
    (∃ f, fs !! n = Some f ∧ isRegular f = true ∧ err = None ∧ fs' = <[ n := chmod want f ]> fs) ∨
    (∃ f, fs !! n = Some f ∧ isRegular f = false ∧ err = Some (Errno EISDIR) ∧ fs' = fs) ∨
    (q = false ∧ fs' = fs)).
Proof.
  unfold pathEnsurePermissions. spec_step spec_os_open. intros r fs' Hr.
  destruct Hr as [(f & Hf & -> & ->)|[(Hf & -> & ->)|(e & -> & -> & -> & _)]].
  - destruct (fs !! n) as [f0|] eqn:E; [|done]. simpl in Hf.
    destruct (isRegular f0) eqn:Hreg; [|done]. injection Hf as ->. rewrite insert_id by done.
    spec_step spec_fileEnsurePermissions; [done|]. intros err fs' Herr.
    spec_step spec_file_call. intros _ ? [-> _]. apply spec_ret. naive_solver.
  - destruct (fs !! n) as [f0|] eqn:E; simpl in Hf.
    + destruct (isRegular f0) eqn:Hreg; [done|]. apply spec_ret. right. right. left. eauto.
    + apply spec_ret. auto.
  - destruct (isNotExist _); apply spec_ret; auto 10.
Qed.

End UtilFacts.

(** ** Buffered writing *)
Module BufioFacts.
Import Bufio UtilFacts.

(** The state of a writer that has been given [data] since file [n] had the
    content [pre]: what is in the file and the buffer, or, after an error, a
    prefix of it in the file.  [fs0] is the directory without that file. *)
Definition writing (fs0 : gmap string file) (n : string) (md : Z) (pre data : bytes)
    (ok : bool) (fs : gmap string file) (b : writer) : Prop :=
  ∃ p, fs = <[ n := mkFile (pre ++ p) md ]> fs0 ∧ out b = mkHandle n (length (pre ++ p)) ∧
    0 < size b ∧ length (buf b) ≤ size b ∧
    if ok then werr b = None ∧ p ++ buf b = data
    else is_Some (werr b) ∧ p `prefix_of` data.

Lemma writing_failed_app fs0 n md pre data p fs b :
  writing fs0 n md pre data false fs b → writing fs0 n md pre (data ++ p) false fs b.
Proof.
  intros (p' & ? & ? & ? & ? & ? & ?). exists p'. split_and!; auto. by apply prefix_app_r.
Qed.

Lemma writing_new fs n md c sz : fs !! n = Some (mkFile c md) →
  writing fs n md c [] true fs (NewWriterSize (mkHandle n (length c)) sz).
Proof.
  intros H. exists []. rewrite app_nil_r, insert_id by done. unfold NewWriterSize, defaultBufSize. simpl.
  split_and!; try done; case_decide; lia.
Qed.

Lemma writing_file fs0 n md pre data ok fs b : writing fs0 n md pre data ok fs b →
  ∃ p, p `prefix_of` data ∧ fs = <[ n := mkFile (pre ++ p) md ]> fs0 ∧
    (ok = true → buf b = [] → p = data).
Proof.
  intros (p & Hfs & _ & _ & _ & H). exists p. destruct ok; destruct H as [_ H]; [|done].
  subst data. split_and!; [by apply prefix_app_r|done|]. intros _ ->. by rewrite app_nil_r.
Qed.

Definition writes_ok {E} (q ok : bool) (err : option E) : Prop :=
  (ok = true ↔ err = None) ∧ (q = true → ok = true).

Lemma writes_ok_None {E} q : writes_ok q true (@None E).
Proof. done. Qed.
Lemma writes_ok_Some {E} (e : E) : writes_ok false false (Some e).
Proof. done. Qed.
#[local] Hint Resolve writes_ok_None writes_ok_Some : core.
Lemma writes_ok_None_inv {E} q ok : writes_ok q ok (@None E) → ok = true.
Proof. intros [[_ H] _]. auto. Qed.
Lemma writes_ok_Some_inv {E} q ok (e : E) : writes_ok q ok (Some e) → ok = false ∧ q = false.
Proof. intros [[H _] Hq]. destruct ok; [by specialize (H eq_refl)|]. by destruct q; [specialize (Hq eq_refl)|]. Qed.

(** Writing [p] past an empty buffer. *)
Lemma spec_raw_write q fs0 n md pre data p fs b :
  writing fs0 n md pre data true fs b → buf b = [] →
  spec q (raw_write p (out b)) fs (λ '(k, err, h) fs', ∃ ok, writes_ok q ok err ∧ k ≤ length p ∧
    (ok = true → k = length p) ∧
    writing fs0 n md pre (data ++ p) ok fs' (mkWriter [] (size b) err h)).
Proof.
  intros (c & -> & Hout & Hsz & Hlen & Hw & Hc) Hb. rewrite Hb, app_nil_r in Hc. subst c.
  eapply spec_mono.
  { apply (spec_ensureWrite q p (out b) _ (mkFile (pre ++ data) md)).
    - rewrite Hout. apply lookup_insert_eq.
    - by rewrite Hout. }
  intros [[k err] h'] fs' (Hall & -> & ->). rewrite Hout. simpl. rewrite insert_insert_eq.
  destruct Hall as [[-> ->]|(-> & Hk & e & -> & _)].
  - exists true. split_and!; auto. exists (data ++ p). simpl.
    rewrite firstn_all, app_nil_r, (app_assoc pre), (length_app (pre ++ data)). split_and!; auto; lia.
  - exists false. split_and!; [done|done|done|]. exists (data ++ take k p). simpl.
    rewrite (app_assoc pre), (length_app (pre ++ data)), length_take_le by done.
    split_and!; eauto using prefix_app, prefix_take; lia.
Qed.

Lemma spec_Flush q fs0 n md pre data fs b : writing fs0 n md pre data true fs b →
  spec q (Flush b) fs (λ '(err, b') fs', ∃ ok, writes_ok q ok err ∧ size b' = size b ∧
    writing fs0 n md pre data ok fs' b' ∧ werr b' = err ∧ (ok = true → buf b' = [])).
Proof.
  intros (p & -> & Hout & Hsz & Hlen & Hw & Hc). unfold Flush. rewrite Hw.
  destruct (decide (buf b = [])) as [Hb|Hb].
  { apply spec_ret. exists true. split_and!; auto. exists p. split_and!; auto. }
  spec_step (spec_ensureWrite q (buf b) (out b) (<[ n := mkFile (pre ++ p) md ]> fs0) (mkFile (pre ++ p) md)).
  { rewrite Hout. apply lookup_insert_eq. } { by rewrite Hout. }
  intros [[k err] h'] fs' (Hall & -> & ->). rewrite Hout. simpl. rewrite insert_insert_eq.
  destruct Hall as [[-> ->]|(-> & Hk & e & -> & _)].
  - rewrite decide_False by (intros [? _]; lia). rewrite firstn_all. apply spec_ret.
    exists true. split_and!; auto. exists (p ++ buf b). simpl.
    rewrite app_nil_r, (app_assoc pre), (length_app (pre ++ p)). split_and!; auto; lia.
  - rewrite decide_False by (intros [_ ?]; done). apply spec_ret.
    exists false. split_and!; [done|done| |done|done]. exists (p ++ take k (buf b)). simpl.
    rewrite length_drop, (app_assoc pre), (length_app (pre ++ p)), length_take_le by done.
    subst data. split_and!; eauto using prefix_app, prefix_take; lia.
Qed.

Lemma spec_Flush_failed q fs0 n md pre data fs b : writing fs0 n md pre data false fs b →
  spec q (Flush b) fs (λ '(err, b') fs', err ≠ None ∧ b' = b ∧ fs' = fs).
Proof.
  intros (p & _ & _ & _ & _ & [e He] & _). unfold Flush. rewrite He. by apply spec_ret.
Qed.

Lemma writing_werr fs0 n md pre data ok fs b : writing fs0 n md pre data ok fs b →
  (ok = true ↔ werr b = None).
Proof. intros (p & _ & _ & _ & _ & H). destruct ok; destruct H as [H _]; [done|]. by destruct H as [? ->]. Qed.

(** The end of the loop: the rest fits, or there was an error. *)
Lemma write_loop_end fuel nn p b : (werr b = None → length p ≤ available b) →
  write_loop fuel nn p b = match werr b with
    | Some e => mret (nn, Some e, b)
    | None => mret (nn + length p, None, mkWriter (buf b ++ p) (size b) None (out b))
    end.
Proof.
  intros H. assert (Hd : ¬ (available b < length p ∧ werr b = None)).
  { intros [? He]. specialize (H He). lia. }
  destruct fuel; simpl; by rewrite decide_False.
Qed.

Lemma spec_write_fits q fuel nn fs0 n md pre data p fs b :
  writing fs0 n md pre data true fs b → length p ≤ available b →
  spec q (write_loop fuel nn p b) fs (λ '(_, err, b') fs', err = None ∧
    writing fs0 n md pre (data ++ p) true fs' b').
Proof.
  intros (c & -> & Hout & Hsz & Hlen & Hw & Hc) Hp. rewrite write_loop_end, Hw by done.
  apply spec_ret. split; [done|]. exists c. unfold available in Hp. simpl.
  rewrite (length_app (buf b)), app_assoc, Hc. split_and!; auto; lia.
Qed.

Lemma spec_write_failed q fuel nn fs0 n md pre data p fs b :
  writing fs0 n md pre data false fs b →
  spec q (write_loop fuel nn p b) fs (λ '(_, err, b') fs', err ≠ None ∧ b' = b ∧ fs' = fs).
Proof.
  intros (c & _ & _ & _ & _ & [e He] & _). rewrite write_loop_end, He by (by rewrite He).
  by apply spec_ret.
Qed.

Lemma spec_write_rest q fuel nn fs0 n md pre data p fs b :
  writing fs0 n md pre data true fs b → buf b = [] →
  spec q (write_loop (S fuel) nn p b) fs (λ '(_, err, b') fs', ∃ ok, writes_ok q ok err ∧
    writing fs0 n md pre (data ++ p) ok fs' b').
Proof.
  intros Hwr Hb. destruct (decide (available b < length p)) as [Hlt|Hge].
  2:{ eapply spec_mono; [eapply spec_write_fits; [done|lia]|].
      intros [[k err] b'] fs' [-> ?]. by exists true. }
  cbn [write_loop]. rewrite decide_True by (split; [done|]; by eapply writing_werr).
  rewrite decide_True by done.
  spec_step spec_raw_write; [done..|]. intros [[k err] h] fs' (ok & Hok & Hk & Hkl & Hw).
  destruct ok.
  - rewrite (Hkl eq_refl), drop_ge by lia.
    eapply spec_mono; [eapply spec_write_fits; [done|simpl; lia]|].
    intros [[k' err'] b'] ? [-> Hw']. exists true. by rewrite app_nil_r in Hw'.
  - eapply spec_mono; [by eapply spec_write_failed|].
    intros [[k' err'] b'] ? (? & -> & ->). exists false. split; [|done].
    split; [split; [done|by intros ?]|]. intros Hq. by apply Hok in Hq.
Qed.

(** [Writer.Write] *)
Lemma spec_Write q fs0 n md pre data ok fs p b :
  writing fs0 n md pre data ok fs b →
  spec q (Write p b) fs (λ '(_, err, b') fs', ∃ ok', (ok' = true → ok = true) ∧
    (ok' = true ↔ err = None) ∧ (q = true → ok' = ok) ∧
    writing fs0 n md pre (data ++ p) ok' fs' b').
Proof.
  intros Hwr. unfold Write. destruct ok.
  2:{ eapply spec_mono; [by eapply spec_write_failed|].
      intros [[k err] b'] ? (? & -> & ->). exists false. split_and!; try done.
      by apply writing_failed_app. }
  destruct (decide (buf b = [])) as [Hb|Hb].
  { eapply spec_mono; [by eapply spec_write_rest|].
    intros [[k err] b'] ? (ok & [? ?] & ?). exists ok. split_and!; done || naive_solver. }
  destruct (decide (available b < length p)) as [Hlt|Hge].
  2:{ eapply spec_mono; [eapply spec_write_fits; [done|lia]|].
      intros [[k err] b'] fs' [-> ?]. by exists true. }
  remember 1 as f1. cbn [write_loop].
  rewrite decide_True by (split; [done|]; by eapply writing_werr). rewrite decide_False by done.
  assert (Hfull : writing fs0 n md pre (data ++ take (available b) p) true fs
    (mkWriter (buf b ++ take (available b) p) (size b) None (out b))).
  { destruct Hwr as (c & -> & Hout & Hsz & Hlen & Hw & Hc). exists c. simpl. unfold available in *.
    rewrite (length_app (buf b)), length_take_le, app_assoc, Hc by lia. split_and!; auto; lia. }
  spec_step spec_Flush; [done|]. intros [err b'] fs' (ok & Hok & Hsz' & Hw & Herr & Hbuf). simpl.
  rewrite <-(take_drop (available b) p), app_assoc, take_drop. destruct ok.
  - subst f1. eapply spec_mono; [eapply spec_write_rest; [done|auto]|].
    intros [[k err'] b''] ? (ok & [? ?] & ?). exists ok. split_and!; done || naive_solver.
  - eapply spec_mono; [by eapply spec_write_failed|].
    intros [[k err'] b''] ? (? & -> & ->). exists false. split_and!; try done.
    + intros Hq. by apply Hok in Hq.
    + by apply writing_failed_app.
Qed.

Lemma spec_WriteByte q fs0 n md pre data c ok fs b :
  writing fs0 n md pre data ok fs b →
  spec q (WriteByte c b) fs (λ '(err, b') fs', ∃ ok', (ok' = true → ok = true) ∧
    (ok' = true ↔ err = None) ∧ (q = true → ok' = ok) ∧
    writing fs0 n md pre (data ++ [c]) ok' fs' b').
Proof.
  intros Hwr. unfold WriteByte. destruct ok.
  2:{ destruct Hwr as (p & ? & ? & ? & ? & [e He] & ?). rewrite He. apply spec_ret. exists false.
      split_and!; try done. exists p. rewrite He. split_and!; eauto using prefix_app_r. }
  rewrite (proj1 (writing_werr _ _ _ _ _ _ _ _ Hwr)) by done.
  destruct (decide (available b = 0)) as [Ha|Ha].
  - spec_step spec_Flush; [done|].
    intros [err b'] fs' (ok & Hok & Hsz & Hw & Herr & Hbuf). destruct ok.
    + rewrite (proj1 (proj1 Hok) eq_refl). apply spec_ret. exists true. split_and!; try done.
      destruct Hw as (p & -> & Hout & Hs & Hlen & Hw & Hc). specialize (Hbuf eq_refl).
      exists p. simpl. rewrite Hbuf in *. rewrite app_nil_r in Hc. subst p. simpl. split_and!; auto; lia.
    + destruct err as [e|]; [|by destruct Hok as [[_ Hok] _]; specialize (Hok eq_refl)].
      apply spec_ret. exists false. split_and!; try done.
      * intros Hq. by apply Hok in Hq.
      * by apply writing_failed_app.
  - eapply spec_bind; [by apply (spec_ret q (None, b) fs (λ r fs', r = (None, b) ∧ fs' = fs))|].
    intros ? ? [-> ->]. apply spec_ret. exists true. split_and!; try done.
    destruct Hwr as (p & -> & Hout & Hs & Hlen & Hw & Hc). exists p. unfold available in Ha. simpl.
    rewrite (length_app (buf b)), app_assoc, Hc. simpl. split_and!; auto; lia.
Qed.

End BufioFacts.
