(* ===== verification/Platforms.v ===== *)
(** * syncFile on the other platforms: util_darwin.go, util_windows.go

    The disk store is modelled with [Util.syncFile] (util_other.go).  The variants that
    are built for macOS and Windows keep the same contract. *)

From stdpp Require Import base gmap strings list fin_maps.
From Stdlib Require Import ZArith Lia.
From S2P Require Import Prelude GoValue Fs FsFacts.
Import Util.

(** ** util_darwin.go *)
Definition isIOError (err : option goerr) : bool :=
  match err with
  | None => false
  | Some e => existsb (λ target, errors_is e (Errno target)) [EIO; ENOSPC; EDQUOT; EFBIG; ECONNRESET; ENETDOWN; ENETUNREACH]
  end.

(** The loop unwraps to the last error of the chain. *)
Fixpoint unwrap_all (e : goerr) : goerr := match e with Wrapped _ e => unwrap_all e | _ => e end.
Definition errorRootCause (err : option goerr) : option goerr :=
  e ← err;
  let e := unwrap_all e in
  if errors_is e (Errno errno0) then None else Some e.

(** The calls are [fcntl] with [F_FULLFSYNC], and [Sync]. *)
Fixpoint syncFile_darwin_loop (fuel : nat) : IO (option goerr) :=
  match fuel with
  | 0 => λ _, OutOfFuel
  | S fuel =>
    err ← file_call;
    let rootCause := errorRootCause err in
    if bool_decide (err = None) || isIOError rootCause then mret err
    else if from_option isRetryErr false err then syncFile_darwin_loop fuel
    else
      err ← file_call;
      if from_option isRetryErr false err then syncFile_darwin_loop fuel else mret err
  end.
Definition syncFile_darwin : IO (option goerr) := fuel ← get_fuel; syncFile_darwin_loop fuel.

(** ** util_windows.go *)
Definition syncFile_windows : IO (option goerr) := file_call.

Inductive platform := Darwin | Windows | Other.
Definition syncFile_on (p : platform) : IO (option goerr) :=
  match p with Darwin => syncFile_darwin | Windows => syncFile_windows | Other => syncFile end.

(** ** The contract *)

(** Of a call of a sync function: files are as they were, the calls it made used up the
    faults [l], and [nil] is returned only if the last of them succeeded. *)
Record synced (w w' : world) (err : option goerr) : Prop := {
  sy_files : files w' = files w;
  sy_home : home_is w' = home_is w;
  sy_calls : ∃ l, faults w = l ++ faults w' ∧ match err with
    | None => faults w' = [] ∨ last l = Some FOk
    | Some e => ∃ n c, last l = Some (FFail n c) ∧ e = Errno c
    end
}.

Lemma synced_call w : ∃ err w', file_call w = Done (err, w') ∧ synced w w' err ∧
  (faults w = [] → err = None) ∧ (faults w ≠ [] → length (faults w') < length (faults w)).
Proof.
  destruct w as [h fs [|[|n e] l]]; eexists _, _; (split; [reflexivity|]); simpl; (split; [|split; [done|intros ?; simpl; first [done|lia]]]); split; try done.
  - exists []. split; [done|by left].
  - exists [FOk]. split; [done|by right].
  - exists [FFail n e]. split; [done|by eexists _, _].
Qed.

Lemma synced_trans w w1 w2 err1 err2 : synced w w1 err1 → synced w1 w2 err2 → synced w w2 err2.
Proof.
  intros [F1 H1 (l1 & E1 & _)] [F2 H2 (l2 & E2 & R2)]. split; [congruence|congruence|].
  exists (l1 ++ l2). rewrite E1, E2, (assoc_L (++)). split; [done|].
  destruct err2 as [e|].
  - destruct R2 as (n & c & Hl & ->). exists n, c. by rewrite last_app, Hl.
  - destruct R2 as [R2|R2]; [by left|]. right. by rewrite last_app, R2.
Qed.

(** One round of the loop. *)
Lemma darwin_step fuel w err w1 : file_call w = Done (err, w1) →
  syncFile_darwin_loop (S fuel) w =
    if bool_decide (err = None) || isIOError (errorRootCause err) then Done (err, w1)
    else if from_option isRetryErr false err then syncFile_darwin_loop fuel w1
    else match file_call w1 with
      | Done (err2, w2) => if from_option isRetryErr false err2 then syncFile_darwin_loop fuel w2 else Done (err2, w2)
      | Panic s => Panic s
      | OutOfFuel => OutOfFuel
      end.
Proof.
  intros E. cbn [syncFile_darwin_loop]. unfold mbind at 1, io_bind at 1. rewrite E.
  destruct (_ || _); [done|]. destruct (from_option _ _ err); [done|].
  unfold mbind, io_bind. destruct (file_call w1) as [[err2 w2]| |]; [|done..]. by destruct (from_option _ _ err2).
Qed.

Lemma isIOError_no_retry c : isIOError (errorRootCause (Some (Errno c))) = true → isRetryErr (Errno c) = false.
Proof. by destruct c. Qed.

Definition no_retry (err : option goerr) : Prop := from_option isRetryErr false err = false.

Lemma darwin_loop_ok fuel w : length (faults w) < fuel →
  ∃ err w', syncFile_darwin_loop fuel w = Done (err, w') ∧ synced w w' err ∧ no_retry err.
Proof.
  revert w. induction fuel as [|fuel IH]; intros w Hf; [lia|].
  destruct (synced_call w) as (err & w1 & E1 & S1 & _ & L1). rewrite (darwin_step _ _ _ _ E1).
  assert (Hlt : err ≠ None → length (faults w1) < fuel).
  { intros Hne. destruct (faults w) eqn:Ew; [|rewrite <-Ew in *; specialize (L1 ltac:(by rewrite Ew)); lia].
    destruct S1 as [_ _ (l & El & Hres)]. rewrite Ew in El. symmetry in El. apply app_nil in El as [-> _].
    destruct err; [|done]. by destruct Hres as (? & ? & ? & _). }
  destruct (bool_decide (err = None) || _) eqn:Eio.
  { exists err, w1. split; [done|]. split; [done|]. unfold no_retry. apply orb_prop in Eio as [->%bool_decide_eq_true|Eio]; [done|].
    destruct S1 as [_ _ (l & _ & Hres)]. destruct err as [e|]; [|done]. destruct Hres as (n & c & _ & ->). by apply isIOError_no_retry. }
  apply orb_false_elim in Eio as [Hne%bool_decide_eq_false _]. specialize (Hlt Hne).
  destruct (from_option isRetryErr false err).
  { destruct (IH w1 Hlt) as (err' & w' & -> & S' & Hr). exists err', w'. split; [done|]. split; [by eapply synced_trans|done]. }
  destruct (synced_call w1) as (err2 & w2 & -> & S2 & _ & L2).
  destruct (from_option isRetryErr false err2) eqn:Er2.
  - assert (Hlt2 : length (faults w2) < fuel).
    { destruct S2 as [_ _ (l & El & _)]. rewrite El, length_app in Hlt. lia. }
    destruct (IH w2 Hlt2) as (err' & w' & -> & S' & Hr). exists err', w'. split; [done|]. split; [|done].
    eapply synced_trans; [exact S1|by eapply synced_trans].
  - exists err2, w2. split; [done|]. split; [by eapply synced_trans|done].
Qed.

Lemma other_loop_ok fuel w : length (faults w) < fuel →
  ∃ err w', syncFile_loop fuel w = Done (err, w') ∧ synced w w' err ∧ no_retry err.
Proof.
  revert w. induction fuel as [|fuel IH]; intros w Hf; [lia|].
  destruct (synced_call w) as (err & w1 & E1 & S1 & N1 & L1). cbn [syncFile_loop]. unfold mbind, io_bind. rewrite E1.
  destruct err as [e|]; [|by exists None, w1]. destruct (isRetryErr e) eqn:Er; [|by exists (Some e), w1].
  destruct (decide (faults w = [])) as [Hnil|Hne]; [by specialize (N1 Hnil)|]. specialize (L1 Hne).
  destruct (IH w1 ltac:(lia)) as (err' & w' & -> & S' & Hr). exists err', w'. split; [done|]. split; [by eapply synced_trans|done].
Qed.

(** On every platform [syncFile] returns, whatever errors its system calls give; it
    changes no file, returns nil only after a call that succeeded, and otherwise the
    error of its last call.  Except on Windows it never returns EINTR or EAGAIN, which it
    retries. *)
Theorem syncFile_contract p w : ∃ err w', syncFile_on p w = Done (err, w') ∧ synced w w' err ∧
  (p ≠ Windows → no_retry err).
Proof.
  destruct p; simpl.
  - destruct (darwin_loop_ok (S (length (faults w))) w) as (err & w' & E & Hs & Hr); [lia|]. by exists err, w'.
  - destruct (synced_call w) as (err & w' & E & Hs & _). by exists err, w'.
  - destruct (other_loop_ok (S (length (faults w))) w) as (err & w' & E & Hs & Hr); [lia|]. by exists err, w'.
Qed.
