(* ===== verification/Txid.v ===== *)
(** * Transaction IDs and data files (diskstore.go)

    The circular order on 64-bit transaction IDs, data files sorted by it, and
    the decimal names of data files. *)

From stdpp Require Import base gmap strings list sorting.
From Stdlib Require Import ZArith Lia.
From S2P Require Import Prelude GoValue Json.

#[local] Open Scope Z_scope.

Definition isTxIDLessEqual (a b : Z) : bool := bool_decide (int64_of (a - b) ≤ 0).

Record dataFileInfo := mkInfo { path : string; txid : Z }.
#[export] Instance dataFileInfo_eq_dec : EqDecision dataFileInfo.
Proof. solve_decision. Defined.

(** [sort.Slice] by insertion: an element moves left past every element it is
    less than or equal to, as Go sorts slices of at most 12 elements. *)
Fixpoint insert_left (less : dataFileInfo → dataFileInfo → bool) (x : dataFileInfo)
    (rev_sorted : list dataFileInfo) : list dataFileInfo :=
  match rev_sorted with
  | y :: r => if less x y then y :: insert_left less x r else x :: y :: r
  | [] => [x]
  end.

Definition sort_Slice (less : dataFileInfo → dataFileInfo → bool) (l : list dataFileInfo) :=
  reverse (foldl (λ acc x, insert_left less x acc) [] l).

Definition sortDataFileInfos (infos : list dataFileInfo) : list dataFileInfo :=
  sort_Slice (λ x y, isTxIDLessEqual (txid x) (txid y)) infos.

(** [fmt.Sprintf("%v", n)] for an unsigned integer. *)
Fixpoint digits_loop (fuel : nat) (n : Z) (acc : bytes) : bytes :=
  match fuel with
  | O => acc
  | S fuel =>
    let acc := byte_of (48 + n mod 10) :: acc in
    if decide (n < 10) then acc else digits_loop fuel (n / 10) acc
  end.
Definition format_uint (n : Z) : bytes := digits_loop (S (Z.to_nat (Z.log2 n))) n [].

(** [filepath.Glob] with the pattern "*.json", a regular file's name without
    the extension, and [strconv.ParseUint]. *)
Definition json_suffix : string := ".json".
Definition trim_json (name : string) : option bytes :=
  let b := bs name in
  let n := (length b - 5)%nat in
  if decide (5 ≤ length b)%nat then
    if decide (drop n b = bs json_suffix) then Some (take n b) else None
  else None.
Definition data_id (name : string) : option Z := b ← trim_json name; parse_uint b.

(** [fmt.Sprintf("%v.json", fileTxID)] *)
Definition data_name (n : Z) : string := String.string_of_list_byte (format_uint n ++ bs json_suffix).

(** ** The order *)
Definition id_range (a : Z) : Prop := 0 ≤ a < 2 ^ 64.

(** The distance from [b] on to [a], around the circle of IDs. *)
Definition behind (a b : Z) : Z := wrap 64 (b - a).

Lemma isTxIDLessEqual_spec a b : id_range a → id_range b →
  isTxIDLessEqual a b = true ↔ behind a b ≤ 2 ^ 63.
Proof.
  unfold id_range, isTxIDLessEqual, behind, int64_of, wrap. intros Ha Hb.
  rewrite bool_decide_eq_true. repeat case_decide; Z.div_mod_to_equations; lia.
Qed.

Lemma isTxIDLessEqual_small a b : 0 ≤ a < 2 ^ 63 → 0 ≤ b < 2 ^ 63 → isTxIDLessEqual a b = bool_decide (a ≤ b).
Proof.
  unfold isTxIDLessEqual, int64_of, wrap. intros Ha Hb. apply bool_decide_ext.
  repeat case_decide; Z.div_mod_to_equations; lia.
Qed.

(** ** Sorting *)
Section sorting.
Context (less : dataFileInfo → dataFileInfo → bool).

Lemma insert_left_perm x l : insert_left less x l ≡ₚ x :: l.
Proof.
  induction l as [|y l IH]; simpl; [done|]. destruct (less x y); [|done].
  rewrite IH. apply Permutation_swap.
Qed.

Lemma foldl_insert_perm l acc : foldl (λ acc x, insert_left less x acc) acc l ≡ₚ l ++ acc.
Proof.
  revert acc. induction l as [|x l IH]; intros acc; simpl; [done|].
  rewrite IH, insert_left_perm. by rewrite Permutation_middle.
Qed.

Lemma sort_Slice_perm l : sort_Slice less l ≡ₚ l.
Proof. unfold sort_Slice. rewrite reverse_Permutation, foldl_insert_perm. by rewrite app_nil_r. Qed.

(** On a set of elements where [less] is a total, transitive order. *)
Context (D : dataFileInfo → Prop).
Context (total : ∀ x y, D x → D y → less x y = false → less y x = true).
Context (trans : ∀ x y z, D x → D y → D z → less x y = true → less y z = true → less x z = true).

Lemma insert_left_sorted x l : D x → Forall D l →
  StronglySorted (λ x y, less y x = true) l → StronglySorted (λ x y, less y x = true) (insert_left less x l).
Proof.
  intros Hx. induction l as [|y l IH]; intros HD Hs; simpl; [by repeat constructor|].
  inversion HD as [|?? Hy HDl]; subst. inversion Hs as [|?? Hs' Hall]; subst.
  destruct (less x y) eqn:E.
  - constructor; [auto|]. rewrite Forall_forall in Hall |- *. intros z Hz.
    rewrite insert_left_perm, elem_of_cons in Hz. destruct Hz as [->|]; auto.
  - constructor; [done|]. constructor; [auto|]. rewrite Forall_forall in Hall, HDl |- *.
    intros z Hz. eapply (trans _ y); auto.
Qed.

Lemma foldl_insert_sorted l acc : Forall D l → Forall D acc →
  StronglySorted (λ x y, less y x = true) acc →
  StronglySorted (λ x y, less y x = true) (foldl (λ acc x, insert_left less x acc) acc l).
Proof.
  revert acc. induction l as [|x l IH]; intros acc HD Hacc Hs; simpl; [done|].
  inversion HD; subst. apply IH; [done| |by apply insert_left_sorted].
  rewrite insert_left_perm. by constructor.
Qed.

Lemma StronglySorted_reverse {A} (R : A → A → Prop) l :
  StronglySorted (λ x y, R y x) l → StronglySorted R (reverse l).
Proof.
  induction 1 as [|x l Hs IH Hall]; [constructor|]. rewrite reverse_cons.
  apply StronglySorted_app_2; [|done|by repeat constructor].
  intros y z. rewrite elem_of_reverse, list_elem_of_singleton. intros Hy ->.
  by eapply Forall_forall in Hall.
Qed.

Lemma sort_Slice_sorted l : Forall D l → StronglySorted (λ x y, less x y = true) (sort_Slice less l).
Proof.
  intros HD. apply StronglySorted_reverse. apply foldl_insert_sorted; [done|constructor|constructor].
Qed.
End sorting.

(** ** IDs around a rollover

    [window c]: the IDs from [c] on, less than half the circle away. *)
Definition offset (c a : Z) : Z := wrap 64 (a - c).
Definition window (c a : Z) : Prop := id_range a ∧ offset c a < 2 ^ 63.

Lemma window_leq c a b : window c a → window c b →
  isTxIDLessEqual a b = bool_decide (offset c a ≤ offset c b).
Proof.
  unfold window, offset, isTxIDLessEqual, int64_of, wrap, id_range.
  intros [Ha Hoa] [Hb Hob]. apply bool_decide_ext.
  repeat case_decide; Z.div_mod_to_equations; lia.
Qed.

Lemma offset_inj c a b : id_range a → id_range b → offset c a = offset c b → a = b.
Proof. unfold offset, wrap, id_range. intros. Z.div_mod_to_equations; lia. Qed.

Lemma sort_window c infos : Forall (λ i, window c (txid i)) infos → NoDup (txid <$> infos) →
  let sorted := sortDataFileInfos infos in
  sorted ≡ₚ infos ∧ StronglySorted (λ x y, offset c (txid x) ≤ offset c (txid y)) sorted ∧
  ∀ l, l ≡ₚ infos → StronglySorted (λ x y, offset c (txid x) ≤ offset c (txid y)) l → l = sorted.
Proof.
  intros Hw Hnd. cbn zeta. unfold sortDataFileInfos.
  set (less := λ x y : dataFileInfo, isTxIDLessEqual (txid x) (txid y)).
  assert (Hsorted : StronglySorted (λ x y, offset c (txid x) ≤ offset c (txid y)) (sort_Slice less infos)).
  { assert (StronglySorted (λ x y, less x y = true) (sort_Slice less infos)) as Hs.
    { apply (sort_Slice_sorted less (λ i, window c (txid i))); [..|done]; unfold less.
      - intros x y Hx Hy. rewrite !(window_leq c), bool_decide_eq_false, bool_decide_eq_true by done. lia.
      - intros x y z Hx Hy Hz. rewrite !(window_leq c), !bool_decide_eq_true by done. lia. }
    assert (Forall (λ i, window c (txid i)) (sort_Slice less infos)) as Hws by by rewrite sort_Slice_perm.
    induction Hs as [|x l Hs IH Hall]; [constructor|]. apply Forall_cons in Hws as [Hx Hl].
    constructor; [auto|]. rewrite Forall_forall in Hall, Hl |- *. intros y Hy. specialize (Hall y Hy).
    unfold less in Hall. by rewrite (window_leq c), bool_decide_eq_true in Hall by auto. }
  split_and!; [apply sort_Slice_perm|done|]. intros l Hl Hls.
  eapply StronglySorted_unique_strong; [|exact Hls|exact Hsorted|by rewrite Hl, sort_Slice_perm].
  intros x y Hx Hy Hxy Hyx. rewrite Hl in Hx. rewrite sort_Slice_perm in Hy.
  rewrite Forall_forall in Hw. cbn beta in *.
  assert (txid x = txid y) as Htx.
  { apply (offset_inj c); [by apply Hw|by apply Hw|lia]. }
  apply list_elem_of_lookup in Hx as [i Hi]. apply list_elem_of_lookup in Hy as [j Hj].
  assert (i = j) as ->; [|congruence].
  eapply NoDup_lookup; [done|by rewrite list_lookup_fmap, Hi|]. by rewrite list_lookup_fmap, Hj, Htx.
Qed.

(** C24. Sorting data files by [isTxIDLessEqual] orders them by age, also when the
    64-bit IDs rolled over between them: if all IDs lie in a window of less
    than 2^63 from some ID [c] on and are distinct, the result holds the same
    files, the oldest first, and no other order of them is sorted, so that it
    does not depend on the algorithm of [sort.Slice]. *)
Theorem sortDataFileInfos_correct (c : Z) (infos : list dataFileInfo) :
  Forall (λ i, window c (txid i)) infos → NoDup (txid <$> infos) →
  let sorted := sortDataFileInfos infos in
  sorted ≡ₚ infos ∧ StronglySorted (λ x y, offset c (txid x) ≤ offset c (txid y)) sorted ∧
  ∀ l, l ≡ₚ infos → StronglySorted (λ x y, offset c (txid x) ≤ offset c (txid y)) l → l = sorted.
Proof. exact (sort_window c infos). Qed.

Lemma sortDataFileInfos_correct_witness :
  let infos := [mkInfo "3.json" 3; mkInfo "18446744073709551614.json" (2 ^ 64 - 2); mkInfo "0.json" 0] in
  sortDataFileInfos infos = [mkInfo "18446744073709551614.json" (2 ^ 64 - 2); mkInfo "0.json" 0; mkInfo "3.json" 3] ∧
  sortDataFileInfos infos ≡ₚ infos.
Proof.
  split; [reflexivity|].
  refine (proj1 (sortDataFileInfos_correct (2 ^ 64 - 2) _ _ _)).
  - repeat constructor; simpl; lia.
  - apply (bool_decide_unpack _). vm_compute. exact I.
Defined.

(** C25. [isTxIDLessEqual] is the order of ages on every window of less than 2^63
    IDs, wherever the window starts; two IDs exactly 2^63 apart are each less
    than or equal to the other. *)
Theorem isTxIDLessEqual_circular (a b : Z) : id_range a → id_range b →
  (∀ c, window c a → window c b → isTxIDLessEqual a b = bool_decide (offset c a ≤ offset c b)) ∧
  (isTxIDLessEqual a b = true ↔ behind a b ≤ 2 ^ 63) ∧
  (isTxIDLessEqual a b = true ∧ isTxIDLessEqual b a = true ↔ a = b ∨ behind a b = 2 ^ 63).
Proof.
  intros Ha Hb. split_and!.
  - intros c. apply window_leq.
  - by apply isTxIDLessEqual_spec.
  - rewrite !isTxIDLessEqual_spec by done. unfold behind, wrap, id_range in *.
    Z.div_mod_to_equations; lia.
Qed.

Lemma isTxIDLessEqual_circular_witness :
  isTxIDLessEqual (2 ^ 64 - 1) 5 = true ∧ isTxIDLessEqual 5 (2 ^ 64 - 1) = false ∧
  (isTxIDLessEqual 0 (2 ^ 63) = true ∧ isTxIDLessEqual (2 ^ 63) 0 = true).
Proof.
  split; [reflexivity|]. split; [reflexivity|].
  refine (proj2 (proj2 (proj2 (isTxIDLessEqual_circular 0 (2 ^ 63) _ _))) _);
    [unfold id_range; lia|unfold id_range; lia|right; reflexivity].
Defined.

(** ** Names of data files *)
Lemma digit_code d : 0 ≤ d < 10 → code (byte_of (48 + d)) = 48 + d ∧ is_digit (byte_of (48 + d)) = true.
Proof.
  intros Hd.
  assert (d = 0 ∨ d = 1 ∨ d = 2 ∨ d = 3 ∨ d = 4 ∨ d = 5 ∨ d = 6 ∨ d = 7 ∨ d = 8 ∨ d = 9) as H by lia.
  repeat destruct H as [->|H]; try (split; reflexivity). subst. split; reflexivity.
Qed.

Lemma digits_value_app l c : digits_value (l ++ [c]) = 10 * digits_value l + (code c - 48).
Proof. unfold digits_value. by rewrite foldl_app. Qed.

(** The digits of [n] come first, then what was there. *)
Lemma digits_loop_spec fuel n acc : 0 ≤ n < 10 ^ Z.of_nat fuel →  (0 < fuel)%nat →
  ∃ ds, digits_loop fuel n acc = ds ++ acc ∧ ds ≠ [] ∧ Forall (λ c, is_digit c = true) ds ∧ digits_value ds = n.
Proof.
  revert n acc. induction fuel as [|fuel IH]; intros n acc Hn Hf; [lia|]. cbn [digits_loop].
  destruct (digit_code (n mod 10)) as [Hc Hd]; [apply Z.mod_pos_bound; lia|].
  destruct (decide (n < 10)) as [Hlt|Hge].
  - exists [byte_of (48 + n mod 10)]. split_and!; [done|done|by repeat constructor|].
    unfold digits_value. simpl. rewrite Hc, Z.mod_small by lia. lia.
  - destruct fuel as [|fuel]; [simpl in Hn; lia|].
    destruct (IH (n / 10) (byte_of (48 + n mod 10) :: acc)) as (ds & -> & Hne & Hds & Hv); [|lia|].
    { rewrite Nat2Z.inj_succ, Z.pow_succ_r in Hn by lia. Z.div_mod_to_equations; lia. }
    exists (ds ++ [byte_of (48 + n mod 10)]). split_and!.
    + by rewrite <-app_assoc.
    + by destruct ds.
    + apply Forall_app. split; [done|by repeat constructor].
    + rewrite digits_value_app, Hc, Hv. Z.div_mod_to_equations; lia.
Qed.

Lemma format_uint_spec n : 0 ≤ n →
  format_uint n ≠ [] ∧ Forall (λ c, is_digit c = true) (format_uint n) ∧ digits_value (format_uint n) = n.
Proof.
  intros Hn. unfold format_uint.
  destruct (digits_loop_spec (S (Z.to_nat (Z.log2 n))) n []) as (ds & -> & ? & ? & ?); [|lia|by rewrite app_nil_r].
  split; [done|]. destruct (decide (n = 0)) as [->|]; [done|].
  rewrite Nat2Z.inj_succ, Z2Nat.id by apply Z.log2_nonneg.
  eapply Z.lt_le_trans; [apply Z.log2_spec; lia|]. apply Z.pow_le_mono_l.
  split; [lia|lia].
Qed.

Lemma is_digit_cases c : is_digit c = true →
  c ∈ [Byte.x30; Byte.x31; Byte.x32; Byte.x33; Byte.x34; Byte.x35; Byte.x36; Byte.x37; Byte.x38; Byte.x39].
Proof. destruct c; intros H; try (vm_compute in H; discriminate H); apply (bool_decide_unpack _); vm_compute; exact I. Qed.

Lemma digits_loop_head fuel n acc : (1 ≤ n < 10 ^ Z.of_nat fuel)%Z →
  ∃ c r, digits_loop fuel n acc = c :: r ∧ c ≠ Byte.x30.
Proof.
  revert n acc. induction fuel as [|fuel IH]; intros n acc Hn; [simpl in Hn; lia|]. cbn [digits_loop].
  destruct (decide (n < 10)%Z) as [Hlt|Hge].
  - eexists _, acc. split; [done|]. rewrite Z.mod_small by lia. intros E.
    destruct (digit_code n) as [Hc _]; [lia|]. rewrite E in Hc. change (code Byte.x30) with 48%Z in Hc. lia.
  - apply IH. rewrite Nat2Z.inj_succ, Z.pow_succ_r in Hn by lia. Z.div_mod_to_equations; lia.
Qed.

Lemma format_uint_head n : (1 ≤ n)%Z → ∃ c r, format_uint n = c :: r ∧ c ≠ Byte.x30 ∧
  Forall (λ c, is_digit c = true) (c :: r).
Proof.
  intros Hn. destruct (format_uint_spec n) as (_ & Hd & _); [lia|].
  destruct (digits_loop_head (S (Z.to_nat (Z.log2 n))) n []) as (c & r & E & Hc).
  { split; [lia|]. rewrite Nat2Z.inj_succ, Z2Nat.id by apply Z.log2_nonneg.
    eapply Z.lt_le_trans; [apply Z.log2_spec; lia|]. apply Z.pow_le_mono_l. split; lia. }
  exists c, r. unfold format_uint in *. rewrite E in *. done.
Qed.

Lemma take_digits_stop ds c r : Forall (λ c, is_digit c = true) ds → is_digit c = false →
  take_digits (ds ++ c :: r) = (ds, c :: r).
Proof. intros H Hc. induction H as [|d ds Hd _ IH]; simpl; [by rewrite Hc|]. by rewrite Hd, IH. Qed.

(** The text of a number in an object. *)
Lemma scan_number_uint n c r : 0 ≤ n → c = comma ∨ c = close_brace → scan_number (format_uint n ++ c :: r) = Some (format_uint n, c :: r).
Proof.
  intros Hn Hc. assert (Hnd : is_digit c = false) by (by destruct Hc as [-> | ->]).
  destruct (format_uint_spec n Hn) as (Hne & Hd & _). pose proof (take_digits_stop _ c r Hd Hnd) as Ht.
  assert (Hi : scan_int (format_uint n ++ c :: r) = Some (format_uint n, c :: r)).
  { destruct (decide (n = 0)) as [->|Hn0]; [by destruct Hc as [-> | ->]|].
    destruct (format_uint_head n ltac:(lia)) as (d & ds & E & Hd0 & [Hdd _]%Forall_cons). rewrite E in *. simpl app in *.
    cbn [scan_int]. by rewrite bool_decide_eq_false_2, Hdd, Ht. }
  assert (Hs : scan_sign [Byte.x2d] (format_uint n ++ c :: r) = ([], format_uint n ++ c :: r)).
  { destruct (format_uint n) as [|d ds]; [done|]. apply Forall_cons in Hd as [Hdd _]. simpl. rewrite bool_decide_eq_false_2; [done|].
    rewrite list_elem_of_singleton. by intros ->. }
  unfold scan_number. rewrite Hs, Hi. cbn [mbind option_bind fst snd].
  assert (Hf : scan_frac (c :: r) = Some ([], c :: r)) by (by destruct Hc as [-> | ->]). rewrite Hf. cbn [mbind option_bind fst snd].
  assert (He : scan_exp (c :: r) = Some ([], c :: r)) by (by destruct Hc as [-> | ->]). rewrite He. cbn [mbind option_bind fst snd].
  by rewrite !app_nil_r.
Qed.

Lemma parse_value_uint n c r fuel : 0 ≤ n → c = comma ∨ c = close_brace →
  parse_value (S fuel) (format_uint n ++ c :: r) = Some (JNum (format_uint n), c :: r).
Proof.
  intros Hn Hc. pose proof (scan_number_uint n c r Hn Hc) as Hp. destruct (format_uint_spec n Hn) as (Hne & Hd & _).
  destruct (format_uint n) as [|d ds]; [done|]. apply Forall_cons in Hd as [Hdd%is_digit_cases _]. clear Hne.
  cbn [parse_value].
  assert (skip_ws ((d :: ds) ++ c :: r) = (d :: ds) ++ c :: r) as ->.
  { set_unfold. by repeat destruct Hdd as [->|Hdd]; [..|done]. }
  simpl app in *. set_unfold. repeat destruct Hdd as [->|Hdd]; try done; by rewrite Hp.
Qed.

Lemma take_digits_all b : Forall (λ c, is_digit c = true) b → take_digits b = (b, []).
Proof. induction 1 as [|c b Hc _ IH]; simpl; [done|]. by rewrite Hc, IH. Qed.

Lemma parse_format_uint n : 0 ≤ n < 2 ^ 64 → parse_uint (format_uint n) = Some n.
Proof.
  intros Hn. destruct (format_uint_spec n) as (Hne & Hd & Hv); [lia|].
  unfold parse_uint. rewrite (take_digits_all _ Hd). destruct (format_uint n); [done|].
  rewrite Hv. by rewrite decide_True by lia.
Qed.

Lemma bs_string b : bs (String.string_of_list_byte b) = b.
Proof. apply String.list_byte_of_string_of_list_byte. Qed.

Lemma data_id_name n : 0 ≤ n < 2 ^ 64 → data_id (data_name n) = Some n.
Proof.
  intros Hn. unfold data_id, trim_json, data_name. rewrite bs_string.
  assert (length (bs json_suffix) = 5%nat) as Hl by done.
  rewrite decide_True by (rewrite length_app; lia).
  replace (length (format_uint n ++ bs json_suffix) - 5)%nat with (length (format_uint n))
    by (rewrite length_app; lia).
  rewrite drop_app_length, decide_True by done. rewrite take_app_length. simpl. by apply parse_format_uint.
Qed.
