(* ===== verification/DiskData.v ===== *)
(** * Data of the memlog store on disk (diskstore.go, op.go, json.go)

    The records of the log and data files, the encoder that writes them, which
    is a library outside the repository, and their decoding by encoding/json. *)

From stdpp Require Import base gmap strings list fin_maps.
From Stdlib Require Import ZArith Lia.
From S2P Require Import Prelude GoValue Json Fs Txid.

(** ** Records *)
Record entry := mkEntry { value : mapstr }.
#[export] Instance entry_eq_dec : EqDecision entry.
Proof. solve_decision. Defined.
Abbreviation table := (gmap string entry).

Record storeEntry := mkStoreEntry { Key : string; Fields : mapstr }.
Record storeMeta := mkMeta { Version : string }.
Record logAction := mkAction { Op : string; ID : Z }.

Inductive op :=
| opSet (K : string) (V : mapstr)
| opRemove (K : string).

Definition opValSet : string := "set".
Definition opValRemove : string := "remove".
Definition op_name (o : op) : string :=
  match o with
  | opSet _ _ => opValSet
  | opRemove _ => opValRemove
  end.

Definition logFileName : string := "log.json".
Definition metaFileName : string := "meta.json".
Definition activeDataFileName : string := "active.dat".
Definition activeDataTmpFileName : string := "active.dat.new".
Definition checkpointTmpFileName : string := "checkpoint.new".
Definition storeVersion : string := "1".
Definition keyField : string := "_key".

(** ** Encoding

    [gotype.Iterator.Fold] on a JSON visitor: the chunks it hands to the writer
    for a value, and whether it can encode all of it. *)
Inductive encodable :=
| EncAction (a : logAction)
| EncOp (o : op)
| EncEntry (e : storeEntry)
| EncMeta (m : storeMeta).

Class JsonEncoder := encode_chunks : encodable → list bytes * bool.

(** [jsonEncoder.Encode]: stops at the first failing write. *)
Section encoder.
Context `{JsonEncoder} {W : Type} (write : bytes → W → IO (nat * option goerr * W)).

Fixpoint write_chunks (l : list bytes) (w : W) : IO (option goerr * W) :=
  match l with
  | [] => mret (None, w)
  | p :: l =>
    r ← write p w;
    match r with
    | (_, Some e, w) => mret (Some e, w)
    | (_, None, w) => write_chunks l w
    end
  end.

Definition Encode (v : encodable) (w : W) : IO (option goerr * W) :=
  let '(chunks, ok) := encode_chunks v in
  r ← write_chunks chunks w;
  match r with
  | (Some e, w) => mret (Some e, w)
  | (None, w) => mret (if ok then None else Some errEncode, w)
  end.
End encoder.

(** ** Decoding into structs

    A field takes a value of its own type or null, which changes nothing; other
    members of the object are skipped.  [None]: the decoder returns an error. *)
Fixpoint decode_fields {A} (set : string → json → A → option A) (l : list (string * json)) (a : A)
    : option A :=
  match l with
  | [] => Some a
  | (k, j) :: l => a ← set k j a; decode_fields set l a
  end.

Definition decode_struct {A} (set : string → json → A → option A) (j : json) (a : A) : option A :=
  match j with
  | JNull => Some a
  | JObj l => decode_fields set l a
  | _ => None
  end.

Definition decode_string (j : json) (old : string) : option string :=
  match j with JNull => Some old | JStr s => Some s | _ => None end.
Definition decode_uint64 (j : json) (old : Z) : option Z :=
  match j with JNull => Some old | JNum lit => parse_uint lit | _ => None end.
Definition decode_map (j : json) (old : mapstr) : option mapstr :=
  match j with JNull => Some ∅ | JObj l => members_into l old | _ => None end.

Definition set_action_field (k : string) (j : json) (a : logAction) : option logAction :=
  if field_is "op" k then s ← decode_string j (Op a); Some (mkAction s (ID a))
  else if field_is "id" k then n ← decode_uint64 j (ID a); Some (mkAction (Op a) n)
  else Some a.
Definition decode_action (j : json) : option logAction := decode_struct set_action_field j (mkAction "" 0).

Definition set_opSet_field (k : string) (j : json) (o : string * mapstr) : option (string * mapstr) :=
  if field_is "k" k then s ← decode_string j o.1; Some (s, o.2)
  else if field_is "v" k then m ← decode_map j o.2; Some (o.1, m)
  else Some o.
Definition set_opRemove_field (k : string) (j : json) (o : string) : option string :=
  if field_is "k" k then decode_string j o else Some o.

(** The target is chosen by the action; an unknown action has none. *)
Definition decode_op (name : string) (j : json) : option op :=
  if decide (name = opValSet) then
    o ← decode_struct set_opSet_field j ("", ∅); Some (opSet o.1 o.2)
  else if decide (name = opValRemove) then
    k ← decode_struct set_opRemove_field j ""; Some (opRemove k)
  else None.

Definition set_meta_field (k : string) (j : json) (m : storeMeta) : option storeMeta :=
  if field_is "version" k then s ← decode_string j (Version m); Some (mkMeta s) else Some m.
Definition decode_meta (j : json) : option storeMeta := decode_struct set_meta_field j (mkMeta "").

(** [var states []map[string]interface{}] *)
Definition decode_state (j : json) : option mapstr :=
  match j with JNull => Some ∅ | JObj l => members_into l ∅ | _ => None end.
Definition decode_states (j : json) : option (list mapstr) :=
  match j with JNull => Some [] | JArr l => mapM decode_state l | _ => None end.

(** typeconv.Convert, a library outside the repository, from and into Go values
    of type [V]. *)
Class TypeConv (V : Type) := {
  convert_to_map : V → goerr + mapstr;
  convert_from_map : mapstr → V → goerr + V
}.

(** ** The memory table *)
Record memstore := mkMem { mtable : option table }.

Definition mem_Has (m : memstore) (k : string) : bool :=
  match mtable m with Some t => bool_decide (is_Some (t !! k)) | None => false end.
Definition mem_Get (m : memstore) (k : string) : option entry :=
  match mtable m with Some t => t !! k | None => None end.
Definition mem_Set (k : string) (v : mapstr) (m : memstore) : outcome memstore :=
  match mtable m with
  | Some t => Done (mkMem (Some (<[ k := mkEntry v ]> t)))
  | None => Panic "assignment to entry in nil map"
  end.
Definition mem_Remove (k : string) (m : memstore) : bool * memstore :=
  if mem_Has m k then (true, mkMem (delete k <$> mtable m)) else (false, m).
