(* ===== verification/Diskstore.v ===== *)
(** * The disk store of memlog (diskstore.go)

    Paths are names in the store's home directory.  [iterate] is the order in
    which Go ranges over the table, and [JsonEncoder] the encoder. *)

From stdpp Require Import base gmap strings list fin_maps sorting.
From Stdlib Require Import ZArith Lia.
From S2P Require Import Prelude GoValue Json Fs Txid DiskData.
Import Util Bufio.

Record diskstore := mkDisk {
  checkpointPred : Z → bool;
  fileMode : Z;
  bufferSize : nat;
  home : string;
  oldDataFiles : list dataFileInfo;
  activeDataFile : dataFileInfo;
  nextTxID : Z;
  logFile : option writer;
  logFileSize : Z;
  logEntries : Z;
  logInvalid : bool;
  logNeedsTruncate : bool
}.

Definition setDataFiles old active (s : diskstore) : diskstore :=
  mkDisk (checkpointPred s) (fileMode s) (bufferSize s) (home s) old active (nextTxID s)
    (logFile s) (logFileSize s) (logEntries s) (logInvalid s) (logNeedsTruncate s).
Definition setNextTxID n (s : diskstore) : diskstore :=
  mkDisk (checkpointPred s) (fileMode s) (bufferSize s) (home s) (oldDataFiles s) (activeDataFile s) n
    (logFile s) (logFileSize s) (logEntries s) (logInvalid s) (logNeedsTruncate s).
Definition setLogFile f (s : diskstore) : diskstore :=
  mkDisk (checkpointPred s) (fileMode s) (bufferSize s) (home s) (oldDataFiles s) (activeDataFile s)
    (nextTxID s) f (logFileSize s) (logEntries s) (logInvalid s) (logNeedsTruncate s).
Definition setLogStats size entries (s : diskstore) : diskstore :=
  mkDisk (checkpointPred s) (fileMode s) (bufferSize s) (home s) (oldDataFiles s) (activeDataFile s)
    (nextTxID s) (logFile s) size entries (logInvalid s) (logNeedsTruncate s).
Definition setLogInvalid b (s : diskstore) : diskstore :=
  mkDisk (checkpointPred s) (fileMode s) (bufferSize s) (home s) (oldDataFiles s) (activeDataFile s)
    (nextTxID s) (logFile s) (logFileSize s) (logEntries s) b (logNeedsTruncate s).
Definition setLogNeedsTruncate b (s : diskstore) : diskstore :=
  mkDisk (checkpointPred s) (fileMode s) (bufferSize s) (home s) (oldDataFiles s) (activeDataFile s)
    (nextTxID s) (logFile s) (logFileSize s) (logEntries s) (logInvalid s) b.

(** [uint] and [uint64] increments. *)
Definition uinc (n : Z) : Z := wrap 64 (n + 1).

(** ** Opening the log *)
Definition tryOpenLog (s : diskstore) : IO (option goerr * diskstore) :=
  r ← os_open logFileName true (logNeedsTruncate s) (fileMode s);
  match r with
  | inl e => mret (Some e, s)
  | inr f =>
    r ← seek_end f;
    match r with
    | inl e => file_call;; mret (Some e, s)
    | inr f =>
      r ← (if logNeedsTruncate s then mret (inr (0%Z, 0%Z))
           else (r ← file_size f;
                 mret (match r with inl e => inl e | inr n => inr (wrap 64 (Z.of_nat n), logEntries s) end)));
      match r with
      | inl e => file_call;; mret (Some e, s)
      | inr (size, entries) =>
        mret (None, setLogStats size entries (setLogNeedsTruncate false
                      (setLogFile (Some (NewWriterSize f (bufferSize s))) s)))
      end
    end
  end.

Definition newDiskStore (home : string) (dataFiles : list dataFileInfo) (txid mode entries : Z)
    (invalid : bool) (bufSize : nat) (pred : Z → bool) : IO (goerr + diskstore) :=
  let active := default (mkInfo "" 0) (last dataFiles) in
  let s := mkDisk pred mode bufSize home (take (length dataFiles - 1) dataFiles) active (uinc txid)
             None 0 entries invalid false in
  err ← os_remove checkpointTmpFileName;
  match err with
  | Some e => if isNotExist err then mret None else mret (Some e)
  | None => mret None
  end ≫= fun err =>
  match err with
  | Some e => mret (inl e)
  | None =>
    err ← os_remove activeDataTmpFileName;
    match err with
    | Some e =>
      if isNotExist err then r ← tryOpenLog s; mret (inr r.2) else mret (inl e)
    | None => r ← tryOpenLog s; mret (inr r.2)
    end
  end.

Definition mustCheckpoint (s : diskstore) : bool := logInvalid s || checkpointPred s (logFileSize s).

Definition Close (s : diskstore) : IO (option goerr * diskstore) :=
  match logFile s with
  | Some b =>
    r ← Flush b;
    err ← (match r.1 with None => syncFile | Some e => mret (Some e) end);
    file_call;;
    mret (err, setLogFile None s)
  | None => mret (None, s)
  end.

Section encoding.
Context `{JsonEncoder}.

(** ** Logging an operation *)
Definition count_write : bytes → Z * writer → IO (nat * option goerr * (Z * writer)) := countWrite Write.

(** The writes of [LogOperation], on the counter and the log's buffer. *)
Definition log_write (txid : Z) (o : op) (b : writer) : IO (option goerr * (Z * writer)) :=
  r ← Encode count_write (EncAction (mkAction (op_name o) txid)) (0%Z, b);
  match r with
  | (Some e, c) => mret (Some e, c)
  | (None, (n, b)) =>
    r ← WriteByte newline b;
    r ← Encode count_write (EncOp o) (n, r.2);
    match r with
    | (Some e, c) => mret (Some e, c)
    | (None, (n, b)) =>
      r ← WriteByte newline b;
      r ← Flush r.2;
      mret (r.1, (n, r.2))
    end
  end.

Definition LogOperation (o : op) (s : diskstore) : IO (option goerr * diskstore) :=
  if logInvalid s then mret (Some errLogInvalid, s) else
  r ← (match logFile s with Some _ => mret (None, s) | None => tryOpenLog s end);
  match r with
  | (Some e, s) => mret (Some e, setLogInvalid true s)
  | (None, s) =>
    match logFile s with
    | None => io_panic "invalid memory address or nil pointer dereference"
    | Some b =>
      r ← log_write (nextTxID s) o b;
      let '(err, (n, b)) := r in
      let s := setLogStats (wrap 64 (logFileSize s + n)) (logEntries s) (setLogFile (Some b) s) in
      match err with
      | Some e => mret (Some e, setLogInvalid true s)
      | None => mret (None, setNextTxID (uinc (nextTxID s)) (setLogStats (logFileSize s) (uinc (logEntries s)) s))
      end
    end
  end.

(** ** Checkpoints *)
Context (iterate : table → list (string * entry)).

Fixpoint write_entries (first : bool) (l : list (string * entry)) (b : writer)
    : IO (option goerr * writer) :=
  match l with
  | [] => mret (None, b)
  | (key, e) :: l =>
    r ← Write (if first then [newline] else [comma; newline]) b;
    match r with
    | (_, Some e, b) => mret (Some e, b)
    | (_, None, b) =>
      r ← Encode Write (EncEntry (mkStoreEntry key (value e))) b;
      match r with
      | (Some e, b) => mret (Some e, b)
      | (None, b) => write_entries false l b
      end
    end
  end.

(** The text of a checkpoint, up to flushing the buffer. *)
Definition write_states (states : table) (b : writer) : IO (option goerr * writer) :=
  r ← Write [open_bracket] b;
  match r with
  | (_, Some e, b) => mret (Some e, b)
  | (_, None, b) =>
    r ← write_entries true (iterate states) b;
    match r with
    | (Some e, b) => mret (Some e, b)
    | (None, b) =>
      r ← Write [newline; close_bracket] b;
      match r with
      | (_, Some e, b) => mret (Some e, b)
      | (_, None, b) => Flush b
      end
    end
  end.

Definition checkpointTmpFile (tempfile : string) (mode : Z) (bufSize : nat) (states : table)
    : IO (goerr + string) :=
  r ← os_open tempfile true true mode;
  match r with
  | inl e => mret (inl e)
  | inr f =>
    r ← write_states states (NewWriterSize f bufSize);
    err ← (match r.1 with Some e => mret (Some e) | None => syncFile end);
    match err with
    | Some e => file_call;; mret (inl e)
    | None =>
      err ← file_call;
      mret (match err with Some e => inl e | None => inr tempfile end)
    end
  end.

Definition checkpointClearLog (s : diskstore) : IO diskstore :=
  match logFile s with
  | None => mret (setLogNeedsTruncate true s)
  | Some b =>
    err ← file_truncate (out b);
    err ← (match err with None => file_call | Some e => mret (Some e) end);
    match err with
    | Some _ =>
      file_call;;
      mret (setLogStats 0 0 (setLogInvalid true (setLogNeedsTruncate true (setLogFile None s))))
    | None =>
      mret (setLogStats 0 0 (setLogFile
        (Some (mkWriter (buf b) (size b) (werr b) (mkHandle (h_name (out b)) 0))) s))
    end
  end.

(** [filepath.Join] of a clean directory path and a name. *)
Definition pathJoin (dir name : string) : string := (dir +:+ "/" +:+ name)%string.

(** [os.WriteFile] *)
Definition os_write_file (name : string) (data : bytes) (mode : Z) : IO (option goerr) :=
  r ← os_open name true true mode;
  match r with
  | inl e => mret (Some e)
  | inr f =>
    r ← file_write data f;
    err ← file_call;
    mret (match r.1.2 with Some e => Some e | None => err end)
  end.

Definition updateActiveMarker (homePath checkpointFile : string) : IO (option goerr) :=
  if decide (checkpointFile = "") then os_remove activeDataFileName;; mret None else
  err ← os_remove activeDataTmpFileName;
  if bool_decide (err ≠ None) && negb (isNotExist err) then mret err else
  err ← os_write_file activeDataTmpFileName (bs (pathJoin homePath checkpointFile)) 384;
  match err with
  | Some e => mret (Some e)
  | None =>
    err ← os_rename activeDataTmpFileName activeDataFileName;
    match err with
    | Some e => mret (Some e)
    | None => trySyncPath;; mret None
    end
  end.

Fixpoint remove_files (l : list dataFileInfo) : IO (list dataFileInfo) :=
  match l with
  | [] => mret []
  | i :: r =>
    err ← os_remove (path i);
    if bool_decide (err ≠ None) && negb (isNotExist err) then mret l else remove_files r
  end.

Definition removeOldDataFiles (s : diskstore) : IO diskstore :=
  l ← remove_files (oldDataFiles s);
  mret (setDataFiles l (activeDataFile s) s).

Definition WriteCheckpoint (state : table) (s : diskstore) : IO (option goerr * diskstore) :=
  r ← checkpointTmpFile checkpointTmpFileName (fileMode s) (bufferSize s) state;
  match r with
  | inl e => mret (Some e, s)
  | inr tmpPath =>
    let fileTxID := nextTxID s in
    let checkpointPath := data_name fileTxID in
    err ← os_rename tmpPath checkpointPath;
    match err with
    | Some e => os_remove tmpPath;; mret (Some e, s)
    | None =>
      trySyncPath;;
      s ← checkpointClearLog s;
      let s := setNextTxID (uinc (nextTxID s)) s in
      let old := if decide (path (activeDataFile s) = "") then oldDataFiles s
                 else oldDataFiles s ++ [activeDataFile s] in
      let s := setDataFiles old (mkInfo checkpointPath fileTxID) s in
      updateActiveMarker (home s) (path (activeDataFile s));;
      s ← removeOldDataFiles s;
      trySyncPath;;
      os_remove tmpPath;;
      mret (None, s)
    end
  end.

(** ** The meta file *)
Definition writeMetaFile (mode : Z) : IO (option goerr) :=
  r ← os_open metaFileName true true mode;
  match r with
  | inl e => mret (Some e)
  | inr f =>
    r ← Encode raw_write (EncMeta (mkMeta storeVersion)) f;
    err ← (match r.1 with Some e => mret (Some e) | None => syncFile end);
    match err with
    | Some e => file_call;; mret (Some e)
    | None =>
      err ← file_call;
      match err with
      | Some e => mret (Some e)
      | None => trySyncPath;; mret None
      end
    end
  end.
End encoding.

Definition checkMeta (m : storeMeta) : option goerr :=
  if decide (Version m = storeVersion) then None else Some (errText "store version not supported").

Definition readMetaFile : IO (goerr + storeMeta) :=
  r ← os_read metaFileName;
  match r with
  | inl e => mret (inl e)
  | inr b =>
    file_call;;
    mret (match j ← parse b; decode_meta j.1 with
          | Some m => inr m
          | None => inl (Wrapped "can not read store meta file" errDecode)
          end)
  end.

(** ** Loading *)

(** A data file's [dataFileInfo], if its name is one. *)
Definition file_info (name : string) : option dataFileInfo := id ← data_id name; Some (mkInfo name id).

(** The loop of [listDataFiles] over the names that match "*.json". *)
Fixpoint list_infos (names : list string) : IO (goerr + list dataFileInfo) :=
  match names with
  | [] => mret (inr [])
  | name :: names =>
    r ← syscall (A := bool) (fs ← get_files;
      mret (match fs !! name with Some f => inr (isRegular f) | None => inl (Errno ENOENT) end));
    match r with
    | inl e => mret (inl e)
    | inr regular =>
      rest ← list_infos names;
      mret (match rest with
            | inl e => inl e
            | inr l => inr (if regular : bool then match file_info name with Some i => i :: l | None => l end else l)
            end)
    end
  end.

Definition listDataFiles : IO (goerr + list dataFileInfo) :=
  names ← os_names;
  r ← list_infos (merge_sort String.le (filter (λ n : string, is_Some (trim_json n)) names));
  mret (match r with
        | inl e => inl e
        | inr infos => inr (if decide (length infos ≤ 1) then infos else sortDataFileInfos infos)
        end).

(** [readDataFile] after opening: the entries of the file, in order. *)
Definition state_entry (m : mapstr) : option (string * mapstr) :=
  match m !! keyField with
  | Some (VStr key) => Some (key, delete keyField m)
  | _ => None
  end.
Definition read_states (b : bytes) : goerr + list (string * mapstr) :=
  match j ← parse b; decode_states j.1 with
  | Some states => inr (omap state_entry states)
  | None => inl (Wrapped "corrupted data file" ErrCorruptStore)
  end.

Definition readDataFile (name : string) : IO (goerr + list (string * mapstr)) :=
  r ← os_read name;
  match r with
  | inl e => mret (inl e)
  | inr b => file_call;; mret (read_states b)
  end.

(** [tbl[key] = entry{value: state}] for each entry. *)
Definition fill_table (l : list (string * mapstr)) (t : table) : table :=
  foldl (λ t kv, <[ kv.1 := mkEntry kv.2 ]> t) t l.

Definition loadDataFile (name : string) (t : table) : IO (option goerr * table) :=
  if decide (name = "") then mret (None, t) else
  r ← readDataFile name;
  mret (match r with
        | inl e => (Some e, t)
        | inr l => (None, fill_table l t)
        end).

(** The loop of [readLogFile] over the decoder's input, with the callback's
    state [S].  Each round reads at least one byte. *)
Section read_log.
Context {S : Type} (fn : op → Z → S → outcome (option goerr * S)).

Fixpoint readLog_loop (fuel : nat) (b : bytes) (st : S) : outcome (option goerr * S) :=
  match fuel with
  | 0 => OutOfFuel
  | Datatypes.S fuel =>
    if more b then
      match parse b with
      | None => Done (Some errDecode, st)
      | Some (j, b) =>
        match decode_action j with
        | None => Done (Some errDecode, st)
        | Some act =>
          match parse b with
          | None => Done (Some errDecode, st)
          | Some (j, b) =>
            match decode_op (Op act) j with
            | None => Done (Some errDecode, st)
            | Some o =>
              r ← fn o (ID act) st;
              match r with
              | (Some e, st) => Done (Some e, st)
              | (None, st) => readLog_loop fuel b st
              end
            end
          end
        end
      end
    else Done (None, st)
  end.

(** A failed open other than "not exist" leaves a nil file, which reads as empty. *)
Definition readLogFile (st : S) : IO (option goerr * S) :=
  r ← os_read logFileName;
  match r with
  | inl e =>
    if isNotExist (Some e) then mret (None, st) else
    io_lift (readLog_loop 1 [] st)
  | inr b => file_call;; io_lift (readLog_loop (Datatypes.S (length b)) b st)
  end.
End read_log.

(** The callback of [loadLogFile]: the memory store, the last ID and the count. *)
Definition log_state : Type := memstore * Z * Z.
Definition apply_entry (o : op) (id : Z) (st : log_state) : outcome (option goerr * log_state) :=
  let '(m, txid, entries) := st in
  if isTxIDLessEqual id txid then Done (None, st)
  else if decide (id = uinc txid) then
    match o with
    | opSet k v => m ← mem_Set k v m; Done (None, (m, id, uinc entries))
    | opRemove k => Done (None, ((mem_Remove k m).2, id, uinc entries))
    end
  else Done (Some errTxIDInvalid, st).

Definition loadLogFile (m : memstore) (txid : Z) : IO (option goerr * log_state) :=
  readLogFile apply_entry (m, txid, 0%Z).
