(* ===== verification/Memlog.v ===== *)
(** * The memlog backend (store.go, memlog.go)

    Reads and writes of a store run under its lock, so that an operation is one
    step. *)

From stdpp Require Import base gmap strings list fin_maps.
From Stdlib Require Import ZArith Lia.
From S2P Require Import Prelude GoValue Json Fs Txid DiskData Diskstore.
Import Util.

Record store := mkStore { disk : diskstore; mem : memstore }.

#[local] Open Scope go_scope.

(** ** Opening a store *)
Section open.
Context `{JsonEncoder}.

(** The home directory and its meta file. *)
Definition open_home (mode : Z) : IO (goerr + unit) :=
  fi ← os_stat_home;
  match fi with
  | inl e =>
    if isNotExist (Some e) then
      try os_mkdir_home;
      try writeMetaFile mode;
      mret (inr tt)
    else io_panic "invalid memory address or nil pointer dereference"
  | inr false => mret (inl (errText "not a directory"))
  | inr true =>
    err ← pathEnsurePermissions metaFileName mode;
    try mret (wrap_err "failed to update meta file permissions" err);
    mret (inr tt)
  end.

Fixpoint ensure_all (mode : Z) (l : list dataFileInfo) : IO (option goerr) :=
  match l with
  | [] => mret None
  | df :: l =>
    err ← pathEnsurePermissions (path df) mode;
    match err with
    | Some e => mret (wrap_err "failed to update data file permissions" (Some e))
    | None => ensure_all mode l
    end
  end.

(** The newest data file: its table, its ID, and the error of reading it, unless
    it is corrupt; then it is renamed. *)
Definition load_newest (dataFiles : list dataFileInfo) : IO (goerr + table * Z) :=
  match last dataFiles with
  | None => mret (inr (∅, 0%Z))
  | Some active =>
    r ← loadDataFile (path active) ∅;
    match r with
    | (Some e, tbl) =>
      if errors_is e ErrCorruptStore then
        os_rename (path active) (path active +:+ ".corrupted")%string;;
        mret (inr (tbl, txid active))
      else mret (inl e)
    | (None, tbl) => mret (inr (tbl, txid active))
    end
  end.

(** The rest of [openStore], in a home directory that exists. *)
Definition open_files (home : string) (mode : Z) (bufSz : nat) (ignoreVersionCheck : bool)
    (checkpoint : Z → bool) : IO (goerr + store) :=
  _ ←? (if ignoreVersionCheck then mret (inr tt) else
          meta ←? readMetaFile;
          try mret (checkMeta meta);
          mret (inr tt));
  err ← pathEnsurePermissions activeDataFileName mode;
  try mret (wrap_err "failed to update active file permissions" err);
  dataFiles ←? listDataFiles;
  try ensure_all mode dataFiles;
  err ← pathEnsurePermissions logFileName mode;
  try mret (wrap_err "failed to update log file permissions" err);
  r ←? load_newest dataFiles;
  let '(tbl, txid) := r in
  r ← loadLogFile (mkMem (Some tbl)) txid;
  let '(err, (m, txid, entries)) := r in
  d ←? newDiskStore home dataFiles txid mode entries (bool_decide (err ≠ None)) bufSz checkpoint;
  mret (inr (mkStore d m)).

Definition openStore (home : string) (mode : Z) (bufSz : nat) (ignoreVersionCheck : bool)
    (checkpoint : Z → bool) : IO (goerr + store) :=
  _ ←? open_home mode;
  open_files home mode bufSz ignoreVersionCheck checkpoint.

(** ** Operations *)
Context {V : Type} `{TypeConv V} (iterate : table → list (string * entry)).

Definition store_Close (s : store) : IO (option goerr * store) :=
  r ← Close (disk s);
  mret (r.1, mkStore r.2 (mkMem None)).

Definition Has (s : store) (key : string) : bool := mem_Has (mem s) key.

Definition Decode (e : entry) (to : V) : goerr + V := convert_from_map (value e) to.

Definition Get (s : store) (key : string) (to : V) : goerr + V :=
  match mem_Get (mem s) key with
  | None => inl errKeyUnknown
  | Some dec => Decode dec to
  end.

Definition logOperation (o : op) (s : store) : IO (option goerr * store) :=
  if mustCheckpoint (disk s) then
    r ← WriteCheckpoint iterate (default ∅ (mtable (mem s))) (disk s);
    match r with
    | (Some e, d) => r ← LogOperation o d; mret (Some e, mkStore r.2 (mem s))
    | (None, d) => mret (None, mkStore d (mem s))
    end
  else
    r ← LogOperation o (disk s);
    mret (r.1, mkStore r.2 (mem s)).

Definition store_Set (key : string) (v : V) (s : store) : IO (option goerr * store) :=
  match convert_to_map v with
  | inl e => mret (Some e, s)
  | inr tmp =>
    m ← io_lift (mem_Set key tmp (mem s));
    logOperation (opSet key tmp) (mkStore (disk s) m)
  end.

Definition store_Remove (key : string) (s : store) : IO (option goerr * store) :=
  logOperation (opRemove key) (mkStore (disk s) (mem_Remove key (mem s)).2).

Definition Checkpoint (s : store) : IO (option goerr * store) :=
  r ← WriteCheckpoint iterate (default ∅ (mtable (mem s))) (disk s);
  mret (r.1, mkStore r.2 (mem s)).

(** [Each]: [fn] has the state [X]; it stops the loop with false or an error. *)
Fixpoint each_loop {X} (fn : string → entry → X → outcome (bool * option goerr * X))
    (l : list (string * entry)) (x : X) : outcome (option goerr * X) :=
  match l with
  | [] => Done (None, x)
  | (k, e) :: l =>
    r ← fn k e x;
    let '(cont, err, x) := r in
    if negb cont || bool_decide (err ≠ None) then Done (err, x) else each_loop fn l x
  end.
Definition Each {X} (fn : string → entry → X → outcome (bool * option goerr * X)) (s : store) (x : X)
    : outcome (option goerr * X) :=
  each_loop fn (iterate (default ∅ (mtable (mem s)))) x.
End open.

(** ** The registry (memlog.go) *)
Module Registry.

Record Settings := mkSettings {
  Root : string;
  FileMode : Z;
  BufferSize : nat;
  CheckpointPred : option (Z → bool);
  IgnoreVersionCheck : bool
}.

Definition defaultFileMode : Z := 384.
Definition defaultBufferSize : nat := 4 * 1024.
Definition defaultCheckpoint (filesize : Z) : bool :=
  let limit := Z.shiftl 10 20 in bool_decide (limit ≤ filesize)%Z.

(** [wg] is the counter of the wait group; no code adds to it. *)
Record registry := mkRegistry { active : bool; settings : Settings; wg : nat }.

(** [abs] is [filepath.Abs]. *)
Definition New (abs : string → goerr + string) (s : Settings) : goerr + registry :=
  let mode := if decide (FileMode s = 0%Z) then defaultFileMode else FileMode s in
  let pred := match CheckpointPred s with None => defaultCheckpoint | Some p => p end in
  let bufsz := if decide (BufferSize s = 0) then defaultBufferSize else BufferSize s in
  match abs (Root s) with
  | inl e => inl e
  | inr root => inr (mkRegistry true (mkSettings root mode bufsz (Some pred) (IgnoreVersionCheck s)) 0)
  end.

(** The world is the directory [filepath.Join(root, name)]. *)
Definition Access `{JsonEncoder} (r : registry) (name : string) : IO (goerr + store) :=
  if active r then
    match CheckpointPred (settings r) with
    | None => io_panic "invalid memory address or nil pointer dereference"
    | Some pred =>
      openStore (pathJoin (Root (settings r)) name) (FileMode (settings r)) (BufferSize (settings r))
        (IgnoreVersionCheck (settings r)) pred
    end
  else mret (inl errRegClosed).

(** [None]: blocked in [wg.Wait]. *)
Definition Close (r : registry) : option (option goerr * registry) :=
  if decide (wg r = 0) then Some (None, mkRegistry false (settings r) (wg r)) else None.

End Registry.
