(* ===== verification/LogFacts.v ===== *)
(** * Reading the update log

    [reads b recs t]: the records a log's text holds and how it ends; how it
    grows by a record, by a torn record, and what replaying it gives. *)

From stdpp Require Import base gmap strings list fin_maps.
From Stdlib Require Import ZArith Lia.
From S2P Require Import Prelude GoValue Json JsonFacts Fs Txid DiskData Diskstore.

(** The end of the text: at the end of the file, at a closing bracket, which
    [Decoder.More] takes for the end, or at text that does not decode. *)
Inductive tail := TEnd | TStray | TBad.

Inductive reads : bytes → list (op * Z) → tail → Prop :=
| reads_end b : skip_ws b = [] → reads b [] TEnd
| reads_stray b : more b = false → skip_ws b ≠ [] → reads b [] TStray
| reads_bad_action b : more b = true →
    (j ← parse b; decode_action j.1) = None → reads b [] TBad
| reads_bad_op b j b1 act : more b = true → parse b = Some (j, b1) → decode_action j = Some act →
    (j ← parse b1; decode_op (Op act) j.1) = None → reads b [] TBad
| reads_record b j1 b1 act j2 b2 o recs t : more b = true →
    parse b = Some (j1, b1) → decode_action j1 = Some act →
    parse b1 = Some (j2, b2) → decode_op (Op act) j2 = Some o →
    reads b2 recs t → reads b ((o, ID act) :: recs) t.

(** Every text reads in one way. *)
Lemma reads_total b : ∃ recs t, reads b recs t.
Proof.
  remember (length b) as n eqn:Hn. revert b Hn. induction (lt_wf n) as [n _ IH]. intros b ->.
  destruct (more b) eqn:Hm.
  2:{ destruct (decide (skip_ws b = [])); eexists _, _; [by apply reads_end|by apply reads_stray]. }
  destruct (parse b) as [[j1 b1]|] eqn:E1.
  2:{ eexists _, _. apply reads_bad_action; [done|]. by rewrite E1. }
  destruct (decode_action j1) as [act|] eqn:Ea.
  2:{ eexists _, _. apply reads_bad_action; [done|]. by rewrite E1. }
  destruct (parse b1) as [[j2 b2]|] eqn:E2.
  2:{ eexists _, _. eapply reads_bad_op; [done..|]. by rewrite E2. }
  destruct (decode_op (Op act) j2) as [o|] eqn:Eo.
  2:{ eexists _, _. eapply reads_bad_op; [done..|]. by rewrite E2. }
  pose proof (parse_consumes _ _ _ E1). pose proof (parse_consumes _ _ _ E2).
  destruct (IH (length b2) ltac:(lia) b2 eq_refl) as (recs & t & Hr).
  eexists _, _. by eapply reads_record.
Qed.

Lemma more_nonempty b : more b = true → skip_ws b ≠ [].
Proof. unfold more. by destruct (skip_ws b). Qed.

Lemma reads_det b recs t recs' t' : reads b recs t → reads b recs' t' → recs = recs' ∧ t = t'.
Proof.
  intros H. revert recs' t'. induction H as [b He|b Hm Hn|b Hm Hb|b j b1 act Hm H1 Ha H2|
      b j1 b1 act j2 b2 o recs t Hm H1 Ha H2 Ho Hr IH]; intros recs' t' H';
    inversion H'; subst; try done;
    try (by match goal with H : more _ = true |- _ => apply more_nonempty in H end);
    try congruence; simplify_option_eq; try done.
  edestruct IH as [-> ->]; eauto.
Qed.

(** Records one by one through the callback, then the error of the tail. *)
Section feed.
Context {S : Type} (fn : op → Z → S → outcome (option goerr * S)).

Definition tail_err (t : tail) : option goerr := match t with TBad => Some errDecode | _ => None end.

Fixpoint feed (recs : list (op * Z)) (t : tail) (st : S) : outcome (option goerr * S) :=
  match recs with
  | [] => Done (tail_err t, st)
  | (o, id) :: recs =>
    r ← fn o id st;
    match r with
    | (Some e, st) => Done (Some e, st)
    | (None, st) => feed recs t st
    end
  end.

Lemma readLog_loop_reads b recs t fuel st : reads b recs t → length b < fuel →
  readLog_loop fn fuel b st = feed recs t st.
Proof.
  intros H. revert fuel st. induction H as [b He|b Hm Hn|b Hm Hb|b j b1 act Hm H1 Ha H2|
      b j1 b1 act j2 b2 o recs t Hm H1 Ha H2 Ho Hr IH];
    intros fuel st Hf; (destruct fuel as [|fuel]; [lia|]); cbn [readLog_loop feed].
  - assert (more b = false) as ->; [|done]. unfold more. by rewrite He.
  - by rewrite Hm.
  - rewrite Hm. destruct (parse b) as [[j1 b1]|]; [|done]. simpl in Hb. by rewrite Hb.
  - rewrite Hm, H1, Ha. destruct (parse b1) as [[j2 b2]|]; [|done]. simpl in H2. by rewrite H2.
  - rewrite Hm, H1, Ha, H2, Ho. pose proof (parse_consumes _ _ _ H1). pose proof (parse_consumes _ _ _ H2).
    destruct (fn o (ID act) st) as [[[e|] st']| |]; [done| |done|done].
    cbn [mbind outcome_bind]. apply IH. lia.
Qed.
End feed.

(** ** Texts of records *)

(** The decoded part of a record is an object or null, so that its text ends
    where it ends, whatever follows. *)
Lemma decode_struct_not_number {A} (set : string → json → A → option A) j a x :
  decode_struct set j a = Some x → is_number j = false.
Proof. by destruct j. Qed.

Lemma decode_action_not_number j a : decode_action j = Some a → is_number j = false.
Proof. apply decode_struct_not_number. Qed.

Lemma decode_op_not_number name j o : decode_op name j = Some o → is_number j = false.
Proof.
  unfold decode_op. case_decide; [|case_decide; [|done]].
  - destruct (decode_struct _ _ _) eqn:E; [|done]. by apply decode_struct_not_number in E.
  - destruct (decode_struct _ _ _) eqn:E; [|done]. by apply decode_struct_not_number in E.
Qed.

Lemma skip_ws_idem b : skip_ws (skip_ws b) = skip_ws b.
Proof. induction b as [|c b IH]; simpl; [done|]. destruct (is_ws c) eqn:E; [done|]. simpl. by rewrite E. Qed.

Lemma reads_skip b b' recs t : skip_ws b = skip_ws b' → reads b recs t → reads b' recs t.
Proof.
  intros Hs H. pose proof (parse_skip _ _ Hs) as Hp. pose proof (more_skip _ _ Hs) as Hmo.
  inversion H; subst.
  - apply reads_end. congruence.
  - apply reads_stray; congruence.
  - apply reads_bad_action; congruence.
  - eapply reads_bad_op; eauto; congruence.
  - eapply reads_record; eauto; congruence.
Qed.

Lemma skip_ws_nil_app b q : skip_ws b = [] → skip_ws (b ++ q) = skip_ws q.
Proof. induction b as [|c b IH]; simpl; [done|]. destruct (is_ws c); [auto|done]. Qed.

Lemma more_app b q : more b = true → more (b ++ q) = true.
Proof.
  unfold more. destruct (skip_ws b) as [|c r] eqn:E; [done|]. by rewrite (skip_ws_cons _ _ _ _ E).
Qed.

(** A text that was read to its end continues with what is appended. *)
Lemma reads_app b recs q recs' t :
  reads b recs TEnd → reads q recs' t → reads (b ++ q) (recs ++ recs') t.
Proof.
  intros H Hq. remember TEnd as te eqn:Ht. induction H as [b He| | | |
      b j1 b1 act j2 b2 o recs t' Hm H1 Ha H2 Ho Hr IH]; try done.
  - simpl. eapply reads_skip; [|exact Hq]. symmetry. by apply skip_ws_nil_app.
  - simpl. eapply (reads_record _ j1 (b1 ++ q) act j2 (b2 ++ q)); [by apply more_app|..]; [|done| |done|auto].
    + eapply parse_extend; [done|]. right. by eapply decode_action_not_number.
    + eapply parse_extend; [done|]. right. by eapply decode_op_not_number.
Qed.

(** The text of one record: the action and the operation, each on a line. *)
Definition record_text (a o : bytes) : bytes := a ++ newline :: o ++ [newline].

Definition is_object (j : json) : bool := match j with JObj _ => true | _ => false end.

Lemma parse_object_start b j r : parse b = Some (j, r) → is_object j = true →
  ∃ b', skip_ws b = open_brace :: b'.
Proof.
  intros H Hj. unfold parse in H. remember (2 * length b + 2) as fuel eqn:Hf. clear Hf.
  destruct fuel as [|fuel]; [done|]. cbn [parse_value] in H.
  destruct (skip_ws b) as [|c b']; [done|]. exists b'. f_equal.
  destruct (bool_decide (c = open_brace)) eqn:E; [by apply bool_decide_eq_true in E|].
  repeat (case_match; simplify_option_eq; try done).
Qed.

Section record.
Context (a o : bytes) (ja jo : json) (act : logAction) (op' : op).
Context (Ha : parse a = Some (ja, [])) (Hja : is_object ja = true) (Hact : decode_action ja = Some act).
Context (Ho : parse o = Some (jo, [])) (Hjo : is_object jo = true) (Hop : decode_op (Op act) jo = Some op').

Lemma object_not_number j : is_object j = true → is_number j = false.
Proof. by destruct j. Qed.

Lemma object_more b j r : parse b = Some (j, r) → is_object j = true → more b = true.
Proof. intros H Hj. destruct (parse_object_start _ _ _ H Hj) as [b' E]. unfold more. by rewrite E. Qed.

Lemma parse_action_then q : parse (a ++ q) = Some (ja, q).
Proof. exact (parse_extend a q ja [] Ha (or_intror (object_not_number _ Hja))). Qed.

Lemma parse_op_then q : parse (newline :: o ++ q) = Some (jo, q).
Proof.
  rewrite (parse_skip _ (o ++ q)) by done.
  exact (parse_extend o q jo [] Ho (or_intror (object_not_number _ Hjo))).
Qed.

Lemma reads_record_then q recs t : reads q recs t → reads (a ++ newline :: o ++ q) ((op', ID act) :: recs) t.
Proof.
  intros Hq. eapply reads_record; [|apply parse_action_then|done|apply parse_op_then|done|done].
  apply more_app. by eapply object_more.
Qed.

Lemma reads_record_text : reads (record_text a o) [(op', ID act)] TEnd.
Proof. apply reads_record_then. by apply reads_end. Qed.

(** The proper prefixes of the text of an object do not decode. *)
Lemma reads_action_prefix p q : a = p ++ q → q ≠ [] → reads p [] TEnd ∨ reads p [] TBad.
Proof.
  intros E Hq. destruct (skip_ws p) as [|c p'] eqn:Hp; [left; by apply reads_end|]. right.
  apply reads_bad_action.
  - destruct (parse_object_start _ _ _ Ha Hja) as [a' Ea]. rewrite E in Ea.
    rewrite (skip_ws_cons _ _ _ _ Hp) in Ea. injection Ea as -> _. unfold more. by rewrite Hp.
  - rewrite (parse_prefix_none p q ja); [done| |done|by apply object_not_number]. by rewrite <-E.
Qed.

Lemma reads_op_prefix p q : o = p ++ q → q ≠ [] → reads (a ++ newline :: p) [] TBad.
Proof.
  intros E Hq. eapply reads_bad_op; [|apply parse_action_then|done|].
  - apply more_app. by eapply object_more.
  - rewrite (parse_skip _ p) by done.
    rewrite (parse_prefix_none p q jo); [done| |done|by apply object_not_number]. by rewrite <-E.
Qed.

(** A torn write of a record: nothing, garbage, or all of the record. *)
Lemma reads_torn p : p `prefix_of` record_text a o →
  (∃ t, reads p [] t ∧ t ≠ TStray) ∨ reads p [(op', ID act)] TEnd.
Proof.
  intros [q E]. unfold record_text in E.
  apply app_eq_inv in E as [(k & Ep & Eq)|(k & Ep & Eq)].
  - (* p ends in the action or at its end *)
    destruct k as [|c k].
    + rewrite app_nil_r in Ep. subst p. left. exists TBad. split; [|done].
      eapply reads_bad_op; [by eapply object_more|exact Ha|exact Hact|done].
    + left. destruct (reads_action_prefix p (c :: k) Ep) as [H|H]; [done|by exists TEnd|by exists TBad].
  - destruct k as [|c k].
    { rewrite app_nil_r in Ep. subst p. left. exists TBad. split; [|done].
      eapply reads_bad_op; [by eapply object_more|exact Ha|exact Hact|done]. }
    injection Eq as <- Eq. subst p.
    apply app_eq_inv in Eq as [(k' & Ek & Eq)|(k' & Ek & Eq)].
    + destruct k' as [|c' k'].
      * rewrite app_nil_r in Ek. subst k. right.
        rewrite <-(app_nil_r o) at 1. apply reads_record_then. by apply reads_end.
      * left. exists TBad. split; [|done]. by eapply reads_op_prefix.
    + right. subst k. apply reads_record_then. destruct k' as [|c k']; [by apply reads_end|].
      injection Eq as <- Eq. symmetry in Eq. apply app_eq_nil in Eq as [-> _]. by apply reads_end.
Qed.
End record.
