(* ===== verification/DiskFacts.v ===== *)
(** * What the files of a store mean

    The laws of the encoder, the text of a checkpoint, and the replay of a log
    over a data file. *)

From stdpp Require Import base gmap strings list fin_maps.
From Stdlib Require Import ZArith Lia.
From S2P Require Import Prelude GoValue Json JsonFacts Fs Txid DiskData Diskstore LogFacts.

(** ** The encoder's laws

    Encoding writes one JSON object, which decodes to the encoded value with its
    numbers as [float64]s.  [storable k v]: the values the encoder supports,
    those with the members' names and strings in UTF-8, without NaN or
    infinities, and without a member "_key" of their own. *)
Definition encodes `{JsonEncoder} (v : encodable) (P : json → Prop) : Prop :=
  ∃ chunks j, encode_chunks v = (chunks, true) ∧ parse (mjoin chunks) = Some (j, []) ∧
    is_object j = true ∧ P j.

Class EncoderLaws `{JsonEncoder} (storable : string → mapstr → Prop) (storable_key : string → Prop) := {
  encodes_action name id : name = opValSet ∨ name = opValRemove → (1 ≤ id < 2 ^ 64)%Z →
    encodes (EncAction (mkAction name id)) (λ j, decode_action j = Some (mkAction name id));
  encodes_set k v : storable k v →
    encodes (EncOp (opSet k v)) (λ j, decode_op opValSet j = Some (opSet k (as_json <$> v)));
  encodes_remove k : storable_key k →
    encodes (EncOp (opRemove k)) (λ j, decode_op opValRemove j = Some (opRemove k));
  encodes_entry k v : storable k v →
    encodes (EncEntry (mkStoreEntry k v)) (λ j, decode_state j = Some (<[ keyField := VStr k ]> (as_json <$> v)));
  encodes_meta : encodes (EncMeta (mkMeta storeVersion)) (λ j, decode_meta j = Some (mkMeta storeVersion));
  storable_no_key k v : storable k v → v !! keyField = None;
  storable_as_json k v : storable k v → storable k (as_json <$> v)
}.

(** ** Tables after a round trip *)
Definition entry_json (e : entry) : entry := mkEntry (as_json <$> value e).
Definition json_table (t : table) : table := entry_json <$> t.
Definition json_op (o : op) : op :=
  match o with
  | opSet k v => opSet k (as_json <$> v)
  | opRemove k => opRemove k
  end.

Lemma json_table_idem t : json_table (json_table t) = json_table t.
Proof.
  unfold json_table. rewrite <-map_fmap_compose. apply map_fmap_ext. intros k e _. simpl.
  unfold entry_json. simpl. by rewrite as_json_map_idem.
Qed.

(** ** Operations on the table and the replay of a log *)
Definition apply_op (o : op) (t : table) : table :=
  match o with
  | opSet k v => <[ k := mkEntry v ]> t
  | opRemove k => delete k t
  end.

Lemma json_table_apply o t : json_table (apply_op o t) = apply_op (json_op o) (json_table t).
Proof. destruct o as [k v|k]; simpl; unfold json_table; [by rewrite fmap_insert|by rewrite ?fmap_delete]. Qed.

Definition play1 (st : table * Z) (r : op * Z) : option (table * Z) :=
  if decide (0 ≤ r.2 ≤ st.2)%Z then Some st
  else if decide (r.2 = st.2 + 1)%Z then Some (apply_op r.1 st.1, r.2)
  else None.
Fixpoint play (recs : list (op * Z)) (st : table * Z) : option (table * Z) :=
  match recs with
  | [] => Some st
  | r :: recs => st ← play1 st r; play recs st
  end.

Lemma play_app recs recs' st : play (recs ++ recs') st = play recs st ≫= play recs'.
Proof. revert st. induction recs as [|r recs IH]; intros st; simpl; [done|]. destruct (play1 st r); [apply IH|done]. Qed.

Lemma play1_mono st r st' : play1 st r = Some st' → (0 ≤ st.2)%Z →
  (st.2 ≤ st'.2 ∧ 0 ≤ r.2 ≤ st'.2)%Z.
Proof. unfold play1. repeat case_decide; intros; simplify_eq/=; lia. Qed.

(** After a replay all IDs of the log are at most the last one. *)
Lemma play_ids recs st st' : play recs st = Some st' → (0 ≤ st.2)%Z →
  (st.2 ≤ st'.2)%Z ∧ Forall (λ r, 0 ≤ r.2 ≤ st'.2)%Z recs.
Proof.
  revert st. induction recs as [|r recs IH]; intros st; simpl; [intros [= ->] _; by split|].
  destruct (play1 st r) as [st1|] eqn:E; [|done]. simpl. intros Hp H0.
  apply play1_mono in E; [|done]. destruct (IH _ Hp) as [??]; [lia|]. split; [lia|].
  constructor; [lia|done].
Qed.

(** A log that holds no ID above a data file's does not change its table. *)
Lemma play_old recs t a : Forall (λ r, 0 ≤ r.2 ≤ a)%Z recs → play recs (t, a) = Some (t, a).
Proof.
  induction 1 as [|r recs Hr _ IH]; simpl; [done|]. unfold play1. simpl.
  by rewrite decide_True.
Qed.

Lemma uinc_small n : (0 ≤ n < 2 ^ 64 - 1)%Z → uinc n = (n + 1)%Z.
Proof. intros. unfold uinc, wrap. apply Z.mod_small. lia. Qed.

Lemma isTxIDLessEqual_play t id : (0 ≤ t < 2 ^ 63)%Z → (0 ≤ id < 2 ^ 63)%Z →
  isTxIDLessEqual id t = bool_decide (0 ≤ id ≤ t)%Z.
Proof. intros. rewrite isTxIDLessEqual_small by done. apply bool_decide_ext. lia. Qed.

(** The callback of [loadLogFile] replays. *)
Lemma feed_play recs tl t a t' a' n : play recs (t, a) = Some (t', a') → (0 ≤ a)%Z → (a' < 2 ^ 63)%Z →
  ∃ n', feed apply_entry recs tl (mkMem (Some t), a, n) = Done (tail_err tl, (mkMem (Some t'), a', n')).
Proof.
  revert t a n. induction recs as [|[o id] recs IH]; intros t a n; simpl.
  { intros [= -> ->] _ _. by exists n. }
  destruct (play1 (t, a) (o, id)) as [[t1 a1]|] eqn:E; [|done]. simpl. intros Hp H0 Ha'.
  destruct (play_ids _ _ _ Hp) as [Hle _]; [apply play1_mono in E; simpl in *; lia|].
  pose proof (play1_mono _ _ _ E H0) as Hm. simpl in Hm, Hle.
  rewrite isTxIDLessEqual_play by lia. unfold play1 in E. simpl in E.
  case_decide as H1; [rewrite bool_decide_eq_true_2 by done|rewrite bool_decide_eq_false_2 by done].
  - injection E as <- <-. cbn [mbind outcome_bind]. apply IH; auto.
  - case_decide as H2; [|done]. injection E as <- <-.
    rewrite decide_True by (rewrite uinc_small by lia; done).
    destruct o as [k v|k]; cbn [mbind outcome_bind mem_Set mtable].
    + apply IH; auto; lia.
    + assert ((mem_Remove k (mkMem (Some t))).2 = mkMem (Some (delete k t))) as ->.
      { unfold mem_Remove, mem_Has. simpl. case_bool_decide as Hk; [done|]. simpl.
        rewrite delete_id; [done|]. by rewrite <-eq_None_not_Some in Hk. }
      apply IH; auto; lia.
Qed.

(** ** The text of a checkpoint *)
Section checkpoint_text.
Context `{EncoderLaws storable storable_key}.

Definition text_of (v : encodable) : bytes := mjoin (encode_chunks v).1.

Lemma encodes_text v P : encodes v P →
  ∃ j, parse (text_of v) = Some (j, []) ∧ is_object j = true ∧ P j ∧ (encode_chunks v).2 = true.
Proof. intros (chunks & j & E & ? & ? & ?). exists j. unfold text_of. by rewrite E. Qed.

Definition entry_text (kv : string * entry) : bytes := text_of (EncEntry (mkStoreEntry kv.1 (value kv.2))).

(** What [write_entries] writes. *)
Fixpoint entries_text (first : bool) (l : list (string * entry)) : bytes :=
  match l with
  | [] => []
  | kv :: l => (if first then [newline] else [comma; newline]) ++ entry_text kv ++ entries_text false l
  end.
Definition states_text (l : list (string * entry)) : bytes :=
  open_bracket :: entries_text true l ++ [newline; close_bracket].

Definition states_storable (l : list (string * entry)) : Prop :=
  Forall (λ kv, storable kv.1 (value kv.2)) l.

Lemma entry_text_parses kv : storable kv.1 (value kv.2) →
  ∃ j, parse (entry_text kv) = Some (j, []) ∧ is_object j = true ∧
    decode_state j = Some (<[ keyField := VStr kv.1 ]> (as_json <$> value kv.2)).
Proof.
  intros Hs. destruct (encodes_text _ _ (encodes_entry _ _ Hs)) as (j & ? & ? & ? & _). by exists j.
Qed.

(** The elements of the array, after the first separator. *)
Lemma parse_entries kv l : states_storable (kv :: l) →
  ∃ fuel js, parse_elements fuel (newline :: entry_text kv ++ entries_text false l ++ [newline; close_bracket])
      = Some (js, []) ∧
    mapM decode_state js =
      Some ((λ kv : string * entry, <[ keyField := VStr kv.1 ]> (as_json <$> value kv.2)) <$> kv :: l).
Proof.
  revert kv. induction l as [|kv' l IH]; intros kv Hst; inversion Hst as [|?? Hkv Hl]; subst.
  - destruct (entry_text_parses _ Hkv) as (j & Hp & Hj & Hd). simpl.
    eapply (parse_extend _ [newline; close_bracket]) in Hp; [|right; by apply object_not_number].
    rewrite <-(parse_skip (newline :: _)) in Hp by done.
    unfold parse in Hp. eexists (S _), [j]. cbn [parse_elements]. rewrite Hp. split; [done|]. simpl. by rewrite Hd.
  - destruct (IH kv' Hl) as (fuel & js & He & Hm).
    destruct (entry_text_parses _ Hkv) as (j & Hp & Hj & Hd).
    set (rest := entries_text false (kv' :: l) ++ [newline; close_bracket]).
    eapply (parse_extend _ rest) in Hp; [|right; by apply object_not_number].
    rewrite <-(parse_skip (newline :: _)) in Hp by done. unfold parse in Hp.
    exists (S (fuel + (2 * length (newline :: entry_text kv ++ rest) + 2))), (j :: js).
    cbn [parse_elements].
    assert (parse_value (fuel + (2 * length (newline :: entry_text kv ++ rest) + 2)) (newline :: entry_text kv ++ rest)
      = Some (j, rest)) as ->.
    { eapply (proj1 (parse_enough _)); [|exact Hp]. lia. }
    assert (expect comma rest = Some (newline :: entry_text kv' ++ entries_text false l ++ [newline; close_bracket])) as Hc.
    { unfold rest. simpl. rewrite <-!app_assoc. done. }
    cbn [mbind option_bind fst snd]. rewrite Hc.
    assert (parse_elements (fuel + (2 * length (newline :: entry_text kv ++ rest) + 2))
       (newline :: entry_text kv' ++ entries_text false l ++ [newline; close_bracket]) = Some (js, [])) as ->.
    { pose proof (proj2 (proj2 (parse_extends fuel))) as Hx.
      specialize (Hx (fuel + (2 * length (newline :: entry_text kv ++ rest) + 2)) _ [] _ _ ltac:(lia) He).
      by rewrite !app_nil_r in Hx. }
    split; [done|]. simpl. rewrite Hd. simpl. simpl in Hm. by rewrite Hm.
Qed.

Lemma state_entry_insert k v : v !! keyField = None → state_entry (<[ keyField := VStr k ]> v) = Some (k, v).
Proof. intros Hv. unfold state_entry. rewrite lookup_insert_eq. by rewrite delete_insert_id. Qed.

Lemma omap_state_entries l : states_storable l →
  omap state_entry ((λ kv : string * entry, <[ keyField := VStr kv.1 ]> (as_json <$> value kv.2)) <$> l) =
  (λ kv : string * entry, (kv.1, as_json <$> value kv.2)) <$> l.
Proof.
  induction 1 as [|kv l Hkv Hl IH]; [done|]. rewrite !fmap_cons. cbn [omap list_omap].
  rewrite state_entry_insert; [by f_equal|].
  rewrite lookup_fmap. by rewrite (storable_no_key _ _ Hkv).
Qed.

Lemma read_states_text l : states_storable l →
  read_states (states_text l) = inr ((λ kv : string * entry, (kv.1, as_json <$> value kv.2)) <$> l).
Proof.
  intros Hst. unfold read_states, states_text. destruct l as [|kv l].
  { by rewrite (parse_array_end _ []). }
  destruct (parse_entries kv l Hst) as (fuel & js & He & Hm).
  replace (entries_text true (kv :: l) ++ [newline; close_bracket])
    with (newline :: entry_text kv ++ entries_text false l ++ [newline; close_bracket])
    by (simpl; by rewrite <-app_assoc).
  rewrite (parse_array_elements fuel _ js []); [|..|done].
  2:{ inversion Hst as [|?? Hkv Hl]; subst. destruct (entry_text_parses _ Hkv) as (j & Hp & Hj & _).
      destruct (parse_object_start _ _ _ Hp Hj) as [b' E]. unfold expect.
      change (skip_ws (newline :: ?x)) with (skip_ws x). by rewrite (skip_ws_cons _ _ _ _ E). }
  cbn [mbind option_bind fst decode_states]. rewrite Hm. f_equal. by apply omap_state_entries.
Qed.
End checkpoint_text.

(** Filling the table from all its entries, in any order. *)
Lemma fill_table_fresh l t : NoDup l.*1 → 
  fill_table l t = list_to_map ((λ kv : string * mapstr, (kv.1, mkEntry kv.2)) <$> l) ∪ t.
Proof.
  revert t. unfold fill_table. induction l as [|[k v] l IH]; intros t Hnd; simpl.
  { by rewrite (left_id_L ∅ (∪)). }
  inversion Hnd as [|?? Hk Hnd']; subst. rewrite IH by done.
  rewrite <-insert_union_l. symmetry. apply insert_union_r.
  apply not_elem_of_list_to_map_1. by rewrite <-list_fmap_compose.
Qed.

Lemma fill_table_entries (t : table) l : l ≡ₚ map_to_list t →
  fill_table ((λ kv : string * entry, (kv.1, as_json <$> value kv.2)) <$> l) ∅ = json_table t.
Proof.
  intros Hl. assert (NoDup l.*1) as Hnd by (rewrite Hl; apply NoDup_fst_map_to_list).
  rewrite fill_table_fresh by (by rewrite <-list_fmap_compose).
  rewrite (right_id_L ∅ (∪)), <-list_fmap_compose. unfold compose. simpl.
  transitivity (list_to_map ((λ kv : string * entry, (kv.1, entry_json kv.2)) <$> l) : table); [done|].
  unfold json_table.
  rewrite <-(list_to_map_to_list t) at 1. rewrite <-list_to_map_fmap.
  apply list_to_map_proper; [by rewrite <-list_fmap_compose|].
  rewrite Hl. apply reflexive_eq. apply list_fmap_ext. by intros i [k e] _.
Qed.
