(* ===== verification/DiskSpec.v ===== *)
(** * The disk store's writes under faults

    Specifications of encoding, logging and checkpointing: what each leaves in
    the directory, for every fault script. *)

From stdpp Require Import base gmap strings list fin_maps.
From Stdlib Require Import ZArith Lia.
From S2P Require Import Prelude GoValue Json JsonFacts Fs FsFacts Txid DiskData Diskstore LogFacts DiskFacts.
Import Util Bufio UtilFacts BufioFacts.

(** ** Encoding

    [P data ok fs w]: the writer [w] was given [data]; [ok]: without an error. *)
Section encode.
Context `{JsonEncoder} {W : Type} (write : bytes → W → IO (nat * option goerr * W)).
Context (q : bool) (P : bytes → bool → gmap string file → W → Prop).
Context (Hwrite : ∀ data ok fs p w, P data ok fs w →
  spec q (write p w) fs (λ '(_, err, w') fs', ∃ ok', (ok' = true → ok = true) ∧ (ok' = true ↔ err = None) ∧
    (q = true → ok' = ok) ∧ P (data ++ p) ok' fs' w')).
Context (Hfail : ∀ data fs p w, P data false fs w → P (data ++ p) false fs w).

(** The result of writing [p]: in short, [ok'] says whether all went well. *)
Definition encoded (data p : bytes) (ok : bool) (r : option goerr * W) (fs' : gmap string file) : Prop :=
  ∃ ok', (ok' = true → ok = true ∧ r.1 = None) ∧ (r.1 = None → ok' = ok) ∧ (q = true → ok' = ok) ∧
    P (data ++ p) ok' fs' r.2.

Lemma spec_write_chunks l : ∀ data ok fs w, P data ok fs w →
  spec q (write_chunks write l w) fs (encoded data (mjoin l) ok).
Proof.
  induction l as [|p l IH]; intros data ok fs w HP; cbn [write_chunks].
  { apply spec_ret. exists ok. simpl. rewrite app_nil_r. auto. }
  spec_step Hwrite; [done|]. intros [[n err] w'] fs' (ok' & Hok & Herr & Hq & HP').
  destruct err as [e|].
  - apply spec_ret. assert (ok' = false) as -> by (destruct ok'; [|done]; by destruct Herr as [Herr _]; specialize (Herr eq_refl)).
    exists false. simpl. rewrite app_assoc. split_and!; auto; done.
  - assert (ok' = true) as -> by by apply Herr. assert (ok = true) as -> by auto.
    eapply spec_mono; [by apply IH|]. intros [err w''] fs'' (ok'' & ? & ? & ? & HP'').
    exists ok''. cbn [mjoin list_join]. rewrite <-app_assoc in HP''. auto.
Qed.

Lemma spec_Encode v Pv data ok fs w : encodes v Pv → P data ok fs w →
  spec q (Encode write v w) fs (encoded data (text_of v) ok).
Proof.
  intros (chunks & j & E & _) HP. unfold Encode, text_of. rewrite E. simpl.
  spec_step spec_write_chunks; [done|]. intros [err w'] fs' Hr.
  destruct err; by apply spec_ret.
Qed.
End encode.

Lemma encoded_cases {W} q P data p ok r fs' : @encoded W q P data p ok r fs' → ok = true →
  (r.1 = None ∧ P (data ++ p) true fs' r.2) ∨
  (q = false ∧ (∃ e, r.1 = Some e) ∧ P (data ++ p) false fs' r.2).
Proof.
  intros (ok' & H1 & H2 & H3 & HP) ->. destruct r as [err w]. simpl in *. destruct ok'.
  - left. split; [by apply H1|done].
  - right. destruct err as [e|]; [|by specialize (H2 eq_refl)].
    destruct q; [by specialize (H3 eq_refl)|]. eauto.
Qed.

(** Writers of the log, which are counted. *)
Lemma spec_count_write q fs0 n md pre : ∀ data ok fs p (w : Z * writer), writing fs0 n md pre data ok fs w.2 →
  spec q (count_write p w) fs (λ '(_, err, w') fs', ∃ ok', (ok' = true → ok = true) ∧ (ok' = true ↔ err = None) ∧
    (q = true → ok' = ok) ∧ writing fs0 n md pre (data ++ p) ok' fs' w'.2).
Proof.
  intros data ok fs p [c b] Hw. unfold count_write, countWrite. spec_step spec_Write; [done|].
  intros [[k err] b'] fs' (ok' & ? & ? & ? & ?). apply spec_ret. eauto 10.
Qed.

Section writes.
Context `{EncoderLaws storable storable_key}.

Definition op_storable (o : op) : Prop :=
  match o with opSet k v => storable k v | opRemove k => storable_key k end.

Lemma encodes_op o : op_storable o → encodes (EncOp o) (λ j, decode_op (op_name o) j = Some (json_op o)).
Proof. destruct o as [k v|k]; simpl; [apply encodes_set|apply encodes_remove]. Qed.

Lemma op_name_cases o : op_name o = opValSet ∨ op_name o = opValRemove.
Proof. destruct o; auto. Qed.

(** The text of an operation with its ID. *)
Definition op_text (id : Z) (o : op) : bytes :=
  record_text (text_of (EncAction (mkAction (op_name o) id))) (text_of (EncOp o)).

Lemma op_text_torn id o p : op_storable o → (1 ≤ id < 2 ^ 64)%Z → p `prefix_of` op_text id o →
  (∃ t, reads p [] t ∧ t ≠ TStray) ∨ reads p [(json_op o, id)] TEnd.
Proof.
  intros Ho Hid Hp.
  destruct (encodes_text _ _ (encodes_action (op_name o) id (op_name_cases o) Hid)) as (ja & ? & ? & Ha & _).
  destruct (encodes_text _ _ (encodes_op o Ho)) as (jo & ? & ? & Hj & _).
  eapply (reads_torn _ _ ja jo (mkAction (op_name o) id)); eauto.
Qed.

Lemma op_text_reads id o : op_storable o → (1 ≤ id < 2 ^ 64)%Z → reads (op_text id o) [(json_op o, id)] TEnd.
Proof.
  intros Ho Hid.
  destruct (encodes_text _ _ (encodes_action (op_name o) id (op_name_cases o) Hid)) as (ja & ? & ? & Ha & _).
  destruct (encodes_text _ _ (encodes_op o Ho)) as (jo & ? & ? & Hj & _).
  eapply (reads_record_text _ _ ja jo (mkAction (op_name o) id)); eauto.
Qed.

Lemma spec_log_write q fs0 n md pre fs b id o : op_storable o → (1 ≤ id < 2 ^ 64)%Z →
  writing fs0 n md pre [] true fs b →
  spec q (log_write id o b) fs (λ '(err, (_, b')) fs', ∃ ok, writes_ok q ok err ∧
    writing fs0 n md pre (op_text id o) ok fs' b' ∧ (ok = true → buf b' = [])).
Proof.
  intros Ho Hid Hw. unfold log_write.
  set (P := λ data ok fs (w : Z * writer), writing fs0 n md pre data ok fs w.2).
  assert (Hfail : ∀ data fs p w, P data false fs w → P (data ++ p) false fs w)
    by (intros; by apply writing_failed_app).
  eapply spec_bind.
  { apply (spec_Encode count_write q P (spec_count_write q fs0 n md pre) Hfail _ _ [] true fs (0%Z, b)
      (encodes_action (op_name o) id (op_name_cases o) Hid)). exact Hw. }
  intros [err [c b1]] fs1 He. cbn beta. unfold op_text, record_text.
  set (ta := text_of (EncAction _)) in *. set (to := text_of (EncOp o)).
  destruct (encoded_cases _ _ _ _ _ _ _ He eq_refl) as [[Herr HP]|(-> & [e Herr] & HP)]; simpl in Herr, HP; subst err.
  2:{ apply spec_ret. exists false. split_and!; [done| |done]. by apply writing_failed_app. }
  spec_step spec_WriteByte; [done|]. intros [err2 b2] fs2 (ok2 & _ & _ & Hq2 & Hw2). simpl.
  eapply spec_bind.
  { apply (spec_Encode count_write q P (spec_count_write q fs0 n md pre) Hfail _ _ (ta ++ [newline]) ok2 fs2 (c, b2)
      (encodes_op o Ho)). exact Hw2. }
  intros [err3 [c3 b3]] fs3 (ok3 & Ht3 & Hn3 & Hq3 & HP3). cbn beta. fold to in HP3. unfold P in HP3. simpl in *.
  rewrite <-app_assoc in HP3. simpl in HP3.
  destruct err3 as [e|].
  { apply spec_ret. destruct ok3; [by destruct (Ht3 eq_refl)|]. exists false.
    split_and!; [|by rewrite app_comm_cons, app_assoc; apply writing_failed_app|done].
    split; [done|]. intros Hq. rewrite (Hq2 Hq) in Hq3. by specialize (Hq3 Hq). }
  spec_step spec_WriteByte; [done|]. intros [err4 b4] fs4 (ok4 & _ & _ & Hq4 & Hw4). simpl.
  rewrite <-app_assoc in Hw4. simpl in Hw4.
  destruct ok4.
  - spec_step spec_Flush; [done|]. intros [err5 b5] fs5 (ok5 & Hok5 & _ & Hw5 & _ & Hb5). apply spec_ret. eauto.
  - spec_step spec_Flush_failed; [done|]. intros [err5 b5] fs5 (Herr5 & -> & ->). apply spec_ret.
    exists false. split_and!; [|done|done]. split; [split; [done|by intros ?]|].
    intros Hq. rewrite (Hq2 Hq) in Hq3. rewrite (Hq3 Hq) in Hq4. by rewrite <-(Hq4 Hq).
Qed.

(** ** Checkpoint files *)
Lemma spec_write_entries q fs0 n md l : states_storable (storable := storable) l →
  ∀ first data fs b, writing fs0 n md [] data true fs b →
  spec q (write_entries first l b) fs (λ '(err, b') fs', ∃ ok, writes_ok q ok err ∧
    writing fs0 n md [] (data ++ entries_text first l) ok fs' b').
Proof.
  induction 1 as [|[k e] l Hkv Hl IH]; intros first data fs b Hw; cbn [write_entries entries_text].
  { apply spec_ret. exists true. rewrite app_nil_r. done. }
  spec_step spec_Write; [done|]. intros [[m err] b1] fs1 (ok1 & _ & Herr1 & Hq1 & Hw1).
  destruct err as [e1|].
  { apply spec_ret. destruct ok1; [by destruct Herr1 as [Herr1 _]; specialize (Herr1 eq_refl)|].
    exists false. split_and!.
    - split; [done|]. intros Hq. by specialize (Hq1 Hq).
    - rewrite app_assoc. by apply writing_failed_app. }
  assert (ok1 = true) as -> by by apply Herr1.
  eapply spec_bind.
  { eapply (spec_Encode Write q (writing fs0 n md []) (spec_Write q fs0 n md [])
      (λ d f p w, writing_failed_app fs0 n md [] d p f w) _ _ _ true _ _ (encodes_entry k (value e) Hkv)). done. }
  intros [err b2] fs2 He. cbn beta.
  destruct (encoded_cases _ _ _ _ _ _ _ He eq_refl) as [[Herr HP]|(-> & [e2 Herr] & HP)]; simpl in Herr, HP; subst err.
  - eapply spec_mono; [by apply IH|]. intros [err b3] fs3 (ok & ? & Hw3). exists ok. split; [done|].
    unfold entry_text at 1. simpl. by rewrite !app_assoc in *.
  - apply spec_ret. exists false. split; [done|].
    apply (writing_failed_app _ _ _ _ _ (entries_text false l)) in HP. unfold entry_text at 1. simpl.
    by rewrite !app_assoc in *.
Qed.

Lemma spec_write_states q (iterate : table → list (string * entry)) states fs0 n md fs b :
  states_storable (storable := storable) (iterate states) →
  writing fs0 n md [] [] true fs b →
  spec q (write_states iterate states b) fs (λ '(err, b') fs', ∃ ok, writes_ok q ok err ∧
    writing fs0 n md [] (states_text (iterate states)) ok fs' b' ∧ (ok = true → buf b' = [])).
Proof.
  intros Hst Hw. unfold write_states, states_text.
  spec_step spec_Write; [done|]. intros [[m err] b1] fs1 (ok1 & _ & Herr1 & Hq1 & Hw1).
  destruct err as [e1|].
  { apply spec_ret. destruct ok1; [by destruct Herr1 as [Herr1 _]; specialize (Herr1 eq_refl)|].
    exists false. split_and!; [|by apply (writing_failed_app _ _ _ _ ([] ++ [open_bracket]))|done].
    split; [done|]. intros Hq. by specialize (Hq1 Hq). }
  assert (ok1 = true) as -> by by apply Herr1.
  spec_step spec_write_entries; [done..|]. intros [err b2] fs2 (ok2 & Hok2 & Hw2). simpl in Hw2.
  destruct err as [e2|].
  { apply spec_ret. destruct ok2; [by destruct Hok2 as [[Hok2 _] _]; specialize (Hok2 eq_refl)|].
    exists false. split_and!; [done| |done]. by apply (writing_failed_app _ _ _ _ (open_bracket :: _)). }
  apply writes_ok_None_inv in Hok2 as ->.
  spec_step spec_Write; [done|]. intros [[m3 err] b3] fs3 (ok3 & _ & Herr3 & Hq3 & Hw3).
  destruct err as [e3|].
  { apply spec_ret. destruct ok3; [by destruct Herr3 as [Herr3 _]; specialize (Herr3 eq_refl)|].
    exists false. split_and!; [|done|done].
    split; [done|]. intros Hq. by specialize (Hq3 Hq). }
  assert (ok3 = true) as -> by by apply Herr3.
  eapply spec_mono; [by apply spec_Flush|]. intros [err b4] fs4 (ok & ? & _ & ? & _ & ?). eauto.
Qed.
End writes.
