(* ===== verification/DiskInv.v ===== *)
(** * The invariant of an open disk store

    [disk_inv]: how the state of a disk store and its directory represent the
    durable table, the one a later start of the program would load. *)

From stdpp Require Import base gmap strings list fin_maps.
From Stdlib Require Import ZArith Lia.
From S2P Require Import Prelude GoValue Json JsonFacts Fs FsFacts Txid DiskData Diskstore LogFacts DiskFacts DiskSpec.
Import Util Bufio UtilFacts BufioFacts.

(** ** Directories *)

(** Only the names in [l] changed. *)
Definition only (l : list string) (fs fs' : gmap string file) : Prop := ∀ n, n ∉ l → fs' !! n = fs !! n.

Lemma only_refl l fs : only l fs fs.
Proof. by intros n. Qed.
Lemma only_trans l fs1 fs2 fs3 : only l fs1 fs2 → only l fs2 fs3 → only l fs1 fs3.
Proof. intros H1 H2 n Hn. rewrite H2 by done. auto. Qed.
Lemma only_insert l n f fs : n ∈ l → only l fs (<[ n := f ]> fs).
Proof. intros Hn m Hm. rewrite lookup_insert_ne; [done|]. by intros ->. Qed.
Lemma only_delete l n fs : n ∈ l → only l fs (delete n fs).
Proof. intros Hn m Hm. rewrite lookup_delete_ne; [done|]. by intros ->. Qed.

Lemma only_writing l fs0 n md pre data ok fs b : n ∈ l → writing fs0 n md pre data ok fs b → only l fs0 fs.
Proof. intros Hn (p & -> & _). by apply only_insert. Qed.
#[export] Hint Resolve only_refl only_insert only_delete : go.

Definition is_data (n : string) : Prop := is_Some (data_id n).

Lemma not_data n : data_id n = None → ¬ is_data n.
Proof. intros H [x Hx]. congruence. Qed.
Lemma log_not_data : data_id logFileName = None. Proof. reflexivity. Qed.
Lemma meta_not_data : data_id metaFileName = None. Proof. reflexivity. Qed.

(** The files a start of the program reads: the meta file, the log and the data
    files.  Of these only old data files may go. *)
Definition view (o : option file) : option (bytes * bool) := (λ f, (content f, isRegular f)) <$> o.

Definition keeps_data (name : string) (fs fs' : gmap string file) : Prop :=
  view (fs' !! metaFileName) = view (fs !! metaFileName) ∧
  view (fs' !! name) = view (fs !! name) ∧
  ∀ n, is_data n → fs' !! n = None ∨ view (fs' !! n) = view (fs !! n).
Definition keeps (name : string) (fs fs' : gmap string file) : Prop :=
  keeps_data name fs fs' ∧ view (fs' !! logFileName) = view (fs !! logFileName).

Definition temp_names : list string := [checkpointTmpFileName; activeDataFileName; activeDataTmpFileName].

(** Closed facts about lists of names. *)
Ltac names := apply (bool_decide_unpack _); vm_compute; exact I.

Lemma keeps_data_only l name fs fs' : (name = "" ∨ is_data name) →
  Forall (λ n, data_id n = None ∧ n ≠ "" ∧ n ≠ metaFileName) l → only l fs fs' → keeps_data name fs fs'.
Proof.
  intros Hname Hl Ho. rewrite Forall_forall in Hl.
  assert (∀ n, is_data n → fs' !! n = fs !! n) as Hd.
  { intros n [i Hn]. apply Ho. intros Hin. destruct (Hl n Hin). congruence. }
  unfold keeps_data. split_and!.
  - rewrite Ho; [done|]. intros Hin. by destruct (Hl _ Hin) as (_ & _ & ?).
  - destruct Hname as [->|Hname]; [|by rewrite Hd].
    rewrite Ho; [done|]. intros Hin. by destruct (Hl _ Hin) as (_ & ? & _).
  - intros n Hn. right. by rewrite Hd.
Qed.

Lemma keeps_only name fs fs' : (name = "" ∨ is_data name) → only temp_names fs fs' → keeps name fs fs'.
Proof.
  intros Hname Ho. split.
  - eapply keeps_data_only; [done| |exact Ho]. repeat constructor; done.
  - rewrite Ho; [done|]. names.
Qed.

Lemma keeps_data_log name fs fs' : (name = "" ∨ is_data name) → only [logFileName] fs fs' → keeps_data name fs fs'.
Proof. intros Hname. apply keeps_data_only; [done|]. repeat constructor; done. Qed.

Lemma keeps_data_trans name fs1 fs2 fs3 : keeps_data name fs1 fs2 → keeps_data name fs2 fs3 → keeps_data name fs1 fs3.
Proof.
  intros (H1 & H3 & H4) (H1' & H3' & H4'). unfold keeps_data. split_and!; try congruence.
  intros n Hn. destruct (H4' n Hn) as [?|E]; [auto|]. destruct (H4 n Hn) as [E4|E4]; [left|right; congruence].
  rewrite E4 in E. by destruct (fs3 !! n).
Qed.

Lemma keeps_trans name fs1 fs2 fs3 : keeps name fs1 fs2 → keeps name fs2 fs3 → keeps name fs1 fs3.
Proof. intros [H1 H2] [H1' H2']. split; [by eapply keeps_data_trans|congruence]. Qed.

(** Text and type of a log that may be missing. *)
Definition log_content (fs : gmap string file) : bytes := file_content logFileName fs.

Lemma keeps_log_content name fs fs' : keeps name fs fs' → log_content fs' = log_content fs.
Proof.
  intros [_ H]. unfold log_content, file_content. destruct (fs' !! _), (fs !! _); simpl in H; congruence.
Qed.

(** ** Directories that can be opened *)
Definition meta_ok (o : option file) : Prop :=
  ∃ f j r, o = Some f ∧ isRegular f = true ∧ parse (content f) = Some (j, r) ∧
    decode_meta j = Some (mkMeta storeVersion).

Definition files_ok (fs : gmap string file) : Prop :=
  meta_ok (fs !! metaFileName) ∧
  ∀ n f, n = logFileName ∨ is_data n → fs !! n = Some f → isRegular f = true.

(** The newest data file: its name, its ID and its table; none when the
    directory has no data files. *)
Inductive newest (fs : gmap string file) : string → Z → table → Prop :=
| newest_none : (∀ n, is_data n → fs !! n = None) → newest fs "" 0 ∅
| newest_file name a f l : data_id name = Some a → (0 ≤ a)%Z →
    fs !! name = Some f → isRegular f = true → read_states (content f) = inr l →
    (∀ n i, data_id n = Some i → is_Some (fs !! n) → n = name ∨ (0 ≤ i < a)%Z) →
    newest fs name a (fill_table l ∅).

Lemma keeps_meta_ok name fs fs' : keeps_data name fs fs' → meta_ok (fs !! metaFileName) → meta_ok (fs' !! metaFileName).
Proof.
  intros (H & _) (f & j & r & E & Hreg & Hp & Hj). rewrite E in H.
  destruct (fs' !! metaFileName) as [f'|]; [|done]. simpl in H. injection H as Hc Hr.
  exists f', j, r. by rewrite Hc, Hr.
Qed.

Lemma keeps_files_ok name fs fs' : keeps_data name fs fs' →
  (∀ f, fs' !! logFileName = Some f → isRegular f = true) → files_ok fs → files_ok fs'.
Proof.
  intros Hk Hlog [Hm Hr]. split; [by eapply keeps_meta_ok|]. destruct Hk as (_ & _ & Hd).
  intros n f Hn Hf. destruct Hn as [->|Hn]; [auto|].
  destruct (Hd n Hn) as [?|E]; [congruence|]. rewrite Hf in E. destruct (fs !! n) as [f0|] eqn:E0; [|done].
  simpl in E. injection E as _ ->. eauto.
Qed.

Lemma keeps_newest fs fs' name a B : keeps_data name fs fs' → newest fs name a B → newest fs' name a B.
Proof.
  intros Hk Hn. destruct Hk as (_ & Hname & Hd).
  inversion Hn as [Hnone|name' a' f l Hid Ha Hf Hr Hrs Hmax]; subst.
  - apply newest_none. intros n Hdata. destruct (Hd n Hdata) as [?|E]; [done|].
    rewrite Hnone in E by done. by destruct (fs' !! n).
  - rewrite Hf in Hname. destruct (fs' !! name) as [f'|] eqn:Ef'; [|done]. simpl in Hname.
    injection Hname as Hc Hr'. rewrite <-Hc in Hrs. rewrite <-Hr' in Hr.
    eapply (newest_file _ _ _ f'); eauto. intros n i Hi [fn Hfn]. apply (Hmax n i Hi).
    destruct (Hd n) as [?|E]; [by exists i|congruence|]. rewrite Hfn in E. by destruct (fs !! n).
Qed.

Lemma newest_name fs name a B : newest fs name a B → name = "" ∨ is_data name.
Proof. intros H; inversion H; subst; [by left|right; by eexists]. Qed.

Lemma newest_id fs name a B : newest fs name a B → (0 ≤ a)%Z.
Proof. intros H; by inversion H. Qed.

(** All data files are older than [b], if the newest is. *)
Lemma newest_below fs name a B b : newest fs name a B → (a < b)%Z →
  ∀ n i, data_id n = Some i → is_Some (fs !! n) → (0 ≤ i < b)%Z.
Proof.
  intros H Hab n i Hi Hn. inversion H as [Hnone|name' a' f l Hid Ha Hf Hr Hrs Hmax]; subst.
  - rewrite Hnone in Hn by by exists i. by destruct Hn.
  - destruct (Hmax n i Hi Hn) as [->|?]; [|lia]. assert (i = a) as -> by congruence. lia.
Qed.

(** A directory that was not open: what a start of the program would load. *)
Definition dir_ok (fs : gmap string file) (T : table) (t : Z) : Prop :=
  files_ok fs ∧ ∃ name a B recs tl, newest fs name a B ∧
    reads (log_content fs) recs tl ∧ tl ≠ TStray ∧ play recs (B, a) = Some (T, t) ∧ json_table T = T.

(** ** Open stores *)
Definition handle_ok (d : diskstore) (fs : gmap string file) : Prop :=
  ∀ b, logFile d = Some b → h_name (out b) = logFileName ∧ is_Some (fs !! logFileName) ∧ 0 < size b ∧
    (werr b = None → buf b = []).

(** [M] is the table in memory, [D] the durable one.  Unless the log is
    invalid, they are the same up to encoding, and the log ends where the next
    record goes. *)
Record disk_inv (d : diskstore) (M : table) (fs : gmap string file) (D : table)
    (name : string) (a : Z) (B : table) (recs : list (op * Z)) (tl : tail) (t : Z) : Prop := {
  inv_files : files_ok fs;
  inv_newest : newest fs name a B;
  inv_active : path (activeDataFile d) = name ∧ (name ≠ "" → txid (activeDataFile d) = a);
  inv_old : Forall (λ i, data_id (path i) = Some (txid i) ∧ path i ≠ name ∧ (txid i < nextTxID d)%Z)
              (oldDataFiles d);
  inv_reads : reads (log_content fs) recs tl;
  inv_stray : tl ≠ TStray;
  inv_play : play recs (B, a) = Some (D, t);
  inv_next : (a < nextTxID d ∧ t ≤ nextTxID d)%Z;
  inv_json : json_table D = D;
  inv_truncate : logNeedsTruncate d = true → logFile d = None ∧ Forall (λ r, 0 ≤ r.2 ≤ a)%Z recs;
  inv_handle : handle_ok d fs;
  inv_valid : logInvalid d = false → D = json_table M ∧ (t + 1 = nextTxID d)%Z ∧
    (logNeedsTruncate d = false → tl = TEnd ∧
       ∀ b, logFile d = Some b → h_pos (out b) = length (log_content fs) ∧ werr b = None)
}.

(** The same, without the details of the log. *)
Definition disk_ok (d : diskstore) (M : table) (fs : gmap string file) (D : table) : Prop :=
  ∃ name a B recs tl t, disk_inv d M fs D name a B recs tl t.

(** What an update may do to the durable table: it is the old one or that of the
    new memory table, and the latter if no error was returned. *)
Definition durable_step (err : option goerr) (D D' : table) (M : table) : Prop :=
  (D' = D ∨ D' = json_table M) ∧ (err = None → D' = json_table M).

Lemma durable_same e D M : durable_step (Some e) D D M.
Proof. by split; [left|]. Qed.
Lemma durable_new err D M : durable_step err D (json_table M) M.
Proof. by split; [right|]. Qed.
#[export] Hint Resolve durable_same durable_new : go.

Lemma play_t_nonneg fs name a B recs D t : newest fs name a B → play recs (B, a) = Some (D, t) → (a ≤ t)%Z.
Proof. intros Hn Hp. apply newest_id in Hn. by apply play_ids in Hp as [? _]. Qed.

Lemma disk_inv_next d M fs D name a B recs tl t : disk_inv d M fs D name a B recs tl t → (1 ≤ nextTxID d)%Z.
Proof. intros Hi. pose proof (newest_id _ _ _ _ (inv_newest _ _ _ _ _ _ _ _ _ _ Hi)).
  pose proof (inv_next _ _ _ _ _ _ _ _ _ _ Hi). lia. Qed.

(** Temporary files do not matter. *)
Lemma disk_inv_keeps d M fs fs' D name a B recs tl t :
  keeps name fs fs' → disk_inv d M fs D name a B recs tl t → disk_inv d M fs' D name a B recs tl t.
Proof.
  intros Hk Hi. pose proof (keeps_log_content _ _ _ Hk) as Hl. destruct Hi. split; auto.
  - eapply keeps_files_ok; [apply Hk| |done]. intros f Hf. destruct Hk as [_ Hv]. rewrite Hf in Hv.
    destruct inv_files0 as [_ Hr]. destruct (fs !! logFileName) as [f0|] eqn:E; [|done].
    injection Hv as _ ->. eapply Hr; [by left|done].
  - eapply keeps_newest; [apply Hk|done].
  - by rewrite Hl.
  - intros b Hb. destruct (inv_handle0 b Hb) as (? & [f Hf] & ? & ?). split_and!; auto.
    destruct Hk as [_ Hlog]. rewrite Hf in Hlog. by destruct (fs' !! logFileName).
  - rewrite Hl. auto.
Qed.

Lemma disk_ok_only d M fs fs' D : only temp_names fs fs' → disk_ok d M fs D → disk_ok d M fs' D.
Proof.
  intros Ho (name & a & B & recs & tl & t & Hi). do 6 eexists. eapply disk_inv_keeps; [|done].
  apply keeps_only; [|done]. by eapply newest_name, inv_newest.
Qed.

