(* ===== verification/DiskOps.v ===== *)
(** * Logging and checkpointing keep the invariant

    For every fault script: [LogOperation] and [WriteCheckpoint] keep
    [disk_ok], and an update takes the durable table to the new one, all or
    nothing. *)

From stdpp Require Import base gmap strings list fin_maps.
From Stdlib Require Import ZArith Lia.
From S2P Require Import Prelude GoValue Json JsonFacts Fs FsFacts Txid DiskData Diskstore LogFacts DiskFacts DiskSpec DiskInv.
Import Util Bufio UtilFacts BufioFacts.

(** The log after opening it. *)
Definition log_opened (trunc : bool) (fs fs' : gmap string file) : Prop :=
  ∃ f, fs' = <[ logFileName := f ]> fs ∧ isRegular f = true ∧
    content f = if trunc then [] else log_content fs.

Definition log_state_opened (s : diskstore) (f : file) (s' : diskstore) : Prop :=
  ∃ size entries, s' = setLogStats size entries (setLogNeedsTruncate false (setLogFile
    (Some (NewWriterSize (mkHandle logFileName (length (content f))) (bufferSize s))) s)).

Lemma opened_log fs mode trunc f :
  opened true trunc mode (fs !! logFileName) = Some f → log_opened trunc fs (<[ logFileName := f ]> fs).
Proof.
  intros Hf. exists f. unfold log_content, file_content. destruct (fs !! logFileName) as [f0|]; simpl in Hf.
  - destruct (isRegular f0) eqn:Hr; [|done]. injection Hf as <-. by destruct trunc.
  - injection Hf as <-. split_and!; [done|apply created_isRegular|by destruct trunc].
Qed.

Lemma spec_tryOpenLog q s fs :
  (∀ f, fs !! logFileName = Some f → isRegular f = true) →
  spec q (tryOpenLog s) fs (λ '(err, s') fs',
    (∃ f, err = None ∧ log_opened (logNeedsTruncate s) fs fs' ∧ fs' !! logFileName = Some f ∧
       log_state_opened s f s') ∨
    (q = false ∧ (∃ e, err = Some e) ∧ s' = s ∧ (fs' = fs ∨ log_opened (logNeedsTruncate s) fs fs'))).
Proof.
  intros Hreg. unfold tryOpenLog. spec_step spec_os_open. intros r fs1 Hr.
  destruct Hr as [(f & Hf & -> & ->)|[(Hf & -> & ->)|(e & -> & -> & -> & _)]].
  2:{ exfalso. destruct (fs !! logFileName) as [f0|] eqn:E; simpl in Hf; [|done]. by rewrite Hreg in Hf. }
  2:{ apply spec_ret. right. eauto 10. }
  pose proof (opened_log _ _ _ _ Hf) as Ho.
  spec_step spec_seek_end. intros r fs1 [-> [->|(-> & e & ->)]].
  2:{ spec_step spec_file_call. intros _ ? [-> _]. apply spec_ret. right. eauto 10. }
  simpl. unfold file_content. rewrite lookup_insert_eq.
  assert (Hok : ∀ size entries, log_state_opened s f (setLogStats size entries (setLogNeedsTruncate false
    (setLogFile (Some (NewWriterSize (mkHandle logFileName (length (content f))) (bufferSize s))) s))))
    by (intros; by eexists _, _).
  destruct (logNeedsTruncate s) eqn:Htr.
  - eapply spec_bind; [by apply (spec_ret q _ _ (λ r fs', r = inr (0%Z, 0%Z) ∧ fs' = <[logFileName:=f]> fs))|].
    intros ? ? [-> ->]. apply spec_ret. left. exists f. rewrite lookup_insert_eq. auto.
  - eapply spec_bind.
    { spec_step spec_file_size. intros r ? [-> Hr]. apply spec_ret.
      instantiate (1 := λ r fs', fs' = <[logFileName:=f]> fs ∧
        ((∃ n, r = inr n) ∨ (q = false ∧ ∃ e, r = inl e))). cbn beta. split; [done|].
      destruct Hr as [->|(-> & e & ->)]; eauto. }
    intros r ? [-> [[[size entries] ->]|(-> & e & ->)]].
    + apply spec_ret. left. exists f. rewrite lookup_insert_eq. auto.
    + spec_step spec_file_call. intros _ ? [-> _]. apply spec_ret. right. eauto 10.
Qed.

Section ops.
Context `{EncoderLaws storable storable_key}.

(** Appending torn or whole text of the next record. *)
Lemma append_torn d fs fs' o p M D name a B recs tl t :
  disk_inv d M fs D name a B recs tl t → logInvalid d = false → logNeedsTruncate d = false →
  op_storable (storable := storable) (storable_key := storable_key) o →
  (nextTxID d < 2 ^ 63)%Z → p `prefix_of` op_text (nextTxID d) o →
  log_content fs' = log_content fs ++ p →
  (∃ tl', reads (log_content fs') recs tl' ∧ tl' ≠ TStray) ∨
  (reads (log_content fs') (recs ++ [(json_op o, nextTxID d)]) TEnd ∧
   play (recs ++ [(json_op o, nextTxID d)]) (B, a) = Some (json_table (apply_op o M), nextTxID d)).
Proof.
  intros Hi Hv Ht Ho Hid Hp Hc.
  pose proof (disk_inv_next _ _ _ _ _ _ _ _ _ _ Hi) as Hn1. destruct Hi.
  destruct (inv_valid Hv) as (-> & Htn & Htr). destruct (Htr Ht) as [-> _].
  rewrite Hc. destruct (op_text_torn (nextTxID d) o p Ho ltac:(lia) Hp) as [(tl & Hr & Htl)|Hr].
  - left. exists tl. split; [|done]. rewrite <-(app_nil_r recs). by apply reads_app.
  - right. split; [by apply reads_app|]. rewrite play_app, inv_play. simpl.
    unfold play1. simpl. rewrite decide_False by lia. rewrite decide_True by lia. simpl.
    by rewrite json_table_apply.
Qed.

Lemma files_ok_log fs fs' f name : (name = "" ∨ is_data name) → files_ok fs →
  only [logFileName] fs fs' → fs' !! logFileName = Some f → isRegular f = true → files_ok fs'.
Proof.
  intros Hname Hok Ho Hf Hr. eapply keeps_files_ok; [by eapply (keeps_data_log name)| |done].
  intros f' Hf'. congruence.
Qed.

Lemma log_opened_only trunc fs fs' : log_opened trunc fs fs' → only [logFileName] fs fs'.
Proof. intros (f & -> & _). apply only_insert. by apply list_elem_of_singleton. Qed.

Lemma log_opened_content trunc fs fs' : log_opened trunc fs fs' →
  log_content fs' = if trunc then [] else log_content fs.
Proof. intros (f & -> & _ & Hc). unfold log_content at 1, file_content. by rewrite lookup_insert_eq. Qed.

(** Opening the log, and truncating it when a checkpoint asked for it, keeps
    what is durable. *)
Lemma disk_inv_log_opened d d' fs fs' f M D name a B recs tl t :
  disk_inv d M fs D name a B recs tl t → logFile d = None →
  log_opened (logNeedsTruncate d) fs fs' → fs' !! logFileName = Some f → log_state_opened d f d' →
  logInvalid d = false →
  ∃ recs' tl' t', disk_inv d' M fs' D name a B recs' tl' t' ∧ logNeedsTruncate d' = false ∧
    logInvalid d' = false ∧ nextTxID d' = nextTxID d ∧
    logFile d' = Some (NewWriterSize (mkHandle logFileName (length (content f))) (bufferSize d)).
Proof.
  intros Hi Hlf Ho Hf (sz & en & ->) Hv. pose proof (newest_name _ _ _ _ (inv_newest _ _ _ _ _ _ _ _ _ _ Hi)) as Hname.
  pose proof (log_opened_content _ _ _ Ho) as Hc. pose proof (log_opened_only _ _ _ Ho) as Honly.
  assert (isRegular f = true ∧ content f = log_content fs') as [Hreg Hcf].
  { destruct Ho as (f' & -> & Hr & _). unfold log_content, file_content. rewrite lookup_insert_eq in *.
    by injection Hf as ->. }
  destruct Hi. destruct (inv_valid Hv) as (HD & Htn & Htr).
  assert (Hnew : newest fs' name a B) by (eapply keeps_newest; [by eapply keeps_data_log|done]).
  assert (Hfiles : files_ok fs') by (by eapply files_ok_log).
  assert (Hsize : 0 < size (NewWriterSize (mkHandle logFileName (length (content f))) (bufferSize d))).
  { simpl. unfold defaultBufSize. case_decide; lia. }
  assert (Hh : ∀ sz en, handle_ok (setLogStats sz en (setLogNeedsTruncate false (setLogFile
    (Some (NewWriterSize (mkHandle logFileName (length (content f))) (bufferSize d))) d))) fs').
  { intros ? ? b [= <-]. split_and!; [done|by rewrite Hf|done|done]. }
  destruct (logNeedsTruncate d) eqn:Ht.
  - destruct (inv_truncate eq_refl) as [_ Hids].
    pose proof (play_old _ B a Hids) as Hp. rewrite Hp in inv_play. injection inv_play as <- <-.
    exists [], TEnd, a. split_and!; try done.
    split; simpl; auto.
    + rewrite Hc. by apply reads_end.
    + done.
    + intros _. split_and!; auto. intros _. split; [done|]. intros b [= <-]. simpl. by rewrite Hcf.
  - exists recs, tl, t. split_and!; try done. split; simpl; auto; [by rewrite Hc|done|].
    intros _. split_and!; auto. intros _. split; [by apply Htr|]. intros b [= <-]. simpl. by rewrite Hcf.
Qed.

(** A failed opening may have truncated the log; the store becomes invalid. *)
Lemma disk_inv_open_failed d fs fs' M M' D name a B recs tl t :
  disk_inv d M fs D name a B recs tl t → logFile d = None →
  (fs' = fs ∨ log_opened (logNeedsTruncate d) fs fs') →
  ∃ recs' tl' t', disk_inv (setLogInvalid true d) M' fs' D name a B recs' tl' t'.
Proof.
  intros Hi Hlf Hfs. pose proof (newest_name _ _ _ _ (inv_newest _ _ _ _ _ _ _ _ _ _ Hi)) as Hname.
  destruct Hfs as [->|Ho].
  { exists recs, tl, t. destruct Hi; split; simpl; auto; done. }
  pose proof (log_opened_content _ _ _ Ho) as Hc. pose proof (log_opened_only _ _ _ Ho) as Honly.
  assert (∃ f, fs' !! logFileName = Some f ∧ isRegular f = true) as (f & Hf & Hreg).
  { destruct Ho as (f' & -> & Hr & _). exists f'. by rewrite lookup_insert_eq. }
  destruct Hi.
  assert (Hnew : newest fs' name a B) by (eapply keeps_newest; [by eapply keeps_data_log|done]).
  assert (Hfiles : files_ok fs') by (by eapply files_ok_log).
  destruct (logNeedsTruncate d) eqn:Ht.
  - destruct (inv_truncate eq_refl) as [_ Hids].
    pose proof (play_old _ B a Hids) as Hp. rewrite Hp in inv_play. injection inv_play as <- <-.
    exists [], TEnd, a. split; simpl; auto; try done; try lia.
    + rewrite Hc. by apply reads_end.
    + intros b Hb. simpl in Hb. congruence.
  - exists recs, tl, t. split; simpl; auto; try done; [by rewrite Hc|by rewrite Ht|].
    intros b Hb. simpl in Hb. congruence.
Qed.

(** Writing the record of [o] to an open log. *)
Lemma spec_log_append q d b fs M D name a B recs tl t o :
  disk_inv d M fs D name a B recs tl t → logInvalid d = false → logNeedsTruncate d = false →
  logFile d = Some b → op_storable (storable := storable) (storable_key := storable_key) o →
  (nextTxID d < 2 ^ 63 - 1)%Z →
  spec q (log_write (nextTxID d) o b) fs (λ '(err, (n, b')) fs', (q = true → err = None) ∧
    ∀ sz en, match err with
    | None => disk_ok (setNextTxID (uinc (nextTxID d)) (setLogStats sz en (setLogFile (Some b') d)))
                (apply_op o M) fs' (json_table (apply_op o M))
    | Some _ => ∃ D', disk_ok (setLogInvalid true (setLogStats sz en (setLogFile (Some b') d)))
                  (apply_op o M) fs' D' ∧ (D' = D ∨ D' = json_table (apply_op o M))
    end).
Proof.
  intros Hi Hv Ht Hb Ho Hid.
  pose proof (newest_name _ _ _ _ (inv_newest _ _ _ _ _ _ _ _ _ _ Hi)) as Hname.
  pose proof (disk_inv_next _ _ _ _ _ _ _ _ _ _ Hi) as Hn1.
  pose proof (inv_handle _ _ _ _ _ _ _ _ _ _ Hi b Hb) as (Hbn & [f Hf] & Hbs & Hbb).
  pose proof (inv_valid _ _ _ _ _ _ _ _ _ _ Hi Hv) as (HD & Htn & Htr). destruct (Htr Ht) as [Htl Hpos].
  destruct (Hpos b Hb) as [Hbp Hbw]. specialize (Hbb Hbw).
  assert (Hcf : log_content fs = content f) by (unfold log_content, file_content; by rewrite Hf).
  assert (Hreg : isRegular f = true).
  { destruct (inv_files _ _ _ _ _ _ _ _ _ _ Hi) as [_ Hregs]. apply (Hregs logFileName f); auto. }
  eapply spec_mono.
  { eapply (spec_log_write q fs logFileName (fmode f) (content f) fs b (nextTxID d) o Ho); [lia|].
    exists []. rewrite app_nil_r. rewrite insert_id by (rewrite Hf; by destruct f).
    rewrite Hbb, Hbw. split_and!; auto; [|simpl; lia].
    destruct (out b) as [hn hp]. simpl in *. by rewrite Hbn, Hbp, Hcf. }
  intros [err [n b']] fs' (ok & Hok & Hw & Hbuf).
  split.
  { intros Hq. destruct err; [|done]. apply writes_ok_Some_inv in Hok as [_ ->]. done. }
  intros sz en.
  destruct (writing_file _ _ _ _ _ _ _ _ Hw) as (p & Hp & Hfs' & Hpall).
  assert (Hc' : log_content fs' = log_content fs ++ p).
  { rewrite Hfs', Hcf. unfold log_content, file_content. by rewrite lookup_insert_eq. }
  assert (Honly : only [logFileName] fs fs').
  { rewrite Hfs'. apply only_insert. by apply list_elem_of_singleton. }
  assert (Hnew : newest fs' name a B) by (eapply keeps_newest; [by eapply keeps_data_log|by eapply inv_newest]).
  assert (Hf' : fs' !! logFileName = Some (mkFile (content f ++ p) (fmode f))).
  { by rewrite Hfs', lookup_insert_eq. }
  assert (Hfiles : files_ok fs').
  { eapply files_ok_log; [done|by eapply inv_files|done|done|]. done. }
  pose proof (append_torn _ _ fs' o p _ _ _ _ _ _ _ _ Hi Hv Ht Ho ltac:(lia) Hp Hc') as Hreads.
  assert (Hout : h_name (out b') = logFileName ∧ 0 < size b' ∧ h_pos (out b') = length (log_content fs') ∧
     if ok then werr b' = None else is_Some (werr b')).
  { destruct Hw as (p' & E' & Ho' & Hs' & _ & He'). rewrite Ho'. simpl. split_and!; auto.
    - rewrite E'. unfold log_content, file_content. by rewrite lookup_insert_eq.
    - destruct ok; by destruct He'. }
  destruct Hout as (Hbn' & Hbs' & Hbp' & He').
  destruct err as [e|].
  - apply writes_ok_Some_inv in Hok as [-> ->].
    destruct Hreads as [(tl' & Hr & Htl')|[Hr Hpl]].
    + exists D. split; [|by left]. exists name, a, B, recs, tl', t. destruct Hi; split; simpl; auto; try done.
      * intros Htrue. by rewrite Ht in Htrue.
      * intros b0 [= <-]. split_and!; auto; try (by rewrite Hf'). all: try (intros E; rewrite E in He'; by destruct He').
    + exists (json_table (apply_op o M)). split; [|by right].
      exists name, a, B, (recs ++ [(json_op o, nextTxID d)]), TEnd, (nextTxID d).
      destruct Hi; split; simpl; auto; try done; try lia.
      * apply json_table_idem.
      * intros Htrue. by rewrite Ht in Htrue.
      * intros b0 [= <-]. split_and!; auto; try (by rewrite Hf'). all: try (intros E; rewrite E in He'; by destruct He').
  - apply writes_ok_None_inv in Hok as ->. specialize (Hpall eq_refl (Hbuf eq_refl)). subst p.
    assert (reads (log_content fs') (recs ++ [(json_op o, nextTxID d)]) TEnd) as Hr.
    { rewrite Hc'. apply reads_app; [subst tl; by eapply inv_reads|]. apply op_text_reads; [done|lia]. }
    destruct Hreads as [(tl' & Hr' & Htl')|[_ Hpl]].
    { destruct (reads_det _ _ _ _ _ Hr Hr') as [E _]. apply (f_equal length) in E.
      rewrite length_app in E. simpl in E. lia. }
    exists name, a, B, (recs ++ [(json_op o, nextTxID d)]), TEnd, (nextTxID d).
    rewrite uinc_small by lia.
    destruct Hi; split; simpl; auto; try done; try lia.
    + eapply Forall_impl; [exact inv_old|]. intros i (? & ? & ?). split_and!; auto; lia.
    + apply json_table_idem.
    + intros Htrue. by rewrite Ht in Htrue.
    + intros b0 [= <-]. split_and!; auto.
    + intros _. split_and!; [done|lia|]. intros _. split; [done|]. intros b0 [= <-]. done.
Qed.

Lemma disk_ok_invalid d M M' fs D : disk_ok d M fs D → logInvalid d = true → disk_ok d M' fs D.
Proof.
  intros (name & a & B & recs & tl & t & Hi) Hv. exists name, a, B, recs, tl, t.
  destruct Hi. split; auto. congruence.
Qed.

(** [LogOperation], whose caller has updated the memory table. *)
Lemma spec_LogOperation q d M fs D o :
  disk_ok d M fs D → op_storable (storable := storable) (storable_key := storable_key) o →
  (nextTxID d < 2 ^ 63 - 1)%Z →
  spec q (LogOperation o d) fs (λ '(err, d') fs', ∃ D',
    disk_ok d' (apply_op o M) fs' D' ∧ durable_step err D D' (apply_op o M) ∧
    (q = true → logInvalid d = false → err = None) ∧
    (nextTxID d' ≤ nextTxID d + 1)%Z ∧ (err ≠ None → nextTxID d' = nextTxID d)).
Proof.
  intros Hok Ho Hid. unfold LogOperation. destruct (logInvalid d) eqn:Hv.
  { apply spec_ret. exists D. split_and!; [by eapply disk_ok_invalid|auto with go|done|lia|done]. }
  destruct Hok as (name & a & B & recs & tl & t & Hi).
  pose proof (disk_inv_next _ _ _ _ _ _ _ _ _ _ Hi) as Hn1.
  eapply (spec_bind _ _ _ _ (λ '(err, s') fs1,
    (∃ recs' tl' t', err = None ∧ disk_inv s' M fs1 D name a B recs' tl' t' ∧ logNeedsTruncate s' = false ∧
       logInvalid s' = false ∧ nextTxID s' = nextTxID d ∧ is_Some (logFile s')) ∨
    (q = false ∧ (∃ e, err = Some e) ∧ s' = d ∧ ∀ M', ∃ recs' tl' t',
       disk_inv (setLogInvalid true d) M' fs1 D name a B recs' tl' t'))).
  { destruct (logFile d) as [b|] eqn:Hb.
    - apply spec_ret. left. exists recs, tl, t.
      assert (logNeedsTruncate d = false) as Ht; [|split_and!; eauto].
      destruct (logNeedsTruncate d) eqn:Ht; [|done].
      destruct (inv_truncate _ _ _ _ _ _ _ _ _ _ Hi Ht) as [? _]. congruence.
    - eapply spec_mono.
      { apply spec_tryOpenLog. intros f Hf. apply (proj2 (inv_files _ _ _ _ _ _ _ _ _ _ Hi) logFileName f); auto. }
      intros [err s'] fs1 [(f & -> & Hop & Hf & Hs')|(-> & Herr & -> & Hfs)].
      + left. destruct (disk_inv_log_opened _ _ _ _ _ _ _ _ _ _ _ _ _ Hi Hb Hop Hf Hs' Hv)
          as (recs' & tl' & t' & ? & ? & ? & ? & E). exists recs', tl', t'. rewrite E. eauto 10.
      + right. split_and!; auto. intros M'. by eapply disk_inv_open_failed. }
  intros [err s'] fs1 [(recs' & tl' & t' & -> & Hi' & Ht' & Hv' & Hn' & [b Hb])|(-> & [e ->] & -> & HM)].
  2:{ apply spec_ret. exists D. destruct (HM (apply_op o M)) as (recs' & tl' & t' & Hi').
      split_and!; [by do 6 eexists|auto with go|done|simpl; lia|done]. }
  rewrite Hb. rewrite <-Hn' in Hid. eapply spec_bind; [by eapply spec_log_append|].
  intros [err [n b']] fs2 [Hq Hres].
  specialize (Hres (wrap 64 (logFileSize s' + n))). destruct err as [e|]; apply spec_ret.
  - destruct (Hres (logEntries s')) as (D' & Hok & HD). exists D'.
    split_and!; [exact Hok|by split| |simpl; lia|simpl; lia].
    intros Hqt. by specialize (Hq Hqt).
  - specialize (Hres (uinc (logEntries s'))). exists (json_table (apply_op o M)).
    split_and!; [exact Hres|auto with go|done| |done].
    simpl. rewrite uinc_small; lia.
Qed.

(** ** Checkpoints *)
Context (iterate : table → list (string * entry)) (Hiterate : ∀ t, iterate t ≡ₚ map_to_list t).

Definition table_storable (M : table) : Prop := ∀ k e, M !! k = Some e → storable k (value e).

Lemma iterate_storable M : table_storable M → states_storable (storable := storable) (iterate M).
Proof.
  intros HM. unfold states_storable. rewrite Hiterate. apply Forall_forall. intros [k e] Hke.
  apply elem_of_map_to_list in Hke. by apply HM.
Qed.

Definition checkpoint_file (M : table) (f : file) : Prop :=
  isRegular f = true ∧ content f = states_text (iterate M).

Lemma spec_checkpointTmpFile q mode bufSize M fs : table_storable M →
  spec q (checkpointTmpFile iterate checkpointTmpFileName mode bufSize M) fs (λ r fs',
    only temp_names fs fs' ∧
    match r with
    | inr n => n = checkpointTmpFileName ∧ ∃ f, fs' !! checkpointTmpFileName = Some f ∧ checkpoint_file M f
    | inl _ => q = true → ∃ f, fs !! checkpointTmpFileName = Some f ∧ isRegular f = false
    end).
Proof.
  intros HM. unfold checkpointTmpFile. spec_step spec_os_open. intros r fs1 Hr.
  destruct Hr as [(f & Hf & -> & ->)|[(Hf & -> & ->)|(e & -> & -> & -> & _)]].
  2:{ apply spec_ret. split; [apply only_refl|]. intros _.
      destruct (fs !! checkpointTmpFileName) as [f|] eqn:E; simpl in Hf; [|done].
      exists f. by destruct (isRegular f). }
  2:{ apply spec_ret. split; [apply only_refl|done]. }
  assert (Hin : checkpointTmpFileName ∈ temp_names) by by left.
  assert (content f = [] ∧ isRegular f = true) as [Hfc Hfr].
  { destruct (fs !! checkpointTmpFileName) as [f0|]; simpl in Hf.
    - destruct (isRegular f0) eqn:Hr; [|done]. by injection Hf as <-.
    - injection Hf as <-. split; [done|apply created_isRegular]. }
  spec_step (spec_write_states q iterate M (<[ checkpointTmpFileName := f ]> fs) checkpointTmpFileName (fmode f)).
  { by apply iterate_storable. }
  { apply (writing_new _ checkpointTmpFileName (fmode f) []). rewrite lookup_insert_eq.
    destruct f; simpl in *; congruence. }
  intros [err b] fs2 (ok & Hok & Hw & Hb). simpl.
  assert (Ho : only temp_names fs fs2).
  { eapply only_trans; [by apply only_insert|]. by eapply only_writing. }
  assert (ok = true → ∃ f', fs2 !! checkpointTmpFileName = Some f' ∧ checkpoint_file M f') as Hfile.
  { intros ->. destruct (writing_file _ _ _ _ _ _ _ _ Hw) as (p & _ & -> & Hp).
    rewrite (Hp eq_refl (Hb eq_refl)). eexists. rewrite lookup_insert_eq. split; [done|]. by split. }
  destruct err as [e|].
  { apply writes_ok_Some_inv in Hok as [-> ->].
    eapply spec_bind; [by apply (spec_ret _ _ _ (λ r fs', r = Some e ∧ fs' = fs2))|]. intros ? ? [-> ->].
    spec_step spec_file_call. intros _ ? [-> _]. apply spec_ret. split; [done|done]. }
  apply writes_ok_None_inv in Hok as ->.
  spec_step spec_syncFile. intros err fs3 [-> Herr].
  destruct err as [e|].
  { spec_step spec_file_call. intros _ ? [-> _]. apply spec_ret. split; [done|].
    intros Hq. destruct Herr as [?|(? & _)]; [done|congruence]. }
  spec_step spec_file_call. intros err ? [-> Herr2]. apply spec_ret.
  destruct err as [e|]; (split; [done|]).
  - intros Hq. destruct Herr2 as [?|(? & _)]; [done|congruence].
  - auto.
Qed.

(** Moving the temporary file to its place makes the memory table durable. *)
Lemma newest_checkpoint fs name a B N f M : newest fs name a B → (a < N < 2 ^ 64)%Z → checkpoint_file M f →
  table_storable M →
  newest (<[ data_name N := f ]> (delete checkpointTmpFileName fs)) (data_name N) N (json_table M).
Proof.
  intros Hn HN [Hreg Hc] HM. pose proof (newest_id _ _ _ _ Hn).
  rewrite <-(fill_table_entries M (iterate M) (Hiterate M)).
  eapply (newest_file _ _ N f).
  - apply data_id_name. lia.
  - lia.
  - apply lookup_insert_eq.
  - done.
  - rewrite Hc. by apply (read_states_text (iterate M)), iterate_storable.
  - intros n i Hi Hnf. destruct (decide (n = data_name N)) as [->|Hne]; [by left|]. right.
    rewrite lookup_insert_ne in Hnf by done.
    assert (n ≠ checkpointTmpFileName) by (by intros ->).
    rewrite lookup_delete_ne in Hnf by done. eapply (newest_below fs name a B N); [done|lia|done|done].
Qed.

(** Moving a checkpoint file in: the base of the log is the memory table. *)
Lemma disk_inv_renamed d M0 M fs D name a B recs tl t f :
  disk_inv d M0 fs D name a B recs tl t → (nextTxID d < 2 ^ 63 - 1)%Z → table_storable M → checkpoint_file M f →
  let N := nextTxID d in
  let fs' := <[ data_name N := f ]> (delete checkpointTmpFileName fs) in
  newest fs' (data_name N) N (json_table M) ∧ files_ok fs' ∧ log_content fs' = log_content fs ∧
  fs' !! logFileName = fs !! logFileName ∧
  play recs (json_table M, N) = Some (json_table M, N) ∧ Forall (λ r, 0 ≤ r.2 ≤ N)%Z recs.
Proof.
  intros Hi HN HM Hf. cbn zeta. pose proof (disk_inv_next _ _ _ _ _ _ _ _ _ _ Hi) as Hn1.
  pose proof (newest_id _ _ _ _ (inv_newest _ _ _ _ _ _ _ _ _ _ Hi)) as Ha. destruct Hi.
  assert (Hid : data_id (data_name (nextTxID d)) = Some (nextTxID d)) by (apply data_id_name; lia).
  assert (Hlog : <[ data_name (nextTxID d) := f ]> (delete checkpointTmpFileName fs) !! logFileName = fs !! logFileName).
  { rewrite lookup_insert_ne by (intros E; by rewrite E in Hid). by rewrite lookup_delete_ne. }
  assert (Hids : Forall (λ r, 0 ≤ r.2 ≤ nextTxID d)%Z recs).
  { apply play_ids in inv_play as [_ Hids]; [|done]. eapply Forall_impl; [exact Hids|]. simpl. lia. }
  split_and!; [eapply newest_checkpoint; [done|lia|done|done]| | |done|by apply play_old|done].
  - split.
    + rewrite lookup_insert_ne by (intros E; by rewrite E in Hid). rewrite lookup_delete_ne by done. apply inv_files.
    + intros n f' Hn Hf'. destruct (decide (n = data_name (nextTxID d))) as [->|Hne].
      * rewrite lookup_insert_eq in Hf'. injection Hf' as <-. apply Hf.
      * rewrite lookup_insert_ne in Hf' by done. apply lookup_delete_Some in Hf' as [_ Hf'].
        by apply (proj2 inv_files n f').
  - unfold log_content, file_content. by rewrite Hlog.
Qed.

(** The state of a store that just moved a checkpoint in, before and after the
    log was cleared. *)
Definition moved (d : diskstore) (M : table) (fs : gmap string file) : Prop :=
  let N := nextTxID d in
  newest fs (data_name N) N (json_table M) ∧ files_ok fs ∧ (0 ≤ N)%Z ∧ handle_ok d fs ∧
  ∃ recs tl, reads (log_content fs) recs tl ∧ tl ≠ TStray ∧ Forall (λ r, 0 ≤ r.2 ≤ N)%Z recs.

Definition cleared (d : diskstore) (M : table) (fs : gmap string file) : Prop :=
  moved d M fs ∧
  (logNeedsTruncate d = true → logFile d = None) ∧
  (logInvalid d = false → logNeedsTruncate d = false → log_content fs = [] ∧
     ∀ b, logFile d = Some b → h_pos (out b) = 0 ∧ werr b = None).

Lemma moved_truncated d M fs f : moved d M fs → fs !! logFileName = Some f →
  moved d M (<[ logFileName := mkFile [] (fmode f) ]> fs).
Proof.
  intros (Hn & Hf & HN & Hh & recs & tl & Hr) Hlog.
  assert (Ho : only [logFileName] fs (<[ logFileName := mkFile [] (fmode f) ]> fs))
    by (apply only_insert; by apply list_elem_of_singleton).
  pose proof (newest_name _ _ _ _ Hn) as Hname.
  split_and!.
  - eapply keeps_newest; [by eapply keeps_data_log|done].
  - eapply (files_ok_log fs _ (mkFile [] (fmode f))); [done..|by rewrite lookup_insert_eq|].
    by apply (proj2 Hf logFileName f); [left|].
  - done.
  - intros b Hb. destruct (Hh b Hb) as (? & _ & ? & ?). split_and!; auto. by rewrite lookup_insert_eq.
  - exists [], TEnd. unfold log_content, file_content. rewrite lookup_insert_eq.
    split_and!; [by apply reads_end|done|done].
Qed.

Lemma moved_invalid_closed d M fs : moved d M fs →
  cleared (setLogStats 0 0 (setLogInvalid true (setLogNeedsTruncate true (setLogFile None d)))) M fs.
Proof.
  intros (Hn & Hf & HN & Hh & Hr). split_and!; [split_and!; auto|done|done].
  intros b Hb. done.
Qed.

(** What [checkpointClearLog] leaves alone. *)
Definition same_store (d d' : diskstore) : Prop :=
  nextTxID d' = nextTxID d ∧ oldDataFiles d' = oldDataFiles d ∧ activeDataFile d' = activeDataFile d ∧
  home d' = home d ∧ (logInvalid d = true → logInvalid d' = true) ∧ fileMode d' = fileMode d ∧
  bufferSize d' = bufferSize d ∧ checkpointPred d' = checkpointPred d.

Lemma spec_checkpointClearLog q d M fs :
  moved d M fs →
  (logNeedsTruncate d = true → logFile d = None) →
  (logInvalid d = false → ∀ b, logFile d = Some b → werr b = None) →
  spec q (checkpointClearLog d) fs (λ d' fs', cleared d' M fs' ∧ same_store d d' ∧
    (q = true → logInvalid d' = logInvalid d)).
Proof.
  intros Hm Ht Hv. unfold checkpointClearLog. destruct (logFile d) as [b|] eqn:Hb.
  2:{ apply spec_ret. split_and!; try done. }
  pose proof Hm as (_ & _ & _ & Hh & _). destruct (Hh b Hb) as (Hbn & [f Hf] & Hbs & Hbb).
  spec_step spec_file_truncate; [by rewrite Hbn|]. intros err fs1 Hr1. rewrite Hbn in Hr1.
  destruct Hr1 as [[-> ->]|(-> & -> & e & ->)].
  2:{ eapply spec_bind; [by apply (spec_ret _ _ _ (λ r fs', r = Some (Errno e) ∧ fs' = fs))|]. intros ? ? [-> ->].
      spec_step spec_file_call. intros _ ? [-> _]. apply spec_ret.
      split; [by apply moved_invalid_closed|done]. }
  pose proof (moved_truncated _ _ _ _ Hm Hf) as Hm'.
  spec_step spec_file_call. intros err fs1 [-> Herr]. destruct err as [e|].
  { spec_step spec_file_call. intros _ ? [-> _]. apply spec_ret.
    split_and!; [by apply moved_invalid_closed|done|]. intros Hq.
    destruct Herr as [?|(? & _)]; [done|congruence]. }
  apply spec_ret. split; [split; [|split]|done].
  - destruct Hm' as (Hn & Hfo & HN & Hh' & Hr). split_and!; try done.
    intros b' [= <-]. simpl. split_and!; auto. by rewrite lookup_insert_eq.
  - intros Htrue. specialize (Ht Htrue). done.
  - intros Hv' _. simpl in Hv'. split; [by unfold log_content, file_content; rewrite lookup_insert_eq|].
    intros b' [= <-]. simpl. auto.
Qed.

Lemma spec_os_write_file q name data mode fs : name ∈ temp_names →
  spec q (os_write_file name data mode) fs (λ _ fs', only temp_names fs fs').
Proof.
  intros Hn. unfold os_write_file. spec_step spec_os_open. intros r fs1 Hr.
  destruct Hr as [(f & Hf & -> & ->)|[(Hf & -> & ->)|(e & -> & -> & -> & _)]]; [|by apply spec_ret..].
  assert (content f = []) as Hc.
  { destruct (fs !! name) as [f0|]; simpl in Hf; [|by injection Hf as <-].
    destruct (isRegular f0); [|done]. by injection Hf as <-. }
  spec_step (spec_file_write q data (mkHandle name 0) (<[ name := f ]> fs) f).
  { apply lookup_insert_eq. } { by rewrite Hc. }
  intros [[n err] h] fs2 (_ & _ & -> & _). simpl. spec_step spec_file_call. intros err2 ? [-> _].
  apply spec_ret. rewrite insert_insert_eq. by apply only_insert.
Qed.

Lemma spec_updateActiveMarker q homePath name fs :
  spec q (updateActiveMarker homePath name) fs (λ _ fs', only temp_names fs fs').
Proof.
  assert (Ha : activeDataFileName ∈ temp_names) by names.
  assert (Ht : activeDataTmpFileName ∈ temp_names) by names.
  assert (Hrm : ∀ n fs, n ∈ temp_names → spec q (os_remove n) fs (λ _ fs', only temp_names fs fs')).
  { intros n fs0 Hn. eapply spec_mono; [apply spec_os_remove|].
    intros err fs' [(_ & _ & ->)|[(_ & _ & ->)|(_ & -> & _)]]; auto with go. }
  unfold updateActiveMarker. destruct (decide (name = "")).
  { spec_step Hrm; [done|]. intros _ fs' ?. by apply spec_ret. }
  spec_step Hrm; [done|]. intros err fs1 Ho1. destruct (_ && _); [by apply spec_ret|].
  spec_step spec_os_write_file; [done|]. intros err2 fs2 Ho2.
  destruct err2; [apply spec_ret; by eapply only_trans|].
  spec_step spec_os_rename. intros err3 fs3 Hr3.
  assert (Ho3 : only temp_names fs2 fs3).
  { destruct Hr3 as [(_ & f & _ & ->)|[(_ & _ & ->)|(_ & -> & _)]]; auto with go.
    eapply only_trans; [by apply only_delete|by apply only_insert]. }
  destruct err3; [apply spec_ret; eauto using only_trans|].
  spec_step spec_trySyncPath. intros _ ? ->. apply spec_ret. eauto using only_trans.
Qed.

(** Removing old data files, and only those. *)
Lemma spec_remove_files q name l fs : name = "" ∨ is_data name →
  Forall (λ i, is_data (path i) ∧ path i ≠ name) l →
  spec q (remove_files l) fs (λ l' fs', l' `suffix_of` l ∧ keeps name fs fs' ∧
    (q = true → l' = [] ∧ ∀ i, i ∈ l → fs' !! path i = None)).
Proof.
  intros Hname. revert fs. induction l as [|i l IH]; intros fs Hl; cbn [remove_files].
  { apply spec_ret. split_and!; [done| |]; [by apply keeps_only; [|apply only_refl]|].
    intros _. split; [done|]. intros i Hi. by apply elem_of_nil in Hi. }
  inversion Hl as [|?? [Hi Hne] Hl']; subst.
  spec_step spec_os_remove. intros err fs1 Hr.
  assert (keeps name fs fs1) as Hk.
  { assert (keeps name fs fs) as Hrefl by (by apply keeps_only; [|apply only_refl]).
    destruct Hr as [(_ & _ & ->)|[(_ & _ & ->)|(_ & -> & _)]]; [|done..].
    assert (path i ≠ metaFileName ∧ path i ≠ logFileName ∧ path i ≠ "") as (Hm & Hlg & He)
      by (by split_and!; intros E; rewrite E in Hi; destruct Hi).
    split; [|by rewrite lookup_delete_ne]. split_and!.
    - by rewrite lookup_delete_ne.
    - by rewrite lookup_delete_ne.
    - intros n Hn. destruct (decide (n = path i)) as [->|]; [left; apply lookup_delete_eq|].
      right. by rewrite lookup_delete_ne. }
  destruct (_ && _) eqn:Hc.
  - apply spec_ret. split_and!; [done|done|]. intros ->.
    destruct Hr as [(-> & _)|[(-> & _)|(? & _)]]; done.
  - eapply spec_mono; [by apply IH|]. intros l' fs2 (Hs & Hk2 & Hq).
    split_and!; [by apply suffix_cons_r|by eapply keeps_trans|]. intros Hqt. destruct (Hq Hqt) as [-> Hgone].
    split; [done|]. intros j Hj. apply elem_of_cons in Hj as [->|Hj]; [|auto].
    destruct Hk2 as [(_ & _ & Hd) _]. destruct (Hd _ Hi) as [?|E]; [done|].
    destruct Hr as [(_ & _ & ->)|[(_ & Hno & ->)|(? & _)]]; [| |congruence].
    + rewrite lookup_delete_eq in E. by destruct (fs2 !! path i).
    + rewrite Hno in E. by destruct (fs2 !! path i).
Qed.

(** The state of the store after a checkpoint. *)
Lemma cleared_disk_ok d M fs fs' l N :
  cleared d M fs → N = nextTxID d → (N < 2 ^ 63 - 1)%Z → keeps (data_name N) fs fs' →
  Forall (λ i, data_id (path i) = Some (txid i) ∧ path i ≠ data_name N ∧ (txid i < N + 1)%Z) l →
  disk_ok (setDataFiles l (mkInfo (data_name N) N) (setNextTxID (uinc N) d)) M fs' (json_table M).
Proof.
  intros ((Hn & Hf & HN0 & Hh & recs & tl & Hr & Htl & Hids) & Ht & Hv) -> HN Hk Hl.
  pose proof (keeps_log_content _ _ _ Hk) as Hlc.
  assert (Hok : disk_inv (setDataFiles l (mkInfo (data_name (nextTxID d)) (nextTxID d)) (setNextTxID (uinc (nextTxID d)) d))
    M fs (json_table M) (data_name (nextTxID d)) (nextTxID d) (json_table M) recs tl (nextTxID d) → 
    disk_ok (setDataFiles l (mkInfo (data_name (nextTxID d)) (nextTxID d)) (setNextTxID (uinc (nextTxID d)) d)) M fs' (json_table M)).
  { intros Hi. do 6 eexists. by eapply disk_inv_keeps. }
  apply Hok. split; simpl; rewrite ?uinc_small by lia; auto; try lia; try done.
  - by apply play_old.
  - apply json_table_idem.
  - intros Hinv. split_and!; [done|done|]. intros Htr. destruct (Hv Hinv Htr) as [Hc Hb].
    split.
    + rewrite Hc in Hr. by destruct (reads_det _ _ _ _ _ Hr (reads_end [] eq_refl)).
    + intros b Hbl. rewrite Hc. by apply Hb.
Qed.

Lemma spec_WriteCheckpoint q d M0 M fs D :
  disk_ok d M0 fs D → table_storable M → (nextTxID d < 2 ^ 63 - 1)%Z →
  spec q (WriteCheckpoint iterate M d) fs (λ '(err, d') fs',
    match err with
    | Some _ => d' = d ∧ disk_ok d M0 fs' D
    | None => disk_ok d' M fs' (json_table M) ∧ nextTxID d' = (nextTxID d + 1)%Z ∧
        (logInvalid d = true → logInvalid d' = true) ∧
        activeDataFile d' = mkInfo (data_name (nextTxID d)) (nextTxID d)
    end ∧
    (q = true → (∀ f, fs !! checkpointTmpFileName = Some f → isRegular f = true) → err = None)).
Proof.
  intros Hok HM HN. unfold WriteCheckpoint.
  spec_step spec_checkpointTmpFile; [done|]. intros r fs1 [Ho1 Hr].
  pose proof (disk_ok_only _ _ _ _ _ Ho1 Hok) as Hok1.
  destruct r as [e|n].
  { apply spec_ret. split; [done|]. intros Hq Hreg. destruct (Hr Hq) as (f & Hf & Hirr).
    rewrite (Hreg f Hf) in Hirr. done. }
  destruct Hr as (-> & f & Hf1 & Hcf).
  assert (Htmp : checkpointTmpFileName ∈ temp_names) by by left.
  spec_step spec_os_rename. intros err fs2 Hr2.
  destruct Hr2 as [(-> & f' & Hf' & Hfs2)|[(-> & Hno & _)|(-> & -> & e & ->)]]; [|congruence|].
  2:{ spec_step spec_os_remove. intros err2 fs3 Hr3. apply spec_ret. split; [|done]. split; [done|].
      eapply disk_ok_only; [|exact Hok1].
      destruct Hr3 as [(_ & _ & ->)|[(_ & _ & ->)|(_ & -> & _)]]; auto with go. }
  assert (f' = f) as -> by congruence.
  destruct Hok1 as (name & a & B & recs & tl & t & Hi).
  destruct (disk_inv_renamed _ _ _ _ _ _ _ _ _ _ _ _ Hi HN HM Hcf) as (Hnew & Hfiles & Hlc & Hlog & Hplay & Hids).
  rewrite <-Hfs2 in Hnew, Hfiles, Hlc, Hlog.
  pose proof (disk_inv_next _ _ _ _ _ _ _ _ _ _ Hi) as Hn1.
  assert (Hmoved : moved d M fs2).
  { split_and!; auto; [lia| |].
    - intros b Hb. destruct (inv_handle _ _ _ _ _ _ _ _ _ _ Hi b Hb) as (? & ? & ? & ?). by rewrite Hlog.
    - exists recs, tl. rewrite Hlc. split_and!; auto; by eapply inv_reads || by eapply inv_stray. }
  spec_step spec_trySyncPath. intros _ ? ->.
  spec_step spec_checkpointClearLog; [exact Hmoved| | |].
  { intros Ht. by apply (inv_truncate _ _ _ _ _ _ _ _ _ _ Hi). }
  { intros Hv b Hb. destruct (inv_valid _ _ _ _ _ _ _ _ _ _ Hi Hv) as (_ & _ & Htr).
    destruct (logNeedsTruncate d) eqn:Ht; [|by apply Htr].
    destruct (inv_truncate _ _ _ _ _ _ _ _ _ _ Hi Ht) as [? _]. congruence. }
  intros d1 fs3 (Hcl & (Hsn & Hso & Hsa & Hsh & Hsi & _) & _).
  rewrite <-Hsn in Hn1, HN. 
  set (N := nextTxID d1).
  set (old := if decide (path (activeDataFile _) = "") then _ else _).
  assert (Hold : Forall (λ i, data_id (path i) = Some (txid i) ∧ path i ≠ data_name N ∧ (txid i < N + 1)%Z) old).
  { assert (HidN : data_id (data_name N) = Some N) by (apply data_id_name; unfold N; lia).
    assert (Forall (λ i, data_id (path i) = Some (txid i) ∧ path i ≠ data_name N ∧ (txid i < N + 1)%Z) (oldDataFiles d)) as Hod.
    { eapply Forall_impl; [by eapply inv_old|]. simpl. rewrite <-Hsn. fold N. intros i (H1 & _ & H3).
      split_and!; [done|intros E; rewrite E in H1; simplify_eq; lia|lia]. }
    unfold old. simpl. rewrite Hso, Hsa. case_decide as Hp; [done|]. apply Forall_app. split; [done|].
    repeat constructor.
    - destruct (inv_active _ _ _ _ _ _ _ _ _ _ Hi) as [Hpa Htx]. rewrite Hpa in Hp |- *. rewrite (Htx Hp).
      pose proof (inv_newest _ _ _ _ _ _ _ _ _ _ Hi) as Hnw. by inversion Hnw; subst.
    - destruct (inv_active _ _ _ _ _ _ _ _ _ _ Hi) as [Hpa Htx]. rewrite Hpa in Hp |- *.
      pose proof (inv_newest _ _ _ _ _ _ _ _ _ _ Hi) as Hnw.
      pose proof (inv_next _ _ _ _ _ _ _ _ _ _ Hi) as [Hlt _]. rewrite <-Hsn in Hlt. fold N in Hlt.
      inversion Hnw; subst; [done|]. intros E. rewrite E in *. simplify_eq. lia.
    - destruct (inv_active _ _ _ _ _ _ _ _ _ _ Hi) as [Hpa Htx]. rewrite Hpa in Hp. rewrite (Htx Hp).
      pose proof (inv_next _ _ _ _ _ _ _ _ _ _ Hi) as [Hlt _]. rewrite <-Hsn in Hlt. fold N in Hlt. lia. }
  cbn beta zeta. assert (HidN : is_data (data_name N)) by (eexists; apply data_id_name; unfold N; lia).
  spec_step spec_updateActiveMarker. intros _ fs4 Ho4.
  unfold removeOldDataFiles. cbn [oldDataFiles setDataFiles].
  eapply spec_bind.
  { eapply spec_bind.
    - apply (spec_remove_files q (data_name N)); [by right|]. eapply Forall_impl; [exact Hold|].
      intros i (Hi1 & Hi2 & _). split; [by eexists|done].
    - intros l fs5 Hl. apply spec_ret.
      instantiate (1 := λ s5 fs5, ∃ l, l `suffix_of` old ∧ keeps (data_name N) fs4 fs5 ∧
        s5 = setDataFiles l (mkInfo (data_name N) N) (setNextTxID (uinc N) d1)).
      exists l. destruct Hl as (? & ? & _). split_and!; auto. simpl. unfold N. by rewrite <-!Hsn. }
  intros s5 fs5 (l & [k Hsuf] & Hk5 & ->).
  spec_step spec_trySyncPath. intros _ ? ->.
  spec_step spec_os_remove. intros err6 fs6 Hr6. apply spec_ret. split; [|done].
  assert (Ho6 : only temp_names fs5 fs6).
  { destruct Hr6 as [(_ & _ & ->)|[(_ & _ & ->)|(_ & -> & _)]]; auto with go. }
  split_and!.
  - eapply cleared_disk_ok; [exact Hcl|done|done| |].
    + eapply keeps_trans; [apply keeps_only; [by right|exact Ho4]|].
      eapply keeps_trans; [exact Hk5|]. apply keeps_only; [by right|done].
    + rewrite Hsuf in Hold. by apply Forall_app in Hold as [_ ?].
  - simpl. unfold N. rewrite uinc_small by lia. lia.
  - simpl. auto.
  - simpl. by rewrite <-Hsn.
Qed.
End ops.
