(* ===== verification/MemlogFacts.v ===== *)
(** * Opening a store

    A start of the program on a directory that can be opened loads its durable
    table, and gives a store with the invariant. *)

From stdpp Require Import base gmap strings list fin_maps sorting.
From Stdlib Require Import ZArith Lia.
From S2P Require Import Prelude GoValue Json JsonFacts Fs FsFacts Txid DiskData Diskstore Memlog.
From S2P Require Import LogFacts DiskFacts DiskSpec DiskInv DiskOps.
Import Util Bufio UtilFacts BufioFacts.

(** ** Rules for early returns *)
Lemma spec_err_bind {A B} q (m : IO (goerr + A)) (k : A → IO (goerr + B)) fs R :
  spec q m fs (λ r fs', match r with inl e => R (inl e) fs' | inr a => spec q (k a) fs' R end) →
  spec q (err_bind m k) fs R.
Proof.
  intros Hm. unfold err_bind. eapply spec_bind; [exact Hm|]. intros [e|a] fs' Hr; [by apply spec_ret|done].
Qed.

Lemma spec_err_then {B} q (m : IO (option goerr)) (k : IO (goerr + B)) fs R :
  spec q m fs (λ r fs', match r with Some e => R (inl e) fs' | None => spec q k fs' R end) →
  spec q (err_then m k) fs R.
Proof.
  intros Hm. unfold err_then. eapply spec_bind; [exact Hm|]. intros [e|] fs' Hr; [by apply spec_ret|done].
Qed.

Lemma spec_lift {A} q (m : outcome A) a fs Q : m = Done a → Q a fs → spec q (io_lift m) fs Q.
Proof. intros -> HQ w <- _. by exists a, w. Qed.

(** ** Permissions do not matter *)
Definition same_view (fs fs' : gmap string file) : Prop := ∀ n, view (fs' !! n) = view (fs !! n).

Lemma same_view_chmod want n f fs : fs !! n = Some f → same_view fs (<[ n := chmod want f ]> fs).
Proof.
  intros Hf m. destruct (decide (m = n)) as [->|]; [|by rewrite lookup_insert_ne].
  rewrite lookup_insert_eq, Hf. unfold view. simpl. by rewrite chmod_isRegular.
Qed.

Lemma same_view_keeps name fs fs' : same_view fs fs' → keeps name fs fs'.
Proof. intros H. split; [split_and!; auto|auto]. Qed.

(** A quiet [pathEnsurePermissions] of a file that is regular, if it exists. *)
Lemma quiet_pathEnsure n mode fs : (∀ f, fs !! n = Some f → isRegular f = true) →
  spec true (pathEnsurePermissions n mode) fs (λ err fs', err = None ∧ same_view fs fs').
Proof.
  intros Hreg. eapply spec_mono; [apply spec_pathEnsurePermissions|].
  intros err fs' [(_ & -> & ->)|[(f & Hf & _ & -> & ->)|[(f & Hf & Hr & _)|[? _]]]]; [done| | |done].
  - split; [done|]. by apply same_view_chmod.
  - by rewrite Hreg in Hr.
Qed.

Lemma quiet_os_read n fs f : fs !! n = Some f → isRegular f = true →
  spec true (os_read n) fs (λ r fs', r = inr (content f) ∧ fs' = fs).
Proof.
  intros Hf Hr. eapply spec_mono; [apply spec_os_read|].
  intros r fs' (-> & [(f' & b & Hf' & -> & _ & Hb)|[[? _]|[? _]]]); [|congruence|done].
  rewrite Hf in Hf'. injection Hf' as <-. rewrite Hr in Hb. by rewrite (Hb eq_refl).
Qed.

Lemma spec_ignore_call {B} q (k : IO B) fs R : spec q k fs R → spec q (file_call;; k) fs R.
Proof. intros Hk. spec_step spec_file_call. by intros _ ? [-> _]. Qed.

Lemma quiet_readMetaFile fs : meta_ok (fs !! metaFileName) →
  spec true readMetaFile fs (λ r fs', r = inr (mkMeta storeVersion) ∧ fs' = fs).
Proof.
  intros (f & j & r & Hf & Hr & Hp & Hd). unfold readMetaFile. spec_step quiet_os_read; [done..|].
  intros ? ? [-> ->]. apply spec_ignore_call. apply spec_ret. rewrite Hp. simpl. by rewrite Hd.
Qed.

(** ** Data files *)
Lemma spec_list_infos names fs :
  (∀ n, n ∈ names → is_Some (fs !! n)) →
  (∀ n f, is_data n → fs !! n = Some f → isRegular f = true) →
  spec true (list_infos names) fs (λ r fs', r = inr (omap file_info names) ∧ fs' = fs).
Proof.
  induction names as [|n names IH]; intros Hex Hreg; cbn [list_infos].
  { by apply spec_ret. }
  destruct (Hex n) as [f Hf]; [by left|].
  eapply spec_bind.
  { apply spec_syscall. spec_step spec_get_files. intros ? ? [-> ->]. rewrite Hf. apply spec_ret.
    by instantiate (1 := λ r fs', r = inr (isRegular f) ∧ fs' = fs). }
  intros r fs' [[-> ->]|[? _]]; [|done].
  spec_step IH; [intros m Hm; apply Hex; by right|done|].
  intros r fs' [-> ->]. apply spec_ret. split; [|done]. cbn [omap list_omap].
  destruct (file_info n) as [i|] eqn:Ei; [|by destruct (isRegular f)].
  rewrite (Hreg n f); [done| |done]. unfold file_info in Ei. destruct (data_id n) eqn:En; [|done].
  by exists z.
Qed.

Lemma file_info_Some n i : file_info n = Some i ↔ path i = n ∧ data_id n = Some (txid i).
Proof.
  unfold file_info. destruct (data_id n) as [id|]; simpl; [|naive_solver].
  destruct i as [p t]. simpl. naive_solver.
Qed.

Lemma data_id_trim n i : data_id n = Some i → is_Some (trim_json n).
Proof. unfold data_id. by destruct (trim_json n). Qed.

Lemma StronglySorted_last {A} (R : A → A → Prop) l z x :
  StronglySorted R l → last l = Some z → x ∈ l → x = z ∨ R x z.
Proof.
  intros Hs. revert x. induction Hs as [|y l Hs IH Hall]; intros x Hl Hx; [by apply elem_of_nil in Hx|].
  rewrite last_cons in Hl. apply elem_of_cons in Hx. destruct (last l) as [z'|] eqn:E.
  - injection Hl as ->. destruct Hx as [->|Hx]; [|by apply IH].
    right. rewrite Forall_forall in Hall. apply Hall. by apply last_Some_elem_of.
  - injection Hl as ->. apply last_None in E as ->. destruct Hx as [->|Hx]; [by left|by apply elem_of_nil in Hx].
Qed.

(** What [listDataFiles] finds: the newest file is the last one. *)
Definition listed (name : string) (a : Z) (infos : list dataFileInfo) : Prop :=
  last infos = (if decide (name = "") then None else Some (mkInfo name a)) ∧
  Forall (λ i, data_id (path i) = Some (txid i) ∧ path i ≠ name ∧ (txid i < a)%Z) (take (length infos - 1) infos).

(** Any list of the infos of all data files that has its maximum at the end. *)
Lemma listed_sorted fs name a B infos : newest fs name a B → (a < 2 ^ 63)%Z →
  (∀ i, i ∈ infos ↔ is_Some (fs !! path i) ∧ data_id (path i) = Some (txid i)) → NoDup infos →
  (∀ x z, last infos = Some z → x ∈ infos → (txid x ≤ txid z)%Z) →
  listed name a infos.
Proof.
  intros Hn Ha Hin Hnd Hmax. inversion Hn as [Hnone|name' a' f l Hid Ha0 Hf Hr Hrs Hm]; subst.
  - assert (infos = []) as ->; [|by split].
    destruct infos as [|i infos]; [done|]. destruct (Hin i) as [[Hi1 Hi2] _]; [by left|].
    rewrite Hnone in Hi1 by by eexists. by destruct Hi1.
  - assert (mkInfo name a ∈ infos) as Hself by by apply Hin; simpl; split; [eexists|].
    destruct (last infos) as [z|] eqn:Hl; [|by apply last_None in Hl as ->; apply elem_of_nil in Hself].
    assert (z = mkInfo name a) as ->.
    { pose proof (Hmax _ _ eq_refl Hself) as Hle. simpl in Hle.
      pose proof (last_Some_elem_of _ _ Hl) as Hz. apply Hin in Hz as [Hz1 Hz2].
      destruct (Hm _ _ Hz2 Hz1) as [Hp|?]; [|lia]. rewrite Hp, Hid in Hz2. destruct z; simpl in *. congruence. }
    apply last_Some in Hl as [l' ->]. split.
    { rewrite last_snoc. rewrite decide_False; [done|]. by intros ->. }
    rewrite length_app. simpl. rewrite Nat.add_sub, take_app_length.
    apply NoDup_app in Hnd as (_ & Hnd & _). apply Forall_forall. intros i Hi.
    assert (i ≠ mkInfo name a) as Hne.
    { intros ->. apply (Hnd _ Hi). by apply list_elem_of_singleton. }
    destruct (Hin i) as [[Hi1 Hi2] _]; [apply elem_of_app; by left|].
    destruct (decide (path i = name)) as [Hp|Hp].
    { rewrite Hp, Hid in Hi2. destruct Hne. destruct i; simpl in *; congruence. }
    destruct (Hm _ _ Hi2 Hi1); [done|]. split_and!; auto; lia.
Qed.

Lemma quiet_listDataFiles fs name a B : newest fs name a B → (a < 2 ^ 63)%Z →
  (∀ n f, is_data n → fs !! n = Some f → isRegular f = true) →
  spec true listDataFiles fs (λ r fs', fs' = fs ∧ ∃ infos, r = inr infos ∧ listed name a infos ∧
    Forall (λ i, is_Some (fs !! path i) ∧ is_data (path i)) infos).
Proof.
  intros Hn Ha Hreg. unfold listDataFiles. spec_step spec_os_names. intros names ? (-> & _ & Hnames).
  rewrite (Hnames eq_refl). clear Hnames names.
  set (names := merge_sort String.le _).
  assert (Hperm : names ≡ₚ filter (λ n, is_Some (trim_json n)) (map_to_list fs).*1) by apply merge_sort_Permutation.
  assert (Hin : ∀ n, n ∈ names ↔ is_Some (trim_json n) ∧ is_Some (fs !! n)).
  { intros n. rewrite Hperm, list_elem_of_filter, list_elem_of_fmap. f_equiv. split.
    - intros ([k f] & -> & Hkf). apply elem_of_map_to_list in Hkf. by eexists.
    - intros [f Hf]. exists (n, f). split; [done|]. by apply elem_of_map_to_list. }
  assert (Hnd : NoDup names).
  { rewrite Hperm. apply NoDup_filter, NoDup_fst_map_to_list. }
  spec_step spec_list_infos; [intros n Hn'; by apply Hin|done|]. intros r fs' [-> ->]. apply spec_ret.
  split; [done|]. set (infos := omap file_info names).
  assert (Hinf : ∀ i, i ∈ infos ↔ is_Some (fs !! path i) ∧ data_id (path i) = Some (txid i)).
  { intros i. unfold infos. rewrite list_elem_of_omap. split.
    - intros (n & Hn' & [<- Hi]%file_info_Some). split; [by apply Hin|done].
    - intros [H1 H2]. exists (path i). split; [apply Hin; split; [by eapply data_id_trim|done]|].
      by apply file_info_Some. }
  assert (Hndi : NoDup infos).
  { unfold infos. clear -Hnd. induction Hnd as [|n l Hnl _ IH]; [constructor|]. cbn [omap list_omap].
    destruct (file_info n) as [i|] eqn:E; [|done]. constructor; [|done].
    rewrite list_elem_of_omap. intros (m & Hm & Hi). apply file_info_Some in E as [<- _].
    apply file_info_Some in Hi as [<- _]. done. }
  assert (Hall : ∀ l, l ≡ₚ infos → Forall (λ i, is_Some (fs !! path i) ∧ is_data (path i)) l).
  { intros l ->. apply Forall_forall. intros i Hi. apply Hinf in Hi as [??]. split; [done|by eexists]. }
  assert (Hsmall : ∀ i, i ∈ infos → (0 ≤ txid i < 2 ^ 63)%Z).
  { intros i [H1 H2]%Hinf. eapply newest_below; [exact Hn|done|exact H2|done]. }
  eexists. split; [done|]. destruct (decide (length infos ≤ 1)) as [Hle|Hgt].
  - split; [|by apply Hall]. eapply listed_sorted; [done..|].
    intros x z Hl Hx. destruct infos as [|y [|y' l]]; [done| |simpl in Hle; lia].
    injection Hl as ->. apply list_elem_of_singleton in Hx as ->. lia.
  - split; [|apply Hall, sort_Slice_perm].
    assert (Hsp : sortDataFileInfos infos ≡ₚ infos) by apply sort_Slice_perm.
    eapply listed_sorted; [done|done| | |].
    + intros i. by rewrite Hsp.
    + by rewrite Hsp.
    + intros x z Hl Hx.
      assert (StronglySorted (λ x y, isTxIDLessEqual (txid x) (txid y) = true) (sortDataFileInfos infos)) as Hs.
      { apply (sort_Slice_sorted _ (λ i, 0 ≤ txid i < 2 ^ 63)%Z).
        - intros u v Hu Hv. rewrite !isTxIDLessEqual_small by done.
          rewrite bool_decide_eq_false, bool_decide_eq_true. lia.
        - intros u v w' Hu Hv Hw. rewrite !isTxIDLessEqual_small by done. rewrite !bool_decide_eq_true. lia.
        - apply Forall_forall. apply Hsmall. }
      destruct (StronglySorted_last _ _ _ _ Hs Hl Hx) as [->|Hle]; [lia|].
      apply last_Some_elem_of in Hl. rewrite Hsp in Hl, Hx.
      rewrite isTxIDLessEqual_small in Hle by auto. by apply bool_decide_eq_true in Hle.
Qed.

(** ** Loading *)
Lemma same_view_trans fs1 fs2 fs3 : same_view fs1 fs2 → same_view fs2 fs3 → same_view fs1 fs3.
Proof. intros H1 H2 n. by rewrite H2. Qed.

Lemma same_view_Some fs fs' n f : same_view fs fs' → fs' !! n = Some f →
  ∃ f0, fs !! n = Some f0 ∧ isRegular f0 = isRegular f ∧ content f0 = content f.
Proof.
  intros Hv Hf. specialize (Hv n). rewrite Hf in Hv. destruct (fs !! n) as [f0|]; [|done].
  injection Hv as -> ->. eauto.
Qed.

Lemma quiet_ensure_all mode l fs :
  Forall (λ i, ∀ f, fs !! path i = Some f → isRegular f = true) l →
  spec true (ensure_all mode l) fs (λ err fs', err = None ∧ same_view fs fs').
Proof.
  revert fs. induction l as [|i l IH]; intros fs Hl; cbn [ensure_all]; [by apply spec_ret|].
  inversion Hl as [|?? Hi Hl']; subst.
  spec_step quiet_pathEnsure; [done|]. intros err fs1 [-> Hv].
  eapply spec_mono; [apply IH|].
  - eapply Forall_impl; [exact Hl'|]. intros j Hj f Hf. simpl in *.
    destruct (same_view_Some _ _ _ _ Hv Hf) as (f0 & Hf0 & <- & _). eauto.
  - intros err fs2 [-> Hv2]. split; [done|]. by eapply same_view_trans.
Qed.

Lemma quiet_load_newest fs name a B infos : newest fs name a B → listed name a infos →
  spec true (load_newest infos) fs (λ r fs', r = inr (B, a) ∧ fs' = fs).
Proof.
  intros Hn [Hl _]. unfold load_newest. rewrite Hl.
  inversion Hn as [Hnone|name' a' f l Hid Ha0 Hf Hr Hrs Hm]; subst; [by apply spec_ret|].
  assert (name ≠ "") as Hne by by intros ->. rewrite decide_False by done. simpl.
  unfold loadDataFile. rewrite decide_False by done.
  eapply spec_bind.
  { eapply spec_bind.
    - unfold readDataFile. spec_step quiet_os_read; [done..|]. intros ? ? [-> ->].
      apply spec_ignore_call. apply spec_ret.
      by instantiate (1 := λ r fs', r = inr l ∧ fs' = fs).
    - intros ? ? [-> ->]. apply spec_ret.
      by instantiate (1 := λ r fs', r = (None, fill_table l ∅) ∧ fs' = fs). }
  intros ? ? [-> ->]. by apply spec_ret.
Qed.

Lemma quiet_loadLogFile fs B a recs tl T t :
  (∀ f, fs !! logFileName = Some f → isRegular f = true) → reads (log_content fs) recs tl →
  play recs (B, a) = Some (T, t) → (0 ≤ a)%Z → (t < 2 ^ 63)%Z →
  spec true (loadLogFile (mkMem (Some B)) a) fs (λ r fs', fs' = fs ∧
    ∃ n, r = (tail_err tl, (mkMem (Some T), t, n))).
Proof.
  intros Hreg Hr Hp Ha Ht. destruct (feed_play recs tl B a T t 0 Hp Ha Ht) as [n Hfeed].
  unfold loadLogFile, readLogFile, log_content, file_content in *.
  destruct (fs !! logFileName) as [f|] eqn:Hf.
  - spec_step quiet_os_read; [done|by apply Hreg|]. intros ? ? [-> ->]. apply spec_ignore_call.
    eapply spec_lift; [|split; [done|by exists n]].
    by rewrite (readLog_loop_reads _ _ recs tl) by (done || lia).
  - spec_step spec_os_read. intros r ? (-> & [(f & b & Hf' & _)|[[_ ->]|[? _]]]); [congruence| |done].
    destruct (reads_det _ _ _ _ _ Hr (reads_end [] eq_refl)) as [-> ->].
    simpl in Hp. injection Hp as -> ->. apply spec_ret. split; [done|]. by exists 0%Z.
Qed.

(** The state of a store that was just opened. *)
Definition fresh_disk (home : string) (infos : list dataFileInfo) (txid mode entries : Z) (invalid : bool)
    (bufSz : nat) (pred : Z → bool) : diskstore :=
  mkDisk pred mode bufSz home (take (length infos - 1) infos) (default (mkInfo "" 0) (last infos)) (uinc txid)
    None 0 entries invalid false.

Lemma quiet_os_remove n fs : n ∈ temp_names →
  spec true (os_remove n) fs (λ err fs', (err = None ∨ err = Some (Errno ENOENT)) ∧ only temp_names fs fs').
Proof.
  intros Hn. eapply spec_mono; [apply spec_os_remove|].
  intros err fs' [(-> & _ & ->)|[(-> & _ & ->)|(? & _)]]; auto with go. done.
Qed.

Lemma quiet_newDiskStore home infos txid mode entries invalid bufSz pred fs :
  (∀ f, fs !! logFileName = Some f → isRegular f = true) →
  let d := fresh_disk home infos txid mode entries invalid bufSz pred in
  spec true (newDiskStore home infos txid mode entries invalid bufSz pred) fs (λ r fs', ∃ fs1 d' f,
    only temp_names fs fs1 ∧ r = inr d' ∧ log_opened false fs1 fs' ∧ fs' !! logFileName = Some f ∧
    log_state_opened d f d').
Proof.
  intros Hreg d. unfold newDiskStore. fold d.
  assert (Hopen : ∀ fs1, only temp_names fs fs1 →
    spec true (r ← tryOpenLog d; mret (inr r.2)) fs1 (λ (r : goerr + diskstore) fs', ∃ fs1 d' f,
      only temp_names fs fs1 ∧ r = inr d' ∧ log_opened false fs1 fs' ∧ fs' !! logFileName = Some f ∧
      log_state_opened d f d')).
  { intros fs1 Ho. spec_step spec_tryOpenLog.
    { rewrite Ho; [done|]. names. }
    intros [err d'] fs2 [(f & -> & Hl & Hf & Hs)|[? _]]; [|done]. apply spec_ret.
    exists fs1, d', f. split_and!; auto. }
  eapply spec_bind; [apply quiet_os_remove; names|]. intros err fs1 [Herr Ho1].
  eapply (spec_bind _ _ _ _ (λ r fs', r = None ∧ fs' = fs1)).
  { destruct Herr as [-> | ->]; by apply spec_ret. }
  intros ? ? [-> ->]. eapply spec_bind; [apply quiet_os_remove; names|]. intros err2 fs2 [Herr2 Ho2].
  assert (only temp_names fs fs2) as Ho by by eapply only_trans.
  destruct Herr2 as [-> | ->]; by apply Hopen.
Qed.

(** Changing permissions keeps a directory that can be opened. *)
Lemma dir_ok_keeps fs fs' T t : (∀ name, keeps name fs fs') → dir_ok fs T t → dir_ok fs' T t.
Proof.
  intros Hk (Hf & name & a & B & recs & tl & Hn & Hr & Htl & Hp & Hj). split.
  - eapply keeps_files_ok; [apply (Hk "")| |done]. intros f Hlog. destruct (Hk "") as [_ Hv].
    rewrite Hlog in Hv. destruct (fs !! logFileName) as [f0|] eqn:E; [|done]. injection Hv as _ ->.
    apply (proj2 Hf logFileName f0); auto.
  - exists name, a, B, recs, tl. rewrite (keeps_log_content _ _ _ (Hk name)).
    split_and!; auto. eapply keeps_newest; [apply Hk|done].
Qed.

Lemma listed_old name a infos N : listed name a infos → (a < N)%Z →
  Forall (λ i, data_id (path i) = Some (txid i) ∧ path i ≠ name ∧ (txid i < N)%Z) (take (length infos - 1) infos).
Proof.
  intros [_ Ho] HN. eapply Forall_impl; [exact Ho|]. intros i (? & ? & ?). split_and!; auto; lia.
Qed.

Lemma listed_active name a infos : listed name a infos →
  path (default (mkInfo "" 0) (last infos)) = name ∧
  (name ≠ "" → txid (default (mkInfo "" 0) (last infos)) = a).
Proof. intros [-> _]. case_decide; simpl; [by subst|done]. Qed.

(** The invariant of a store that was just opened. *)
Lemma fresh_disk_inv home infos mode entries bufSz pred fs name a B recs tl T t :
  files_ok fs → newest fs name a B → reads (log_content fs) recs tl → tl ≠ TStray →
  play recs (B, a) = Some (T, t) → json_table T = T → (t < 2 ^ 63 - 1)%Z → listed name a infos →
  disk_inv (fresh_disk home infos t mode entries (bool_decide (tail_err tl ≠ None)) bufSz pred)
    T fs T name a B recs tl t.
Proof.
  intros Hf Hn Hr Htl Hp Hj Ht Hls.
  pose proof (newest_id _ _ _ _ Hn) as Ha. pose proof (play_t_nonneg _ _ _ _ _ _ _ Hn Hp) as Hat.
  split; simpl; rewrite ?uinc_small by lia; auto; try lia; try done.
  - by apply listed_active.
  - eapply listed_old; [done|lia].
  - intros Hv. split_and!; [done|done|]. intros _. split; [|done].
    apply bool_decide_eq_false in Hv. destruct tl; [done|done|]. by destruct Hv.
Qed.

(** Opening the log of a fresh store, valid or not. *)
Lemma disk_inv_log_reopened home infos mode entries bufSz pred fs fs' f d' name a B recs tl T t invalid :
  let d := fresh_disk home infos t mode entries invalid bufSz pred in
  disk_inv d T fs T name a B recs tl t → log_opened false fs fs' → fs' !! logFileName = Some f →
  log_state_opened d f d' →
  disk_inv d' T fs' T name a B recs tl t ∧ nextTxID d' = nextTxID d.
Proof.
  intros d Hi Ho Hf (sz & en & ->). split; [|done].
  pose proof (newest_name _ _ _ _ (inv_newest _ _ _ _ _ _ _ _ _ _ Hi)) as Hname.
  pose proof (log_opened_content _ _ _ Ho) as Hc. pose proof (log_opened_only _ _ _ Ho) as Honly.
  assert (isRegular f = true ∧ content f = log_content fs') as [Hreg Hcf].
  { destruct Ho as (f' & -> & Hr & _). unfold log_content, file_content. rewrite lookup_insert_eq in *.
    by injection Hf as ->. }
  destruct Hi. split; simpl; auto.
  - by eapply files_ok_log.
  - eapply keeps_newest; [by eapply keeps_data_log|done].
  - by rewrite Hc.
  - done.
  - intros b [= <-]. split_and!; [done|by rewrite Hf| |done]. simpl. unfold defaultBufSize. case_decide; lia.
  - intros Hv. destruct (inv_valid Hv) as (? & ? & Htr). split_and!; auto. intros _.
    split; [by apply Htr|]. intros b [= <-]. simpl. by rewrite Hcf.
Qed.

(** [openStore] on a directory that can be opened, without faults. *)
Section opening.
Context `{JsonEncoder}.

Lemma quiet_try_pathEnsure {B} n mode msg fs (k : IO (goerr + B)) R : all_regular fs →
  (∀ fs', same_view fs fs' → spec true k fs' R) →
  spec true (err ← pathEnsurePermissions n mode; err_then (mret (wrap_err msg err)) k) fs R.
Proof.
  intros Hr Hk. spec_step quiet_pathEnsure; [apply Hr|]. intros err fs' [-> Hv].
  apply spec_err_then, spec_ret. by apply Hk.
Qed.

Lemma same_view_regular fs fs' : same_view fs fs' → all_regular fs → all_regular fs'.
Proof. intros Hv Hr n f Hf. destruct (same_view_Some _ _ _ _ Hv Hf) as (f0 & Hf0 & <- & _). eauto. Qed.

Lemma quiet_open_files home mode bufSz ignore pred fs T t :
  dir_ok fs T t → all_regular fs → (t < 2 ^ 63 - 1)%Z →
  spec true (open_files home mode bufSz ignore pred) fs (λ r fs', ∃ s, r = inr s ∧
    mtable (mem s) = Some T ∧ disk_ok (disk s) T fs' T ∧ nextTxID (disk s) = (t + 1)%Z).
Proof.
  intros Hdir Hreg Ht. unfold open_files. apply spec_err_bind.
  eapply (spec_mono _ _ _ (λ r fs', r = inr tt ∧ fs' = fs)).
  { destruct ignore; [by apply spec_ret|]. apply spec_err_bind.
    eapply spec_mono; [apply quiet_readMetaFile; apply Hdir|]. intros ? ? [-> ->].
    apply spec_err_then, spec_ret. by apply spec_ret. }
  intros ? ? [-> ->]. cbn beta iota.
  apply quiet_try_pathEnsure; [done|]. intros fs1 Hv1.
  pose proof (same_view_regular _ _ Hv1 Hreg) as Hreg1.
  assert (Hd1 : dir_ok fs1 T t) by (eapply dir_ok_keeps; [intros ?; by apply same_view_keeps|done]).
  destruct Hd1 as (Hf & name & a & B & recs & tl & Hn & Hr & Htl & Hp & Hj).
  pose proof (newest_id _ _ _ _ Hn) as Ha. pose proof (play_t_nonneg _ _ _ _ _ _ _ Hn Hp) as Hat.
  apply spec_err_bind. eapply spec_mono; [eapply quiet_listDataFiles; [done|lia|by intros ???; apply Hreg1]|].
  intros r fs1' (-> & infos & -> & Hls & Hall). cbn beta iota.
  apply spec_err_then. eapply spec_mono.
  { apply quiet_ensure_all. eapply Forall_impl; [exact Hall|]. intros i _. apply Hreg1. }
  intros err fs2 [-> Hv2]. cbn beta iota.
  apply quiet_try_pathEnsure; [by eapply same_view_regular|]. intros fs3 Hv3.
  pose proof (same_view_trans _ _ _ Hv2 Hv3) as Hv. clear Hv2 Hv3.
  pose proof (same_view_regular _ _ Hv Hreg1) as Hreg3.
  assert (Hk : ∀ name, keeps name fs1 fs3) by (intros; by apply same_view_keeps).
  assert (Hn3 : newest fs3 name a B) by (eapply keeps_newest; [apply Hk|done]).
  assert (Hf3 : files_ok fs3).
  { eapply keeps_files_ok; [apply (Hk "")| |done]. intros f. apply Hreg3. }
  assert (Hr3 : reads (log_content fs3) recs tl) by (by rewrite (keeps_log_content _ _ _ (Hk ""))).
  apply spec_err_bind. eapply spec_mono; [by eapply quiet_load_newest|]. intros ? ? [-> ->]. cbn beta iota.
  spec_step quiet_loadLogFile; [intros f; apply Hreg3|exact Hr3|exact Hp|done|lia|].
  intros r ? (-> & n & ->). cbn beta iota.
  apply spec_err_bind. eapply spec_mono; [apply quiet_newDiskStore; intros f; apply Hreg3|].
  intros r fs5 (fs4 & d' & f & Ho4 & -> & Hlo & Hlog & Hst). cbn beta iota. apply spec_ret.
  eexists. split; [done|]. split; [done|]. simpl.
  pose proof (fresh_disk_inv home infos mode n bufSz pred fs3 name a B recs tl T t Hf3 Hn3 Hr3 Htl Hp Hj Ht Hls) as Hi.
  eapply disk_inv_keeps in Hi; [|apply keeps_only; [by eapply newest_name|exact Ho4]].
  eapply disk_inv_log_reopened in Hi; [|done..]. destruct Hi as [Hi Hnext].
  split; [by do 6 eexists|]. rewrite Hnext. simpl. rewrite uinc_small; lia.
Qed.
End opening.

(** What is left on disk can be opened again and holds the durable table. *)
Lemma disk_ok_dir_ok d M fs D : disk_ok d M fs D → ∃ t, dir_ok fs D t ∧ (t ≤ nextTxID d)%Z.
Proof.
  intros (name & a & B & recs & tl & t & Hi). exists t. destruct Hi. split; [|lia].
  split; [done|]. exists name, a, B, recs, tl. auto.
Qed.
