(* ===== verification/TestEncoder.v ===== *)
(** * An encoder with the laws

    A JSON printer that satisfies [EncoderLaws], so that theorems about every
    such encoder can be run on concrete inputs.  What is storable is decided by
    printing a value and reading it back. *)

From stdpp Require Import base gmap strings list fin_maps.
From Stdlib Require Import ZArith Lia SpecFloat.
From S2P Require Import Prelude GoValue Json JsonFacts Txid DiskData LogFacts DiskFacts.

#[local] Set Warnings "-register-all".

Definition quoted (s : string) : bytes := quote :: bs s ++ [quote].

Definition print_int (z : Z) : bytes :=
  if decide (z < 0)%Z then Byte.x2d :: format_uint (- z) else format_uint z.

(** Floats that are integers; others are not printed, and so not storable. *)
Definition print_float (f : float64) : bytes :=
  match f with
  | S754_zero false => format_uint 0
  | S754_finite neg m e =>
    let n := if decide (0 ≤ e)%Z then (Zpos m * 2 ^ e)%Z else (Zpos m / 2 ^ (- e))%Z in
    print_int (if neg then (- n)%Z else n)
  | _ => []
  end.

Fixpoint join (sep : bytes) (l : list bytes) : bytes :=
  match l with
  | [] => []
  | [b] => b
  | b :: l => b ++ sep ++ join sep l
  end.

Definition print_members (l : list (string * bytes)) : bytes :=
  open_brace :: join [comma] ((λ kb : string * bytes, quoted kb.1 ++ colon :: kb.2) <$> l) ++ [close_brace].

Fixpoint print_gval (v : gval) : bytes :=
  match v with
  | VNull => bs "null"
  | VBool true => bs "true"
  | VBool false => bs "false"
  | VInt z => print_int z
  | VFloat f => print_float f
  | VStr s => quoted s
  | VArr l => open_bracket :: join [comma] (print_gval <$> l) ++ [close_bracket]
  | VObj m => print_members (map_to_list (print_gval <$> m))
  end.

Definition action_text (name : string) (id : Z) : bytes :=
  open_brace :: quoted "op" ++ colon :: quoted name ++ comma :: quoted "id" ++ colon :: format_uint id ++ [close_brace].

Definition print (v : encodable) : bytes :=
  match v with
  | EncAction a => action_text (Op a) (ID a)
  | EncOp (opSet k v) => print_members [("k", quoted k); ("v", print_gval (VObj v))]
  | EncOp (opRemove k) => print_members [("k", quoted k)]
  | EncEntry e => print_members ((keyField, quoted (Key e)) :: map_to_list (print_gval <$> Fields e))
  | EncMeta m => print_members [("version", quoted (Version m))]
  end.

(** The text in two chunks. *)
#[export] Instance test_encoder : JsonEncoder := λ v,
  let b := print v in ([take 3 b; drop 3 b], true).

(** [j] is an object that [P] accepts, and all of the text. *)
Definition reads_back (b : bytes) (P : json → bool) : bool :=
  match parse b with
  | Some (j, []) => is_object j && P j
  | _ => false
  end.

Definition storable1 (k : string) (v : mapstr) : bool :=
  reads_back (print (EncOp (opSet k v))) (λ j, match decode_op opValSet j with
    | Some (opSet k' v') => bool_decide (k' = k ∧ v' = as_json <$> v) | _ => false end) &&
  reads_back (print (EncEntry (mkStoreEntry k v))) (λ j,
    bool_decide (decode_state j = Some (<[ keyField := VStr k ]> (as_json <$> v)))) &&
  bool_decide (v !! keyField = None).
Definition test_storable (k : string) (v : mapstr) : Prop :=
  storable1 k v && storable1 k (as_json <$> v) = true.
Definition test_storable_key (k : string) : Prop :=
  reads_back (print (EncOp (opRemove k))) (λ j, match decode_op opValRemove j with
    | Some (opRemove k') => bool_decide (k' = k) | _ => false end) = true.

Lemma two_chunks (b : bytes) : mjoin [take 3 b; drop 3 b] = b.
Proof. change (take 3 b ++ drop 3 b ++ [] = b). by rewrite app_nil_r, take_drop. Qed.

Lemma reads_back_encodes v (P : json → bool) (Q : json → Prop) :
  reads_back (print v) P = true → (∀ j, P j = true → Q j) → encodes v Q.
Proof.
  unfold reads_back, encodes. intros H HQ. destruct (parse (print v)) as [[j [|c r]]|] eqn:E; try done.
  apply andb_true_iff in H as [Ho Hp]. exists [take 3 (print v); drop 3 (print v)], j. split_and!; auto.
  by rewrite two_chunks.
Qed.

(** ** Actions *)
Lemma parse_action_text name id : name = opValSet ∨ name = opValRemove → (1 ≤ id)%Z →
  parse (action_text name id) = Some (JObj [("op", JStr name); ("id", JNum (format_uint id))], []).
Proof.
  intros Hname Hid. apply (parse_any_fuel 4). unfold action_text.
  pose proof (parse_value_uint id close_brace [] 0 ltac:(lia) (or_intror eq_refl)) as Hp.
  set (rest := format_uint id ++ [close_brace]) in *.
  assert (∀ rest, parse_value 4 (open_brace :: quoted "op" ++ colon :: quoted name ++ comma :: quoted "id" ++ colon :: rest)
    = mr ← (mr ← (vr ← parse_value 1 rest;
        match expect comma vr.2 with
        | Some r => mr ← parse_members 1 r; Some (("id", vr.1) :: mr.1, mr.2)
        | None => r ← expect close_brace vr.2; Some ([("id", vr.1)], r)
        end); Some (("op", JStr name) :: mr.1, mr.2)); Some (JObj mr.1, mr.2)) as ->.
  { intros r. destruct Hname as [-> | ->]; reflexivity. }
  by rewrite Hp.
Qed.

Lemma encodes_action_text name id : name = opValSet ∨ name = opValRemove → (1 ≤ id < 2 ^ 64)%Z →
  encodes (EncAction (mkAction name id)) (λ j, decode_action j = Some (mkAction name id)).
Proof.
  intros Hname Hid. set (b := print (EncAction (mkAction name id))).
  assert (parse_uint (format_uint id) = Some id) as Hu by (apply parse_format_uint; lia).
  exists [take 3 b; drop 3 b]. eexists. split; [done|].
  rewrite two_chunks. split; [exact (parse_action_text name id Hname (proj1 Hid))|].
  split; [done|].
  assert (∀ lit, decode_action (JObj [("op", JStr name); ("id", JNum lit)]) =
    a ← (n ← parse_uint lit; Some (mkAction name n)); Some a) as -> by reflexivity.
  by rewrite Hu.
Qed.

#[export] Instance test_encoder_laws : EncoderLaws test_storable test_storable_key.
Proof.
  split.
  - apply encodes_action_text.
  - intros k v [H _]%andb_true_iff. apply andb_true_iff in H as [[H _]%andb_true_iff _].
    eapply reads_back_encodes; [exact H|]. intros j. simpl.
    destruct (decode_op opValSet j) as [[k' v'|k']|]; try done. by intros [-> ->]%bool_decide_eq_true.
  - intros k H. eapply reads_back_encodes; [exact H|]. intros j. simpl.
    destruct (decode_op opValRemove j) as [[k' v'|k']|]; try done. by intros ->%bool_decide_eq_true.
  - intros k v [H _]%andb_true_iff. apply andb_true_iff in H as [[_ H]%andb_true_iff _].
    eapply reads_back_encodes; [exact H|]. intros j. simpl. by intros ->%bool_decide_eq_true.
  - eapply (reads_back_encodes _ (λ j, bool_decide (Version <$> decode_meta j = Some storeVersion)));
      [reflexivity|]. intros j Hj%bool_decide_eq_true.
    destruct (decode_meta j) as [[v]|]; [|done]. by injection Hj as ->.
  - intros k v [H _]%andb_true_iff. apply andb_true_iff in H as [_ H]. by apply bool_decide_eq_true in H.
  - intros k v [H1 H2]%andb_true_iff. apply andb_true_iff. split; [done|]. by rewrite as_json_map_idem.
Qed.

(** Values that are maps already, for which typeconv.Convert is a copy. *)
#[export] Instance map_conv : TypeConv mapstr := {
  convert_to_map v := inr v;
  convert_from_map m _ := inr m
}.
