(* ===== verification/Returns.v ===== *)
(** * No operation of memlog panics or loops

    For every content of the directory, every fault script and every encoder:
    opening, updating and closing a store return.  The exceptions are in the
    code: [openStore] on a failing [os.Stat], and [Set] on a closed store. *)

From stdpp Require Import base gmap strings list fin_maps.
From Stdlib Require Import ZArith Lia.
From S2P Require Import Prelude GoValue Json JsonFacts Fs FsFacts Txid DiskData Diskstore Memlog LogFacts DiskFacts TestEncoder.
Import Util Bufio UtilFacts.

Definition returns {A} (m : IO A) : Prop := ∀ w, ∃ a w', m w = Done (a, w').

Lemma returns_ret {A} (a : A) : returns (mret a).
Proof. intros w. by exists a, w. Qed.
Lemma returns_bind {A B} (m : IO A) (f : A → IO B) : returns m → (∀ a, returns (f a)) → returns (m ≫= f).
Proof.
  intros Hm Hf w. destruct (Hm w) as (a & w1 & E). destruct (Hf a w1) as (b & w2 & E2).
  exists b, w2. unfold mbind, io_bind. by rewrite E.
Qed.
Lemma returns_err_bind {A B} (m : IO (goerr + A)) (k : A → IO (goerr + B)) :
  returns m → (∀ a, returns (k a)) → returns (err_bind m k).
Proof. intros Hm Hk. apply returns_bind; [done|]. intros [e|a]; [apply returns_ret|apply Hk]. Qed.
Lemma returns_err_then {B} (m : IO (option goerr)) (k : IO (goerr + B)) :
  returns m → returns k → returns (err_then m k).
Proof. intros Hm Hk. apply returns_bind; [done|]. intros [e|]; [apply returns_ret|apply Hk]. Qed.
Lemma returns_spec {A} (m : IO A) (Q : gmap string file → A → gmap string file → Prop) :
  (∀ fs, spec false m fs (Q fs)) → returns m.
Proof. intros H w. destruct (H (files w) w eq_refl ltac:(done)) as (a & w' & E & _). eauto. Qed.

Create HintDb returns.
#[export] Hint Resolve returns_ret : returns.

(** Goes through binds, early returns and cases, and uses the lemmas in the database. *)
Ltac returns_tac :=
  repeat first
    [ solve [auto with returns]
    | apply returns_err_bind; [|intros ?]
    | apply returns_err_then
    | apply returns_bind; [|intros ?]
    | case_match ].

(** ** System calls *)
Lemma returns_next_fault : returns next_fault.
Proof. eapply returns_spec. intros fs. apply spec_next_fault. Qed.
Lemma returns_get_files : returns get_files.
Proof. intros w. by eexists _, _. Qed.
Lemma returns_modify_files g : returns (modify_files g).
Proof. intros w. by eexists _, _. Qed.
#[export] Hint Resolve returns_next_fault returns_get_files returns_modify_files : returns.

Lemma returns_syscall {A} (m : IO (goerr + A)) : returns m → returns (syscall m).
Proof. intros Hm. unfold syscall. returns_tac. Qed.
#[export] Hint Resolve returns_syscall : returns.

Lemma returns_file_call : returns file_call.
Proof. eapply returns_spec. intros fs. apply spec_file_call. Qed.
Lemma returns_os_remove n : returns (os_remove n).
Proof. eapply returns_spec. intros fs. apply spec_os_remove. Qed.
Lemma returns_os_rename old new : returns (os_rename old new).
Proof. eapply returns_spec. intros fs. apply spec_os_rename. Qed.
Lemma returns_os_open n c t m : returns (os_open n c t m).
Proof. eapply returns_spec. intros fs. apply spec_os_open. Qed.
Lemma returns_file_size h : returns (file_size h).
Proof. eapply returns_spec. intros fs. apply spec_file_size. Qed.
Lemma returns_seek_end h : returns (seek_end h).
Proof. eapply returns_spec. intros fs. apply spec_seek_end. Qed.
Lemma returns_os_read n : returns (os_read n).
Proof. eapply returns_spec. intros fs. apply spec_os_read. Qed.
Lemma returns_os_names : returns os_names.
Proof. eapply returns_spec. intros fs. apply spec_os_names. Qed.
Lemma returns_syncFile : returns syncFile.
Proof. eapply returns_spec. intros fs. apply spec_syncFile. Qed.
Lemma returns_trySyncPath : returns trySyncPath.
Proof. eapply returns_spec. intros fs. apply spec_trySyncPath. Qed.
Lemma returns_pathEnsurePermissions n m : returns (pathEnsurePermissions n m).
Proof. eapply returns_spec. intros fs. apply spec_pathEnsurePermissions. Qed.
#[export] Hint Resolve returns_file_call returns_os_remove returns_os_rename returns_os_open returns_file_size
  returns_seek_end returns_os_read returns_os_names returns_syncFile returns_trySyncPath
  returns_pathEnsurePermissions : returns.

Lemma returns_file_truncate h : returns (file_truncate h).
Proof. unfold file_truncate. returns_tac. Qed.
#[export] Hint Resolve returns_file_truncate : returns.

(** ** Writers *)
Lemma file_write_returns p h w : ∃ n err w', file_write p h w = Done (n, err, mkHandle (h_name h) (h_pos h + n), w') ∧
  n ≤ length p ∧ length (faults w') ≤ length (faults w) ∧ (err = None → n = length p).
Proof.
  destruct w as [hm fs [|[|m e] l]].
  - exists (length p), None. eexists. split; [reflexivity|]. simpl. auto.
  - exists (length p), None. eexists. split; [reflexivity|]. simpl. auto.
  - exists (m `min` length p), (Some (Errno e)). eexists. split; [reflexivity|]. simpl. split_and!; [lia|lia|done].
Qed.

Lemma returns_file_write p h : returns (file_write p h).
Proof. intros w. destruct (file_write_returns p h w) as (n & err & w' & E & _). eauto. Qed.

Lemma ensureWrite_returns fuel N p h w : length (faults w) < fuel →
  ∃ n err h' w', ensureWrite file_write fuel N p h w = Done (n, err, h', w') ∧ n ≤ N + length p ∧
    (err = None → n = N + length p).
Proof.
  revert N p h w. induction fuel as [|fuel IH]; intros N p h w Hl; [lia|].
  destruct p as [|c p'] eqn:Hp; [exists N, None, h, w; simpl; split_and!; auto; lia|].
  rewrite <-Hp, ensureWrite_step by (by subst).
  destruct (file_write_returns p h w) as (n & err & w' & E & Hn & Hf & Hall). rewrite E.
  rewrite decide_False by lia. destruct err as [e|].
  - destruct (isRetryErr e).
    + apply file_write_fault in E.
      destruct (IH (N + n) (drop n p) (mkHandle (h_name h) (h_pos h + n)) w') as (n2 & err2 & h2 & w2 & -> & Hn2 & Ha2); [lia|].
      rewrite length_drop in *. exists n2, err2, h2, w2. split_and!; [done|lia|]. intros He. rewrite (Ha2 He). lia.
    + exists (N + n), (Some e), (mkHandle (h_name h) (h_pos h + n)), w'. split_and!; [done|lia|done].
  - rewrite (Hall eq_refl) in *. rewrite drop_ge by lia.
    exists (N + length p), None, (mkHandle (h_name h) (h_pos h + length p)), w'.
    split_and!; [by destruct fuel|lia|done].
Qed.

Lemma raw_write_returns p h w : ∃ n err h' w', raw_write p h w = Done (n, err, h', w') ∧ n ≤ length p ∧
  (err = None → n = length p).
Proof.
  unfold raw_write. destruct (ensureWrite_returns (S (length (faults w))) 0 p h w) as (n & err & h' & w' & E & ? & ?); [lia|].
  exists n, err, h', w'. auto.
Qed.
Lemma returns_raw_write p h : returns (raw_write p h).
Proof. intros w. destruct (raw_write_returns p h w) as (n & err & h' & w' & E & _). eauto. Qed.
#[export] Hint Resolve returns_file_write returns_raw_write : returns.

Lemma Flush_returns b w : ∃ err b' w', Flush b w = Done (err, b', w') ∧ werr b' = err ∧ (err = None → buf b' = []).
Proof.
  unfold Flush. destruct (werr b) as [e|] eqn:He; [by exists (Some e), b, w|].
  destruct (decide (buf b = [])) as [Hb|Hb]; [by exists None, b, w|].
  destruct (raw_write_returns (buf b) (out b) w) as (n & err & h & w' & E & Hn & Hall).
  unfold mbind, io_bind. rewrite E. cbn beta iota.
  set (err' := if decide _ then _ else err). destruct err' as [e|]; by eexists _, _, _.
Qed.
Lemma returns_Flush b : returns (Flush b).
Proof. intros w. destruct (Flush_returns b w) as (err & b' & w' & E & _). eauto. Qed.
#[export] Hint Resolve returns_Flush : returns.

(** At most two rounds: one fills and flushes the buffer, one writes the rest. *)
Lemma write_loop_rest fuel nn p b w : buf b = [] →
  ∃ r, write_loop (S fuel) nn p b w = Done r.
Proof.
  intros Hb. cbn [write_loop]. case_decide as Hd.
  - rewrite decide_True by done.
    destruct (raw_write_returns p (out b) w) as (n & err & h & w' & E & Hn & Hall).
    unfold mbind, io_bind. rewrite E. destruct err as [e|].
    + destruct fuel; cbn [write_loop]; (rewrite decide_False; [by eexists|]); intros [_ ?]; done.
    + rewrite (Hall eq_refl), drop_ge by lia.
      destruct fuel; cbn [write_loop]; (rewrite decide_False; [by eexists|]); simpl; intros [? _]; lia.
  - destruct (werr b); by eexists.
Qed.

Lemma returns_Write p b : returns (Write p b).
Proof.
  intros w. unfold Write. assert (∃ r, write_loop 2 0 p b w = Done r) as [[r w'] E]; [|eauto].
  destruct (decide (buf b = [])) as [Hb|Hb]; [by apply write_loop_rest|].
  remember 1 as f1. cbn [write_loop]. case_decide as Hd.
  - rewrite decide_False by done.
    destruct (Flush_returns (mkWriter (buf b ++ take (available b) p) (size b) None (out b)) w)
      as (err & b' & w' & E & He & Hbuf).
    unfold mbind, io_bind. rewrite E. cbn beta iota. cbn [snd fst]. destruct err as [e|].
    + subst f1. cbn [write_loop]. rewrite decide_False by (intros [_ Hx]; congruence). rewrite He. by eexists.
    + subst f1. by apply write_loop_rest, Hbuf.
  - destruct (werr b); by eexists.
Qed.

Lemma returns_WriteByte c b : returns (WriteByte c b).
Proof. unfold WriteByte. returns_tac. Qed.
#[export] Hint Resolve returns_Write returns_WriteByte : returns.

(** ** The disk store *)
Section encoding.
Context `{JsonEncoder}.

Lemma returns_Encode {W} (write : bytes → W → IO (nat * option goerr * W)) v w :
  (∀ p w, returns (write p w)) → returns (Encode write v w).
Proof.
  intros Hw. unfold Encode. destruct (encode_chunks v) as [l ok]. apply returns_bind; [|intros [[e|] w']; returns_tac].
  revert w. induction l as [|p l IH]; intros w; cbn [write_chunks]; returns_tac.
Qed.

Lemma returns_count_write p c : returns (count_write p c).
Proof. unfold count_write, countWrite. returns_tac. Qed.
#[local] Hint Resolve returns_Encode returns_count_write : returns.

Lemma returns_log_write id o b : returns (log_write id o b).
Proof. unfold log_write. returns_tac. Qed.
#[local] Hint Resolve returns_log_write : returns.

Lemma tryOpenLog_returns s w : ∃ err s' w', tryOpenLog s w = Done (err, s', w') ∧
  (err = None → is_Some (logFile s')).
Proof.
  assert (∀ (m : IO (goerr + handle)), returns m → True) as _ by done.
  unfold tryOpenLog. destruct (returns_os_open logFileName true (logNeedsTruncate s) (fileMode s) w) as (r & w1 & E).
  unfold mbind at 1, io_bind at 1. rewrite E. destruct r as [e|f]; [by eexists _, _, _|].
  destruct (returns_seek_end f w1) as (r & w2 & E2).
  unfold mbind at 1, io_bind at 1. rewrite E2. destruct r as [e|f2].
  { destruct (returns_file_call w2) as (e3 & w3 & E3). unfold mbind, io_bind. rewrite E3. by eexists _, _, _. }
  unfold mbind at 1, io_bind at 1.
  match goal with |- context [match ?m w2 with _ => _ end] => assert (returns m) as Hm by returns_tac;
    destruct (Hm w2) as (r & w3 & E3) end.
  rewrite E3. destruct r as [e|[sz en]].
  { destruct (returns_file_call w3) as (e4 & w4 & E4). unfold mbind, io_bind. rewrite E4. by eexists _, _, _. }
  eexists _, _, _. split; [done|]. intros _. simpl. by eexists.
Qed.
Lemma returns_tryOpenLog s : returns (tryOpenLog s).
Proof. intros w. destruct (tryOpenLog_returns s w) as (err & s' & w' & E & _). eauto. Qed.
#[local] Hint Resolve returns_tryOpenLog : returns.

Lemma returns_LogOperation o s : returns (LogOperation o s).
Proof.
  intros w. unfold LogOperation. destruct (logInvalid s); [by eexists _, _|].
  assert (∃ err s1 w1, (match logFile s with Some _ => mret (None, s) | None => tryOpenLog s end : IO (option goerr * diskstore)) w
    = Done (err, s1, w1) ∧ (err = None → is_Some (logFile s1))) as (err & s1 & w1 & E & Hlf).
  { destruct (logFile s) as [b|] eqn:Hb; [|apply tryOpenLog_returns]. exists None, s, w. split; [done|]. by rewrite Hb. }
  unfold mbind at 1, io_bind at 1. rewrite E. destruct err as [e|]; [by eexists _, _|].
  destruct (Hlf eq_refl) as [b Hb]. rewrite Hb.
  assert (∀ m : IO (option goerr * diskstore), returns m → ∃ a w', m w1 = Done (a, w')) as Hm by (intros m Hm; apply Hm).
  apply Hm. apply returns_bind; [auto with returns|]. intros [err [n b']]. returns_tac.
Qed.

Context (iterate : table → list (string * entry)).

Lemma returns_write_entries l : ∀ first b, returns (write_entries first l b).
Proof. induction l as [|[k e] l IH]; intros first b; cbn [write_entries]; returns_tac. Qed.
#[local] Hint Resolve returns_write_entries : returns.

Lemma returns_write_states t b : returns (write_states iterate t b).
Proof. unfold write_states. returns_tac. Qed.
#[local] Hint Resolve returns_write_states : returns.

Lemma returns_checkpointTmpFile n m bz t : returns (checkpointTmpFile iterate n m bz t).
Proof. unfold checkpointTmpFile. returns_tac. Qed.
Lemma returns_checkpointClearLog s : returns (checkpointClearLog s).
Proof. unfold checkpointClearLog. returns_tac. Qed.
Lemma returns_os_write_file n d m : returns (os_write_file n d m).
Proof. unfold os_write_file. returns_tac. Qed.
#[local] Hint Resolve returns_checkpointTmpFile returns_checkpointClearLog returns_os_write_file : returns.
Lemma returns_updateActiveMarker h n : returns (updateActiveMarker h n).
Proof. unfold updateActiveMarker. returns_tac. Qed.
Lemma returns_remove_files l : returns (remove_files l).
Proof. induction l as [|i l IH]; cbn [remove_files]; returns_tac. Qed.
#[local] Hint Resolve returns_updateActiveMarker returns_remove_files : returns.
Lemma returns_removeOldDataFiles s : returns (removeOldDataFiles s).
Proof. unfold removeOldDataFiles. returns_tac. Qed.
#[local] Hint Resolve returns_removeOldDataFiles : returns.

Lemma returns_WriteCheckpoint t s : returns (WriteCheckpoint iterate t s).
Proof. unfold WriteCheckpoint. returns_tac. Qed.
Lemma returns_disk_Close s : returns (Diskstore.Close s).
Proof. unfold Diskstore.Close. returns_tac. Qed.
#[local] Hint Resolve returns_LogOperation returns_WriteCheckpoint returns_disk_Close : returns.

Lemma returns_logOperation o s : returns (logOperation iterate o s).
Proof. unfold logOperation. returns_tac. Qed.

(** ** Opening *)
Lemma returns_writeMetaFile m : returns (writeMetaFile m).
Proof. unfold writeMetaFile. returns_tac. Qed.
Lemma returns_readMetaFile : returns readMetaFile.
Proof. unfold readMetaFile. returns_tac. Qed.
Lemma returns_list_infos l : returns (list_infos l).
Proof.
  induction l as [|n l IH]; cbn [list_infos]; [returns_tac|].
  apply returns_bind; [apply returns_syscall; returns_tac|]. intros [e|b]; returns_tac.
Qed.
#[local] Hint Resolve returns_writeMetaFile returns_readMetaFile returns_list_infos : returns.
Lemma returns_listDataFiles : returns listDataFiles.
Proof. unfold listDataFiles. returns_tac. Qed.
Lemma returns_ensure_all m l : returns (ensure_all m l).
Proof. induction l as [|i l IH]; cbn [ensure_all]; returns_tac. Qed.
Lemma returns_load_newest l : returns (load_newest l).
Proof. unfold load_newest, loadDataFile, readDataFile. returns_tac. Qed.
#[local] Hint Resolve returns_listDataFiles returns_ensure_all returns_load_newest : returns.

(** Any log whatever can be read: the callback never meets a nil table. *)
Lemma feed_returns recs tl t a n : ∃ err t' a' n',
  feed apply_entry recs tl (mkMem (Some t), a, n) = Done (err, (mkMem (Some t'), a', n')).
Proof.
  revert t a n. induction recs as [|[o id] recs IH]; intros t a n; simpl; [by eexists _, _, _, _|].
  destruct (isTxIDLessEqual id a); [apply IH|]. destruct (decide _); [|by eexists _, _, _, _].
  destruct o as [k v|k]; cbn [mbind outcome_bind mem_Set mtable]; [apply IH|].
  unfold mem_Remove. destruct (mem_Has _ k); simpl; apply IH.
Qed.

Lemma returns_lift {A} (m : outcome A) a : m = Done a → returns (io_lift m).
Proof. intros -> w. by exists a, w. Qed.

Lemma readLog_returns b t a n : ∃ r,
  readLog_loop apply_entry (S (length b)) b (mkMem (Some t), a, n) = Done r.
Proof.
  destruct (reads_total b) as (recs & tl & Hr). rewrite (readLog_loop_reads _ _ _ _ _ _ Hr) by lia.
  destruct (feed_returns recs tl t a n) as (err & t' & a' & n' & ->). by eexists.
Qed.

Lemma returns_loadLogFile t a : returns (loadLogFile (mkMem (Some t)) a).
Proof.
  unfold loadLogFile, readLogFile. apply returns_bind; [auto with returns|]. intros [e|b].
  - destruct (isNotExist _); [auto with returns|]. by eapply returns_lift.
  - apply returns_bind; [auto with returns|]. intros _.
    destruct (readLog_returns b t a 0%Z) as [r E]. by eapply returns_lift.
Qed.
Lemma returns_newDiskStore hm l t m e i bz p : returns (newDiskStore hm l t m e i bz p).
Proof. unfold newDiskStore. returns_tac. Qed.
#[local] Hint Resolve returns_loadLogFile returns_newDiskStore : returns.

Lemma returns_open_files hm m bz ig p : returns (open_files hm m bz ig p).
Proof. unfold open_files. returns_tac. Qed.

Lemma returns_open_home m w :
  (∀ n e l, faults w = FFail n e :: l → e = ENOENT) → ∃ r w', open_home m w = Done (r, w').
Proof.
  intros Hf. unfold open_home, os_stat_home, syscall. destruct w as [h fs l].
  assert (Hmk : returns os_mkdir_home).
  { intros w. destruct w as [h' fs' [|[|n e] l']]; by eexists _, _. }
  assert (Habs : returns (err_then os_mkdir_home (err_then (writeMetaFile m) (mret (inr tt))))) by returns_tac.
  assert (Hdir : ∀ msg, returns (err ← pathEnsurePermissions metaFileName m; err_then (mret (wrap_err msg err)) (mret (inr tt))))
    by (intros msg; returns_tac).
  destruct l as [|[|n e] l]; [destruct h|destruct h|].
  - exact (Habs (mkWorld HomeAbsent fs [])).
  - by eexists _, _.
  - exact (Hdir _ (mkWorld HomeDir fs [])).
  - exact (Habs (mkWorld HomeAbsent fs l)).
  - by eexists _, _.
  - exact (Hdir _ (mkWorld HomeDir fs l)).
  - rewrite (Hf n e l eq_refl) in *. exact (Habs (mkWorld h fs l)).
Qed.

Lemma openStore_stat_fails hm m bz ig p h fs n e l : e ≠ ENOENT →
  openStore hm m bz ig p (mkWorld h fs (FFail n e :: l)) = Panic "invalid memory address or nil pointer dereference".
Proof. intros He. by destruct e. Qed.

Lemma returns_openStore hm m bz ig p w :
  (∀ n e l, faults w = FFail n e :: l → e = ENOENT) → ∃ r w', openStore hm m bz ig p w = Done (r, w').
Proof.
  intros Hf. destruct (returns_open_home m w Hf) as (r & w1 & E).
  unfold openStore, err_bind, mbind, io_bind. rewrite E. destruct r as [e|[]]; [by eexists _, _|].
  destruct (returns_open_files hm m bz ig p w1) as (r & w2 & ->). by eexists _, _.
Qed.

(** ** Operations *)
Context {V : Type} `{TypeConv V}.

Lemma returns_store_Set k v s : is_Some (mtable (mem s)) → returns (store_Set iterate k v s).
Proof.
  intros [t Ht]. unfold store_Set. destruct (convert_to_map v); [returns_tac|].
  apply returns_bind; [|intros m'; apply returns_logOperation].
  unfold mem_Set. rewrite Ht. by eapply returns_lift.
Qed.
Lemma returns_store_Remove k s : returns (store_Remove iterate k s).
Proof. apply returns_logOperation. Qed.
Lemma returns_Checkpoint s : returns (Checkpoint iterate s).
Proof. unfold Checkpoint. returns_tac. Qed.
Lemma returns_store_Close s : returns (store_Close s).
Proof. unfold store_Close. returns_tac. Qed.
End encoding.

(** C15. Opening a store returns (a store or an error; no panic, no endless loop)
    for every content of its directory, every sequence of I/O errors and every
    encoder, but for one: if the first [os.Stat] fails with anything but "does
    not exist", the nil FileInfo is dereferenced. *)
Theorem openStore_returns_iff `{JsonEncoder} (home : string) (mode : Z) (bufSz : nat) (ignore : bool)
    (pred : Z → bool) (w : world) :
  (∃ r w', openStore home mode bufSz ignore pred w = Done (r, w')) ↔
  ∀ n e l, faults w = FFail n e :: l → e = ENOENT.
Proof.
  split; [|apply returns_openStore]. intros (r & w' & E) n e l Hl.
  destruct (decide (e = ENOENT)) as [|He]; [done|]. destruct w as [h fs fl]. simpl in Hl. subst fl.
  by rewrite openStore_stat_fails in E.
Qed.


