(* ===== verification/Durable.v ===== *)
(** * Durability of the memlog store

    The specification of a store is a finite map; a run of the store under any
    fault script refines it in memory, and what a later start loads is the map
    after a prefix of the operations that contains every acknowledged one. *)

From stdpp Require Import base gmap strings list fin_maps.
From Stdlib Require Import ZArith Lia.
From S2P Require Import Prelude GoValue Json Fs FsFacts Txid DiskData Diskstore Memlog.
From S2P Require Import LogFacts DiskFacts DiskSpec DiskInv DiskOps MemlogFacts TestEncoder.

(** ** Runs of operations *)
Inductive command (V : Type) :=
| CSet (key : string) (v : V)
| CRemove (key : string)
| CCheckpoint.
Arguments CSet {_} _ _.
Arguments CRemove {_} _.
Arguments CCheckpoint {_}.

Section durable.
Context `{EncoderLaws storable storable_key} {V : Type} `{!TypeConv V}.
Context (iterate : table → list (string * entry)) (Hiterate : ∀ t, iterate t ≡ₚ map_to_list t).

Definition exec (c : command V) (s : store) : IO (option goerr * store) :=
  match c with
  | CSet k v => store_Set iterate k v s
  | CRemove k => store_Remove iterate k s
  | CCheckpoint => Checkpoint iterate s
  end.

(** All errors, in order. *)
Fixpoint run (cs : list (command V)) (s : store) : IO (list (option goerr) * store) :=
  match cs with
  | [] => mret ([], s)
  | c :: cs =>
    r ← exec c s;
    rs ← run cs r.2;
    mret (r.1 :: rs.1, rs.2)
  end.

(** The specification: a map from keys to values.  A value that does not
    convert changes nothing. *)
Definition spec_command (c : command V) (t : table) : table :=
  match c with
  | CSet k v => match convert_to_map v with inr m => <[ k := mkEntry m ]> t | inl _ => t end
  | CRemove k => delete k t
  | CCheckpoint => t
  end.
Definition spec_run (cs : list (command V)) (t : table) : table := foldl (λ t c, spec_command c t) t cs.

Definition command_storable (c : command V) : Prop :=
  match c with
  | CSet k v => ∀ m, convert_to_map v = inr m → storable k m
  | CRemove k => storable_key k
  | CCheckpoint => True
  end.

(** ** One operation *)
Definition store_ok (s : store) (M : table) (fs : gmap string file) (D : table) : Prop :=
  mtable (mem s) = Some M ∧ table_storable (storable := storable) M ∧ disk_ok (disk s) M fs D.

(** The state after an operation that made [M'] of the memory table; without
    faults the error is [err0], and what was durable stays so. *)
Definition step_ok (q : bool) (err0 : option goerr) (s : store) (M D M' : table) (r : option goerr * store)
    (fs' : gmap string file) : Prop :=
  ∃ D', store_ok r.2 M' fs' D' ∧ durable_step r.1 D D' M' ∧
    (nextTxID (disk r.2) ≤ nextTxID (disk s) + 1)%Z ∧
    (q = true → r.1 = err0 ∧ (D = json_table M → D' = json_table M')).

Lemma spec_logOperation q s M M0 fs D o :
  disk_ok (disk s) M fs D → op_storable (storable := storable) (storable_key := storable_key) o →
  table_storable (storable := storable) (apply_op o M) → mtable (mem s) = Some (apply_op o M) →
  (nextTxID (disk s) < 2 ^ 63 - 1)%Z → all_regular fs →
  spec q (logOperation iterate o s) fs (step_ok q None s M0 D (apply_op o M)).
Proof.
  intros Hok Ho HM Hmem HN Hreg. unfold logOperation. rewrite Hmem. simpl default.
  destruct (mustCheckpoint (disk s)) eqn:Hmust.
  - spec_step spec_WriteCheckpoint; [done|exact Hok|exact HM|done|].
    intros [err d'] fs1 [Hr Hq]. destruct err as [e|].
    + destruct Hr as [-> Hok1]. eapply spec_bind.
      { eapply spec_LogOperation; [exact Hok1|done|done]. }
      intros [err d2] fs2 (D2 & Hok2 & [Hd _] & _ & Hn2 & _). apply spec_ret.
      exists D2. split_and!; [by split_and!|by split|done|].
      intros Hqt. by specialize (Hq Hqt (Hreg _)).
    + destruct Hr as (Hok1 & Hn1 & _). apply spec_ret. exists (json_table (apply_op o M)).
      split_and!; [by split_and!|apply durable_new|simpl; lia|done].
  - spec_step spec_LogOperation; [exact Hok|done|done|].
    intros [err d2] fs2 (D2 & Hok2 & Hd & Hq & Hn2 & _). apply spec_ret.
    exists D2. split_and!; [by split_and!|done|done|]. intros Hqt. simpl.
    unfold mustCheckpoint in Hmust. apply orb_false_iff in Hmust as [Hv _].
    rewrite (Hq Hqt Hv) in *. split; [done|]. intros _. by apply Hd.
Qed.

Lemma mem_Remove_mtable k m t : mtable m = Some t → mtable (mem_Remove k m).2 = Some (delete k t).
Proof.
  intros Hm. unfold mem_Remove, mem_Has. rewrite Hm. case_bool_decide as Hk; simpl; [by rewrite ?Hm|].
  rewrite Hm, delete_id; [done|]. by rewrite <-eq_None_not_Some in Hk.
Qed.

(** The error of an operation without faults. *)
Definition command_error (c : command V) : option goerr :=
  match c with
  | CSet _ v => match convert_to_map v with inl e => Some e | inr _ => None end
  | _ => None
  end.

Lemma spec_exec q c s M fs D :
  store_ok s M fs D → command_storable c → (nextTxID (disk s) < 2 ^ 63 - 1)%Z → all_regular fs →
  spec q (exec c s) fs (step_ok q (command_error c) s M D (spec_command c M)).
Proof.
  intros (Hm & Hst & Hok) Hc HN Hreg. destruct c as [k v|k|]; simpl in *.
  - unfold store_Set. destruct (convert_to_map v) as [e|m] eqn:Ev.
    + apply spec_ret. exists D. split_and!; [by split_and!|apply durable_same|simpl; lia|done].
    + assert (mem_Set k m (mem s) = Done (mkMem (Some (<[ k := mkEntry m ]> M)))) as Hset
        by (unfold mem_Set; by rewrite Hm).
      spec_step (spec_lift q _ _ fs (λ r fs', r = mkMem (Some (<[ k := mkEntry m ]> M)) ∧ fs' = fs) Hset); [done|].
      intros ? ? [-> ->]. apply (spec_logOperation q (mkStore (disk s) _) M M fs D (opSet k m)); auto; [by apply Hc|].
      intros k' e. simpl. rewrite lookup_insert_Some. intros [[<- <-]|[_ ?]]; simpl; eauto.
  - unfold store_Remove. apply (spec_logOperation q (mkStore (disk s) _) M M fs D (opRemove k)); auto.
    + intros k' e. simpl. rewrite lookup_delete_Some. intros [_ ?]; eauto.
    + simpl. by apply mem_Remove_mtable.
  - unfold Checkpoint. rewrite Hm. simpl. spec_step spec_WriteCheckpoint; [done|exact Hok|exact Hst|done|].
    intros [err d'] fs1 [Hr Hq]. apply spec_ret. destruct err as [e|].
    + destruct Hr as [-> Hok1]. exists D. split_and!; [by split_and!|apply durable_same|simpl; lia|].
      intros Hqt. by specialize (Hq Hqt (Hreg _)).
    + destruct Hr as (Hok1 & Hn1 & _). exists (json_table M).
      split_and!; [by split_and!|apply durable_new|simpl; lia|done].
Qed.

(** ** Runs *)

(** Every acknowledged operation is among the first [i], and these are durable. *)
Definition durable_prefix (cs : list (command V)) (M D D' : table) (errs : list (option goerr)) : Prop :=
  (D' = D ∧ Forall (λ err, err ≠ None) errs) ∨
  ∃ i, i ≤ length cs ∧ (∀ j, errs !! j = Some None → j < i) ∧ D' = json_table (spec_run (take i cs) M).

Definition run_ok (q : bool) (cs : list (command V)) (N : Z) (M D : table) (r : list (option goerr) * store)
    (fs' : gmap string file) : Prop :=
  length r.1 = length cs ∧ ∃ D' : table, store_ok r.2 (spec_run cs M) fs' D' ∧
    durable_prefix cs M D D' r.1 ∧ (nextTxID (disk r.2) ≤ N + Z.of_nat (length cs))%Z ∧
    (q = true → r.1 = command_error <$> cs ∧ (D = json_table M → D' = json_table (spec_run cs M))).

Lemma durable_prefix_cons c cs M D D1 D2 err errs :
  durable_step err D D1 (spec_command c M) → durable_prefix cs (spec_command c M) D1 D2 errs →
  durable_prefix (c :: cs) M D D2 (err :: errs).
Proof.
  intros [Hd Hack] [[-> Herrs]|(i & Hi & Hjs & ->)].
  - assert (Hj : ∀ j, (err :: errs) !! j = Some None → j = 0 ∧ err = None).
    { intros [|j] Hj; simpl in Hj; [by injection Hj as ->|].
      rewrite Forall_lookup in Herrs. by destruct (Herrs _ _ Hj). }
    destruct (decide (err = None)) as [->|Hne].
    + right. exists 1. split_and!; [simpl; lia| |by rewrite (Hack eq_refl)]. intros j [-> _]%Hj; lia.
    + destruct Hd as [->|HD1]; [left; by split; [|constructor]|].
      right. exists 1. split_and!; [simpl; lia| |done]. intros j [-> _]%Hj; lia.
  - right. exists (S i). split_and!; [simpl; lia| |done].
    intros [|j] Hj; [lia|]. simpl in Hj. apply Hjs in Hj. lia.
Qed.

Lemma spec_run_cmds q cs : ∀ s M fs D,
  store_ok s M fs D → Forall command_storable cs → (nextTxID (disk s) + Z.of_nat (length cs) < 2 ^ 63 - 1)%Z →
  all_regular fs → spec q (run cs s) fs (run_ok q cs (nextTxID (disk s)) M D).
Proof.
  induction cs as [|c cs IH]; intros s M fs D Hok Hcs HN Hreg; cbn [run].
  { apply spec_ret. split; [done|]. exists D. split_and!; [done|by left|simpl; lia|done]. }
  inversion Hcs as [|?? Hc Hcs']; subst. simpl length in HN.
  eapply spec_bind; [eapply spec_regular; [done|]; eapply spec_exec; [done|done|lia|done]|].
  intros [err s1] fs1 [(D1 & Hok1 & Hd & Hn1 & Hq1) Hreg1]. simpl in *.
  spec_step IH; [done|done|lia|done|]. intros [errs s2] fs2 [Hlen (D2 & Hok2 & Hdur & Hn2 & Hq2)]. apply spec_ret.
  simpl in *. split; [simpl; lia|]. exists D2. split_and!; [done|by eapply durable_prefix_cons|cbn [snd length]; lia|].
  intros Hqt. destruct (Hq1 Hqt) as [-> ?], (Hq2 Hqt) as [-> ?]. auto.
Qed.

(** The world of a directory, with the faults to come. *)
Definition dir_world (fs : gmap string file) (faults : list fault) : world := mkWorld HomeDir fs faults.

Lemma open_dir home mode bufSz ignore pred fs T t :
  dir_ok fs T t → all_regular fs → (t < 2 ^ 63 - 1)%Z →
  ∃ s fs', openStore home mode bufSz ignore pred (dir_world fs []) = Done (inr s, dir_world fs' []) ∧
    mtable (mem s) = Some T ∧ disk_ok (disk s) T fs' T ∧ nextTxID (disk s) = (t + 1)%Z ∧ all_regular fs'.
Proof.
  intros Hd Hr Ht. set (w := dir_world fs []).
  assert (∃ fs1, open_home mode w = Done (inr tt, dir_world fs1 []) ∧ same_view fs fs1 ∧ all_regular fs1)
    as (fs1 & E1 & Hv1 & Hr1).
  { destruct (quiet_pathEnsure metaFileName mode fs (Hr metaFileName) w eq_refl (λ _, eq_refl))
      as (err & w1 & E & [-> Hv] & Hh & Hl & Hrg).
    exists (files w1). split_and!; [|done|by apply Hrg].
    unfold open_home. change ((os_stat_home ≫= ?k) w) with (k (inr true) w). cbn beta iota.
    unfold mbind, io_bind. rewrite E. destruct w1 as [h f l]. simpl in *. subst h. by destruct l; [|simpl in *; lia]. }
  assert (Hd1 : dir_ok fs1 T t) by (eapply dir_ok_keeps; [intros ?; by apply same_view_keeps|done]).
  destruct (quiet_open_files home mode bufSz ignore pred fs1 T t Hd1 Hr1 Ht (dir_world fs1 []) eq_refl (λ _, eq_refl))
    as (r & w2 & E2 & (s & -> & Hm & Hok & Hn) & Hh & Hl & Hrg).
  exists s, (files w2). split_and!; auto.
  unfold openStore, err_bind, mbind, io_bind. rewrite E1, E2.
  destruct w2 as [h f l]. simpl in *. subst h. by destruct l; [|simpl in *; lia].
Qed.

Lemma json_table_storable t : table_storable (storable := storable) t → table_storable (storable := storable) (json_table t).
Proof.
  intros Ht k e. unfold json_table. rewrite lookup_fmap. destruct (t !! k) as [e0|] eqn:E; [|done].
  intros [= <-]. simpl. apply storable_as_json. eauto.
Qed.

Lemma spec_command_storable c t : command_storable c → table_storable (storable := storable) t →
  table_storable (storable := storable) (spec_command c t).
Proof.
  intros Hc Ht. destruct c as [k v|k|]; simpl in *; [|intros k' e; rewrite lookup_delete_Some; intros [_ ?]; eauto|done].
  destruct (convert_to_map v); [done|]. intros k' e. rewrite lookup_insert_Some. intros [[<- <-]|[_ ?]]; simpl; eauto.
Qed.

(** ** A new store *)
Definition raw_written (fs0 : gmap string file) (n : string) (md : Z) (data : bytes) (ok : bool)
    (fs : gmap string file) (h : handle) : Prop :=
  ok = true → fs = <[ n := mkFile data md ]> fs0 ∧ h = mkHandle n (length data).

Lemma quiet_raw_write fs0 n md : ∀ data ok fs p h, raw_written fs0 n md data ok fs h ∧ ok = true →
  spec true (Bufio.raw_write p h) fs (λ '(_, err, h') fs', ∃ ok', (ok' = true → ok = true) ∧
    (ok' = true ↔ err = None) ∧ (true = true → ok' = ok) ∧ raw_written fs0 n md (data ++ p) ok' fs' h' ∧ ok' = true).
Proof.
  intros data ok fs p h [Hw ->]. destruct (Hw eq_refl) as [-> ->].
  eapply spec_mono; [apply (UtilFacts.spec_ensureWrite true p _ _ (mkFile data md)); [apply lookup_insert_eq|done]|].
  intros [[k err] h'] fs' ([[-> ->]|[? _]] & -> & ->); [|done]. exists true. split_and!; try done.
  intros _. simpl. rewrite firstn_all, insert_insert_eq, length_app. done.
Qed.

Lemma quiet_writeMetaFile mode fs : fs !! metaFileName = None →
  spec true (writeMetaFile mode) fs (λ err fs', err = None ∧ only [metaFileName] fs fs' ∧ meta_ok (fs' !! metaFileName)).
Proof.
  intros Hno. unfold writeMetaFile. spec_step spec_os_open. intros r fs1 Hr. rewrite Hno in Hr.
  destruct Hr as [(f & [= <-] & -> & ->)|[(? & _)|(e & -> & ? & _)]]; [|done|done].
  set (md := Z.land mode ModePerm).
  destruct (encodes_text _ _ encodes_meta) as (j & Hp & _ & Hj & _).
  eapply spec_bind.
  { eapply (spec_Encode Bufio.raw_write true (λ d ok fs' h, raw_written fs metaFileName md d ok fs' h ∧ ok = true)
      (quiet_raw_write fs metaFileName md)); [|exact encodes_meta|].
    - by intros ? ? ? ? [_ ?].
    - split; [|done]. intros _. done. }
  intros [err h] fs2 (ok & Herr & _ & _ & [Hw ->]). simpl in *. destruct (Hw eq_refl) as [-> _].
  destruct (Herr eq_refl) as [_ ->]. clear Herr.
  spec_step UtilFacts.spec_syncFile. intros err ? [-> [->|[? _]]]; [|done].
  spec_step spec_file_call. intros err ? [-> [->|[? _]]]; [|done].
  spec_step UtilFacts.spec_trySyncPath. intros _ ? ->. apply spec_ret. split_and!; [done| |].
  - apply only_insert. by apply list_elem_of_singleton.
  - rewrite lookup_insert_eq. exists (mkFile (text_of (EncMeta (mkMeta storeVersion))) md), j, [].
    split_and!; auto. apply (created_isRegular mode).
Qed.

(** A world without faults in which a store can be opened: its table and the
    last transaction ID. *)
Inductive openable : world → table → Z → Prop :=
| openable_absent : openable (mkWorld HomeAbsent ∅ []) ∅ 0
| openable_dir fs T t : dir_ok fs T t → all_regular fs → openable (dir_world fs []) T t.

Lemma json_openable w T t : openable w T t → json_table T = T.
Proof. intros Hw. inversion Hw as [|? ? ? Hd]; subst; [done|]. by destruct Hd as (_ & ? & ? & ? & ? & ? & _ & _ & _ & _ & ?). Qed.

Lemma world_eta w : home_is w = HomeDir → faults w = [] → w = dir_world (files w) [].
Proof. destruct w as [h f l]. simpl. by intros -> ->. Qed.

(** Opening finds the table. *)
Lemma open_ok home mode bufSz ignore pred w T t : openable w T t → (t < 2 ^ 63 - 1)%Z →
  ∃ s fs, openStore home mode bufSz ignore pred w = Done (inr s, dir_world fs []) ∧
    mtable (mem s) = Some T ∧ disk_ok (disk s) T fs T ∧ nextTxID (disk s) = (t + 1)%Z ∧ all_regular fs.
Proof.
  intros Hw Ht. destruct Hw as [|fs T t Hd Hr]; [|by apply open_dir].
  destruct (quiet_writeMetaFile mode ∅ (lookup_empty _) (dir_world ∅ []) eq_refl (λ _, eq_refl))
    as (err & w1 & E & (-> & Ho & Hm) & Hh & Hl & Hrg).
  assert (Hr1 : all_regular (files w1)) by (apply Hrg; by intros n f Hf).
  assert (Hnone : ∀ n, n ≠ metaFileName → files w1 !! n = None).
  { intros n Hn. rewrite Ho; [done|]. by rewrite list_elem_of_singleton. }
  assert (Hd : dir_ok (files w1) ∅ 0).
  { split; [split; [done|intros n f _; apply Hr1]|].
    exists "", 0%Z, ∅, [], TEnd. split_and!; try done.
    - apply newest_none. intros n [i Hn]. apply Hnone. by intros ->.
    - unfold log_content, file_content. rewrite Hnone by done. by apply reads_end. }
  assert (w1 = dir_world (files w1) []) as Ew.
  { apply world_eta; [done|]. by destruct (faults w1); [|simpl in Hl; lia]. }
  destruct (quiet_open_files home mode bufSz ignore pred _ _ _ Hd Hr1 Ht w1 eq_refl)
    as (r & w2 & E2 & (s & -> & Hmem & Hok & Hn) & Hh2 & Hl2 & Hrg2); [intros _; by rewrite Ew|].
  assert (w2 = dir_world (files w2) []) as Ew2.
  { apply world_eta; [by rewrite Hh2, Ew|]. rewrite Ew in Hl2. by destruct (faults w2); [|simpl in Hl2; lia]. }
  exists s, (files w2). split_and!; [|done|done|done|by apply Hrg2].
  rewrite <-Ew2, <-E2. unfold openStore, err_bind, mbind, io_bind.
  unfold open_home. change ((os_stat_home ≫= ?k) (mkWorld HomeAbsent ∅ [])) with (k (inl (Errno ENOENT)) (mkWorld HomeAbsent ∅ [])).
  cbn beta iota. change (isNotExist (Some (Errno ENOENT))) with true. cbn beta iota. unfold err_then, mbind, io_bind.
  change (os_mkdir_home (mkWorld HomeAbsent ∅ [])) with (Done (A := option goerr * world) (None, dir_world ∅ [])).
  cbn beta iota. by rewrite E.
Qed.

Lemma run_openable home mode bufSz ignore pred w T t cs flts :
  openable w T t → table_storable (storable := storable) T → Forall command_storable cs →
  (t + 1 + Z.of_nat (length cs) < 2 ^ 63 - 1)%Z →
  ∃ s fs, openStore home mode bufSz ignore pred w = Done (inr s, dir_world fs []) ∧ mtable (mem s) = Some T ∧
  ∃ errs s' fs' rest, run cs s (dir_world fs flts) = Done ((errs, s'), dir_world fs' rest) ∧
    length errs = length cs ∧ mtable (mem s') = Some (spec_run cs T) ∧
    ∃ D t', openable (dir_world fs' []) D t' ∧ (t' ≤ t + 1 + Z.of_nat (length cs))%Z ∧
      durable_prefix cs T T D errs ∧
      (flts = [] → errs = command_error <$> cs ∧ D = json_table (spec_run cs T)).
Proof.
  intros Hw HT Hcs Ht. pose proof (json_openable _ _ _ Hw) as HjT.
  destruct (open_ok home mode bufSz ignore pred w T t Hw ltac:(lia)) as (s & fs & E & Hm & Hok & Hn & Hr).
  exists s, fs. split_and!; [done|done|].
  set (q := bool_decide (flts = [])).
  destruct (spec_run_cmds q cs s T fs T ltac:(done) Hcs ltac:(lia) Hr (dir_world fs flts) eq_refl)
    as ([errs s'] & w' & E' & (Hlen & D & (Hm' & Hst' & Hok') & Hdur & Hn' & Hq) & Hh & Hl & Hrg).
  { intros Hq. by apply bool_decide_eq_true in Hq. }
  exists errs, s', (files w'), (faults w'). split_and!; [|done|done|].
  { rewrite E'. by destruct w' as [h f l]; simpl in *; subst h. }
  destruct (disk_ok_dir_ok _ _ _ _ Hok') as (t' & Hd & Ht').
  exists D, t'. split_and!; [apply openable_dir; [done|by apply Hrg]|simpl in *; lia|done|].
  intros Hf. destruct Hq as [He HD]; [by apply bool_decide_eq_true|]. auto.
Qed.
End durable.

(** C2. Crash consistency.  Open a store, on a new home directory or one that can
    be opened, and run any operations against a disk that fails in any way (a
    crash is a disk that fails for good).  The calls neither panic nor loop, the
    table in memory is the map after all of the operations, and if the program
    then starts again, it loads the map after the first [i] operations, numbers
    read back as [float64], for some [i] that includes every operation that
    returned no error.  Without faults the operations return only the errors of
    their conversion, and everything is loaded. *)
Theorem memlog_crash_consistent `{EncoderLaws storable storable_key} {V : Type} `{!TypeConv V}
    (iterate : table → list (string * entry)) (Hiterate : ∀ t, iterate t ≡ₚ map_to_list t)
    (home : string) (mode : Z) (bufSz : nat) (ignore : bool) (pred : Z → bool)
    (w : world) (T : table) (t : Z) (cs : list (command V)) (flts : list fault) :
  openable w T t → table_storable (storable := storable) T →
  Forall (command_storable (storable := storable) (storable_key := storable_key)) cs →
  (t + 1 + Z.of_nat (length cs) < 2 ^ 63 - 1)%Z →
  ∃ s fs, openStore home mode bufSz ignore pred w = Done (inr s, dir_world fs []) ∧ mtable (mem s) = Some T ∧
  ∃ errs s' fs' rest, run iterate cs s (dir_world fs flts) = Done ((errs, s'), dir_world fs' rest) ∧
    length errs = length cs ∧ mtable (mem s') = Some (spec_run cs T) ∧
    (flts = [] → errs = command_error <$> cs) ∧
    ∃ i s2 fs2, i ≤ length cs ∧ (∀ j, errs !! j = Some None → j < i) ∧
      openStore home mode bufSz ignore pred (dir_world fs' []) = Done (inr s2, dir_world fs2 []) ∧
      mtable (mem s2) = Some (json_table (spec_run (take i cs) T)) ∧
      (flts = [] → json_table (spec_run (take i cs) T) = json_table (spec_run cs T)).
Proof.
  intros Hw HT Hcs Ht.
  destruct (run_openable iterate Hiterate home mode bufSz ignore pred w T t cs flts Hw HT Hcs Ht)
    as (s & fs & E & Hm & errs & s' & fs' & rest & E' & Hlen & Hm' & D & t' & Hw' & Ht' & Hdur & Hq).
  exists s, fs. split_and!; [done|done|]. exists errs, s', fs', rest. split_and!; [done..|naive_solver|].
  destruct (open_ok home mode bufSz ignore pred _ _ _ Hw' ltac:(lia)) as (s2 & fs2 & E2 & Hm2 & _).
  destruct Hdur as [[-> Herrs]|(i & Hi & Hj & ->)].
  - exists 0, s2, fs2. rewrite take_0. simpl. rewrite (json_openable _ _ _ Hw).
    split_and!; [lia| |done|done|naive_solver].
    intros j Hj. rewrite Forall_lookup in Herrs. by destruct (Herrs _ _ Hj).
  - exists i, s2, fs2. split_and!; [done..|naive_solver].
Qed.

(** Three updates and a checkpoint while the disk fails after the first update. *)
Definition demo_commands : list (command mapstr) :=
  [CSet "a" {[ "n" := VInt 7 ]}; CSet "b" {[ "s" := VStr "x" ]}; CRemove "a"; CCheckpoint].
Definition demo_faults : list fault := [FOk; FFail 12 EINTR; FFail 5 EIO; FOk; FFail 0 ENOSPC; FFail 0 EIO].

Lemma memlog_crash_consistent_witness :
  ∃ errs s' fs' rest s fs, run map_to_list demo_commands s (dir_world fs demo_faults) = Done ((errs, s'), dir_world fs' rest) ∧
    ∃ i s2 fs2, (∀ j, errs !! j = Some None → j < i) ∧
      openStore "/home" 384 16 false (λ n, bool_decide (100 ≤ n)%Z) (dir_world fs' []) = Done (inr s2, dir_world fs2 []) ∧
      mtable (mem s2) = Some (json_table (spec_run (take i demo_commands) ∅)).
Proof.
  destruct (memlog_crash_consistent (storable := test_storable) (storable_key := test_storable_key)
    map_to_list (λ _, reflexivity _) "/home" 384 16 false (λ n, bool_decide (100 ≤ n)%Z)
    (mkWorld HomeAbsent ∅ []) ∅ 0 demo_commands demo_faults openable_absent)
    as (s & fs & _ & _ & errs & s' & fs' & rest & Hrun & _ & _ & _ & i & s2 & fs2 & _ & Hj & Hopen & Hm & _).
  - intros k e He. by rewrite lookup_empty in He.
  - repeat constructor.
    + intros m [= <-]. vm_compute. reflexivity.
    + intros m [= <-]. vm_compute. reflexivity.
  - vm_compute. reflexivity.
  - exists errs, s', fs', rest, s, fs. split; [exact Hrun|]. by exists i, s2, fs2.
Defined.
