(* ===== verification/Scenarios.v ===== *)
(** * Runs of memlog that its documentation rules out

    Closed runs, evaluated, and one general fact, about states the store does
    not recover from: an invalid log stays invalid, a corrupted data file makes
    later updates disappear, an unreadable log is taken for an empty one, and
    a store whose creation was interrupted cannot be opened. *)

From stdpp Require Import base gmap strings list fin_maps.
From Stdlib Require Import ZArith Lia.
From S2P Require Import Prelude GoValue Json Fs FsFacts Txid DiskData Diskstore Memlog.
From S2P Require Import LogFacts DiskFacts DiskSpec DiskInv DiskOps MemlogFacts Returns TestEncoder Durable.

(** ** An invalid log *)
Section sticky.
Context `{EncoderLaws storable storable_key} {V : Type} `{!TypeConv V}.
Context (iterate : table → list (string * entry)) (Hiterate : ∀ t, iterate t ≡ₚ map_to_list t).

(** The updated store, and the file of the checkpoint if there was no error. *)
Definition checkpointed (s : store) (c : command V) (r : option goerr * store) : Prop :=
  logInvalid (disk r.2) = true ∧
  (r.1 = None → activeDataFile (disk r.2) = mkInfo (data_name (nextTxID (disk s))) (nextTxID (disk s))).

Lemma spec_logOperation_invalid s M0 fs D o :
  disk_ok (disk s) M0 fs D → logInvalid (disk s) = true →
  table_storable (storable := storable) (default ∅ (mtable (mem s))) → (nextTxID (disk s) < 2 ^ 63 - 1)%Z →
  spec false (logOperation iterate o s) fs (λ r _, logInvalid (disk r.2) = true ∧
    (r.1 = None → activeDataFile (disk r.2) = mkInfo (data_name (nextTxID (disk s))) (nextTxID (disk s)))).
Proof.
  intros Hok Hv HM HN. unfold logOperation, mustCheckpoint. rewrite Hv. simpl orb. cbn iota.
  spec_step spec_WriteCheckpoint; [done|exact Hok|exact HM|done|].
  intros [err d'] fs1 [Hr _]. destruct err as [e|].
  - destruct Hr as [-> _]. unfold LogOperation. rewrite Hv.
    eapply spec_bind; [by apply (spec_ret _ _ _ (λ r _, r = (Some errLogInvalid, disk s)))|].
    intros ? ? ->. by apply spec_ret.
  - destruct Hr as (_ & _ & Hv' & Ha). apply spec_ret. simpl. auto.
Qed.

Lemma spec_exec_invalid s M fs D c :
  store_ok (storable := storable) s M fs D → command_storable (storable := storable) (storable_key := storable_key) c →
  logInvalid (disk s) = true → (nextTxID (disk s) < 2 ^ 63 - 1)%Z →
  spec false (exec iterate c s) fs (λ r _, checkpointed s c r).
Proof.
  intros (Hm & Hst & Hok) Hc Hv HN. unfold checkpointed. destruct c as [k v|k|]; simpl in *.
  - unfold store_Set. destruct (convert_to_map v) as [e|m] eqn:Ev; [by apply spec_ret|].
    assert (mem_Set k m (mem s) = Done (mkMem (Some (<[ k := mkEntry m ]> M)))) as Hset
      by (unfold mem_Set; by rewrite Hm).
    spec_step (spec_lift false _ _ fs (λ r fs', r = mkMem (Some (<[ k := mkEntry m ]> M)) ∧ fs' = fs) Hset); [done|].
    intros ? ? [-> ->]. apply (spec_logOperation_invalid (mkStore (disk s) _) M fs D); auto. simpl.
    intros k' e. rewrite lookup_insert_Some. intros [[<- <-]|[_ ?]]; simpl; eauto.
  - unfold store_Remove. apply (spec_logOperation_invalid (mkStore (disk s) _) M fs D); auto. simpl.
    rewrite (mem_Remove_mtable k _ _ Hm). simpl. intros k' e. rewrite lookup_delete_Some. intros [_ ?]; eauto.
  - unfold Checkpoint. rewrite Hm. simpl. spec_step spec_WriteCheckpoint; [done|exact Hok|exact Hst|done|].
    intros [err d'] fs1 [Hr _]. apply spec_ret. destruct err as [e|]; simpl.
    + by destruct Hr as [-> _].
    + destruct Hr as (_ & _ & Hv' & Ha). auto.
Qed.
End sticky.

(** C38. Nothing makes an invalid log valid again while the store is open, not
    even the checkpoint that replaces it: from the first failed write on, every
    update that succeeds writes a complete data file. *)
Theorem logInvalid_is_sticky `{EncoderLaws storable storable_key} {V : Type} `{!TypeConv V}
    (iterate : table → list (string * entry)) (Hiterate : ∀ t, iterate t ≡ₚ map_to_list t)
    (s : store) (M D : table) (w : world) (c : command V) :
  store_ok (storable := storable) s M (files w) D →
  command_storable (storable := storable) (storable_key := storable_key) c →
  logInvalid (disk s) = true → (nextTxID (disk s) < 2 ^ 63 - 1)%Z →
  ∃ err s' w', exec iterate c s w = Done ((err, s'), w') ∧ logInvalid (disk s') = true ∧
    (err = None → activeDataFile (disk s') = mkInfo (data_name (nextTxID (disk s))) (nextTxID (disk s))).
Proof.
  intros Hok Hc Hv HN.
  destruct (spec_exec_invalid iterate Hiterate s M _ D c Hok Hc Hv HN w eq_refl ltac:(done))
    as ([err s'] & w' & E & [? ?] & _). by exists err, s', w'.
Qed.

(** ** Concrete directories *)
Definition demo_open (w : world) : outcome ((goerr + store) * world) :=
  openStore "/home" 384 4096 false Registry.defaultCheckpoint w.
Definition demo_record (id : Z) (o : op) : bytes :=
  print (EncAction (mkAction (op_name o) id)) ++ newline :: print (EncOp o) ++ [newline].
Definition demo_dir (l : list (string * bytes)) : gmap string file :=
  list_to_map ((λ nb : string * bytes, (nb.1, mkFile nb.2 384)) <$> l).
Definition demo_meta : string * bytes := (metaFileName, print (EncMeta (mkMeta storeVersion))).
Definition demo_value (n : Z) : mapstr := {[ "n" := VInt n ]}.
Definition demo_table (l : list (string * mapstr)) : table := json_table (fill_table l ∅).

(** The keys of a store that was opened, and of one that was updated. *)
Definition opened_table (r : outcome ((goerr + store) * world)) : option table :=
  match r with Done (inr s, _) => mtable (mem s) | _ => None end.

(** Opens, runs, and gives the errors and the table of the next start. *)
Definition demo_session (w : world) (cs : list (command mapstr)) : option (list (option goerr) * option table) :=
  match demo_open w with
  | Done (inr s, w1) =>
    match run map_to_list cs s w1 with
    | Done ((errs, _), w2) => Some (errs, opened_table (demo_open (dir_world (files w2) [])))
    | _ => None
    end
  | _ => None
  end.

Lemma demo_store_invalid :
  ∃ s fs, store_ok (storable := test_storable) s ∅ fs ∅ ∧ logInvalid (disk s) = true ∧ nextTxID (disk s) = 1%Z.
Proof.
  assert (Hd : dir_ok (demo_dir [demo_meta; (logFileName, bs "{")]) ∅ 0).
  { split; [split|].
    - do 3 eexists. split; [reflexivity|]. split; [reflexivity|]. split; [vm_compute; reflexivity|reflexivity].
    - intros n f _ Hf. apply elem_of_list_to_map_2 in Hf. apply list_elem_of_fmap in Hf as ([n' b] & [= -> ->] & _).
      reflexivity.
    - exists "", 0%Z, ∅, [], TBad. split_and!; [|by apply reads_bad_action|done|done|done].
      apply newest_none. intros n [i Hi]. apply not_elem_of_list_to_map_1. intros Hn.
      apply list_elem_of_fmap in Hn as ([n' b] & -> & Hn). simpl in *.
      repeat (apply elem_of_cons in Hn as [[= -> ->]|Hn]; [done|]). by apply elem_of_nil in Hn. }
  assert (Hr : all_regular (demo_dir [demo_meta; (logFileName, bs "{")])).
  { intros n f Hf. apply elem_of_list_to_map_2 in Hf. apply list_elem_of_fmap in Hf as ([n' b] & [= -> ->] & _).
    reflexivity. }
  destruct (open_dir "/home" 384 4096 false Registry.defaultCheckpoint _ _ _ Hd Hr ltac:(done))
    as (s & fs & E & Hm & Hok & Hn & _).
  exists s, fs. split_and!; [split_and!; [done| |done]; intros k e He; by rewrite lookup_empty in He| |done].
  vm_compute in E. injection E as <- _. reflexivity.
Qed.

Lemma logInvalid_is_sticky_witness :
  ∃ (s : store) (w : world), logInvalid (disk s) = true ∧
  ∃ err s' w', exec map_to_list (CSet "k" (demo_value 1)) s w = Done ((err, s'), w') ∧ logInvalid (disk s') = true.
Proof.
  destruct demo_store_invalid as (s & fs & Hok & Hv & Hn). exists s, (dir_world fs []). split; [exact Hv|].
  destruct (logInvalid_is_sticky (storable := test_storable) (storable_key := test_storable_key)
    map_to_list (λ _, reflexivity _) s ∅ ∅ (dir_world fs []) (CSet "k" (demo_value 1)))
    as (err & s' & w' & E & Hv' & _).
  - exact Hok.
  - intros m [= <-]. vm_compute. reflexivity.
  - exact Hv.
  - rewrite Hn. reflexivity.
  - by exists err, s', w'.
Defined.

(** After a corrupted data file was put aside, updates that return no error
    are gone at the next start: the file 5.json is corrupt, and the log
    continues it; the first start renames the file and loads the log; the second
    finds no data file and refuses the log, whose IDs do not start at 1. *)
Theorem corrupt_data_file_loses_updates :
  let w := dir_world (demo_dir [demo_meta; ("5.json", bs "garbage");
    (logFileName, demo_record 6 (opSet "k" (demo_value 1)))]) [] in
  opened_table (demo_open w) = Some (demo_table [("k", demo_value 1)]) ∧
  demo_session w [CSet "k2" (demo_value 2)] = Some ([None], Some ∅).
Proof. vm_compute. split; reflexivity. Qed.

(** A log that cannot be opened, for want of file descriptors say, is taken
    for an empty one without an error, and an update acknowledged then is gone
    at the next start, hidden by the old entry of the same ID. *)
Theorem unreadable_log_loses_updates :
  let fs := demo_dir [demo_meta; (logFileName, demo_record 1 (opSet "k" (demo_value 1)))] in
  let w := dir_world fs (replicate 14 FOk ++ [FFail 0 EMFILE]) in
  opened_table (demo_open w) = Some ∅ ∧
  demo_session w [CSet "k2" (demo_value 2)] = Some ([None], Some (demo_table [("k", demo_value 1)])).
Proof. vm_compute. split; reflexivity. Qed.

(** ** Interrupted creation *)
Lemma openStore_no_meta `{JsonEncoder} home mode bufSz pred fs : fs !! metaFileName = None →
  ∃ w', openStore home mode bufSz false pred (dir_world fs []) = Done (inl (Errno ENOENT), w').
Proof.
  intros Hm.
  assert (E : open_home mode (dir_world fs []) = Done (A := (goerr + unit) * world) (inr tt, dir_world fs [])).
  { unfold open_home. change ((os_stat_home ≫= ?k) (dir_world fs [])) with (k (inr true) (dir_world fs [])).
    cbn beta iota. unfold Util.pathEnsurePermissions, os_open, syscall, next_fault, get_files, mbind, io_bind.
    simpl. by rewrite Hm. }
  unfold openStore, err_bind, mbind, io_bind. rewrite E.
  unfold open_files, err_bind, readMetaFile, os_read, syscall, next_fault, get_files, mbind, io_bind.
  simpl. rewrite Hm. simpl. by eexists.
Qed.

(** If creating a store is interrupted between making its directory and
    making the meta file, the store can never be opened, whatever the disk does
    later: the directory is there, so that no start writes the meta file again. *)
Theorem interrupted_creation_is_final `{JsonEncoder} (home : string) (mode : Z) (bufSz : nat) (pred : Z → bool) :
  ∃ w', openStore home mode bufSz false pred (mkWorld HomeAbsent ∅ [FOk; FOk; FFail 0 ENOSPC])
    = Done (inl (Errno ENOSPC), w') ∧ home_is w' = HomeDir ∧ faults w' = [] ∧
  ∃ w'', openStore home mode bufSz false pred w' = Done (inl (Errno ENOENT), w'').
Proof.
  exists (dir_world ∅ []). split; [reflexivity|]. split; [done|]. split; [done|].
  by apply openStore_no_meta.
Qed.
