(* ===== verification/Backend.v ===== *)
(** * The backend interface of the state store (backend.go)

    What a storage backend offers the state store, as a class of operations on
    the state [R] of the whole backend, with handles [H] for open stores; and
    what it promises: each open store is a finite map.  [V] are the Go values
    of callers. *)

From stdpp Require Import base gmap strings list fin_maps.
From Stdlib Require Import ZArith Lia.
From S2P Require Import Prelude GoValue Fs.

(** typeconv.Convert between callers' values and stored ones [X]. *)
Class Convert (V X : Type) := {
  convert_in : V → goerr + X;
  convert_out : X → V → goerr + V
}.

(** [Registry] and [Store].  The callback of [each] gets the key and a decoder
    of the value, and has a state of any type. *)
Class Backend (R H V X : Type) := {
  access : string → R → outcome ((goerr + H) * R);
  close_registry : R → outcome (option goerr * R);
  close_store : H → R → outcome (option goerr * R);
  has : H → string → R → outcome ((goerr + bool) * R);
  get : H → string → V → R → outcome ((goerr + V) * R);
  set : H → string → V → R → outcome (option goerr * R);
  remove : H → string → R → outcome (option goerr * R);
  each {S : Type} : H → (string → X → S → outcome (bool * option goerr * S)) → S → R →
    outcome (option goerr * S * R)
}.
#[global] Hint Mode Backend + + - - : typeclass_instances.

(** The loop of [Each] over the pairs in the order of iteration. *)
Fixpoint each_pairs {X S} (fn : string → X → S → outcome (bool * option goerr * S)) (l : list (string * X)) (s : S)
    : outcome (option goerr * S) :=
  match l with
  | [] => Done (None, s)
  | (k, x) :: l =>
    r ← fn k x s;
    let '(cont, err, s) := r in
    if negb cont || bool_decide (err ≠ None) then Done (err, s) else each_pairs fn l s
  end.

(** An open store [h] is a name and a map, [view r h]; accessing a name that is
    not open opens a handle that was not. *)
Class BackendLaws (R H V X : Type) `{Backend R H V X, Convert V X} := {
  backend_ok : R → Prop;
  view : R → H → option (string * gmap string X);
  access_ok r name : backend_ok r → (∀ h m, view r h ≠ Some (name, m)) →
    ∃ res r', access name r = Done (res, r') ∧ backend_ok r' ∧
    match res with
    | inl _ => ∀ h, view r' h = view r h
    | inr h => view r h = None ∧ (∃ m, view r' h = Some (name, m)) ∧ ∀ h', h' ≠ h → view r' h' = view r h'
    end;
  close_ok r h nm : backend_ok r → view r h = Some nm → ∃ err r', close_store h r = Done (err, r') ∧ backend_ok r' ∧
    view r' h = None ∧ ∀ h', h' ≠ h → view r' h' = view r h';
  has_ok r h n m k : backend_ok r → view r h = Some (n, m) →
    ∃ r', has h k r = Done (inr (bool_decide (is_Some (m !! k))), r') ∧ backend_ok r' ∧ ∀ h', view r' h' = view r h';
  get_ok r h n m k v : backend_ok r → view r h = Some (n, m) →
    ∃ res r', get h k v r = Done (res, r') ∧ backend_ok r' ∧ (∀ h', view r' h' = view r h') ∧
      match m !! k with Some x => res = convert_out x v | None => ∃ e, res = inl e end;
  set_ok r h n m k v : backend_ok r → view r h = Some (n, m) →
    ∃ err r', set h k v r = Done (err, r') ∧ backend_ok r' ∧ (∀ h', h' ≠ h → view r' h' = view r h') ∧
      match convert_in v with
      | inr x => view r' h = Some (n, <[ k := x ]> m)
      | inl e => err = Some e ∧ view r' h = Some (n, m)
      end;
  remove_ok r h n m k : backend_ok r → view r h = Some (n, m) →
    ∃ err r', remove h k r = Done (err, r') ∧ backend_ok r' ∧ view r' h = Some (n, delete k m) ∧
      ∀ h', h' ≠ h → view r' h' = view r h';
  each_ok {S} r h n m (fn : string → X → S → outcome (bool * option goerr * S)) s :
    backend_ok r → view r h = Some (n, m) →
    ∃ l r', each h fn s r = (res ← each_pairs fn l s; Done (res.1, res.2, r')) ∧ l ≡ₚ map_to_list m ∧
      backend_ok r' ∧ ∀ h', view r' h' = view r h'
}.
