(* ===== verification/Concert.v ===== *)
(** * The synchronization types of other modules that the packages use

    [atomic.Int], [SafeWaitGroup], [RefCount] and [Mutex] of go-concert and
    [atomic.Uint64] of go.uber.org/atomic, as classes of
    operations with the documented behaviour as laws, and an instance of each to
    run examples with. *)

From stdpp Require Import base list strings.
From Stdlib Require Import ZArith Lia.
From S2P Require Import Prelude Fs.

(** [atomic.Int] *)
Class AtomicInt (I : Type) := {
  MakeInt : Z → I;
  Inc : I → Z * I;
  Dec : I → Z * I;
  Load : I → Z
}.

(** Counting is exact away from the ends of the range of an [int] of any width. *)
Definition int_max : Z := (2 ^ 31 - 1)%Z.
Class AtomicIntLaws (I : Type) `{AtomicInt I} := {
  Load_MakeInt z : (0 ≤ z < int_max)%Z → Load (MakeInt z) = z;
  Load_Inc i : (0 ≤ Load i < int_max)%Z → Load (Inc i).2 = (Load i + 1)%Z;
  Load_Dec i : (0 < Load i ≤ int_max)%Z → Load (Dec i).2 = (Load i - 1)%Z;
  Dec_result i : (0 < Load i ≤ int_max)%Z → (Dec i).1 = (Load i - 1)%Z
}.

(** [unison.SafeWaitGroup]; [wgReturns] holds when [Wait] returns without
    waiting for another goroutine. *)
Class SafeWaitGroup (W : Type) := {
  wgZero : W;
  wgAdd : Z → W → option goerr * W;
  wgDone : W → W;
  wgClose : W → W;
  wgReturns : W → bool
}.

(** A group counts its operations, and [Add] fails once it is closed. *)
Class SafeWaitGroupLaws (W : Type) `{SafeWaitGroup W} := {
  wgState : W → Z * bool;
  wgZero_state : wgState wgZero = (0%Z, false);
  wgAdd_open w z : wgState w = (z, false) → (0 ≤ z < int_max)%Z →
    (wgAdd 1 w).1 = None ∧ wgState (wgAdd 1 w).2 = ((z + 1)%Z, false);
  wgAdd_closed w z : wgState w = (z, true) → (wgAdd 1 w).1 ≠ None ∧ wgState (wgAdd 1 w).2 = (z, true);
  wgDone_state w z c : wgState w = (z, c) → (0 < z)%Z → wgState (wgDone w) = ((z - 1)%Z, c);
  wgClose_state w z c : wgState w = (z, c) → wgState (wgClose w) = (z, true);
  wgReturns_state w z c : wgState w = (z, c) → wgReturns w = bool_decide (z = 0%Z)
}.

(** ** Instances with integers *)
#[export] Instance Z_atomic : AtomicInt Z := {
  MakeInt z := z; Inc i := ((i + 1)%Z, (i + 1)%Z); Dec i := ((i - 1)%Z, (i - 1)%Z); Load i := i
}.
#[export] Instance Z_atomic_laws : AtomicIntLaws Z.
Proof. split; done. Qed.

#[export] Instance pair_wg : SafeWaitGroup (Z * bool) := {
  wgZero := (0%Z, false);
  wgAdd z w := if w.2 then (Some (errText "group closed"), w) else (None, ((w.1 + z)%Z, w.2));
  wgDone w := ((w.1 - 1)%Z, w.2);
  wgClose w := (w.1, true);
  wgReturns w := bool_decide (w.1 = 0%Z)
}.
#[export] Instance pair_wg_laws : SafeWaitGroupLaws (Z * bool).
Proof. refine {| wgState w := w |}; try done; intros [z c]; simpl; intros; by simplify_eq. Defined.

(** [atomic.Uint64] of go.uber.org: arithmetic modulo [2 ^ 64]. *)
Class AtomicUint64 (U : Type) := {
  uZero : U;
  uInc : U → U;
  uDec : U → U;
  uSub : Z → U → U;
  uLoad : U → Z
}.
Class AtomicUint64Laws (U : Type) `{AtomicUint64 U} := {
  uLoad_range u : (0 ≤ uLoad u < 2 ^ 64)%Z;
  uLoad_zero : uLoad uZero = 0%Z;
  uLoad_inc u : uLoad (uInc u) = wrap 64 (uLoad u + 1);
  uLoad_dec u : uLoad (uDec u) = wrap 64 (uLoad u - 1);
  uLoad_sub n u : uLoad (uSub n u) = wrap 64 (uLoad u - n)
}.

(** [concert.RefCount]: its zero value has one owner; [Release] reports the last
    owner's. *)
Class RefCount (C : Type) := {
  rcZero : C;
  rcRetain : C → C;
  rcRelease : C → bool * C
}.
Class RefCountLaws (C : Type) `{RefCount C} := {
  rcOwners : C → Z;
  rcZero_owners : rcOwners rcZero = 1%Z;
  rcRetain_owners c : (0 < rcOwners c < int_max)%Z → rcOwners (rcRetain c) = (rcOwners c + 1)%Z;
  rcRelease_owners c : (0 < rcOwners c ≤ int_max)%Z →
    rcOwners (rcRelease c).2 = (rcOwners c - 1)%Z ∧ (rcRelease c).1 = bool_decide (rcOwners c = 1%Z)
}.

(** [unison.Mutex]; [LockContext] on a locked mutex returns the error of a
    cancelled context, and otherwise waits. *)
Class Mutex (L : Type) := {
  MakeMutex : L;
  TryLock : L → bool * L;
  Unlock : L → outcome L
}.
Class MutexLaws (L : Type) `{Mutex L} := {
  locked : L → bool;
  MakeMutex_locked : locked MakeMutex = false;
  TryLock_result m : (TryLock m).1 = negb (locked m);
  TryLock_locked m : locked (TryLock m).2 = true;
  Unlock_locked m : locked m = true → ∃ m', Unlock m = Done m' ∧ locked m' = false
}.

#[export] Instance Z_uint64 : AtomicUint64 Z := {
  uZero := 0%Z; uInc u := wrap 64 (u + 1); uDec u := wrap 64 (u - 1); uSub n u := wrap 64 (u - n); uLoad u := wrap 64 u
}.
#[export] Instance Z_uint64_laws : AtomicUint64Laws Z.
Proof.
  split; simpl; intros; try done; [apply (wrap_range 64); lia|..]; rewrite wrap_idem; unfold wrap;
    [rewrite Zplus_mod_idemp_l|rewrite Zminus_mod_idemp_l..]; done.
Qed.
#[export] Instance Z_refcount : RefCount Z := { rcZero := 1%Z; rcRetain c := (c + 1)%Z; rcRelease c := (bool_decide (c = 1%Z), (c - 1)%Z) }.
#[export] Instance Z_refcount_laws : RefCountLaws Z.
Proof. by refine {| rcOwners c := c |}. Defined.
#[export] Instance bool_mutex : Mutex bool := {
  MakeMutex := false; TryLock m := (negb m, true); Unlock m := if m then Done false else Panic "unlock of unlocked mutex"
}.
#[export] Instance bool_mutex_laws : MutexLaws bool.
Proof. refine {| locked m := m |}; try done. intros m ->. by exists false. Defined.
