(* ===== verification/Storetest.v ===== *)
(** * The backend in memory (storetest.go) *)

From stdpp Require Import base gmap strings list fin_maps.
From Stdlib Require Import ZArith Lia.
From S2P Require Import Prelude GoValue Fs Backend.

Definition errMapStoreClosed : goerr := errText "store closed".
Definition errUnknownKey : goerr := errText "unknown key".

Section storetest.
Context {V X : Type} `{!Convert V X}.

(** A nil [Table] is [None]. *)
Record MapStore := mkMapStore { closed : bool; Table : option (gmap string X) }.

Definition init_table (s : MapStore) : MapStore := mkMapStore (closed s) (Some (default ∅ (Table s))).
Definition Reopen (s : MapStore) : MapStore := mkMapStore false (Table s).
Definition Close (s : MapStore) : option goerr * MapStore := (None, mkMapStore true (Table s)).
Definition IsClosed (s : MapStore) : bool := closed s.

Definition Has (key : string) (s : MapStore) : (goerr + bool) * MapStore :=
  if closed s then (inl errMapStoreClosed, s)
  else
    let s := init_table s in
    (inr (bool_decide (is_Some (default ∅ (Table s) !! key))), s).

(** [valueUnpacker.Decode] *)
Definition Decode (from : X) (to : V) : goerr + V := convert_out from to.

Definition Get (key : string) (into : V) (s : MapStore) : (goerr + V) * MapStore :=
  if closed s then (inl errMapStoreClosed, s)
  else
    let s := init_table s in
    match default ∅ (Table s) !! key with
    | None => (inl errUnknownKey, s)
    | Some val => (Decode val into, s)
    end.

Definition Set_ (key : string) (from : V) (s : MapStore) : option goerr * MapStore :=
  if closed s then (Some errMapStoreClosed, s)
  else
    let s := init_table s in
    match convert_in from with
    | inl e => (Some e, s)
    | inr tmp => (None, mkMapStore (closed s) (Some (<[ key := tmp ]> (default ∅ (Table s)))))
    end.

Definition Remove (key : string) (s : MapStore) : option goerr * MapStore :=
  if closed s then (Some errMapStoreClosed, s)
  else
    let s := init_table s in
    (None, mkMapStore (closed s) (Some (delete key (default ∅ (Table s))))).

(** [iterate]: the order of [range] over the table. *)
Context (iterate : gmap string X → list (string * X)).
Definition Each {S} (fn : string → X → S → outcome (bool * option goerr * S)) (st : S) (s : MapStore)
    : outcome (option goerr * S * MapStore) :=
  if closed s then Done (Some errMapStoreClosed, st, s)
  else
    let s := init_table s in
    r ← each_pairs fn (iterate (default ∅ (Table s))) st;
    Done (r.1, r.2, s).

(** [MemoryStore]: a pointer to a store is its name. *)
Record MemoryStore := mkMemoryStore { Stores : option (gmap string MapStore) }.
Definition NewMemoryStoreBackend : MemoryStore := mkMemoryStore None.
Definition init_stores (m : MemoryStore) : MemoryStore := mkMemoryStore (Some (default ∅ (Stores m))).

Definition Access (name : string) (m : MemoryStore) : (goerr + string) * MemoryStore :=
  let m := init_stores m in
  let stores := default ∅ (Stores m) in
  match stores !! name with
  | None => (inr name, mkMemoryStore (Some (<[ name := mkMapStore false None ]> stores)))
  | Some s => (inr name, mkMemoryStore (Some (<[ name := Reopen s ]> stores)))
  end.

(** An operation on the store behind a pointer. *)
Definition on_store {A} (h : string) (f : MapStore → A * MapStore) (m : MemoryStore) : outcome (A * MemoryStore) :=
  s ← deref (default ∅ (Stores m) !! h);
  let '(a, s) := f s in
  Done (a, mkMemoryStore (Some (<[ h := s ]> (default ∅ (Stores m))))).

#[local] Instance memory_backend : Backend MemoryStore string V X := {
  access name m := Done (Access name m);
  close_registry m := Done (None, m);
  close_store h := on_store h Close;
  has h k := on_store h (Has k);
  get h k v := on_store h (Get k v);
  set h k v := on_store h (Set_ k v);
  remove h k := on_store h (Remove k);
  each S h fn st m :=
    s ← deref (default ∅ (Stores m) !! h);
    r ← Each fn st s;
    let '(err, st, s) := r in
    Done (err, st, mkMemoryStore (Some (<[ h := s ]> (default ∅ (Stores m)))))
}.

(** ** The backend's promises *)
Definition store_view (s : MapStore) : option (gmap string X) :=
  if closed s then None else Some (default ∅ (Table s)).
Definition memory_view (m : MemoryStore) (h : string) : option (gmap string X) :=
  default ∅ (Stores m) !! h ≫= store_view.

Lemma memory_view_insert m h s h' :
  memory_view (mkMemoryStore (Some (<[ h := s ]> m))) h' =
    if decide (h' = h) then store_view s else memory_view (mkMemoryStore (Some m)) h'.
Proof.
  unfold memory_view. simpl. case_decide as Hh; [subst; by rewrite lookup_insert_eq|by rewrite lookup_insert_ne].
Qed.

Lemma memory_view_eta m h : memory_view (mkMemoryStore (Some (default ∅ (Stores m)))) h = memory_view m h.
Proof. done. Qed.

(** An operation on an open store, and what it makes of its table. *)
Lemma on_store_ok {A} m h t (f : MapStore → A * MapStore) a t' :
  memory_view m h = Some t →
  (∀ s, store_view s = Some t → ∃ s', f s = (a, s') ∧ store_view s' = t') →
  ∃ m', on_store h f m = Done (a, m') ∧ memory_view m' h = t' ∧ ∀ h', h' ≠ h → memory_view m' h' = memory_view m h'.
Proof.
  intros Hm Hf. unfold memory_view in Hm at 1. destruct (default ∅ (Stores m) !! h) as [s|] eqn:Es; [|done].
  destruct (Hf s Hm) as (s' & E & Hs'). unfold on_store. rewrite Es. cbn [deref mbind outcome_bind]. rewrite E.
  eexists. split; [done|]. split; [by rewrite memory_view_insert, decide_True|].
  intros h' Hne. by rewrite memory_view_insert, decide_False by done.
Qed.

(** Reading initializes the table, which cannot be seen. *)
Lemma init_view s t : store_view s = Some t → store_view (init_table s) = Some t ∧ closed s = false ∧
  default ∅ (Table s) = t.
Proof. unfold store_view, init_table. destruct s as [[] [tb|]]; simpl; naive_solver. Qed.

Context (Hiterate : ∀ t, iterate t ≡ₚ map_to_list t).

Lemma Access_eq m name : Access name m = (inr name, mkMemoryStore (Some (<[ name :=
  match default ∅ (Stores m) !! name with Some s => Reopen s | None => mkMapStore false None end ]> (default ∅ (Stores m))))).
Proof. unfold Access. simpl. by destruct (default ∅ (Stores m) !! name). Qed.

Definition named_view (m : MemoryStore) (h : string) : option (string * gmap string X) := pair h <$> memory_view m h.

Lemma named_view_Some m h n t : named_view m h = Some (n, t) → n = h ∧ memory_view m h = Some t.
Proof. unfold named_view. destruct (memory_view m h); naive_solver. Qed.

Lemma memory_access_ok m name : ∃ m', access name m = Done (inr name, m') ∧ is_Some (memory_view m' name) ∧
  ∀ h', h' ≠ name → memory_view m' h' = memory_view m h'.
Proof.
  cbn [access memory_backend]. rewrite Access_eq. eexists. split; [done|]. split.
  - rewrite memory_view_insert, decide_True by done.
    destruct (default ∅ (Stores m) !! name); unfold store_view; simpl; eauto.
  - intros h' Hne. by rewrite memory_view_insert, decide_False by done.
Qed.

(** Removing fails on a closed store only. *)
Lemma memory_remove_ok m h t k : memory_view m h = Some t →
  ∃ m', on_store h (Remove k) m = Done (None, m') ∧ memory_view m' h = Some (delete k t) ∧
    ∀ h', h' ≠ h → memory_view m' h' = memory_view m h'.
Proof.
  intros Hm. apply (on_store_ok m h t (Remove k) None (Some (delete k t)) Hm).
  intros s Hs. destruct (init_view s t Hs) as (Hi & Hc & <-). unfold Remove. rewrite Hc.
  eexists. split; [done|]. unfold store_view. simpl. by rewrite Hc.
Qed.

#[local] Instance memory_laws : BackendLaws MemoryStore string V X.
Proof.
  refine {| backend_ok := λ _, True; view := named_view |}.
  - intros m name _ Hnot. destruct (memory_access_ok m name) as (m' & E & [t Hv] & Ho).
    exists (inr name), m'. split; [done|]. split; [done|]. unfold named_view in *. split_and!.
    + destruct (memory_view m name) as [t'|] eqn:Et; [|done]. destruct (Hnot name t'). by rewrite Et.
    + exists t. by rewrite Hv.
    + intros h' Hne. by rewrite Ho.
  - intros m h [n t] _ [-> Hm]%named_view_Some. destruct (on_store_ok m h t Close None None Hm) as (m' & E & Hv & Ho).
    { intros s Hs. by eexists. }
    exists None, m'. unfold named_view. split_and!; first [done | by rewrite Hv | intros h' ?; by rewrite Ho].
  - intros m h n t k _ [-> Hm]%named_view_Some.
    destruct (on_store_ok m h t (Has k) (inr (bool_decide (is_Some (t !! k)))) (Some t) Hm) as (m' & E & Hv & Ho).
    { intros s Hs. destruct (init_view s t Hs) as (Hi & Hc & <-). unfold Has. rewrite Hc. by eexists. }
    exists m'. split_and!; [done|done|]. intros h'. unfold named_view. f_equal. destruct (decide (h' = h)) as [->|]; [congruence|auto].
  - intros m h n t k v _ [-> Hm]%named_view_Some. set (res := match t !! k with Some x => convert_out x v | None => inl errUnknownKey end).
    destruct (on_store_ok m h t (Get k v) res (Some t) Hm) as (m' & E & Hv & Ho).
    { intros s Hs. destruct (init_view s t Hs) as (Hi & Hc & <-). unfold Get, res. rewrite Hc. simpl.
      destruct (default ∅ (Table s) !! k); by eexists. }
    exists res, m'. split_and!; [done|done| |].
    + intros h'. unfold named_view. f_equal. destruct (decide (h' = h)) as [->|]; [congruence|auto].
    + unfold res. destruct (t !! k); [done|by eexists].
  - intros m h n t k v _ [-> Hm]%named_view_Some. destruct (convert_in v) as [e|x] eqn:Ev.
    + destruct (on_store_ok m h t (Set_ k v) (Some e) (Some t) Hm) as (m' & E & Hv & Ho).
      { intros s Hs. destruct (init_view s t Hs) as (Hi & Hc & <-). unfold Set_. rewrite Hc, Ev. by eexists. }
      exists (Some e), m'. unfold named_view. split_and!; first [done | by rewrite Hv | intros h' ?; by rewrite Ho].
    + destruct (on_store_ok m h t (Set_ k v) None (Some (<[ k := x ]> t)) Hm) as (m' & E & Hv & Ho).
      { intros s Hs. destruct (init_view s t Hs) as (Hi & Hc & <-). unfold Set_. rewrite Hc, Ev.
        eexists. split; [done|]. unfold store_view. simpl. by rewrite Hc. }
      exists None, m'. unfold named_view. split_and!; first [done | by rewrite Hv | intros h' ?; by rewrite Ho].
  - intros m h n t k _ [-> Hm]%named_view_Some.
    destruct (memory_remove_ok m h t k Hm) as (m' & E & Hv & Ho).
    exists None, m'. unfold named_view. split_and!; first [done | by rewrite Hv | intros h' ?; by rewrite Ho].
  - intros S m h n t fn st _ [-> Hm]%named_view_Some. cbn [each memory_backend]. unfold memory_view in Hm.
    destruct (default ∅ (Stores m) !! h) as [s|] eqn:Es; [|done].
    destruct (init_view s t Hm) as (Hi & Hc & Ht).
    exists (iterate t), (mkMemoryStore (Some (<[ h := init_table s ]> (default ∅ (Stores m))))).
    split_and!; [|apply Hiterate|done|].
    + cbn [deref mbind outcome_bind]. unfold Each. rewrite Hc. cbn [Table init_table default]. rewrite Ht.
      unfold id. by destruct (each_pairs fn (iterate t) st) as [[err st']| |].
    + intros h'. unfold named_view. f_equal. rewrite memory_view_insert. case_decide as Hh; [|done]. subst h'.
      rewrite Hi. symmetry. unfold memory_view. by rewrite Es.
Defined.
End storetest.
Arguments MapStore : clear implicits.
Arguments MemoryStore : clear implicits.

Lemma on_store_insert {V X A} `{!Convert V X} h (f : MapStore X → A * MapStore X) s (st : gmap string (MapStore X)) :
  on_store h f (mkMemoryStore (Some (<[ h := s ]> st))) = Done (let '(a, s) := f s in (a, mkMemoryStore (Some (<[ h := s ]> st)))).
Proof. unfold on_store. simpl. rewrite lookup_insert_eq. simpl. destruct (f s). by rewrite insert_insert_eq. Qed.

Lemma each_insert {V X S} `{!Convert V X} iterate h fn (a : S) s (st : gmap string (MapStore X)) :
  @each _ _ _ _ (memory_backend iterate) S h fn a (mkMemoryStore (Some (<[ h := s ]> st))) =
    (r ← Each iterate fn a s; let '(err, a, s) := r in Done (err, a, mkMemoryStore (Some (<[ h := s ]> st)))).
Proof.
  simpl. rewrite lookup_insert_eq. simpl. destruct (Each iterate fn a s) as [[[err a'] s']| |]; [|done..].
  simpl. by rewrite insert_insert_eq.
Qed.

(** C29. Closing a store of the backend in memory keeps its table: until the name
    is accessed again [Has], [Get], [Set], [Remove] and [Each] fail on the closed
    store with the error of a closed one, [Each] without calling its function,
    and another [Close] succeeds, all of them changing nothing; then the store
    opens with the table it was closed with, and no other store has changed. *)
Theorem memory_store_keeps_table {V X : Type} `{!Convert V X} (iterate : gmap string X → list (string * X))
    (m : MemoryStore X) (h : string) (t : gmap string X) :
  memory_view m h = Some t →
  ∃ m1, on_store h Close m = Done (None, m1) ∧ memory_view m1 h = None ∧
    (∀ k, on_store h (Has k) m1 = Done (inl errMapStoreClosed, m1)) ∧
    (∀ k (v : V), on_store h (Get k v) m1 = Done (inl errMapStoreClosed, m1)) ∧
    (∀ k (v : V), on_store h (Set_ k v) m1 = Done (Some errMapStoreClosed, m1)) ∧
    (∀ k, on_store h (Remove k) m1 = Done (Some errMapStoreClosed, m1)) ∧
    (∀ (S : Type) (fn : string → X → S → outcome (bool * option goerr * S)) (st : S),
       @each _ _ _ _ (memory_backend iterate) S h fn st m1 = Done (Some errMapStoreClosed, st, m1)) ∧
    on_store h Close m1 = Done (None, m1) ∧
    ∃ m2, Access h m1 = (inr h, m2) ∧ memory_view m2 h = Some t ∧
      ∀ h', h' ≠ h → memory_view m2 h' = memory_view m h'.
Proof.
  intros Hm. unfold memory_view in Hm. destruct (default ∅ (Stores m) !! h) as [s|] eqn:Es; [|done].
  unfold store_view in Hm. simpl in Hm. destruct (closed s) eqn:Hc; [done|]. injection Hm as Ht.
  exists (mkMemoryStore (Some (<[ h := mkMapStore true (Table s) ]> (default ∅ (Stores m))))).
  split; [unfold on_store; by rewrite Es|]. split; [by rewrite memory_view_insert, decide_True by done|].
  do 4 (split; [intros; by rewrite on_store_insert|]).
  split; [intros S fn st; by rewrite each_insert|]. split; [by rewrite on_store_insert|].
  eexists. split; [apply Access_eq|]. simpl. rewrite lookup_insert_eq, insert_insert_eq. split.
  - rewrite memory_view_insert, decide_True by done. unfold store_view. simpl. by rewrite Ht.
  - intros h' Hne. by rewrite memory_view_insert, decide_False by done.
Qed.

#[local] Instance string_convert : Convert string string := {| convert_in := inr; convert_out x _ := inr x |}.

(** A store with one key, next to another store. *)
Lemma memory_store_keeps_table_witness :
  let s1 := mkMapStore false (Some {[ "k"%string := "x"%string ]}) in
  let m := mkMemoryStore (Some (<[ "s"%string := s1 ]> {[ "other"%string := mkMapStore false None ]})) in
  ∃ m1, on_store "s" Close m = Done (None, m1) ∧
    (∃ err, @each _ _ _ _ (memory_backend (V := string) map_to_list) nat "s"
       (λ _ _ n, Done (true, None, S n)) 0 m1 = Done (Some err, 0, m1)) ∧
    ∃ m2, Access "s" m1 = (inr "s"%string, m2) ∧ memory_view m2 "s" = Some {[ "k"%string := "x"%string ]} ∧
      memory_view m2 "other" = Some ∅.
Proof.
  intros s1 m.
  destruct (memory_store_keeps_table (V := string) map_to_list m "s" {[ "k"%string := "x"%string ]})
    as (m1 & E & _ & _ & _ & _ & _ & He & _ & m2 & E2 & Hv & Ho); [reflexivity|].
  exists m1. split; [exact E|]. split; [eexists; apply He|]. exists m2. split; [exact E2|]. split; [exact Hv|].
  rewrite Ho by discriminate. reflexivity.
Defined.
