(* ===== verification/Statestore.v ===== *)
(** * The state store: registry.go, store.go and error.go of pkg/statestore

    Store instances of the same name share one backend store, which is opened
    for the first and closed with the last of them.  Pointers are indices into
    the heaps [shareds] and [instances] of a world; a critical section under
    [Registry.mu] is one step.  [R], [H], [V] and [X] are the backend's state,
    its handles, callers' values and stored values. *)

From stdpp Require Import base gmap strings list fin_maps.
From Stdlib Require Import ZArith Lia.
From S2P Require Import Prelude Fs Backend Concert.

(** Error values; causes come from the backend. *)
Inductive sserr :=
| ErrorAccess (name : string) (cause : option goerr)
| ErrorClosed (name operation : string)
| ErrorOperation (name operation : string) (cause : goerr)
| Unwrapped (e : goerr).

(** [errors.As] for [*ErrorClosed]: no error of a backend is one. *)
Definition IsClosed (err : sserr) : bool :=
  match err with
  | ErrorClosed _ _ => true
  | ErrorAccess _ _ | ErrorOperation _ _ _ | Unwrapped _ => false
  end.

Definition Unwrap (err : sserr) : option goerr :=
  match err with
  | ErrorAccess _ cause => cause
  | ErrorOperation _ _ cause => Some cause
  | ErrorClosed _ _ => None
  | Unwrapped (Wrapped _ e) => Some e
  | Unwrapped _ => None
  end.

(** [Error()]; [text] is that of the cause. *)
Definition Error (text : goerr → string) (err : sserr) : string :=
  match err with
  | ErrorAccess name None => "failed to open store '" +:+ name +:+ "'"
  | ErrorAccess name (Some cause) => "failed to open store '" +:+ name +:+ "': " +:+ text cause
  | ErrorClosed name operation =>
    "can not executed " +:+ operation +:+ " operation on closed store '" +:+ name +:+ "'"
  | ErrorOperation name operation cause =>
    "failed in " +:+ operation +:+ " operation on store '" +:+ name +:+ "': " +:+ text cause
  | Unwrapped e => text e
  end.

(** Pointers. *)
Abbreviation loc := nat (only parsing).

Section statestore.
Context {R H V X Ctr W : Type} `{!Backend R H V X, !AtomicInt Ctr, !SafeWaitGroup W}.

Record sharedStore := mkShared { refCount : Ctr; name : string; backend : H }.
(** [Store] *)
Record instance := mkInstance { shared : loc; active : W }.
(** [Registry] and the heaps; [wg] is a [sync.WaitGroup]. *)
Record world := mkWorld {
  reg_backend : R;
  mu : bool;
  reg_active : gmap string loc;
  wg : Z;
  shareds : list sharedStore;
  instances : list instance
}.
Abbreviation prog := (M world).

Definition set_backend r w := mkWorld r (mu w) (reg_active w) (wg w) (shareds w) (instances w).
Definition set_mu b w := mkWorld (reg_backend w) b (reg_active w) (wg w) (shareds w) (instances w).
Definition set_active a z w := mkWorld (reg_backend w) (mu w) a z (shareds w) (instances w).
Definition set_shareds l w := mkWorld (reg_backend w) (mu w) (reg_active w) (wg w) l (instances w).
Definition set_instances l w := mkWorld (reg_backend w) (mu w) (reg_active w) (wg w) (shareds w) l.

Definition NewRegistry (backend : R) : world := mkWorld backend false ∅ 0 [] [].

(** A goroutine that waits for itself. *)
Definition deadlock {A} : prog A := panic "all goroutines are asleep - deadlock!".
Definition lock_mu : prog () := λ w, if mu w then deadlock w else Done ((), set_mu true w).
Definition unlock_mu : prog () := modify (set_mu false).

Definition on_backend {A} (f : R → outcome (A * R)) : prog A := λ w,
  ar ← f (reg_backend w); Done (ar.1, set_backend ar.2 w).

Definition get_shared (l : loc) : prog sharedStore := λ w, nonnil (shareds w !! l) w.
Definition set_refCount (l : loc) (i : Ctr) : prog () := λ w,
  s ← deref (shareds w !! l); Done ((), set_shareds (<[ l := mkShared i (name s) (backend s) ]> (shareds w)) w).
Definition get_instance (s : loc) : prog instance := λ w, nonnil (instances w !! s) w.
Definition set_group (s : loc) (g : W) : prog () := λ w,
  i ← deref (instances w !! s); Done ((), set_instances (<[ s := mkInstance (shared i) g ]> (instances w)) w).

(** ** sharedStore *)
Definition newSharedStore (name : string) (backend : H) : prog loc := λ w,
  Done (length (shareds w), set_shareds (shareds w ++ [mkShared (MakeInt 1) name backend]) w).

Definition Retain (l : loc) : prog () := s ← get_shared l; set_refCount l (Inc (refCount s)).2.

(** [s.refCount.Dec()] *)
Definition refCount_Dec (l : loc) : prog Z :=
  s ← get_shared l;
  set_refCount l (Dec (refCount s)).2;;
  mret (Dec (refCount s)).1.

Definition unregisterStore (l : loc) : prog () :=
  s ← get_shared l;
  a ← gets reg_active;
  z ← gets wg;
  match a !! name s with
  | None => panic "removing an unknown store"
  | Some _ =>
    if bool_decide (z - 1 < 0)%Z then panic "sync: negative WaitGroup counter"
    else modify (set_active (delete (name s) a) (z - 1))
  end.

Definition tryUnregister (l : loc) : prog bool :=
  lock_mu;;
  s ← get_shared l;
  if bool_decide (Load (refCount s) > 0)%Z then unlock_mu;; mret false
  else unregisterStore l;; unlock_mu;; mret true.

Definition backend_Close (l : loc) : prog (option sserr) :=
  s ← get_shared l;
  err ← on_backend (close_store (backend s));
  mret (Unwrapped <$> err).

Definition Release (l : loc) : prog (option sserr) :=
  z ← refCount_Dec l;
  if bool_decide (z = 0%Z) then
    b ← tryUnregister l;
    if (b : bool) then backend_Close l else mret None
  else mret None.

(** ** Registry *)
Definition alloc_instance (l : loc) : prog loc := λ w,
  Done (length (instances w), set_instances (instances w ++ [mkInstance l wgZero]) w).
Definition newStore (l : loc) : prog loc := Retain l;; alloc_instance l.

(** [Get]: the deferred [Release] runs before the deferred [Unlock]. *)
Definition Registry_Get (name : string) : prog (sserr + loc) :=
  lock_mu;;
  a ← gets reg_active;
  match a !! name with
  | Some l => s ← newStore l; unlock_mu;; mret (inr s)
  | None =>
    r ← on_backend (access name);
    match r with
    | inl err => unlock_mu;; mret (inl (ErrorAccess name (Some err)))
    | inr h =>
      l ← newSharedStore name h;
      modify (λ w, set_active (<[ name := l ]> (reg_active w)) (wg w + 1) w);;
      s ← newStore l;
      Release l;;
      unlock_mu;;
      mret (inr s)
    end
  end.

Definition Registry_Close : prog (option sserr) :=
  z ← gets wg;
  if bool_decide (z = 0%Z) then err ← on_backend (close_registry (H := H)); mret (Unwrapped <$> err)
  else deadlock.

(** ** Store *)

(** [s.active.Add(1)]; the result is the error, if any. *)
Definition active_Add (s : loc) : prog (option goerr) :=
  i ← get_instance s;
  set_group s (wgAdd 1 (active i)).2;;
  mret (wgAdd 1 (active i)).1.
Definition active_Close (s : loc) : prog () := i ← get_instance s; set_group s (wgClose (active i)).
Definition active_Done (s : loc) : prog () := i ← get_instance s; set_group s (wgDone (active i)).
(** [Wait] closes the group too. *)
Definition active_Wait (s : loc) : prog () :=
  active_Close s;;
  i ← get_instance s;
  if wgReturns (active i) then mret () else deadlock.
Definition store_shared (s : loc) : prog loc := i ← get_instance s; mret (shared i).
Definition store_name (s : loc) : prog string := l ← store_shared s; sh ← get_shared l; mret (name sh).

(** [Close] up to [Release], which is the part that works on the instance. *)
Definition Close_instance (s : loc) : prog (sserr + loc) :=
  err ← active_Add s;
  match err with
  | Some _ => n ← store_name s; mret (inl (ErrorClosed n "store/close"))
  | None =>
    active_Close s;;
    active_Done s;;
    active_Wait s;;
    l ← store_shared s;
    mret (inr l)
  end.
Definition Close (s : loc) : prog (option sserr) :=
  r ← Close_instance s;
  match r with
  | inl err => mret (Some err)
  | inr l => Release l
  end.

(** The frame of the other methods: [Add], the body on the backend, the
    deferred [Done]. *)
Definition with_active {A} (s : loc) (operation : string) (body : H → prog (sserr + A)) : prog (sserr + A) :=
  err ← active_Add s;
  match err with
  | Some _ => n ← store_name s; mret (inl (ErrorClosed n operation))
  | None =>
    l ← store_shared s;
    sh ← get_shared l;
    r ← body (backend sh);
    active_Done s;;
    mret r
  end.
Definition ErrorOperation_of {A} (s : loc) (operation : string) (r : goerr + A) : prog (sserr + A) :=
  match r with
  | inl err => n ← store_name s; mret (inl (ErrorOperation n operation err))
  | inr a => mret (inr a)
  end.
Definition result_of (err : option goerr) : goerr + () := match err with Some e => inl e | None => inr () end.

Definition Has (s : loc) (key : string) : prog (sserr + bool) :=
  with_active s "store/has" (λ h,
    r ← on_backend (has h key); ErrorOperation_of s "store/has" r).
Definition Get (s : loc) (key : string) (into : V) : prog (sserr + V) :=
  with_active s "store/get" (λ h,
    r ← on_backend (get h key into); ErrorOperation_of s "store/get" r).
(** The operation's name in the code is that of [Get]. *)
Definition Set_ (s : loc) (key : string) (from : V) : prog (sserr + ()) :=
  with_active s "store/get" (λ h,
    err ← on_backend (set h key from); ErrorOperation_of s "store/get" (result_of err)).
Definition Remove (s : loc) (key : string) : prog (sserr + ()) :=
  with_active s "store/remove" (λ h,
    err ← on_backend (remove h key); ErrorOperation_of s "store/remove" (result_of err)).
Definition Each {S} (s : loc) (fn : string → X → S → outcome (bool * option goerr * S)) (st : S)
    : prog (sserr + (option sserr * S)) :=
  with_active s "store/each" (λ h,
    r ← on_backend (λ r, e ← each h fn st r; Done (e.1, e.2));
    mret (inr (Unwrapped <$> r.1, r.2))).
End statestore.
Arguments sharedStore : clear implicits.
Arguments instance : clear implicits.
Arguments world : clear implicits.
