(* ===== verification/StatestoreFacts.v ===== *)
(** * The state store used by one goroutine at a time

    Effects of the operations of Statestore.v, the invariant of the registry
    between calls and its preservation. *)

From stdpp Require Import base gmap strings list fin_maps.
From Stdlib Require Import ZArith Lia.
From S2P Require Import Prelude Fs Backend Concert Statestore.

Section facts.
Context {R H V X Ctr W : Type} `{!Convert V X, !Backend R H V X, !BackendLaws R H V X,
  !AtomicInt Ctr, !AtomicIntLaws Ctr, !SafeWaitGroup W, !SafeWaitGroupLaws W}.
Abbreviation world := (world R H Ctr W).

(** An instance between operations: no operation is active. *)
Definition idle (c : bool) (i : instance W) : Prop := wgState (active i) = (0%Z, c).

(** *** The steps on an instance *)
Definition put_group (s : loc) (l : loc) (g : W) (w : world) : world :=
  set_instances (<[ s := mkInstance l g ]> (instances w)) w.

Lemma put_group_lookup s l g (w : world) i :
  instances w !! s = Some i → instances (put_group s l g w) !! s = Some (mkInstance l g).
Proof. intros Hi. apply list_lookup_insert_eq. by apply lookup_lt_Some in Hi. Qed.

Lemma put_group_put s l g l' g' (w : world) : put_group s l' g' (put_group s l g w) = put_group s l' g' w.
Proof. unfold put_group, set_instances. simpl. by rewrite list_insert_insert_eq. Qed.

Lemma active_Add_eq (w : world) s i : instances w !! s = Some i →
  active_Add s w = Done ((wgAdd 1 (active i)).1, put_group s (shared i) (wgAdd 1 (active i)).2 w).
Proof. intros Hi. unfold active_Add, set_group, get_instance. run_M. rewrite Hi. run_M. by rewrite Hi. Qed.

Lemma active_Close_eq (w : world) s i : instances w !! s = Some i →
  active_Close s w = Done ((), put_group s (shared i) (wgClose (active i)) w).
Proof. intros Hi. unfold active_Close, set_group, get_instance. run_M. rewrite Hi. run_M. by rewrite Hi. Qed.

Lemma active_Done_eq (w : world) s i : instances w !! s = Some i →
  active_Done s w = Done ((), put_group s (shared i) (wgDone (active i)) w).
Proof. intros Hi. unfold active_Done, set_group, get_instance. run_M. rewrite Hi. run_M. by rewrite Hi. Qed.

Lemma active_Wait_eq (w : world) s i : instances w !! s = Some i → wgReturns (wgClose (active i)) = true →
  active_Wait s w = Done ((), put_group s (shared i) (wgClose (active i)) w).
Proof.
  intros Hi Hr. unfold active_Wait. mstep active_Close_eq.
  unfold get_instance. run_M. erewrite put_group_lookup by done. run_M. simpl. by rewrite Hr.
Qed.

Lemma store_shared_eq (w : world) s i : instances w !! s = Some i → store_shared s w = Done (shared i, w).
Proof. intros Hi. unfold store_shared, get_instance. run_M. by rewrite Hi. Qed.

Lemma get_shared_eq (w : world) l sh : shareds w !! l = Some sh → get_shared l w = Done (sh, w).
Proof. intros Hl. unfold get_shared. run_M. by rewrite Hl. Qed.

Lemma store_name_eq (w : world) s i sh : instances w !! s = Some i → shareds w !! shared i = Some sh →
  store_name s w = Done (name sh, w).
Proof. intros Hi Hl. unfold store_name. mstep store_shared_eq. by mstep get_shared_eq. Qed.

Lemma with_active_open {A} (w : world) s i sh op (body : H → M world (sserr + A)) res b' :
  instances w !! s = Some i → idle false i → shareds w !! shared i = Some sh →
  (∀ w1 i1, instances w1 !! s = Some i1 → shared i1 = shared i → shareds w1 = shareds w →
    reg_backend w1 = reg_backend w → body (backend sh) w1 = Done (res, set_backend b' w1)) →
  ∃ g, wgState g = (0%Z, false) ∧ with_active s op body w = Done (res, put_group s (shared i) g (set_backend b' w)).
Proof.
  intros Hi Hidle Hsh Hbody.
  destruct (wgAdd_open (active i) 0 Hidle ltac:(unfold int_max; lia)) as [Hadd Hst].
  exists (wgDone (wgAdd 1 (active i)).2). split; [by rewrite (wgDone_state _ _ _ Hst) by lia|].
  set (w1 := put_group s (shared i) (wgAdd 1 (active i)).2 w).
  assert (Hi1 : instances w1 !! s = Some (mkInstance (shared i) (wgAdd 1 (active i)).2)) by (by eapply put_group_lookup).
  unfold with_active. mstep active_Add_eq. rewrite Hadd. fold w1. mstep store_shared_eq. mstep (get_shared_eq w1).
  erewrite M_bind_eq; [|by eapply (Hbody w1)]. mstep (active_Done_eq (set_backend b' w1)).
  run_M. do 2 f_equal. change (set_backend b' w1) with (put_group s (shared i) (wgAdd 1 (active i)).2 (set_backend b' w)).
  apply put_group_put.
Qed.

Lemma with_active_closed {A} (w : world) s i sh op (body : H → M world (sserr + A)) :
  instances w !! s = Some i → idle true i → shareds w !! shared i = Some sh →
  ∃ g, wgState g = (0%Z, true) ∧
    with_active s op body w = Done (inl (ErrorClosed (name sh) op), put_group s (shared i) g w).
Proof.
  intros Hi Hidle Hsh. destruct (wgAdd_closed (active i) 0 Hidle) as [Hadd Hst].
  exists (wgAdd 1 (active i)).2. split; [done|]. unfold with_active. mstep active_Add_eq.
  destruct (wgAdd 1 (active i)).1 as [e|]; [|done].
  by erewrite M_bind_eq; [|eapply store_name_eq; [by eapply put_group_lookup|]].
Qed.

Lemma Close_instance_open (w : world) s i :
  instances w !! s = Some i → idle false i →
  ∃ g, wgState g = (0%Z, true) ∧ Close_instance s w = Done (inr (shared i), put_group s (shared i) g w).
Proof.
  intros Hi Hidle.
  destruct (wgAdd_open (active i) 0 Hidle ltac:(unfold int_max; lia)) as [Hadd Hst].
  pose proof (wgClose_state _ _ _ Hst) as Hst2.
  pose proof (wgDone_state _ _ _ Hst2 ltac:(lia)) as Hst3.
  pose proof (wgClose_state _ _ _ Hst3) as Hst4. change ((0 + 1) - 1)%Z with 0%Z in Hst4.
  eexists. split; [exact Hst4|].
  unfold Close_instance. mstep active_Add_eq. rewrite Hadd.
  erewrite M_bind_eq; [|eapply active_Close_eq, put_group_lookup, Hi]. rewrite put_group_put.
  erewrite M_bind_eq; [|eapply active_Done_eq, put_group_lookup, Hi]. rewrite put_group_put.
  erewrite M_bind_eq; [|eapply active_Wait_eq; [eapply put_group_lookup, Hi|]].
  2: { simpl. by rewrite (wgReturns_state _ _ _ Hst4), bool_decide_true. }
  rewrite put_group_put. simpl.
  by erewrite M_bind_eq; [|eapply store_shared_eq, put_group_lookup, Hi].
Qed.

Lemma Close_instance_closed (w : world) s i sh :
  instances w !! s = Some i → idle true i → shareds w !! shared i = Some sh →
  ∃ g, wgState g = (0%Z, true) ∧
    Close_instance s w = Done (inl (ErrorClosed (name sh) "store/close"), put_group s (shared i) g w).
Proof.
  intros Hi Hidle Hsh. destruct (wgAdd_closed (active i) 0 Hidle) as [Hadd Hst].
  exists (wgAdd 1 (active i)).2. split; [done|]. unfold Close_instance. mstep active_Add_eq.
  destruct (wgAdd 1 (active i)).1 as [e|]; [|done].
  by erewrite M_bind_eq; [|eapply store_name_eq; [by eapply put_group_lookup|]].
Qed.

(** *** The steps on a shared store *)
Definition put_refCount (l : loc) (sh : sharedStore H Ctr) (c : Ctr) (w : world) : world :=
  set_shareds (<[ l := mkShared c (name sh) (backend sh) ]> (shareds w)) w.

Lemma set_refCount_eq (w : world) l sh c : shareds w !! l = Some sh → set_refCount l c w = Done ((), put_refCount l sh c w).
Proof. intros Hl. unfold set_refCount. run_M. by rewrite Hl. Qed.

Lemma Retain_eq (w : world) l sh : shareds w !! l = Some sh → Retain l w = Done ((), put_refCount l sh (Inc (refCount sh)).2 w).
Proof. intros Hl. unfold Retain. mstep get_shared_eq. by eapply set_refCount_eq. Qed.

Lemma refCount_Dec_eq (w : world) l sh : shareds w !! l = Some sh →
  refCount_Dec l w = Done ((Dec (refCount sh)).1, put_refCount l sh (Dec (refCount sh)).2 w).
Proof. intros Hl. unfold refCount_Dec. mstep get_shared_eq. by mstep set_refCount_eq. Qed.

Lemma put_refCount_lookup l sh c (w : world) sh0 :
  shareds w !! l = Some sh0 → shareds (put_refCount l sh c w) !! l = Some (mkShared c (name sh) (backend sh)).
Proof. intros Hl. apply list_lookup_insert_eq. by apply lookup_lt_Some in Hl. Qed.

Lemma lookup_put_refCount (w : world) l sh c l' sh' : shareds w !! l = Some sh →
  shareds (put_refCount l sh c w) !! l' = Some sh' →
  ∃ sh0, shareds w !! l' = Some sh0 ∧ name sh' = name sh0 ∧ backend sh' = backend sh0 ∧
    Load (refCount sh') = if decide (l' = l) then Load c else Load (refCount sh0).
Proof.
  intros Hl Hl'. destruct (decide (l' = l)) as [->|Hne].
  - rewrite (put_refCount_lookup _ _ _ _ _ Hl) in Hl'. injection Hl' as <-. by exists sh.
  - unfold put_refCount in Hl'. simpl in Hl'. rewrite list_lookup_insert_ne in Hl' by done.
    by exists sh'.
Qed.

Lemma put_refCount_Some (w : world) l sh c l' sh0 : shareds w !! l = Some sh → shareds w !! l' = Some sh0 →
  ∃ c', shareds (put_refCount l sh c w) !! l' = Some (mkShared c' (name sh0) (backend sh0)).
Proof.
  intros Hl Hl'. destruct (decide (l' = l)) as [->|Hne].
  - assert (sh0 = sh) as -> by congruence. exists c. by apply (put_refCount_lookup _ _ _ _ _ Hl).
  - unfold put_refCount. simpl. rewrite list_lookup_insert_ne by done. exists (refCount sh0). by destruct sh0.
Qed.

Definition unregistered (n : string) (w : world) : world := set_active (delete n (reg_active w)) (wg w - 1) w.

Lemma tryUnregister_eq (w : world) l sh l' : shareds w !! l = Some sh → mu w = false → Load (refCount sh) = 0%Z →
  reg_active w !! name sh = Some l' → (0 < wg w)%Z →
  tryUnregister l w = Done (true, unregistered (name sh) w).
Proof.
  intros Hl Hmu Hc Ha Hwg. destruct w as [r m a z shs ins]; simpl in *; subst m.
  unfold tryUnregister, unregisterStore, lock_mu, unlock_mu, get_shared. run_M. simpl. rewrite Hl. run_M.
  rewrite Hc, bool_decide_false by lia. simpl. rewrite Hl. simpl. rewrite Ha. by rewrite bool_decide_false by lia.
Qed.

(** A release that leaves users, and the last one. *)
Lemma Release_shared (w : world) l sh : shareds w !! l = Some sh → (1 < Load (refCount sh) ≤ int_max)%Z →
  Release l w = Done (None, put_refCount l sh (Dec (refCount sh)).2 w).
Proof.
  intros Hl Hc. unfold Release. mstep refCount_Dec_eq. rewrite Dec_result by lia.
  by rewrite bool_decide_false by lia.
Qed.

Lemma Release_last (w : world) l sh l' : shareds w !! l = Some sh → mu w = false → Load (refCount sh) = 1%Z →
  reg_active w !! name sh = Some l' → (0 < wg w)%Z →
  Release l w = (err ← on_backend (close_store (backend sh)); mret (Unwrapped <$> err))
    (unregistered (name sh) (put_refCount l sh (Dec (refCount sh)).2 w)).
Proof.
  intros Hl Hmu Hc Ha Hwg. unfold Release. mstep refCount_Dec_eq.
  rewrite Dec_result by (unfold int_max; lia). rewrite Hc, bool_decide_true by done.
  erewrite M_bind_eq; [|eapply tryUnregister_eq; [by eapply put_refCount_lookup|done| |done..]].
  2: { simpl. rewrite Load_Dec; unfold int_max; lia. }
  simpl. unfold backend_Close. by erewrite M_bind_eq; [|eapply get_shared_eq, put_refCount_lookup].
Qed.

(** *** The registry *)
Definition add_instance (l : loc) (w : world) : world := set_instances (instances w ++ [mkInstance l wgZero]) w.

Lemma newStore_eq (w : world) l sh : shareds w !! l = Some sh →
  newStore l w = Done (length (instances w), add_instance l (put_refCount l sh (Inc (refCount sh)).2 w)).
Proof. intros Hl. unfold newStore. by mstep Retain_eq. Qed.

Lemma Registry_Get_active (w : world) n l sh : mu w = false → reg_active w !! n = Some l → shareds w !! l = Some sh →
  Registry_Get n w = Done (inr (length (instances w)), add_instance l (put_refCount l sh (Inc (refCount sh)).2 w)).
Proof.
  intros Hmu Ha Hl. destruct w as [r m a z shs ins]; simpl in *; subst m.
  unfold Registry_Get, lock_mu, unlock_mu. run_M. simpl. rewrite Ha. run_M. by erewrite newStore_eq.
Qed.

Lemma Registry_Get_error (w : world) n err r' : mu w = false → reg_active w !! n = None →
  access (H := H) n (reg_backend w) = Done (inl err, r') →
  Registry_Get n w = Done (inl (ErrorAccess n (Some err)), set_backend r' w).
Proof.
  intros Hmu Ha Hr. destruct w as [r m a z shs ins]; simpl in *; subst m.
  unfold Registry_Get, lock_mu, unlock_mu, on_backend. run_M. simpl. rewrite Ha. run_M. simpl. by rewrite Hr.
Qed.

(** The world after the first access of a name: its count passes 1, 2, 1. *)
Definition opened (n : string) (h : H) (c : Ctr) (r' : R) (w : world) : world :=
  let l := length (shareds w) in
  mkWorld r' false (<[ n := l ]> (reg_active w)) (wg w + 1)
    (shareds w ++ [mkShared c n h]) (instances w ++ [mkInstance l wgZero]).

Lemma Registry_Get_new (w : world) n h r' : mu w = false → reg_active w !! n = None →
  access n (reg_backend w) = Done (inr h, r') →
  ∃ c, Load c = 1%Z ∧ Registry_Get n w = Done (inr (length (instances w)), opened n h c r' w).
Proof.
  intros Hmu Ha Hr.
  assert (H1 : Load (MakeInt 1) = 1%Z) by (apply Load_MakeInt; unfold int_max; lia).
  assert (H2 : Load (Inc (MakeInt 1)).2 = 2%Z) by (rewrite Load_Inc, H1; unfold int_max; lia).
  exists (Dec (Inc (MakeInt 1)).2).2. split; [rewrite Load_Dec, H2; unfold int_max; lia|].
  destruct w as [r m a z shs ins]; simpl in *; subst m. unfold opened. simpl.
  unfold Registry_Get, lock_mu, on_backend. run_M. simpl. rewrite Ha. run_M. simpl. rewrite Hr. simpl.
  set (w1 := set_active _ _ _).
  assert (Hl : shareds w1 !! length shs = Some (mkShared (MakeInt 1) n h)).
  { simpl. by apply list_lookup_middle. }
  erewrite newStore_eq by exact Hl. simpl.
  erewrite Release_shared; [|simpl; rewrite list_lookup_insert_eq; [done|by apply lookup_lt_Some in Hl]|].
  2: { simpl. rewrite H2. unfold int_max. lia. }
  simpl. unfold unlock_mu. run_M. unfold put_refCount, add_instance, set_mu, set_instances, set_shareds. simpl.
  rewrite list_insert_insert_eq. do 3 f_equal. by rewrite insert_app_r_alt, Nat.sub_diag by lia.
Qed.

(** ** Users of a shared store, and what an instance shows *)
Definition is_open (i : instance W) : bool := negb (wgState (active i)).2.
Definition open_on (l : loc) (i : instance W) : bool := bool_decide (shared i = l) && is_open i.
Definition users (w : world) (l : loc) : nat := count (open_on l) (instances w).

(** The name and the content that an open instance works on. *)
Definition obs (w : world) (s : loc) : option (string * gmap string X) :=
  i ← instances w !! s;
  if is_open i then sh ← shareds w !! shared i; view (reg_backend w) (backend sh) else None.

(** Between calls: every registered store is the one of its name, and counts its
    open instances; every other one has none, and its backend store is closed. *)
Record ok (w : world) : Prop := {
  ok_mu : mu w = false;
  ok_backend : backend_ok (reg_backend w);
  ok_instance s i : instances w !! s = Some i → (wgState (active i)).1 = 0%Z ∧ is_Some (shareds w !! shared i);
  ok_count l sh : shareds w !! l = Some sh → Load (refCount sh) = Z.of_nat (users w l);
  ok_active n l : reg_active w !! n = Some l ↔ ∃ sh, shareds w !! l = Some sh ∧ name sh = n ∧ 0 < users w l;
  ok_view l sh : shareds w !! l = Some sh → 0 < users w l → ∃ m, view (reg_backend w) (backend sh) = Some (name sh, m);
  ok_viewed h n m : view (reg_backend w) h = Some (n, m) →
    ∃ l sh, shareds w !! l = Some sh ∧ backend sh = h ∧ 0 < users w l;
  ok_wg : wg w = Z.of_nat (size (reg_active w))
}.

Lemma ok_idle w s i : ok w → instances w !! s = Some i → idle (negb (is_open i)) i.
Proof.
  intros Hok Hi. destruct (ok_instance w Hok s i Hi) as [Hz _]. unfold idle, is_open.
  rewrite negb_involutive, <- Hz. by destruct (wgState (active i)).
Qed.

Lemma users_pos (w : world) s i : instances w !! s = Some i → is_open i = true → 0 < users w (shared i).
Proof. intros Hi Ho. eapply count_lookup; [done|]. unfold open_on. by rewrite Ho, bool_decide_true. Qed.

Lemma users_ge (w : world) l : length (shareds w) ≤ l → ok w → users w l = 0.
Proof.
  intros Hl Hok. destruct (decide (0 < users w l)) as [Hpos|]; [|lia].
  apply count_pos in Hpos as (s & i & Hi & Ho). unfold open_on in Ho. apply andb_prop in Ho as [Ho _].
  apply bool_decide_eq_true in Ho. destruct (ok_instance w Hok s i Hi) as [_ [sh Hsh]].
  apply lookup_lt_Some in Hsh. lia.
Qed.

(** The shared store of an open instance. *)
Lemma ok_open w s i : ok w → instances w !! s = Some i → is_open i = true →
  ∃ sh m, shareds w !! shared i = Some sh ∧ reg_active w !! name sh = Some (shared i) ∧
    view (reg_backend w) (backend sh) = Some (name sh, m) ∧ obs w s = Some (name sh, m).
Proof.
  intros Hok Hi Ho. destruct (ok_instance w Hok s i Hi) as [_ [sh Hsh]].
  pose proof (users_pos w s i Hi Ho) as Hpos. destruct (ok_view w Hok _ sh Hsh Hpos) as [m Hm].
  exists sh, m. split_and!; [done| |done|].
  - apply (ok_active w Hok). by exists sh.
  - unfold obs. rewrite Hi. simpl. rewrite Ho, Hsh. done.
Qed.

Lemma obs_Some w s n m : ok w → obs w s = Some (n, m) → ∃ i sh, instances w !! s = Some i ∧ is_open i = true ∧
  shareds w !! shared i = Some sh ∧ name sh = n ∧ view (reg_backend w) (backend sh) = Some (n, m) ∧
  reg_active w !! n = Some (shared i).
Proof.
  intros Hok Hobs. unfold obs in Hobs. destruct (instances w !! s) as [i|] eqn:Hi; [|done]. simpl in Hobs.
  destruct (is_open i) eqn:Ho; [|done]. destruct (ok_open w s i Hok Hi Ho) as (sh & m' & Hsh & Ha & Hv & _).
  rewrite Hsh in Hobs. simpl in Hobs. exists i, sh. rewrite Hv in Hobs. simplify_eq. by split_and!.
Qed.

(** Different open stores have different handles and names. *)
Lemma handles_differ w l l' sh sh' : ok w → shareds w !! l = Some sh → shareds w !! l' = Some sh' →
  0 < users w l → 0 < users w l' → l ≠ l' → backend sh ≠ backend sh' ∧ name sh ≠ name sh'.
Proof.
  intros Hok Hl Hl' Hu Hu' Hne.
  assert (Hname : name sh ≠ name sh').
  { intros Hn. destruct Hne. assert (Ha : reg_active w !! name sh = Some l) by (apply (ok_active w Hok); eauto).
    assert (Ha' : reg_active w !! name sh' = Some l') by (apply (ok_active w Hok); eauto). congruence. }
  split; [|done]. intros Hb. destruct (ok_view w Hok l sh Hl Hu) as [m Hm].
  destruct (ok_view w Hok l' sh' Hl' Hu') as [m' Hm']. congruence.
Qed.

Lemma ok_new r : backend_ok r → (∀ h, view r h = None) → ok (NewRegistry r).
Proof.
  intros Hr Hv. split; simpl; try done.
  - intros n l. rewrite lookup_empty. split; [done|]. by intros (sh & Hl & _).
  - intros h n m. by rewrite Hv.
Qed.

(** *** Preservation *)
Lemma users_put_group (w : world) s i g l : instances w !! s = Some i →
  users (put_group s (shared i) g w) l + Nat.b2n (open_on l i) = users w l + Nat.b2n (open_on l (mkInstance (shared i) g)).
Proof. intros Hi. by apply count_insert. Qed.

Lemma users_put_same (w : world) s i g l : instances w !! s = Some i → wgState g = wgState (active i) →
  users (put_group s (shared i) g w) l = users w l.
Proof.
  intros Hi Hg. pose proof (users_put_group w s i g l Hi) as Hu. unfold open_on, is_open in Hu. simpl in Hu. rewrite Hg in Hu. lia.
Qed.

Lemma lookup_put_group (w : world) s l g s' i' : instances (put_group s l g w) !! s' = Some i' →
  (s' = s ∧ i' = mkInstance l g) ∨ (s' ≠ s ∧ instances w !! s' = Some i').
Proof.
  unfold put_group. simpl. intros Hi'. destruct (decide (s' = s)) as [->|Hne]; [|by rewrite list_lookup_insert_ne in Hi'; auto].
  left. pose proof (lookup_lt_Some _ _ _ Hi') as Hlt. rewrite length_insert in Hlt.
  rewrite list_lookup_insert_eq in Hi' by done. by simplify_eq.
Qed.

Lemma ok_put_same w s i g : ok w → instances w !! s = Some i → wgState g = wgState (active i) →
  ok (put_group s (shared i) g w).
Proof.
  intros Hok Hi Hg. pose proof (λ l, users_put_same w s i g l Hi Hg) as Hu.
  split; try apply Hok.
  - intros s' i' [[-> ->]|[Hne Hi']]%lookup_put_group; [|by eapply (ok_instance w Hok)].
    simpl. rewrite Hg. by eapply (ok_instance w Hok).
  - intros l sh Hl. rewrite Hu. by apply (ok_count w Hok).
  - intros n l. rewrite Hu. apply (ok_active w Hok).
  - intros l sh. rewrite Hu. apply (ok_view w Hok).
  - intros h n m Hv. destruct (ok_viewed w Hok h n m Hv) as (l & sh & ?). exists l, sh. by rewrite Hu.
Qed.

Lemma obs_put_same (w : world) s i g s' : instances w !! s = Some i → wgState g = wgState (active i) →
  obs (put_group s (shared i) g w) s' = obs w s'.
Proof.
  intros Hi Hg. unfold obs, put_group. simpl. pose proof (lookup_lt_Some _ _ _ Hi).
  destruct (decide (s' = s)) as [->|]; [|by rewrite list_lookup_insert_ne].
  rewrite list_lookup_insert_eq, Hi by done. simpl. unfold is_open. simpl. by rewrite Hg.
Qed.

Lemma ok_set_backend w r' : ok w → backend_ok r' → (∀ h, fst <$> view r' h = fst <$> view (reg_backend w) h) →
  ok (set_backend r' w).
Proof.
  intros Hok Hr Hv. assert (Hname : ∀ h n m, view r' h = Some (n, m) → ∃ m', view (reg_backend w) h = Some (n, m')).
  { intros h n m Hm. specialize (Hv h). rewrite Hm in Hv. destruct (view (reg_backend w) h) as [[]|]; naive_solver. }
  split; try apply Hok; simpl; [done| |].
  - intros l sh Hl Hu. destruct (ok_view w Hok l sh Hl Hu) as [m Hm]. specialize (Hv (backend sh)). rewrite Hm in Hv.
    destruct (view r' (backend sh)) as [[]|]; naive_solver.
  - intros h n m [m' Hm]%Hname. by eapply (ok_viewed w Hok).
Qed.
End facts.
