(* ===== verification/StatestoreSeq.v ===== *)
(** * The state store used by one goroutine at a time: every call

    Each call returns, keeps the invariant [ok], and has on what the instances
    show the effect its specification has on shared tables. *)

From stdpp Require Import base gmap strings list fin_maps.
From Stdlib Require Import ZArith Lia.
From S2P Require Import Prelude Fs Backend Concert Statestore StatestoreFacts.

(** Writes table [m] to the name [n], as an instance sees it. *)
Definition write {X} (n : string) (m : gmap string X) (o : option (string * gmap string X)) :
    option (string * gmap string X) :=
  match o with
  | Some (n', m') => Some (n', if decide (n' = n) then m else m')
  | None => None
  end.

Section calls.
Context {R H V X Ctr W : Type} `{!Convert V X, !Backend R H V X, !BackendLaws R H V X,
  !EqDecision H, !AtomicInt Ctr, !AtomicIntLaws Ctr, !SafeWaitGroup W, !SafeWaitGroupLaws W}.
Abbreviation world := (world R H Ctr W).

(** *** Operations on an open instance *)
Lemma obs_write (w : world) l sh n m m' r' s' : ok w → shareds w !! l = Some sh → 0 < users w l → name sh = n →
  view (reg_backend w) (backend sh) = Some (n, m) → view r' (backend sh) = Some (n, m') →
  (∀ h', h' ≠ backend sh → view r' h' = view (reg_backend w) h') →
  obs (set_backend r' w) s' = write n m' (obs w s').
Proof.
  intros Hok Hl Hu Hn Hv Hv' Ho. unfold obs. simpl. destruct (instances w !! s') as [i'|] eqn:Hi'; [|done]. simpl.
  destruct (is_open i') eqn:Hopen; [|done]. destruct (ok_open w s' i' Hok Hi' Hopen) as (sh' & m1 & Hsh' & Ha' & Hv1 & _).
  pose proof (users_pos w s' i' Hi' Hopen) as Hu'. rewrite Hsh'. simpl.
  destruct (decide (shared i' = l)) as [Heq|Hne].
  - assert (sh' = sh) as -> by congruence. rewrite Hv, Hv'. simpl. by rewrite decide_True.
  - destruct (handles_differ w _ _ _ _ Hok Hsh' Hl Hu' Hu Hne) as [Hh Hname].
    rewrite Ho, Hv1 by done. simpl. by rewrite decide_False by congruence.
Qed.

Lemma call_open {A B} (w : world) s n m m' op (f : H → R → outcome (B * R)) (conv : B → goerr + A) (P : B → Prop) :
  ok w → obs w s = Some (n, m) →
  (∀ h, view (reg_backend w) h = Some (n, m) → ∃ b r', f h (reg_backend w) = Done (b, r') ∧ backend_ok r' ∧
    view r' h = Some (n, m') ∧ (∀ h', h' ≠ h → view r' h' = view (reg_backend w) h') ∧ P b) →
  ∃ b w', with_active s op (λ h, r ← on_backend (f h); ErrorOperation_of s op (conv r)) w =
      Done (match conv b with inl e => inl (ErrorOperation n op e) | inr a => inr a end, w') ∧
    P b ∧ ok w' ∧ length (instances w') = length (instances w) ∧ ∀ s', obs w' s' = write n m' (obs w s').
Proof.
  intros Hok Hobs Hf. destruct (obs_Some w s n m Hok Hobs) as (i & sh & Hi & Ho & Hsh & Hn & Hv & Ha).
  destruct (Hf _ Hv) as (b & r' & E & Hr' & Hv' & Hoth & HP).
  pose proof (users_pos w s i Hi Ho) as Hu.
  pose proof (ok_idle w s i Hok Hi) as Hidle. rewrite Ho in Hidle.
  destruct (with_active_open w s i sh op (λ h, r ← on_backend (f h); ErrorOperation_of s op (conv r))
    (match conv b with inl e => inl (ErrorOperation n op e) | inr a => inr a end) r' Hi Hidle Hsh) as (g & Hg & Ecall).
  { intros w1 i1 Hi1 Hs1 Hshs Hbe. erewrite M_bind_eq.
    2: { unfold on_backend. run_M. rewrite Hbe, E. done. }
    simpl. destruct (conv b) as [e|a]; [|done]. unfold ErrorOperation_of.
    erewrite M_bind_eq; [|eapply (store_name_eq (set_backend r' w1)); [done|simpl; by rewrite Hs1, Hshs]].
    by rewrite Hn. }
  assert (Hg' : wgState g = wgState (active i)) by (unfold idle in Hidle; rewrite Hidle; done).
  exists b. eexists. split; [exact Ecall|]. split; [done|]. split; [|split].
  - apply ok_put_same; [|done..]. apply ok_set_backend; [done..|]. intros h.
    destruct (decide (h = backend sh)) as [->|]; [by rewrite Hv, Hv'|by rewrite Hoth].
  - unfold put_group. simpl. by rewrite length_insert.
  - intros s'. rewrite obs_put_same by done. by eapply obs_write.
Qed.

Lemma write_same (w : world) n (m : gmap string X) s' (Hok : ok w) (s : loc) :
  obs w s = Some (n, m) → write n m (obs w s') = obs w s'.
Proof.
  intros Hobs. destruct (obs w s') as [[n' m']|] eqn:E; [|done]. simpl. case_decide as Hn; [|done]. subst n'.
  destruct (obs_Some w s n m Hok Hobs) as (i & sh & _ & _ & Hsh & _ & Hv & Ha).
  destruct (obs_Some w s' n m' Hok E) as (i' & sh' & _ & _ & Hsh' & _ & Hv' & Ha'). congruence.
Qed.

(** *** Opening *)
Lemma lookup_add_instance (w : world) l s i : instances (add_instance l w) !! s = Some i →
  instances w !! s = Some i ∨ (s = length (instances w) ∧ i = mkInstance l wgZero).
Proof.
  simpl. intros [Hi|[Hlt Hi]]%lookup_app_Some; [by left|right].
  apply list_lookup_singleton_Some in Hi as [? ?]. split; [lia|done].
Qed.

Lemma open_on_new l l' : open_on l (mkInstance (W := W) l' wgZero) = bool_decide (l' = l).
Proof. unfold open_on, is_open. simpl. by rewrite wgZero_state, andb_true_r. Qed.

(** [shareds w'] differs from [shareds w] in counts only. *)
Definition same_shareds (w w' : world) : Prop :=
  (∀ l sh', shareds w' !! l = Some sh' → ∃ sh, shareds w !! l = Some sh ∧ name sh' = name sh ∧ backend sh' = backend sh) ∧
  (∀ l sh, shareds w !! l = Some sh → ∃ sh', shareds w' !! l = Some sh' ∧ name sh' = name sh ∧ backend sh' = backend sh).

Lemma same_put_refCount (w : world) l sh c : shareds w !! l = Some sh → same_shareds w (put_refCount l sh c w).
Proof.
  intros Hl. split.
  - intros l' sh' (sh0 & ? & ? & ? & _)%(lookup_put_refCount w l sh c _ _ Hl). by exists sh0.
  - intros l' sh0 Hl'. destruct (put_refCount_Some w l sh c l' sh0 Hl Hl') as [c' E]. by eexists.
Qed.

(** The invariant after the counts have followed the instances. *)
Lemma ok_shift (w w' : world) : ok w → same_shareds w w' → mu w' = false → reg_backend w' = reg_backend w →
  reg_active w' = reg_active w → wg w' = wg w →
  (∀ s i, instances w' !! s = Some i → (wgState (active i)).1 = 0%Z ∧ is_Some (shareds w !! shared i)) →
  (∀ l sh, shareds w' !! l = Some sh → Load (refCount sh) = Z.of_nat (users w' l)) →
  (∀ l, 0 < users w' l ↔ 0 < users w l) → ok w'.
Proof.
  intros Hok [Hs Hs'] Hmu Hb Ha Hwg Hi Hc Hu. split.
  - done.
  - rewrite Hb. apply Hok.
  - intros s i E. destruct (Hi s i E) as [Hz [sh Hsh]]. destruct (Hs' _ _ Hsh) as (sh' & ? & _). eauto.
  - done.
  - intros n l. rewrite Ha, (ok_active w Hok). split.
    + intros (sh & Hsh & Hn & Hp). destruct (Hs' _ _ Hsh) as (sh' & ? & ? & _). exists sh'. rewrite Hu. by split_and!; [|congruence|].
    + intros (sh & Hsh & Hn & Hp). destruct (Hs _ _ Hsh) as (sh' & ? & ? & _). exists sh'. rewrite <- Hu. by split_and!; [|congruence|].
  - intros l sh (sh' & Hsh' & Hn & Hbe)%Hs Hp. rewrite Hb, Hbe, Hn. apply (ok_view w Hok l); [done|]. by apply Hu.
  - intros h n m Hv. rewrite Hb in Hv. destruct (ok_viewed w Hok h n m Hv) as (l & sh & Hsh & Hbe & Hp).
    destruct (Hs' _ _ Hsh) as (sh' & ? & ? & ?). exists l, sh'. rewrite Hu. by split_and!; [|congruence|].
  - rewrite Hwg, Ha. apply Hok.
Qed.

(** What an instance shows does not depend on counts. *)
Lemma obs_same (w w' : world) s : same_shareds w w' → reg_backend w' = reg_backend w →
  instances w' !! s = instances w !! s → obs w' s = obs w s.
Proof.
  intros [Hs Hs'] Hb Hi. unfold obs. rewrite Hi, Hb. destruct (instances w !! s) as [i|]; [|done]. simpl.
  destruct (is_open i); [|done]. destruct (shareds w !! shared i) as [sh|] eqn:Hsh.
  - destruct (Hs' _ _ Hsh) as (sh' & -> & _ & Hbe). simpl. by rewrite Hbe.
  - destruct (shareds w' !! shared i) as [sh'|] eqn:Hsh'; [|done]. destruct (Hs _ _ Hsh') as (sh & ? & _). congruence.
Qed.

(** [Get] of a name in use. *)
Lemma Get_shared_ok (w : world) n l : ok w → reg_active w !! n = Some l →
  (Z.of_nat (length (instances w)) < int_max)%Z →
  ∃ w' m, Registry_Get n w = Done (inr (length (instances w)), w') ∧ ok w' ∧
    length (instances w') = S (length (instances w)) ∧
    obs w' (length (instances w)) = Some (n, m) ∧ (∃ s, obs w s = Some (n, m)) ∧
    ∀ s, s ≠ length (instances w) → obs w' s = obs w s.
Proof.
  intros Hok Ha Hmax. destruct (proj1 (ok_active w Hok n l) Ha) as (sh & Hsh & Hn & Hu).
  destruct (ok_view w Hok l sh Hsh Hu) as [m Hv].
  set (w' := add_instance l (put_refCount l sh (Inc (refCount sh)).2 w)).
  assert (Hs : same_shareds w w') by (by apply same_put_refCount).
  assert (Hus : ∀ l', users w' l' = users w l' + Nat.b2n (bool_decide (l = l'))).
  { intros l'. unfold users, w'. simpl. rewrite count_app. simpl. by rewrite open_on_new, Nat.add_0_r. }
  assert (Hle : users w l ≤ length (instances w)) by apply count_le.
  exists w', m. split_and!.
  - apply Registry_Get_active; [apply Hok|done..].
  - apply (ok_shift w); try done; [apply Hok| | |].
    + intros s i [Hi|[-> ->]]%lookup_add_instance; [by eapply (ok_instance w Hok)|]. simpl. rewrite wgZero_state. eauto.
    + intros l' sh' Hl'. destruct (lookup_put_refCount w l sh _ l' sh' Hsh Hl') as (sh0 & Hsh0 & _ & _ & ->).
      rewrite Hus. case_decide as Hd; [subst l'|].
      * rewrite bool_decide_true by done. pose proof (ok_count w Hok l sh Hsh). rewrite Load_Inc by (rewrite (ok_count w Hok l sh Hsh); lia).
        simpl. lia.
      * rewrite bool_decide_false by done. rewrite (ok_count w Hok l' sh0 Hsh0). simpl. lia.
    + intros l'. rewrite Hus. destruct (decide (l = l')) as [<-|]; [lia|]. rewrite bool_decide_false by done. simpl. lia.
  - simpl. rewrite length_app. simpl. lia.
  - unfold obs. simpl. rewrite list_lookup_middle by done. simpl. unfold is_open. simpl. rewrite wgZero_state. simpl.
    rewrite list_lookup_insert_eq by (by eapply lookup_lt_Some). simpl. by rewrite Hv, Hn.
  - apply count_pos in Hu as (s & i & Hi & Ho). exists s. unfold open_on in Ho. apply andb_prop in Ho as [Hd Ho].
    apply bool_decide_eq_true in Hd. unfold obs. rewrite Hi. simpl. rewrite Ho, Hd, Hsh. simpl. by rewrite Hv, Hn.
  - intros s Hne. apply obs_same; [done|done|]. unfold w'. simpl. destruct (decide (s < length (instances w))).
    + by apply lookup_app_l.
    + rewrite !lookup_ge_None_2; [done|lia|]. rewrite length_app. simpl. lia.
Qed.

Lemma not_viewed (w : world) n : ok w → reg_active w !! n = None → ∀ h m, view (reg_backend w) h ≠ Some (n, m).
Proof.
  intros Hok Ha h m Hv. destruct (ok_viewed w Hok h n m Hv) as (l & sh & Hsh & Hb & Hu).
  destruct (ok_view w Hok l sh Hsh Hu) as [m' Hm']. rewrite Hb, Hv in Hm'. simplify_eq.
  assert (reg_active w !! name sh = Some l) by (apply (ok_active w Hok); eauto). congruence.
Qed.

Lemma users_opened (w : world) n h c r' l : ok w →
  users (opened n h c r' w) l = if decide (l = length (shareds w)) then 1 else users w l.
Proof.
  intros Hok. unfold users, opened. simpl. rewrite count_app. simpl. rewrite open_on_new, Nat.add_0_r.
  case_decide as Hd.
  - subst l. rewrite bool_decide_true by done. fold (users w (length (shareds w))). by rewrite users_ge.
  - rewrite bool_decide_false by done. simpl. lia.
Qed.

Lemma shareds_opened (w : world) n h c r' l sh : shareds (opened n h c r' w) !! l = Some sh →
  (l = length (shareds w) ∧ sh = mkShared c n h) ∨ (l ≠ length (shareds w) ∧ shareds w !! l = Some sh).
Proof.
  simpl. intros [Hl|[Hle Hl]]%lookup_app_Some; [right; split; [apply lookup_lt_Some in Hl; lia|done]|left].
  apply list_lookup_singleton_Some in Hl as [? ?]. split; [lia|done].
Qed.

Lemma shareds_opened_old (w : world) n h c r' l sh : shareds w !! l = Some sh → shareds (opened n h c r' w) !! l = Some sh.
Proof. intros Hl. simpl. by apply lookup_app_l_Some. Qed.

Lemma ok_opened (w : world) n h c r' m : ok w → reg_active w !! n = None → Load c = 1%Z → backend_ok r' →
  view (reg_backend w) h = None → view r' h = Some (n, m) → (∀ h', h' ≠ h → view r' h' = view (reg_backend w) h') →
  ok (opened n h c r' w).
Proof.
  intros Hok Ha Hc Hr Hnone Hv Ho. remember (opened n h c r' w) as w' eqn:Hw. remember (length (shareds w)) as L eqn:HLd.
  assert (HL : shareds w' !! L = Some (mkShared c n h)) by (subst; by apply list_lookup_middle).
  pose proof (λ l, users_opened w n h c r' l Hok) as Hu. rewrite <- Hw, <- HLd in Hu.
  pose proof (λ l sh, shareds_opened w n h c r' l sh) as Hsd. rewrite <- Hw, <- HLd in Hsd.
  pose proof (λ l sh, shareds_opened_old w n h c r' l sh) as Hso. rewrite <- Hw in Hso.
  assert (Hold : ∀ l sh, shareds w !! l = Some sh → l ≠ L) by (intros l sh ?%lookup_lt_Some; lia).
  assert (HuL : users w' L = 1) by (by rewrite Hu, decide_True).
  assert (Huo : ∀ l sh, shareds w !! l = Some sh → users w' l = users w l).
  { intros l sh Hl. by rewrite Hu, decide_False by eauto. }
  assert (Hb : reg_backend w' = r') by (by subst). split.
  - by subst.
  - by rewrite Hb.
  - intros s i Hi. rewrite Hw in Hi. unfold opened in Hi. rewrite <- HLd in Hi.
    change (instances (add_instance L w) !! s = Some i) in Hi. revert Hi. intros [Hi|[-> ->]]%(lookup_add_instance w L).
    + destruct (ok_instance w Hok s i Hi) as [? [sh Hsh]]. split; [done|]. exists sh. by apply Hso.
    + simpl. rewrite wgZero_state. eauto.
  - intros l sh [[-> ->]|[Hne Hl]]%Hsd; [by rewrite HuL|]. rewrite (Huo l sh Hl). by apply (ok_count w Hok).
  - intros n' l. replace (reg_active w') with (<[ n := L ]> (reg_active w)) by (by subst). split.
    + intros [[<- <-]|[Hne Hl]]%lookup_insert_Some; [exists (mkShared c n h); rewrite HuL; auto|].
      apply (ok_active w Hok) in Hl as (sh & Hsh & Hn & Hp). exists sh. rewrite (Huo l sh Hsh).
      split; [by apply Hso|auto].
    + intros (sh & [[-> ->]|[Hne Hl]]%Hsd & Hn & Hp); [simpl in Hn; subst n'; apply lookup_insert_eq|].
      rewrite (Huo l sh Hl) in Hp. assert (Hact : reg_active w !! n' = Some l) by (apply (ok_active w Hok); eauto).
      rewrite lookup_insert_ne; [done|congruence].
  - intros l sh [[-> ->]|[Hne Hl]]%Hsd Hp; [exists m; by rewrite Hb|]. rewrite (Huo l sh Hl) in Hp.
    destruct (ok_view w Hok l sh Hl Hp) as [m' Hm']. exists m'. rewrite Hb, Ho; [done|congruence].
  - intros h' n' m' Hv'. rewrite Hb in Hv'. destruct (decide (h' = h)) as [->|Hne].
    + exists L, (mkShared c n h). rewrite HuL. auto.
    + rewrite Ho in Hv' by done. destruct (ok_viewed w Hok h' n' m' Hv') as (l & sh & Hsh & Hbe & Hp).
      exists l, sh. rewrite (Huo l sh Hsh). split; [by apply Hso|done].
  - subst. simpl. rewrite map_size_insert_None by done. rewrite (ok_wg w Hok). lia.
Qed.

Lemma obs_opened (w : world) n h c r' s : ok w → s ≠ length (instances w) → view (reg_backend w) h = None →
  (∀ h', h' ≠ h → view r' h' = view (reg_backend w) h') → obs (opened n h c r' w) s = obs w s.
Proof.
  intros Hok Hne Hnone Ho. unfold obs. simpl.
  assert (Hins : (instances w ++ [mkInstance (length (shareds w)) wgZero]) !! s = instances w !! s).
  { destruct (decide (s < length (instances w))); [by apply lookup_app_l|].
    rewrite !lookup_ge_None_2; [done|lia|]. rewrite length_app. simpl. lia. }
  rewrite Hins. destruct (instances w !! s) as [i|] eqn:Hi; [|done]. simpl. destruct (is_open i) eqn:Hopen; [|done].
  destruct (ok_open w s i Hok Hi Hopen) as (sh & m & Hsh & _ & Hv & _).
  rewrite (lookup_app_l_Some _ _ _ _ Hsh), Hsh. simpl. apply Ho. congruence.
Qed.

(** [Get] of a name not in use. *)
Lemma Get_fresh_ok (w : world) n : ok w → reg_active w !! n = None →
  ∃ r w', Registry_Get n w = Done (r, w') ∧ ok w' ∧
    match r with
    | inl e => (∃ cause, e = ErrorAccess n (Some cause)) ∧ instances w' = instances w ∧ ∀ s, obs w' s = obs w s
    | inr s => s = length (instances w) ∧ length (instances w') = S s ∧ (∃ m, obs w' s = Some (n, m)) ∧
        ∀ s', s' ≠ s → obs w' s' = obs w s'
    end.
Proof.
  intros Hok Ha. pose proof (not_viewed w n Hok Ha) as Hnot.
  destruct (access_ok (reg_backend w) n (ok_backend w Hok) Hnot) as ([e|h] & r' & E & Hr & Hres).
  - exists (inl (ErrorAccess n (Some e))), (set_backend r' w). split; [apply Registry_Get_error; [apply Hok|done..]|].
    split; [apply ok_set_backend; [done..|]; intros h; by rewrite Hres|]. split; [eauto|]. split; [done|].
    intros s. unfold obs. simpl. destruct (instances w !! s) as [i|]; [|done]. simpl. destruct (is_open i); [|done].
    destruct (shareds w !! shared i); [|done]. simpl. apply Hres.
  - destruct Hres as (Hnone & [m Hv] & Ho).
    destruct (Registry_Get_new w n h r' (ok_mu w Hok) Ha E) as (c & Hc & Eget).
    exists (inr (length (instances w))), (opened n h c r' w). split; [done|]. split; [by eapply ok_opened|].
    split; [done|]. split; [simpl; rewrite length_app; simpl; lia|]. split.
    + exists m. unfold obs. simpl. rewrite list_lookup_middle by done. simpl. unfold is_open. simpl. rewrite wgZero_state.
      simpl. rewrite list_lookup_middle by done. done.
    + intros s' Hne. by apply obs_opened.
Qed.

(** Opening when the result of the backend is known. *)
Lemma Get_fresh_known (w : world) n h r' m : ok w → reg_active w !! n = None → access n (reg_backend w) = Done (inr h, r') →
  backend_ok r' → view (reg_backend w) h = None → view r' h = Some (n, m) →
  (∀ h', h' ≠ h → view r' h' = view (reg_backend w) h') →
  ∃ s w', Registry_Get n w = Done (inr s, w') ∧ ok w' ∧ obs w' s = Some (n, m).
Proof.
  intros Hok Ha E Hr Hnone Hv Ho. destruct (Registry_Get_new w n h r' (ok_mu w Hok) Ha E) as (c & Hc & Eget).
  eexists _, _. split; [exact Eget|]. split; [by eapply ok_opened|]. unfold obs. simpl.
  rewrite list_lookup_middle by done. simpl. unfold is_open. simpl. rewrite wgZero_state. simpl.
  by rewrite list_lookup_middle.
Qed.

(** *** Closing *)

(** The world after an instance's part of [Close] and the decrement. *)
Definition closing (s l : loc) (g : W) (sh : sharedStore H Ctr) (c : Ctr) (w : world) : world :=
  put_refCount l sh c (put_group s l g w).

Lemma users_closing (w : world) s i sh g c l : instances w !! s = Some i → is_open i = true → wgState g = (0%Z, true) →
  users w l = users (closing s (shared i) g sh c w) l + Nat.b2n (bool_decide (shared i = l)).
Proof.
  intros Hi Ho Hg. pose proof (users_put_group w s i g l Hi) as Hu.
  change (users (put_group s (shared i) g w) l) with (users (closing s (shared i) g sh c w) l) in Hu.
  replace (open_on l (mkInstance (shared i) g)) with false in Hu
    by (unfold open_on, is_open; simpl; by rewrite Hg, andb_false_r).
  unfold open_on in Hu. rewrite Ho, andb_true_r in Hu. simpl in Hu. lia.
Qed.

Lemma obs_closing (w w' : world) s i sh g c s' : ok w → instances w !! s = Some i → is_open i = true →
  wgState g = (0%Z, true) → shareds w !! shared i = Some sh →
  instances w' = instances (closing s (shared i) g sh c w) → shareds w' = shareds (closing s (shared i) g sh c w) →
  (∀ l sh', shareds w !! l = Some sh' → 0 < users w' l → view (reg_backend w') (backend sh') = view (reg_backend w) (backend sh')) →
  obs w' s' = if decide (s' = s) then None else obs w s'.
Proof.
  intros Hok Hi Ho Hg Hsh Hins Hshs Hv. unfold obs. rewrite Hins, Hshs. unfold closing, put_group. simpl.
  pose proof (lookup_lt_Some _ _ _ Hi) as Hlt. case_decide as Hd.
  - subst. rewrite list_lookup_insert_eq by done. simpl. unfold is_open. simpl. by rewrite Hg.
  - rewrite list_lookup_insert_ne by done. destruct (instances w !! s') as [i'|] eqn:Hi'; [|done]. simpl.
    destruct (is_open i') eqn:Ho'; [|done].
    destruct (ok_open w s' i' Hok Hi' Ho') as (sh' & m & Hsh' & _).
    assert (Hp : 0 < users w' (shared i')).
    { apply (users_pos w' s'); [|done]. rewrite Hins. unfold closing, put_group. simpl. by rewrite list_lookup_insert_ne. }
    destruct (put_refCount_Some w (shared i) sh c (shared i') sh' Hsh Hsh') as [c' E]. unfold put_refCount in E. simpl in E.
    rewrite E, Hsh'. simpl. by eapply Hv.
Qed.

Lemma Close_shared_ok (w : world) s i sh g : ok w → instances w !! s = Some i → is_open i = true →
  shareds w !! shared i = Some sh → wgState g = (0%Z, true) → 1 < users w (shared i) →
  (Z.of_nat (length (instances w)) < int_max)%Z →
  let w' := closing s (shared i) g sh (Dec (refCount sh)).2 w in
  Release (shared i) (put_group s (shared i) g w) = Done (None, w') ∧ ok w' ∧
  ∀ s', obs w' s' = if decide (s' = s) then None else obs w s'.
Proof.
  intros Hok Hi Ho Hsh Hg Hu Hmax w'. pose proof (ok_count w Hok _ _ Hsh) as Hc.
  assert (Hle : users w (shared i) ≤ length (instances w)) by apply count_le.
  pose proof (λ l, users_closing w s i sh g (Dec (refCount sh)).2 l Hi Ho Hg) as Hus. fold w' in Hus.
  split; [apply Release_shared; [done|lia]|]. split; [|intros s'; by eapply obs_closing].
  apply (ok_shift w); try done; [|apply Hok| | |].
  - by apply (same_put_refCount (put_group s (shared i) g w)).
  - intros s' i' [[-> ->]|[Hne Hi']]%(lookup_put_group w s (shared i) g s' i'); [|by eapply (ok_instance w Hok)].
    simpl. rewrite Hg. eauto.
  - intros l sh' Hl.
    destruct (lookup_put_refCount (put_group s (shared i) g w) (shared i) sh _ l sh' Hsh Hl) as (sh0 & Hsh0 & _ & _ & ->).
    specialize (Hus l). destruct (decide (l = shared i)) as [->|Hd].
    + rewrite bool_decide_true in Hus by done. rewrite Load_Dec by lia. cbn [Nat.b2n] in Hus. lia.
    + rewrite bool_decide_false in Hus by done. pose proof (ok_count w Hok l sh0 Hsh0). cbn [Nat.b2n] in Hus. lia.
  - intros l. specialize (Hus l). destruct (decide (shared i = l)) as [<-|]; [rewrite bool_decide_true in Hus by done; cbn [Nat.b2n] in Hus; lia|].
    rewrite bool_decide_false in Hus by done. cbn [Nat.b2n] in Hus. lia.
Qed.

Lemma Close_last_ok (w : world) s i sh g : ok w → instances w !! s = Some i → is_open i = true →
  shareds w !! shared i = Some sh → wgState g = (0%Z, true) → users w (shared i) = 1 →
  ∃ err w', Release (shared i) (put_group s (shared i) g w) = Done (err, w') ∧ ok w' ∧
    instances w' = instances (put_group s (shared i) g w) ∧
    ∀ s', obs w' s' = if decide (s' = s) then None else obs w s'.
Proof.
  intros Hok Hi Ho Hsh Hg Hu. set (l := shared i) in *. pose proof (ok_count w Hok _ _ Hsh) as Hc. rewrite Hu in Hc.
  destruct (ok_view w Hok l sh Hsh ltac:(lia)) as [m Hv].
  assert (Ha : reg_active w !! name sh = Some l) by (apply (ok_active w Hok); exists sh; split_and!; [done..|lia]).
  destruct (close_ok _ _ _ (ok_backend w Hok) Hv) as (err & r' & E & Hr & Hcl & Hoth).
  assert (Hsize : size (reg_active w) ≠ 0) by (intros E0%map_size_empty_iff; by rewrite E0, lookup_empty in Ha).
  set (c := (Dec (refCount sh)).2). set (w2 := closing s l g sh c w).
  exists (Unwrapped <$> err), (set_backend r' (unregistered (name sh) w2)).
  pose proof (λ l', users_closing w s i sh g c l' Hi Ho Hg) as Hus. fold l w2 in Hus.
  assert (Hu0 : users w2 l = 0) by (specialize (Hus l); rewrite bool_decide_true in Hus by done; cbn [Nat.b2n] in Hus; lia).
  assert (Huo : ∀ l', l' ≠ l → users w2 l' = users w l').
  { intros l' Hne. specialize (Hus l'). rewrite bool_decide_false in Hus by done. cbn [Nat.b2n] in Hus. lia. }
  assert (Hpos : ∀ l', 0 < users w2 l' → l' ≠ l) by (intros l' ? ->; lia).
  destruct (same_put_refCount (put_group s l g w) l sh c Hsh) as [Hs Hs'].
  assert (Hviews : ∀ l' sh', shareds w !! l' = Some sh' → 0 < users w2 l' →
    view r' (backend sh') = view (reg_backend w) (backend sh')).
  { intros l' sh' Hl' Hp. apply Hoth. pose proof (Hpos _ Hp) as Hne. rewrite (Huo _ Hne) in Hp.
    eapply (handles_differ w l' l); [done..|lia|done]. }
  split_and!.
  - rewrite (Release_last _ l sh l); [|done|apply Hok|done|done|simpl; rewrite (ok_wg w Hok); lia].
    unfold on_backend. run_M. simpl. by rewrite E.
  - split.
    + apply Hok.
    + done.
    + intros s' i' [[-> ->]|[Hne Hi']]%(lookup_put_group w s l g s' i').
      * simpl. rewrite Hg. split; [done|]. destruct (Hs' l sh Hsh) as (sh' & ? & _). by exists sh'.
      * destruct (ok_instance w Hok _ _ Hi') as [? [sh0 Hsh0]]. split; [done|].
        destruct (Hs' _ sh0 Hsh0) as (sh' & ? & _). by exists sh'.
    + intros l' sh' Hl'. change (users (set_backend r' (unregistered (name sh) w2)) l') with (users w2 l').
      destruct (lookup_put_refCount (put_group s l g w) l sh _ l' sh' Hsh Hl') as (sh0 & Hsh0 & _ & _ & ->).
      case_decide as Hd; [subst l'; rewrite Hu0; unfold c; rewrite Load_Dec, Hc by (rewrite Hc; unfold int_max; lia); done|].
      rewrite (Huo _ Hd). by apply (ok_count w Hok).
    + intros n' l'. change (users (set_backend r' (unregistered (name sh) w2)) l') with (users w2 l').
      change (reg_active (set_backend r' (unregistered (name sh) w2))) with (delete (name sh) (reg_active w)). split.
      * intros [Hne Hl']%lookup_delete_Some. apply (ok_active w Hok) in Hl' as (sh0 & Hsh0 & Hn & Hp).
        assert (l' ≠ l) by congruence. destruct (Hs' _ _ Hsh0) as (sh' & ? & ? & _). exists sh'. rewrite Huo by done.
        split_and!; [done|congruence|done].
      * intros (sh' & Hsh' & Hn & Hp). pose proof (Hpos _ Hp) as Hne. rewrite (Huo _ Hne) in Hp.
        destruct (Hs _ _ Hsh') as (sh0 & Hsh0 & Hn0 & _).
        destruct (handles_differ w l' l sh0 sh Hok Hsh0 Hsh Hp ltac:(lia) Hne) as [_ Hnames].
        apply lookup_delete_Some. split; [congruence|]. apply (ok_active w Hok). exists sh0. split_and!; [done|congruence|done].
    + intros l' sh' Hl'. change (users (set_backend r' (unregistered (name sh) w2)) l') with (users w2 l'). intros Hp.
      destruct (Hs _ _ Hl') as (sh0 & Hsh0 & Hn0 & Hb0). simpl. rewrite Hb0, Hn0, (Hviews l' sh0 Hsh0 Hp).
      apply (ok_view w Hok l'); [done|]. rewrite <- (Huo _ (Hpos _ Hp)). done.
    + intros h n' m' Hv'. simpl in Hv'. destruct (decide (h = backend sh)) as [->|Hne]; [congruence|].
      rewrite Hoth in Hv' by done. destruct (ok_viewed w Hok h n' m' Hv') as (l' & sh0 & Hsh0 & Hb & Hp).
      assert (l' ≠ l) by congruence. destruct (Hs' _ _ Hsh0) as (sh' & ? & _ & ?). exists l', sh'.
      change (users (set_backend r' (unregistered (name sh) w2)) l') with (users w2 l'). rewrite Huo by done.
      split_and!; [done|congruence|done].
    + simpl. rewrite map_size_delete_Some by done. rewrite (ok_wg w Hok). lia.
  - done.
  - intros s'. by eapply (obs_closing w).
Qed.

Lemma Close_ok (w : world) s n m : ok w → obs w s = Some (n, m) → (Z.of_nat (length (instances w)) < int_max)%Z →
  ∃ err w', Close s w = Done (err, w') ∧ (∀ e, err = Some e → ∃ e', e = Unwrapped e') ∧ ok w' ∧
    length (instances w') = length (instances w) ∧
    ∀ s', obs w' s' = if decide (s' = s) then None else obs w s'.
Proof.
  intros Hok Hobs Hmax. destruct (obs_Some w s n m Hok Hobs) as (i & sh & Hi & Ho & Hsh & Hn & Hv & Ha).
  pose proof (ok_idle w s i Hok Hi) as Hidle. rewrite Ho in Hidle. pose proof (users_pos w s i Hi Ho) as Hu.
  destruct (Close_instance_open w s i Hi Hidle) as (g & Hg & E). unfold Close. erewrite M_bind_eq by exact E. cbn beta iota.
  destruct (decide (users w (shared i) = 1)) as [H1|H1].
  - destruct (Close_last_ok w s i sh g Hok Hi Ho Hsh Hg H1) as (err & w' & Er & Hok' & Hins & Hobs').
    exists err, w'. split_and!; [done| |done| |done].
    + intros e ->. revert Er. rewrite (Release_last _ (shared i) sh (shared i)); [|done|apply Hok| |by rewrite Hn|].
      * unfold on_backend. run_M. destruct (close_store _ _) as [[[e'|] r']| |]; simpl; naive_solver.
      * pose proof (ok_count w Hok _ _ Hsh). lia.
      * simpl. rewrite (ok_wg w Hok). assert (size (reg_active w) ≠ 0); [|lia].
        intros E0%map_size_empty_iff. by rewrite E0, lookup_empty in Ha.
    + rewrite Hins. unfold put_group. simpl. by rewrite length_insert.
  - destruct (Close_shared_ok w s i sh g Hok Hi Ho Hsh Hg ltac:(lia) Hmax) as (Er & Hok' & Hobs').
    eexists None, _. split_and!; [exact Er|done|done| |done]. simpl. by rewrite length_insert.
Qed.
End calls.
