(* ===== verification/StatestoreSpec.v ===== *)
(** * The state store as shared tables

    The specification machine: a list of instances, each closed or showing a
    name and a table, where instances of the same name show the same table.
    Every call of the state store refines a step of it. *)

From stdpp Require Import base gmap strings list fin_maps.
From Stdlib Require Import ZArith Lia.
From S2P Require Import Prelude Fs Backend Concert Storetest Statestore StatestoreFacts StatestoreSeq.

(** [C] is the state of the function that [Each] is given. *)
Inductive call (V X C : Type) :=
| COpen (name : string)
| CClose (s : nat)
| CHas (s : nat) (key : string)
| CGet (s : nat) (key : string) (into : V)
| CSet (s : nat) (key : string) (from : V)
| CRemove (s : nat) (key : string)
| CEach (s : nat) (fn : string → X → C → outcome (bool * option goerr * C)) (st : C).
Arguments COpen {_ _ _} _.
Arguments CClose {_ _ _} _.
Arguments CHas {_ _ _} _ _.
Arguments CGet {_ _ _} _ _ _.
Arguments CSet {_ _ _} _ _ _.
Arguments CRemove {_ _ _} _ _.
Arguments CEach {_ _ _} _ _ _.

Inductive reply (V C : Type) :=
| RStore (s : nat)
| RBool (b : bool)
| RValue (v : V)
| ROk
| REach (err : option sserr) (st : C)
| RError (e : sserr).
Arguments RStore {_ _} _.
Arguments RBool {_ _} _.
Arguments RValue {_ _} _.
Arguments ROk {_ _}.
Arguments REach {_ _} _ _.
Arguments RError {_ _} _.

(** The function that [Each] is given returns. *)
Definition callback_returns {V X C} (c : call V X C) : Prop :=
  match c with
  | CEach _ fn _ => ∀ k x st, ∃ r, fn k x st = Done r
  | _ => True
  end.

Lemma each_pairs_returns {X C} (fn : string → X → C → outcome (bool * option goerr * C)) l st :
  (∀ k x st, ∃ r, fn k x st = Done r) → ∃ r, each_pairs fn l st = Done r.
Proof.
  intros Hfn. revert st. induction l as [|[k x] l IH]; intros st; simpl; [by eexists|].
  destruct (Hfn k x st) as [[[cont err] st'] ->]. simpl. case_match; [by eexists|apply IH].
Qed.

(** The instance a call is made on, and the name of its operation. *)
Definition target {V X C} (c : call V X C) : option (nat * string) :=
  match c with
  | COpen _ => None
  | CClose s => Some (s, "store/close"%string)
  | CHas s _ => Some (s, "store/has"%string)
  | CGet s _ _ => Some (s, "store/get"%string)
  | CSet s _ _ => Some (s, "store/get"%string)
  | CRemove s _ => Some (s, "store/remove"%string)
  | CEach s _ _ => Some (s, "store/each"%string)
  end.

Section spec.
Context {R H V X C Ctr W : Type} `{!Convert V X, !Backend R H V X, !BackendLaws R H V X,
  !EqDecision H, !AtomicInt Ctr, !AtomicIntLaws Ctr, !SafeWaitGroup W, !SafeWaitGroupLaws W}.
Abbreviation world := (world R H Ctr W).
Abbreviation call := (call V X C).
Abbreviation reply := (reply V C).
Abbreviation tables := (list (option (string * gmap string X))).

(** Runs a call of the code. *)
Definition reply_of {A} (f : A → reply) (r : sserr + A) : reply := match r with inl e => RError e | inr a => f a end.
Definition exec (c : call) : M world reply :=
  match c with
  | COpen name => r ← Registry_Get name; mret (reply_of RStore r)
  | CClose s => err ← Close s; mret (match err with Some e => RError e | None => ROk end)
  | CHas s key => r ← Has s key; mret (reply_of RBool r)
  | CGet s key into => r ← Get s key into; mret (reply_of RValue r)
  | CSet s key from => r ← Set_ s key from; mret (reply_of (λ _, ROk) r)
  | CRemove s key => r ← Remove s key; mret (reply_of (λ _, ROk) r)
  | CEach s fn st => r ← Each (V := V) s fn st; mret (reply_of (λ es, REach es.1 es.2) r)
  end.

(** The specification of each call on [t]. *)
Inductive spec_step (t : tables) : call → reply → tables → Prop :=
| spec_open_error n e : spec_step t (COpen n) (RError (ErrorAccess n (Some e))) t
| spec_open n m : (∀ s m', t !! s = Some (Some (n, m')) → m' = m) →
    spec_step t (COpen n) (RStore (length t)) (t ++ [Some (n, m)])
| spec_closed c s op n : target c = Some (s, op) → t !! s = Some None →
    spec_step t c (RError (ErrorClosed n op)) t
| spec_close s nm : t !! s = Some (Some nm) → spec_step t (CClose s) ROk (<[ s := None ]> t)
| spec_close_error s nm e : t !! s = Some (Some nm) →
    spec_step t (CClose s) (RError (Unwrapped e)) (<[ s := None ]> t)
| spec_has s n m k : t !! s = Some (Some (n, m)) →
    spec_step t (CHas s k) (RBool (bool_decide (is_Some (m !! k)))) t
| spec_get s n m k v x v' : t !! s = Some (Some (n, m)) → m !! k = Some x → convert_out x v = inr v' →
    spec_step t (CGet s k v) (RValue v') t
| spec_get_unknown s n m k v e : t !! s = Some (Some (n, m)) → m !! k = None →
    spec_step t (CGet s k v) (RError (ErrorOperation n "store/get" e)) t
| spec_get_error s n m k v x e : t !! s = Some (Some (n, m)) → m !! k = Some x → convert_out x v = inl e →
    spec_step t (CGet s k v) (RError (ErrorOperation n "store/get" e)) t
| spec_set s n m k v x : t !! s = Some (Some (n, m)) → convert_in v = inr x →
    spec_step t (CSet s k v) ROk (write n (<[ k := x ]> m) <$> t)
| spec_set_unsaved s n m k v x e : t !! s = Some (Some (n, m)) → convert_in v = inr x →
    spec_step t (CSet s k v) (RError (ErrorOperation n "store/get" e)) (write n (<[ k := x ]> m) <$> t)
| spec_set_error s n m k v e : t !! s = Some (Some (n, m)) → convert_in v = inl e →
    spec_step t (CSet s k v) (RError (ErrorOperation n "store/get" e)) t
| spec_remove s n m k : t !! s = Some (Some (n, m)) →
    spec_step t (CRemove s k) ROk (write n (delete k m) <$> t)
| spec_remove_unsaved s n m k e : t !! s = Some (Some (n, m)) →
    spec_step t (CRemove s k) (RError (ErrorOperation n "store/remove" e)) (write n (delete k m) <$> t)
| spec_each s n m l fn st err st' : t !! s = Some (Some (n, m)) → l ≡ₚ map_to_list m →
    each_pairs fn l st = Done (err, st') → spec_step t (CEach s fn st) (REach (Unwrapped <$> err) st') t.

(** What the instances of a world show. *)
Definition abs (w : world) : tables := obs w <$> seq 0 (length (instances w)).

Lemma abs_lookup w s : abs w !! s = if decide (s < length (instances w)) then Some (obs w s) else None.
Proof.
  unfold abs. rewrite list_lookup_fmap. case_decide as Hs; [by rewrite lookup_seq_lt|].
  by rewrite lookup_seq_ge by lia.
Qed.

Lemma abs_length w : length (abs w) = length (instances w).
Proof. unfold abs. by rewrite length_fmap, length_seq. Qed.

Lemma abs_Some w s x : abs w !! s = Some (Some x) ↔ obs w s = Some x.
Proof.
  rewrite abs_lookup. case_decide as Hs; [split; congruence|]. split; [done|]. unfold obs.
  by rewrite lookup_ge_None_2 by lia.
Qed.

Lemma abs_eq w t : length t = length (instances w) → (∀ s, s < length t → t !! s = Some (obs w s)) → abs w = t.
Proof.
  intros Hlen Hs. apply list_eq. intros s. rewrite abs_lookup, <- Hlen.
  case_decide as Hd; [by rewrite Hs|]. by rewrite lookup_ge_None_2 by lia.
Qed.

Lemma abs_write w w' n m : length (instances w') = length (instances w) → (∀ s, obs w' s = write n m (obs w s)) →
  abs w' = write n m <$> abs w.
Proof.
  intros Hlen Hobs. apply abs_eq; rewrite length_fmap, abs_length; [done|]. intros s Hs.
  rewrite list_lookup_fmap, abs_lookup, decide_True by lia. simpl. by rewrite Hobs.
Qed.

Lemma abs_same w w' : length (instances w') = length (instances w) → (∀ s, obs w' s = obs w s) → abs w' = abs w.
Proof. intros Hlen Hobs. apply abs_eq; rewrite abs_length; [done|]. intros s Hs. by rewrite abs_lookup, decide_True, Hobs by lia. Qed.

(** *** Calls on a closed instance *)
Lemma exec_closed w c s op : ok w → target c = Some (s, op) → s < length (instances w) → obs w s = None →
  ∃ n w', exec c w = Done (RError (ErrorClosed n op), w') ∧ ok w' ∧ abs w' = abs w.
Proof.
  intros Hok Hc Hlt Hobs. destruct (lookup_lt_is_Some_2 _ _ Hlt) as [i Hi].
  assert (Ho : is_open i = false).
  { destruct (is_open i) eqn:Ho; [|done]. destruct (ok_open w s i Hok Hi Ho) as (? & ? & _ & _ & _ & ?). congruence. }
  destruct (ok_instance w Hok s i Hi) as [_ [sh Hsh]].
  pose proof (ok_idle w s i Hok Hi) as Hidle. rewrite Ho in Hidle. simpl in Hidle.
  assert (Hput : ∀ g, wgState g = (0%Z, true) → ok (put_group s (shared i) g w) ∧ abs (put_group s (shared i) g w) = abs w).
  { intros g Hg. assert (Hst : wgState g = wgState (active i)) by (by rewrite Hg, Hidle).
    split; [by apply ok_put_same|]. apply abs_same; [unfold put_group; simpl; by rewrite length_insert|].
    intros s'. by apply obs_put_same. }
  exists (name sh). destruct c; simpl in Hc; try discriminate Hc; injection Hc as -> <-.
  1: destruct (Close_instance_closed w s i sh Hi Hidle Hsh) as (g & Hg & E); exists (put_group s (shared i) g w);
    (split; [|by apply Hput]); unfold exec;
    by rewrite (M_bind_eq _ _ _ (Some (ErrorClosed (name sh) "store/close")) (put_group s (shared i) g w))
      by (unfold Close; by erewrite M_bind_eq by exact E).
  all: unfold exec, Has, Get, Set_, Remove, Each;
    match goal with |- context [with_active _ ?op ?body] =>
      destruct (with_active_closed w s i sh op body Hi Hidle Hsh) as (g & Hg & E) end;
    exists (put_group s (shared i) g w); (split; [|by apply Hput]); by erewrite M_bind_eq by exact E.
Qed.

(** *** Calls on an open instance *)
Lemma exec_has w s n m k : ok w → obs w s = Some (n, m) →
  ∃ w', exec (CHas s k) w = Done (RBool (bool_decide (is_Some (m !! k))), w') ∧ ok w' ∧ abs w' = abs w.
Proof.
  intros Hok Hobs.
  destruct (call_open w s n m m "store/has" (λ h, has h k) (λ r, r) (λ b, b = inr (bool_decide (is_Some (m !! k)))) Hok Hobs)
    as (b & w' & E & -> & Hok' & Hlen & Hobs').
  { intros h Hv. destruct (has_ok _ h n m k (ok_backend w Hok) Hv) as (r' & E & Hr & Hv').
    eexists _, r'. split_and!; [done|done|by rewrite Hv'|done|done]. }
  exists w'. split; [unfold exec, Has; by erewrite M_bind_eq by exact E|]. split; [done|].
  apply abs_same; [done|]. intros s'. rewrite Hobs'. by apply (write_same w n m s' Hok s).
Qed.

Lemma exec_get w s n m k v : ok w → obs w s = Some (n, m) →
  ∃ r w', exec (CGet s k v) w = Done (r, w') ∧ ok w' ∧ abs w' = abs w ∧
    match m !! k with
    | Some x => r = match convert_out x v with inr v' => RValue v' | inl e => RError (ErrorOperation n "store/get" e) end
    | None => ∃ e, r = RError (ErrorOperation n "store/get" e)
    end.
Proof.
  intros Hok Hobs.
  destruct (call_open w s n m m "store/get" (λ h, get h k v) (λ r, r)
    (λ b, match m !! k with Some x => b = convert_out x v | None => ∃ e, b = inl e end) Hok Hobs)
    as (b & w' & E & Hb & Hok' & Hlen & Hobs').
  { intros h Hv. destruct (get_ok _ h n m k v (ok_backend w Hok) Hv) as (res & r' & E & Hr & Hv' & Hres).
    exists res, r'. split_and!; [done|done|by rewrite Hv'|done|done]. }
  eexists _, w'. split; [unfold exec, Get; by erewrite M_bind_eq by exact E|]. split; [done|]. split.
  - apply abs_same; [done|]. intros s'. rewrite Hobs'. by apply (write_same w n m s' Hok s).
  - destruct (m !! k) as [x|]; [|destruct Hb as [e ->]; by exists e]. rewrite <- Hb. by destruct b.
Qed.

Lemma exec_set w s n m k v : ok w → obs w s = Some (n, m) →
  ∃ r w', exec (CSet s k v) w = Done (r, w') ∧ ok w' ∧ (r = ROk ∨ ∃ e, r = RError (ErrorOperation n "store/get" e)) ∧
    match convert_in v with
    | inr x => abs w' = write n (<[ k := x ]> m) <$> abs w
    | inl e => r = RError (ErrorOperation n "store/get" e) ∧ abs w' = abs w
    end.
Proof.
  intros Hok Hobs.
  destruct (call_open w s n m (match convert_in v with inr x => <[ k := x ]> m | inl _ => m end) "store/get"
    (λ h, set h k v) result_of (λ err, match convert_in v with inl e => err = Some e | inr _ => True end) Hok Hobs)
    as (b & w' & E & Hb & Hok' & Hlen & Hobs').
  { intros h Hv. destruct (set_ok _ h n m k v (ok_backend w Hok) Hv) as (err & r' & E & Hr & Hv' & Hres).
    exists err, r'. destruct (convert_in v); [destruct Hres|]; by split_and!. }
  eexists _, w'. split; [unfold exec, Set_; by erewrite M_bind_eq by exact E|]. split; [done|]. split.
  - destruct b; simpl; eauto.
  - destruct (convert_in v) as [e|x]; [|by apply abs_write]. subst b. split; [done|].
    apply abs_same; [done|]. intros s'. rewrite Hobs'. by apply (write_same w n m s' Hok s).
Qed.

Lemma exec_remove w s n m k : ok w → obs w s = Some (n, m) →
  ∃ r w', exec (CRemove s k) w = Done (r, w') ∧ ok w' ∧
    (r = ROk ∨ ∃ e, r = RError (ErrorOperation n "store/remove" e)) ∧ abs w' = write n (delete k m) <$> abs w.
Proof.
  intros Hok Hobs.
  destruct (call_open w s n m (delete k m) "store/remove" (λ h, remove h k) result_of (λ _, True) Hok Hobs)
    as (b & w' & E & Hb & Hok' & Hlen & Hobs').
  { intros h Hv. destruct (remove_ok _ h n m k (ok_backend w Hok) Hv) as (err & r' & E & Hr & Hv' & Ho).
    exists err, r'. by split_and!. }
  eexists _, w'. split; [unfold exec, Remove; by erewrite M_bind_eq by exact E|]. split; [done|]. split.
  - destruct b; simpl; eauto.
  - by apply abs_write.
Qed.

Lemma exec_each w s n m fn (st : C) : ok w → obs w s = Some (n, m) → (∀ k x st, ∃ r, fn k x st = Done r) →
  ∃ l err st' w', exec (CEach s fn st) w = Done (REach (Unwrapped <$> err) st', w') ∧ ok w' ∧ abs w' = abs w ∧
    l ≡ₚ map_to_list m ∧ each_pairs fn l st = Done (err, st').
Proof.
  intros Hok Hobs Hfn.
  destruct (call_open w s n m m "store/each" (λ h r, e ← each h fn st r; Done (e.1, e.2))
    (λ e, inr (Unwrapped <$> e.1, e.2)) (λ e, ∃ l, l ≡ₚ map_to_list m ∧ each_pairs fn l st = Done e) Hok Hobs)
    as ([e st1] & w' & E & (l1 & Hl1 & Ep1) & Hok' & Hlen & Hobs').
  { intros h Hh. destruct (each_ok _ h n m fn st (ok_backend w Hok) Hh) as (l1 & r' & E & Hl1 & Hr & Hv').
    destruct (each_pairs_returns fn l1 st Hfn) as [[e st1] Ep1]. exists (e, st1), r'. rewrite E, Ep1.
    split_and!; [done|done|by rewrite Hv'|done|by exists l1]. }
  exists l1, e, st1, w'. split; [unfold exec, Each; by erewrite M_bind_eq by exact E|]. split_and!; [done| |done|done].
  apply abs_same; [done|]. intros s'. rewrite Hobs'. by apply (write_same w n m s' Hok s).
Qed.

(** *** Opening and closing *)
Lemma exec_open w n : ok w → (Z.of_nat (length (instances w)) < int_max)%Z →
  ∃ r w', exec (COpen n) w = Done (r, w') ∧ ok w' ∧ spec_step (abs w) (COpen n) r (abs w').
Proof.
  intros Hok Hmax. destruct (reg_active w !! n) as [l|] eqn:Ha.
  - destruct (Get_shared_ok w n l Hok Ha Hmax) as (w' & m & E & Hok' & Hlen & Hnew & [s Hs] & Hold).
    eexists _, w'. split; [unfold exec; by erewrite M_bind_eq by exact E|]. split; [done|]. simpl.
    replace (abs w') with (abs w ++ [Some (n, m)]).
    + rewrite <- abs_length. apply spec_open. intros s' m' Hs'. apply abs_Some in Hs'.
      pose proof (write_same w n m s' Hok s Hs) as Hw. rewrite Hs' in Hw. simpl in Hw. rewrite decide_True in Hw by done. congruence.
    + symmetry. apply abs_eq; rewrite length_app, abs_length; simpl; [lia|]. intros s' Hlt.
      destruct (decide (s' = length (instances w))) as [->|Hne].
      * rewrite lookup_app_r by (by rewrite abs_length). by rewrite abs_length, Nat.sub_diag, Hnew.
      * rewrite lookup_app_l by (rewrite abs_length; lia). rewrite abs_lookup, decide_True by lia. by rewrite Hold.
  - destruct (Get_fresh_ok w n Hok Ha) as ([e|s] & w' & E & Hok' & Hres);
      (eexists _, w'; split; [unfold exec; by erewrite M_bind_eq by exact E|]; split; [done|]); simpl.
    + destruct Hres as ([cause ->] & Hins & Hobs). rewrite (abs_same w w') by (by rewrite ?Hins). constructor.
    + destruct Hres as (-> & Hlen & [m Hnew] & Hold). replace (abs w') with (abs w ++ [Some (n, m)]).
      * rewrite <- abs_length. apply spec_open. intros s' m' Hs'. apply abs_Some in Hs'.
        destruct (obs_Some w s' n m' Hok Hs') as (i & sh & _ & _ & _ & _ & _ & Ha'). congruence.
      * symmetry. apply abs_eq; rewrite length_app, abs_length; simpl; [lia|]. intros s' Hlt.
        destruct (decide (s' = length (instances w))) as [->|Hne].
        -- rewrite lookup_app_r by (by rewrite abs_length). by rewrite abs_length, Nat.sub_diag, Hnew.
        -- rewrite lookup_app_l by (rewrite abs_length; lia). rewrite abs_lookup, decide_True by lia. by rewrite Hold.
Qed.
(** Every call refines a step of the specification. *)
Lemma exec_refines w c : ok w → (∀ s op, target c = Some (s, op) → s < length (instances w)) →
  (Z.of_nat (length (instances w)) < int_max)%Z → callback_returns c →
  ∃ r w', exec c w = Done (r, w') ∧ ok w' ∧ spec_step (abs w) c r (abs w').
Proof.
  intros Hok Ht Hmax Hcb. destruct (target c) as [[s op]|] eqn:Hc.
  2: { destruct c; try discriminate Hc. by apply exec_open. }
  specialize (Ht s op eq_refl). destruct (obs w s) as [[n m]|] eqn:Hobs.
  - assert (Habs : abs w !! s = Some (Some (n, m))) by (by apply abs_Some).
    destruct c; simpl in Hc; try discriminate Hc; injection Hc as -> _.
    + destruct (Close_ok w s n m Hok Hobs Hmax) as (err & w' & E & Herr & Hok' & Hlen & Hobs').
      eexists _, w'. split; [unfold exec; by erewrite M_bind_eq by exact E|]. split; [done|].
      replace (abs w') with (<[ s := None ]> (abs w)).
      * destruct err as [e|]; [destruct (Herr e eq_refl) as [e' ->]|]; by econstructor.
      * symmetry. apply abs_eq; rewrite length_insert, abs_length; [done|]. intros s' Hs'. rewrite Hobs'.
        case_decide as Hd; [subst; by rewrite list_lookup_insert_eq by (by rewrite abs_length)|].
        rewrite list_lookup_insert_ne by done. by rewrite abs_lookup, decide_True by done.
    + destruct (exec_has w s n m key Hok Hobs) as (w' & E & Hok' & Ha). eexists _, w'. split; [done|].
      split; [done|]. rewrite Ha. by econstructor.
    + destruct (exec_get w s n m key into Hok Hobs) as (r & w' & E & Hok' & Ha & Hr). exists r, w'. split; [done|].
      split; [done|]. rewrite Ha. destruct (m !! key) as [x|] eqn:Hx; [|destruct Hr as [e ->]; by econstructor].
      subst r. destruct (convert_out x into) eqn:Hcv; by econstructor.
    + destruct (exec_set w s n m key from Hok Hobs) as (r & w' & E & Hok' & Hr & Habs'). exists r, w'. split; [done|].
      split; [done|]. destruct (convert_in from) as [e|x] eqn:Hcv; [destruct Habs' as [-> Ha]; rewrite Ha; by econstructor|].
      rewrite Habs'. destruct Hr as [->|[e ->]]; by econstructor.
    + destruct (exec_remove w s n m key Hok Hobs) as (r & w' & E & Hok' & Hr & Ha). exists r, w'. split; [done|].
      split; [done|]. rewrite Ha. destruct Hr as [->|[e ->]]; by econstructor.
    + destruct (exec_each w s n m fn st Hok Hobs Hcb) as (l & err & st' & w' & E & Hok' & Ha & Hl & Ep).
      eexists _, w'. split; [exact E|]. split; [done|]. rewrite Ha. by econstructor.
  - destruct (exec_closed w c s op Hok Hc Ht Hobs) as (n & w' & E & Hok' & Ha). eexists _, w'. split; [done|].
    split; [done|]. rewrite Ha. econstructor; [done|]. by rewrite abs_lookup, decide_True, Hobs.
Qed.

(** *** The lifetime of a backend store *)

(** Instance [s] is open, under the name [n]. *)
Definition in_use (w : world) (s : nat) (n : string) : Prop :=
  ∃ i sh, instances w !! s = Some i ∧ is_open i = true ∧ shareds w !! shared i = Some sh ∧ name sh = n.

Lemma in_use_obs w s n : ok w → in_use w s n ↔ ∃ m, obs w s = Some (n, m).
Proof.
  intros Hok. split.
  - intros (i & sh & Hi & Ho & Hsh & <-). destruct (ok_open w s i Hok Hi Ho) as (sh' & m & Hsh' & _ & _ & Hobs).
    exists m. congruence.
  - intros [m Hobs]. destruct (obs_Some w s n m Hok Hobs) as (i & sh & ? & ? & ? & ? & _). by exists i, sh.
Qed.

Lemma in_use_active w n : ok w → is_Some (reg_active w !! n) ↔ ∃ s, in_use w s n.
Proof.
  intros Hok. split.
  - intros [l Ha]. apply (ok_active w Hok) in Ha as (sh & Hsh & Hn & Hu). apply count_pos in Hu as (s & i & Hi & Ho).
    apply andb_prop in Ho as [<-%bool_decide_eq_true Ho]. by exists s, i, sh.
  - intros [s [m Hobs]%in_use_obs]; [|done]. destruct (obs_Some w s n m Hok Hobs) as (i & sh & _ & _ & _ & _ & _ & Ha). eauto.
Qed.

Lemma in_use_view w n : ok w → (∃ h m, view (reg_backend w) h = Some (n, m)) ↔ ∃ s, in_use w s n.
Proof.
  intros Hok. rewrite <- in_use_active by done. split.
  - intros (h & m & Hv). destruct (reg_active w !! n) eqn:Ha; [done|]. by destruct (not_viewed w n Hok Ha h m).
  - intros [l Ha]. apply (ok_active w Hok) in Ha as (sh & Hsh & <- & Hu). destruct (ok_view w Hok l sh Hsh Hu) as [m Hv]. eauto.
Qed.

(** An open instance is the only one of its store unless another is open under
    the same name. *)
Lemma users_other w s i sh n : ok w → instances w !! s = Some i → is_open i = true → shareds w !! shared i = Some sh →
  name sh = n → 1 < users w (shared i) ↔ ∃ s', s' ≠ s ∧ in_use w s' n.
Proof.
  intros Hok Hi Ho Hsh Hn.
  pose proof (wgClose_state _ _ _ (ok_idle w s i Hok Hi)) as Hg. revert Hg. generalize (wgClose (active i)). intros g Hg.
  pose proof (users_put_group w s i g (shared i) Hi) as Hu.
  replace (open_on (shared i) (mkInstance (shared i) g)) with false in Hu
    by (unfold open_on, is_open; simpl; by rewrite Hg, andb_false_r).
  replace (open_on (shared i) i) with true in Hu by (unfold open_on; by rewrite bool_decide_true, Ho by done).
  cbn [Nat.b2n] in Hu. split.
  - intros H1. assert (Hp : 0 < users (put_group s (shared i) g w) (shared i)) by lia.
    apply count_pos in Hp as (s' & i' & Hi' & Ho'). apply lookup_put_group in Hi' as [[-> ->]|[Hne Hi']].
    + unfold open_on, is_open in Ho'. simpl in Ho'. by rewrite Hg, andb_false_r in Ho'.
    + apply andb_prop in Ho' as [Hd%bool_decide_eq_true Ho']. exists s'. split; [done|]. exists i', sh.
      by rewrite Hd.
  - intros (s' & Hne & i' & sh' & Hi' & Ho' & Hsh' & Hn').
    destruct (ok_open w s i Hok Hi Ho) as (sh0 & m & Hsh0 & Ha & _). destruct (ok_open w s' i' Hok Hi' Ho') as (sh1 & m' & Hsh1 & Ha' & _).
    assert (Heq : shared i' = shared i) by congruence.
    assert (Hp : 0 < users (put_group s (shared i) g w) (shared i)); [|lia]. rewrite <- Heq at 2.
    apply (users_pos _ s'); [|done]. unfold put_group. simpl. by rewrite list_lookup_insert_ne.
Qed.

(** What [Close] asks of the backend. *)
Lemma Close_backend w s n : ok w → in_use w s n → (Z.of_nat (length (instances w)) < int_max)%Z →
  ∃ err w', Close s w = Done (err, w') ∧
    ((∃ s', s' ≠ s ∧ in_use w s' n) ∧ err = None ∧ reg_backend w' = reg_backend w ∨
     ¬ (∃ s', s' ≠ s ∧ in_use w s' n) ∧ ∃ h m e, view (reg_backend w) h = Some (n, m) ∧
       close_store h (reg_backend w) = Done (e, reg_backend w') ∧ err = Unwrapped <$> e).
Proof.
  intros Hok (i & sh & Hi & Ho & Hsh & Hn) Hmax.
  destruct (ok_open w s i Hok Hi Ho) as (sh0 & m & Hsh0 & Ha & Hv & _). replace sh0 with sh in * by congruence. clear sh0 Hsh0.
  pose proof (users_other w s i sh n Hok Hi Ho Hsh Hn) as Hother. pose proof (users_pos w s i Hi Ho) as Hu.
  pose proof (ok_idle w s i Hok Hi) as Hidle. rewrite Ho in Hidle.
  destruct (Close_instance_open w s i Hi Hidle) as (g & Hg & E). unfold Close.
  setoid_rewrite (M_bind_eq _ _ _ _ _ E). cbn beta iota.
  destruct (decide (1 < users w (shared i))) as [H1|H1].
  - destruct (Close_shared_ok w s i sh g Hok Hi Ho Hsh Hg H1 Hmax) as (Er & _ & _).
    eexists None, _. split; [exact Er|]. left. split; [by apply Hother|done].
  - pose proof (ok_count w Hok _ _ Hsh) as Hc.
    destruct (close_ok _ _ _ (ok_backend w Hok) Hv) as (e & r' & Ec & _).
    rewrite (Release_last _ (shared i) sh (shared i)); [|done|apply Hok|lia|done|].
    + unfold on_backend. run_M. simpl. rewrite Ec. eexists _, _. split; [done|]. right. split; [by rewrite <- Hother|].
      rewrite <- Hn. by eexists _, m, e.
    + simpl. rewrite (ok_wg w Hok). assert (size (reg_active w) ≠ 0); [|lia].
      intros E0%map_size_empty_iff. by rewrite E0, lookup_empty in Ha.
Qed.

(** What [Registry.Get] asks of the backend. *)
Lemma Get_backend_shared w n : ok w → (∃ s, in_use w s n) → (Z.of_nat (length (instances w)) < int_max)%Z →
  ∃ w', Registry_Get n w = Done (inr (length (instances w)), w') ∧ reg_backend w' = reg_backend w.
Proof.
  intros Hok [l Ha]%in_use_active Hmax; [|done]. pose proof Ha as (sh & Hsh & _)%(ok_active w Hok).
  eexists. split; [apply (Registry_Get_active w n l sh); [apply Hok|done..]|done].
Qed.

Lemma Get_backend_fresh w n : ok w → ¬ (∃ s, in_use w s n) →
  ∃ res w', access (H := H) n (reg_backend w) = Done (res, reg_backend w') ∧
    Registry_Get n w = Done (match res with
      | inl e => inl (ErrorAccess n (Some e))
      | inr _ => inr (length (instances w)) end, w').
Proof.
  intros Hok Hno. assert (Ha : reg_active w !! n = None) by (by rewrite <- in_use_active, <- eq_None_not_Some in Hno).
  destruct (access_ok (reg_backend w) n (ok_backend w Hok) (not_viewed w n Hok Ha)) as ([e|h] & r' & E & _).
  - eexists (inl e), (set_backend r' w). split; [done|]. apply Registry_Get_error; [apply Hok|done..].
  - destruct (Registry_Get_new w n h r' (ok_mu w Hok) Ha E) as (c & _ & Eg).
    exists (inr h), (opened n h c r' w). by split.
Qed.

Lemma wg_idle w : ok w → wg w = 0%Z ↔ ¬ ∃ s n, in_use w s n.
Proof.
  intros Hok. rewrite (ok_wg w Hok). trans (reg_active w = ∅); [rewrite <- map_size_empty_iff; lia|]. split.
  - intros He (s & n & Hs). destruct (proj2 (in_use_active w n Hok)) as [l Ha]; [eauto|]. by rewrite He, lookup_empty in Ha.
  - intros Hno. apply map_eq. intros n. rewrite lookup_empty, eq_None_not_Some, in_use_active by done. naive_solver.
Qed.

(** Worlds that calls lead to from an empty registry over [b]. *)
Inductive reached (b : R) : world → Prop :=
| reached_new : reached b (NewRegistry b)
| reached_call w c r w' : reached b w → (∀ s op, target c = Some (s, op) → s < length (instances w)) →
    (Z.of_nat (length (instances w)) < int_max)%Z → callback_returns c → exec c w = Done (r, w') → reached b w'.

Lemma reached_ok b w : backend_ok b → (∀ h, view b h = None) → reached b w → ok w.
Proof.
  intros Hb Hv Hw. induction Hw as [|w c r w' _ Hok Ht Hmax Hcb E]; [by apply ok_new|].
  destruct (exec_refines w c Hok Ht Hmax Hcb) as (r' & w1 & E' & Hok' & _). congruence.
Qed.
End spec.

(** C7. The state store implements shared tables.  Used by one goroutine at a
    time, opening a store and each call on one ([Close], [Has], [Get], [Set],
    [Remove], and [Each] with a function that returns) returns: no panic, no
    deadlock on the registry's lock.  It keeps the invariant of the registry and
    does what the specification machine does: an open name shows the table all
    its instances share, [Set] and [Remove] are seen by each of them, [Each]
    passes the pairs of the table to its function until that stops it, closing
    one instance does not affect the others, and every call on a closed instance
    fails with [ErrorClosed], [Each] and another [Close] included. *)
Theorem statestore_refines_shared_tables {R H V X C Ctr W : Type} `{!Convert V X, !Backend R H V X, !BackendLaws R H V X,
    !EqDecision H, !AtomicInt Ctr, !AtomicIntLaws Ctr, !SafeWaitGroup W, !SafeWaitGroupLaws W}
    (w : world R H Ctr W) (c : call V X C) :
  ok w → (∀ s op, target c = Some (s, op) → s < length (instances w)) → (Z.of_nat (length (instances w)) < int_max)%Z →
  callback_returns c →
  ∃ r w', exec c w = Done (r, w') ∧ ok w' ∧ spec_step (abs w) c r (abs w').
Proof. apply exec_refines. Qed.

(** C20. A backend store lives exactly as long as it is in use.  After any calls
    on an empty registry over a backend with no store open: the backend has a
    store open under a name if and only if some instance of that name is open;
    [Registry.Get] asks the backend for the store if no instance of the name is
    open, and shares the open one otherwise; [Store.Close] of an open instance
    closes the backend's store, and returns its error, if no other instance of
    the name is open, and otherwise leaves the backend alone; and
    [Registry.Close] closes the backend at once if no instance is open, and
    otherwise waits (for ever, if nobody else runs). *)
Theorem backend_store_lifetime {R H V X C Ctr W : Type} `{!Convert V X, !Backend R H V X, !BackendLaws R H V X,
    !EqDecision H, !AtomicInt Ctr, !AtomicIntLaws Ctr, !SafeWaitGroup W, !SafeWaitGroupLaws W}
    (b : R) (w : world R H Ctr W) :
  backend_ok b → (∀ h, view b h = None) → reached (C := C) b w → (Z.of_nat (length (instances w)) < int_max)%Z →
  (∀ n, (∃ h m, view (reg_backend w) h = Some (n, m)) ↔ ∃ s, in_use w s n) ∧
  (∀ n, (∃ s, in_use w s n) →
     ∃ w', Registry_Get n w = Done (inr (length (instances w)), w') ∧ reg_backend w' = reg_backend w) ∧
  (∀ n, ¬ (∃ s, in_use w s n) →
     ∃ res w', access (H := H) n (reg_backend w) = Done (res, reg_backend w') ∧
       Registry_Get n w = Done (match res with
         | inl e => inl (ErrorAccess n (Some e))
         | inr _ => inr (length (instances w)) end, w')) ∧
  (∀ s n, in_use w s n → ∃ err w', Close s w = Done (err, w') ∧
     ((∃ s', s' ≠ s ∧ in_use w s' n) ∧ err = None ∧ reg_backend w' = reg_backend w ∨
      ¬ (∃ s', s' ≠ s ∧ in_use w s' n) ∧ ∃ h m e, view (reg_backend w) h = Some (n, m) ∧
        close_store h (reg_backend w) = Done (e, reg_backend w') ∧ err = Unwrapped <$> e)) ∧
  ((∃ s n, in_use w s n) → Registry_Close w = deadlock w) ∧
  (¬ (∃ s n, in_use w s n) →
     Registry_Close w = (err ← on_backend (close_registry (H := H)); mret (Unwrapped <$> err)) w).
Proof.
  intros Hb Hv Hw Hmax. pose proof (reached_ok b w Hb Hv Hw) as Hok. pose proof (wg_idle w Hok) as Hwg.
  split; [by intros; apply in_use_view|]. split; [by intros; apply Get_backend_shared|].
  split; [by intros; apply Get_backend_fresh|]. split; [by intros; apply Close_backend|].
  unfold Registry_Close. run_M. split; intros Hs.
  - by rewrite bool_decide_false by tauto.
  - by rewrite bool_decide_true by tauto.
Qed.

(** ** The state store over the backend in memory *)
#[local] Existing Instance string_convert.
#[local] Instance table_backend : Backend (MemoryStore string) string string string :=
  memory_backend map_to_list.
#[local] Instance table_laws : BackendLaws (MemoryStore string) string string string :=
  memory_laws map_to_list (λ _, reflexivity _).

Definition table_world : Type := world (MemoryStore string) string Z (Z * bool).
Definition empty_world : table_world := NewRegistry NewMemoryStoreBackend.

Lemma empty_world_ok : ok empty_world.
Proof. apply ok_new; [done|]. intros h. reflexivity. Qed.

(** The world after some calls, which must be possible. *)
Definition after (c : call string string nat) (w : table_world) : table_world :=
  match exec c w with Done (_, w') => w' | _ => w end.
Definition possible (c : call string string nat) (w : table_world) : bool :=
  match target c with Some (s, _) => bool_decide (s < length (instances w)) | None => true end &&
  bool_decide (Z.of_nat (length (instances w)) < int_max)%Z &&
  match exec c w with Done _ => true | _ => false end.
Fixpoint run (cs : list (call string string nat)) (w : table_world) : table_world :=
  match cs with [] => w | c :: cs => run cs (after c w) end.
Fixpoint all_possible (cs : list (call string string nat)) (w : table_world) : bool :=
  match cs with [] => true | c :: cs => possible c w && all_possible cs (after c w) end.

Abbreviation reached_tables := (reached (V := string) (C := nat) NewMemoryStoreBackend).

Lemma run_reached cs (w : table_world) : reached_tables w → Forall callback_returns cs → all_possible cs w = true →
  reached_tables (run cs w).
Proof.
  intros Hw Hcb. revert w Hw. induction Hcb as [|c cs Hc _ IH]; intros w Hw; [done|]. simpl.
  intros [[[Ht Hm%bool_decide_eq_true]%andb_prop He]%andb_prop Hcs]%andb_prop. apply IH; [|done].
  unfold after. destruct (exec c w) as [[r w']| |] eqn:E; try discriminate He.
  eapply reached_call; [exact Hw| |exact Hm|exact Hc|exact E]. intros s op Hs. rewrite Hs in Ht. by apply bool_decide_eq_true in Ht.
Qed.

Definition counting : string → string → nat → outcome (bool * option goerr * nat) := λ _ _ n, Done (true, None, S n).

(** Two instances of a store; the one writes, [Each] of the other sees it, and
    [Each] fails once that is closed. *)
Lemma statestore_refines_shared_tables_witness :
  let w3 := run [COpen "a"; COpen "a"; CSet 0 "k" "x"] empty_world in
  let w4 := run [CClose 1] w3 in
  exec (CEach 1 counting 0) w3 = Done (REach None 1, w3) ∧
  (∃ r w', exec (CEach 1 counting 0) w3 = Done (r, w') ∧ ok w' ∧ spec_step (abs w3) (CEach 1 counting 0) r (abs w')) ∧
  ∃ r w', exec (CEach 1 counting 0) w4 = Done (r, w') ∧ ok w' ∧ spec_step (abs w4) (CEach 1 counting 0) r (abs w').
Proof.
  intros w3 w4.
  assert (H3 : reached_tables w3) by (apply run_reached; [apply reached_new|repeat constructor|reflexivity]).
  assert (H4 : reached_tables w4) by (apply run_reached; [exact H3|repeat constructor|reflexivity]).
  split; [reflexivity|].
  split; [apply (statestore_refines_shared_tables w3)|apply (statestore_refines_shared_tables w4)];
    try (intros ? ? [= <- _]; vm_compute; lia); try reflexivity; try (by eexists);
    by eapply (reached_ok NewMemoryStoreBackend).
Defined.

(** Two instances of [a], written to, and one of [b]: closing the first leaves the
    backend alone, closing the second closes its store, and the registry can be
    closed once the third is closed. *)
Lemma backend_store_lifetime_witness :
  let w4 := run [COpen "a"; COpen "a"; CSet 0 "k" "x"; COpen "b"] empty_world in
  let w5 := run [CClose 0] w4 in
  let w6 := run [CClose 1] w5 in
  let w7 := run [CClose 2] w6 in
  (∃ err w', Close 0 w4 = Done (err, w') ∧ reg_backend w' = reg_backend w4) ∧
  (∃ err w' e h, Close 1 w5 = Done (err, w') ∧
    @close_store _ _ _ _ table_backend h (reg_backend w5) = Done (e, reg_backend w')) ∧
  Registry_Close w6 = deadlock w6 ∧ Registry_Close w7 = Done (None, w7).
Proof.
  intros w4 w5 w6 w7.
  assert (H4 : reached_tables w4) by (apply run_reached; [apply reached_new|repeat constructor|reflexivity]).
  assert (H5 : reached_tables w5) by (apply run_reached; [exact H4|repeat constructor|reflexivity]).
  assert (H6 : reached_tables w6) by (apply run_reached; [exact H5|repeat constructor|reflexivity]).
  assert (H7 : reached_tables w7) by (apply run_reached; [exact H6|repeat constructor|reflexivity]).
  pose proof (λ w, backend_store_lifetime (V := string) (C := nat) NewMemoryStoreBackend w I (λ _, eq_refl)) as Hall.
  assert (Huse : in_use w4 0 "a" ∧ in_use w4 1 "a" ∧ in_use w5 1 "a" ∧ in_use w6 2 "b")
    by (split; [|split; [|split]]; eexists _, _; do 3 (split; [reflexivity|]); reflexivity).
  destruct Huse as (U1 & U2 & U3 & U4). split; [|split; [|split]].
  - destruct (Hall w4 H4 eq_refl) as (_ & _ & _ & Hc & _).
    destruct (Hc 0 "a"%string U1) as (err & w' & E & [(_ & _ & Hb)|[Hno _]]); [exists err, w'; exact (conj E Hb)|].
    destruct Hno. exists 1. exact (conj (Nat.neq_succ_0 0) U2).
  - destruct (Hall w5 H5 eq_refl) as (_ & _ & _ & Hc & _).
    destruct (Hc 1 "a"%string U3) as (err & w' & E & [((s & Hne & i & sh & Hi & Ho & Hsh & Hn) & _)|(_ & h & m & e & _ & Hcl & _)]).
    + destruct s as [|[|[|s]]]; [|destruct (Hne eq_refl)|..]; vm_compute in Hi; try discriminate Hi; injection Hi as <-;
        [discriminate Ho|]. vm_compute in Hsh. injection Hsh as <-. discriminate Hn.
    + exists err, w', e, h. exact (conj E Hcl).
  - destruct (Hall w6 H6 eq_refl) as (_ & _ & _ & _ & Hw & _). apply Hw. exists 2, "b"%string. exact U4.
  - destruct (Hall w7 H7 eq_refl) as (_ & _ & _ & _ & _ & Hc). rewrite Hc; [reflexivity|].
    intros (s & n & i & sh & Hi & Ho & _). destruct s as [|[|[|s]]]; vm_compute in Hi; try discriminate Hi;
      injection Hi as <-; discriminate Ho.
Defined.
