(* ===== verification/Interleaving.v ===== *)
(** * The state store used by several goroutines

    Each goroutine works on instances of its own.  Its steps are the critical
    sections under [Registry.mu] and the single atomic operations between them;
    a call on an instance is one step, because the instance is not shared and the
    backend serializes its operations.  A schedule interleaves the steps in any
    order. *)

From stdpp Require Import base gmap strings list fin_maps relations.
From Stdlib Require Import ZArith Lia.
From S2P Require Import Prelude Fs Backend Concert Storetest Statestore StatestoreFacts.

(** Where a goroutine is: it has no store, has an instance, or is inside
    [Close]: before the decrement, before [tryUnregister], before the backend's
    [Close]. *)
Inductive gor :=
| Idle
| Holds (s : nat)
| Releasing (l : nat)
| Unregistering (l : nat)
| ClosingBackend (l : nat).

Inductive action (V : Type) :=
| AGet (name : string)
| AHas (key : string)
| ARead (key : string) (into : V)
| ASet (key : string) (from : V)
| ARemove (key : string)
| AClose
| ARelease.
Arguments AGet {_} _.
Arguments AHas {_} _.
Arguments ARead {_} _ _.
Arguments ASet {_} _ _.
Arguments ARemove {_} _.
Arguments AClose {_}.
Arguments ARelease {_}.

Section interleaving.
Context {R H V X Ctr W : Type} `{!Backend R H V X, !AtomicInt Ctr, !SafeWaitGroup W}.
Abbreviation world := (world R H Ctr W).

(** The next step of a goroutine, if the action applies. *)
Definition act (g : gor) (a : action V) : option (M world gor) :=
  match g, a with
  | Idle, AGet n => Some (r ← Registry_Get n; mret (match r with inl _ => Idle | inr s => Holds s end))
  | Holds s, AHas k => Some (Has s k;; mret (Holds s))
  | Holds s, ARead k v => Some (Get s k v;; mret (Holds s))
  | Holds s, ASet k v => Some (Set_ s k v;; mret (Holds s))
  | Holds s, ARemove k => Some (Remove s k;; mret (Holds s))
  | Holds s, AClose => Some (r ← Close_instance s; mret (match r with inl _ => Idle | inr l => Releasing l end))
  | Releasing l, ARelease => Some (z ← refCount_Dec l; mret (if bool_decide (z = 0%Z) then Unregistering l else Idle))
  | Unregistering l, ARelease => Some (b ← tryUnregister l; mret (if b : bool then ClosingBackend l else Idle))
  | ClosingBackend l, ARelease => Some (backend_Close l;; mret Idle)
  | _, _ => None
  end.

(** [closed] records the shared stores whose backend store has been closed. *)
Record config := mkConfig { heap : world; pool : list gor; closed_stores : list nat }.
Definition closes (g : gor) : list nat := match g with ClosingBackend l => [l] | _ => [] end.

(** One step of goroutine [i]. *)
Definition move (c : config) (i : nat) (a : action V) : outcome config :=
  match pool c !! i with
  | Some g =>
    match act g a with
    | Some p => r ← p (heap c); Done (mkConfig r.2 (<[ i := r.1 ]> (pool c)) (closes g ++ closed_stores c))
    | None => OutOfFuel
    end
  | None => OutOfFuel
  end.

Inductive step : config → config → Prop :=
| step_move c i a c' : move c i a = Done c' → step c c'.

(** A schedule. *)
Fixpoint sched (c : config) (l : list (nat * action V)) : outcome config :=
  match l with
  | [] => Done c
  | (i, a) :: l => c ← move c i a; sched c l
  end.

Definition start (r : R) (n : nat) : config := mkConfig (NewRegistry r) (replicate n Idle) [].

Lemma sched_rtc c l c' : sched c l = Done c' → rtc step c c'.
Proof.
  revert c. induction l as [|[i a] l IH]; intros c; simpl; [by intros [= ->]|].
  intros (c1 & Hm & Hl)%bind_Done_inv. eapply rtc_l; [by econstructor|by apply IH].
Qed.
End interleaving.
Arguments config : clear implicits.

(** ** In every interleaving *)
Section safety.
Context {R H V X Ctr W : Type} `{!Backend R H V X, !AtomicInt Ctr, !AtomicIntLaws Ctr, !SafeWaitGroup W, !SafeWaitGroupLaws W}.
Abbreviation world := (world R H Ctr W).
Abbreviation config := (config R H Ctr W).

(** A goroutine uses shared store [l] while its instance counts. *)
Definition uses (w : world) (l : nat) (g : gor) : bool :=
  match g with
  | Holds s => match instances w !! s with Some i => bool_decide (shared i = l) | None => false end
  | Releasing l' => bool_decide (l' = l)
  | _ => false
  end.
Definition owners (c : config) (l : nat) : nat := count (uses (heap c) l) (pool c).

Definition gor_ok (w : world) (g : gor) : Prop :=
  match g with
  | Idle => True
  | Holds s => ∃ i, instances w !! s = Some i ∧ idle false i ∧ shared i < length (shareds w)
  | Releasing l | Unregistering l | ClosingBackend l => l < length (shareds w)
  end.

(** [l] is out of use for good. *)
Definition dead (c : config) (l : nat) : Prop := l ∈ closed_stores c ∨ ∃ i, pool c !! i = Some (ClosingBackend l).

Record inv (c : config) : Prop := {
  inv_mu : mu (heap c) = false;
  inv_gor i g : pool c !! i = Some g → gor_ok (heap c) g;
  inv_own i j s : pool c !! i = Some (Holds s) → pool c !! j = Some (Holds s) → i = j;
  inv_count l sh : shareds (heap c) !! l = Some sh → Load (refCount sh) = Z.of_nat (owners c l);
  inv_active n l : reg_active (heap c) !! n = Some l → ∃ sh, shareds (heap c) !! l = Some sh ∧ name sh = n;
  inv_dead l : dead c l → owners c l = 0 ∧ l < length (shareds (heap c)) ∧ ∀ n, reg_active (heap c) !! n ≠ Some l
}.

Lemma inv_start r n : inv (start r n).
Proof.
  assert (Hpool : ∀ i g, pool (start (Ctr := Ctr) (W := W) (H := H) r n) !! i = Some g → g = Idle).
  { simpl. intros i g Hi. by apply lookup_replicate in Hi as [-> _]. }
  split; simpl; try done.
  - intros i g ->%Hpool. done.
  - intros i j s Hi%Hpool. done.
  - intros l [Hl|[i Hi]]; [by apply not_elem_of_nil in Hl|by apply Hpool in Hi].
Qed.

(** *** What a call on an instance changes *)
Lemma set_refCount_inv (w : world) l c r w' : set_refCount l c w = Done (r, w') →
  ∃ sh, shareds w !! l = Some sh ∧ w' = put_refCount l sh c w.
Proof. unfold set_refCount. run_M. destruct (shareds w !! l) as [sh|]; [|done]. intros [= <-]. by exists sh. Qed.

Lemma ErrorOperation_inv {A} s op (r : goerr + A) (w : world) r' w' : ErrorOperation_of s op r w = Done (r', w') → w' = w.
Proof.
  unfold ErrorOperation_of, store_name, store_shared, get_instance, get_shared. destruct r; run_M; [|by intros [= _ <-]].
  destruct (instances w !! s) as [i|]; [|done]. simpl. destruct (shareds w !! shared i); [|done]. by intros [= _ <-].
Qed.

(** A call moves the backend and nothing else. *)
Lemma call_inv {A B} (w : world) s i op (f : H → R → outcome (B * R)) (conv : B → goerr + A) r w' :
  instances w !! s = Some i → idle false i → shared i < length (shareds w) →
  with_active s op (λ h, r ← on_backend (f h); ErrorOperation_of s op (conv r)) w = Done (r, w') →
  ∃ g r', wgState g = (0%Z, false) ∧ w' = put_group s (shared i) g (set_backend r' w).
Proof.
  intros Hi Hidle [sh Hsh]%lookup_lt_is_Some_2 E.
  destruct (wgAdd_open (active i) 0 Hidle ltac:(unfold int_max; lia)) as [Hadd Hst].
  set (w1 := put_group s (shared i) (wgAdd 1 (active i)).2 w).
  assert (Hi1 : instances w1 !! s = Some (mkInstance (shared i) (wgAdd 1 (active i)).2)) by (by eapply put_group_lookup).
  unfold with_active in E. erewrite M_bind_eq in E by (by eapply active_Add_eq). fold w1 in E. rewrite Hadd in E. cbn beta iota in E.
  erewrite M_bind_eq in E by (by eapply store_shared_eq). erewrite M_bind_eq in E by (by eapply (get_shared_eq w1)).
  apply M_bind_inv in E as (b & w2 & E2 & E). apply M_bind_inv in E2 as (res & w3 & E3 & ->%ErrorOperation_inv).
  unfold on_backend in E3. apply bind_Done_inv in E3 as ([res' r'] & _ & [= _ <-]).
  erewrite M_bind_eq in E by (by eapply (active_Done_eq (set_backend r' w1))). injection E as _ <-.
  exists (wgDone (wgAdd 1 (active i)).2), r'. split; [by rewrite (wgDone_state _ _ _ Hst) by lia|].
  change (set_backend r' w1) with (put_group s (shared i) (wgAdd 1 (active i)).2 (set_backend r' w)).
  by rewrite put_group_put.
Qed.
(** *** One step keeps the invariant *)
Definition ext (w w' : world) : Prop :=
  (∀ s i, instances w !! s = Some i → ∃ i', instances w' !! s = Some i' ∧ shared i' = shared i) ∧
  length (shareds w) ≤ length (shareds w').

Lemma uses_ext (w w' : world) l g : ext w w' → gor_ok w g → uses w' l g = uses w l g.
Proof.
  intros [Hi _]. destruct g as [|s| | |]; try done. intros (i & E & _). simpl.
  destruct (Hi s i E) as (i' & E' & Hs). by rewrite E, E', Hs.
Qed.

Lemma owners_step c i g w' g' cl l : inv c → pool c !! i = Some g → ext (heap c) w' →
  owners (mkConfig w' (<[ i := g' ]> (pool c)) cl) l + Nat.b2n (uses (heap c) l g) = owners c l + Nat.b2n (uses w' l g').
Proof.
  intros Hc Hi Hext. unfold owners. simpl. pose proof (count_insert (uses w' l) _ _ _ g' Hi) as Hcount.
  rewrite (uses_ext _ _ _ _ Hext (inv_gor c Hc i g Hi)) in Hcount. rewrite Hcount. f_equal.
  apply count_ext. intros x [j Hj]%list_elem_of_lookup_1. apply uses_ext; [done|by eapply inv_gor].
Qed.

Lemma inv_step c i g w' g' : inv c → pool c !! i = Some g → ext (heap c) w' → mu w' = false →
  gor_ok w' g' →
  (∀ j gj, j ≠ i → pool c !! j = Some gj → gor_ok w' gj) →
  (∀ s, g' = Holds s → g = Holds s ∨ ∀ j, pool c !! j ≠ Some (Holds s)) →
  (∀ l sh, shareds w' !! l = Some sh →
    (Load (refCount sh) + Z.of_nat (Nat.b2n (uses (heap c) l g)) = Z.of_nat (owners c l + Nat.b2n (uses w' l g')))%Z) →
  (∀ n l, reg_active w' !! n = Some l → ∃ sh, shareds w' !! l = Some sh ∧ name sh = n) →
  (∀ l, dead c l → uses w' l g' = false ∧ ∀ n, reg_active w' !! n ≠ Some l) →
  (∀ l, g' = ClosingBackend l → owners c l = 0 ∧ ∀ n, reg_active w' !! n ≠ Some l) →
  inv (mkConfig w' (<[ i := g' ]> (pool c)) (closes g ++ closed_stores c)).
Proof.
  intros Hc Hi Hext Hmu Hg' Hothers Hown Hcount Hact Hdead Hclose.
  pose proof (λ l, owners_step c i g w' g' (closes g ++ closed_stores c) l Hc Hi Hext) as Ho.
  assert (Hpool : ∀ j gj, <[ i := g' ]> (pool c) !! j = Some gj → (j = i ∧ gj = g') ∨ (j ≠ i ∧ pool c !! j = Some gj)).
  { intros j gj Hj. destruct (decide (j = i)) as [->|Hne].
    - rewrite list_lookup_insert_eq in Hj by (by eapply lookup_lt_Some). left. by injection Hj as <-.
    - rewrite list_lookup_insert_ne in Hj by done. auto. }
  split; simpl.
  - done.
  - intros j gj [[-> ->]|[Hne Hj]]%Hpool; [done|by eapply Hothers].
  - intros j k s [[-> Hj]|[Hne Hj]]%Hpool [[-> Hk]|[Hne' Hk]]%Hpool; [done| | |by eapply (inv_own c Hc)].
    + destruct (Hown s (eq_sym Hj)) as [->|Hno]; [|by destruct (Hno k)]. by eapply (inv_own c Hc).
    + destruct (Hown s (eq_sym Hk)) as [->|Hno]; [|by destruct (Hno j)]. by eapply (inv_own c Hc).
  - intros l sh Hl. specialize (Hcount l sh Hl). specialize (Ho l). lia.
  - done.
  - intros l Hl. assert (Hd : dead c l ∨ g' = ClosingBackend l).
    { destruct Hl as [[Hin|Hin]%elem_of_app|[j [[-> ->]|[Hne Hj]]%Hpool]].
      - left. right. exists i. destruct g; simpl in Hin; try (by apply not_elem_of_nil in Hin).
        by apply list_elem_of_singleton in Hin as ->.
      - left. by left.
      - by right.
      - left. right. by exists j. }
    specialize (Ho l). destruct Hext as [_ Hlen]. destruct Hd as [Hd|Hd].
    + destruct (inv_dead c Hc l Hd) as (H0 & Hlt & _). destruct (Hdead l Hd) as [Huse Hno].
      rewrite H0, Huse in Ho. simpl in Ho. split_and!; [lia|lia|done].
    + destruct (Hclose l Hd) as [H0 Hno]. subst g'. rewrite H0 in Ho. simpl in Ho, Hg'. split_and!; [lia|lia|done].
Qed.
(** A step that leaves the instances of other goroutines and the counts' sum
    alone, from [g] to [g']. *)
Lemma gor_ok_ext (w w' : world) g : length (shareds w) ≤ length (shareds w') →
  (∀ s i, g = Holds s → instances w !! s = Some i → instances w' !! s = Some i) → gor_ok w g → gor_ok w' g.
Proof.
  intros Hlen Hi. destruct g as [|s| | |]; simpl; try done; try lia.
  intros (i & E & Hidle & Hlt). exists i. split_and!; [by eapply Hi|done|lia].
Qed.

Lemma ext_refl (w : world) : ext w w.
Proof. split; [eauto|done]. Qed.

Lemma ext_put_group (w : world) s l g i : instances w !! s = Some i → shared i = l → ext w (put_group s l g w).
Proof.
  intros Hi Hl. split; [|done]. intros s' i' Hi'. destruct (decide (s' = s)) as [->|Hne].
  - exists (mkInstance l g). split; [by eapply put_group_lookup|]. simpl. congruence.
  - exists i'. unfold put_group. simpl. by rewrite list_lookup_insert_ne.
Qed.

Lemma put_group_other (w : world) s l g s' : s' ≠ s → instances (put_group s l g w) !! s' = instances w !! s'.
Proof. intros Hne. unfold put_group. simpl. by rewrite list_lookup_insert_ne. Qed.

Lemma dead_lookup c i l : inv c → dead c l → pool c !! i ≠ Some (Releasing l) ∧
  ∀ s, pool c !! i = Some (Holds s) → uses (heap c) l (Holds s) = false.
Proof.
  intros Hc Hd. destruct (inv_dead c Hc l Hd) as (H0 & _). unfold owners in H0. split.
  - intros Hi. pose proof (count_lookup (uses (heap c) l) (pool c) i (Releasing l) Hi) as Hp.
    simpl in Hp. rewrite bool_decide_true in Hp by done. specialize (Hp eq_refl). lia.
  - intros s Hi. destruct (uses (heap c) l (Holds s)) eqn:Hu; [|done].
    pose proof (count_lookup _ _ _ _ Hi Hu). lia.
Qed.

Lemma inv_counts c l sh : inv c → shareds (heap c) !! l = Some sh → Load (refCount sh) = Z.of_nat (owners c l).
Proof. intros Hc. apply (inv_count c Hc). Qed.

Lemma inv_call c i s ins g r' : inv c → pool c !! i = Some (Holds s) → instances (heap c) !! s = Some ins →
  wgState g = (0%Z, false) →
  inv (mkConfig (put_group s (shared ins) g (set_backend r' (heap c))) (<[ i := Holds s ]> (pool c))
    (closes (Holds s) ++ closed_stores c)).
Proof.
  intros Hc Hi Hins Hg. set (w' := put_group s (shared ins) g (set_backend r' (heap c))).
  destruct (inv_gor c Hc i _ Hi) as (i' & Hi' & Hidle & Hlt). assert (i' = ins) as -> by congruence.
  assert (Hext : ext (heap c) w') by (by eapply (ext_put_group (set_backend r' (heap c)))).
  apply inv_step; try done.
  - apply Hc.
  - exists (mkInstance (shared ins) g). split; [by eapply (put_group_lookup _ _ _ (set_backend r' (heap c)))|done].
  - intros j gj Hne Hj. apply (gor_ok_ext (heap c)); [done| |by eapply inv_gor].
    intros s' i' -> Hs'. unfold w'. rewrite put_group_other; [done|]. intros ->. by destruct Hne; eapply (inv_own c Hc).
  - auto.
  - intros l sh Hl. rewrite (uses_ext _ _ l _ Hext (inv_gor c Hc i _ Hi)). rewrite (inv_count c Hc l sh Hl). lia.
  - apply (inv_active c Hc).
  - intros l Hl. rewrite (uses_ext _ _ l _ Hext (inv_gor c Hc i _ Hi)). split; [by apply (dead_lookup c i l Hc Hl)|].
    by apply (inv_dead c Hc l Hl).
Qed.

Lemma inv_backend c i g r' : inv c → pool c !! i = Some g → g = Idle ∨ (∃ l, g = ClosingBackend l) →
  inv (mkConfig (set_backend r' (heap c)) (<[ i := Idle ]> (pool c)) (closes g ++ closed_stores c)).
Proof.
  intros Hc Hi Hg. apply inv_step; try done.
  - split; [simpl; eauto|done].
  - apply Hc.
  - intros j gj _ Hj. exact (inv_gor c Hc j gj Hj).
  - intros l sh Hl. replace (uses (heap c) l g) with false by (by destruct Hg as [->|[? ->]]).
    rewrite (inv_count c Hc l sh Hl). simpl. lia.
  - apply (inv_active c Hc).
  - intros l Hl. split; [done|]. by apply (inv_dead c Hc l Hl).
Qed.

Lemma inv_get_shared c i n l sh : inv c → (Z.of_nat (length (pool c)) < int_max)%Z →
  pool c !! i = Some Idle → reg_active (heap c) !! n = Some l → shareds (heap c) !! l = Some sh →
  inv (mkConfig (add_instance l (put_refCount l sh (Inc (refCount sh)).2 (heap c)))
    (<[ i := Holds (length (instances (heap c))) ]> (pool c)) (closes Idle ++ closed_stores c)).
Proof.
  intros Hc Hmax Hi Ha Hl. set (w := heap c) in *. set (w' := add_instance _ _).
  assert (Hnew : instances w' !! length (instances w) = Some (mkInstance l wgZero)) by (by apply list_lookup_middle).
  assert (Hlen : length (shareds w') = length (shareds w)) by (unfold w'; simpl; by rewrite length_insert).
  assert (Hlt : l < length (shareds w)) by (by eapply lookup_lt_Some).
  assert (Hold : ∀ s ins, instances w !! s = Some ins → instances w' !! s = Some ins) by (intros; by apply lookup_app_l_Some).
  assert (Huse : ∀ l', uses w' l' (Holds (length (instances w))) = bool_decide (l = l')) by (intros; cbn [uses]; by rewrite Hnew).
  apply inv_step; try done.
  - fold w. split; [intros s ins E; exists ins; auto|lia].
  - apply Hc.
  - exists (mkInstance l wgZero). split; [done|]. split; [apply wgZero_state|cbn [shared]; lia].
  - intros j gj _ Hj. apply (gor_ok_ext w); [lia| |exact (inv_gor c Hc j gj Hj)]. auto.
  - intros s [= <-]. right. intros j Hj. destruct (inv_gor c Hc j _ Hj) as (ins & Hins & _).
    apply lookup_lt_Some in Hins. unfold w in Hins. lia.
  - intros l' sh' Hl'. rewrite Huse.
    destruct (lookup_put_refCount w l sh _ l' sh' Hl Hl') as (sh0 & Hsh0 & _ & _ & ->).
    pose proof (inv_count c Hc l' sh0 Hsh0) as Hcnt. destruct (decide (l' = l)) as [->|Hne].
    + rewrite bool_decide_true by done. assert (sh0 = sh) as -> by congruence.
      assert (Hle : owners c l ≤ length (pool c)) by apply count_le.
      rewrite Load_Inc by lia. cbn [uses Nat.b2n]. lia.
    + rewrite bool_decide_false by done. cbn [uses Nat.b2n]. lia.
  - intros n' l' Hl'. destruct (inv_active c Hc n' l' Hl') as (sh0 & Hsh0 & Hn).
    destruct (put_refCount_Some w l sh (Inc (refCount sh)).2 l' sh0 Hl Hsh0) as [c' E]. by eexists.
  - intros l' Hd. destruct (inv_dead c Hc l' Hd) as (_ & _ & Hno). rewrite Huse. split; [|done].
    apply bool_decide_eq_false. intros <-. by apply (Hno n).
Qed.

Lemma inv_get_new c i n h r' k : inv c → pool c !! i = Some Idle → reg_active (heap c) !! n = None → Load k = 1%Z →
  inv (mkConfig (opened n h k r' (heap c)) (<[ i := Holds (length (instances (heap c))) ]> (pool c))
    (closes Idle ++ closed_stores c)).
Proof.
  intros Hc Hi Ha Hk. set (w' := opened n h k r' (heap c)). set (L := length (shareds (heap c))).
  assert (Hnew : instances w' !! length (instances (heap c)) = Some (mkInstance L wgZero)) by (by apply list_lookup_middle).
  assert (HL : shareds w' !! L = Some (mkShared k n h)) by (by apply list_lookup_middle).
  assert (Hlen : length (shareds w') = S L) by (unfold w'; simpl; rewrite length_app; simpl; unfold L; lia).
  assert (Hold : ∀ s ins, instances (heap c) !! s = Some ins → instances w' !! s = Some ins) by (intros; by apply lookup_app_l_Some).
  assert (Huse : ∀ l', uses w' l' (Holds (length (instances (heap c)))) = bool_decide (L = l')) by (intros; cbn [uses]; by rewrite Hnew).
  assert (Hra : reg_active w' = <[ n := L ]> (reg_active (heap c))) by done.
  assert (H0 : owners c L = 0).
  { destruct (decide (0 < owners c L)) as [Hp|]; [|lia]. apply count_pos in Hp as (j & g & Hj & Hu).
    pose proof (inv_gor c Hc j g Hj) as Hg. destruct g as [|s|l| |]; try done; simpl in Hu, Hg.
    - destruct Hg as (ins & Hins & _ & Hlt). rewrite Hins in Hu. apply bool_decide_eq_true in Hu. unfold L in Hu. lia.
    - apply bool_decide_eq_true in Hu. unfold L in Hu. lia. }
  apply inv_step; try done.
  - split; [intros s ins E; exists ins; auto|]. rewrite Hlen. unfold L. lia.
  - exists (mkInstance L wgZero). split; [done|]. split; [apply wgZero_state|cbn [shared]; lia].
  - intros j gj _ Hj. apply (gor_ok_ext (heap c)); [rewrite Hlen; unfold L; lia| |exact (inv_gor c Hc j gj Hj)]. auto.
  - intros s [= <-]. right. intros j Hj. destruct (inv_gor c Hc j _ Hj) as (ins & Hins & _).
    apply lookup_lt_Some in Hins. lia.
  - intros l' sh' Hl'. rewrite Huse. apply lookup_app_Some in Hl' as [Hl'|[Hge Hl']].
    + rewrite bool_decide_false by (apply lookup_lt_Some in Hl'; unfold L; lia).
      rewrite (inv_count c Hc l' sh' Hl'). cbn [uses Nat.b2n]. lia.
    + apply list_lookup_singleton_Some in Hl' as [Hz <-]. assert (l' = L) as -> by (unfold L; lia).
      rewrite bool_decide_true by done. cbn [uses Nat.b2n refCount]. lia.
  - intros n' l'. rewrite Hra. intros [[<- <-]|[Hne Hl']]%lookup_insert_Some; [by exists (mkShared k n h)|].
    destruct (inv_active c Hc n' l' Hl') as (sh0 & Hsh0 & Hn). exists sh0. split; [by apply lookup_app_l_Some|done].
  - intros l' Hd. destruct (inv_dead c Hc l' Hd) as (_ & Hlt & Hno). rewrite Huse. split.
    + apply bool_decide_eq_false. unfold L. lia.
    + rewrite Hra. intros n' [[<- <-]|[Hne Hl']]%lookup_insert_Some; [lia|]. by apply (Hno n').
Qed.

Lemma inv_close c i s ins g : inv c → pool c !! i = Some (Holds s) → instances (heap c) !! s = Some ins →
  inv (mkConfig (put_group s (shared ins) g (heap c)) (<[ i := Releasing (shared ins) ]> (pool c))
    (closes (Holds s) ++ closed_stores c)).
Proof.
  intros Hc Hi Hins. set (w' := put_group s (shared ins) g (heap c)).
  destruct (inv_gor c Hc i _ Hi) as (i' & Hi' & Hidle & Hlt). assert (i' = ins) as -> by congruence.
  assert (Huse : ∀ l, uses (heap c) l (Holds s) = uses w' l (Releasing (shared ins))) by (intros; cbn [uses]; by rewrite Hins).
  apply inv_step; try done.
  - by eapply ext_put_group.
  - apply Hc.
  - intros j gj Hne Hj. apply (gor_ok_ext (heap c)); [done| |by eapply inv_gor].
    intros s' i' -> Hs'. unfold w'. rewrite put_group_other; [done|]. intros ->. by destruct Hne; eapply (inv_own c Hc).
  - intros l sh Hl. rewrite Huse, (inv_count c Hc l sh Hl). lia.
  - apply (inv_active c Hc).
  - intros l Hl. rewrite <- Huse. split; [by apply (dead_lookup c i l Hc Hl)|]. by apply (inv_dead c Hc l Hl).
Qed.

Lemma owners_pos c i g l : pool c !! i = Some g → uses (heap c) l g = true → 0 < owners c l.
Proof. intros Hi Hu. by eapply count_lookup. Qed.

Lemma inv_dec c i l sh g' : inv c → (Z.of_nat (length (pool c)) < int_max)%Z → pool c !! i = Some (Releasing l) →
  shareds (heap c) !! l = Some sh → g' = Idle ∨ g' = Unregistering l →
  inv (mkConfig (put_refCount l sh (Dec (refCount sh)).2 (heap c)) (<[ i := g' ]> (pool c))
    (closes (Releasing l) ++ closed_stores c)).
Proof.
  intros Hc Hmax Hi Hl Hg'. set (w' := put_refCount l sh (Dec (refCount sh)).2 (heap c)).
  assert (Hlen : length (shareds w') = length (shareds (heap c))) by (unfold w'; simpl; by rewrite length_insert).
  assert (Hlt : l < length (shareds (heap c))) by (by eapply lookup_lt_Some).
  assert (Huse : ∀ l', uses w' l' g' = false) by (by destruct Hg' as [->| ->]).
  assert (Hpos : 0 < owners c l) by (eapply owners_pos; [done|]; cbn [uses]; by rewrite bool_decide_true).
  assert (Hle : owners c l ≤ length (pool c)) by apply count_le.
  apply inv_step; try done.
  - split; [intros s ins E; by exists ins|lia].
  - apply Hc.
  - destruct Hg' as [->| ->]; [done|]. cbn [gor_ok]. lia.
  - intros j gj _ Hj. apply (gor_ok_ext (heap c)); [lia|auto|exact (inv_gor c Hc j gj Hj)].
  - intros s ->. by destruct Hg'.
  - intros l' sh' Hl'. rewrite Huse.
    destruct (lookup_put_refCount (heap c) l sh _ l' sh' Hl Hl') as (sh0 & Hsh0 & _ & _ & ->).
    pose proof (inv_count c Hc l' sh0 Hsh0) as Hcnt. cbn [uses]. destruct (decide (l' = l)) as [->|Hne].
    + rewrite bool_decide_true by done. assert (sh0 = sh) as -> by congruence. rewrite Load_Dec by lia. cbn [Nat.b2n]. lia.
    + rewrite bool_decide_false by done. cbn [Nat.b2n]. lia.
  - intros n' l' Hl'. destruct (inv_active c Hc n' l' Hl') as (sh0 & Hsh0 & Hn).
    destruct (put_refCount_Some (heap c) l sh (Dec (refCount sh)).2 l' sh0 Hl Hsh0) as [c' E]. by eexists.
  - intros l' Hd. split; [done|]. by apply (inv_dead c Hc l' Hd).
  - intros l' ->. by destruct Hg'.
Qed.

Lemma inv_retained c i l : inv c → pool c !! i = Some (Unregistering l) →
  inv (mkConfig (heap c) (<[ i := Idle ]> (pool c)) (closes (Unregistering l) ++ closed_stores c)).
Proof.
  intros Hc Hi. apply inv_step; try done.
  - apply ext_refl.
  - apply Hc.
  - intros j gj _ Hj. exact (inv_gor c Hc j gj Hj).
  - intros l' sh Hl. rewrite (inv_count c Hc l' sh Hl). cbn [uses Nat.b2n]. lia.
  - apply (inv_active c Hc).
  - intros l' Hl. split; [done|]. by apply (inv_dead c Hc l' Hl).
Qed.

Lemma inv_unregister c i l sh : inv c → pool c !! i = Some (Unregistering l) → shareds (heap c) !! l = Some sh →
  (Load (refCount sh) ≤ 0)%Z →
  inv (mkConfig (unregistered (name sh) (heap c)) (<[ i := ClosingBackend l ]> (pool c))
    (closes (Unregistering l) ++ closed_stores c)).
Proof.
  intros Hc Hi Hl Hle. pose proof (inv_count c Hc l sh Hl) as Hcnt.
  assert (Hra : reg_active (unregistered (name sh) (heap c)) = delete (name sh) (reg_active (heap c))) by done.
  apply inv_step; try done.
  - split; [simpl; eauto|done].
  - apply Hc.
  - cbn [gor_ok]. simpl. by eapply lookup_lt_Some.
  - intros j gj _ Hj. exact (inv_gor c Hc j gj Hj).
  - intros l' sh' Hl'. rewrite (inv_count c Hc l' sh' Hl'). cbn [uses Nat.b2n]. lia.
  - intros n' l'. rewrite Hra. intros [_ Hl']%lookup_delete_Some. by apply (inv_active c Hc).
  - intros l' Hd. split; [done|]. destruct (inv_dead c Hc l' Hd) as (_ & _ & Hno).
    rewrite Hra. intros n' [_ Hl']%lookup_delete_Some. by apply (Hno n').
  - intros l' [= <-]. split; [lia|]. rewrite Hra. intros n' [Hne Hl']%lookup_delete_Some.
    destruct (inv_active c Hc n' l Hl') as (sh' & Hsh' & Hn). congruence.
Qed.

(** *** The results of the steps under the lock *)
Lemma Registry_Get_inv (w : world) n r w' : mu w = false →
  (∀ l, reg_active w !! n = Some l → is_Some (shareds w !! l)) → Registry_Get n w = Done (r, w') →
  (∃ l sh, reg_active w !! n = Some l ∧ shareds w !! l = Some sh ∧ r = inr (length (instances w)) ∧
    w' = add_instance l (put_refCount l sh (Inc (refCount sh)).2 w)) ∨
  (∃ e r', r = inl e ∧ w' = set_backend r' w) ∨
  (∃ h k r', reg_active w !! n = None ∧ Load k = 1%Z ∧ r = inr (length (instances w)) ∧ w' = opened n h k r' w).
Proof.
  intros Hmu Hact E. destruct (reg_active w !! n) as [l|] eqn:Ha.
  - destruct (Hact l eq_refl) as [sh Hsh]. rewrite (Registry_Get_active w n l sh Hmu Ha Hsh) in E.
    injection E as <- <-. left. by exists l, sh.
  - destruct (access (H := H) n (reg_backend w)) as [[[e|h] r']|msg|] eqn:Eacc.
    + rewrite (Registry_Get_error w n e r' Hmu Ha Eacc) in E. injection E as <- <-. right. left. by eexists _, r'.
    + destruct (Registry_Get_new w n h r' Hmu Ha Eacc) as (k & Hk & Enew). rewrite Enew in E. injection E as <- <-.
      right. right. by exists h, k, r'.
    + exfalso. destruct w as [rb m a z shs ins]; simpl in *; subst m.
      revert E. unfold Registry_Get, lock_mu, on_backend. run_M. simpl. rewrite Ha. run_M. simpl. by rewrite Eacc.
    + exfalso. destruct w as [rb m a z shs ins]; simpl in *; subst m.
      revert E. unfold Registry_Get, lock_mu, on_backend. run_M. simpl. rewrite Ha. run_M. simpl. by rewrite Eacc.
Qed.

Lemma tryUnregister_inv (w : world) l sh b w' : mu w = false → shareds w !! l = Some sh →
  tryUnregister l w = Done (b, w') →
  (b = false ∧ w' = w) ∨ (b = true ∧ (Load (refCount sh) ≤ 0)%Z ∧ w' = unregistered (name sh) w).
Proof.
  intros Hmu Hl. destruct w as [rb m a z shs ins]; simpl in *; subst m.
  unfold tryUnregister, unregisterStore, lock_mu, unlock_mu, get_shared. run_M. simpl. rewrite Hl. run_M.
  case_bool_decide as Hc; [intros [= <- <-]; by left|]. simpl. rewrite Hl. simpl.
  destruct (a !! name sh); [|done]. case_bool_decide; [done|]. intros [= <- <-]. right. split_and!; [done|lia|done].
Qed.

Lemma inv_move c i a c' : inv c → (Z.of_nat (length (pool c)) < int_max)%Z → move c i a = Done c' →
  inv c' ∧ length (pool c') = length (pool c).
Proof.
  intros Hc Hmax. unfold move. destruct (pool c !! i) as [g|] eqn:Hi; [|done].
  destruct (act g a) as [p|] eqn:Hact; [|done]. intros ([g' w'] & Hp & [= <-])%bind_Done_inv.
  split; [|simpl; by rewrite length_insert]. cbn [fst snd]. pose proof (inv_gor c Hc i g Hi) as Hg.
  destruct g as [|s|l|l|l], a as [n|k|k v|k v|k| |]; simplify_eq/=.
  - apply M_bind_inv in Hp as (r & w1 & E & [= <- <-]).
    apply Registry_Get_inv in E as [(l & sh & Ha & Hl & -> & ->)|[(e & r' & -> & ->)|(h & k & r' & Ha & Hk & -> & ->)]];
      [| | |apply Hc|intros l Ha; destruct (inv_active c Hc n l Ha) as (sh & ? & _); eauto].
    + by apply inv_get_shared with (n := n).
    + apply (inv_backend c i Idle r'); auto.
    + by apply inv_get_new.
  - destruct Hg as (ins & Hins & Hidle & Hlt). apply M_bind_inv in Hp as (r & w1 & E & [= <- <-]).
    destruct (call_inv _ s ins _ (λ h, has h k) (λ r, r) _ _ Hins Hidle Hlt E) as (gr & r' & Hgr & ->). by apply inv_call.
  - destruct Hg as (ins & Hins & Hidle & Hlt). apply M_bind_inv in Hp as (r & w1 & E & [= <- <-]).
    destruct (call_inv _ s ins _ (λ h, get h k v) (λ r, r) _ _ Hins Hidle Hlt E) as (gr & r' & Hgr & ->). by apply inv_call.
  - destruct Hg as (ins & Hins & Hidle & Hlt). apply M_bind_inv in Hp as (r & w1 & E & [= <- <-]).
    destruct (call_inv _ s ins _ (λ h, set h k v) result_of _ _ Hins Hidle Hlt E) as (gr & r' & Hgr & ->). by apply inv_call.
  - destruct Hg as (ins & Hins & Hidle & Hlt). apply M_bind_inv in Hp as (r & w1 & E & [= <- <-]).
    destruct (call_inv _ s ins _ (λ h, remove h k) result_of _ _ Hins Hidle Hlt E) as (gr & r' & Hgr & ->). by apply inv_call.
  - destruct Hg as (ins & Hins & Hidle & Hlt). apply M_bind_inv in Hp as (r & w1 & E & [= <- <-]).
    destruct (Close_instance_open (heap c) s ins Hins Hidle) as (gr & Hgr & E'). rewrite E' in E.
    injection E as <- <-. by apply inv_close.
  - apply lookup_lt_is_Some_2 in Hg as [sh Hl]. apply M_bind_inv in Hp as (z & w1 & E & [= <- <-]).
    rewrite (refCount_Dec_eq (heap c) l sh Hl) in E. injection E as <- <-. apply inv_dec; [done..|]. case_bool_decide; auto.
  - apply lookup_lt_is_Some_2 in Hg as [sh Hl]. apply M_bind_inv in Hp as (b & w1 & E & [= <- <-]).
    destruct (tryUnregister_inv _ l sh _ _ (inv_mu c Hc) Hl E) as [[-> ->]|(-> & Hle & ->)]; [by eapply inv_retained|by apply inv_unregister].
  - apply lookup_lt_is_Some_2 in Hg as [sh Hl]. apply M_bind_inv in Hp as (r & w1 & E & [= <- <-]).
    unfold backend_Close in E. erewrite M_bind_eq in E by (by eapply get_shared_eq).
    apply M_bind_inv in E as (err & w2 & E2 & [= _ <-]). unfold on_backend in E2.
    apply bind_Done_inv in E2 as ([e r'] & _ & [= _ <-]). apply (inv_backend c i (ClosingBackend l) r'); eauto.
Qed.

Lemma inv_reachable c c' : inv c → (Z.of_nat (length (pool c)) < int_max)%Z → rtc step c c' → inv c'.
Proof.
  intros Hc Hmax Hr. revert Hc Hmax. induction Hr as [c|c c1 c' Hs _ IH]; [done|]. intros Hc Hmax. destruct Hs as [c i a c1 Hm].
  destruct (inv_move _ _ _ _ Hc Hmax Hm) as [Hc1 Hlen]. apply IH; [done|]. by rewrite Hlen.
Qed.

(** *** Where a goroutine can panic *)

(** An operation of the backend panics on [r]. *)
Inductive backend_panics (r : R) (v : string) : Prop :=
| access_panics n : access (H := H) n r = Panic v → backend_panics r v
| close_panics h : close_store (H := H) h r = Panic v → backend_panics r v
| has_panics h k : has (H := H) h k r = Panic v → backend_panics r v
| get_panics h k (into : V) : get (H := H) h k into r = Panic v → backend_panics r v
| set_panics h k (from : V) : set (H := H) h k from r = Panic v → backend_panics r v
| remove_panics h k : remove (H := H) h k r = Panic v → backend_panics r v.

(** Goroutine [i] has found the count of a store zero, which nobody uses meanwhile
    or again, but somebody else has unregistered its name. *)
Definition lost_race_of (c : config) (i : nat) : Prop :=
  ∃ l sh, pool c !! i = Some (Unregistering l) ∧ shareds (heap c) !! l = Some sh ∧ owners c l = 0 ∧
    reg_active (heap c) !! name sh = None.

(** The wait group of the registry counts the names. *)
Definition registered (w : world) : Prop := wg w = Z.of_nat (size (reg_active w)).

Lemma tryUnregister_eq_all (w : world) l sh : mu w = false → shareds w !! l = Some sh → registered w →
  tryUnregister l w =
    if bool_decide (Load (refCount sh) > 0)%Z then Done (false, w)
    else match reg_active w !! name sh with
      | Some _ => Done (true, unregistered (name sh) w)
      | None => Panic "removing an unknown store"
      end.
Proof.
  intros Hmu Hl Hreg. destruct w as [rb m a z shs ins]; unfold registered in Hreg; simpl in *; subst m.
  unfold tryUnregister, unregisterStore, lock_mu, unlock_mu, get_shared. run_M. simpl. rewrite Hl. run_M.
  case_bool_decide; [done|]. simpl. rewrite Hl. simpl. destruct (a !! name sh) as [l'|] eqn:Ha; [|done].
  rewrite bool_decide_false; [done|]. assert (size a ≠ 0); [|lia]. intros E%map_size_empty_iff. by rewrite E, lookup_empty in Ha.
Qed.

Lemma registered_unregistered (w : world) n l : registered w → reg_active w !! n = Some l → registered (unregistered n w).
Proof.
  unfold registered. simpl. intros Hreg Ha. rewrite map_size_delete_Some by done.
  assert (size (reg_active w) ≠ 0); [|lia]. intros E%map_size_empty_iff. by rewrite E, lookup_empty in Ha.
Qed.

(** A call on an instance ends as the operation of the backend does. *)
Lemma call_result {A B} (w : world) s i op (f : H → R → outcome (B * R)) (conv : B → goerr + A) :
  instances w !! s = Some i → idle false i → shared i < length (shareds w) →
  let call := with_active s op (λ h, r ← on_backend (f h); ErrorOperation_of s op (conv r)) w in
  ∃ h, match f h (reg_backend w) with
    | Done _ => ∃ r w', call = Done (r, w') ∧ reg_active w' = reg_active w ∧ wg w' = wg w
    | Panic v => call = Panic v
    | OutOfFuel => call = OutOfFuel
    end.
Proof.
  intros Hi Hidle [sh Hsh]%lookup_lt_is_Some_2 call. exists (backend sh).
  destruct (wgAdd_open (active i) 0 Hidle ltac:(unfold int_max; lia)) as [Hadd _].
  set (w1 := put_group s (shared i) (wgAdd 1 (active i)).2 w).
  assert (Hi1 : instances w1 !! s = Some (mkInstance (shared i) (wgAdd 1 (active i)).2)) by (by eapply put_group_lookup).
  assert (Ecall : call = (r ← (r ← on_backend (f (backend sh)); ErrorOperation_of s op (conv r)); active_Done s;; mret r) w1).
  { unfold call, with_active. erewrite M_bind_eq by (by eapply active_Add_eq). fold w1. rewrite Hadd. cbn beta iota.
    erewrite M_bind_eq by (by eapply store_shared_eq). by erewrite M_bind_eq by (by eapply (get_shared_eq w1)). }
  destruct (f (backend sh) (reg_backend w)) as [[b r']|v|] eqn:Ef.
  - destruct (with_active_open w s i sh op (λ h, r ← on_backend (f h); ErrorOperation_of s op (conv r))
      (match conv b with inl e => inl (ErrorOperation (name sh) op e) | inr a => inr a end) r' Hi Hidle Hsh) as (g & _ & E).
    { intros w2 i2 Hi2 Hs2 Hshs Hbe. erewrite M_bind_eq by (unfold on_backend; run_M; by rewrite Hbe, Ef).
      simpl. destruct (conv b); [|done]. unfold ErrorOperation_of.
      by erewrite M_bind_eq by (eapply (store_name_eq (set_backend r' w2)); [done|simpl; by rewrite Hs2, Hshs]). }
    eexists _, _. split; [exact E|done].
  - rewrite Ecall. unfold on_backend. run_M. change (reg_backend w1) with (reg_backend w). by rewrite Ef.
  - rewrite Ecall. unfold on_backend. run_M. change (reg_backend w1) with (reg_backend w). by rewrite Ef.
Qed.

(** What a step of a goroutine comes to. *)
Definition step_result (c : config) (i : nat) (r : outcome config) : Prop :=
  match r with
  | Done c' => registered (heap c')
  | Panic v => backend_panics (reg_backend (heap c)) v ∨ (lost_race_of c i ∧ v = "removing an unknown store"%string)
  | OutOfFuel => True
  end.

Definition part_result (c : config) (i : nat) {A} (r : outcome (A * world)) : Prop :=
  match r with
  | Done (_, w') => registered w'
  | Panic v => backend_panics (reg_backend (heap c)) v ∨ (lost_race_of c i ∧ v = "removing an unknown store"%string)
  | OutOfFuel => True
  end.

Lemma part_step (c : config) i {A} (m : M world A) (f : A → gor) (k : gor * world → config) :
  (∀ x, heap (k x) = x.2) → part_result c i (m (heap c)) →
  step_result c i (r ← (a ← m; mret (f a)) (heap c); Done (k r)).
Proof. intros Hk. unfold mbind at 2, M_bind. destruct (m (heap c)) as [[a w']| |]; simpl; [by rewrite Hk|done..]. Qed.

Lemma part_call (c : config) i {A B} s ins op (f : H → R → outcome (B * R)) (conv : B → goerr + A) :
  registered (heap c) → instances (heap c) !! s = Some ins → idle false ins → shared ins < length (shareds (heap c)) →
  (∀ h v, f h (reg_backend (heap c)) = Panic v → backend_panics (reg_backend (heap c)) v) →
  part_result c i (with_active s op (λ h, r ← on_backend (f h); ErrorOperation_of s op (conv r)) (heap c)).
Proof.
  intros Hreg Hins Hidle Hlt Hf. destruct (call_result (heap c) s ins op f conv Hins Hidle Hlt) as [h Hh].
  destruct (f h (reg_backend (heap c))) as [x|v|] eqn:E.
  - destruct Hh as (r & w' & -> & Ha & Hw). simpl. unfold registered. by rewrite Ha, Hw.
  - rewrite Hh. left. by eapply Hf.
  - by rewrite Hh.
Qed.

Lemma part_Get (c : config) i n : inv c → registered (heap c) → part_result c i (Registry_Get n (heap c)).
Proof.
  intros Hc Hreg. pose proof (inv_mu c Hc) as Hmu. destruct (reg_active (heap c) !! n) as [l|] eqn:Ha.
  - destruct (inv_active c Hc n l Ha) as (sh & Hsh & _). by rewrite (Registry_Get_active _ n l sh Hmu Ha Hsh).
  - destruct (access (H := H) n (reg_backend (heap c))) as [[[e|h] r']|v|] eqn:E.
    + by rewrite (Registry_Get_error _ n e r' Hmu Ha E).
    + destruct (Registry_Get_new _ n h r' Hmu Ha E) as (k & _ & ->).
      cbn [part_result]. unfold registered in *. cbn [wg reg_active opened].
      rewrite map_size_insert_None by done. lia.
    + replace (Registry_Get n (heap c)) with (@Panic ((sserr + nat) * world) v); [left; by econstructor|].
      destruct (heap c) as [rb mu0 a z shs ins]; simpl in *; subst mu0.
      unfold Registry_Get, lock_mu, on_backend. run_M. simpl. rewrite Ha. run_M. simpl. by rewrite E.
    + replace (Registry_Get n (heap c)) with (@OutOfFuel ((sserr + nat) * world)); [done|].
      destruct (heap c) as [rb mu0 a z shs ins]; simpl in *; subst mu0.
      unfold Registry_Get, lock_mu, on_backend. run_M. simpl. rewrite Ha. run_M. simpl. by rewrite E.
Qed.

Lemma part_tryUnregister (c : config) i l : inv c → registered (heap c) → pool c !! i = Some (Unregistering l) →
  part_result c i (tryUnregister l (heap c)).
Proof.
  intros Hc Hreg Hi. pose proof (inv_gor c Hc i _ Hi) as Hg. apply lookup_lt_is_Some_2 in Hg as [sh Hl].
  rewrite (tryUnregister_eq_all _ l sh (inv_mu c Hc) Hl Hreg). case_bool_decide as Hcount; [done|].
  destruct (reg_active (heap c) !! name sh) as [l'|] eqn:Ha; [by eapply registered_unregistered|].
  right. split; [|done]. exists l, sh. pose proof (inv_count c Hc l sh Hl). split_and!; [done..|lia|done].
Qed.

Lemma move_result c i a : inv c → registered (heap c) → step_result c i (move c i a).
Proof.
  intros Hc Hreg. unfold move. destruct (pool c !! i) as [g|] eqn:Hi; [|done].
  destruct (act g a) as [p|] eqn:Hact; [|done]. pose proof (inv_gor c Hc i g Hi) as Hg.
  destruct g as [|s|l|l|l], a as [n|k|k v|k v|k| |]; simplify_eq/=; try (destruct Hg as (ins & Hins & Hidle & Hlt));
    (apply part_step; [done|]).
  - by apply part_Get.
  - apply (part_call c i s ins _ (λ h, has h k) (λ r, r)); [done..|]. intros h v. by apply has_panics.
  - apply (part_call c i s ins _ (λ h, get h k v) (λ r, r)); [done..|]. intros h v'. by apply get_panics.
  - apply (part_call c i s ins _ (λ h, set h k v) result_of); [done..|]. intros h v'. by apply set_panics.
  - apply (part_call c i s ins _ (λ h, remove h k) result_of); [done..|]. intros h v. by apply remove_panics.
  - destruct (Close_instance_open (heap c) s ins Hins Hidle) as (g & _ & ->). done.
  - apply lookup_lt_is_Some_2 in Hg as [sh Hl]. by rewrite (refCount_Dec_eq _ l sh Hl).
  - by apply part_tryUnregister.
  - apply lookup_lt_is_Some_2 in Hg as [sh Hl]. unfold backend_Close. erewrite M_bind_eq by (by eapply get_shared_eq).
    unfold on_backend. run_M. destruct (close_store (backend sh) (reg_backend (heap c))) as [[e r']|v|] eqn:E; [done| |done].
    left. by eapply close_panics.
Qed.

Lemma registered_reachable c c' : inv c → registered (heap c) → (Z.of_nat (length (pool c)) < int_max)%Z → rtc step c c' →
  registered (heap c').
Proof.
  intros Hc Hreg Hmax Hr. revert Hc Hreg Hmax. induction Hr as [c|c c1 c' Hs _ IH]; [done|]. intros Hc Hreg Hmax.
  destruct Hs as [c i a c1 Hm]. destruct (inv_move _ _ _ _ Hc Hmax Hm) as [Hc1 Hlen].
  pose proof (move_result c i a Hc Hreg) as Hres. rewrite Hm in Hres. apply IH; [done|done|by rewrite Hlen].
Qed.
End safety.

(** ** Schedules over the backend in memory *)
#[local] Existing Instance string_convert.
#[local] Instance table_backend : Backend (MemoryStore string) string string string := memory_backend map_to_list.
Definition table_config : Type := config (MemoryStore string) string Z (Z * bool).
Definition new_config (n : nat) : table_config := start NewMemoryStoreBackend n.
Definition table_move : table_config → nat → action string → outcome table_config := move.
Definition table_sched : table_config → list (nat * action string) → outcome table_config := sched.

(** Goroutine 0 decrements the count to zero; before it unregisters the store,
    goroutine 1 opens and closes it, which unregisters it. *)
Definition lost_race : list (nat * action string) :=
  [(0, AGet "a"); (0, AClose); (0, ARelease);
   (1, AGet "a"); (1, AClose); (1, ARelease); (1, ARelease)].

(** The same, but goroutine 2 opens the name anew before goroutine 0 goes on. *)
Definition lost_race_reopened : list (nat * action string) :=
  lost_race ++ [(1, ARelease); (2, AGet "a"); (0, ARelease); (0, ARelease)].



(** C40. There is one way in which goroutines that share the registry, each with
    instances of its own, can panic, besides a panic of the backend itself, and in
    it they do: [Release] decrements the count and unregisters the store in two
    steps, and in between another goroutine may have opened and closed the store.
    Both find the count zero, and the one that comes late finds the name gone.
    In every interleaving of any number of goroutines on any backend, a step that
    panics is an operation of the backend that does, or that of a goroutine that
    is about to unregister a store that nobody uses and whose name is not
    registered any more; and that step always panics.  (A lock that nobody would
    give back counts as a panic: there is none.) *)
Theorem only_release_race_panics {R H V X Ctr W : Type} `{!Backend R H V X, !AtomicInt Ctr, !AtomicIntLaws Ctr,
    !SafeWaitGroup W, !SafeWaitGroupLaws W} (r : R) (n : nat) (c : config R H Ctr W) (i : nat) :
  (Z.of_nat n < int_max)%Z → rtc step (start r n) c →
  (∀ a v, move c i a = Panic v →
     backend_panics (H := H) (reg_backend (heap c)) v ∨ (a = ARelease ∧ lost_race_of c i ∧ v = "removing an unknown store"%string)) ∧
  (lost_race_of c i → move c i ARelease = Panic "removing an unknown store").
Proof.
  intros Hn Hr. assert (Hlen : (Z.of_nat (length (pool (start (H := H) (Ctr := Ctr) (W := W) r n))) < int_max)%Z)
    by (simpl; by rewrite length_replicate).
  pose proof (inv_reachable _ _ (inv_start r n) Hlen Hr) as Hc.
  assert (Hreg : registered (heap c)) by (by apply (registered_reachable _ _ (inv_start r n) eq_refl Hlen Hr)).
  split.
  - intros a v E. pose proof (move_result c i a Hc Hreg) as Hres. rewrite E in Hres.
    destruct Hres as [?|[Hrace ->]]; [by left|right]. split; [|done].
    destruct Hrace as (l & sh & Hi & _). unfold move in E. rewrite Hi in E. by destruct a.
  - intros (l & sh & Hi & Hl & Ho & Ha). unfold move. rewrite Hi. simpl.
    unfold mbind at 2, M_bind. rewrite (tryUnregister_eq_all _ l sh (inv_mu c Hc) Hl Hreg).
    rewrite bool_decide_false by (rewrite (inv_count c Hc l sh Hl); lia). by rewrite Ha.
Qed.

(** The race is lost: goroutine 0 panics. *)
Lemma only_release_race_panics_witness :
  ∃ c : table_config, rtc step (new_config 2) c ∧ lost_race_of c 0 ∧ table_move c 0 ARelease = Panic "removing an unknown store".
Proof.
  destruct (table_sched (new_config 2) lost_race) as [c| |] eqn:E; [|vm_compute in E; discriminate E..].
  pose proof (sched_rtc _ _ _ E) as Hr. exists c. split; [exact Hr|].
  assert (Hrace : lost_race_of c 0).
  { vm_compute in E. injection E as <-. exists 0. eexists. split; [reflexivity|]. split; [reflexivity|]. split; reflexivity. }
  split; [exact Hrace|].
  destruct (only_release_race_panics NewMemoryStoreBackend 2 c 0 eq_refl Hr) as [_ Hp]. exact (Hp Hrace).
Defined.

(** If a third goroutine opens the name again in between, the late
    unregistration removes the new store from the registry while it is in use, and
    the old backend store is closed twice: the name is no longer registered, the
    registry counts no store, and so [Registry.Close] would not wait for the
    goroutine that holds it. *)
Theorem release_race_unregisters_store_in_use :
  ∃ c, table_sched (new_config 3) lost_race_reopened = Done c ∧
    pool c = [Idle; Idle; Holds 2] ∧ closed_stores c = [0; 0] ∧
    shared <$> instances (heap c) !! 2 = Some 1 ∧
    reg_active (heap c) !! "a"%string = None ∧ wg (heap c) = 0%Z.
Proof. eexists. split; [vm_compute; reflexivity|]. repeat split. Qed.
