(* ===== verification/SharedInstance.v ===== *)
(** * Store instances shared by several goroutines

    The goroutines of an input, of the pipeline's acknowledgements and of the cleaner
    work on the one instance that the cursors' store holds.  Here any goroutine may
    call any instance; the steps of a call on an instance are the [Add] on its wait
    group, the operation of the backend and the deferred [Done], those of [Close] are
    its four lines, and the steps of all goroutines interleave. *)

From stdpp Require Import base gmap strings list fin_maps relations.
From Stdlib Require Import ZArith Lia.
From S2P Require Import Prelude Fs Backend Concert Storetest Statestore StatestoreFacts.
From S2P Require Interleaving.

(** The operations on an instance and their results. *)
Inductive call (V : Type) :=
| CHas (key : string)
| CGet (key : string) (into : V)
| CSet (key : string) (from : V)
| CRemove (key : string).
Arguments CHas {_} _.
Arguments CGet {_} _ _.
Arguments CSet {_} _ _.
Arguments CRemove {_} _.

Inductive answer (V : Type) := Found (b : bool) | Value (v : V) | Nothing.
Arguments Found {_} _.
Arguments Value {_} _.
Arguments Nothing {_}.

(** Where a goroutine is: between calls; in a call, before the backend's operation or
    before the deferred [Done]; in [Close], before [active.Close], [active.Done] or
    [active.Wait]; or in [Release]. *)
Inductive gor (V : Type) :=
| Idle
| Calling (s : loc) (op : call V)
| Returning (s : loc) (r : sserr + answer V)
| Closing (s : loc)
| Leaving (s : loc)
| Waiting (s : loc)
| Releasing (l : loc)
| Unregistering (l : loc)
| ClosingBackend (l : loc).
Arguments Idle {_}.
Arguments Calling {_} _ _.
Arguments Returning {_} _ _.
Arguments Closing {_} _.
Arguments Leaving {_} _.
Arguments Waiting {_} _.
Arguments Releasing {_} _.
Arguments Unregistering {_} _.
Arguments ClosingBackend {_} _.

(** What a goroutine starts, or that it goes on with what it does. *)
Inductive action (V : Type) :=
| AGet (name : string)
| ACall (s : loc) (op : call V)
| AClose (s : loc)
| ANext.
Arguments AGet {_} _.
Arguments ACall {_} _ _.
Arguments AClose {_} _.
Arguments ANext {_}.

Section system.
Context {R H V X Ctr W : Type} `{!Backend R H V X, !AtomicInt Ctr, !SafeWaitGroup W}.
Abbreviation world := (world R H Ctr W).
Abbreviation gor := (gor V).

Definition operation (op : call V) : string :=
  match op with CHas _ => "store/has" | CGet _ _ | CSet _ _ => "store/get" | CRemove _ => "store/remove" end.

(** The body of a call, between [Add] and [Done]. *)
Definition as_answer {A} (f : A → answer V) (r : sserr + A) : sserr + answer V :=
  match r with inl err => inl err | inr a => inr (f a) end.
Definition call_body (s : loc) (op : call V) (h : H) : M world (sserr + answer V) :=
  match op with
  | CHas k => r ← on_backend (has h k); r ← ErrorOperation_of s (operation op) r; mret (as_answer Found r)
  | CGet k v => r ← on_backend (get h k v); r ← ErrorOperation_of s (operation op) r; mret (as_answer Value r)
  | CSet k v => err ← on_backend (set h k v); r ← ErrorOperation_of s (operation op) (result_of err); mret (as_answer (λ _, Nothing) r)
  | CRemove k => err ← on_backend (remove h k); r ← ErrorOperation_of s (operation op) (result_of err); mret (as_answer (λ _, Nothing) r)
  end.

(** The three steps of a call. *)
Definition call_begin (s : loc) (op : call V) : M world gor :=
  err ← active_Add s;
  match err with Some _ => store_name s;; mret Idle | None => mret (Calling s op) end.
Definition call_backend (s : loc) (op : call V) : M world gor :=
  l ← store_shared s;
  sh ← get_shared l;
  r ← call_body s op (backend sh);
  mret (Returning s r).
Definition call_end (s : loc) : M world gor := active_Done s;; mret Idle.

(** The next step of a goroutine, if the action applies. *)
Definition act (g : gor) (a : action V) : option (M world gor) :=
  match g, a with
  | Idle, AGet n => Some (Registry_Get n;; mret Idle)
  | Idle, ACall s op => Some (call_begin s op)
  | Idle, AClose s => Some (err ← active_Add s; match err with Some _ => store_name s;; mret Idle | None => mret (Closing s) end)
  | Calling s op, ANext => Some (call_backend s op)
  | Returning s _, ANext => Some (call_end s)
  | Closing s, ANext => Some (active_Close s;; mret (Leaving s))
  | Leaving s, ANext => Some (active_Done s;; mret (Waiting s))
  | Waiting s, ANext => Some (active_Wait s;; l ← store_shared s; mret (Releasing l))
  | Releasing l, ANext => Some (z ← refCount_Dec l; mret (if bool_decide (z = 0%Z) then Unregistering l else Idle))
  | Unregistering l, ANext => Some (b ← tryUnregister l; mret (if b : bool then ClosingBackend l else Idle))
  | ClosingBackend l, ANext => Some (backend_Close l;; mret Idle)
  | _, _ => None
  end.

(** The goroutines, and the shared stores whose backend store has been closed. *)
Record config := mkConfig { heap : world; pool : list gor; closed_stores : list loc }.
Definition closes (g : gor) : list loc := match g with ClosingBackend l => [l] | _ => [] end.

Definition move (c : config) (i : nat) (a : action V) : outcome config :=
  match pool c !! i with
  | Some g =>
    match act g a with
    | Some p => r ← p (heap c); Done (mkConfig r.2 (<[ i := r.1 ]> (pool c)) (closes g ++ closed_stores c))
    | None => OutOfFuel
    end
  | None => OutOfFuel
  end.

(** [Close] of an instance is not called while another [Close] of it runs. *)
Definition in_Close (s : loc) (g : gor) : bool :=
  match g with Closing s' | Leaving s' | Waiting s' => bool_decide (s' = s) | _ => false end.
Definition may (c : config) (a : action V) : bool :=
  match a with AClose s => bool_decide (count (in_Close s) (pool c) = 0) | _ => true end.
Inductive step : config → config → Prop :=
| step_move c i a c' : may c a = true → move c i a = Done c' → step c c'.

(** A schedule, and whether [Close] is called as it may. *)
Fixpoint sched (c : config) (l : list (nat * action V)) : outcome (config * bool) :=
  match l with
  | [] => Done (c, true)
  | (i, a) :: l => c' ← move c i a; r ← sched c' l; Done (r.1, may c a && r.2)
  end.
Lemma sched_reach c l c' : sched c l = Done (c', true) → rtc step c c'.
Proof.
  revert c. induction l as [|[i a] l IH]; intros c; simpl; [by intros [= ->]|].
  intros (c1 & Hm & ([c2 b] & Hl & Hr)%bind_Done_inv)%bind_Done_inv. injection Hr as <- [Hmay ->]%andb_prop.
  eapply rtc_l; [by econstructor|by apply IH].
Qed.
Definition start (r : R) (n : nat) : config := mkConfig (NewRegistry r) (replicate n Idle) [].
End system.
Arguments config : clear implicits.

(** ** The steps are those of the calls *)
Section calls.
Context {R H V X Ctr W : Type} `{!Backend R H V X, !AtomicInt Ctr, !AtomicIntLaws Ctr, !SafeWaitGroup W, !SafeWaitGroupLaws W}.
Abbreviation world := (world R H Ctr W).

(** The method, with its result as an answer. *)
Definition call_method (s : loc) (op : call V) : M world (sserr + answer V) :=
  match op with
  | CHas k => r ← Has s k; mret (as_answer Found r)
  | CGet k v => r ← Get s k v; mret (as_answer Value r)
  | CSet k v => r ← Set_ s k v; mret (as_answer (λ _, Nothing) r)
  | CRemove k => r ← Remove s k; mret (as_answer (λ _, Nothing) r)
  end.

(** A goroutine that is not interrupted runs the method. *)
Definition run_call (s : loc) (op : call V) : M world (sserr + answer V) :=
  g ← call_begin s op;
  match g with
  | Calling s op =>
    g ← call_backend s op;
    match g with Returning s r => call_end s (V := V);; mret r | _ => mret (inr Nothing) end
  | _ => n ← store_name s; mret (inl (ErrorClosed n (operation op)))
  end.

Lemma call_method_frame s op (w : world) : call_method s op w = with_active s (operation op) (call_body s op) w.
Proof.
  destruct op; unfold call_method, Has, Get, Set_, Remove, with_active, call_body, mbind, M_bind, mret, M_ret;
    destruct (active_Add s w) as [[[e|] w1]| |]; try done;
    try (destruct (store_name s w1) as [[n w2]| |]; done);
    destruct (store_shared s w1) as [[l w2]| |]; try done; destruct (get_shared l w2) as [[sh w3]| |]; try done;
    destruct (on_backend _ w3) as [[b w4]| |]; try done;
    destruct (ErrorOperation_of _ _ _ w4) as [[b' w5]| |]; try done; by destruct (active_Done s w5) as [[? ?]| |].
Qed.

Lemma call_by_steps s op (w : world) i : instances w !! s = Some i → is_Some (shareds w !! shared i) →
  run_call s op w = call_method s op w.
Proof.
  intros Hi [sh Hsh]. rewrite call_method_frame. unfold run_call, call_begin, with_active.
  assert (Hn : ∀ w1 : world, instances w1 = instances (put_group s (shared i) (wgAdd 1 (active i)).2 w) → shareds w1 = shareds w →
    store_name s w1 = Done (name sh, w1)).
  { intros w1 E1 E2. eapply store_name_eq; [rewrite E1; by eapply put_group_lookup|by rewrite E2]. }
  unfold mbind, M_bind, mret, M_ret. rewrite (active_Add_eq w s i Hi). cbn beta iota. destruct (wgAdd 1 (active i)).1.
  - by rewrite !Hn.
  - unfold call_backend, call_end, mbind, M_bind, mret, M_ret.
    destruct (store_shared s _) as [[l w2]| |]; try done. destruct (get_shared l w2) as [[sh' w3]| |]; try done.
    destruct (call_body s op (backend sh') w3) as [[r w4]| |]; try done. by destruct (active_Done s w4) as [[[] w5]| |].
Qed.
End calls.

(** ** In every interleaving *)
Section safety.
Context {R H V X Ctr W : Type} `{!Backend R H V X, !AtomicInt Ctr, !AtomicIntLaws Ctr, !SafeWaitGroup W, !SafeWaitGroupLaws W}.
Abbreviation world := (world R H Ctr W).
Abbreviation config := (config R H V Ctr W).
Abbreviation gor := (gor V).
Implicit Types (c : config) (w : world).

(** What a goroutine does with instance [s]. *)
Definition in_call (s : loc) (g : gor) : bool :=
  match g with Calling s' _ | Returning s' _ => bool_decide (s' = s) | _ => false end.
Definition is_closing (s : loc) (g : gor) : bool := match g with Closing s' => bool_decide (s' = s) | _ => false end.
Definition is_leaving (s : loc) (g : gor) : bool := match g with Leaving s' => bool_decide (s' = s) | _ => false end.
Definition is_waiting (s : loc) (g : gor) : bool := match g with Waiting s' => bool_decide (s' = s) | _ => false end.
Definition on (g : gor) : option loc :=
  match g with Calling s _ | Returning s _ | Closing s | Leaving s | Waiting s => Some s | _ => None end.

(** The wait group counts the goroutines that are in a call or have not left yet; an
    instance is closed by one goroutine, which waits for the calls. *)
Definition ins_ok (i : instance W) (calls closing leaving waiting : nat) : Prop :=
  (wgState (active i)).1 = Z.of_nat (calls + closing + leaving) ∧
  if is_open i then closing ≤ 1 ∧ leaving = 0 ∧ waiting = 0
  else closing = 0 ∧ leaving + waiting ≤ 1 ∧ (leaving + waiting = 0 → calls = 0).
Definition ins_ok_in (p : list gor) (s : loc) (i : instance W) : Prop :=
  ins_ok i (count (in_call s) p) (count (is_closing s) p) (count (is_leaving s) p) (count (is_waiting s) p).

(** The users of a shared store: the open instances, and the goroutines that closed
    one and have not given it back yet. *)
Definition holder (w : world) (l : loc) (g : gor) : bool :=
  match g with
  | Leaving s | Waiting s => match instances w !! s with Some i => bool_decide (shared i = l) | None => false end
  | Releasing l' => bool_decide (l' = l)
  | _ => false
  end.
Definition owners (c : config) (l : loc) : nat := users (heap c) l + count (holder (heap c) l) (pool c).

Definition gor_ok (w : world) (g : gor) : Prop :=
  match g with
  | Idle => True
  | Calling s _ | Returning s _ | Closing s | Leaving s | Waiting s => s < length (instances w)
  | Releasing l | Unregistering l | ClosingBackend l => l < length (shareds w)
  end.

Definition dead (c : config) (l : loc) : Prop := l ∈ closed_stores c ∨ ∃ i, pool c !! i = Some (ClosingBackend l).

Record inv (c : config) : Prop := {
  inv_mu : mu (heap c) = false;
  inv_gor i g : pool c !! i = Some g → gor_ok (heap c) g;
  inv_ins s i : instances (heap c) !! s = Some i → shared i < length (shareds (heap c)) ∧ ins_ok_in (pool c) s i;
  inv_count l sh : shareds (heap c) !! l = Some sh → Load (refCount sh) = Z.of_nat (owners c l);
  inv_active n l : reg_active (heap c) !! n = Some l → ∃ sh, shareds (heap c) !! l = Some sh ∧ name sh = n;
  inv_dead l : dead c l → owners c l = 0 ∧ l < length (shareds (heap c)) ∧ ∀ n, reg_active (heap c) !! n ≠ Some l
}.

Lemma inv_at_start r n : inv (start r n).
Proof.
  assert (Hpool : ∀ i g, pool (start (V := V) (Ctr := Ctr) (W := W) (H := H) r n) !! i = Some g → g = Idle).
  { simpl. intros i g Hi. by apply lookup_replicate in Hi as [-> _]. }
  split; simpl; try done.
  - intros i g ->%Hpool. done.
  - intros l [Hl|[i Hi]]; [by apply not_elem_of_nil in Hl|by apply Hpool in Hi].
Qed.

(** *** Counting *)
Lemma count_zero {A} (f : A → bool) l : (∀ i x, l !! i = Some x → f x = false) → count f l = 0.
Proof.
  intros Hf. destruct (decide (0 < count f l)) as [Hp|]; [|lia]. apply count_pos in Hp as (i & x & Hi & Hx).
  by rewrite (Hf i x Hi) in Hx.
Qed.

Lemma on_other s g : on g ≠ Some s →
  in_call s g = false ∧ is_closing s g = false ∧ is_leaving s g = false ∧ is_waiting s g = false.
Proof. destruct g; simpl; intros Hs; split_and!; try done; apply bool_decide_eq_false; congruence. Qed.

Lemma ins_ok_other c i g g' s ins : pool c !! i = Some g → on g ≠ Some s → on g' ≠ Some s →
  ins_ok_in (pool c) s ins → ins_ok_in (<[ i := g' ]> (pool c)) s ins.
Proof.
  intros Hi (G1 & G2 & G3 & G4)%on_other (G1' & G2' & G3' & G4')%on_other. unfold ins_ok_in.
  pose proof (count_insert (in_call s) _ _ _ g' Hi) as E1. pose proof (count_insert (is_closing s) _ _ _ g' Hi) as E2.
  pose proof (count_insert (is_leaving s) _ _ _ g' Hi) as E3. pose proof (count_insert (is_waiting s) _ _ _ g' Hi) as E4.
  rewrite G1, G1' in E1. rewrite G2, G2' in E2. rewrite G3, G3' in E3. rewrite G4, G4' in E4.
  by repeat match goal with E : _ + Nat.b2n false = _ + Nat.b2n false |- _ => apply Nat.add_cancel_r in E; rewrite E; clear E end.
Qed.

(** No goroutine is on an instance that does not exist yet. *)
Lemma ins_ok_fresh c s ins : inv c → length (instances (heap c)) ≤ s → active ins = wgZero → ins_ok_in (pool c) s ins.
Proof.
  intros Hc Hs Ha. assert (Hz : ∀ i g, pool c !! i = Some g → on g ≠ Some s).
  { intros i g Hi Hon. pose proof (inv_gor c Hc i g Hi) as Hg. destruct g; simpl in Hg, Hon; try done; injection Hon as ->; lia. }
  unfold ins_ok_in. rewrite !count_zero by (intros i g Hi; by destruct (on_other s g (Hz i g Hi)) as (? & ? & ? & ?)).
  unfold ins_ok, is_open. rewrite Ha, wgZero_state. simpl. lia.
Qed.

Abbreviation ext := (Interleaving.ext (R := R) (H := H) (Ctr := Ctr) (W := W)).

Lemma user_ok_ext w w' g : ext w w' → gor_ok w g → gor_ok w' g.
Proof.
  intros [Hi Hl]. assert (Hs : ∀ s, s < length (instances w) → s < length (instances w')).
  { intros s [i E]%lookup_lt_is_Some_2. destruct (Hi s i E) as (i' & E' & _). by eapply lookup_lt_Some. }
  destruct g; simpl; try done; try lia; apply Hs.
Qed.

Lemma holder_ext w w' l g : ext w w' → gor_ok w g → holder w' l g = holder w l g.
Proof.
  intros [Hi _]. destruct g as [| | | |s|s| | |]; try done; simpl; intros [i E]%lookup_lt_is_Some_2;
    destruct (Hi s i E) as (i' & E' & Hs); by rewrite E, E', Hs.
Qed.

Lemma owners_change c i g w' g' cl l : inv c → pool c !! i = Some g → ext (heap c) w' →
  owners (mkConfig w' (<[ i := g' ]> (pool c)) cl) l + Nat.b2n (holder (heap c) l g) + users (heap c) l =
    owners c l + Nat.b2n (holder w' l g') + users w' l.
Proof.
  intros Hc Hi Hext. unfold owners. simpl. pose proof (count_insert (holder w' l) _ _ _ g' Hi) as Hcount.
  rewrite (holder_ext _ _ _ _ Hext (inv_gor c Hc i g Hi)) in Hcount.
  rewrite (count_ext (holder w' l) (holder (heap c) l) (pool c)) in Hcount; [lia|].
  intros x [j Hj]%list_elem_of_lookup_1. apply holder_ext; [done|by eapply inv_gor].
Qed.

(** *** One step *)

(** The step of a goroutine, from [g] to [g'], by what it does to the users. *)
Lemma inv_change c i g w' g' : inv c → pool c !! i = Some g → ext (heap c) w' → mu w' = false → gor_ok w' g' →
  (∀ s ins, instances w' !! s = Some ins → shared ins < length (shareds w') ∧ ins_ok_in (<[ i := g' ]> (pool c)) s ins) →
  (∀ l sh, shareds w' !! l = Some sh →
    (Load (refCount sh) + Z.of_nat (Nat.b2n (holder (heap c) l g) + users (heap c) l) =
      Z.of_nat (owners c l + Nat.b2n (holder w' l g') + users w' l))%Z) →
  (∀ n l, reg_active w' !! n = Some l → ∃ sh, shareds w' !! l = Some sh ∧ name sh = n) →
  (∀ l, dead c l ∨ g' = ClosingBackend l →
    owners c l + Nat.b2n (holder w' l g') + users w' l = Nat.b2n (holder (heap c) l g) + users (heap c) l ∧
    l < length (shareds w') ∧ ∀ n, reg_active w' !! n ≠ Some l) →
  inv (mkConfig w' (<[ i := g' ]> (pool c)) (closes g ++ closed_stores c)).
Proof.
  intros Hc Hi Hext Hmu Hg' Hins Hcount Hact Hdead.
  pose proof (λ l, owners_change c i g w' g' (closes g ++ closed_stores c) l Hc Hi Hext) as Ho.
  split; simpl; [done| |done| |done|].
  - intros j gj Hj. destruct (decide (j = i)) as [->|Hne].
    + rewrite list_lookup_insert_eq in Hj by (by eapply lookup_lt_Some). by injection Hj as <-.
    + rewrite list_lookup_insert_ne in Hj by done. eapply user_ok_ext; [done|by eapply inv_gor].
  - intros l sh Hl. specialize (Hcount l sh Hl). specialize (Ho l). lia.
  - intros l Hl. assert (Hd : dead c l ∨ g' = ClosingBackend l).
    { destruct Hl as [[Hin|Hin]%elem_of_app|[j Hj]].
      - left. right. exists i. destruct g; simpl in Hin; try (by apply not_elem_of_nil in Hin).
        by apply list_elem_of_singleton in Hin as ->.
      - left. by left.
      - simpl in Hj. destruct (decide (j = i)) as [->|Hne].
        + rewrite list_lookup_insert_eq in Hj by (by eapply lookup_lt_Some). right. by injection Hj.
        + rewrite list_lookup_insert_ne in Hj by done. left. right. by exists j. }
    destruct (Hdead l Hd) as (H0 & Hlt & Hno). specialize (Ho l). split_and!; [lia|done|done].
Qed.

(** A step on instance [s], whose shared store is [l]. *)
Definition near (s : loc) (l : loc) (g : gor) : Prop :=
  match g with
  | Idle => True
  | Calling s' _ | Returning s' _ | Closing s' | Leaving s' | Waiting s' => s' = s
  | Releasing l' => l' = l
  | Unregistering _ | ClosingBackend _ => False
  end.
Definition ends (g : gor) : bool := match g with Leaving _ | Waiting _ | Releasing _ => true | _ => false end.

Lemma holder_near w s ins l g : instances w !! s = Some ins → near s (shared ins) g →
  holder w l g = bool_decide (shared ins = l) && ends g.
Proof.
  intros Hi. destruct g; simpl; try (by rewrite andb_false_r); try done; intros ->; rewrite ?Hi, andb_true_r; done.
Qed.

Lemma inv_group c i g s ins gr r' g' : inv c → pool c !! i = Some g → instances (heap c) !! s = Some ins →
  near s (shared ins) g → near s (shared ins) g' →
  ins_ok_in (<[ i := g' ]> (pool c)) s (mkInstance (shared ins) gr) →
  Nat.b2n (is_open (mkInstance (shared ins) gr)) + Nat.b2n (ends g') = Nat.b2n (is_open ins) + Nat.b2n (ends g) →
  inv (mkConfig (put_group s (shared ins) gr (set_backend r' (heap c))) (<[ i := g' ]> (pool c)) (closes g ++ closed_stores c)).
Proof.
  intros Hc Hi Hs Hg Hg' Hok Heq. set (w' := put_group s (shared ins) gr (set_backend r' (heap c))).
  assert (Hs' : instances w' !! s = Some (mkInstance (shared ins) gr)) by (by eapply (put_group_lookup _ _ _ (set_backend r' (heap c)))).
  destruct (inv_ins c Hc s ins Hs) as [Hlt _].
  assert (Hbal : ∀ l, Nat.b2n (holder (heap c) l g) + users (heap c) l = Nat.b2n (holder w' l g') + users w' l).
  { intros l. pose proof (users_put_group (set_backend r' (heap c)) s ins gr l Hs) as Hu. fold w' in Hu.
    change (users (set_backend r' (heap c)) l) with (users (heap c) l) in Hu. unfold open_on in Hu. cbn [shared] in Hu.
    rewrite (holder_near _ s ins l g Hs Hg). pose proof (holder_near w' s _ l g' Hs' Hg') as ->. cbn [shared].
    destruct (bool_decide (shared ins = l)); simpl in *; lia. }
  assert (Hon : ∀ s', s' ≠ s → on g ≠ Some s' ∧ on g' ≠ Some s').
  { intros s' Hne. split; [destruct g|destruct g']; simpl in *; try done; congruence. }
  apply inv_change; [done..| |apply Hc| | | | |].
  - by eapply (Interleaving.ext_put_group (set_backend r' (heap c))).
  - apply lookup_lt_Some in Hs'. destruct g'; simpl in *; try done; subst; done.
  - intros s' i' [[-> ->]|[Hne Hi']]%lookup_put_group; [by split|]. destruct (inv_ins c Hc s' i' Hi') as [Hl' Hok'].
    split; [done|]. destruct (Hon s' Hne). by eapply ins_ok_other.
  - intros l sh Hl. rewrite (inv_count c Hc l sh Hl), (Hbal l). lia.
  - apply (inv_active c Hc).
  - intros l [Hd| ->]; [|done]. destruct (inv_dead c Hc l Hd) as (H0 & Hl & Hno). specialize (Hbal l). split_and!; [lia|done|done].
Qed.

(** A step that leaves the instances alone but for new ones. *)
Lemma inv_other c i g w' g' : inv c → pool c !! i = Some g → on g = None → on g' = None → mu w' = false → gor_ok w' g' →
  length (shareds (heap c)) ≤ length (shareds w') →
  (∀ s ins, instances (heap c) !! s = Some ins → instances w' !! s = Some ins) →
  (∀ s ins, instances w' !! s = Some ins → instances (heap c) !! s = Some ins ∨
    (length (instances (heap c)) ≤ s ∧ active ins = wgZero ∧ shared ins < length (shareds w'))) →
  (∀ l sh, shareds w' !! l = Some sh →
    (Load (refCount sh) + Z.of_nat (Nat.b2n (holder (heap c) l g) + users (heap c) l) =
      Z.of_nat (owners c l + Nat.b2n (holder w' l g') + users w' l))%Z) →
  (∀ n l, reg_active w' !! n = Some l → ∃ sh, shareds w' !! l = Some sh ∧ name sh = n) →
  (∀ l, dead c l ∨ g' = ClosingBackend l →
    owners c l + Nat.b2n (holder w' l g') + users w' l = Nat.b2n (holder (heap c) l g) + users (heap c) l ∧
    l < length (shareds w') ∧ ∀ n, reg_active w' !! n ≠ Some l) →
  inv (mkConfig w' (<[ i := g' ]> (pool c)) (closes g ++ closed_stores c)).
Proof.
  intros Hc Hi Hg Hg' Hmu Hok Hlen Hold Hnew Hcount Hact Hdead. apply inv_change; try done.
  - split; [|done]. intros s ins E. exists ins. auto.
  - intros s ins [E|(Hge & Ha & Hl)]%Hnew.
    + destruct (inv_ins c Hc s ins E) as [Hl Hins]. split; [lia|]. eapply ins_ok_other; [done|by rewrite Hg|by rewrite Hg'|done].
    + split; [done|]. eapply ins_ok_other; [done|by rewrite Hg|by rewrite Hg'|by apply ins_ok_fresh].
Qed.

(** *** The steps on an instance *)
Lemma get_instance_inv w s (i : instance W) w' : get_instance s w = Done (i, w') → instances w !! s = Some i ∧ w' = w.
Proof. unfold get_instance. run_M. destruct (instances w !! s); [|done]. by intros [= <- <-]. Qed.

Lemma active_Add_inv w s r w' : active_Add s w = Done (r, w') → ∃ i, instances w !! s = Some i ∧
  r = (wgAdd 1 (active i)).1 ∧ w' = put_group s (shared i) (wgAdd 1 (active i)).2 w.
Proof.
  intros E. pose proof E as E0. unfold active_Add in E. apply M_bind_inv in E as (i & w1 & [Hi ->]%get_instance_inv & _).
  rewrite (active_Add_eq w s i Hi) in E0. injection E0 as <- <-. by exists i.
Qed.

Lemma store_name_inv w s n w' : store_name s w = Done (n, w') → w' = w.
Proof.
  unfold store_name, store_shared, get_shared. intros (l & w1 & E & E')%M_bind_inv.
  apply M_bind_inv in E as (i & w2 & [_ ->]%get_instance_inv & [= _ <-]). apply M_bind_inv in E' as (sh & w3 & E3 & [= _ <-]).
  revert E3. run_M. destruct (shareds w !! l); [|done]. by intros [= _ <-].
Qed.

Lemma call_body_inv s (op : call V) (h : H) w r w' : call_body s op h w = Done (r, w') → ∃ r', w' = set_backend r' w.
Proof.
  destruct op; intros (b & w1 & E1 & (b' & w2 & ->%Interleaving.ErrorOperation_inv & [= _ <-])%M_bind_inv)%M_bind_inv;
    unfold on_backend in E1; apply bind_Done_inv in E1 as ([res r'] & _ & [= _ <-]); by exists r'.
Qed.

Lemma set_backend_id w : set_backend (reg_backend w) w = w.
Proof. by destruct w. Qed.

Lemma put_group_id w s i : instances w !! s = Some i → put_group s (shared i) (active i) w = w.
Proof.
  intros Hi. unfold put_group, set_instances. rewrite list_insert_id; [by destruct w|]. rewrite Hi. by destruct i.
Qed.

(** Unfolds what is known of the instance [s] when goroutine [i] goes to [g']. *)
Ltac counting Hi s g' := unfold ins_ok_in, ins_ok, is_open in *;
  pose proof (count_insert (in_call s) _ _ _ g' Hi); pose proof (count_insert (is_closing s) _ _ _ g' Hi);
  pose proof (count_insert (is_leaving s) _ _ _ g' Hi); pose proof (count_insert (is_waiting s) _ _ _ g' Hi);
  cbn [in_call is_closing is_leaving is_waiting active ends Nat.b2n] in *;
  rewrite ?bool_decide_true in * by done; cbn [Nat.b2n] in *.

Lemma calls_le c s : count (in_call s) (pool c) + count (is_closing s) (pool c) + count (is_leaving s) (pool c) ≤ length (pool c).
Proof. induction (pool c) as [|g l IH]; simpl; [lia|]. destruct g; simpl; try case_bool_decide; simpl; lia. Qed.

(** The step that begins a call or [Close] succeeds if the instance is open. *)
Lemma inv_begin c i s ins g' : inv c → (Z.of_nat (length (pool c)) < int_max)%Z → pool c !! i = Some Idle →
  instances (heap c) !! s = Some ins →
  ((wgAdd 1 (active ins)).1 ≠ None ∧ g' = Idle ∨
   (wgAdd 1 (active ins)).1 = None ∧ ((∃ op, g' = Calling s op) ∨ g' = Closing s ∧ count (is_closing s) (pool c) = 0)) →
  inv (mkConfig (put_group s (shared ins) (wgAdd 1 (active ins)).2 (heap c)) (<[ i := g' ]> (pool c)) (closes (V := V) Idle ++ closed_stores c)).
Proof.
  intros Hc Hmax Hi Hs Hg'. rewrite <-(set_backend_id (heap c)). destruct (inv_ins c Hc s ins Hs) as [_ [Hz Hok]].
  pose proof (calls_le c s) as Hb. destruct (wgState (active ins)) as [z cl] eqn:Est.
  assert (Hst : wgState (wgAdd 1 (active ins)).2 = (if cl then z else (z + 1)%Z, cl) ∧ ((wgAdd 1 (active ins)).1 = None ↔ cl = false)).
  { destruct cl; [by destruct (wgAdd_closed _ _ Est)|]. simpl in Hz. by destruct (wgAdd_open _ _ Est) as [-> ?]; [lia|]. }
  destruct Hst as [Hst Hn]. apply inv_group; [done..| | |].
  - by destruct Hg' as [[_ ->]|[_ [[op ->]|[-> _]]]].
  - unfold is_open in Hok. rewrite Est in Hok. destruct Hg' as [[Hg ->]|[Hg%Hn [[op ->]|[-> H0]]]].
    + destruct cl; [|tauto]. counting Hi s (Idle (V := V)). rewrite Hst. simpl in *. lia.
    + subst cl. counting Hi s (Calling s op). rewrite Hst. simpl in *. lia.
    + subst cl. counting Hi s (Closing (V := V) s). rewrite Hst. simpl in *. lia.
  - unfold is_open. simpl. rewrite Est, Hst. by destruct Hg' as [[_ ->]|[_ [[op ->]|[-> _]]]].
Qed.

(** The backend's operation. *)
Lemma inv_backend_call c i s op r r' : inv c → pool c !! i = Some (Calling s op) →
  inv (mkConfig (set_backend r' (heap c)) (<[ i := Returning s r ]> (pool c)) (closes (Calling s op) ++ closed_stores c)).
Proof.
  intros Hc Hi. destruct (lookup_lt_is_Some_2 _ _ (inv_gor c Hc i _ Hi)) as [ins Hs].
  destruct (inv_ins c Hc s ins Hs) as [_ [Hz Hok]]. rewrite <-(put_group_id (set_backend r' (heap c)) s ins Hs).
  apply inv_group; [done..| |].
  - destruct (wgState (active ins)) as [z cl] eqn:Est. unfold is_open in Hok. rewrite Est in Hok.
    counting Hi s (Returning s r). rewrite Est. simpl in *. destruct cl; simpl in *; lia.
  - done.
Qed.

(** [active.Done], of a call and of [Close]. *)
Lemma inv_done c i s ins g g' : inv c → pool c !! i = Some g → instances (heap c) !! s = Some ins →
  ((∃ r, g = Returning s r) ∧ g' = Idle ∨ g = Leaving s ∧ g' = Waiting s) →
  inv (mkConfig (put_group s (shared ins) (wgDone (active ins)) (heap c)) (<[ i := g' ]> (pool c)) (closes g ++ closed_stores c)).
Proof.
  intros Hc Hi Hs Hg. rewrite <-(set_backend_id (heap c)). destruct (inv_ins c Hc s ins Hs) as [_ [Hz Hok]].
  destruct (wgState (active ins)) as [z cl] eqn:Est. simpl in Hz.
  assert (Hpos : (0 < z)%Z).
  { destruct Hg as [[[r ->] _]|[-> _]].
    - pose proof (count_lookup (in_call s) _ _ _ Hi). simpl in *. rewrite bool_decide_true in * by done. lia.
    - pose proof (count_lookup (is_leaving s) _ _ _ Hi). simpl in *. rewrite bool_decide_true in * by done. lia. }
  pose proof (wgDone_state _ _ _ Est Hpos) as Hst. unfold is_open in Hok. rewrite Est in Hok. apply inv_group; [done..| | | |].
  - by destruct Hg as [[[r ->] _]|[-> _]].
  - by destruct Hg as [[_ ->]|[_ ->]].
  - destruct Hg as [[[r ->] ->]|[-> ->]].
    + counting Hi s (Idle (V := V)). rewrite Hst. simpl in *. destruct cl; simpl in *; lia.
    + counting Hi s (Waiting (V := V) s). rewrite Hst. simpl in *. destruct cl; simpl in *; lia.
  - unfold is_open. simpl. rewrite Est, Hst. by destruct Hg as [[[r ->] ->]|[-> ->]].
Qed.

(** [active.Close], and the end of [active.Wait]. *)
Lemma inv_closing c i s ins : inv c → pool c !! i = Some (Closing s) → instances (heap c) !! s = Some ins →
  inv (mkConfig (put_group s (shared ins) (wgClose (active ins)) (heap c)) (<[ i := Leaving s ]> (pool c))
    (closes (V := V) (Closing s) ++ closed_stores c)).
Proof.
  intros Hc Hi Hs. rewrite <-(set_backend_id (heap c)). destruct (inv_ins c Hc s ins Hs) as [_ [Hz Hok]].
  destruct (wgState (active ins)) as [z cl] eqn:Est. simpl in Hz. pose proof (wgClose_state _ _ _ Est) as Hst.
  unfold is_open in Hok. rewrite Est in Hok. pose proof (count_lookup (is_closing s) _ _ _ Hi) as Hp. simpl in Hp.
  rewrite bool_decide_true in Hp by done. specialize (Hp eq_refl). destruct cl; simpl in Hok; [lia|]. apply inv_group; [done..| |].
  - counting Hi s (Leaving (V := V) s). rewrite Hst. simpl in *. lia.
  - unfold is_open. simpl. by rewrite Est, Hst.
Qed.

Lemma inv_waited c i s ins : inv c → pool c !! i = Some (Waiting s) → instances (heap c) !! s = Some ins →
  wgReturns (wgClose (active ins)) = true →
  inv (mkConfig (put_group s (shared ins) (wgClose (active ins)) (heap c)) (<[ i := Releasing (shared ins) ]> (pool c))
    (closes (V := V) (Waiting s) ++ closed_stores c)).
Proof.
  intros Hc Hi Hs Hret. rewrite <-(set_backend_id (heap c)). destruct (inv_ins c Hc s ins Hs) as [_ [Hz Hok]].
  destruct (wgState (active ins)) as [z cl] eqn:Est. simpl in Hz. pose proof (wgClose_state _ _ _ Est) as Hst.
  rewrite (wgReturns_state _ _ _ Hst) in Hret. apply bool_decide_eq_true in Hret.
  unfold is_open in Hok. rewrite Est in Hok. pose proof (count_lookup (is_waiting s) _ _ _ Hi) as Hp. simpl in Hp.
  rewrite bool_decide_true in Hp by done. specialize (Hp eq_refl). destruct cl; simpl in Hok; [|lia]. apply inv_group; [done..| |].
  - counting Hi s (Releasing (V := V) (shared ins)). rewrite Hst. simpl in *. lia.
  - unfold is_open. simpl. by rewrite Est, Hst.
Qed.

(** *** The steps on the registry and on a shared store *)
Lemma inv_after_backend c i g r' : inv c → pool c !! i = Some g → g = Idle ∨ (∃ l, g = ClosingBackend l) →
  inv (mkConfig (set_backend r' (heap c)) (<[ i := Idle ]> (pool c)) (closes g ++ closed_stores c)).
Proof.
  intros Hc Hi Hg. assert (Hh : ∀ w l, holder w l g = false) by (by destruct Hg as [->|[? ->]]). apply inv_other; try done.
  - by destruct Hg as [->|[? ->]].
  - apply Hc.
  - auto.
  - intros l sh Hl. rewrite Hh, (inv_count c Hc l sh Hl). simpl. unfold users. simpl. lia.
  - apply (inv_active c Hc).
  - intros l [Hd|?]; [|done]. destruct (inv_dead c Hc l Hd) as (H0 & Hlt & Hno). rewrite Hh, H0. by split_and!.
Qed.

Lemma users_add_instance l w l' : users (add_instance l w) l' = users w l' + Nat.b2n (bool_decide (l = l')).
Proof.
  unfold users. simpl. rewrite count_app. simpl. unfold open_on, is_open. simpl. rewrite wgZero_state. simpl.
  rewrite andb_true_r. lia.
Qed.

Lemma owners_le c l : owners c l ≤ length (instances (heap c)) + length (pool c).
Proof. unfold owners, users. pose proof (count_le (open_on l) (instances (heap c))). pose proof (count_le (holder (heap c) l) (pool c)). lia. Qed.

Lemma inv_retained_again c i n l sh : inv c → (Z.of_nat (length (instances (heap c)) + length (pool c)) < int_max)%Z →
  pool c !! i = Some Idle → reg_active (heap c) !! n = Some l → shareds (heap c) !! l = Some sh →
  inv (mkConfig (add_instance l (put_refCount l sh (Inc (refCount sh)).2 (heap c))) (<[ i := Idle ]> (pool c))
    (closes (V := V) Idle ++ closed_stores c)).
Proof.
  intros Hc Hmax Hi Ha Hl. set (w' := add_instance l (put_refCount l sh (Inc (refCount sh)).2 (heap c))).
  assert (Hlen : length (shareds w') = length (shareds (heap c))) by (unfold w'; simpl; by rewrite length_insert).
  pose proof (lookup_lt_Some _ _ _ Hl) as Hlt.
  assert (Hu : ∀ l', users w' l' = users (heap c) l' + Nat.b2n (bool_decide (l = l'))) by (intros; exact (users_add_instance l (put_refCount l sh (Inc (refCount sh)).2 (heap c)) _)).
  apply inv_other; try done.
  - apply Hc.
  - lia.
  - intros s ins E. by apply lookup_app_l_Some.
  - intros s ins [E|[Hge E]]%lookup_app_Some; [by left|]. right. apply list_lookup_singleton_Some in E as [_ <-]. simpl in *.
    split_and!; [done|done|]. rewrite length_insert. lia.
  - intros l' sh' Hl'. rewrite Hu. destruct (lookup_put_refCount (heap c) l sh _ l' sh' Hl Hl') as (sh0 & Hsh0 & _ & _ & ->).
    pose proof (inv_count c Hc l' sh0 Hsh0) as Hcnt. pose proof (owners_le c l'). simpl. destruct (decide (l' = l)) as [->|Hne].
    + assert (sh0 = sh) as -> by congruence. rewrite bool_decide_true, Load_Inc by (done || lia). simpl. lia.
    + rewrite bool_decide_false by done. simpl. lia.
  - intros n' l' Hl'. destruct (inv_active c Hc n' l' Hl') as (sh0 & Hsh0 & Hn).
    destruct (put_refCount_Some (heap c) l sh (Inc (refCount sh)).2 l' sh0 Hl Hsh0) as [c' E]. by eexists.
  - intros l' [Hd|?]; [|done]. destruct (inv_dead c Hc l' Hd) as (H0 & Hl' & Hno). rewrite Hu, H0.
    rewrite bool_decide_false by (intros <-; by apply (Hno n)). split_and!; [simpl; lia|by rewrite Hlen|done].
Qed.

Lemma inv_opened c i n h r' k : inv c → pool c !! i = Some Idle → reg_active (heap c) !! n = None → Load k = 1%Z →
  inv (mkConfig (opened n h k r' (heap c)) (<[ i := Idle ]> (pool c)) (closes (V := V) Idle ++ closed_stores c)).
Proof.
  intros Hc Hi Ha Hk. set (w' := opened n h k r' (heap c)). set (L := length (shareds (heap c))).
  assert (Hlen : length (shareds w') = S L) by (unfold w'; simpl; rewrite length_app; simpl; unfold L; lia).
  assert (Hu : ∀ l', users w' l' = users (heap c) l' + Nat.b2n (bool_decide (L = l'))) by (intros; exact (users_add_instance L (heap c) _)).
  assert (Hra : reg_active w' = <[ n := L ]> (reg_active (heap c))) by done.
  assert (H0 : owners c L = 0).
  { unfold owners, users. rewrite !count_zero; [done|..].
    - intros j g Hj. pose proof (inv_gor c Hc j g Hj) as Hg.
      destruct g as [| | | |s|s|l| |]; try done; simpl in *; [destruct (instances (heap c) !! s) as [ins|] eqn:Es; [|done]..|].
      1,2: destruct (inv_ins c Hc s ins Es) as [Hl _].
      all: apply bool_decide_eq_false; unfold L; lia.
    - intros s ins Es. destruct (inv_ins c Hc s ins Es) as [Hl _]. unfold open_on. rewrite bool_decide_false; [done|unfold L; lia]. }
  apply inv_other; try done.
  - rewrite Hlen. unfold L. lia.
  - intros s ins E. by apply lookup_app_l_Some.
  - intros s ins [E|[Hge E]]%lookup_app_Some; [by left|]. right. apply list_lookup_singleton_Some in E as [_ <-].
    rewrite Hlen. simpl. split_and!; [done|done|unfold L; lia].
  - intros l' sh' Hl'. rewrite Hu. simpl. apply lookup_app_Some in Hl' as [Hl'|[Hge Hl']].
    + rewrite bool_decide_false by (apply lookup_lt_Some in Hl'; unfold L; lia). rewrite (inv_count c Hc l' sh' Hl'). simpl. lia.
    + apply list_lookup_singleton_Some in Hl' as [Hz <-]. assert (l' = L) as -> by (unfold L; lia).
      rewrite bool_decide_true by done. simpl. lia.
  - intros n' l'. rewrite Hra. intros [[<- <-]|[Hne Hl']]%lookup_insert_Some.
    + exists (mkShared k n h). split; [|done]. by apply list_lookup_middle.
    + destruct (inv_active c Hc n' l' Hl') as (sh0 & Hsh0 & Hn). exists sh0. split; [by apply lookup_app_l_Some|done].
  - intros l' [Hd|?]; [|done]. destruct (inv_dead c Hc l' Hd) as (Hz & Hlt & Hno). rewrite Hu, Hz, bool_decide_false by (unfold L; lia).
    split_and!; [simpl; lia|rewrite Hlen; unfold L; lia|]. rewrite Hra.
    intros n' [[<- <-]|[Hne Hl']]%lookup_insert_Some; [unfold L in Hlt; lia|]. by apply (Hno n').
Qed.

Lemma inv_released c i l sh g' : inv c → (Z.of_nat (length (instances (heap c)) + length (pool c)) < int_max)%Z →
  pool c !! i = Some (Releasing l) → shareds (heap c) !! l = Some sh → g' = Idle ∨ g' = Unregistering l →
  inv (mkConfig (put_refCount l sh (Dec (refCount sh)).2 (heap c)) (<[ i := g' ]> (pool c)) (closes (V := V) (Releasing l) ++ closed_stores c)).
Proof.
  intros Hc Hmax Hi Hl Hg'. set (w' := put_refCount l sh (Dec (refCount sh)).2 (heap c)).
  assert (Hlen : length (shareds w') = length (shareds (heap c))) by (unfold w'; simpl; by rewrite length_insert).
  pose proof (lookup_lt_Some _ _ _ Hl) as Hlt.
  assert (Hh : ∀ l', holder w' l' g' = false) by (by destruct Hg' as [->| ->]).
  assert (Hpos : 0 < owners c l).
  { unfold owners. pose proof (count_lookup (holder (heap c) l) _ _ _ Hi) as Hp. simpl in Hp. rewrite bool_decide_true in Hp by done. specialize (Hp eq_refl). lia. }
  apply inv_other; try done.
  - by destruct Hg' as [->| ->].
  - apply Hc.
  - destruct Hg' as [->| ->]; [done|]. simpl. by rewrite length_insert.
  - lia.
  - auto.
  - intros l' sh' Hl'. rewrite Hh. change (users w' l') with (users (heap c) l').
    destruct (lookup_put_refCount (heap c) l sh _ l' sh' Hl Hl') as (sh0 & Hsh0 & _ & _ & ->).
    pose proof (inv_count c Hc l' sh0 Hsh0) as Hcnt. pose proof (owners_le c l'). simpl. destruct (decide (l' = l)) as [->|Hne].
    + assert (sh0 = sh) as -> by congruence. rewrite bool_decide_true, Load_Dec by (done || lia). simpl. lia.
    + rewrite bool_decide_false by done. simpl. lia.
  - intros n' l' Hl'. destruct (inv_active c Hc n' l' Hl') as (sh0 & Hsh0 & Hn).
    destruct (put_refCount_Some (heap c) l sh (Dec (refCount sh)).2 l' sh0 Hl Hsh0) as [c' E]. by eexists.
  - intros l' [Hd| ->]; [|by destruct Hg']. destruct (inv_dead c Hc l' Hd) as (H0 & Hl' & Hno). rewrite Hh, H0.
    change (users w' l') with (users (heap c) l'). simpl. rewrite bool_decide_false by (intros <-; lia).
    split_and!; [simpl; lia|by rewrite length_insert|done].
Qed.

Lemma inv_kept c i l : inv c → pool c !! i = Some (Unregistering l) →
  inv (mkConfig (heap c) (<[ i := Idle ]> (pool c)) (closes (V := V) (Unregistering l) ++ closed_stores c)).
Proof.
  intros Hc Hi. apply inv_other; try done; try apply Hc.
  - auto.
  - intros l' sh Hl. rewrite (inv_count c Hc l' sh Hl). simpl. lia.
  - intros l' [Hd|?]; [|done]. destruct (inv_dead c Hc l' Hd) as (H0 & Hlt & Hno). simpl. split_and!; [lia|done|done].
Qed.

Lemma inv_removed c i l sh : inv c → pool c !! i = Some (Unregistering l) → shareds (heap c) !! l = Some sh →
  (Load (refCount sh) ≤ 0)%Z →
  inv (mkConfig (unregistered (name sh) (heap c)) (<[ i := ClosingBackend l ]> (pool c))
    (closes (V := V) (Unregistering l) ++ closed_stores c)).
Proof.
  intros Hc Hi Hl Hle. set (w' := unregistered (name sh) (heap c)). pose proof (inv_count c Hc l sh Hl) as Hcnt.
  assert (Hra : reg_active w' = delete (name sh) (reg_active (heap c))) by done.
  assert (Hu : ∀ l', users w' l' = users (heap c) l') by done.
  apply inv_other; try done.
  - apply Hc.
  - simpl. by eapply lookup_lt_Some.
  - auto.
  - intros l' sh' Hl'. rewrite Hu, (inv_count c Hc l' sh' Hl'). simpl. lia.
  - intros n' l'. rewrite Hra. intros [_ Hl']%lookup_delete_Some. by apply (inv_active c Hc).
  - intros l' Hd. assert (owners c l' = 0 ∧ l' < length (shareds (heap c)) ∧ ∀ n, reg_active w' !! n ≠ Some l') as (H0 & Hlt & Hno).
    { destruct Hd as [Hd|[= <-]].
      - destruct (inv_dead c Hc l' Hd) as (H0 & Hlt & Hno). split_and!; [done|done|]. rewrite Hra. intros n' [_ Hl']%lookup_delete_Some. by apply (Hno n').
      - split_and!; [lia|by eapply lookup_lt_Some|]. rewrite Hra. intros n' [Hne Hl']%lookup_delete_Some.
        destruct (inv_active c Hc n' l Hl') as (sh' & Hsh' & Hn). congruence. }
    rewrite Hu. simpl. split_and!; [lia|done|done].
Qed.

Lemma active_Wait_inv w s i u w' : instances w !! s = Some i → active_Wait s w = Done (u, w') →
  wgReturns (wgClose (active i)) = true ∧ w' = put_group s (shared i) (wgClose (active i)) w.
Proof.
  intros Hi E. destruct (wgReturns (wgClose (active i))) eqn:Hr.
  - rewrite (active_Wait_eq w s i Hi Hr) in E. by injection E as _ <-.
  - exfalso. unfold active_Wait in E. rewrite (M_bind_eq _ _ _ _ _ (active_Close_eq w s i Hi)) in E. revert E.
    unfold get_instance. run_M. erewrite put_group_lookup by done. run_M. simpl. by rewrite Hr.
Qed.

(** The first step of a call or of [Close]. *)
Lemma begin_keeps_inv c i s g1 g' w' : inv c → (Z.of_nat (length (pool c)) < int_max)%Z → pool c !! i = Some Idle →
  (∃ op, g1 = Calling s op) ∨ g1 = Closing s ∧ count (is_closing s) (pool c) = 0 →
  (err ← active_Add s; match err with Some _ => store_name s;; mret Idle | None => mret g1 end) (heap c) = Done (g', w') →
  inv (mkConfig w' (<[ i := g' ]> (pool c)) (closes (V := V) Idle ++ closed_stores c)).
Proof.
  intros Hc Hmax Hi Hg E. apply M_bind_inv in E as (err & w1 & (ins & Hs & -> & ->)%active_Add_inv & E).
  destruct (wgAdd 1 (active ins)).1 as [e|] eqn:Ea.
  - apply M_bind_inv in E as (n & w2 & ->%store_name_inv & [= <- <-]). apply inv_begin; [done..|]. left. by rewrite Ea.
  - injection E as <- <-. apply inv_begin; [done..|]. right. rewrite Ea. split; [done|].
    by destruct Hg as [?|[-> ?]]; [left|right].
Qed.

Lemma move_keeps_inv c i a c' : inv c → (Z.of_nat (length (instances (heap c)) + length (pool c)) < int_max)%Z → may c a = true →
  move c i a = Done c' →
  inv c'.
Proof.
  intros Hc Hmax Hmay. unfold move. destruct (pool c !! i) as [g|] eqn:Hi; [|done].
  destruct (act g a) as [p|] eqn:Hact; [|done]. intros ([g' w'] & Hp & [= <-])%bind_Done_inv. cbn [fst snd].
  pose proof (inv_gor c Hc i g Hi) as Hg. assert (Hpool : (Z.of_nat (length (pool c)) < int_max)%Z) by lia.
  destruct g as [|s op|s r|s|s|s|l|l|l], a as [n|s' op'|s'|]; simplify_eq/=;
    try (apply lookup_lt_is_Some_2 in Hg as [x Hx]).
  - apply M_bind_inv in Hp as (r & w1 & E & [= <- <-]).
    apply Interleaving.Registry_Get_inv in E as [(l & sh & Ha & Hl & _ & ->)|[(e & r' & _ & ->)|(h & k & r' & Ha & Hk & _ & ->)]];
      [| | |apply Hc|intros l Ha; destruct (inv_active c Hc n l Ha) as (sh & ? & _); eauto].
    + by apply inv_retained_again with (n := n).
    + apply (inv_after_backend c i Idle r'); auto.
    + by apply inv_opened.
  - eapply (begin_keeps_inv c i s' (Calling s' op')); eauto.
  - eapply (begin_keeps_inv c i s' (Closing s')); [done..| |exact Hp]. right. split; [done|].
    apply bool_decide_eq_true in Hmay. apply count_zero. intros j g Hj. destruct (is_closing s' g) eqn:Hg'; [|done].
    pose proof (count_lookup (in_Close s') _ _ _ Hj) as Hq. destruct g; try done. specialize (Hq Hg'). lia.
  - unfold call_backend in Hp. rewrite (M_bind_eq _ _ _ _ _ (store_shared_eq _ s x Hx)) in Hp.
    apply M_bind_inv in Hp as (sh & w1 & E1 & Hp). destruct (inv_ins c Hc s x Hx) as [Hl _].
    apply lookup_lt_is_Some_2 in Hl as [sh' Hl]. rewrite (get_shared_eq _ _ _ Hl) in E1. injection E1 as <- <-.
    apply M_bind_inv in Hp as (r & w2 & [r' ->]%call_body_inv & [= <- <-]). by apply (inv_backend_call c i s op).
  - unfold call_end in Hp. rewrite (M_bind_eq _ _ _ _ _ (active_Done_eq _ s x Hx)) in Hp. injection Hp as <- <-.
    apply (inv_done c i s x (Returning s r)); eauto.
  - rewrite (M_bind_eq _ _ _ _ _ (active_Close_eq _ s x Hx)) in Hp. injection Hp as <- <-.
    by apply inv_closing.
  - rewrite (M_bind_eq _ _ _ _ _ (active_Done_eq _ s x Hx)) in Hp. injection Hp as <- <-.
    apply (inv_done c i s x (Leaving s)); auto.
  - apply M_bind_inv in Hp as (u & w1 & E & Hp). destruct (active_Wait_inv _ _ _ _ _ Hx E) as [Hret ->].
    rewrite (M_bind_eq _ _ _ _ _ (store_shared_eq _ s _ (put_group_lookup _ _ _ _ _ Hx))) in Hp. injection Hp as <- <-.
    by apply inv_waited.
  - apply M_bind_inv in Hp as (z & w1 & E & [= <- <-]). rewrite (refCount_Dec_eq (heap c) l x Hx) in E. injection E as <- <-.
    apply inv_released; [done..|]. case_bool_decide; auto.
  - apply M_bind_inv in Hp as (b & w1 & E & [= <- <-]).
    destruct (Interleaving.tryUnregister_inv _ l x _ _ (inv_mu c Hc) Hx E) as [[-> ->]|(-> & Hle & ->)];
      [by eapply inv_kept|by apply inv_removed].
  - apply M_bind_inv in Hp as (r & w1 & E & [= <- <-]). unfold backend_Close in E.
    rewrite (M_bind_eq _ _ _ _ _ (get_shared_eq _ _ _ Hx)) in E. apply M_bind_inv in E as (err & w2 & E2 & [= _ <-]).
    unfold on_backend in E2. apply bind_Done_inv in E2 as ([e r'] & _ & [= _ <-]). apply (inv_after_backend c i (ClosingBackend l) r'); eauto.
Qed.

(** Instances are never removed. *)
Definition mono {A} (p : M world A) : Prop := ∀ w a w', p w = Done (a, w') → length (instances w) ≤ length (instances w').
Lemma mono_bind {A B} (p : M world A) (f : A → M world B) : mono p → (∀ a, mono (f a)) → mono (p ≫= f).
Proof. intros Hp Hf w b w' (a & w1 & E1%Hp & E2%Hf)%M_bind_inv. lia. Qed.
Lemma mono_ret {A} (a : A) : mono (mret a).
Proof. by intros w a' w' [= _ <-]. Qed.

(** A step of a program on the heap: what is left is its primitives. *)
Ltac mono_step := match goal with
  | |- mono (_ ≫= _) => apply mono_bind; [|intros ?]
  | |- mono (mret _) => apply mono_ret
  | |- mono (match ?x with _ => _ end) => destruct x
  end.
Ltac mono_primitive := intros w ? w'; unfold get_instance, get_shared, set_group, set_refCount, on_backend, lock_mu,
  unlock_mu, newSharedStore, alloc_instance, deadlock, modify, gets, panic, nonnil, mbind, outcome_bind, deref; intros E; repeat case_match; simplify_eq; simpl;
  rewrite ?length_insert, ?length_app; lia.

Lemma mono_Release l : mono (Release l).
Proof.
  unfold Release, refCount_Dec, tryUnregister, unregisterStore, backend_Close. repeat mono_step; mono_primitive.
Qed.

Lemma mono_act g a p : act g a = Some p → mono p.
Proof.
  assert (Hn : ∀ s, mono (store_name s)) by (intros; unfold store_name, store_shared; repeat mono_step; mono_primitive).
  assert (Hb : ∀ s op h, mono (call_body s op h)).
  { intros s op h w r w' [r' ->]%call_body_inv. done. }
  destruct g, a; intros [= <-]; unfold Registry_Get, newStore, Retain, call_begin, call_backend, call_end, store_shared, active_Add, active_Done,
    active_Wait, active_Close, refCount_Dec, tryUnregister, unregisterStore, backend_Close; repeat mono_step; try apply mono_Release; try apply Hn; try apply Hb;
    try mono_primitive.
Qed.

Lemma move_grows c i a c' : move c i a = Done c' →
  length (instances (heap c)) ≤ length (instances (heap c')) ∧ length (pool c') = length (pool c).
Proof.
  unfold move. destruct (pool c !! i) as [g|]; [|done]. destruct (act g a) as [p|] eqn:Hp; [|done].
  intros ([g' w'] & E & [= <-])%bind_Done_inv. simpl. rewrite length_insert. split; [|done]. by eapply mono_act.
Qed.

Lemma reach_grows c c' : rtc step c c' → length (instances (heap c)) ≤ length (instances (heap c')) ∧ length (pool c') = length (pool c).
Proof. induction 1 as [|c c1 c' [c0 i a c2 _ Hm%move_grows] _ IH]; [done|]. lia. Qed.

Lemma reach_inv c c' : rtc step c c' → inv c → (Z.of_nat (length (instances (heap c')) + length (pool c')) < int_max)%Z → inv c'.
Proof.
  induction 1 as [|c c1 c' Hs Hr IH]; [done|]. intros Hc Hmax. destruct Hs as [c i a c1 Hmay Hm]. apply reach_grows in Hr.
  pose proof (move_grows _ _ _ _ Hm). apply IH; [eapply (move_keeps_inv c i a); [done|lia|done..]|done].
Qed.
End safety.

Section consequences.
Context {R H V X Ctr W : Type} `{!Backend R H V X, !AtomicInt Ctr, !AtomicIntLaws Ctr, !SafeWaitGroup W, !SafeWaitGroupLaws W}.
Abbreviation config := (config R H V Ctr W).
Implicit Types (c : config).

Lemma user_alive c l : inv c → 0 < owners c l → ¬ dead c l.
Proof. intros Hc Ho Hd. destruct (inv_dead c Hc l Hd). lia. Qed.

Lemma open_owner c s ins : instances (heap c) !! s = Some ins → is_open ins = true → 0 < owners c (shared ins).
Proof. intros Hs Ho. pose proof (users_pos _ _ _ Hs Ho). unfold owners. lia. Qed.

(** Who closed the instance of a call still counts. *)
Lemma call_owner c i s g ins : inv c → pool c !! i = Some g → in_call s g = true → instances (heap c) !! s = Some ins →
  0 < owners c (shared ins).
Proof.
  intros Hc Hi Hg Hs. destruct (is_open ins) eqn:Ho; [by eapply open_owner|].
  destruct (inv_ins c Hc s ins Hs) as [_ [_ Hok]]. rewrite Ho in Hok. pose proof (count_lookup _ _ _ _ Hi Hg) as Hp.
  assert (0 < count (is_leaving s) (pool c) ∨ 0 < count (is_waiting s) (pool c)) as Hw by lia.
  assert (∃ j g', pool c !! j = Some g' ∧ (g' = Leaving s ∨ g' = Waiting s)) as (j & g' & Hj & Hg').
  { destruct Hw as [(j & g' & Hj & Hf)%count_pos|(j & g' & Hj & Hf)%count_pos]; exists j, g'; (split; [done|]);
      destruct g'; try done; apply bool_decide_eq_true in Hf as ->; auto. }
  unfold owners. pose proof (count_lookup (holder (heap c) (shared ins)) _ _ _ Hj) as Hq.
  destruct Hg' as [->| ->]; simpl in Hq; rewrite Hs, bool_decide_true in Hq by done; specialize (Hq eq_refl); lia.
Qed.

Lemma move_Done c i g a p r : pool c !! i = Some g → act g a = Some p → p (heap c) = Done r → ∃ c', move c i a = Done c'.
Proof. intros Hi Ha Hp. unfold move. rewrite Hi, Ha, Hp. by eexists. Qed.

Lemma Calling_moves c i s op : inv c → pool c !! i = Some (Calling s op) → (∀ (h : H) (w : world R H Ctr W), ∃ rw, call_body s op h w = Done rw) →
  ∃ c', move c i ANext = Done c'.
Proof.
  intros Hc Hi Hb. destruct (lookup_lt_is_Some_2 _ _ (inv_gor c Hc i _ Hi)) as [ins Hs].
  destruct (inv_ins c Hc s ins Hs) as [[sh Hl]%lookup_lt_is_Some_2 _]. destruct (Hb (backend sh) (heap c)) as [[r w'] E].
  eapply move_Done; [done|reflexivity|]. unfold call_backend. rewrite (M_bind_eq _ _ _ _ _ (store_shared_eq _ _ _ Hs)).
  rewrite (M_bind_eq _ _ _ _ _ (get_shared_eq _ _ _ Hl)). by rewrite (M_bind_eq _ _ _ _ _ E).
Qed.

Lemma Returning_moves c i s res : inv c → pool c !! i = Some (Returning s res) → ∃ c', move c i ANext = Done c'.
Proof.
  intros Hc Hi. destruct (lookup_lt_is_Some_2 _ _ (inv_gor c Hc i _ Hi)) as [ins Hs].
  eapply move_Done; [done|reflexivity|]. unfold call_end. by rewrite (M_bind_eq _ _ _ _ _ (active_Done_eq _ _ _ Hs)).
Qed.

Lemma Waiting_moves c i s : inv c → pool c !! i = Some (Waiting s) →
  (∃ c', move c i ANext = Done c') ↔ ∀ j g, pool c !! j = Some g → in_call s g = false.
Proof.
  intros Hc Hi. destruct (lookup_lt_is_Some_2 _ _ (inv_gor c Hc i _ Hi)) as [ins Hs].
  destruct (inv_ins c Hc s ins Hs) as [_ [Hz Hok]]. destruct (wgState (active ins)) as [z cl] eqn:Est. simpl in Hz.
  unfold is_open in Hok. rewrite Est in Hok. pose proof (count_lookup (is_waiting s) _ _ _ Hi) as Hp. simpl in Hp.
  rewrite bool_decide_true in Hp by done. specialize (Hp eq_refl). destruct cl; simpl in Hok; [|lia].
  pose proof (wgReturns_state _ _ _ (wgClose_state _ _ _ Est)) as Hret. split.
  - intros [c' E] j g Hj. destruct (in_call s g) eqn:Hg; [|done]. pose proof (count_lookup _ _ _ _ Hj Hg).
    unfold move in E. rewrite Hi in E. cbn [act] in E. apply bind_Done_inv in E as ([g' w'] & (u & w1 & E & _)%M_bind_inv & _).
    destruct (active_Wait_inv _ _ _ _ _ Hs E) as [Hr _]. rewrite Hret in Hr. apply bool_decide_eq_true in Hr. lia.
  - intros Hno. assert (count (in_call s) (pool c) = 0) by (by apply count_zero).
    rewrite bool_decide_true in Hret by lia. eapply move_Done; [done|reflexivity|].
    rewrite (M_bind_eq _ _ _ _ _ (active_Wait_eq _ _ _ Hs Hret)).
    by rewrite (M_bind_eq _ _ _ _ _ (store_shared_eq _ _ _ (put_group_lookup _ _ _ _ _ Hs))).
Qed.
End consequences.

(** ** Schedules over the backend in memory *)
#[local] Existing Instance string_convert.
#[local] Instance table_backend : Backend (MemoryStore string) string string string := memory_backend map_to_list.
Definition table_config : Type := config (MemoryStore string) string string Z (Z * bool).
Definition new_config (n : nat) : table_config := start NewMemoryStoreBackend n.
Definition table_move : table_config → nat → action string → outcome table_config := move.
Definition table_sched : table_config → list (nat * action string) → outcome (table_config * bool) := sched.

(** Goroutine 1 is in a call when goroutine 0 closes the instance. *)
Definition close_in_call : list (nat * action string) :=
  [(0, AGet "a"); (1, ACall 0 (CSet "k" "v")); (0, AClose 0); (0, ANext); (0, ANext)]%string.

(** Two goroutines close an instance at once, while another is open. *)
Definition double_close : list (nat * action string) :=
  [(0, AGet "a"); (1, AGet "a"); (0, AClose 0); (1, AClose 0); (0, ANext); (1, ANext); (0, ANext); (1, ANext);
   (0, ANext); (1, ANext); (0, ANext); (1, ANext); (1, ANext); (1, ANext); (2, ACall 1 (CSet "k" "v")); (2, ANext)]%string.



(** [Close] of one instance by two goroutines at once: both pass the [Add] before
    either closes the group, so that each of them releases the shared store.  Another
    instance of it then works on a backend store that is closed. *)
Theorem double_close_closes_store_in_use : ∃ c, table_sched (new_config 3) double_close = Done (c, false) ∧
  (∃ ins, instances (heap c) !! 1 = Some ins ∧ is_open ins = true ∧ shared ins = 0) ∧ dead c 0 ∧
  pool c !! 2 = Some (Returning 1 (inl (ErrorOperation "a" "store/get" errMapStoreClosed))).
Proof.
  eexists. split; [vm_compute; reflexivity|]. split; [eexists; split; [reflexivity|split; reflexivity]|].
  split; [|reflexivity]. left. simpl. left.
Qed.
