(* ===== verification/Linearizable.v ===== *)
(** * Calls on stores are linearizable

    While stores are opened and used and none is closed, as by the inputs of a
    running program, the calls of all goroutines (SharedInstance.v) behave as if
    each happened at once, at a point between its start and its end: the state store
    is a table of named maps. *)

From stdpp Require Import base gmap strings list fin_maps.
From Stdlib Require Import ZArith Lia.
From S2P Require Import Prelude Fs Backend Concert Storetest Statestore StatestoreFacts SharedInstance.

(** ** Specification: a table of named maps *)
Section spec.
Context {V X : Type} `{!Convert V X}.

(** What happens: a store is opened with what its backend kept, or is called. *)
Inductive event :=
| EOpen (n : string) (m : gmap string X)
| ECall (n : string) (op : call V) (r : sserr + answer V).

(** A failed write or removal of the backend is an error all the same. *)
Definition wrote (n operation : string) (r : sserr + answer V) : Prop :=
  r = inr Nothing ∨ ∃ e, r = inl (ErrorOperation n operation e).

(** The result of a call on the map [m], and the map after it. *)
Definition call_spec (n : string) (op : call V) (r : sserr + answer V) (m m' : gmap string X) : Prop :=
  match op with
  | CHas k => r = inr (Found (bool_decide (is_Some (m !! k)))) ∧ m' = m
  | CGet k v => m' = m ∧
    match m !! k with
    | Some x => r = match convert_out x v with inr v => inr (Value v) | inl e => inl (ErrorOperation n "store/get" e) end
    | None => ∃ e, r = inl (ErrorOperation n "store/get" e)
    end
  | CSet k v =>
    match convert_in v with
    | inr x => m' = <[ k := x ]> m ∧ wrote n "store/get" r
    | inl e => m' = m ∧ r = inl (ErrorOperation n "store/get" e)
    end
  | CRemove k => m' = delete k m ∧ wrote n "store/remove" r
  end.

Inductive spec_step : gmap string (gmap string X) → event → gmap string (gmap string X) → Prop :=
| spec_open σ n m : σ !! n = None → spec_step σ (EOpen n m) (<[ n := m ]> σ)
| spec_call σ n m op r m' : σ !! n = Some m → call_spec n op r m m' → spec_step σ (ECall n op r) (<[ n := m' ]> σ).

(** The history of a table that was empty. *)
Inductive history : list event → gmap string (gmap string X) → Prop :=
| history_nil : history [] ∅
| history_snoc es σ e σ' : history es σ → spec_step σ e σ' → history (es ++ [e]) σ'.

(** What a goroutine does: it begins a call, something happens, the call ends. *)
Inductive mark := Begins (op : call V) | Happens (e : event) | Ends (r : sserr + answer V).

(** Where a goroutine is: at rest, in a call, or in one that has happened. *)
Inductive progress := AtRest | Begun (op : call V) | Served (r : sserr + answer V).

(** A goroutine's calls begin, happen once and end, with one result. *)
Inductive orderly : list mark → progress → Prop :=
| orderly_nil : orderly [] AtRest
| orderly_open l n m : orderly l AtRest → orderly (l ++ [Happens (EOpen n m)]) AtRest
| orderly_begin l op : orderly l AtRest → orderly (l ++ [Begins op]) (Begun op)
| orderly_call l n op r : orderly l (Begun op) → orderly (l ++ [Happens (ECall n op r)]) (Served r)
| orderly_end l r : orderly l (Served r) → orderly (l ++ [Ends r]) AtRest.

(** Of the log of all goroutines: what happens, and what goroutine [i] does. *)
Definition happenings (log : list (nat * mark)) : list event := omap (λ x, match x.2 with Happens e => Some e | _ => None end) log.
Definition marks_by (i : nat) (log : list (nat * mark)) : list mark := omap (λ x, if decide (x.1 = i) then Some x.2 else None) log.

Lemma happenings_app log log' : happenings (log ++ log') = happenings log ++ happenings log'.
Proof. apply omap_app. Qed.
Lemma marks_by_app i log log' : marks_by i (log ++ log') = marks_by i log ++ marks_by i log'.
Proof. apply omap_app. Qed.
End spec.
Arguments event : clear implicits.
Arguments mark : clear implicits.
Arguments progress : clear implicits.

(** ** Runs of the goroutines with their events *)
Section runs.
Context {R H V X Ctr W : Type} `{!Convert V X, !Backend R H V X, !BackendLaws R H V X,
  !EqDecision H, !AtomicInt Ctr, !AtomicIntLaws Ctr, !SafeWaitGroup W, !SafeWaitGroupLaws W}.
Abbreviation world := (world R H Ctr W).
Abbreviation config := (config R H V Ctr W).
Implicit Types (c : config) (w : world).

Definition content w (l : loc) : option (gmap string X) := sh ← shareds w !! l; snd <$> view (reg_backend w) (backend sh).
Definition name_of w (s : loc) : option string := i ← instances w !! s; name <$> shareds w !! shared i.

(** A call happens at the step on the backend, with the result that it returns. *)
Definition mark_of c (i : nat) (a : action V) (c' : config) : option (mark V X) :=
  match a, pool c !! i with
  | AGet n, Some Idle =>
    match reg_active (heap c) !! n, reg_active (heap c') !! n with
    | None, Some l => Happens ∘ EOpen n <$> content (heap c') l
    | _, _ => None
    end
  | ACall s op, Some Idle => match pool c' !! i with Some (Calling _ _) => Some (Begins op) | _ => None end
  | ANext, Some (Calling s op) =>
    match pool c' !! i, name_of (heap c) s with
    | Some (Returning _ r), Some n => Some (Happens (ECall n op r))
    | _, _ => None
    end
  | ANext, Some (Returning s r) => Some (Ends r)
  | _, _ => None
  end.

Definition closing (a : action V) : bool := match a with AClose _ => true | _ => false end.

Inductive run (c0 : config) : list (nat * mark V X) → config → Prop :=
| run_nil : run c0 [] c0
| run_snoc log c i a c' : run c0 log c → closing a = false → move c i a = Done c' →
    run c0 (log ++ option_list (pair i <$> mark_of c i a c')) c'.

Lemma run_reach c0 log c : run c0 log c → rtc step c0 c.
Proof.
  induction 1 as [|log c i a c' _ IH Ha Hm]; [apply rtc_refl|]. eapply rtc_r; [done|]. apply (step_move c i a c'); [by destruct a|done].
Qed.

(** ** The table behind the goroutines *)
Definition quiet (g : gor V) : bool := match g with Idle | Calling _ _ | Returning _ _ => true | _ => false end.
Definition progress_of (g : gor V) : progress V := match g with Calling _ op => Begun op | Returning _ r => Served r | _ => AtRest end.

Record tables c (σ : gmap string (gmap string X)) : Prop := {
  tb_inv : inv c;
  tb_quiet i g : pool c !! i = Some g → quiet g = true;
  tb_open s ins : instances (heap c) !! s = Some ins → is_open ins = true;
  tb_backend : backend_ok (reg_backend (heap c));
  tb_active l sh : shareds (heap c) !! l = Some sh → reg_active (heap c) !! name sh = Some l;
  tb_view l sh : shareds (heap c) !! l = Some sh → ∃ m, σ !! name sh = Some m ∧ view (reg_backend (heap c)) (backend sh) = Some (name sh, m);
  tb_viewed h n m : view (reg_backend (heap c)) h = Some (n, m) → ∃ l sh, shareds (heap c) !! l = Some sh ∧ backend sh = h ∧ name sh = n;
  tb_names n : is_Some (σ !! n) → is_Some (reg_active (heap c) !! n)
}.

Lemma tables_start r n : backend_ok r → (∀ h, view r h = None) → tables (start r n) ∅.
Proof.
  intros Hr Hv. split; simpl; try done.
  - apply inv_at_start.
  - intros i g Hi. by apply lookup_replicate in Hi as [-> _].
  - intros h n' m. by rewrite Hv.
  - intros n'. by intros [? ?].
Qed.

(** A shared store whose count changes is the same for the table. *)
Lemma tables_change c σ w' i g' : tables c σ → inv (mkConfig w' (<[ i := g' ]> (pool c)) (closed_stores c)) → quiet g' = true →
  reg_backend w' = reg_backend (heap c) → reg_active w' = reg_active (heap c) →
  (∀ s ins, instances w' !! s = Some ins → is_open ins = true) →
  (∀ l sh', shareds w' !! l = Some sh' → ∃ sh, shareds (heap c) !! l = Some sh ∧ name sh' = name sh ∧ backend sh' = backend sh) →
  (∀ l sh, shareds (heap c) !! l = Some sh → ∃ sh', shareds w' !! l = Some sh' ∧ name sh' = name sh ∧ backend sh' = backend sh) →
  tables (mkConfig w' (<[ i := g' ]> (pool c)) (closed_stores c)) σ.
Proof.
  intros [Hc Hq Hop Hb Ha Hv Hvd Hn] Hinv Hg' Eb Ea Hopen Hsh Hsh'. split; cbn [heap pool closed_stores]; rewrite ?Eb, ?Ea; try done.
  - intros j g [(-> & <- & _)|[_ Hj]]%list_lookup_insert_Some; [done|by eapply Hq].
  - intros l sh' (sh & Hl & -> & _)%Hsh. by apply Ha.
  - intros l sh' (sh & Hl & -> & ->)%Hsh. by eapply Hv.
  - intros h n m (l & sh & Hl & Hh & Hnm)%Hvd. apply Hsh' in Hl as (sh' & Hl & E1 & E2). exists l, sh'. by rewrite E1, E2.
Qed.

(** *** Opening a store *)
Lemma new_is_open w l (ins : instance W) s : (∀ s ins, instances w !! s = Some ins → is_open ins = true) →
  (instances w ++ [mkInstance l wgZero]) !! s = Some ins → is_open ins = true.
Proof.
  intros Hop [Hs|[_ Hs]]%lookup_app_Some; [by eapply Hop|]. apply list_lookup_singleton_Some in Hs as [_ <-].
  unfold is_open. simpl. by rewrite wgZero_state.
Qed.

Lemma unregistered_not_viewed c σ n h m : tables c σ → reg_active (heap c) !! n = None → view (reg_backend (heap c)) h ≠ Some (n, m).
Proof.
  intros Ht Ha Hv. destruct (tb_viewed c σ Ht h n m Hv) as (l & sh & Hl & _ & Hn). apply (tb_active c σ Ht) in Hl. congruence.
Qed.

Lemma tables_failed c σ i r' : tables c σ → inv (mkConfig (set_backend r' (heap c)) (<[ i := Idle ]> (pool c)) (closed_stores c)) →
  backend_ok r' → (∀ h, view r' h = view (reg_backend (heap c)) h) →
  tables (mkConfig (set_backend r' (heap c)) (<[ i := Idle ]> (pool c)) (closed_stores c)) σ.
Proof.
  intros [Hc Hq Hop Hb Ha Hv Hvd Hn] Hinv Hr Hview. split; simpl; try done.
  - intros j g [(-> & <- & _)|[_ Hj]]%list_lookup_insert_Some; [done|by eapply Hq].
  - intros l sh Hl. rewrite Hview. by eapply Hv.
  - intros h n m. rewrite Hview. apply Hvd.
Qed.

Lemma tables_opened c σ i n h k r' m : tables c σ → inv (mkConfig (opened n h k r' (heap c)) (<[ i := Idle ]> (pool c)) (closed_stores c)) →
  reg_active (heap c) !! n = None → backend_ok r' → view (reg_backend (heap c)) h = None → view r' h = Some (n, m) →
  (∀ h', h' ≠ h → view r' h' = view (reg_backend (heap c)) h') →
  tables (mkConfig (opened n h k r' (heap c)) (<[ i := Idle ]> (pool c)) (closed_stores c)) (<[ n := m ]> σ).
Proof.
  intros Ht Hinv Hnone Hr Hold Hnew Hother. pose proof Ht as [Hc Hq Hop Hb Ha Hv Hvd Hn].
  assert (Hne : ∀ l sh, shareds (heap c) !! l = Some sh → name sh ≠ n ∧ backend sh ≠ h).
  { intros l sh Hl. split; [intros <-; apply Ha in Hl; congruence|intros <-]. destruct (Hv l sh Hl) as (m' & _ & E). congruence. }
  assert (Hcase : ∀ l sh, (shareds (heap c) ++ [mkShared k n h]) !! l = Some sh → shareds (heap c) !! l = Some sh ∨
    l = length (shareds (heap c)) ∧ sh = mkShared k n h).
  { intros l sh [Hl|[Hge Hl]]%lookup_app_Some; [by left|]. right. apply list_lookup_singleton_Some in Hl as [Hz <-]. split; [lia|done]. }
  split; cbn [heap pool closed_stores opened reg_backend reg_active shareds]; try done.
  - intros j g [(-> & <- & _)|[_ Hj]]%list_lookup_insert_Some; [done|by eapply Hq].
  - intros s ins. by apply (new_is_open (heap c) (length (shareds (heap c)))).
  - intros l sh [Hl|[-> ->]]%Hcase; [|by rewrite lookup_insert_eq]. rewrite lookup_insert_ne; [by apply Ha|]. destruct (Hne l sh Hl). congruence.
  - intros l sh [Hl|[-> ->]]%Hcase; [|exists m; cbn [name backend]; by rewrite lookup_insert_eq].
    destruct (Hne l sh Hl). rewrite lookup_insert_ne, Hother by done. by eapply Hv.
  - intros h' n' m' Hv'. destruct (decide (h' = h)) as [->|Hneq].
    + exists (length (shareds (heap c))), (mkShared k n h). rewrite Hnew in Hv'. injection Hv' as <- <-.
      split; [by apply list_lookup_middle|done].
    + rewrite Hother in Hv' by done. destruct (Hvd h' n' m' Hv') as (l & sh & Hl & ? & ?). exists l, sh.
      split; [by apply lookup_app_l_Some|done].
  - intros n'. destruct (decide (n = n')) as [<-|Hneq]; [intros _; rewrite lookup_insert_eq; by eexists|].
    rewrite !lookup_insert_ne by done. apply Hn.
Qed.

Lemma tables_get c σ i n : tables c σ → (Z.of_nat (length (instances (heap c)) + length (pool c)) < int_max)%Z →
  pool c !! i = Some Idle → ∃ c' σ', move c i (AGet n) = Done c' ∧ tables c' σ' ∧ pool c' = <[ i := Idle ]> (pool c) ∧
    (mark_of c i (AGet n) c' = None ∧ σ' = σ ∨ ∃ m, mark_of c i (AGet n) c' = Some (Happens (EOpen n m)) ∧ spec_step σ (EOpen n m) σ').
Proof.
  intros Ht Hmax Hi. pose proof (tb_inv c σ Ht) as Hc. pose proof (inv_mu c Hc) as Hmu.
  assert (Hmove : ∀ r w', Registry_Get n (heap c) = Done (r, w') → move c i (AGet n) = Done (mkConfig w' (<[ i := Idle ]> (pool c)) (closed_stores c))).
  { intros r w' E. unfold move. rewrite Hi. cbn [act]. by rewrite (M_bind_eq _ _ _ _ _ E). }
  assert (Hinv : ∀ c', move c i (AGet n) = Done c' → inv c') by (intros c' E; by apply (move_keeps_inv c i (AGet n))).
  destruct (reg_active (heap c) !! n) as [l|] eqn:Ha.
  - destruct (inv_active c Hc n l Ha) as (sh & Hl & Hn). pose proof (Hmove _ _ (Registry_Get_active _ n l sh Hmu Ha Hl)) as E.
    eexists _, σ. split; [exact E|]. split; [|split; [done|left; unfold mark_of; by rewrite Hi, Ha]].
    apply tables_change; [done|by apply Hinv|done..| | |].
    + intros s ins. by apply (new_is_open (heap c) l), Ht.
    + intros l' sh' Hl'. destruct (lookup_put_refCount (heap c) l sh _ l' sh' Hl Hl') as (sh0 & ? & ? & ? & _). by exists sh0.
    + intros l' sh' Hl'. destruct (put_refCount_Some (heap c) l sh (Inc (refCount sh)).2 l' sh' Hl Hl') as [k E']. by eexists.
  - destruct (access_ok (reg_backend (heap c)) n (tb_backend c σ Ht)) as (res & r' & Eacc & Hr & Hres).
    { intros h m. by apply (unregistered_not_viewed c σ). }
    destruct res as [e|h].
    + pose proof (Hmove _ _ (Registry_Get_error _ n e r' Hmu Ha Eacc)) as E. eexists _, σ. split; [exact E|]. split.
      * apply tables_failed; [done|by apply Hinv|done..].
      * split; [done|]. left. unfold mark_of. rewrite Hi, Ha. simpl. by rewrite Ha.
    + destruct Hres as (Hold & [m Hnew] & Hother). destruct (Registry_Get_new _ n h r' Hmu Ha Eacc) as (k & Hk & Eget).
      pose proof (Hmove _ _ Eget) as E. eexists _, (<[ n := m ]> σ). split; [exact E|]. split.
      * apply tables_opened; [done|by apply Hinv|done..].
      * split; [done|]. right. exists m. split.
        -- unfold mark_of. rewrite Hi, Ha. cbn [heap opened reg_active]. rewrite lookup_insert_eq. unfold content.
           cbn [opened shareds reg_backend]. rewrite list_lookup_middle by done. simpl. by rewrite Hnew.
        -- apply spec_open. destruct (σ !! n) eqn:Es; [|done]. destruct (tb_names c σ Ht n) as [l Hl]; [by eexists|]. congruence.
Qed.

(** *** A call *)
Lemma ErrorOperation_eq {A} w s ins sh op (r : goerr + A) : instances w !! s = Some ins → shareds w !! shared ins = Some sh →
  ErrorOperation_of s op r w = Done (match r with inl e => inl (ErrorOperation (name sh) op e) | inr a => inr a end, w).
Proof. intros Hs Hl. destruct r as [e|a]; [|done]. unfold ErrorOperation_of. by rewrite (M_bind_eq _ _ _ _ _ (store_name_eq _ _ _ _ Hs Hl)). Qed.

(** The operation on the backend, by the backend's law. *)
Lemma body_eq {A B} (f : R → outcome (A * R)) (conv : A → goerr + B) (g : B → answer V) w s ins sh op a r' :
  f (reg_backend w) = Done (a, r') → instances w !! s = Some ins → shareds w !! shared ins = Some sh →
  (r ← on_backend f; r ← ErrorOperation_of s op (conv r); mret (as_answer g r)) w =
    Done (match conv a with inl e => inl (ErrorOperation (name sh) op e) | inr b => inr (g b) end, set_backend r' w).
Proof.
  intros E Hs Hl. assert (E' : on_backend f w = Done (a, set_backend r' w)) by (unfold on_backend; by rewrite E).
  rewrite (M_bind_eq _ _ _ _ _ E'), (M_bind_eq _ _ _ _ _ (ErrorOperation_eq (set_backend r' w) s ins sh op _ Hs Hl)). by destruct (conv a).
Qed.

Lemma call_body_ok w s ins sh op m : backend_ok (reg_backend w) → instances w !! s = Some ins → shareds w !! shared ins = Some sh →
  view (reg_backend w) (backend sh) = Some (name sh, m) →
  ∃ r r' m', call_body s op (backend sh) w = Done (r, set_backend r' w) ∧ backend_ok r' ∧ call_spec (name sh) op r m m' ∧
    view r' (backend sh) = Some (name sh, m') ∧ ∀ h, h ≠ backend sh → view r' h = view (reg_backend w) h.
Proof.
  intros Hb Hs Hl Hv. destruct op as [k|k v|k v|k]; unfold call_body.
  - destruct (has_ok _ _ _ _ k Hb Hv) as (r' & E & Hr & Ho). eexists _, r', m. split; [by eapply (body_eq (λ r, has (backend sh) k r) (λ r, r))|].
    by rewrite Ho.
  - destruct (get_ok _ _ _ _ k v Hb Hv) as (res & r' & E & Hr & Ho & Hres). eexists _, r', m.
    split; [by eapply (body_eq (λ r, get (backend sh) k v r) (λ r, r))|]. split; [done|]. split; [|by rewrite Ho].
    split; [done|]. destruct (m !! k); [by subst res; destruct (convert_out _ v)|]. destruct Hres as [e ->]. by exists e.
  - destruct (set_ok _ _ _ _ k v Hb Hv) as (err & r' & E & Hr & Ho & Hres).
    destruct (convert_in v) as [e|x] eqn:Ev.
    + destruct Hres as [-> Hv']. eexists _, r', m. split; [by eapply (body_eq (λ r, set (backend sh) k v r) result_of)|].
      split; [done|]. split; [|done]. simpl. by rewrite Ev.
    + eexists _, r', (<[ k := x ]> m). split; [by eapply (body_eq (λ r, set (backend sh) k v r) result_of)|].
      split; [done|]. split; [|done]. simpl. rewrite Ev. split; [done|]. destruct err as [e|]; [right; by exists e|by left].
  - destruct (remove_ok _ _ _ _ k Hb Hv) as (err & r' & E & Hr & Hv' & Ho). eexists _, r', (delete k m).
    split; [by eapply (body_eq (λ r, remove (backend sh) k r) result_of)|]. split; [done|]. split; [|done].
    split; [done|]. destruct err as [e|]; [right; by exists e|by left].
Qed.

Lemma tables_call c σ i s op : tables c σ → (Z.of_nat (length (instances (heap c)) + length (pool c)) < int_max)%Z →
  pool c !! i = Some (Calling s op) → ∃ c' σ' n r, move c i ANext = Done c' ∧ tables c' σ' ∧
    pool c' = <[ i := Returning s r ]> (pool c) ∧ mark_of c i ANext c' = Some (Happens (ECall n op r)) ∧ spec_step σ (ECall n op r) σ'.
Proof.
  intros Ht Hmax Hi. pose proof Ht as [Hc Hq Hop Hb Ha Hv Hvd Hn]. destruct (lookup_lt_is_Some_2 _ _ (inv_gor c Hc i _ Hi)) as [ins Hs].
  destruct (inv_ins c Hc s ins Hs) as [[sh Hl]%lookup_lt_is_Some_2 _]. destruct (Hv _ sh Hl) as (m & Hm & Hview).
  destruct (call_body_ok (heap c) s ins sh op m Hb Hs Hl Hview) as (r & r' & m' & E & Hr & Hspec & Hnew & Hother).
  assert (Hmove : move c i ANext = Done (mkConfig (set_backend r' (heap c)) (<[ i := Returning s r ]> (pool c)) (closed_stores c))).
  { unfold move. rewrite Hi. cbn [act]. unfold call_backend. rewrite (M_bind_eq _ _ _ _ _ (store_shared_eq _ _ _ Hs)).
    rewrite (M_bind_eq _ _ _ _ _ (get_shared_eq _ _ _ Hl)), (M_bind_eq _ _ _ _ _ E). done. }
  eexists _, (<[ name sh := m' ]> σ), (name sh), r. split; [exact Hmove|]. split; [|split; [done|split; [|by eapply spec_call]]].
  2: { unfold mark_of. rewrite Hi. cbn [pool]. rewrite list_lookup_insert_eq by (by eapply lookup_lt_Some).
    unfold name_of. rewrite Hs. simpl. by rewrite Hl. }
  split; cbn [heap pool closed_stores set_backend reg_backend reg_active shareds]; try done.
  - by apply (move_keeps_inv c i ANext).
  - intros j g [(-> & <- & _)|[_ Hj]]%list_lookup_insert_Some; [done|by eapply Hq].
  - intros l sh' Hl'. destruct (Hv l sh' Hl') as (m0 & Hm0 & Hv0). destruct (decide (name sh' = name sh)) as [Hname|Hname].
    + pose proof (Ha _ _ Hl') as E1. pose proof (Ha _ _ Hl) as E2. rewrite Hname, E2 in E1. injection E1 as <-.
      assert (sh' = sh) as -> by congruence. exists m'. by rewrite lookup_insert_eq.
    + exists m0. rewrite lookup_insert_ne by done. split; [done|]. rewrite Hother; [done|]. intros Heq. rewrite Heq in Hv0. congruence.
  - intros h n' m0 Hv0. destruct (decide (h = backend sh)) as [->|Hne].
    + rewrite Hnew in Hv0. injection Hv0 as <- <-. by exists (shared ins), sh.
    + rewrite Hother in Hv0 by done. by eapply Hvd.
  - intros n'. destruct (decide (name sh = n')) as [<-|Hne]; [intros _; eexists; by apply (Ha (shared ins))|].
    rewrite lookup_insert_ne by done. apply Hn.
Qed.

(** The other steps of a call. *)
Lemma tables_group c σ i s ins gr g' : tables c σ → instances (heap c) !! s = Some ins → quiet g' = true →
  is_open (mkInstance (shared ins) gr) = true →
  inv (mkConfig (put_group s (shared ins) gr (heap c)) (<[ i := g' ]> (pool c)) (closed_stores c)) →
  tables (mkConfig (put_group s (shared ins) gr (heap c)) (<[ i := g' ]> (pool c)) (closed_stores c)) σ.
Proof.
  intros Ht Hs Hg Ho Hinv. apply tables_change; [done..| | |].
  - intros s' i' [[-> ->]|[_ Hi']]%lookup_put_group; [done|by eapply Ht].
  - intros l sh' Hl. by exists sh'.
  - intros l sh' Hl. by exists sh'.
Qed.

Lemma tables_begin c σ i s op : tables c σ → (Z.of_nat (length (instances (heap c)) + length (pool c)) < int_max)%Z →
  pool c !! i = Some Idle → s < length (instances (heap c)) →
  ∃ c', move c i (ACall s op) = Done c' ∧ tables c' σ ∧ pool c' = <[ i := Calling s op ]> (pool c) ∧ mark_of c i (ACall s op) c' = Some (Begins op).
Proof.
  intros Ht Hmax Hi [ins Hs]%lookup_lt_is_Some_2. pose proof (tb_inv c σ Ht) as Hc. pose proof (tb_open c σ Ht s ins Hs) as Ho.
  destruct (inv_ins c Hc s ins Hs) as [_ [Hz _]]. unfold is_open in Ho. destruct (wgState (active ins)) as [z cl] eqn:Est. simpl in *.
  destruct cl; [done|]. pose proof (calls_le c s) as Hle. destruct (wgAdd_open _ _ Est) as [Hadd Hst]; [lia|].
  assert (Hmove : move c i (ACall s op) = Done (mkConfig (put_group s (shared ins) (wgAdd 1 (active ins)).2 (heap c)) (<[ i := Calling s op ]> (pool c)) (closed_stores c))).
  { unfold move. rewrite Hi. cbn [act]. unfold call_begin. rewrite (M_bind_eq _ _ _ _ _ (active_Add_eq _ _ _ Hs)). by rewrite Hadd. }
  eexists. split; [exact Hmove|]. split; [|split; [done|]].
  - apply tables_group; [done..|unfold is_open; simpl; by rewrite Hst|by apply (move_keeps_inv c i (ACall s op))].
  - unfold mark_of. rewrite Hi. cbn [pool]. by rewrite list_lookup_insert_eq by (by eapply lookup_lt_Some).
Qed.

Lemma tables_end c σ i s r : tables c σ → (Z.of_nat (length (instances (heap c)) + length (pool c)) < int_max)%Z →
  pool c !! i = Some (Returning s r) →
  ∃ c', move c i ANext = Done c' ∧ tables c' σ ∧ pool c' = <[ i := Idle ]> (pool c) ∧ mark_of c i ANext c' = Some (Ends r).
Proof.
  intros Ht Hmax Hi. pose proof (tb_inv c σ Ht) as Hc. destruct (lookup_lt_is_Some_2 _ _ (inv_gor c Hc i _ Hi)) as [ins Hs].
  pose proof (tb_open c σ Ht s ins Hs) as Ho. destruct (inv_ins c Hc s ins Hs) as [_ [Hz _]]. unfold is_open in Ho.
  destruct (wgState (active ins)) as [z cl] eqn:Est. simpl in *. destruct cl; [done|].
  pose proof (count_lookup (in_call s) _ _ _ Hi) as Hp. simpl in Hp. rewrite bool_decide_true in Hp by done. specialize (Hp eq_refl).
  pose proof (wgDone_state _ _ _ Est ltac:(lia)) as Hst.
  assert (Hmove : move c i ANext = Done (mkConfig (put_group s (shared ins) (wgDone (active ins)) (heap c)) (<[ i := Idle ]> (pool c)) (closed_stores c))).
  { unfold move. rewrite Hi. cbn [act]. unfold call_end. by rewrite (M_bind_eq _ _ _ _ _ (active_Done_eq _ _ _ Hs)). }
  eexists. split; [exact Hmove|]. split; [|split; [done|unfold mark_of; by rewrite Hi]].
  apply tables_group; [done..|unfold is_open; simpl; by rewrite Hst|by apply (move_keeps_inv c i ANext)].
Qed.

(** *** Every run has a history *)

(** What a goroutine may do next. *)
Definition enabled c (i : nat) (a : action V) : bool :=
  match pool c !! i, a with
  | Some Idle, AGet _ | Some (Calling _ _), ANext | Some (Returning _ _), ANext => true
  | Some Idle, ACall s _ => bool_decide (s < length (instances (heap c)))
  | _, _ => false
  end.

Lemma tables_progress c σ i a : tables c σ → (Z.of_nat (length (instances (heap c)) + length (pool c)) < int_max)%Z → enabled c i a = true →
  ∃ c' σ' g g', move c i a = Done c' ∧ tables c' σ' ∧ pool c !! i = Some g ∧ pool c' = <[ i := g' ]> (pool c) ∧
    (∀ l, orderly l (progress_of g) → orderly (l ++ option_list (mark_of c i a c')) (progress_of g')) ∧
    match mark_of c i a c' with Some (Happens e) => spec_step σ e σ' | _ => σ' = σ end.
Proof.
  intros Ht Hmax. unfold enabled. destruct (pool c !! i) as [[|s op|s r| | | | | |]|] eqn:Hi; try done; destruct a as [n|s' op'| |]; try done.
  - intros _. destruct (tables_get c σ i n Ht Hmax Hi) as (c' & σ' & E & Ht' & Hp & Hm). exists c', σ', Idle, Idle.
    split; [done|]. split; [done|]. split; [done|]. split; [done|]. destruct Hm as [[Hm ->]|(m & Hm & Hs)]; rewrite Hm; simpl.
    + split; [|done]. intros l. by rewrite app_nil_r.
    + split; [|done]. intros l. apply orderly_open.
  - intros Hs%bool_decide_eq_true. destruct (tables_begin c σ i s' op' Ht Hmax Hi Hs) as (c' & E & Ht' & Hp & Hm).
    exists c', σ, Idle, (Calling s' op'). do 4 (split; [done|]). rewrite Hm. split; [|done]. intros l. apply orderly_begin.
  - intros _. destruct (tables_call c σ i s op Ht Hmax Hi) as (c' & σ' & n & r & E & Ht' & Hp & Hm & Hs).
    exists c', σ', (Calling s op), (Returning s r). do 4 (split; [done|]). rewrite Hm. split; [|done]. intros l. apply orderly_call.
  - intros _. destruct (tables_end c σ i s r Ht Hmax Hi) as (c' & E & Ht' & Hp & Hm).
    exists c', σ, (Returning s r), Idle. do 4 (split; [done|]). rewrite Hm. split; [|done]. intros l. apply orderly_end.
Qed.

Lemma move_enabled c σ i a c' : tables c σ → closing a = false → move c i a = Done c' → enabled c i a = true.
Proof.
  intros Ht Ha Hm. unfold enabled. unfold move in Hm. destruct (pool c !! i) as [g|] eqn:Hi; [|done].
  pose proof (tb_quiet c σ Ht i g Hi) as Hg. destruct g, a; try done. cbn [act] in Hm.
  apply bind_Done_inv in Hm as ([g' w'] & (err & w1 & (ins & Hs & _)%active_Add_inv & _)%M_bind_inv & _).
  apply bool_decide_eq_true. by eapply lookup_lt_Some.
Qed.

(** What the log says of the marks of a step. *)
Lemma happenings_step c i a c' : happenings (option_list (pair i <$> mark_of c i a c')) =
  match mark_of c i a c' with Some (Happens e) => [e] | _ => [] end.
Proof. by destruct (mark_of c i a c') as [[]|]. Qed.
Lemma marks_by_step (i j : nat) (o : option (mark V X)) : marks_by j (option_list (pair i <$> o)) = if decide (i = j) then option_list o else [].
Proof. destruct o; simpl; [|by case_decide]. unfold marks_by. simpl. by case_decide. Qed.

Lemma run_history r n log c : backend_ok r → (∀ h, view r h = None) → run (start r n) log c →
  (Z.of_nat (length (instances (heap c)) + length (pool c)) < int_max)%Z →
  ∃ σ, history (happenings log) σ ∧ tables c σ ∧ ∀ i g, pool c !! i = Some g → orderly (marks_by i log) (progress_of g).
Proof.
  intros Hr Hv. induction 1 as [|log c i a c' _ IH Ha Hm].
  - intros _. exists ∅. split; [constructor|]. split; [by apply tables_start|]. simpl. intros i g Hi.
    apply lookup_replicate in Hi as [-> _]. constructor.
  - intros Hmax. pose proof (move_grows _ _ _ _ Hm). destruct IH as (σ & Hh & Ht & Ho); [lia|].
    destruct (tables_progress c σ i a Ht ltac:(lia) (move_enabled _ _ _ _ _ Ht Ha Hm)) as (c1 & σ' & g & g' & E & Ht' & Hg & Hp & Hord & Hspec).
    assert (c1 = c') as -> by congruence. exists σ'. split; [|split; [done|]].
    + rewrite happenings_app, happenings_step. destruct (mark_of c i a c') as [[op|e|res]|]; rewrite ?Hspec, ?app_nil_r; try done.
      by eapply history_snoc.
    + intros j gj Hj. rewrite Hp in Hj. rewrite marks_by_app, marks_by_step.
      apply list_lookup_insert_Some in Hj as [(-> & <- & _)|[Hne Hj]].
      * rewrite decide_True by done. by apply Hord, Ho.
      * rewrite decide_False, app_nil_r by done. by apply Ho.
Qed.

(** A schedule and its log. *)
Fixpoint trace c (l : list (nat * action V)) : outcome (list (nat * mark V X) * config) :=
  match l with
  | [] => Done ([], c)
  | (i, a) :: l =>
    if closing a then OutOfFuel
    else c' ← move c i a; r ← trace c' l; Done (option_list (pair i <$> mark_of c i a c') ++ r.1, r.2)
  end.

Lemma run_app c0 log c l log' c' : run c0 log c → trace c l = Done (log', c') → run c0 (log ++ log') c'.
Proof.
  revert log c log'. induction l as [|[i a] l IH]; intros log c log' Hr; simpl; [intros [= <- <-]; by rewrite app_nil_r|].
  destruct (closing a) eqn:Ha; [done|]. intros (c1 & Hm & ([log1 c2] & Ht & [= <- <-])%bind_Done_inv)%bind_Done_inv.
  rewrite (assoc_L (++)). eapply IH; [|exact Ht]. by eapply run_snoc.
Qed.
End runs.

(** C8. The state store is linearizable while stores are opened and used and none is
    closed, on every backend that keeps its contract, by any number of goroutines that
    share instances as they like.  In the log of every run each goroutine's calls begin,
    happen once and end with the result they happened with; what happens, in the
    order of the log, are the operations, with their results, of a table of named maps
    on which they are done one after the other, starting with what the backend kept;
    the backend's stores hold the maps of that table; and no goroutine ever waits or
    panics, so that every call returns. *)
Theorem statestore_linearizable {R H V X Ctr W : Type} `{!Convert V X, !Backend R H V X, !BackendLaws R H V X,
    !EqDecision H, !AtomicInt Ctr, !AtomicIntLaws Ctr, !SafeWaitGroup W, !SafeWaitGroupLaws W}
    (r : R) (n : nat) (log : list (nat * mark V X)) (c : config R H V Ctr W) :
  backend_ok r → (∀ h, view r h = None) → (Z.of_nat (length (instances (heap c)) + n) < int_max)%Z → run (start r n) log c →
  (∀ i g, pool c !! i = Some g → orderly (marks_by i log) (progress_of g)) ∧
  (∃ σ, history (happenings log) σ ∧
    ∀ name l, reg_active (heap c) !! name = Some l → ∃ sh m, shareds (heap c) !! l = Some sh ∧ σ !! name = Some m ∧
      view (reg_backend (heap c)) (backend sh) = Some (name, m)) ∧
  (∀ i a, enabled c i a = true → ∃ c', move c i a = Done c').
Proof.
  intros Hr Hv Hmax Hrun. pose proof (reach_grows _ _ (run_reach _ _ _ Hrun)) as [_ Hlen]. simpl in Hlen. rewrite length_replicate in Hlen.
  destruct (run_history r n log c Hr Hv Hrun) as (σ & Hh & Ht & Ho); [lia|]. split; [done|]. split.
  - exists σ. split; [done|]. intros name l Ha. destruct (inv_active c (tb_inv c σ Ht) name l Ha) as (sh & Hl & <-).
    destruct (tb_view c σ Ht l sh Hl) as (m & ? & ?). by exists sh, m.
  - intros i a He. destruct (tables_progress c σ i a Ht ltac:(lia) He) as (c' & _ & _ & _ & E & _). by exists c'.
Qed.

(** ** Overlapping calls on the backend in memory *)
#[local] Existing Instance string_convert.
#[local] Instance table_memory : Backend (MemoryStore string) string string string := memory_backend map_to_list.
#[local] Instance table_memory_laws : BackendLaws (MemoryStore string) string string string := memory_laws map_to_list (λ _, reflexivity _).

(** Goroutine 1 starts to read before goroutine 0 writes and is served after it; the
    look-up that started last is served first. *)
Definition overlapping : list (nat * action string) :=
  [(0, AGet "a"); (0, ACall 0 (CSet "k" "v")); (1, ACall 0 (CGet "k" "")); (2, ACall 0 (CHas "k")); (2, ANext);
   (0, ANext); (1, ANext); (0, ANext); (1, ANext); (2, ANext); (0, ACall 0 (CRemove "k")); (0, ANext)]%string.
Definition served : list (event string string) :=
  [EOpen "a" ∅; ECall "a" (CHas "k") (inr (Found false)); ECall "a" (CSet "k" "v") (inr Nothing);
   ECall "a" (CGet "k" "") (inr (Value "v")); ECall "a" (CRemove "k") (inr Nothing)]%string.

Lemma statestore_linearizable_witness : ∃ (c : config (MemoryStore string) string string Z (Z * bool)) σ log,
  run (start NewMemoryStoreBackend 3) log c ∧ happenings log = served ∧ history served σ ∧
  orderly (marks_by 1 log) AtRest ∧ marks_by 1 log = [Begins (CGet "k" ""); Happens (ECall "a" (CGet "k" "") (inr (Value "v"))); Ends (inr (Value "v"))]%string.
Proof.
  destruct (trace (start NewMemoryStoreBackend 3 : config (MemoryStore string) string string Z (Z * bool)) overlapping)
    as [[log c]| |] eqn:E; [|vm_compute in E; discriminate E..].
  pose proof (run_app _ [] _ _ _ _ (run_nil _) E) as Hr. simpl in Hr.
  assert (Hlog : happenings log = served ∧ length (instances (heap c)) = 1 ∧ pool c !! 1 = Some Idle ∧
    marks_by 1 log = [Begins (CGet "k" ""); Happens (ECall "a" (CGet "k" "") (inr (Value "v"))); Ends (inr (Value "v"))]%string).
  { vm_compute in E. injection E as <- <-. split; [reflexivity|]. split; [reflexivity|]. split; reflexivity. }
  destruct Hlog as (Hes & Hlen & Hp & Hmarks).
  destruct (statestore_linearizable NewMemoryStoreBackend 3 log c) as (Ho & (σ & Hh & _) & _); [exact I|reflexivity|by rewrite Hlen|exact Hr|].
  exists c, σ, log. split; [exact Hr|]. split; [exact Hes|]. split; [by rewrite <-Hes|]. split; [exact (Ho 1 Idle Hp)|exact Hmarks].
Defined.
