(* ===== verification/Cursor.v ===== *)
(** * The stateful input manager: pkg/manager/input/input-cursor

    The in-memory states of the resources of an input type, which run ahead of
    the persistent store, with the update operations that close the gap when
    events are acknowledged (store.go, publish.go, cursor.go), the removal of old
    entries (clean.go), and the life of an input (input.go, manager.go).

    Pointers to resources and update operations are indices into the heaps of
    [store].  Times and durations are numbers of nanoseconds, and the zero [time.Time]
    is 0.  A critical section under a resource's [stateMutex] or under
    [states.mu] is one step.  [C] are the non-nil cursor values. *)

From stdpp Require Import base gmap strings list fin_maps.
From Stdlib Require Import ZArith Lia.
From S2P Require Import Prelude Fs Backend Concert Statestore.

(** The document of a key in the persistent store. *)
Record stateInternal := mkInternal { TTL : Z; Updated : Z }.
Record state (C : Type) := mkState { sTTL : Z; sUpdated : Z; sCursor : option C }.
Arguments mkState {_} _ _ _.
Arguments sTTL {_} _.
Arguments sUpdated {_} _.
Arguments sCursor {_} _.

Section cursor.
Context {R H X Ctr W U Rc L C E : Type} `{!Backend R H (state C) X, !AtomicInt Ctr, !SafeWaitGroup W,
  !AtomicUint64 U, !RefCount Rc, !Mutex L}.

(** [typeconv.Convert(&to, from)] between cursor values. *)
Context (Convert : option C → option C → goerr + option C).

Record resource := mkResource {
  pending : U;
  lock : L;
  key : string;
  stored : bool;
  internalInSync : bool;
  activeCursorOperations : Z;
  internalState : stateInternal;
  cursor : option C;
  pendingCursor : option C
}.

(** The zero value is left by [done]. *)
Record updateOp := mkOp { op_resource : option nat; timestamp : Z; delta : option C }.

(** [store] with [states], the heaps, the registry's state and the events given to
    the client, each with its [Private] field. *)
Record store := mkStore {
  refCount : Rc;
  persistent : world R H Ctr W;
  persistentStore : nat;
  table : gmap string nat;
  resources : list resource;
  ops : list updateOp;
  sent : list (E * option nat)
}.
Abbreviation prog := (M store).

Definition set_refs c s := mkStore c (persistent s) (persistentStore s) (table s) (resources s) (ops s) (sent s).
Definition set_persistent w s := mkStore (refCount s) w (persistentStore s) (table s) (resources s) (ops s) (sent s).
Definition set_table t s := mkStore (refCount s) (persistent s) (persistentStore s) t (resources s) (ops s) (sent s).
Definition set_resources l s := mkStore (refCount s) (persistent s) (persistentStore s) (table s) l (ops s) (sent s).
Definition set_ops l s := mkStore (refCount s) (persistent s) (persistentStore s) (table s) (resources s) l (sent s).
Definition set_sent l s := mkStore (refCount s) (persistent s) (persistentStore s) (table s) (resources s) (ops s) l.

Definition set_pending u r := mkResource u (lock r) (key r) (stored r) (internalInSync r) (activeCursorOperations r)
  (internalState r) (cursor r) (pendingCursor r).
Definition set_lock m r := mkResource (pending r) m (key r) (stored r) (internalInSync r) (activeCursorOperations r)
  (internalState r) (cursor r) (pendingCursor r).
Definition set_sync st sy r := mkResource (pending r) (lock r) (key r) st sy (activeCursorOperations r)
  (internalState r) (cursor r) (pendingCursor r).
Definition set_internal i r := mkResource (pending r) (lock r) (key r) (stored r) (internalInSync r)
  (activeCursorOperations r) i (cursor r) (pendingCursor r).
Definition set_cursors n c p r := mkResource (pending r) (lock r) (key r) (stored r) (internalInSync r) n
  (internalState r) c p.

(** A call on the persistent store. *)
Definition on_persistent {A} (f : nat → M (world R H Ctr W) A) : prog A := λ s,
  r ← f (persistentStore s) (persistent s); Done (r.1, set_persistent r.2 s).

Definition get_resource (l : nat) : prog resource := λ s, nonnil (resources s !! l) s.
Definition put_resource (l : nat) (r : resource) : prog () := modify (λ s, set_resources (<[ l := r ]> (resources s)) s).
Definition update_resource (l : nat) (f : resource → resource) : prog () := r ← get_resource l; put_resource l (f r).

(** ** store.go *)
Definition Retain (l : nat) : prog () := update_resource l (λ r, set_pending (uInc (pending r)) r).
Definition Release (l : nat) : prog () := update_resource l (λ r, set_pending (uDec (pending r)) r).
Definition UpdatesReleaseN (l : nat) (n : Z) : prog () := update_resource l (λ r, set_pending (uSub n (pending r)) r).
Definition Finished (r : resource) : bool := bool_decide (uLoad (pending r) = 0%Z).

Definition new_resource (k : string) : resource :=
  mkResource uZero MakeMutex k false false 0 (mkInternal 0 0) None None.
Definition alloc_resource (r : resource) : prog nat := λ s,
  Done (length (resources s), set_resources (resources s ++ [r]) s).

Definition Find (k : string) (create : bool) : prog (option nat) :=
  t ← gets table;
  match t !! k with
  | Some l => Retain l;; mret (Some l)
  | None =>
    if negb create then mret None
    else
      l ← alloc_resource (new_resource k);
      modify (λ s, set_table (<[ k := l ]> (table s)) s);;
      Retain l;;
      mret (Some l)
  end.
Definition store_Get (k : string) : prog (option nat) := Find k true.

Definition IsNew (r : resource) : bool := bool_decide (pendingCursor r = None ∧ cursor r = None).

Definition UnpackCursor (r : resource) (to : option C) : goerr + option C :=
  if bool_decide (activeCursorOperations r = 0%Z) then Convert to (cursor r) else Convert to (pendingCursor r).

Definition inSyncStateSnapshot (r : resource) : state C :=
  mkState (TTL (internalState r)) (Updated (internalState r)) (cursor r).

Definition stateSnapshot (r : resource) : state C :=
  let c := if bool_decide (activeCursorOperations r = 0%Z) then cursor r else pendingCursor r in
  mkState (TTL (internalState r)) (Updated (internalState r)) c.

Definition UpdateTTL (l : nat) (ttl : Z) (now : Z) : prog () :=
  r ← get_resource l;
  if stored r && bool_decide (TTL (internalState r) = ttl) then mret ()
  else
    let updated := Updated (internalState r) in
    let r := set_internal (mkInternal ttl (if bool_decide (updated = 0%Z) then now else updated)) r in
    put_resource l r;;
    err ← on_persistent (λ ps, Set_ ps (key r) (inSyncStateSnapshot r));
    match err with
    | inl _ => update_resource l (λ r, set_sync (stored r) false r)
    | inr _ => update_resource l (set_sync true true)
    end.

(** [(store.Retain)], [(store.Release)] and [close]. *)
Definition store_Retain : prog () := modify (λ s, set_refs (rcRetain (refCount s)) s).
Definition close : prog () := on_persistent Close;; mret ().
Definition store_Release : prog () :=
  c ← gets refCount;
  modify (set_refs (rcRelease c).2);;
  if (rcRelease c).1 then close else mret ().

(** The callback of [readStates], which adds a resource for a key. *)
Definition loaded_resource (k : string) (st : state C) : resource :=
  mkResource uZero MakeMutex k true true 0 (mkInternal (sTTL st) (sUpdated st)) (sCursor st) None.
Definition read_entry (decode : X → goerr + state C) (keyPrefix : string) (k : string) (x : X)
    (st : gmap string nat * list resource) : outcome (bool * option goerr * (gmap string nat * list resource)) :=
  if negb (String.prefix keyPrefix k) then Done (true, None, st)
  else
    match decode x with
    | inl _ => Done (true, None, st)
    | inr v => Done (true, None, (<[ k := length st.2 ]> st.1, st.2 ++ [loaded_resource k v]))
    end.
Definition readStates (decode : X → goerr + state C) (prefix : string) (ps : nat) :
    M (world R H Ctr W) (sserr + (gmap string nat * list resource)) :=
  r ← Each ps (read_entry decode (prefix +:+ "::")) (∅, []);
  match r with
  | inl err => mret (inl err)
  | inr (Some err, _) => mret (inl err)
  | inr (None, st) => mret (inr st)
  end.

(** [access] is [StateStore.Access]. *)
Definition openStore (decode : X → goerr + state C) (access : M (world R H Ctr W) (sserr + nat)) (prefix : string) :
    M (world R H Ctr W) (sserr + store) :=
  r ← access;
  match r with
  | inl err => mret (inl err)
  | inr ps =>
    st ← readStates decode prefix ps;
    match st with
    | inl err => Close ps;; mret (inl err)
    | inr (t, rs) => λ w, Done (inr (mkStore rcZero w ps t rs [] []), w)
    end
  end.

(** ** publish.go *)
Definition alloc_op (op : updateOp) : prog nat := λ s, Done (length (ops s), set_ops (ops s ++ [op]) s).

Definition createUpdateOp (l : nat) (updates : option C) (ts : Z) : prog (goerr + nat) :=
  r ← get_resource l;
  let n := activeCursorOperations r in
  let r := if bool_decide (n = 0%Z) then
      let tmp := match Convert None (pendingCursor r) with inr tmp => tmp | inl _ => None end in
      set_cursors n (cursor r) tmp r
    else r in
  put_resource l r;;
  match Convert (pendingCursor r) updates with
  | inl err => mret (inl err)
  | inr c =>
    put_resource l (set_cursors n (cursor r) c r);;
    Retain l;;
    update_resource l (λ r, set_cursors (wrap 64 (n + 1)) (cursor r) (pendingCursor r) r);;
    op ← alloc_op (mkOp (Some l) ts updates);
    mret (inr op)
  end.

Definition get_op (o : nat) : prog updateOp := λ s, nonnil (ops s !! o) s.

Definition done (o : nat) (n : Z) : prog () :=
  op ← get_op o;
  l ← nonnil (op_resource op);
  UpdatesReleaseN l n;;
  modify (λ s, set_ops (<[ o := mkOp None 0 None ]> (ops s)) s).

Definition Execute (o : nat) (n : Z) : prog () :=
  op ← get_op o;
  l ← nonnil (op_resource op);
  r ← get_resource l;
  let active := wrap 64 (activeCursorOperations r - n) in
  let r := if bool_decide (active = 0%Z) then set_cursors active (pendingCursor r) None r
    else set_cursors active (match Convert (cursor r) (delta op) with inr c => c | inl _ => cursor r end) (pendingCursor r) r in
  let i := internalState r in
  let r := set_internal (mkInternal (TTL i) (if bool_decide (Updated i < timestamp op)%Z then timestamp op else Updated i)) r in
  put_resource l r;;
  err ← on_persistent (λ ps, Set_ ps (key r) (inSyncStateSnapshot r));
  match err with
  | inl _ => mret ()
  | inr _ => update_resource l (set_sync true true)
  end;;
  done o n.

(** [cancelled] is [canceler.Err()]. *)
Definition forward (event : E) (private : option nat) (cancelled : option goerr) : prog (option goerr) :=
  modify (λ s, set_sent (sent s ++ [(event, private)]) s);;
  mret cancelled.

(** [private] is the event's own [Private] field. *)
Definition Publish (l : nat) (event : E) (private : option nat) (cursorUpdate : option C) (ts : Z)
    (cancelled : option goerr) : prog (option goerr) :=
  match cursorUpdate with
  | None => forward event private cancelled
  | Some _ =>
    r ← createUpdateOp l cursorUpdate ts;
    match r with
    | inl err => mret (Some err)
    | inr op => forward event (Some op) cancelled
    end
  end.

(** ** cursor.go *)
Definition Cursor_IsNew (l : nat) : prog bool := r ← get_resource l; mret (IsNew r).
Definition Cursor_Unpack (l : nat) (to : option C) : prog (goerr + option C) :=
  new ← Cursor_IsNew l;
  if (new : bool) then mret (inr to)
  else r ← get_resource l; mret (UnpackCursor r to).

(** ** clean.go *)
Definition checkCleanResource (started now : Z) (r : resource) : bool :=
  if negb (Finished r) then false
  else
    let reference := Updated (internalState r) in
    let reference := if bool_decide (started > reference)%Z then started else reference in
    bool_decide (reference + TTL (internalState r) < now)%Z && stored r.

Definition gcFind (started now : Z) (s : store) : gset string :=
  dom (filter (λ kl : string * nat,
    match resources s !! kl.2 with Some r => checkCleanResource started now r | None => false end = true) (table s)).

Fixpoint gcClean (removeSet : list string) : prog (option sserr) :=
  match removeSet with
  | [] => mret None
  | k :: removeSet =>
    err ← on_persistent (λ ps, Remove ps k);
    match err with
    | inl e => mret (Some e)
    | inr _ => modify (λ s, set_table (delete k (table s)) s);; gcClean removeSet
    end
  end.

(** [order] is the order in which [range] visits the set. *)
Definition gcStore (order : gset string → list string) (started now : Z) : prog () :=
  keys ← gets (gcFind started now);
  if bool_decide (keys = ∅) then mret ()
  else gcClean (order keys);; mret ().

(** ** input.go, manager.go *)

(** The callback of [newInputACKHandler]: [private] are the [Private] fields of the
    events that are acknowledged, nil or an update operation.  The loop counts the
    operations and finds the last. *)
Fixpoint scan_private (i : nat) (private : list (option nat)) (n : Z) (last : nat) : Z * nat :=
  match private with
  | [] => (n, last)
  | None :: private => scan_private (S i) private n last
  | Some _ :: private => scan_private (S i) private (wrap 64 (n + 1)) i
  end.
Definition ACKHandler (private : list (option nat)) : prog () :=
  let '(n, last) := scan_private 0 private 0 0 in
  if bool_decide (n = 0%Z) then mret ()
  else
    o ← nonnil (mjoin (private !! last));
    Execute o n.

(** [LockContext] returns [cancelled] if the mutex is held and the context is
    cancelled; held and not cancelled, the goroutine waits. *)
Definition lockResource (l : nat) (cancelled : option goerr) : prog (option goerr) :=
  r ← get_resource l;
  if (TryLock (lock r)).1 then put_resource l (set_lock (TryLock (lock r)).2 r);; mret None
  else
    match cancelled with
    | Some err => mret (Some err)
    | None => panic "all goroutines are asleep - deadlock!"
    end.

Definition manager_lock (k : string) (cancelled : option goerr) : prog (goerr + nat) :=
  r ← store_Get k;
  l ← nonnil r;
  err ← lockResource l cancelled;
  match err with
  | Some err => Release l;; mret (inl err)
  | None => mret (inr l)
  end.

Definition unlock (l : nat) : prog () :=
  r ← get_resource l;
  (λ s, m ← Unlock (lock r); put_resource l (set_lock m r) s) : prog ().
Definition releaseResource (l : nat) : prog () := unlock l;; Release l.

Definition createSourceID (Type_ userID source : string) : string :=
  if negb (bool_decide (userID = ""%string)) then Type_ +:+ "::" +:+ userID +:+ "::" +:+ source
  else Type_ +:+ "::" +:+ source.

(** How a call of an input's [Run] ends. *)
Inductive run_end := Returned (err : option goerr) | Panicked (v : string).

(** [runSource]: [connect] is the result of [ConnectWith], [client_Close] the
    client's [Close] and [run] the input's [Run] on the resource; the deferred calls
    also run when the input panics, which is recovered. *)
Definition runSource (connect : option goerr) (cancelled : option goerr) (resourceKey : string) (cleanTimeout now : Z)
    (client_Close : prog ()) (run : nat → prog run_end) : prog (option goerr) :=
  match connect with
  | Some err => mret (Some err)
  | None =>
    r ← manager_lock resourceKey cancelled;
    match r with
    | inl err => client_Close;; mret (Some err)
    | inr l =>
      UpdateTTL l cleanTimeout now;;
      e ← run l;
      releaseResource l;;
      client_Close;;
      mret (match e with
        | Returned err => err
        | Panicked v => Some (errText ("input panic with: " +:+ v))
        end)
    end
  end.
End cursor.
Arguments resource : clear implicits.
Arguments updateOp : clear implicits.
Arguments store : clear implicits.

(** The manager's own fields.  [init] runs once. *)
Section manager.
Context {R H X Ctr W U Rc L C E : Type} `{!Backend R H (state C) X, !AtomicInt Ctr, !SafeWaitGroup W,
  !AtomicUint64 U, !RefCount Rc, !Mutex L}.
Abbreviation store := (store R H Ctr W U Rc L C E).

Record InputManager := mkManager {
  initDone : bool;
  initErr : option sserr;
  DefaultCleanTimeout : Z;
  mstore : option store
}.

Definition minute : Z := (60 * 10 ^ 9)%Z.

(** [init], on the registry [w]; afterwards the registry is that of the store. *)
Definition init (open : M (world R H Ctr W) (sserr + store)) (m : InputManager) (w : world R H Ctr W) :
    outcome (option sserr * InputManager * world R H Ctr W) :=
  if initDone m then Done (initErr m, m, w)
  else
    let timeout := if bool_decide (DefaultCleanTimeout m ≤ 0)%Z then (30 * minute)%Z else DefaultCleanTimeout m in
    r ← open w;
    match r with
    | (inl err, w) => Done (Some err, mkManager true (Some err) timeout None, w)
    | (inr s, w) => Done (None, mkManager true None timeout (Some s), w)
    end.

(** [shutdown] gives up the manager's hold of the store. *)
Definition shutdown : M store () := store_Release.

(** [Init] in [ModeRun] after [init]: the cleaner owns the store too until its
    goroutine, which [started] tells to have been accepted by the group, ends. *)
Definition Init_start (started : option goerr) : M store (option goerr) :=
  store_Retain;;
  match started with
  | Some err => store_Release;; shutdown;; mret (Some err)
  | None => mret None
  end.
(** The deferred calls of the cleaner's goroutine: [store.Release], [shutdown]. *)
Definition Init_end : M store () := store_Release;; shutdown.

Definition cleanup_interval (interval : Z) : Z := if bool_decide (interval ≤ 0)%Z then (5 * minute)%Z else interval.

(** [Create]: [open] opens the store, if [init] has not run; [unpack] is
    [config.Unpack] of the settings, the ID and the timeout; [configured] is the
    result of [Configure], the names of the sources and whether there is an
    input. *)
Definition errNoSourceConfigured : goerr := errText "no source has been configured".
Definition errNoInputRunner : goerr := errText "no input runner available".
Record managedInput := mkManaged { userID : string; sources : list string; cleanTimeout : Z }.
Definition Create (open : M (world R H Ctr W) (sserr + store)) (m : InputManager)
    (unpack : string * Z → goerr + string * Z) (configured : goerr + list string * bool) (w : world R H Ctr W) :
    outcome ((sserr + managedInput) * InputManager * world R H Ctr W) :=
  r ← init open m w;
  let '(err, m, w) := r in
  match err with
  | Some err => Done (inl err, m, w)
  | None =>
    match unpack (""%string, DefaultCleanTimeout m) with
    | inl err => Done (inl (Unwrapped err), m, w)
    | inr (id, timeout) =>
      match configured with
      | inl err => Done (inl (Unwrapped err), m, w)
      | inr (srcs, inp) =>
        if bool_decide (srcs = []) then Done (inl (Unwrapped errNoSourceConfigured), m, w)
        else if negb inp then Done (inl (Unwrapped errNoInputRunner), m, w)
        else Done (inr (mkManaged id srcs timeout), m, w)
      end
    end
  end.
End manager.
