(* ===== verification/CursorFacts.v ===== *)
(** * The cursor of a resource: updates, acknowledgements, what is persisted *)

From stdpp Require Import base gmap strings list fin_maps.
From Stdlib Require Import ZArith Lia.
From S2P Require Import Prelude Fs Backend Concert Statestore StatestoreFacts StatestoreSeq StatestoreSpec Cursor.

Section facts.
Context {R H X Ctr W U Rc L C E : Type} `{!Convert (state C) X, !Backend R H (state C) X, !BackendLaws R H (state C) X,
  !EqDecision H, !AtomicInt Ctr, !AtomicIntLaws Ctr, !SafeWaitGroup W, !SafeWaitGroupLaws W,
  !AtomicUint64 U, !AtomicUint64Laws U, !RefCount Rc, !RefCountLaws Rc, !Mutex L, !MutexLaws L}.
Abbreviation store := (store R H Ctr W U Rc L C E).
Abbreviation world := (world R H Ctr W).
Abbreviation prog := (M store).

(** ** The persistent store *)

(** The persistent store is open and holds the table [m]. *)
Definition holds (w : world) (ps : nat) (m : gmap string X) : Prop := ok w ∧ ∃ n, obs w ps = Some (n, m).

(** The table after writing [v]. *)
Definition saved (k : string) (v : state C) (m : gmap string X) : gmap string X :=
  match convert_in v with inr x => <[ k := x ]> m | inl _ => m end.

Lemma holds_write (w w' : world) ps n m m' : obs w ps = Some (n, m) → abs w' = write n m' <$> abs w → obs w' ps = Some (n, m').
Proof.
  intros Hobs Habs. apply abs_Some. rewrite Habs, list_lookup_fmap. apply abs_Some in Hobs. rewrite Hobs. simpl.
  by rewrite decide_True.
Qed.

Lemma persistent_Set (w : world) ps m k v : holds w ps m →
  ∃ r w', Set_ ps k v w = Done (r, w') ∧ holds w' ps (saved k v m).
Proof.
  intros (Hok & n & Hobs). destruct (exec_set (C := unit) w ps n m k v Hok Hobs) as (r & w' & Eq & Hok' & _ & Hres).
  apply M_bind_inv in Eq as (r0 & w1 & Eq & [= _ <-]). exists r0, w1. split; [done|]. split; [done|]. exists n.
  unfold saved. destruct (convert_in v); [|by eapply holds_write]. destruct Hres as [_ Habs].
  apply abs_Some. rewrite Habs. by apply abs_Some.
Qed.

Lemma persistent_Remove (w : world) ps m k : holds w ps m →
  ∃ r w', Remove ps k w = Done (r, w') ∧ holds w' ps (delete k m).
Proof.
  intros (Hok & n & Hobs). destruct (exec_remove (C := unit) w ps n m k Hok Hobs) as (r & w' & Eq & Hok' & _ & Habs).
  apply M_bind_inv in Eq as (r0 & w1 & Eq & [= _ <-]). exists r0, w1. split; [done|]. split; [done|]. exists n.
  by eapply holds_write.
Qed.

(** ** Steps on resources *)
Lemma get_resource_eq (s : store) l r : resources s !! l = Some r → get_resource l s = Done (r, s).
Proof. intros Hl. unfold get_resource. run_M. by rewrite Hl. Qed.

Definition with_resource (l : nat) (r : resource U L C) (s : store) : store := set_resources (<[ l := r ]> (resources s)) s.

Lemma update_resource_eq (s : store) l r f : resources s !! l = Some r → update_resource l f s = Done ((), with_resource l (f r) s).
Proof. intros Hl. unfold update_resource. by mstep get_resource_eq. Qed.

Lemma with_resource_lookup l r (s : store) r0 : resources s !! l = Some r0 → resources (with_resource l r s) !! l = Some r.
Proof. intros Hl. apply list_lookup_insert_eq. by eapply lookup_lt_Some. Qed.

Lemma with_resource_with l r r' (s : store) : with_resource l r' (with_resource l r s) = with_resource l r' s.
Proof. unfold with_resource, set_resources. simpl. by rewrite list_insert_insert_eq. Qed.

Lemma with_resource_other l r l' (s : store) : l' ≠ l → resources (with_resource l r s) !! l' = resources s !! l'.
Proof. intros Hne. unfold with_resource. simpl. by rewrite list_lookup_insert_ne. Qed.

Lemma on_persistent_eq {A} (s : store) (f : nat → M world A) a w' :
  f (persistentStore s) (persistent s) = Done (a, w') → on_persistent f s = Done (a, set_persistent w' s).
Proof. intros Hf. unfold on_persistent. run_M. by rewrite Hf. Qed.

(** ** The updates of a resource *)
Section updates.
Context (conv : option C → option C → goerr + option C).
(** Updates are complete: what an update makes of a cursor is independent of the
    cursor.  Converting nil gives nil. *)
Context (Hcomplete : ∀ c c' d, conv c (Some d) = conv c' (Some d)).
Context (Hnil : ∀ v, conv None None = inr v → v = None).

(** What the code knows of an update operation [ov.1] on [l]: its value is [ov.2]. *)
Definition op_value (s : store) (l : nat) (ov : nat * option C) : Prop :=
  ∃ d ts, ops s !! ov.1 = Some (mkOp (Some l) ts (Some d)) ∧ conv None (Some d) = inr ov.2.

(** [l] is the resource of key [k] with its lock in state [lk], with [n] owners other than the pending updates
    [qv], operations with their values, in any order; [p] is the value of the last update that was published
    and [b] the cursor that is persisted. *)
Record pends (s : store) (l : nat) (k : string) (lk : L) (n : Z) (qv : list (nat * option C)) (p b : option C) : Prop := {
  pe_resource : ∃ r, resources s !! l = Some r ∧ (key r = k ∧ lock r = lk) ∧ activeCursorOperations r = Z.of_nat (length qv) ∧
    uLoad (pending r) = (n + Z.of_nat (length qv))%Z ∧ cursor r = b ∧ pendingCursor r = if decide (qv = []) then None else p;
  pe_ops : Forall (op_value s l) qv;
  pe_nodup : NoDup qv.*1;
  pe_bound : (0 ≤ n)%Z ∧ (n + Z.of_nat (length qv) < 2 ^ 64)%Z
}.

(** What holds of other resources and operations. *)
Definition others_kept (s s' : store) (l : nat) (q : list nat) : Prop :=
  (∀ l', l' ≠ l → resources s' !! l' = resources s !! l') ∧
  (∀ o op, o ∉ q → ops s !! o = Some op → ops s' !! o = Some op) ∧
  table s' = table s ∧ persistentStore s' = persistentStore s ∧ refCount s' = refCount s ∧
  length (ops s) ≤ length (ops s').

Lemma op_value_snoc (s s' : store) l ov op : ops s' = ops s ++ [op] → op_value s l ov → op_value s' l ov.
Proof. intros Ho (d & ts & E0 & Hv). exists d, ts. split; [|done]. rewrite Ho. by apply lookup_app_l_Some. Qed.

Lemma op_value_insert (s s' : store) l ov o op : ops s' = <[ o := op ]> (ops s) → ov.1 ≠ o → op_value s l ov → op_value s' l ov.
Proof. intros Ho Hne (d & ts & E0 & Hv). exists d, ts. split; [|done]. rewrite Ho. by rewrite list_lookup_insert_ne. Qed.

Lemma createUpdateOp_pends (s : store) l k lk n qv p b d ts : pends s l k lk n qv p b →
  (n + Z.of_nat (length qv) + 1 < 2 ^ 64)%Z →
  ∃ res s', createUpdateOp conv l (Some d) ts s = Done (res, s') ∧ others_kept s s' l [] ∧
    persistent s' = persistent s ∧ sent s' = sent s ∧
    match conv None (Some d) with
    | inr v => res = inr (length (ops s)) ∧ pends s' l k lk n (qv ++ [(length (ops s), v)]) v b
    | inl e => res = inl e ∧ pends s' l k lk n qv p b
    end.
Proof.
  intros Ht Hmax. destruct Ht as [(r & Hl & [Hk Hlk] & Hn & Hp & Hc & Hpc) Hops Hnd Hb].
  set (tmp := match conv None (pendingCursor r) with inr tmp => tmp | inl _ => None end).
  set (r1 := if bool_decide (activeCursorOperations r = 0%Z) then set_cursors (activeCursorOperations r) (cursor r) tmp r else r).
  assert (Hr1 : (key r1 = k ∧ lock r1 = lk) ∧ activeCursorOperations r1 = activeCursorOperations r ∧ pending r1 = pending r ∧ cursor r1 = b ∧
    pendingCursor r1 = if decide (qv = []) then None else p).
  { unfold r1. case_bool_decide as Hz; [|by split_and!]. split_and!; try done. simpl.
    assert (qv = []) as -> by (apply length_zero_iff_nil; lia). simpl in Hpc |- *. unfold tmp. rewrite Hpc.
    destruct (conv None None) as [e|o]; [done|]. by apply Hnil. }
  destruct Hr1 as ([Hk1 Hlk1] & Hn1 & Hp1 & Hc1 & Hpc1).
  unfold createUpdateOp. mstep get_resource_eq. fold tmp r1.
  erewrite (M_bind_eq (put_resource l r1)) by done. change (set_resources (<[l:=r1]> (resources s)) s) with (with_resource l r1 s).
  rewrite (Hcomplete (pendingCursor r1) None d). pose proof (with_resource_lookup l r1 s r Hl) as Hl1.
  destruct (conv None (Some d)) as [e|v] eqn:Ev.
  - eexists _, _. split; [reflexivity|]. split; [|split; [done|split; [done|split; [done|]]]].
    + split_and!; try done. intros l' Hne. by apply with_resource_other.
    + split; [|done..]. exists r1. rewrite Hp1, Hn1. by split_and!.
  - set (r2 := set_cursors (activeCursorOperations r) (cursor r1) v r1).
    erewrite (M_bind_eq (put_resource l r2)) by done.
    change (set_resources _ (with_resource l r1 s)) with (with_resource l r2 (with_resource l r1 s)).
    rewrite with_resource_with. pose proof (with_resource_lookup l r2 s r Hl) as Hl2.
    unfold Retain. mstep update_resource_eq. rewrite with_resource_with.
    set (r3 := set_pending (uInc (pending r2)) r2). pose proof (with_resource_lookup l r3 s r Hl) as Hl3.
    mstep update_resource_eq. rewrite with_resource_with.
    set (r4 := set_cursors (wrap 64 (activeCursorOperations r + 1)) (cursor r3) (pendingCursor r3) r3).
    pose proof (with_resource_lookup l r4 s r Hl) as Hl4.
    eexists _, _. split; [reflexivity|]. split; [|split; [done|split; [done|split; [done|]]]].
    + split_and!; try done; [intros l' Hne; by apply with_resource_other| |simpl; rewrite length_app; lia].
      intros o op _ Ho. simpl. by apply lookup_app_l_Some.
    + split.
      * exists r4. split; [exact Hl4|]. split; [by split|]. rewrite length_app, decide_False by (by destruct qv). simpl.
        split_and!; try done; [rewrite Hn, wrap_small; lia|rewrite uLoad_inc, Hp1, Hp, wrap_small; lia].
      * apply Forall_app. split.
        -- eapply Forall_impl; [exact Hops|]. intros ov. by eapply op_value_snoc.
        -- constructor; [|constructor]. exists d, ts. simpl. split; [by apply list_lookup_middle|done].
      * rewrite fmap_app. apply NoDup_app. split_and!; [done| |apply NoDup_singleton]. intros o Ho ->%list_elem_of_singleton.
        apply list_elem_of_fmap in Ho as (ov & Eo & Ho). rewrite Forall_forall in Hops. destruct (Hops ov) as (d' & ts' & Hop & _); [done|].
        apply lookup_lt_Some in Hop. rewrite <- Eo in Hop. simpl in Hop. lia.
      * rewrite length_app. simpl. lia.
Qed.

(** What [Execute] does to the resource before it saves it: when no update is
    left the cursor is the last that was published, otherwise the value [v] of the operation. *)
Lemma executed_cursor n m (qv : list (nat * option C)) (r : resource U L C) p d v :
  activeCursorOperations r = Z.of_nat (m + length qv) → (Z.of_nat (m + length qv) < 2 ^ 64)%Z →
  pendingCursor r = p → conv None (Some d) = inr v → n = Z.of_nat m →
  let active := wrap 64 (activeCursorOperations r - n) in
  let r1 : resource U L C := if bool_decide (active = 0%Z) then set_cursors active (pendingCursor r) None r
    else set_cursors active (match conv (cursor r) (Some d) with inr c => c | inl _ => cursor r end) (pendingCursor r) r in
  activeCursorOperations r1 = Z.of_nat (length qv) ∧ cursor r1 = (if decide (qv = []) then p else v) ∧
  pendingCursor r1 = (if decide (qv = []) then None else p) ∧ pending r1 = pending r ∧ (key r1 = key r ∧ lock r1 = lock r) ∧
  internalState r1 = internalState r.
Proof.
  intros Hn Hmax Hp Hd -> active r1.
  assert (Ha : active = Z.of_nat (length qv)) by (unfold active; rewrite Hn, wrap_small; lia).
  unfold r1. destruct qv as [|ov qv].
  - rewrite bool_decide_true by done. by split_and!.
  - rewrite bool_decide_false by (rewrite Ha; simpl; lia). split_and!; try done. simpl. by rewrite (Hcomplete _ None), Hd.
Qed.

Lemma Execute_pends (s : store) l k lk n qv p b o v batch rest m : pends s l k lk n qv p b →
  qv ≡ₚ batch ++ rest → (o, v) ∈ batch → holds (persistent s) (persistentStore s) m →
  let b' := if decide (rest = []) then p else v in
  ∃ s' ttl upd, Execute conv o (Z.of_nat (length batch)) s = Done ((), s') ∧ others_kept s s' l [o] ∧ sent s' = sent s ∧
    pends s' l k lk n rest p b' ∧ holds (persistent s') (persistentStore s') (saved k (mkState ttl upd b') m) ∧
    ∃ res, Set_ (persistentStore s) k (mkState ttl upd b') (persistent s) = Done (res, persistent s').
Proof.
  intros [(r & Hl & [Hk Hlk] & Hn & Hp & Hc & Hpc) Hops Hnd Hb] Hperm Ho Hm b'.
  rewrite Hperm, length_app in Hn, Hp, Hb. rewrite Hperm in Hops, Hnd. apply Forall_app in Hops as [Hops1 Hops].
  rewrite fmap_app in Hnd. apply NoDup_app in Hnd as (_ & Hdis & Hnd).
  assert (Hin : o ∈ batch.*1) by (by apply (list_elem_of_fmap_2 fst batch (o, v))).
  rewrite Forall_forall in Hops1. destruct (Hops1 _ Ho) as (d & ts & Hop & Hd). simpl in Hop, Hd.
  rewrite decide_False in Hpc by (intros ->; apply Permutation_nil in Hperm; by destruct batch; [apply not_elem_of_nil in Ho|]).
  destruct (executed_cursor (Z.of_nat (length batch)) (length batch) rest r p d v Hn ltac:(lia) Hpc Hd eq_refl)
    as (Hn1 & Hc1 & Hpc1 & Hp1 & Hk1 & Hi1). fold b' in Hc1.
  unfold Execute, get_op. erewrite M_bind_eq by (run_M; by rewrite Hop). cbn [op_resource delta timestamp].
  erewrite M_bind_eq by (run_M; done). mstep get_resource_eq.
  set (r1 := if bool_decide _ then _ else _) in *. cbv zeta in *. fold r1 in Hn1, Hc1, Hpc1, Hp1, Hk1, Hi1.
  set (i2 := mkInternal (TTL (internalState r1)) (if bool_decide (Updated (internalState r1) < ts)%Z then ts else Updated (internalState r1))).
  set (r2 := set_internal i2 r1).
  erewrite (M_bind_eq (put_resource l r2)) by done. change (set_resources (<[l:=r2]> (resources s)) s) with (with_resource l r2 s).
  destruct (persistent_Set (persistent s) (persistentStore s) m (key r2) (inSyncStateSnapshot r2) Hm) as (res & w' & Es & Hm').
  erewrite M_bind_eq.
  2: { by apply (on_persistent_eq (with_resource l r2 s) (λ ps, Set_ ps (key r2) (inSyncStateSnapshot r2))). }
  set (s2 := set_persistent w' (with_resource l r2 s)).
  assert (Hs3 : ∃ r3, (match res with inl _ => mret () | inr _ => update_resource l (set_sync true true) end) s2 =
    Done ((), set_persistent w' (with_resource l r3 s)) ∧ pending r3 = pending r2 ∧ (key r3 = key r2 ∧ lock r3 = lock r2) ∧
    activeCursorOperations r3 = activeCursorOperations r2 ∧ cursor r3 = cursor r2 ∧ pendingCursor r3 = pendingCursor r2).
  { pose proof (with_resource_lookup l r2 s r Hl) as Hl2. destruct res as [e|u]; [by exists r2|].
    exists (set_sync true true r2). split; [|done]. rewrite (update_resource_eq s2 l r2) by done.
    do 2 f_equal. change (set_persistent w' (with_resource l (set_sync true true r2) (with_resource l r2 s)) =
      set_persistent w' (with_resource l (set_sync true true r2) s)). by rewrite with_resource_with. }
  destruct Hs3 as (r3 & E3 & Hp3 & Hk3 & Hn3 & Hc3 & Hpc3). erewrite M_bind_eq by exact E3. cbn beta iota.
  set (s3 := set_persistent w' (with_resource l r3 s)).
  assert (Hl3 : resources s3 !! l = Some r3) by (by eapply (with_resource_lookup l r3 s)).
  unfold done, get_op. erewrite M_bind_eq by (run_M; simpl; by rewrite Hop). cbn [op_resource].
  erewrite M_bind_eq by (run_M; done). unfold UpdatesReleaseN. mstep update_resource_eq.
  set (r4 := set_pending (uSub (Z.of_nat (length batch)) (pending r3)) r3).
  eexists _, (TTL i2), (Updated i2). split; [reflexivity|].
  assert (Hl4 : resources (with_resource l r4 s3) !! l = Some r4) by (by eapply with_resource_lookup).
  assert (Hne : ∀ l', l' ≠ l → resources (with_resource l r4 s3) !! l' = resources s !! l').
  { intros l' Hne. rewrite with_resource_other by done. by apply (with_resource_other l r3 l' s). }
  assert (Hsnap : key r2 = k ∧ inSyncStateSnapshot r2 = mkState (TTL i2) (Updated i2) b').
  { unfold inSyncStateSnapshot. change (key r2) with (key r1). change (cursor r2) with (cursor r1). by rewrite (proj1 Hk1), Hk, Hc1. }
  destruct Hsnap as [Hkey Hsnap]. rewrite Hkey, Hsnap in Es, Hm'.
  split; [|split; [done|split; [|split; [exact Hm'|by exists res]]]].
  - split_and!; try done; [|simpl; by rewrite length_insert]. intros o' op' Hin' Hop'. simpl. rewrite list_lookup_insert_ne; [done|].
    intros <-. apply Hin'. by left.
  - split.
    + exists r4. split; [exact Hl4|]. split; [split; [change (key r3 = k); rewrite (proj1 Hk3); change (key r1 = k); rewrite (proj1 Hk1); done|
        change (lock r3 = lk); rewrite (proj2 Hk3); change (lock r1 = lk); rewrite (proj2 Hk1); done]|].
      split; [change (activeCursorOperations r3 = Z.of_nat (length rest)); rewrite Hn3; exact Hn1|].
      split; [|split; [change (cursor r3 = b'); rewrite Hc3; exact Hc1|
        change (pendingCursor r3 = if decide (rest = []) then None else p); rewrite Hpc3; exact Hpc1]].
      change (uLoad (uSub (Z.of_nat (length batch)) (pending r3)) = (n + Z.of_nat (length rest))%Z).
      rewrite uLoad_sub, Hp3. change (pending r2) with (pending r1). rewrite Hp1, Hp, wrap_small; lia.
    + apply Forall_forall. intros ov Hov. rewrite Forall_forall in Hops.
      eapply (op_value_insert s _ l ov o); [reflexivity| |by apply Hops].
      intros <-. eapply Hdis; [exact Hin|]. by apply list_elem_of_fmap_2.
    + done.
    + lia.
Qed.

(** ** Updates that are acknowledged in order

    [q] are the pending updates in the order of publishing, [vs] their values. *)
Record tracks (s : store) (l : nat) (k : string) (lk : L) (n : Z) (q : list nat) (vs : list (option C)) (b : option C) : Prop := {
  tr_resource : ∃ r, resources s !! l = Some r ∧ (key r = k ∧ lock r = lk) ∧ activeCursorOperations r = Z.of_nat (length q) ∧
    uLoad (pending r) = (n + Z.of_nat (length q))%Z ∧ cursor r = b ∧ pendingCursor r = default None (last vs);
  tr_ops : Forall2 (λ o v, op_value s l (o, v)) q vs;
  tr_nodup : NoDup q;
  tr_bound : (0 ≤ n)%Z ∧ (n + Z.of_nat (length q) < 2 ^ 64)%Z
}.

Lemma Forall2_zip {A B} (P : A * B → Prop) l k : length l = length k → Forall P (zip l k) ↔ Forall2 (λ x y, P (x, y)) l k.
Proof.
  intros Hlen. split.
  - revert k Hlen. induction l as [|x l IH]; intros [|y k] Hlen HP; simplify_eq/=; [constructor|].
    inversion HP; subst. constructor; auto.
  - induction 1; constructor; auto.
Qed.

Lemma tracks_pends (s : store) l k lk n q vs b :
  tracks s l k lk n q vs b ↔ length q = length vs ∧ pends s l k lk n (zip q vs) (default None (last vs)) b.
Proof.
  assert (Hz : length q = length vs → length (zip q vs) = length q ∧ (zip q vs).*1 = q ∧
    (if decide (zip q vs = []) then None else default None (last vs)) = default None (last vs)).
  { intros Hlen. split; [rewrite length_zip; lia|]. split; [by apply fst_zip; lia|].
    case_decide as H0; [|done]. destruct vs; [done|by destruct q]. }
  split.
  - intros [Hr Ho Hnd Hb]. pose proof (Forall2_length _ _ _ Ho) as Hlen. split; [done|]. destruct (Hz Hlen) as (E1 & E2 & E3).
    split; rewrite ?E1, ?E2, ?E3; try done. by apply Forall2_zip.
  - intros [Hlen [Hr Ho Hnd Hb]]. destruct (Hz Hlen) as (E1 & E2 & E3). rewrite E1 in Hr, Hb. rewrite E3 in Hr. rewrite E2 in Hnd.
    split; try done. by apply Forall2_zip in Ho.
Qed.

Lemma createUpdateOp_ok (s : store) l k lk n q vs b d ts : tracks s l k lk n q vs b →
  (n + Z.of_nat (length q) + 1 < 2 ^ 64)%Z →
  ∃ res s', createUpdateOp conv l (Some d) ts s = Done (res, s') ∧ others_kept s s' l [] ∧
    persistent s' = persistent s ∧ sent s' = sent s ∧
    match conv None (Some d) with
    | inr v => res = inr (length (ops s)) ∧ tracks s' l k lk n (q ++ [length (ops s)]) (vs ++ [v]) b
    | inl e => res = inl e ∧ tracks s' l k lk n q vs b
    end.
Proof.
  intros [Hlen Ht]%tracks_pends Hmax.
  destruct (createUpdateOp_pends s l k lk n _ _ b d ts Ht) as (res & s' & E0 & Hoth & Hps & Hs & Hres); [rewrite length_zip; lia|].
  exists res, s'. split_and!; try done. destruct (conv None (Some d)) as [e|v]; destruct Hres as [-> Hres]; (split; [done|]); apply tracks_pends.
  - done.
  - rewrite !length_app, Hlen, last_snoc, zip_with_app by done. done.
Qed.

Lemma last_drop {A} (l : list A) i : i < length l → last (drop i l) = last l.
Proof.
  intros Hi. rewrite !last_lookup, length_drop, lookup_drop. f_equal. lia.
Qed.

Lemma Execute_ok (s : store) l k lk n q vs b i o v m : tracks s l k lk n q vs b → q !! i = Some o → vs !! i = Some v →
  holds (persistent s) (persistentStore s) m →
  ∃ s' ttl upd, Execute conv o (Z.of_nat (S i)) s = Done ((), s') ∧ others_kept s s' l [o] ∧ sent s' = sent s ∧
    tracks s' l k lk n (drop (S i) q) (drop (S i) vs) v ∧
    holds (persistent s') (persistentStore s') (saved k (mkState ttl upd v) m).
Proof.
  intros [Hlen Ht]%tracks_pends Ho Hv Hm. pose proof (lookup_lt_Some _ _ _ Hv) as Hi.
  destruct (Execute_pends s l k lk n _ _ b o v (take (S i) (zip q vs)) (drop (S i) (zip q vs)) m Ht)
    as (s' & ttl & upd & E0 & Hoth & Hs & Ht' & Hm' & _); [by rewrite take_drop| |done|].
  { apply list_elem_of_lookup. exists i. rewrite lookup_take_lt by lia. apply lookup_zip_Some. by split. }
  rewrite length_take, length_zip, Nat.min_l in E0 by lia. exists s', ttl, upd.
  assert (Hb : (if decide (drop (S i) (zip q vs) = []) then default None (last vs) else v) = v).
  { case_decide as H0; [|done]. apply (f_equal length) in H0. rewrite length_drop, length_zip in H0. simpl in H0.
    rewrite last_lookup. replace (pred (length vs)) with i by lia. by rewrite Hv. }
  rewrite Hb in Ht', Hm'. split_and!; try done. apply tracks_pends. rewrite !length_drop. split; [lia|].
  rewrite zip_with_drop in Ht'. destruct (decide (S i < length vs)) as [Hlt|Hge]; [by rewrite last_drop|].
  rewrite !drop_ge in Ht' |- * by lia. destruct Ht' as [Hr Hops Hnd Hbd]. by split.
Qed.
End updates.
End facts.
