(* ===== verification/CursorSpec.v ===== *)
(** * The persistent store follows the acknowledged events

    Publishing events and acknowledging them in order, on one resource: the
    specification is the value of the last acknowledged update and the list of
    events not yet acknowledged. *)

From stdpp Require Import base gmap strings list fin_maps.
From Stdlib Require Import ZArith Lia.
From S2P Require Import Prelude Fs Backend Concert Storetest Statestore StatestoreFacts StatestoreSeq StatestoreSpec Cursor CursorFacts.

(** An event is published, with an update or without; the next [n] events are
    acknowledged. *)
Inductive command (C E : Type) :=
| Pub (event : E) (update : option C) (ts : Z)
| Ack (n : nat).
Arguments Pub {_ _} _ _ _.
Arguments Ack {_ _} _.

(** The specification: the acknowledged cursor, and for each event not yet
    acknowledged the value of its update, if it has one. *)
Definition spec_command {C E} (value : C → option (option C)) (c : command C E)
    (st : option C * list (option (option C))) : option (option C * list (option (option C))) :=
  let '(b, evs) := st in
  match c with
  | Pub _ None _ => Some (b, evs ++ [None])
  | Pub _ (Some d) _ => match value d with Some v => Some (b, evs ++ [Some v]) | None => Some (b, evs) end
  | Ack n => if decide (n ≤ length evs) then Some (default b (last (omap id (take n evs))), drop n evs) else None
  end.
Fixpoint spec_commands {C E} (value : C → option (option C)) (l : list (command C E))
    (st : option C * list (option (option C))) : option (option C * list (option (option C))) :=
  match l with
  | [] => Some st
  | c :: l => st ← spec_command value c st; spec_commands value l st
  end.

Section spec.
Context {R H X Ctr W U Rc L C E : Type} `{!Convert (state C) X, !Backend R H (state C) X, !BackendLaws R H (state C) X,
  !EqDecision H, !AtomicInt Ctr, !AtomicIntLaws Ctr, !SafeWaitGroup W, !SafeWaitGroupLaws W,
  !AtomicUint64 U, !AtomicUint64Laws U, !RefCount Rc, !RefCountLaws Rc, !Mutex L, !MutexLaws L}.
Abbreviation store := (store R H Ctr W U Rc L C E).
Context (conv : option C → option C → goerr + option C).

(** The code: [acked] events of [sent] have been acknowledged. *)
Definition run_command (l : nat) (c : command C E) (acked : nat) : M store nat :=
  match c with
  | Pub ev d ts => Publish conv l ev None d ts None;; mret acked
  | Ack n => privates ← gets (λ s : store, take n (drop acked (snd <$> sent s))); ACKHandler conv privates;; mret (acked + n)
  end.
Fixpoint run_commands (l : nat) (cs : list (command C E)) (acked : nat) : M store nat :=
  match cs with
  | [] => mret acked
  | c :: cs => acked ← run_command l c acked; run_commands l cs acked
  end.

Definition value (d : C) : option (option C) := match conv None (Some d) with inr v => Some v | inl _ => None end.

(** The document of [k] has the cursor [b]. *)
Definition persisted (k : string) (b : option C) (m : gmap string X) : Prop :=
  ∃ ttl upd x, convert_in (mkState ttl upd b) = inr x ∧ m !! k = Some x.

(** [newInputACKHandler] counts the update operations and finds the last. *)
Lemma scan_private_spec (pr : list (option nat)) i n j :
  (0 ≤ n)%Z → (n + Z.of_nat (length pr) < 2 ^ 64)%Z →
  (scan_private i pr n j).1 = (n + Z.of_nat (length (omap id pr)))%Z ∧
  (omap id pr ≠ [] → ∃ t, (scan_private i pr n j).2 = i + t ∧ mjoin (pr !! t) = last (omap id pr)).
Proof.
  revert i n j. induction pr as [|[o|] pr IH]; intros i n j Hn Hmax; cbn [scan_private]; rewrite ?length_cons in Hmax; [simpl; split; [lia|done]|..].
  - change (omap id (Some o :: pr)) with (o :: omap id pr). rewrite length_cons.
    rewrite wrap_small by lia. destruct (IH (S i) (n + 1)%Z i ltac:(lia) ltac:(lia)) as [-> Hl]. split; [lia|]. intros _.
    destruct (decide (omap id pr = [])) as [Hnil|Hne].
    + exists 0. rewrite Hnil. split; [|done]. clear -Hnil. rewrite Nat.add_0_r.
      assert (Hall : ∀ n i' j', (scan_private i' pr n j').2 = j'); [|apply Hall].
      induction pr as [|[o'|] pr IH]; intros; simpl in *; [done|done|by apply IH].
    + destruct (Hl Hne) as (t & -> & Ht). exists (S t). split; [lia|]. simpl. rewrite Ht.
      destruct (omap id pr) as [|x y]; [done|]. by rewrite last_cons_cons.
  - change (omap id (None :: pr)) with (omap id pr).
    destruct (IH (S i) n j ltac:(lia) ltac:(lia)) as [-> Hl]. split; [done|]. intros Hne.
    destruct (Hl Hne) as (t & -> & Ht). exists (S t). split; [lia|done].
Qed.

Context (Hcomplete : ∀ c c' d, conv c (Some d) = conv c' (Some d)).
Context (Hnil : ∀ v, conv None None = inr v → v = None).
Context (Htotal : ∀ st, ∃ x, convert_in (Convert := Convert0) st = inr x).

Lemma persisted_saved k ttl upd b m : persisted k b (saved k (mkState ttl upd b) m).
Proof.
  destruct (Htotal (mkState ttl upd b)) as [x Hx]. exists ttl, upd, x. unfold saved. rewrite Hx.
  split; [done|]. apply lookup_insert_eq.
Qed.

Lemma saved_other k k' v m : k' ≠ k → saved k v m !! k' = m !! k'.
Proof. intros Hne. unfold saved. destruct (convert_in v); [done|]. by apply lookup_insert_ne. Qed.

(** The state of the code that corresponds to a state of the specification. *)
Record follows (s : store) (acked l : nat) (k : string) (lk : L) (n : Z) (b : option C) (evs : list (option (option C)))
    (m : gmap string X) : Prop := {
  fo_tracks : tracks conv s l k lk n (omap id (drop acked (snd <$> sent s))) (omap id evs) b;
  fo_events : Forall2 (λ (p : option nat) e, is_Some p ↔ is_Some e) (drop acked (snd <$> sent s)) evs;
  fo_acked : acked ≤ length (sent s);
  fo_holds : holds (persistent s) (persistentStore s) m;
  fo_persisted : persisted k b m
}.

Lemma sent_snoc (s : store) acked (ev : E) p : acked ≤ length (sent s) →
  drop acked (snd <$> (sent s ++ [(ev, p)])) = drop acked (snd <$> sent s) ++ [p].
Proof. intros Ha. rewrite fmap_app, drop_app_le by (by rewrite length_fmap). done. Qed.

Lemma omap_events {A B} (l : list (option A)) (l' : list (option B)) i :
  Forall2 (λ p e, is_Some p ↔ is_Some e) l l' → length (omap id (take i l)) = length (omap id (take i l')).
Proof.
  intros Hl. revert i. induction Hl as [|p e l l' Hpe _ IH]; intros [|i]; simpl; try done.
  destruct p, e; simpl; rewrite ?IH; try done; [by destruct (proj1 Hpe)|by destruct (proj2 Hpe)].
Qed.

(** One command. *)
Lemma follows_pub (s : store) acked l k lk n b evs m ev d ts : follows s acked l k lk n b evs m →
  (n + Z.of_nat (length (omap id evs)) + 1 < 2 ^ 64)%Z →
  ∃ s' st', run_command l (Pub ev d ts) acked s = Done (acked, s') ∧
    spec_command value (Pub (E := E) ev d ts) (b, evs) = Some (b, st') ∧ length (omap id st') ≤ S (length (omap id evs)) ∧
    follows s' acked l k lk n b st' m ∧ table s' = table s.
Proof.
  intros [Ht Hev Ha Hm Hp] Hmax. unfold run_command, Publish, forward. destruct d as [d|]; simpl.
  - assert (Hlen : length (omap id (drop acked (snd <$> sent s))) = length (omap id evs)).
    { apply (Forall2_length _ _ _ (tr_ops _ _ _ _ _ _ _ _ _ Ht)). }
    destruct (createUpdateOp_ok conv Hcomplete Hnil s l k lk n _ _ b d ts Ht) as (res & s' & Eop & (_ & _ & Htab & Hps & _) & Hpers & Hsent & Hres).
    { rewrite Hlen. lia. }
    unfold value. destruct (conv None (Some d)) as [e|v] eqn:Ev.
    + destruct Hres as [-> Ht']. exists s', evs. split; [by erewrite M_bind_eq; [|erewrite M_bind_eq by exact Eop; reflexivity]|]. split_and!; [done|lia| |done].
      split; rewrite ?Hsent, ?Hpers, ?Hps; done.
    + destruct Hres as [-> Ht']. exists (set_sent (sent s ++ [(ev, Some (length (ops s)))]) s'), (evs ++ [Some v]).
      split; [erewrite M_bind_eq; [|erewrite M_bind_eq by exact Eop; run_M; by rewrite Hsent]; done|]. split; [done|].
      split; [rewrite omap_app, length_app; simpl; lia|]. split; [|exact Htab].
      split; cbn [sent persistent persistentStore set_sent]; rewrite ?Hpers, ?Hps, ?sent_snoc, ?omap_app by done.
      * destruct Ht' as [Hr Ho Hd Hb]. by split.
      * apply Forall2_app; [done|]. by repeat constructor.
      * rewrite length_app. lia.
      * done.
      * done.
  - exists (set_sent (sent s ++ [(ev, None)]) s), (evs ++ [None]). split; [done|]. split; [done|].
    split; [rewrite omap_app; simpl; rewrite app_nil_r; lia|]. split; [|done].
    split; cbn [sent persistent persistentStore set_sent]; rewrite ?sent_snoc, ?omap_app by done; simpl; rewrite ?app_nil_r.
    + destruct Ht as [Hr Ho Hd Hb]. by split.
    + apply Forall2_app; [done|]. repeat constructor; by intros [].
    + rewrite length_app. lia.
    + done.
    + done.
Qed.

Lemma omap_take_drop {A} (l : list (option A)) i :
  omap id l = omap id (take i l) ++ omap id (drop i l).
Proof. rewrite <- omap_app. by rewrite take_drop. Qed.

Lemma omap_drop {A} (l : list (option A)) i :
  drop (length (omap id (take i l))) (omap id l) = omap id (drop i l).
Proof. rewrite (omap_take_drop l i). by rewrite drop_app_length. Qed.

Lemma follows_ack (s : store) acked l k lk n b evs m i : follows s acked l k lk n b evs m → i ≤ length evs →
  (Z.of_nat (length evs) < 2 ^ 64)%Z →
  ∃ s' m', run_command l (Ack i) acked s = Done (acked + i, s') ∧
    follows s' (acked + i) l k lk n (default b (last (omap id (take i evs)))) (drop i evs) m' ∧
    (∀ k', k' ≠ k → m' !! k' = m !! k') ∧ table s' = table s.
Proof.
  intros [Ht Hev Ha Hm Hp] Hi Hmax. set (ps := drop acked (snd <$> sent s)) in *.
  assert (Hlen : length ps = length evs) by (by eapply Forall2_length).
  assert (Hsent : ∀ s' : store, sent s' = sent s → drop (acked + i) (snd <$> sent s') = drop i ps).
  { intros s' ->. unfold ps. by rewrite drop_drop. }
  assert (Hacked : acked + i ≤ length (sent s)).
  { unfold ps in Hlen. rewrite length_drop, length_fmap in Hlen. lia. }
  pose proof (omap_events _ _ i Hev) as Hc. pose proof (Forall2_drop _ _ _ i Hev) as Hev'.
  destruct (scan_private_spec (take i ps) 0 0 0 ltac:(lia)) as [Hn Hlast]; [rewrite length_take; lia|].
  unfold run_command. erewrite (M_bind_eq (gets _)) by done. fold ps. unfold ACKHandler.
  destruct (scan_private 0 (take i ps) 0 0) as [cnt j]. simpl in Hn, Hlast. subst cnt.
  destruct (decide (omap id (take i ps) = [])) as [H0|Hne].
  - rewrite H0 in Hc. symmetry in Hc. apply length_zero_iff_nil in Hc. exists s, m.
    rewrite H0, bool_decide_true by done. split; [done|]. split; [|by split]. rewrite Hc. simpl.
    split; rewrite ?(Hsent s eq_refl); try done.
    rewrite <- omap_drop, <- (omap_drop evs i), H0, Hc. done.
  - destruct (Hlast Hne) as (t & -> & Hj). simpl. set (q := omap id (take i ps)) in *.
    destruct (last q) as [o|] eqn:Eo; [|by apply last_None in Eo].
    assert (Hq : length q ≠ 0) by (intros ?%length_zero_iff_nil; done).
    set (vs := omap id (take i evs)) in *.
    destruct (last vs) as [v|] eqn:Ev; [|apply last_None in Ev; rewrite Ev in Hc; simpl in Hc; lia].
    rewrite last_lookup in Eo. rewrite last_lookup in Ev. rewrite <- Hc in Ev. set (p := pred (length q)) in *.
    assert (HS : S p = length q) by lia. assert (Hp' : p < length q) by lia.
    destruct (Execute_ok conv Hcomplete s l k lk n (omap id ps) (omap id evs) b p o v m Ht) as (s' & ttl & upd & Ex & Hoth & Hsent' & Ht' & Hm').
    { rewrite (omap_take_drop ps i). by rewrite lookup_app_l. }
    { rewrite (omap_take_drop evs i). by rewrite lookup_app_l by (fold vs; lia). }
    { done. }
    rewrite HS in Ex, Ht'. exists s', (saved k (mkState ttl upd v) m).
    rewrite bool_decide_false by lia. erewrite M_bind_eq; [|erewrite M_bind_eq by (by rewrite Hj); exact Ex].
    split; [done|]. split; [|split; [intros k' Hk'; by apply saved_other|apply Hoth]]. simpl.
    split; rewrite ?(Hsent s' Hsent'), ?Hsent'; try done.
    + rewrite <- omap_drop, <- (omap_drop evs i). fold q vs. by rewrite <- Hc.
    + apply persisted_saved.
Qed.

Lemma run_commands_follows cs (s : store) acked l k lk n b evs m b' evs' : follows s acked l k lk n b evs m →
  spec_commands value cs (b, evs) = Some (b', evs') →
  (n + Z.of_nat (length evs) + Z.of_nat (length cs) < 2 ^ 64)%Z →
  ∃ acked' s' m', run_commands l cs acked s = Done (acked', s') ∧ follows s' acked' l k lk n b' evs' m' ∧
    (∀ k', k' ≠ k → m' !! k' = m !! k') ∧ table s' = table s.
Proof.
  revert s acked b evs m. induction cs as [|c cs IH]; intros s acked b evs m Hf Hspec Hmax.
  - simpl in Hspec. injection Hspec as <- <-. exists acked, s, m. by split_and!.
  - assert (Hn : (0 ≤ n)%Z) by (by destruct (tr_bound _ _ _ _ _ _ _ _ _ (fo_tracks _ _ _ _ _ _ _ _ _ Hf))).
    rewrite length_cons in Hmax. cbn [spec_commands] in Hspec. apply bind_Some in Hspec as ([b1 evs1] & Hc & Hspec).
    assert (Hstep : ∃ acked1 s1 m1, run_command l c acked s = Done (acked1, s1) ∧ follows s1 acked1 l k lk n b1 evs1 m1 ∧
      (∀ k', k' ≠ k → m1 !! k' = m !! k') ∧ table s1 = table s ∧ length evs1 ≤ S (length evs)).
    { assert (Hom : ∀ l' : list (option (option C)), length (omap id l') ≤ length l').
      { intros l'. induction l' as [|x l' IHl]; [done|]. change (omap id (x :: l')) with (match x with Some y => y :: omap id l' | None => omap id l' end).
        destruct x; rewrite ?length_cons; lia. }
      destruct c as [ev d ts|i].
      - pose proof (Hom evs). destruct (follows_pub s acked l k lk n b evs m ev d ts Hf ltac:(lia)) as (s1 & st & Er & Hst & _ & Hf1 & Htab).
        rewrite Hst in Hc. injection Hc as <- <-. exists acked, s1, m. split_and!; try done.
        revert Hst. simpl. destruct d as [d|]; [destruct (value d)|]; intros [= <-]; rewrite ?length_app; simpl; lia.
      - simpl in Hc. case_decide as Hi; [|done]. injection Hc as <- <-.
        destruct (follows_ack s acked l k lk n b evs m i Hf Hi ltac:(lia)) as (s1 & m1 & Er & Hf1 & Ho & Htab).
        exists (acked + i), s1, m1. split_and!; try done. rewrite length_drop. lia. }
    destruct Hstep as (acked1 & s1 & m1 & Er & Hf1 & Ho1 & Htab1 & Hlen).
    destruct (IH s1 acked1 b1 evs1 m1 Hf1 Hspec ltac:(lia)) as (acked' & s' & m' & Ers & Hf' & Ho' & Htab').
    exists acked', s', m'. split; [cbn [run_commands]; by erewrite M_bind_eq by exact Er|]. split; [done|].
    split; [intros k' Hk'; by rewrite Ho', Ho1 by done|congruence].
Qed.

(** What an input sees: the latest update, acknowledged or not. *)
Lemma follows_snapshot (s : store) acked l k lk n b evs m : follows s acked l k lk n b evs m →
  ∃ r, resources s !! l = Some r ∧ sCursor (stateSnapshot r) = default b (last (omap id evs)) ∧
    activeCursorOperations r = Z.of_nat (length (omap id evs)).
Proof.
  intros [Ht Hev _ _ _]. pose proof (Forall2_length _ _ _ (tr_ops _ _ _ _ _ _ _ _ _ Ht)) as Hlen.
  destruct (tr_resource _ _ _ _ _ _ _ _ _ Ht) as (r & Hl & _ & Hn & _ & Hc & Hpc). exists r. rewrite <- Hlen.
  split_and!; [done| |done]. unfold stateSnapshot. simpl. case_bool_decide as H0.
  - replace (omap id evs) with (@nil (option C)); [by rewrite Hc|]. symmetry. apply length_zero_iff_nil. lia.
  - rewrite Hpc. destruct (last (omap id evs)) eqn:El; [done|]. apply last_None in El. rewrite El in Hlen. simpl in Hlen. lia.
Qed.

(** ** Starting on a new source *)
Lemma lock_new (s : store) k cancelled : table s !! k = None →
  ∃ u, uLoad u = 1%Z ∧ manager_lock k cancelled s = Done (inr (length (resources s)),
    set_table (<[ k := length (resources s) ]> (table s)) (set_resources (resources s ++
      [set_lock (TryLock MakeMutex).2 (set_pending u (new_resource k))]) s)).
Proof.
  intros Hk. exists (uInc uZero). split; [by rewrite uLoad_inc, uLoad_zero|].
  unfold manager_lock, store_Get, Find. set (l := length (resources s)).
  erewrite M_bind_eq.
  2: { erewrite (M_bind_eq (gets table)) by done. rewrite Hk. simpl. erewrite (M_bind_eq (alloc_resource _)) by done.
       erewrite (M_bind_eq (modify _)) by done. erewrite M_bind_eq; [reflexivity|].
       unfold Retain. apply update_resource_eq. simpl. by apply list_lookup_middle. }
  erewrite M_bind_eq by (run_M; done). unfold lockResource.
  set (s1 := with_resource _ _ _). assert (Hl1 : resources s1 !! l = Some (set_pending (uInc uZero) (new_resource k))).
  { eapply with_resource_lookup. simpl. by apply list_lookup_middle. }
  erewrite M_bind_eq; [|erewrite M_bind_eq by (by eapply get_resource_eq); cbn [lock set_pending new_resource];
    rewrite TryLock_result, MakeMutex_locked; reflexivity].
  simpl. unfold mret, M_ret. do 2 f_equal. unfold s1, with_resource, set_resources, set_table. simpl.
  rewrite !list_insert_insert_eq. f_equal. by rewrite insert_app_r_alt, Nat.sub_diag by done.
Qed.

Lemma start_follows (s : store) k cancelled ttl now m : table s !! k = None → holds (persistent s) (persistentStore s) m →
  ∃ s' m', (r ← manager_lock k cancelled;
      match r with inl _ => mret () | inr l => UpdateTTL l ttl now end) s = Done ((), s') ∧
    follows s' (length (sent s)) (length (resources s)) k (TryLock MakeMutex).2 1 None [] m' ∧
    (∀ k', k' ≠ k → m' !! k' = m !! k') ∧ table s' = <[ k := length (resources s) ]> (table s).
Proof.
  intros Hk Hm. destruct (lock_new s k cancelled Hk) as (u & Hu & El). set (l := length (resources s)) in *.
  erewrite M_bind_eq by exact El. cbn beta iota. set (s1 := set_table _ _).
  set (r0 := set_lock (TryLock MakeMutex).2 (set_pending u (new_resource k))) in *.
  assert (Hl : resources s1 !! l = Some r0) by (by apply list_lookup_middle).
  unfold UpdateTTL. erewrite M_bind_eq by (by eapply get_resource_eq). cbn beta iota. cbn [stored r0 set_lock set_pending new_resource andb].
  set (r1 := set_internal _ _). erewrite (M_bind_eq (put_resource l r1)) by done.
  change (set_resources (<[l:=r1]> (resources s1)) s1) with (with_resource l r1 s1).
  destruct (persistent_Set (persistent s) (persistentStore s) m (key r1) (inSyncStateSnapshot r1) Hm) as (res & w' & Es & Hm').
  erewrite M_bind_eq.
  2: { by apply (on_persistent_eq (with_resource l r1 s1) (λ ps, Set_ ps (key r1) (inSyncStateSnapshot r1))). }
  set (s2 := set_persistent w' (with_resource l r1 s1)).
  assert (Hl2 : resources s2 !! l = Some r1) by (by eapply (with_resource_lookup l r1 s1)).
  assert (Hs3 : ∃ r3, match res with inl _ => update_resource l (λ r, set_sync (stored r) false r) | inr _ => update_resource l (set_sync true true) end s2 =
    Done ((), with_resource l r3 s2) ∧ pending r3 = u ∧ (key r3 = k ∧ lock r3 = (TryLock MakeMutex).2) ∧
    activeCursorOperations r3 = 0%Z ∧ cursor r3 = None ∧ pendingCursor r3 = None).
  { destruct res as [e|x]; (eexists; split; [by eapply update_resource_eq|by split_and!]). }
  destruct Hs3 as (r3 & E3 & Hp3 & [Hk3 Hlk3] & Hn3 & Hc3 & Hpc3). eexists _, _. split; [exact E3|].
  split.
  - split; simpl; rewrite ?drop_ge by (by rewrite length_fmap); try done.
    + split; [|constructor|constructor|simpl; lia]. exists r3.
      split; [by eapply with_resource_lookup|]. rewrite Hp3. split_and!; done.
    + apply (persisted_saved k _ _ None).
  - split; [|done]. intros k' Hne. by apply saved_other.
Qed.
End spec.
