(* ===== verification/CursorProps.v ===== *)
(** * Properties of the stateful input manager *)

From stdpp Require Import base gmap strings list fin_maps.
From Stdlib Require Import ZArith Lia.
From S2P Require Import Prelude Fs Backend Concert Storetest Statestore StatestoreFacts StatestoreSeq StatestoreSpec Cursor CursorFacts CursorSpec.

Section props.
Context {R H X Ctr W U Rc L C E : Type} `{!Convert (state C) X, !Backend R H (state C) X, !BackendLaws R H (state C) X,
  !EqDecision H, !AtomicInt Ctr, !AtomicIntLaws Ctr, !SafeWaitGroup W, !SafeWaitGroupLaws W,
  !AtomicUint64 U, !AtomicUint64Laws U, !RefCount Rc, !RefCountLaws Rc, !Mutex L, !MutexLaws L}.
Abbreviation store := (store R H Ctr W U Rc L C E).

Section source.
Context (conv : option C → option C → goerr + option C).

(** A change of the lock and of the owners of a resource. *)
Lemma follows_with (s : store) acked l k lk n b evs m r r' n' : follows conv s acked l k lk n b evs m →
  resources s !! l = Some r → key r' = key r → activeCursorOperations r' = activeCursorOperations r →
  cursor r' = cursor r → pendingCursor r' = pendingCursor r →
  uLoad (pending r') = (n' + Z.of_nat (length (omap id evs)))%Z →
  (0 ≤ n')%Z ∧ (n' + Z.of_nat (length (omap id evs)) < 2 ^ 64)%Z →
  follows conv (with_resource l r' s) acked l k (lock r') n' b evs m.
Proof.
  intros [Ht Hev Ha Hm Hp] Hl Ek Ea Ec Ep Eu Hb. pose proof (Forall2_length _ _ _ (tr_ops _ _ _ _ _ _ _ _ _ Ht)) as Hlen.
  destruct Ht as [(r0 & Hl0 & [Hk _] & Hact & _ & Hc & Hpc) Hops Hnd _].
  rewrite Hl in Hl0. injection Hl0 as <-. split; try done.
  change (sent (with_resource l r' s)) with (sent s). split; [|done|done|by rewrite Hlen].
  exists r'. split; [by eapply with_resource_lookup|]. rewrite Hlen in Hact. rewrite Ek, Ea, Ec, Ep, Hlen. by split_and!.
Qed.

Lemma follows_resource (s : store) acked l k lk n b evs m : follows conv s acked l k lk n b evs m →
  ∃ r, resources s !! l = Some r ∧ key r = k ∧ lock r = lk ∧ cursor r = b ∧
    uLoad (pending r) = (n + Z.of_nat (length (omap id evs)))%Z ∧
    (0 ≤ n)%Z ∧ (n + Z.of_nat (length (omap id evs)) < 2 ^ 64)%Z.
Proof.
  intros [Ht _ _ _ _]. pose proof (Forall2_length _ _ _ (tr_ops _ _ _ _ _ _ _ _ _ Ht)) as Hlen.
  destruct Ht as [(r & Hl & [Hk Hlk] & _ & Hp & Hc & _) _ _ Hb]. exists r. rewrite <- Hlen. destruct Hb. by split_and!.
Qed.

(** Another content of the persistent store. *)
Lemma follows_persistent (s : store) acked l k lk n b evs m w m' : follows conv s acked l k lk n b evs m →
  holds w (persistentStore s) m' → persisted k b m' → follows conv (set_persistent w s) acked l k lk n b evs m'.
Proof. intros [[Hr Hops Hnd Hb] Hev Ha _ _] Hm Hp. by split. Qed.

(** Releasing the lock and the ownership of the input. *)
Lemma releaseResource_follows (s : store) acked l k lk n b evs m :
  follows conv s acked l k lk n b evs m → locked lk = true → (0 < n)%Z →
  ∃ s' lk', releaseResource l s = Done ((), s') ∧ locked lk' = false ∧ follows conv s' acked l k lk' (n - 1) b evs m ∧
    table s' = table s.
Proof.
  intros Hf Hlk Hn. destruct (follows_resource s acked l k lk n b evs m Hf) as (r & Hl & Hk & <- & _ & Hp & Hb).
  destruct (Unlock_locked _ Hlk) as (lk' & Eu & Hfree).
  set (r1 := set_lock lk' r). set (r2 := set_pending (uDec (pending r1)) r1).
  exists (with_resource l r2 s), lk'. split; [|split; [done|split; [|done]]].
  - assert (E1 : unlock l s = Done ((), with_resource l r1 s)).
    { unfold unlock. erewrite M_bind_eq by (by eapply get_resource_eq). by rewrite Eu. }
    unfold releaseResource. erewrite M_bind_eq by exact E1.
    unfold Release. erewrite update_resource_eq by (by eapply with_resource_lookup). by rewrite with_resource_with.
  - change lk' with (lock r2). apply (follows_with s acked l k (lock r) n b evs m r); try done; [|lia].
    unfold r2, r1. cbn [pending set_pending set_lock]. rewrite uLoad_dec, Hp, wrap_small; lia.
Qed.

(** [lock] of a source that is known, while nobody has its lock. *)
Lemma lock_known (s : store) acked l k lk n b evs m cancelled : table s !! k = Some l →
  follows conv s acked l k lk n b evs m → locked lk = false →
  (n + 1 + Z.of_nat (length (omap id evs)) < 2 ^ 64)%Z →
  ∃ s', manager_lock k cancelled s = Done (inr l, s') ∧
    follows conv s' acked l k (TryLock lk).2 (n + 1) b evs m ∧ table s' = table s.
Proof.
  intros Hk Hf Hfree Hmax. destruct (follows_resource s acked l k lk n b evs m Hf) as (r & Hl & _ & <- & _ & Hp & Hb).
  set (r1 := set_pending (uInc (pending r)) r). set (r2 := set_lock (TryLock (lock r)).2 r1).
  assert (Hl1 : resources (with_resource l r1 s) !! l = Some r1) by (by eapply with_resource_lookup).
  exists (with_resource l r2 s). split; [|split; [|done]].
  - unfold manager_lock, store_Get, Find. erewrite M_bind_eq.
    2: { erewrite (M_bind_eq (gets table)) by done. rewrite Hk. unfold Retain. by erewrite M_bind_eq by (by eapply update_resource_eq). }
    erewrite M_bind_eq by (run_M; done). unfold lockResource.
    erewrite M_bind_eq; [|erewrite M_bind_eq by (by eapply get_resource_eq); cbn [lock set_pending r1];
      rewrite TryLock_result, Hfree; reflexivity].
    cbn beta iota. do 2 f_equal. by rewrite <- (with_resource_with l r1 r2 s).
  - change (TryLock (lock r)).2 with (lock r2). apply (follows_with s acked l k (lock r) n b evs m r); try done; [|lia].
    unfold r2, r1. cbn [pending set_pending set_lock]. rewrite uLoad_inc, Hp, wrap_small; lia.
Qed.

Context (Htotal : ∀ st : state C, ∃ x, convert_in st = inr x).

Lemma UpdateTTL_follows (s : store) acked l k lk n b evs m ttl now : follows conv s acked l k lk n b evs m →
  ∃ s' m', UpdateTTL l ttl now s = Done ((), s') ∧ follows conv s' acked l k lk n b evs m' ∧ table s' = table s.
Proof.
  intros Hf. destruct (follows_resource s acked l k lk n b evs m Hf) as (r & Hl & Hk & <- & Hc & Hp & Hb).
  unfold UpdateTTL. erewrite M_bind_eq by (by eapply get_resource_eq). cbn beta iota.
  destruct (stored r && bool_decide (TTL (internalState r) = ttl)); [by exists s, m|].
  set (r1 := set_internal _ r). erewrite (M_bind_eq (put_resource l r1)) by done.
  change (set_resources (<[l:=r1]> (resources s)) s) with (with_resource l r1 s).
  pose proof (follows_with s acked l k (lock r) n b evs m r r1 n Hf Hl eq_refl eq_refl eq_refl eq_refl Hp Hb) as Hf1.
  destruct (persistent_Set (persistent s) (persistentStore s) m (key r1) (inSyncStateSnapshot r1) (fo_holds _ _ _ _ _ _ _ _ _ _ Hf))
    as (res & w' & Es & Hm').
  erewrite M_bind_eq.
  2: { by apply (on_persistent_eq (with_resource l r1 s) (λ ps, Set_ ps (key r1) (inSyncStateSnapshot r1))). }
  set (s2 := set_persistent w' (with_resource l r1 s)).
  assert (Hf2 : follows conv s2 acked l k (lock r1) n b evs (saved (key r1) (inSyncStateSnapshot r1) m)).
  { apply (follows_persistent _ _ _ _ _ _ _ _ m); [done|done|]. change (key r1) with (key r). rewrite Hk.
    unfold inSyncStateSnapshot. change (cursor r1) with (cursor r). rewrite Hc. by apply persisted_saved. }
  assert (Hl2 : resources s2 !! l = Some r1) by (by eapply (with_resource_lookup l r1 s)).
  assert (Hf3 : ∀ st sy, follows conv (with_resource l (set_sync st sy r1) s2) acked l k (lock r1) n b evs _)
    by (intros; exact (follows_with s2 acked l k (lock r1) n b evs _ r1 (set_sync st sy r1) n Hf2 Hl2 eq_refl eq_refl eq_refl eq_refl Hp Hb)).
  destruct res as [e|x]; (eexists _, _; split; [by eapply update_resource_eq|]; split; [apply Hf3|done]).
Qed.

(** Nobody has the source of key [k] locked.  It is not known yet: then [l] is the
    next resource, and no event is underway; or [l] is its resource, with [n]
    owners other than its events [evs] that are not yet acknowledged. *)
Definition source_free (s : store) (k : string) (acked l : nat) (n : Z) (b : option C) (evs : list (option (option C)))
    (m : gmap string X) : Prop :=
  match table s !! k with
  | None => l = length (resources s) ∧ acked = length (sent s) ∧ n = 0%Z ∧ b = None ∧ evs = [] ∧
      holds (persistent s) (persistentStore s) m
  | Some l' => l' = l ∧ ∃ lk, locked lk = false ∧ follows conv s acked l k lk n b evs m
  end.

(** Taking the source and setting its time to live. *)
Lemma start_source (s : store) k acked l n b evs m cancelled ttl now : source_free s k acked l n b evs m →
  (n + 1 + Z.of_nat (length (omap id evs)) < 2 ^ 64)%Z →
  ∃ s0 s1 m1 lk, manager_lock k cancelled s = Done (inr l, s0) ∧ UpdateTTL l ttl now s0 = Done ((), s1) ∧
    locked lk = true ∧ follows conv s1 acked l k lk (n + 1) b evs m1 ∧ table s1 !! k = Some l.
Proof.
  unfold source_free. destruct (table s !! k) as [l'|] eqn:Hk; intros Hs Hmax.
  - destruct Hs as (-> & lk & Hfree & Hf).
    destruct (lock_known s acked l k lk n b evs m cancelled Hk Hf Hfree Hmax) as (s0 & E0 & Hf0 & Ht0).
    destruct (UpdateTTL_follows s0 acked l k _ (n + 1) b evs m ttl now Hf0) as (s1 & m1 & E1 & Hf1 & Ht1).
    exists s0, s1, m1, (TryLock lk).2. split_and!; try done; [apply TryLock_locked|]. by rewrite Ht1, Ht0.
  - destruct Hs as (-> & -> & -> & -> & -> & Hm). destruct (lock_new s k cancelled Hk) as (u & _ & El).
    destruct (start_follows conv Htotal s k cancelled ttl now m Hk Hm) as (s1 & m1 & E1 & Hf1 & _ & Ht1).
    erewrite M_bind_eq in E1 by exact El. cbn beta iota in E1.
    eexists _, s1, m1, _. split; [exact El|]. split; [exact E1|]. split; [apply TryLock_locked|]. split; [exact Hf1|].
    rewrite Ht1. apply lookup_insert_eq.
Qed.
End source.

(** *** Reading the states of a type *)
Definition read_ok (decode : X → goerr + state C) (keyPrefix : string) (l : list (string * X))
    (st : gmap string nat * list (resource U L C)) : Prop :=
  ∀ k, match st.1 !! k with
    | Some i => ∃ x v, (k, x) ∈ l ∧ String.prefix keyPrefix k = true ∧ decode x = inr v ∧ st.2 !! i = Some (loaded_resource k v)
    | None => ∀ x, (k, x) ∈ l → String.prefix keyPrefix k = false ∨ ∃ e, decode x = inl e
    end.

(** All resources are loaded ones. *)
Definition all_loaded (rs : list (resource U L C)) : Prop := Forall (λ r, ∃ k v, r = loaded_resource k v) rs.

Lemma each_read decode keyPrefix l1 l2 st : NoDup (fst <$> (l1 ++ l2)) → read_ok decode keyPrefix l1 st → all_loaded st.2 →
  ∃ st', each_pairs (read_entry decode keyPrefix) l2 st = Done (None, st') ∧ read_ok decode keyPrefix (l1 ++ l2) st' ∧
    all_loaded st'.2.
Proof.
  revert l1 st. induction l2 as [|[k x] l2 IH]; intros l1 st Hnd Hst Hall.
  - exists st. by rewrite app_nil_r.
  - assert (Hfresh : ∀ x', (k, x') ∉ l1).
    { intros x' Hin. rewrite fmap_app in Hnd. apply NoDup_app in Hnd as (_ & Hdis & _).
      apply (Hdis k); [by apply (list_elem_of_fmap_2 fst _ (k, x'))|left]. }
    assert (Hstep : ∃ st1, read_entry decode keyPrefix k x st = Done (true, None, st1) ∧
      read_ok decode keyPrefix (l1 ++ [(k, x)]) st1 ∧ all_loaded st1.2).
    { unfold read_entry. destruct (String.prefix keyPrefix k) eqn:Hpre; simpl.
      - destruct (decode x) as [e|v] eqn:Hd.
        + eexists. split; [done|]. split; [|done]. intros k'. specialize (Hst k'). destruct (st.1 !! k') as [i|].
          * destruct Hst as (x' & v' & Hin & ?). exists x', v'. split; [apply elem_of_app; by left|done].
          * intros x' [Hin|Hin%list_elem_of_singleton]%elem_of_app; [by apply Hst|]. injection Hin as -> ->. right. by exists e.
        + eexists. split; [done|]. split; [|apply Forall_app; split; [done|]; constructor; [by eexists _, _|constructor]].
          intros k'. simpl. specialize (Hst k'). destruct (decide (k' = k)) as [->|Hne].
          * rewrite lookup_insert_eq. exists x, v. split; [apply elem_of_app; right; by left|]. split_and!; try done.
            by apply list_lookup_middle.
          * rewrite lookup_insert_ne by done. destruct (st.1 !! k') as [i|].
            -- destruct Hst as (x' & v' & Hin & Hp & Hd' & Hi). exists x', v'.
               split; [apply elem_of_app; by left|]. split_and!; try done. by apply lookup_app_l_Some.
            -- intros x' [Hin|Hin%list_elem_of_singleton]%elem_of_app; [by apply Hst|]. congruence.
      - eexists. split; [done|]. split; [|done]. intros k'. specialize (Hst k'). destruct (st.1 !! k') as [i|].
        + destruct Hst as (x' & v' & Hin & ?). exists x', v'. split; [apply elem_of_app; by left|done].
        + intros x' [Hin|Hin%list_elem_of_singleton]%elem_of_app; [by apply Hst|]. injection Hin as -> ->. by left. }
    destruct Hstep as (st1 & E1 & Hst1 & Hall1). destruct (IH (l1 ++ [(k, x)]) st1) as (st' & E2 & Hst' & Hall').
    { by rewrite <- app_assoc. }
    { done. }
    { done. }
    exists st'. cbn [each_pairs]. rewrite E1. cbn [mbind outcome_bind]. simpl. by rewrite <- app_assoc in Hst'.
Qed.

Lemma readStates_ok decode prefix (w : world R H Ctr W) ps m : holds w ps m →
  ∃ t rs w', readStates decode prefix ps w = Done (inr (t, rs), w') ∧ holds w' ps m ∧
    read_ok decode (prefix +:+ "::") (map_to_list m) (t, rs) ∧ all_loaded rs.
Proof.
  intros (Hok & n & Hobs). destruct (obs_Some w ps n m Hok Hobs) as (i & sh & Hi & Ho & Hsh & Hn & Hv & Ha).
  set (fn := read_entry (U := U) (L := L) decode (prefix +:+ "::")).
  destruct (each_ok (reg_backend w) (backend sh) n m fn (∅, []) (ok_backend w Hok) Hv) as (l & r' & Ee & Hperm & Hr' & Hv').
  assert (Hnd : NoDup (fst <$> l)) by (rewrite Hperm; apply NoDup_fst_map_to_list).
  destruct (each_read decode (prefix +:+ "::") [] l (∅, [])) as (st & Ep & Hst & Hall).
  { done. }
  { intros k. simpl. rewrite lookup_empty. by intros x Hin%not_elem_of_nil. }
  { constructor. }
  pose proof (ok_idle w ps i Hok Hi) as Hidle. rewrite Ho in Hidle.
  destruct (with_active_open w ps i sh "store/each"
    (λ h, r ← on_backend (λ r, e ← each h fn (∅, []) r; Done (e.1, e.2)); mret (inr (Unwrapped <$> r.1, r.2)))
    (inr (None, st)) r' Hi Hidle Hsh) as (g & Hg & Ew).
  { intros w1 i1 Hi1 Hs1 Hshs Hbe. erewrite M_bind_eq.
    2: { unfold on_backend. run_M. rewrite Hbe, Ee. fold fn in Ep. rewrite Ep. reflexivity. }
    done. }
  exists st.1, st.2. eexists. split; [|split].
  - unfold readStates. erewrite M_bind_eq by exact Ew. by destruct st.
  - split.
    + apply (ok_put_same (set_backend r' w)); [|done|by unfold idle in Hidle; rewrite Hg, Hidle].
      apply ok_set_backend; [done..|]. intros h. by rewrite Hv'.
    + exists n. rewrite obs_put_same; [|done|by unfold idle in Hidle; rewrite Hg, Hidle].
      unfold obs. simpl. rewrite Hi. simpl. rewrite Ho, Hsh. simpl. by rewrite Hv', Hv.
  - split; [|done]. intros k. specialize (Hst k). simpl in Hst |- *. destruct (st.1 !! k).
    + destruct Hst as (x & v & Hin & ?). exists x, v. by rewrite <- Hperm.
    + intros x Hin. apply Hst. by rewrite Hperm.
Qed.

(** Opening the store of an input type. *)
Lemma openStore_ok (decode : X → goerr + state C) (prefix : string) (access : M (world R H Ctr W) (sserr + nat)) w w1 ps m :
  access w = Done (inr ps, w1) → holds w1 ps m →
  ∃ (s : store), openStore decode access prefix w = Done (inr s, persistent s) ∧
    holds (persistent s) ps m ∧ persistentStore s = ps ∧ ops s = [] ∧
    (∀ i r, resources s !! i = Some r → ∃ k v, r = loaded_resource k v) ∧
    ∀ k, match table s !! k with
      | Some i => ∃ x v, m !! k = Some x ∧ String.prefix (prefix +:+ "::") k = true ∧ decode x = inr v ∧
          resources s !! i = Some (loaded_resource k v)
      | None => ∀ x, m !! k = Some x → String.prefix (prefix +:+ "::") k = false ∨ ∃ e, decode x = inl e
      end.
Proof.
  intros Ha Hm. destruct (readStates_ok decode prefix w1 ps m Hm) as (t & rs & w2 & Er & Hm2 & Hread & Hall).
  exists (mkStore rcZero w2 ps t rs [] []). split; [|split; [done|split; [done|split; [done|split; [exact (proj1 (Forall_lookup _ _) Hall)|]]]]].
  - unfold openStore. erewrite M_bind_eq by exact Ha. cbn beta iota. by erewrite M_bind_eq by exact Er.
  - intros k. specialize (Hread k). simpl in *. destruct (t !! k).
    + destruct Hread as (x & v & Hin & ?). exists x, v. by rewrite <- elem_of_map_to_list.
    + intros x Hx. apply Hread. by apply elem_of_map_to_list.
Qed.

(** *** Removing old entries *)
Lemma gcFind_spec started now (s : store) k : k ∈ gcFind started now s ↔
  ∃ l r, table s !! k = Some l ∧ resources s !! l = Some r ∧ checkCleanResource started now r = true.
Proof.
  unfold gcFind. rewrite elem_of_dom. split.
  - intros [l Hl]. apply map_lookup_filter_Some in Hl as [Ht Hc]. simpl in Hc.
    destruct (resources s !! l) as [r|] eqn:Hr; [|done]. eauto.
  - intros (l & r & Ht & Hr & Hc). exists l. apply map_lookup_filter_Some. simpl. by rewrite Hr.
Qed.

Lemma checkCleanResource_true started now (r : resource U L C) : checkCleanResource started now r = true ↔
  uLoad (pending r) = 0%Z ∧ stored r = true ∧ (Z.max started (Updated (internalState r)) + TTL (internalState r) < now)%Z.
Proof.
  unfold checkCleanResource, Finished. case_bool_decide as Hp; simpl; [|naive_solver].
  rewrite andb_true_iff, bool_decide_eq_true.
  replace (if bool_decide (started > Updated (internalState r))%Z then started else Updated (internalState r))
    with (Z.max started (Updated (internalState r))) by (case_bool_decide; lia).
  naive_solver.
Qed.

(** Only keys of the set are removed, from the memory after the store. *)
Lemma gcClean_ok keys (s : store) m : holds (persistent s) (persistentStore s) m →
  ∃ r s' m', gcClean keys s = Done (r, s') ∧ holds (persistent s') (persistentStore s') m' ∧
    resources s' = resources s ∧ ops s' = ops s ∧ sent s' = sent s ∧
    (∀ k, k ∉ keys → table s' !! k = table s !! k ∧ m' !! k = m !! k) ∧ (∀ k, m !! k = None → m' !! k = None) ∧
    ∀ k, table s' !! k = table s !! k ∨ (table s' !! k = None ∧ m' !! k = None).
Proof.
  revert s m. induction keys as [|k keys IH]; intros s m Hm; [exists None, s, m; by split_and!; auto|].
  destruct (persistent_Remove (persistent s) (persistentStore s) m k Hm) as (res & w' & E1 & Hm1).
  assert (E2 : on_persistent (λ ps, Remove ps k) s = Done (res, set_persistent w' s)) by (by apply on_persistent_eq).
  cbn [gcClean]. erewrite M_bind_eq by exact E2. destruct res as [e|u].
  - exists (Some e), (set_persistent w' s), (delete k m). split_and!; try done; [| |by left].
    + intros k' Hk'. rewrite not_elem_of_cons in Hk'. split; [done|]. apply lookup_delete_ne. naive_solver.
    + intros k' Hk'. apply lookup_delete_None. by right.
  - set (s1 := set_table (delete k (table s)) (set_persistent w' s)). erewrite M_bind_eq by done.
    destruct (IH s1 (delete k m) Hm1) as (r & s' & m' & Er & Hm' & Hr & Ho & Hs & Hout & Hnone & Hin).
    exists r, s', m'. split_and!; try done.
    + intros k' Hk'. rewrite not_elem_of_cons in Hk'. destruct (Hout k') as [-> ->]; [naive_solver|].
      simpl. rewrite !lookup_delete_ne by naive_solver. done.
    + intros k' Hk'. apply Hnone, lookup_delete_None. by right.
    + intros k'. destruct (decide (k' = k)) as [->|Hne].
      * right. split; [|apply Hnone, lookup_delete_eq].
        destruct (Hin k) as [Heq|[? _]]; [|done]. rewrite Heq. apply lookup_delete_eq.
      * destruct (Hin k') as [->|?]; [|by right]. left. simpl. by rewrite lookup_delete_ne.
Qed.

(** Two owners release the store: the second one closes it. *)
Lemma two_releases_close (s : store) m : rcOwners (refCount s) = 2%Z → holds (persistent s) (persistentStore s) m →
  (Z.of_nat (length (instances (persistent s))) < int_max)%Z →
  ∃ s2 s3, store_Release s = Done ((), s2) ∧ store_Release s2 = Done ((), s3) ∧ obs (persistent s3) (persistentStore s) = None.
Proof.
  intros H1 (Hok & n & Hobs) Hmax. set (ps := persistentStore s) in *.
  destruct (rcRelease_owners (refCount s)) as [H2 H2']; [rewrite H1; unfold int_max; lia|].
  rewrite H1 in H2, H2'. rewrite bool_decide_false in H2' by done.
  set (c2 := (rcRelease (refCount s)).2) in *.
  destruct (rcRelease_owners c2) as [_ H3]; [rewrite H2; unfold int_max; lia|]. rewrite H2, bool_decide_true in H3 by done.
  destruct (Close_ok (persistent s) ps n m Hok Hobs Hmax) as (e & w' & Ec & _ & _ & _ & Hobs').
  exists (set_refs c2 s), (set_persistent w' (set_refs (rcRelease c2).2 (set_refs c2 s))). split_and!.
  - unfold store_Release. erewrite (M_bind_eq (gets _)) by done. erewrite (M_bind_eq (modify _)) by done. by rewrite H2'.
  - unfold store_Release. erewrite (M_bind_eq (gets _)) by done. erewrite (M_bind_eq (modify _)) by done.
    change (refCount (set_refs c2 s)) with c2. rewrite H3. unfold close. by erewrite M_bind_eq by (by apply on_persistent_eq).
  - simpl. rewrite Hobs'. by rewrite decide_True.
Qed.
End props.

(** ** The properties *)


(** C21. An input that ends gives its source back.  It starts on a source whose lock
    is free, one that is new or one that is known: loaded from the persistent
    store, or used before, then perhaps with other owners and with updates that
    are not yet acknowledged.  Whatever events it publishes and the pipeline
    acknowledges meanwhile, and whether its [Run] returned, failed or panicked,
    afterwards the error is that of [Run] (for a panic, one with its message),
    the source is known and free again, so that the next input can start on it,
    its resource follows the specification of publishing and acknowledging, and
    it is owned by its owners from before and the updates not yet acknowledged
    and nobody else: it is [Finished] if and only if there are none.  (An update
    with a cursor is taken to replace the cursor, a nil one to convert to nil
    only, and documents to be encodable.) *)
Theorem ended_input_releases_source {R H X Ctr W U Rc L C E : Type}
    `{!Convert (state C) X, !Backend R H (state C) X, !BackendLaws R H (state C) X, !EqDecision H, !AtomicInt Ctr,
      !AtomicIntLaws Ctr, !SafeWaitGroup W, !SafeWaitGroupLaws W, !AtomicUint64 U, !AtomicUint64Laws U, !RefCount Rc,
      !Mutex L, !MutexLaws L} (conv : option C → option C → goerr + option C) (s : store R H Ctr W U Rc L C E)
    k acked l n b evs m cancelled ttl now client_Close cs e b' evs' :
  (∀ s, client_Close s = Done ((), s)) →
  (∀ c c' d, conv c (Some d) = conv c' (Some d)) → (∀ v, conv None None = inr v → v = None) →
  (∀ st : state C, ∃ x, convert_in st = inr x) →
  source_free conv s k acked l n b evs m →
  spec_commands (value conv) cs (b, evs) = Some (b', evs') →
  (n + 1 + Z.of_nat (length evs) + Z.of_nat (length cs) < 2 ^ 64)%Z →
  ∃ err s' acked' m' r,
    runSource None cancelled k ttl now client_Close (λ l', run_commands conv l' cs acked;; mret e) s = Done (err, s') ∧
    (err = match e with Returned err => err | Panicked v => Some (errText ("input panic with: " +:+ v)) end) ∧
    table s' !! k = Some l ∧ resources s' !! l = Some r ∧ source_free conv s' k acked' l n b' evs' m' ∧
    locked (lock r) = false ∧ uLoad (pending r) = (n + Z.of_nat (length (omap id evs')))%Z ∧
    Finished r = bool_decide (n = 0%Z ∧ omap id evs' = []).
Proof.
  intros Hclose Hcomplete Hnil Htotal Hfree Hspec Hmax.
  assert (Hom : length (omap id evs) ≤ length evs).
  { clear. induction evs as [|[v|] evs IH]; [done|..]; cbn [omap list_omap id length] in *; lia. }
  destruct (start_source conv Htotal s k acked l n b evs m cancelled ttl now Hfree ltac:(lia))
    as (s0 & s1 & m1 & lk & E0 & E1 & Hlk & Hf1 & Ht1).
  destruct (run_commands_follows conv Hcomplete Hnil Htotal cs s1 _ _ k _ _ _ _ m1 b' evs' Hf1 Hspec ltac:(lia))
    as (acked' & s2 & m2 & E2 & Hf2 & _ & Ht2).
  assert (Hn : (0 < n + 1)%Z).
  { revert Hfree. unfold source_free.
    destruct (table s !! k); [|by intros (_ & _ & -> & _)]. intros (_ & lk0 & _ & Hf).
    destruct (follows_resource conv _ _ _ _ _ _ _ _ _ Hf) as (? & _ & _ & _ & _ & _ & ? & _). lia. }
  destruct (releaseResource_follows conv s2 _ _ k _ _ b' evs' m2 Hf2 Hlk Hn) as (s3 & lk' & E3 & Hfree' & Hf3 & Ht3).
  replace (n + 1 - 1)%Z with n in Hf3 by lia.
  destruct (follows_resource conv _ _ _ _ _ _ _ _ _ Hf3) as (r & Hl & _ & Hlk' & _ & Hp & Hb & _).
  assert (Ht : table s3 !! k = Some l) by (by rewrite Ht3, Ht2).
  eexists _, s3, acked', m2, r. split; [|split; [reflexivity|]].
  - unfold runSource. erewrite M_bind_eq by exact E0. cbn beta iota. erewrite M_bind_eq by exact E1. cbn beta iota.
    erewrite M_bind_eq by (by erewrite M_bind_eq by exact E2). cbn beta iota.
    erewrite M_bind_eq by exact E3. by erewrite M_bind_eq by apply Hclose.
  - do 2 (split; [done|]). split; [unfold source_free; rewrite Ht; split; [done|by exists lk']|].
    split; [by rewrite Hlk'|]. split; [done|]. unfold Finished. apply bool_decide_ext. rewrite Hp.
    rewrite <- length_zero_iff_nil. lia.
Qed.

(** C17. The cleaner spares what is in use.  A run of the cleaner, in whatever order
    it visits the keys, removes nothing but keys of finished resources that are
    stored and whose time to live has passed since their last update and since
    the start; those it drops from memory are gone from the persistent store,
    every other key keeps its resource and its document, and no pending
    operation is touched. *)
Theorem cleaner_spares_resources_in_use {R H X Ctr W U Rc L C E : Type}
    `{!Convert (state C) X, !Backend R H (state C) X, !BackendLaws R H (state C) X, !EqDecision H, !AtomicInt Ctr,
      !AtomicIntLaws Ctr, !SafeWaitGroup W, !SafeWaitGroupLaws W, !AtomicUint64 U}
    (order : gset string → list string) (s : store R H Ctr W U Rc L C E) started now m :
  (∀ ks, order ks ≡ₚ elements ks) → holds (persistent s) (persistentStore s) m →
  ∃ s' m', gcStore order started now s = Done ((), s') ∧ holds (persistent s') (persistentStore s') m' ∧
    resources s' = resources s ∧ ops s' = ops s ∧
    ∀ k, (table s' !! k = table s !! k ∧ m' !! k = m !! k) ∨
      ((∃ l r, table s !! k = Some l ∧ resources s !! l = Some r ∧ uLoad (pending r) = 0%Z ∧ stored r = true ∧
         (Z.max started (Updated (internalState r)) + TTL (internalState r) < now)%Z) ∧
       (table s' !! k = table s !! k ∨ (table s' !! k = None ∧ m' !! k = None))).
Proof.
  intros Horder Hm. unfold gcStore. erewrite (M_bind_eq (gets _)) by done.
  case_bool_decide as Hempty; [exists s, m; split_and!; auto|].
  destruct (gcClean_ok (order (gcFind started now s)) s m Hm) as (r & s' & m' & Er & Hm' & Hr & Ho & _ & Hout & _ & Hin).
  exists s', m'. split; [by erewrite M_bind_eq by exact Er|]. split_and!; try done. intros k.
  destruct (decide (k ∈ gcFind started now s)) as [Hk|Hk].
  - right. split; [|apply Hin]. apply gcFind_spec in Hk as (l & rs & Ht & Hl & Hc%checkCleanResource_true). eauto.
  - left. apply Hout. by rewrite Horder, elem_of_elements.
Qed.

(** C39. Opening the store of an input type loads exactly the documents of that type:
    a key is known afterwards if and only if it starts with the type and "::" and
    has a document that decodes; its resource has the cursor, the time of the
    last update and the time to live of the document, and it is in sync with the
    persistent store, which is not changed.  All resources are idle: nobody owns
    them or has their lock, and no update is pending. *)
Theorem open_loads_documents_of_type {R H X Ctr W U Rc L C E : Type}
    `{!Convert (state C) X, !Backend R H (state C) X, !BackendLaws R H (state C) X, !EqDecision H, !AtomicInt Ctr,
      !AtomicIntLaws Ctr, !SafeWaitGroup W, !SafeWaitGroupLaws W, !AtomicUint64 U, !AtomicUint64Laws U, !RefCount Rc,
      !Mutex L, !MutexLaws L}
    (decode : X → goerr + state C) (prefix : string) (access : M (world R H Ctr W) (sserr + nat)) w w1 ps m :
  access w = Done (inr ps, w1) → holds w1 ps m →
  ∃ (s : store R H Ctr W U Rc L C E), openStore decode access prefix w = Done (inr s, persistent s) ∧
    holds (persistent s) ps m ∧ persistentStore s = ps ∧ ops s = [] ∧
    (∀ i r, resources s !! i = Some r →
       uLoad (pending r) = 0%Z ∧ locked (lock r) = false ∧ activeCursorOperations r = 0%Z ∧ pendingCursor r = None) ∧
    ∀ k, match table s !! k with
      | Some i => ∃ x v r, m !! k = Some x ∧ String.prefix (prefix +:+ "::") k = true ∧ decode x = inr v ∧
          resources s !! i = Some r ∧ key r = k ∧ cursor r = sCursor v ∧ stored r = true ∧ internalInSync r = true ∧
          internalState r = mkInternal (sTTL v) (sUpdated v)
      | None => ∀ x, m !! k = Some x → String.prefix (prefix +:+ "::") k = false ∨ ∃ e, decode x = inl e
      end.
Proof.
  intros Ha Hm. destruct (openStore_ok (E := E) (U := U) (Rc := Rc) (L := L) decode prefix access w w1 ps m Ha Hm)
    as (s & E0 & Hm' & Hps & Hops & Hall & Hk).
  exists s. do 4 (split; [done|]). split.
  - intros i r (k & v & ->)%Hall. simpl. by rewrite uLoad_zero, MakeMutex_locked.
  - intros k. specialize (Hk k). destruct (table s !! k); [|done]. destruct Hk as (x & v & Hx & Hp & Hd & Hr).
    exists x, v, (loaded_resource k v). by split_and!.
Qed.

(** A new start resumes at the last acknowledged event: after any publishing and
    acknowledging on a resource of the type, opening the store again on the same
    persistent store gives the key a resource whose cursor is the value of the
    last acknowledged update, provided documents decode to what was encoded. *)
Theorem restart_resumes_at_last_ack {R H X Ctr W U Rc L C E : Type}
    `{!Convert (state C) X, !Backend R H (state C) X, !BackendLaws R H (state C) X, !EqDecision H, !AtomicInt Ctr,
      !AtomicIntLaws Ctr, !SafeWaitGroup W, !SafeWaitGroupLaws W, !AtomicUint64 U, !AtomicUint64Laws U, !RefCount Rc,
      !Mutex L, !MutexLaws L} (conv : option C → option C → goerr + option C) decode prefix
    (s : store R H Ctr W U Rc L C E) acked l k lk n b evs m cs b' evs' :
  (∀ c c' d, conv c (Some d) = conv c' (Some d)) → (∀ v, conv None None = inr v → v = None) →
  (∀ st : state C, ∃ x, convert_in st = inr x) → (∀ (st : state C) x, convert_in st = inr x → decode x = inr st) →
  String.prefix (prefix +:+ "::") k = true → follows conv s acked l k lk n b evs m →
  spec_commands (value conv) cs (b, evs) = Some (b', evs') →
  (n + Z.of_nat (length evs) + Z.of_nat (length cs) < 2 ^ 64)%Z →
  ∃ acked' s' (s2 : store R H Ctr W U Rc L C E) i r, run_commands conv l cs acked s = Done (acked', s') ∧
    openStore decode (mret (inr (persistentStore s'))) prefix (persistent s') = Done (inr s2, persistent s2) ∧
    table s2 !! k = Some i ∧ resources s2 !! i = Some r ∧ cursor r = b' ∧ pendingCursor r = None ∧ stored r = true.
Proof.
  intros Hcomplete Hnil Htotal Hdec Hpre Hf Hspec Hmax.
  destruct (run_commands_follows conv Hcomplete Hnil Htotal cs s acked l k lk n b evs m b' evs' Hf Hspec Hmax)
    as (acked' & s' & m' & Er & Hf' & _).
  destruct (readStates_ok (U := U) (L := L) decode prefix _ _ m' (fo_holds _ _ _ _ _ _ _ _ _ _ Hf')) as (t & rs & w2 & Ers & _ & Hread & _).
  destruct (fo_persisted _ _ _ _ _ _ _ _ _ _ Hf') as (ttl & upd & x & Hx & Hk).
  specialize (Hread k). simpl in Hread. destruct (t !! k) as [i|] eqn:Ht.
  - destruct Hread as (x' & v & Hin & _ & Hv & Hi). apply elem_of_map_to_list in Hin. assert (x' = x) as -> by congruence.
    rewrite (Hdec _ _ Hx) in Hv. injection Hv as <-.
    exists acked', s', (mkStore rcZero w2 (persistentStore s') t rs [] []), i, (loaded_resource k (mkState ttl upd b')).
    split; [done|]. split; [|done]. unfold openStore. erewrite M_bind_eq by done. cbn beta iota. by erewrite M_bind_eq by exact Ers.
  - destruct (Hread x) as [Hno|[e He]]; [by apply elem_of_map_to_list|congruence|]. rewrite (Hdec _ _ Hx) in He. done.
Qed.

(** The key of a source is not unique: an input with a user ID and one without
    can share the key, and so the lock and the cursor, of different sources. *)
Theorem source_keys_collide (Type_ a b : string) : a ≠ ""%string →
  createSourceID Type_ a b = createSourceID Type_ "" (a +:+ "::" +:+ b) ∧ b ≠ (a +:+ "::" +:+ b)%string.
Proof.
  intros Ha. split; [unfold createSourceID; by rewrite bool_decide_false|]. intros Hb.
  apply (f_equal String.length) in Hb. rewrite !string_length_app in Hb. simpl in Hb. lia.
Qed.
Lemma source_keys_collide_witness : "a"%string ≠ ""%string ∧
  createSourceID "winlog" "a" "b" = createSourceID "winlog" "" "a::b".
Proof. split; [done|]. apply (source_keys_collide "winlog" "a" "b"). done. Defined.

(** The manager closes the persistent store when the last owner leaves, and not
    before: after [Init] the manager and its cleaner own it, the end of the
    cleaner's goroutine gives up both and closes it; if the goroutine cannot be
    started, [Init] itself closes it and returns the error. *)
Theorem last_owner_closes_store {R H X Ctr W U Rc L C E : Type}
    `{!Convert (state C) X, !Backend R H (state C) X, !BackendLaws R H (state C) X, !EqDecision H, !AtomicInt Ctr,
      !AtomicIntLaws Ctr, !SafeWaitGroup W, !SafeWaitGroupLaws W, !RefCount Rc, !RefCountLaws Rc}
    (s : store R H Ctr W U Rc L C E) m :
  refCount s = rcZero → holds (persistent s) (persistentStore s) m →
  (Z.of_nat (length (instances (persistent s))) < int_max)%Z →
  (∃ s1 s2, Init_start None s = Done (None, s1) ∧ persistent s1 = persistent s ∧
    Init_end s1 = Done ((), s2) ∧ obs (persistent s2) (persistentStore s) = None) ∧
  (∀ err, ∃ s1, Init_start (Some err) s = Done (Some err, s1) ∧ obs (persistent s1) (persistentStore s) = None).
Proof.
  intros Hrc Hm Hmax.
  assert (H2 : rcOwners (refCount (set_refs (rcRetain (refCount s)) s)) = 2%Z).
  { simpl. rewrite Hrc, rcRetain_owners; rewrite rcZero_owners; unfold int_max; lia. }
  destruct (two_releases_close (set_refs (rcRetain (refCount s)) s) m H2 Hm Hmax) as (s2 & s3 & E2 & E3 & Hclosed).
  split.
  - eexists _, s3. split; [reflexivity|]. split; [done|]. split; [|done]. unfold Init_end. by erewrite M_bind_eq by exact E2.
  - intros err. exists s3. split; [|done]. unfold Init_start. erewrite M_bind_eq by reflexivity. cbn beta iota.
    erewrite M_bind_eq by exact E2. by erewrite M_bind_eq by exact E3.
Qed.

(** ** A store on the backend in memory *)
#[local] Instance doc_convert {C} : Convert (state C) (state C) := {| convert_in := inr; convert_out x _ := inr x |}.
#[local] Instance doc_backend {C} : Backend (MemoryStore (state C)) string (state C) (state C) := memory_backend map_to_list.
#[local] Instance doc_laws {C} : BackendLaws (MemoryStore (state C)) string (state C) (state C) :=
  memory_laws map_to_list (λ _, reflexivity _).
Definition doc_world (C : Type) : Type := world (MemoryStore (state C)) string Z (Z * bool).
Definition doc_store (C : Type) : Type := store (MemoryStore (state C)) string Z (Z * bool) Z Z bool C ().

Definition opened_world (C : Type) : doc_world C :=
  match Registry_Get "reg" (NewRegistry NewMemoryStoreBackend) with Done (_, w) => w | _ => NewRegistry NewMemoryStoreBackend end.
Definition new_doc_store (C : Type) : doc_store C := mkStore rcZero (opened_world C) 0 ∅ [] [] [].

Lemma opened_holds C : holds (opened_world C) 0 ∅.
Proof.
  assert (Hok : ok (NewRegistry NewMemoryStoreBackend : doc_world C)) by (apply ok_new; [done|]; intros h; reflexivity).
  destruct (exec_open (C := unit) _ "reg" Hok eq_refl) as (r & w' & Ex & Hok' & _).
  assert (Ew : exec (C := unit) (COpen "reg") (NewRegistry NewMemoryStoreBackend : doc_world C) = Done (RStore 0, opened_world C)) by reflexivity.
  rewrite Ew in Ex. injection Ex as _ <-. split; [done|]. exists "reg"%string. reflexivity.
Qed.

Lemma doc_total (st : state string) : ∃ x : state string, convert_in st = inr x.
Proof. by exists st. Qed.

(** Updates replace the cursor. *)
Definition replace (_ from : option string) : goerr + option string := inr from.
Definition history : list (command string ()) := [Pub () (Some "a") 5; Pub () None 6; Pub () (Some "b") 7; Ack 2]%string.

Lemma history_start : ∃ s m, follows replace s 0 0 "type::src" true 1 None [] m ∧ persistentStore (s : doc_store string) = 0.
Proof.
  destruct (start_follows replace doc_total (new_doc_store string) "type::src" None 10 4 ∅ eq_refl
    (opened_holds string)) as (s & m & E & Hf & _).
  exists s, m. split; [done|]. vm_compute in E. by injection E as <-.
Qed.


(** Two inputs, one after the other, on the same source: the first panics and leaves
    one update unacknowledged, the second starts on what the first left and has it
    acknowledged. *)
Lemma ended_input_releases_source_witness : ∃ (s1 s2 : doc_store string) err1 err2 acked r1 r2,
  runSource None None "type::src" 10 4 (λ s, Done ((), s)) (λ l, run_commands replace l history 0;; mret (Panicked "index out of range"))
    (new_doc_store string) = Done (err1, s1) ∧ resources s1 !! 0 = Some r1 ∧ lock r1 = false ∧ Finished r1 = false ∧
  runSource None None "type::src" 10 9 (λ s, Done ((), s)) (λ l, run_commands replace l [Ack 1] acked;; mret (Returned None)) s1 =
    Done (err2, s2) ∧ resources s2 !! 0 = Some r2 ∧ lock r2 = false ∧ Finished r2 = true.
Proof.
  destruct (ended_input_releases_source replace (new_doc_store string) "type::src" 0 0 0 None [] ∅ None 10 4 (λ s, Done ((), s)) history
    (Panicked "index out of range") (Some "a"%string) [Some (Some "b"%string)])
    as (err1 & s1 & acked & m1 & r1 & E1 & _ & _ & Hr1 & Hfree & Hl1 & _ & Hf1);
    [done|done|by intros v [= <-]|exact doc_total|do 5 (split; [reflexivity|]); exact (opened_holds string)|reflexivity|reflexivity|].
  destruct (ended_input_releases_source replace s1 "type::src" acked 0 0 (Some "a"%string) [Some (Some "b"%string)] m1 None 10 9
    (λ s, Done ((), s)) [Ack 1] (Returned None) (Some "b"%string) [])
    as (err2 & s2 & acked2 & m2 & r2 & E2 & _ & _ & Hr2 & _ & Hl2 & _ & Hf2);
    [done|done|by intros v [= <-]|exact doc_total|exact Hfree|reflexivity|reflexivity|].
  exists s1, s2, err1, err2, acked, r1, r2. split; [exact E1|]. split; [exact Hr1|]. split; [exact Hl1|]. split; [exact Hf1|].
  split; [exact E2|]. split; [exact Hr2|]. split; [exact Hl2|exact Hf2].
Defined.

(** One source whose input has ended long ago, and one that is in use. *)
Definition start_on (k : string) : M (doc_store string) () :=
  r ← manager_lock k None; match r with inl _ => mret () | inr l => UpdateTTL l 10 4 end.
Definition two_sources : doc_store string :=
  match (start_on "type::old";; releaseResource 0;; start_on "type::used") (new_doc_store string) with
  | Done (_, s) => s
  | _ => new_doc_store string
  end.

Lemma two_sources_holds : ∃ m, holds (persistent two_sources) (persistentStore two_sources) m.
Proof.
  destruct (start_follows replace doc_total (new_doc_store string) "type::old" None 10 4 ∅ eq_refl (opened_holds string))
    as (s1 & m1 & E1 & Hf1 & _ & Ht1).
  destruct (releaseResource_follows replace s1 0 0 "type::old" _ 1 None [] m1 Hf1 (TryLock_locked _) ltac:(lia))
    as (s2 & lk & E2 & _ & Hf2 & Ht2). rewrite Ht1 in Ht2.
  destruct (start_follows replace doc_total s2 "type::used" None 10 4 m1) as (s3 & m3 & E3 & Hf3 & _ & _);
    [by rewrite Ht2|exact (fo_holds _ _ _ _ _ _ _ _ _ _ Hf2)|].
  exists m3. unfold two_sources, start_on. erewrite M_bind_eq by exact E1. erewrite M_bind_eq by exact E2. rewrite E3.
  exact (fo_holds _ _ _ _ _ _ _ _ _ _ Hf3).
Qed.

Lemma cleaner_spares_resources_in_use_witness : ∃ (s' : doc_store string),
  gcStore elements 0 100 two_sources = Done ((), s') ∧ table two_sources !! "type::used"%string = Some 1 ∧
  table s' !! "type::used"%string = Some 1 ∧ table s' !! "type::old"%string = None.
Proof.
  destruct two_sources_holds as [m Hm].
  destruct (cleaner_spares_resources_in_use elements two_sources 0 100 m (λ _, reflexivity _) Hm)
    as (s' & m' & E & _ & _ & _ & Hk).
  exists s'. split; [exact E|]. split; [reflexivity|]. split.
  - destruct (Hk "type::used"%string) as [[Ht _]|[(l & r & Hl & Hr & Hp & _) _]]; [rewrite Ht; reflexivity|].
    exfalso. vm_compute in Hl. injection Hl as <-. vm_compute in Hr. injection Hr as <-. discriminate Hp.
  - vm_compute in E. injection E as <-. reflexivity.
Defined.

(** Three documents: one of the type, one of another type, and one that does not
    decode. *)
Lemma open_loads_documents_of_type_witness :
  let decode := λ st : state string, if bool_decide (sTTL st = 0%Z) then inl (errText "no TTL") else inr st in
  ∃ w (s : doc_store string) i, openStore decode (mret (inr 0)) "type" w = Done (inr s, persistent s) ∧
    table s !! "type::a"%string = Some i ∧ (∃ r, resources s !! i = Some r ∧ cursor r = Some "x"%string ∧ lock r = false) ∧
    table s !! "other::b"%string = None ∧ table s !! "type::c"%string = None.
Proof.
  intros decode.
  destruct (persistent_Set (opened_world string) 0 ∅ "type::a" (mkState 1 5 (Some "x"%string)) (opened_holds string)) as (r1 & w1 & _ & H1).
  destruct (persistent_Set w1 0 _ "other::b" (mkState 1 5 None) H1) as (r2 & w2 & _ & H2).
  destruct (persistent_Set w2 0 _ "type::c" (mkState 0 5 None) H2) as (r3 & w & _ & Hm).
  destruct (open_loads_documents_of_type (E := ()) (U := Z) (Rc := Z) (L := bool) decode "type" (mret (inr 0)) w w 0 _ eq_refl Hm)
    as (s & E & _ & _ & _ & Hidle & Hk).
  pose proof (Hk "type::a"%string) as Ha. pose proof (Hk "other::b"%string) as Hb. pose proof (Hk "type::c"%string) as Hc.
  destruct (table s !! "type::a"%string) as [i|] eqn:Ea.
  2: { exfalso. destruct (Ha (mkState 1 5 (Some "x"%string)) eq_refl) as [Hp|[e He]]; [discriminate Hp|discriminate He]. }
  destruct Ha as (x & v & r & Hx & _ & Hd & Hr & _ & Hcur & _). injection Hx as <-. injection Hd as <-.
  exists w, s, i. split; [exact E|]. split; [exact Ea|].
  split; [exists r; exact (conj Hr (conj Hcur (proj1 (proj2 (Hidle i r Hr)))))|]. split.
  - destruct (table s !! "other::b"%string); [|reflexivity]. destruct Hb as (x & v & r' & _ & Hp & _). discriminate Hp.
  - destruct (table s !! "type::c"%string); [|reflexivity]. destruct Hc as (x & v & r' & Hx & _ & Hd & _).
    injection Hx as <-. discriminate Hd.
Defined.

Lemma restart_resumes_at_last_ack_witness : ∃ (s2 : doc_store string) i r,
  table s2 !! "type::src"%string = Some i ∧ resources s2 !! i = Some r ∧ cursor r = Some "a"%string.
Proof.
  destruct history_start as (s & m & Hf & _).
  destruct (restart_resumes_at_last_ack replace inr "type" s 0 0 "type::src" true 1 None [] m history (Some "a"%string) [Some (Some "b"%string)])
    as (acked' & s' & s2 & i & r & _ & _ & Ht & Hr & Hc & _);
    [done|by intros v [= <-]|exact doc_total|by intros st x [= ->]|reflexivity|done|reflexivity|reflexivity|].
  by exists s2, i, r.
Defined.

(** Updates that are merged into the cursor, field by field. *)
Definition merge (to from : option (gmap string nat)) : goerr + option (gmap string nat) :=
  inr (match from with Some d => Some (d ∪ default ∅ to) | None => to end).
Definition field (k : string) (v : nat) : option (gmap string nat) := Some {[ k := v ]}.
Definition merge_run (cs : list (command (gmap string nat) ())) : option (gmap string nat) :=
  match (l ← manager_lock "type::src" None; run_commands merge 0 cs 0) (new_doc_store (gmap string nat)) with
  | Done (_, s) => r ← resources s !! 0; cursor r
  | _ => None
  end.

(** When updates carry only the fields that changed, what is persisted depends on
    when events are acknowledged: with the pipeline idle in between, the second
    update starts from nothing and the first one's field is lost (the pending
    cursor is copied, not the cursor it is to replace); acknowledged after both were
    published, it is kept; and while updates are pending it is kept as well. *)
Theorem merged_updates_depend_on_acks :
  let a := Pub () (field "a" 1) 5 in let b := Pub () (field "b" 2) 6 in let c := Pub () (field "c" 3) 7 in
  merge_run [a; Ack 1; b; Ack 1] = Some {[ "b"%string := 2 ]} ∧
  merge_run [a; b; Ack 1; Ack 1] = Some {[ "a"%string := 1; "b"%string := 2 ]} ∧
  merge_run [a; Ack 1; b; c; Ack 1] = Some {[ "a"%string := 1; "b"%string := 2 ]} ∧
  merge_run [a; Ack 1; b; c; Ack 1; Ack 1] = Some {[ "b"%string := 2; "c"%string := 3 ]}.
Proof. vm_compute. repeat split. Qed.

Lemma last_owner_closes_store_witness : ∃ s1 s2 : doc_store string,
  Init_start None (new_doc_store string) = Done (None, s1) ∧ Init_end s1 = Done ((), s2) ∧ obs (persistent s2) 0 = None.
Proof.
  destruct (last_owner_closes_store (new_doc_store string) ∅ eq_refl (opened_holds string) eq_refl)
    as [(s1 & s2 & E1 & _ & E2 & Ho) _].
  by exists s1, s2.
Defined.
