(* ===== verification/CursorConc.v ===== *)
(** * Several inputs and the cleaner: all interleavings

    Goroutines run inputs on sources ([managedInput.runSource]), the pipeline
    acknowledges their events and the cleaner removes old entries, in any order.  The
    steps are the critical sections of store.go, publish.go, clean.go and manager.go
    and the operations on a resource's lock.  In two places a step spans more than
    one section of the code, in both of which a resource only looks busier in
    between: an update operation is sent in the step that creates it, and [Execute]
    releases its references in the step that saves the cursor. *)

From stdpp Require Import base gmap strings list fin_maps relations.
From Stdlib Require Import ZArith Lia.
From S2P Require Import Prelude Fs Backend Concert Storetest Statestore StatestoreFacts StatestoreSeq StatestoreSpec Cursor CursorFacts CursorSpec CursorProps.

(** Where a goroutine is: it has no source; has the resource [l] and waits for its
    lock; runs the input with client [c]; has given the lock back. *)
Inductive gor :=
| Idle
| Waiting (l : nat)
| Running (l c : nat)
| Releasing (l : nat).

Inductive action (C E : Type) :=
| ALock (k : string)
| ATry
| ACancel
| AUpdateTTL (ttl now : Z)
| APublish (event : E) (update : option C) (ts : Z) (cancelled : option goerr)
| AUnlock
| ARelease.
Arguments ALock {_ _} _.
Arguments ATry {_ _}.
Arguments ACancel {_ _}.
Arguments AUpdateTTL {_ _} _ _.
Arguments APublish {_ _} _ _ _ _.
Arguments AUnlock {_ _}.
Arguments ARelease {_ _}.

(** A step of goroutine [i]; a call of the acknowledgement handler of client [c] with
    [n] events, which overtakes reports of [skip] earlier ones (reports_can_overtake
    in AckerConc.v); a run of the cleaner. *)
Inductive move (C E : Type) :=
| MGor (i : nat) (a : action C E)
| MAck (c skip n : nat)
| MClean (started now : Z).
Arguments MGor {_ _} _ _.
Arguments MAck {_ _} _ _ _.
Arguments MClean {_ _} _ _.

(** A client: the resource of its cursor, and the [Private] fields of its events
    that are not acknowledged yet. *)
Abbreviation client := (prod nat (list (option nat))).

Section conc.
Context {R H X Ctr W U Rc L C E : Type} `{!Backend R H (state C) X, !AtomicInt Ctr, !SafeWaitGroup W,
  !AtomicUint64 U, !RefCount Rc, !Mutex L}.
Abbreviation store := (store R H Ctr W U Rc L C E).
Context (conv : option C → option C → goerr + option C) (order : gset string → list string).

(** The next step of a goroutine, if the action applies. *)
Definition act (g : gor) (a : action C E) (cs : list client) : option (M store (gor * list client)) :=
  match g, a with
  | Idle, ALock k => Some (r ← store_Get k; l ← nonnil r; mret (Waiting l, cs))
  | Waiting l, ATry => Some (
      r ← get_resource l;
      let '(ok, m) := TryLock (lock r) in
      if (ok : bool) then put_resource l (set_lock m r);; mret (Running l (length cs), cs ++ [(l, [])])
      else mret (Waiting l, cs))
  | Waiting l, ACancel => Some (Release l;; mret (Idle, cs))
  | Running l c, AUpdateTTL ttl now => Some (UpdateTTL l ttl now;; mret (Running l c, cs))
  | Running l c, APublish event update ts cancelled => Some (
      n ← gets (λ s : store, length (sent s));
      Publish conv l event None update ts cancelled;;
      fresh ← gets (λ s : store, snd <$> drop n (sent s));
      mret (Running l c, alter (λ q : client, (q.1, q.2 ++ fresh)) c cs))
  | Running l c, AUnlock => Some (unlock l;; mret (Releasing l, cs))
  | Releasing l, ARelease => Some (Release l;; mret (Idle, cs))
  | _, _ => None
  end.

Record config := mkConfig { cstore : store; pool : list gor; clients : list client }.

(** [OutOfFuel]: the move does not apply. *)
Definition run_move (c : config) (m : move C E) : outcome config :=
  match m with
  | MGor i a =>
    match pool c !! i ≫= λ g, act g a (clients c) with
    | Some p => r ← p (cstore c); Done (mkConfig r.2 (<[ i := r.1.1 ]> (pool c)) r.1.2)
    | None => OutOfFuel
    end
  | MAck i skip n =>
    match clients c !! i with
    | Some (l, q) =>
      if decide (skip + n ≤ length q) then
        r ← ACKHandler conv (take n (drop skip q)) (cstore c);
        Done (mkConfig r.2 (pool c) (<[ i := (l, take skip q ++ drop (skip + n) q) ]> (clients c)))
      else OutOfFuel
    | None => OutOfFuel
    end
  | MClean started now => r ← gcStore order started now (cstore c); Done (mkConfig r.2 (pool c) (clients c))
  end.

(** The 64-bit counters have room for all goroutines and all events published. *)
Definition bounded (c : config) : Prop := (Z.of_nat (length (pool c) + length (sent (cstore c))) < 2 ^ 64)%Z.

Inductive step : config → config → Prop :=
| step_move c m c' : bounded c → run_move c m = Done c' → step c c'.

Definition start (s : store) (n : nat) : config := mkConfig s (replicate n Idle) [].

(** Using a resource and running on it. *)
Definition uses (l : nat) (g : gor) : bool :=
  match g with
  | Idle => false
  | Waiting l' | Running l' _ | Releasing l' => bool_decide (l' = l)
  end.
Definition runs (l : nat) (g : gor) : bool := match g with Running l' _ => bool_decide (l' = l) | _ => false end.
End conc.
Arguments config : clear implicits.

(** ** What the operations change of pending counts, locks, keys and the table *)
Section effects.
Context {R H X Ctr W U Rc L C E : Type} `{!Convert (state C) X, !Backend R H (state C) X, !BackendLaws R H (state C) X,
  !EqDecision H, !AtomicInt Ctr, !AtomicIntLaws Ctr, !SafeWaitGroup W, !SafeWaitGroupLaws W,
  !AtomicUint64 U, !AtomicUint64Laws U, !RefCount Rc, !Mutex L, !MutexLaws L}.
Abbreviation store := (store R H Ctr W U Rc L C E).
Abbreviation resource := (resource U L C).
Context (conv : option C → option C → goerr + option C).

(** Resource [l], with the same key, has become [r']; the operations are [os]. *)
Record touched (s s' : store) (l : nat) (r r' : resource) (os : list (updateOp C)) : Prop := mkTouched {
  to_resources : resources s' = <[ l := r' ]> (resources s);
  to_key : key r' = key r;
  to_table : table s' = table s;
  to_store : persistentStore s' = persistentStore s;
  to_ops : ops s' = os;
  to_holds m : holds (persistent s) (persistentStore s) m → ∃ m', holds (persistent s') (persistentStore s') m'
}.

Lemma touched_with (s : store) l r r' : resources s !! l = Some r → key r' = key r →
  touched s (with_resource l r' s) l r r' (ops s).
Proof. intros Hl Hk. split; try done. intros m Hm. by exists m. Qed.

Lemma touched_trans (s s' s'' : store) l r r' r'' os os' : touched s s' l r r' os → touched s' s'' l r' r'' os' →
  touched s s'' l r r'' os'.
Proof.
  intros [H1 H2 H3 H4 H5 H6] [G1 G2 G3 G4 G5 G6]. split; [by rewrite G1, H1, list_insert_insert_eq|congruence..|].
  intros m [m' Hm']%H6. by eapply G6.
Qed.

Lemma touched_update (s : store) l r f : resources s !! l = Some r → key (f r) = key r →
  update_resource l f s = Done ((), with_resource l (f r) s) ∧ touched s (with_resource l (f r) s) l r (f r) (ops s).
Proof. intros Hl Hk. split; [by apply update_resource_eq|by apply touched_with]. Qed.

(** Runs a first step that reads or updates a resource. *)
Ltac get_step := erewrite M_bind_eq by (by eapply get_resource_eq); cbn beta iota.
Ltac update_step := erewrite M_bind_eq by (by eapply update_resource_eq); cbn beta iota.

(** Writing the state of a resource, and noting that it is stored. *)
Definition notes (l : nat) (r : resource) (m : M store ()) : Prop := ∀ s : store, resources s !! l = Some r →
  ∃ r', m s = Done ((), with_resource l r' s) ∧ key r' = key r ∧ pending r' = pending r ∧ lock r' = lock r.

Lemma notes_nothing l r : notes l r (mret ()).
Proof.
  intros s Hl. exists r. split; [|done]. unfold with_resource, set_resources. rewrite list_insert_id by done. by destruct s.
Qed.

Lemma notes_update l r f : key (f r) = key r → pending (f r) = pending r → lock (f r) = lock r → notes l r (update_resource l f).
Proof. intros Hk Hp Hlk s Hl. exists (f r). split; [by apply update_resource_eq|done]. Qed.

Lemma save_effect (s : store) l r (v : state C) m (k : sserr + () → M store ()) : resources s !! l = Some r →
  holds (persistent s) (persistentStore s) m → (∀ res, notes l r (k res)) →
  ∃ s' r', (err ← on_persistent (λ ps, Set_ ps (key r) v); k err) s = Done ((), s') ∧
    touched s s' l r r' (ops s) ∧ sent s' = sent s ∧ pending r' = pending r ∧ lock r' = lock r.
Proof.
  intros Hl Hm Hk. destruct (persistent_Set (persistent s) (persistentStore s) m (key r) v Hm) as (res & w' & Es & Hm').
  assert (E1 : on_persistent (λ ps, Set_ ps (key r) v) s = Done (res, set_persistent w' s)) by (by apply on_persistent_eq).
  destruct (Hk res (set_persistent w' s) Hl) as (r' & E2 & Hkey & Hp & Hlk).
  exists (with_resource l r' (set_persistent w' s)), r'. split; [by rewrite (M_bind_eq _ _ _ _ _ E1)|].
  split; [|done]. split; try done. intros m0 _. eexists. exact Hm'.
Qed.

Lemma UpdateTTL_effect (s : store) l r ttl now m : resources s !! l = Some r → holds (persistent s) (persistentStore s) m →
  ∃ s' r', UpdateTTL l ttl now s = Done ((), s') ∧ touched s s' l r r' (ops s) ∧ sent s' = sent s ∧
    pending r' = pending r ∧ lock r' = lock r.
Proof.
  intros Hl Hm. unfold UpdateTTL. get_step. destruct (stored r && _).
  { exists s, r. split; [done|]. split; [|done]. split; try done; [by rewrite list_insert_id|eauto]. }
  set (r1 := set_internal _ r). erewrite (M_bind_eq (put_resource l r1)) by done.
  change (set_resources (<[l:=r1]> (resources s)) s) with (with_resource l r1 s).
  destruct (save_effect (with_resource l r1 s) l r1 (inSyncStateSnapshot r1) m (λ err, match err with
    | inl _ => update_resource l (λ r, set_sync (stored r) false r) | inr _ => update_resource l (set_sync true true) end))
    as (s' & r' & Eq & Ht & Hs & Hp & Hlk).
  - by eapply with_resource_lookup.
  - done.
  - intros [e|u]; by apply notes_update.
  - exists s', r'. split; [exact Eq|]. split; [|done]. eapply touched_trans; [by apply (touched_with s l r r1)|exact Ht].
Qed.

Lemma createUpdateOp_effect (s : store) l r d ts : resources s !! l = Some r →
  ∃ res s' r', createUpdateOp conv l d ts s = Done (res, s') ∧ sent s' = sent s ∧ lock r' = lock r ∧
    match res with
    | inl _ => pending r' = pending r ∧ touched s s' l r r' (ops s)
    | inr o => o = length (ops s) ∧ pending r' = uInc (pending r) ∧ touched s s' l r r' (ops s ++ [mkOp (Some l) ts d])
    end.
Proof.
  intros Hl. unfold createUpdateOp. get_step. set (r1 := if bool_decide _ then _ else r).
  assert (Hr1 : key r1 = key r ∧ pending r1 = pending r ∧ lock r1 = lock r) by (unfold r1; case_bool_decide; done).
  destruct Hr1 as (Hk1 & Hp1 & Hlk1). erewrite (M_bind_eq (put_resource l r1)) by done.
  change (set_resources (<[l:=r1]> (resources s)) s) with (with_resource l r1 s).
  destruct (conv (pendingCursor r1) d) as [e|v].
  { eexists _, _, r1. split; [reflexivity|]. split; [done|]. split; [done|]. split; [done|]. by apply touched_with. }
  set (r2 := set_cursors _ _ v r1). erewrite (M_bind_eq (put_resource l r2)) by done.
  change (set_resources _ (with_resource l r1 s)) with (with_resource l r2 (with_resource l r1 s)). rewrite with_resource_with.
  pose proof (with_resource_lookup l r2 s r Hl) as Hl2. unfold Retain. update_step. rewrite with_resource_with.
  set (r3 := set_pending (uInc (pending r2)) r2). pose proof (with_resource_lookup l r3 s r Hl) as Hl3.
  update_step. rewrite with_resource_with. set (r4 := set_cursors _ _ _ r3).
  eexists _, _, r4. split; [reflexivity|]. split; [done|]. split; [done|]. split; [done|].
  split; [change (uInc (pending r1) = uInc (pending r)); by rewrite Hp1|].
  split; try done. intros m Hm. by exists m.
Qed.

Lemma Execute_effect (s : store) l r o ts d n m : ops s !! o = Some (mkOp (Some l) ts d) → resources s !! l = Some r →
  holds (persistent s) (persistentStore s) m →
  ∃ s' r', Execute conv o n s = Done ((), s') ∧ touched s s' l r r' (<[ o := mkOp None 0 None ]> (ops s)) ∧ sent s' = sent s ∧
    pending r' = uSub n (pending r) ∧ lock r' = lock r.
Proof.
  intros Ho Hl Hm. unfold Execute, get_op. erewrite M_bind_eq by (run_M; by rewrite Ho). cbn [op_resource delta timestamp].
  erewrite M_bind_eq by (run_M; done). get_step. set (r1 := if bool_decide _ then _ else _).
  assert (Hr1 : key r1 = key r ∧ pending r1 = pending r ∧ lock r1 = lock r) by (unfold r1; case_bool_decide; done).
  destruct Hr1 as (Hk1 & Hp1 & Hlk1). set (r2 := set_internal _ r1).
  erewrite (M_bind_eq (put_resource l r2)) by done.
  change (set_resources (<[l:=r2]> (resources s)) s) with (with_resource l r2 s).
  destruct (save_effect (with_resource l r2 s) l r2 (inSyncStateSnapshot r2) m (λ err, match err with
    | inl _ => mret () | inr _ => update_resource l (set_sync true true) end)) as (s3 & r3 & E3 & Ht3 & Hs3 & Hp3 & Hlk3).
  - by eapply with_resource_lookup.
  - done.
  - intros [e|u]; [apply notes_nothing|by apply notes_update].
  - apply M_bind_inv in E3 as (err & s2 & E2 & E3). erewrite M_bind_eq by exact E2. erewrite M_bind_eq by exact E3.
    assert (Ht : touched s s3 l r r3 (ops s)) by (eapply touched_trans; [by apply (touched_with s l r r2)|exact Ht3]).
    assert (Hl3 : resources s3 !! l = Some r3).
    { rewrite (to_resources _ _ _ _ _ _ Ht). apply list_lookup_insert_eq. by eapply lookup_lt_Some. }
    unfold done, get_op. erewrite M_bind_eq by (run_M; by rewrite (to_ops _ _ _ _ _ _ Ht), Ho). cbn [op_resource].
    erewrite M_bind_eq by (run_M; done). unfold UpdatesReleaseN. update_step.
    set (r4 := set_pending (uSub n (pending r3)) r3). eexists _, r4. split; [reflexivity|].
    split; [|split; [|split; [change (uSub n (pending r3) = uSub n (pending r)); rewrite Hp3; change (pending r2) with (pending r1); by rewrite Hp1|
      change (lock r3 = lock r); by rewrite Hlk3]]].
    + destruct Ht as [H1 H2 H3 H4 H5 H6]. split; try done.
      * simpl. by rewrite H1, list_insert_insert_eq.
      * simpl. by rewrite H5.
    + done.
Qed.
End effects.

(** ** The invariant *)
Section safety.
Context {R H X Ctr W U Rc L C E : Type} `{!Convert (state C) X, !Backend R H (state C) X, !BackendLaws R H (state C) X,
  !EqDecision H, !AtomicInt Ctr, !AtomicIntLaws Ctr, !SafeWaitGroup W, !SafeWaitGroupLaws W,
  !AtomicUint64 U, !AtomicUint64Laws U, !RefCount Rc, !Mutex L, !MutexLaws L}.
Abbreviation store := (store R H Ctr W U Rc L C E).
Abbreviation resource := (resource U L C).
Abbreviation config := (config R H Ctr W U Rc L C E).
Context (conv : option C → option C → goerr + option C) (order : gset string → list string).
Hypothesis order_perm : ∀ ks, order ks ≡ₚ elements ks.

(** The update operations of a resource that are not acknowledged, and all events
    that are not. *)
Definition weight (l : nat) (q : client) : nat := if decide (q.1 = l) then length (omap id q.2) else 0.
#[local] Arguments weight : simpl never.
Fixpoint inflight (l : nat) (cs : list client) : nat :=
  match cs with [] => 0 | q :: cs => weight l q + inflight l cs end.
Fixpoint unacked (cs : list client) : nat :=
  match cs with [] => 0 | q :: cs => length q.2 + unacked cs end.

Lemma inflight_insert l cs i q q' : cs !! i = Some q → inflight l (<[ i := q' ]> cs) + weight l q = inflight l cs + weight l q'.
Proof. revert i. induction cs as [|x cs IH]; intros [|i] Hi; simplify_eq/=; [lia|]. specialize (IH i Hi). lia. Qed.
Lemma inflight_app l cs cs' : inflight l (cs ++ cs') = inflight l cs + inflight l cs'.
Proof. induction cs; simpl; lia. Qed.
Lemma unacked_insert cs i q q' : cs !! i = Some q → unacked (<[ i := q' ]> cs) + length q.2 = unacked cs + length q'.2.
Proof. revert i. induction cs as [|x cs IH]; intros [|i] Hi; simplify_eq/=; [lia|]. specialize (IH i Hi). lia. Qed.
Lemma unacked_app cs cs' : unacked (cs ++ cs') = unacked cs + unacked cs'.
Proof. induction cs; simpl; lia. Qed.
Lemma unacked_lookup cs i q : cs !! i = Some q → length q.2 ≤ unacked cs.
Proof. revert i. induction cs as [|x cs IH]; intros [|i] Hi; simplify_eq/=; [lia|]. specialize (IH i Hi). lia. Qed.

(** The owners of a resource: the goroutines that use it and its pending updates. *)
Definition users (p : list gor) (cs : list client) (l : nat) : nat := count (uses l) p + inflight l cs.

Definition client_ok (s : store) (q : client) : Prop :=
  is_Some (resources s !! q.1) ∧ NoDup (omap id q.2) ∧
  ∀ o, o ∈ omap id q.2 → ∃ ts d, ops s !! o = Some (mkOp (Some q.1) ts d).
Record clients_ok (s : store) (p : list gor) (cs : list client) : Prop := mkClientsOk {
  co_client i q : cs !! i = Some q → client_ok s q;
  co_disjoint i j q q' o : cs !! i = Some q → cs !! j = Some q' → o ∈ omap id q.2 → o ∈ omap id q'.2 → i = j;
  co_running i l k : p !! i = Some (Running l k) → ∃ q, cs !! k = Some (l, q);
  co_unacked : unacked cs ≤ length (sent s)
}.

Definition resource_ok (p : list gor) (cs : list client) (l : nat) (r : resource) : Prop :=
  uLoad (pending r) = wrap 64 (Z.of_nat (users p cs l)) ∧ count (runs l) p = Nat.b2n (locked (lock r)).

Record inv_of (s : store) (p : list gor) (cs : list client) : Prop := mkInv {
  inv_holds : ∃ m, holds (persistent s) (persistentStore s) m;
  inv_res l r : resources s !! l = Some r → resource_ok p cs l r;
  inv_gor i g l : p !! i = Some g → uses l g = true → is_Some (resources s !! l);
  inv_clients : clients_ok s p cs;
  inv_table k l : table s !! k = Some l → ∃ r, resources s !! l = Some r ∧ key r = k;
  inv_live l r : resources s !! l = Some r → 0 < users p cs l → table s !! key r = Some l
}.
Definition inv (c : config) : Prop := inv_of (cstore c) (pool c) (clients c).

(** A move that works on one resource. *)
Lemma inv_touched s s' p p' cs cs' l r r' os : inv_of s p cs → resources s !! l = Some r → touched s s' l r r' os →
  (∀ l', l' ≠ l → users p' cs' l' = users p cs l' ∧ count (runs l') p' = count (runs l') p) →
  resource_ok p' cs' l r' →
  (∀ i g l', p' !! i = Some g → uses l' g = true → is_Some (resources s !! l')) →
  clients_ok s' p' cs' → (0 < users p' cs' l → table s !! key r = Some l) → inv_of s' p' cs'.
Proof.
  intros [Hh Hres Hg Hcl Ht Hlive] Hl [T1 T2 T3 T4 T5 T6] Hother Hr' Hg' Hcl' Hl'.
  assert (Hsome : ∀ l', is_Some (resources s !! l') → is_Some (resources s' !! l')).
  { intros l' H1. rewrite T1. apply lookup_lt_is_Some. rewrite length_insert. by apply lookup_lt_is_Some. }
  split.
  - destruct Hh as [m Hm]. by eapply T6.
  - intros l' r0 Hr0. rewrite T1 in Hr0. destruct (decide (l' = l)) as [->|Hne].
    + rewrite list_lookup_insert_eq in Hr0 by (by eapply lookup_lt_Some). by injection Hr0 as <-.
    + rewrite list_lookup_insert_ne in Hr0 by done. destruct (Hother l' Hne) as [Eu Er].
      unfold resource_ok. rewrite Eu, Er. by apply Hres.
  - intros i g l' Hi Hu. by eapply Hsome, Hg'.
  - done.
  - intros k l' Hk. rewrite T3 in Hk. destruct (Ht k l' Hk) as (r0 & Hr0 & Hkey). rewrite T1.
    destruct (decide (l' = l)) as [->|Hne].
    + exists r'. rewrite list_lookup_insert_eq by (by eapply lookup_lt_Some). split; [done|]. rewrite Hl in Hr0. by simplify_eq.
    + exists r0. by rewrite list_lookup_insert_ne.
  - intros l' r0 Hr0 Hpos. rewrite T3. rewrite T1 in Hr0. destruct (decide (l' = l)) as [->|Hne].
    + rewrite list_lookup_insert_eq in Hr0 by (by eapply lookup_lt_Some). injection Hr0 as <-. rewrite T2. by apply Hl'.
    + rewrite list_lookup_insert_ne in Hr0 by done. destruct (Hother l' Hne) as [Eu _]. apply Hlive; [done|]. by rewrite <- Eu.
Qed.

(** *** How one goroutine's change of place changes the counts *)
Lemma count_place (p : list gor) i g g' f : p !! i = Some g →
  count f (<[ i := g' ]> p) + Nat.b2n (f g) = count f p + Nat.b2n (f g').
Proof. apply count_insert. Qed.

Lemma place_other p i g g' l l' : p !! i = Some g → (∀ l', l' ≠ l → uses l' g = false ∧ uses l' g' = false) → l' ≠ l →
  count (uses l') (<[ i := g' ]> p) = count (uses l') p ∧ count (runs l') (<[ i := g' ]> p) = count (runs l') p.
Proof.
  intros Hi Hu Hne. destruct (Hu l' Hne) as [H1 H2].
  assert (Hr : ∀ g, uses l' g = false → runs l' g = false) by (intros []; done).
  pose proof (count_place p i g g' (uses l') Hi) as E1. pose proof (count_place p i g g' (runs l') Hi) as E2.
  rewrite H1, H2 in E1. rewrite (Hr _ H1), (Hr _ H2) in E2. simpl in *. lia.
Qed.

Lemma place_gor s p cs i g' l : inv_of s p cs → is_Some (resources s !! l) → (∀ l', uses l' g' = true → l' = l) →
  ∀ j g0 l', <[ i := g' ]> p !! j = Some g0 → uses l' g0 = true → is_Some (resources s !! l').
Proof.
  intros Hinv Hl Huniq j g0 l' Hj Hu. apply list_lookup_insert_Some in Hj as [(_ & -> & _)|[_ Hj]].
  - by rewrite (Huniq _ Hu).
  - by eapply (inv_gor _ _ _ Hinv).
Qed.

(** The clients are those of the pool. *)
Lemma clients_ok_place s s' p cs i g g' : clients_ok s p cs → p !! i = Some g →
  (∀ l k, g' = Running l k → ∃ q, cs !! k = Some (l, q)) → ops s' = ops s → length (sent s) ≤ length (sent s') →
  (∀ l, is_Some (resources s !! l) → is_Some (resources s' !! l)) → clients_ok s' (<[ i := g' ]> p) cs.
Proof.
  intros [H1 H2 H3 H4] Hi Hg Ho Hs Hr. split.
  - intros j q Hj. destruct (H1 j q Hj) as (A & B & D). split; [by apply Hr|]. split; [done|]. by rewrite Ho.
  - done.
  - intros j l k Hj. apply list_lookup_insert_Some in Hj as [(-> & -> & _)|[_ Hj]]; [by apply Hg|by eapply H3].
  - lia.
Qed.

Lemma load_inc (u : U) n : uLoad u = wrap 64 (Z.of_nat n) → uLoad (uInc u) = wrap 64 (Z.of_nat (S n)).
Proof. intros E0. rewrite uLoad_inc, E0, wrap_add_l. f_equal. lia. Qed.
Lemma load_dec (u : U) n : uLoad u = wrap 64 (Z.of_nat (S n)) → uLoad (uDec u) = wrap 64 (Z.of_nat n).
Proof. intros E0. rewrite uLoad_dec, E0, wrap_sub_l. f_equal. lia. Qed.
Lemma load_sub (u : U) n k : uLoad u = wrap 64 (Z.of_nat (n + k)) → uLoad (uSub (Z.of_nat k) u) = wrap 64 (Z.of_nat n).
Proof. intros E0. rewrite uLoad_sub, E0, wrap_sub_l. f_equal. lia. Qed.

(** A goroutine that moves on one resource, which is in the table. *)
Lemma inv_place s s' p cs i g g' l r r' : inv_of s p cs → p !! i = Some g → resources s !! l = Some r →
  touched s s' l r r' (ops s) → length (sent s) ≤ length (sent s') →
  (∀ l', l' ≠ l → uses l' g = false ∧ uses l' g' = false) →
  (∀ l0 k, g' = Running l0 k → ∃ q, cs !! k = Some (l0, q)) →
  (uses l g = true ∨ table s !! key r = Some l) →
  (∀ n, uLoad (pending r) = wrap 64 (Z.of_nat (n + Nat.b2n (uses l g))) → uLoad (pending r') = wrap 64 (Z.of_nat (n + Nat.b2n (uses l g')))) →
  (∀ n, n + Nat.b2n (runs l g) = Nat.b2n (locked (lock r)) → n + Nat.b2n (runs l g') = Nat.b2n (locked (lock r'))) →
  inv_of s' (<[ i := g' ]> p) cs.
Proof.
  intros Hinv Hi Hl Ht Hs Hu Hg' Htab Hp Hlk. destruct (inv_res _ _ _ Hinv l r Hl) as [Hpend Hrun].
  pose proof (count_place p i g g' (uses l) Hi) as Eu. pose proof (count_place p i g g' (runs l) Hi) as Er.
  assert (Hle : ∀ f : gor → bool, Nat.b2n (f g) ≤ count f p).
  { intros f. destruct (f g) eqn:Ef; simpl; [|lia]. by apply (count_lookup f p i g). }
  pose proof (Hle (uses l)) as Hle1. pose proof (Hle (runs l)) as Hle2. clear Hle.
  assert (Huse : uses l g = true → table s !! key r = Some l).
  { intros Hug. apply (inv_live _ _ _ Hinv); [done|]. unfold users. rewrite Hug in Hle1. simpl in Hle1. lia. }
  eapply (inv_touched s s' p _ cs cs l r r'); [done|done|exact Ht|..].
  - intros l' Hne. destruct (place_other p i g g' l l' Hi Hu Hne) as [E1 E2]. unfold users. by rewrite E1, E2.
  - split.
    + specialize (Hp (count (uses l) p + inflight l cs - Nat.b2n (uses l g))). unfold users in *.
      replace (count (uses l) (<[i:=g']> p) + inflight l cs) with (count (uses l) p + inflight l cs - Nat.b2n (uses l g) + Nat.b2n (uses l g')) by lia.
      apply Hp. rewrite Hpend. do 2 f_equal. lia.
    + specialize (Hlk (count (runs l) p - Nat.b2n (runs l g))). rewrite <- Hlk by lia. lia.
  - eapply place_gor; [done|by eexists|]. intros l' Hl'. destruct (decide (l' = l)) as [|Hne]; [done|].
    destruct (Hu l' Hne) as [_ E0]. congruence.
  - eapply clients_ok_place; [apply (inv_clients _ _ _ Hinv)|done|done|by rewrite (to_ops _ _ _ _ _ _ Ht)|done|].
    intros l' [r0 H0]. rewrite (to_resources _ _ _ _ _ _ Ht). apply lookup_lt_is_Some. rewrite length_insert. by eapply lookup_lt_Some.
  - intros _. destruct Htab as [?|?]; [by apply Huse|done].
Qed.

(** *** The steps of a goroutine *)
Definition goes (p : list gor) (i : nat) (a : M store (gor * list client)) (s : store) : Prop :=
  ∃ g' cs' s', a s = Done ((g', cs'), s') ∧ inv_of s' (<[ i := g' ]> p) cs'.

Lemma cancel_goes s p cs i l : inv_of s p cs → p !! i = Some (Waiting l) ∨ p !! i = Some (Releasing l) →
  goes p i (Release l;; mret (Idle, cs)) s.
Proof.
  intros Hinv Hi. assert (∃ g, p !! i = Some g ∧ uses l g = true ∧ runs l g = false ∧ (∀ l', l' ≠ l → uses l' g = false))
    as (g & Hg & Hu & Hr & Hne).
  { destruct Hi as [Hi|Hi]; eexists; (split; [exact Hi|]); simpl; rewrite bool_decide_true by done;
      (split; [done|split; [done|]]); intros l' Hne; by rewrite bool_decide_false by done. }
  destruct (inv_gor _ _ _ Hinv i g l Hg Hu) as [r Hl].
  destruct (touched_update s l r (λ r, set_pending (uDec (pending r)) r) Hl eq_refl) as [E0 Ht].
  exists Idle, cs. eexists. split; [unfold Release; by rewrite (M_bind_eq _ _ _ _ _ E0)|].
  eapply (inv_place s _ p cs i g Idle l r _ Hinv Hg Hl Ht); try done.
  - intros l' H'. split; [by apply Hne|done].
  - by left.
  - intros n. rewrite Hu. simpl. rewrite Nat.add_1_r, Nat.add_0_r. apply load_dec.
  - intros n. rewrite Hr. done.
Qed.

Lemma UpdateTTL_goes s p cs i l k ttl now : inv_of s p cs → p !! i = Some (Running l k) →
  goes p i (UpdateTTL l ttl now;; mret (Running l k, cs)) s.
Proof.
  intros Hinv Hi. assert (Hu : uses l (Running l k) = true) by (simpl; by rewrite bool_decide_true).
  destruct (inv_gor _ _ _ Hinv i _ l Hi Hu) as [r Hl]. destruct (inv_holds _ _ _ Hinv) as [m Hm].
  destruct (UpdateTTL_effect s l r ttl now m Hl Hm) as (s' & r' & E0 & Ht & Hs & Hp & Hlk).
  exists (Running l k), cs, s'. split; [by rewrite (M_bind_eq _ _ _ _ _ E0)|].
  eapply (inv_place s s' p cs i _ _ l r r' Hinv Hi Hl Ht).
  - by rewrite Hs.
  - intros l' Hne. simpl. by rewrite bool_decide_false.
  - intros l0 k0 [= <- <-]. by eapply (co_running _ _ _ (inv_clients _ _ _ Hinv)).
  - by left.
  - by rewrite Hp.
  - by rewrite Hlk.
Qed.

Lemma unlock_goes s p cs i l k : inv_of s p cs → p !! i = Some (Running l k) →
  goes p i (unlock l;; mret (Releasing l, cs)) s.
Proof.
  intros Hinv Hi. assert (Hu : uses l (Running l k) = true) by (simpl; by rewrite bool_decide_true).
  destruct (inv_gor _ _ _ Hinv i _ l Hi Hu) as [r Hl]. destruct (inv_res _ _ _ Hinv l r Hl) as [_ Hrun].
  assert (Hlocked : locked (lock r) = true).
  { destruct (locked (lock r)); [done|]. exfalso. simpl in Hrun.
    pose proof (count_lookup (runs l) p i (Running l k) Hi) as H0. simpl in H0. rewrite bool_decide_true in H0 by done. specialize (H0 eq_refl). lia. }
  destruct (Unlock_locked _ Hlocked) as (m' & Em & Hfree).
  exists (Releasing l), cs, (with_resource l (set_lock m' r) s). split.
  { unfold unlock. erewrite M_bind_eq; [reflexivity|]. erewrite M_bind_eq by (by eapply get_resource_eq). by rewrite Em. }
  eapply (inv_place s _ p cs i _ (Releasing l) l r (set_lock m' r) Hinv Hi Hl); try done.
  - by apply touched_with.
  - intros l' Hne. simpl. by rewrite bool_decide_false.
  - by left.
  - intros n. simpl. rewrite bool_decide_true by done. simpl. rewrite Hfree, Hlocked. simpl. lia.
Qed.

Lemma try_goes s p cs i l : inv_of s p cs → p !! i = Some (Waiting l) →
  goes p i (r ← get_resource l;
      let '(ok, m) := TryLock (lock r) in
      if (ok : bool) then put_resource l (set_lock m r);; mret (Running l (length cs), cs ++ [(l, [])])
      else mret (Waiting l, cs)) s.
Proof.
  intros Hinv Hi. assert (Hu : uses l (Waiting l) = true) by (simpl; by rewrite bool_decide_true).
  destruct (inv_gor _ _ _ Hinv i _ l Hi Hu) as [r Hl]. unfold goes.
  pose proof (TryLock_result (lock r)) as Hok. pose proof (TryLock_locked (lock r)) as Hlk.
  destruct (TryLock (lock r)) as [ok m] eqn:Et. simpl in Hok, Hlk. destruct (locked (lock r)) eqn:Hlocked; subst ok.
  - exists (Waiting l), cs, s. split; [erewrite M_bind_eq by (by eapply get_resource_eq); by rewrite Et|]. by rewrite list_insert_id.
  - exists (Running l (length cs)), (cs ++ [(l, [])]), (with_resource l (set_lock m r) s).
    split; [erewrite M_bind_eq by (by eapply get_resource_eq); by rewrite Et|].
    assert (Hcs : inv_of s p (cs ++ [(l, [])])).
    { assert (Hf : ∀ l', inflight l' (cs ++ [(l, [])]) = inflight l' cs).
      { intros l'. rewrite inflight_app. simpl. unfold weight. simpl. destruct (decide _); simpl; lia. }
      destruct Hinv as [H1 H2 H3 [C1 C2 C3 C4] H5 H6]. split; try done.
      - intros l' r' Hr'. unfold resource_ok, users. rewrite Hf. by apply H2.
      - split.
        + intros j q [Hj|[_ [_ <-]%list_lookup_singleton_Some]]%lookup_app_Some; [by eapply C1|].
          split; [by eexists|]. split; [constructor|]. intros o Ho. by apply not_elem_of_nil in Ho.
        + intros j j' q q' o [Hj|[_ [_ <-]%list_lookup_singleton_Some]]%lookup_app_Some [Hj'|[_ [_ <-]%list_lookup_singleton_Some]]%lookup_app_Some Ho Ho';
            try (by apply not_elem_of_nil in Ho); try (by apply not_elem_of_nil in Ho'). by eapply C2.
        + intros j l' k Hj. destruct (C3 j l' k Hj) as [q Hq]. exists q. by apply lookup_app_l_Some.
        + rewrite unacked_app. simpl. lia.
      - intros l' r' Hr'. unfold users. rewrite Hf. by apply H6. }
    eapply (inv_place s _ p _ i _ (Running l (length cs)) l r (set_lock m r) Hcs Hi Hl); try done.
    + by apply touched_with.
    + intros l' Hne. simpl. by rewrite bool_decide_false.
    + intros l0 k [= <- <-]. exists []. by apply list_lookup_middle.
    + by left.
    + intros n. simpl. rewrite bool_decide_true by done. rewrite Hlocked, Hlk. simpl. lia.
Qed.

(** Nobody uses a resource that does not exist. *)
Lemma no_users s p cs l : inv_of s p cs → resources s !! l = None → users p cs l = 0 ∧ count (runs l) p = 0.
Proof.
  intros Hinv Hl. unfold users. assert (Hc : ∀ f, (∀ g, f g = true → uses l g = true) → count f p = 0).
  { intros f Hf. destruct (count f p) eqn:E0; [done|]. destruct (count_pos f p) as (i & g & Hi & Hg); [lia|].
    destruct (inv_gor _ _ _ Hinv i g l Hi (Hf g Hg)) as [r Hr]. congruence. }
  rewrite (Hc (uses l)) by done. rewrite (Hc (runs l)) by (by intros []). split; [|done]. simpl.
  assert (Hcl : ∀ i q, cs !! i = Some q → q.1 ≠ l).
  { intros i q Hq <-. destruct (co_client _ _ _ (inv_clients _ _ _ Hinv) i q Hq) as [[r Hr] _]. congruence. }
  clear -Hcl. induction cs as [|q cs IH]; [done|]. simpl. unfold weight. rewrite decide_False by apply (Hcl 0 q eq_refl).
  apply IH. intros i q'. apply (Hcl (S i)).
Qed.

Lemma lock_goes s p cs i k : inv_of s p cs → p !! i = Some Idle →
  goes p i (r ← store_Get k; l ← nonnil r; mret (Waiting l, cs)) s.
Proof.
  intros Hinv Hi. unfold goes. destruct (table s !! k) as [l|] eqn:Hk.
  - destruct (inv_table _ _ _ Hinv k l Hk) as (r & Hl & Hkey).
    destruct (touched_update s l r (λ r, set_pending (uInc (pending r)) r) Hl eq_refl) as [E0 Ht].
    exists (Waiting l), cs. eexists. split.
    { assert (E1 : store_Get k s = Done (Some l, with_resource l (set_pending (uInc (pending r)) r) s)).
      { unfold store_Get, Find. erewrite M_bind_eq by reflexivity. rewrite Hk. unfold Retain. by rewrite (M_bind_eq _ _ _ _ _ E0). }
      by rewrite (M_bind_eq _ _ _ _ _ E1). }
    eapply (inv_place s _ p cs i Idle (Waiting l) l r _ Hinv Hi Hl Ht); try done.
    + intros l' Hne. simpl. by rewrite bool_decide_false.
    + right. congruence.
    + intros n. simpl. rewrite bool_decide_true, Nat.add_0_r, Nat.add_1_r by done. apply load_inc.
  - set (l := length (resources s)). set (r' := set_pending (uInc uZero) (new_resource k) : resource).
    assert (Hnone : resources s !! l = None) by (apply lookup_ge_None; lia).
    destruct (no_users s p cs l Hinv Hnone) as [Hu0 Hr0].
    exists (Waiting l), cs, (set_resources (resources s ++ [r']) (set_table (<[ k := l ]> (table s)) s)). split.
    { assert (E0 : store_Get k s = Done (Some l, set_resources (resources s ++ [r']) (set_table (<[ k := l ]> (table s)) s))).
      { unfold store_Get, Find. erewrite M_bind_eq by reflexivity. rewrite Hk. cbn [negb].
        erewrite M_bind_eq by reflexivity. erewrite M_bind_eq by reflexivity. unfold Retain.
        erewrite M_bind_eq by (eapply update_resource_eq; by apply list_lookup_middle).
        unfold with_resource, set_resources, set_table. simpl. do 2 f_equal. by rewrite insert_app_r_alt, Nat.sub_diag by done. }
      by rewrite (M_bind_eq _ _ _ _ _ E0). }
    assert (Hold : ∀ l0 r0, (resources s ++ [r']) !! l0 = Some r0 → resources s !! l0 = Some r0 ∧ l0 ≠ l ∨ l0 = l ∧ r0 = r').
    { intros l0 r0 [H0|[Hge [E0 <-]%list_lookup_singleton_Some]]%lookup_app_Some.
      - left. split; [done|]. apply lookup_lt_Some in H0. unfold l. lia.
      - right. split; [unfold l; lia|done]. }
    assert (Huse : ∀ l', l' ≠ l → uses l' Idle = false ∧ uses l' (Waiting l) = false).
    { intros l' Hne. simpl. by rewrite bool_decide_false. }
    assert (Hplace : ∀ l', l' ≠ l → users (<[i:=Waiting l]> p) cs l' = users p cs l' ∧ count (runs l') (<[i:=Waiting l]> p) = count (runs l') p).
    { intros l' Hne. destruct (place_other p i Idle (Waiting l) l l' Hi Huse Hne) as [E1 E2]. unfold users. by rewrite E1. }
    assert (Hsome : ∀ l', is_Some (resources s !! l') → is_Some ((resources s ++ [r']) !! l')).
    { intros l' [r0 H0]. exists r0. by apply lookup_app_l_Some. }
    split.
    + apply (inv_holds _ _ _ Hinv).
    + intros l0 r0 [[H0 Hne]|[-> ->]]%Hold.
      * unfold resource_ok. destruct (Hplace l0 Hne) as [-> ->]. by apply (inv_res _ _ _ Hinv).
      * pose proof (count_place p i Idle (Waiting l) (uses l) Hi) as Eu. pose proof (count_place p i Idle (Waiting l) (runs l) Hi) as Er.
        simpl in Eu, Er. rewrite bool_decide_true in Eu by done. unfold users in Hu0. simpl in Eu. unfold resource_ok, users. split.
        -- replace (count (uses l) (<[i:=Waiting l]> p) + inflight l cs) with 1 by lia.
           apply (load_inc uZero 0). by rewrite uLoad_zero.
        -- simpl. rewrite MakeMutex_locked. simpl. lia.
    + intros j g l' Hj Hu. apply list_lookup_insert_Some in Hj as [(_ & <- & _)|[_ Hj]].
      * simpl in Hu. apply bool_decide_eq_true in Hu as <-. exists r'. by apply list_lookup_middle.
      * by eapply Hsome, (inv_gor _ _ _ Hinv).
    + eapply clients_ok_place; [apply (inv_clients _ _ _ Hinv)|done|done|done|done|done].
    + simpl. intros k' l' Hk'. destruct (decide (k' = k)) as [->|Hne].
      * rewrite lookup_insert_eq in Hk'. injection Hk' as <-. exists r'. split; [by apply list_lookup_middle|done].
      * rewrite lookup_insert_ne in Hk' by done. destruct (inv_table _ _ _ Hinv k' l' Hk') as (r0 & H0 & ?).
        exists r0. split; [by apply lookup_app_l_Some|done].
    + simpl. intros l0 r0 [[H0 Hne]|[-> ->]]%Hold Hpos; [|by rewrite lookup_insert_eq].
      destruct (Hplace l0 Hne) as [Eu _]. rewrite Eu in Hpos. pose proof (inv_live _ _ _ Hinv l0 r0 H0 Hpos) as Htab.
      rewrite lookup_insert_ne; [done|]. intros Ek. rewrite <- Ek, Hk in Htab. done.
Qed.

(** *** Publishing *)
Lemma list_alter_insert {A} (f : A → A) (xs : list A) j x : xs !! j = Some x → alter f j xs = <[ j := f x ]> xs.
Proof. revert j. induction xs as [|y xs IH]; intros [|j] Hj; simplify_eq/=; [done|]. f_equal. by apply IH. Qed.

Lemma weight_app l l' q fresh : weight l (l', q ++ fresh) = weight l (l', q) + weight l (l', fresh).
Proof. unfold weight. simpl. destruct (decide (l' = l)); [|done]. by rewrite omap_app, length_app. Qed.

(** Events [fresh] are published by client [k], whose resource [l] they change. *)
Lemma inv_publish s s' p cs i k l q r r' os fresh : inv_of s p cs → p !! i = Some (Running l k) → cs !! k = Some (l, q) →
  resources s !! l = Some r → touched s s' l r r' os → sent s' = sent s ++ fresh → lock r' = lock r →
  (omap id (snd <$> fresh) = [] ∧ os = ops s ∧ pending r' = pending r ∨
   ∃ ts d, omap id (snd <$> fresh) = [length (ops s)] ∧ os = ops s ++ [mkOp (Some l) ts d] ∧ pending r' = uInc (pending r)) →
  inv_of s' p (<[ k := (l, q ++ (snd <$> fresh)) ]> cs).
Proof.
  intros Hinv Hi Hk Hl Ht Hs Hlk Hf. set (new := snd <$> fresh) in *. set (cs' := <[ k := _ ]> cs).
  assert (Hw : ∀ l', inflight l' cs' = inflight l' cs + weight l' (l, new)).
  { intros l'. pose proof (inflight_insert l' cs k (l, q) (l, q ++ new) Hk) as E0. rewrite weight_app in E0.
    change (<[k:=(l, q ++ new)]> cs) with cs' in E0. lia. }
  assert (Hwl : weight l (l, new) = length (omap id new)) by (unfold weight; by rewrite decide_True).
  assert (Hu : uses l (Running l k) = true) by (simpl; by rewrite bool_decide_true).
  pose proof (count_lookup (uses l) p i _ Hi Hu) as Hpos.
  destruct (inv_res _ _ _ Hinv l r Hl) as [Hpend Hrun].
  pose proof (inv_clients _ _ _ Hinv) as [C1 C2 C3 C4]. destruct (C1 k _ Hk) as (Cr & Cn & Co). simpl in Cr, Cn, Co.
  assert (Hfresh : ∀ o, o ∈ omap id new → o = length (ops s) ∧ ∃ ts d, os = ops s ++ [mkOp (Some l) ts d]).
  { intros o Ho. destruct Hf as [(E0 & _)|(ts & d & E0 & -> & _)]; rewrite E0 in Ho; [by apply not_elem_of_nil in Ho|].
    apply list_elem_of_singleton in Ho. split; [done|by eexists _, _]. }
  assert (Hlt : ∀ j q' o, cs !! j = Some q' → o ∈ omap id q'.2 → o < length (ops s)).
  { intros j q' o Hj Ho. destruct (C1 j q' Hj) as (_ & _ & D). destruct (D o Ho) as (ts & d & E0). by eapply lookup_lt_Some. }
  assert (Hops : ∀ o x, ops s !! o = Some x → os !! o = Some x).
  { intros o x Ho. destruct Hf as [(_ & -> & _)|(ts & d & _ & -> & _)]; [done|by apply lookup_app_l_Some]. }
  assert (Hres : ∀ l', is_Some (resources s !! l') → is_Some (resources s' !! l')).
  { intros l' [r0 H0]. rewrite (to_resources _ _ _ _ _ _ Ht). apply lookup_lt_is_Some. rewrite length_insert. by eapply lookup_lt_Some. }
  eapply (inv_touched s s' p p cs cs' l r r' os); [done|done|exact Ht|..].
  - intros l' Hne. unfold users. rewrite Hw. unfold weight. simpl. rewrite decide_False by done. lia.
  - split; [|by rewrite Hlk]. unfold users. rewrite Hw, Hwl. destruct Hf as [(-> & _ & ->)|(ts & d & -> & _ & ->)]; simpl.
    + rewrite Hpend. unfold users. do 2 f_equal. lia.
    + replace (count (uses l) p + (inflight l cs + 1)) with (S (users p cs l)) by (unfold users; lia). by apply load_inc.
  - intros j g l' Hj Hg. by eapply (inv_gor _ _ _ Hinv).
  - unfold cs'. split.
    + intros j q' Hj. apply list_lookup_insert_Some in Hj as [(_ & <- & _)|[_ Hj]].
      * split; [by apply Hres|]. simpl. rewrite omap_app. rewrite (to_ops _ _ _ _ _ _ Ht). split.
        -- apply NoDup_app. split; [done|]. split.
           ++ intros o Ho Ho'. apply Hfresh in Ho' as [-> _]. pose proof (Hlt k _ _ Hk Ho). lia.
           ++ destruct Hf as [(-> & _)|(ts & d & -> & _)]; [constructor|apply NoDup_singleton].
        -- intros o [Ho|Ho]%elem_of_app.
           ++ destruct (Co o Ho) as (ts & d & E0). exists ts, d. by apply Hops.
           ++ apply Hfresh in Ho as (-> & ts & d & ->). exists ts, d. by apply list_lookup_middle.
      * destruct (C1 j q' Hj) as (A & B & D). split; [by apply Hres|]. split; [done|]. intros o Ho.
        destruct (D o Ho) as (ts & d & E0). exists ts, d. rewrite (to_ops _ _ _ _ _ _ Ht). by apply Hops.
    + assert (Hin : ∀ j q' o, <[k:=(l, q ++ new)]> cs !! j = Some q' → o ∈ omap id q'.2 →
        (∃ q0, cs !! j = Some q0 ∧ o ∈ omap id q0.2) ∨ j = k ∧ o = length (ops s)).
      { intros j q' o Hj Ho. apply list_lookup_insert_Some in Hj as [(-> & <- & _)|[_ Hj]]; [|left; by exists q'].
        simpl in Ho. rewrite omap_app in Ho. apply elem_of_app in Ho as [Ho|Ho]; [left; by exists (l, q)|right].
        by apply Hfresh in Ho as [-> _]. }
      intros j j' q1 q2 o Hj Hj' Ho Ho'. destruct (Hin j q1 o Hj Ho) as [(q0 & H0 & Ho0)|[-> Eo]], (Hin j' q2 o Hj' Ho') as [(q0' & H0' & Ho0')|[-> Eo']].
      * by eapply C2.
      * pose proof (Hlt _ _ _ H0 Ho0). lia.
      * pose proof (Hlt _ _ _ H0' Ho0'). lia.
      * done.
    + intros j l0 k0 Hj. destruct (C3 j l0 k0 Hj) as [q0 Hq0]. destruct (decide (k0 = k)) as [->|Hne].
      * rewrite Hk in Hq0. injection Hq0 as -> ->. eexists. rewrite list_lookup_insert_eq by (by eapply lookup_lt_Some). done.
      * exists q0. by rewrite list_lookup_insert_ne.
    + pose proof (unacked_insert cs k (l, q) (l, q ++ new) Hk) as E0. simpl in E0. rewrite length_app in E0.
      rewrite Hs, length_app. unfold new in E0. rewrite length_fmap in E0. unfold new. lia.
  - intros _. apply (inv_live _ _ _ Hinv); [done|]. unfold users. lia.
Qed.

Lemma publish_goes s p cs i l k ev d ts cancelled : inv_of s p cs → p !! i = Some (Running l k) →
  goes p i (n ← gets (λ s : store, length (sent s)); Publish conv l ev None d ts cancelled;;
    fresh ← gets (λ s : store, snd <$> drop n (sent s)); mret (Running l k, alter (λ q : client, (q.1, q.2 ++ fresh)) k cs)) s.
Proof.
  intros Hinv Hi. assert (Hu : uses l (Running l k) = true) by (simpl; by rewrite bool_decide_true).
  destruct (inv_gor _ _ _ Hinv i _ l Hi Hu) as [r Hl]. destruct (co_running _ _ _ (inv_clients _ _ _ Hinv) i l k Hi) as [q Hk].
  assert (Hgo : ∃ s' r' res fresh os, Publish conv l ev None d ts cancelled s = Done (res, s') ∧ touched s s' l r r' os ∧
    sent s' = sent s ++ fresh ∧ lock r' = lock r ∧
    (omap id (snd <$> fresh) = [] ∧ os = ops s ∧ pending r' = pending r ∨
     ∃ ts d, omap id (snd <$> fresh) = [length (ops s)] ∧ os = ops s ++ [mkOp (Some l) ts d] ∧ pending r' = uInc (pending r))).
  { unfold Publish. destruct d as [d|].
    - destruct (createUpdateOp_effect conv s l r (Some d) ts Hl) as (res & s1 & r' & E0 & Hs & Hlk & Hres).
      rewrite (M_bind_eq _ _ _ _ _ E0). destruct res as [e|o].
      + destruct Hres as [Hp Ht]. exists s1, r', (Some e), [], (ops s). split; [done|]. rewrite app_nil_r. split; [done|].
        split; [done|]. split; [done|]. by left.
      + destruct Hres as (-> & Hp & Ht). exists (set_sent (sent s1 ++ [(ev, Some (length (ops s)))]) s1), r', cancelled,
          [(ev, Some (length (ops s)))]. eexists. split; [reflexivity|]. split.
        { destruct Ht as [H1 H2 H3 H4 H5 H6]. by split. }
        split; [simpl; by rewrite Hs|]. split; [done|]. right. exists ts, (Some d). by split.
    - exists (set_sent (sent s ++ [(ev, None)]) s), r, cancelled, [(ev, None)], (ops s). split; [reflexivity|]. split.
      { split; try done; [by rewrite list_insert_id|]. intros m Hm. by exists m. }
      split; [done|]. split; [done|]. by left. }
  destruct Hgo as (s' & r' & res & fresh & os & E0 & Ht & Hs & Hlk & Hf).
  exists (Running l k), (<[ k := (l, q ++ (snd <$> fresh)) ]> cs), s'. split.
  - erewrite M_bind_eq by reflexivity. rewrite (M_bind_eq _ _ _ _ _ E0). erewrite M_bind_eq by reflexivity.
    rewrite Hs, drop_app_length. by rewrite (list_alter_insert _ cs k (l, q) Hk).
  - rewrite list_insert_id by done. by eapply inv_publish.
Qed.

(** *** Acknowledging *)
Lemma batch_perm {A} (q : list A) skip n : q ≡ₚ take n (drop skip q) ++ take skip q ++ drop (skip + n) q.
Proof.
  rewrite <- (take_drop skip q) at 1. rewrite <- (take_drop n (drop skip q)) at 1.
  rewrite drop_drop, !(assoc_L (++)). f_equiv. apply (comm (++)).
Qed.

(** The batch [b] of a client's events leaves its queue; operation [o], the last of
    the batch, has become zero. *)
Lemma inv_ack s s' p cs i l q b rest r r' os : inv_of s p cs → cs !! i = Some (l, q) → q ≡ₚ b ++ rest → resources s !! l = Some r →
  touched s s' l r r' os → sent s' = sent s → lock r' = lock r →
  uLoad (pending r') = wrap 64 (Z.of_nat (users p cs l - length (omap id b))) →
  (os = ops s ∨ ∃ o, o ∈ omap id b ∧ os = <[ o := mkOp None 0 None ]> (ops s)) →
  inv_of s' p (<[ i := (l, rest) ]> cs).
Proof.
  intros Hinv Hi Hn Hl Ht Hs Hlk Hp Hos. set (cs' := <[ i := _ ]> cs).
  assert (Hsplit : omap id q ≡ₚ omap id b ++ omap id rest) by (by rewrite Hn, omap_app).
  assert (Hwl : inflight l cs' + length (omap id b) = inflight l cs).
  { pose proof (inflight_insert l cs i (l, q) (l, rest) Hi) as E0. unfold weight in E0. simpl in E0.
    rewrite !decide_True, Hsplit, length_app in E0 by done. unfold cs'. lia. }
  destruct (inv_res _ _ _ Hinv l r Hl) as [_ Hrun]. pose proof (inv_clients _ _ _ Hinv) as [C1 C2 C3 C4].
  destruct (C1 i _ Hi) as (Cr & Cn & Co). simpl in Cr, Cn, Co. rewrite Hsplit in Cn. apply NoDup_app in Cn as (_ & Hdis & Cn).
  assert (Hin : ∀ j q', cs' !! j = Some q' → ∃ q0, cs !! j = Some q0 ∧ q'.1 = q0.1 ∧ NoDup (omap id q'.2) ∧
    ∀ o, o ∈ omap id q'.2 → o ∈ omap id q0.2 ∧ o ∉ omap id b).
  { intros j q' Hj. apply list_lookup_insert_Some in Hj as [(<- & <- & _)|[Hne Hj]].
    - exists (l, q). split; [done|]. split; [done|]. split; [done|]. simpl. intros o Ho.
      split; [rewrite Hsplit; apply elem_of_app; by right|]. intros Ho'. by eapply Hdis.
    - exists q'. destruct (C1 j q' Hj) as (_ & D & _). split; [done|]. split; [done|]. split; [done|]. intros o Ho. split; [done|].
      intros Ho'. apply Hne. eapply (C2 i j (l, q) q' o); [done|done| |done]. simpl. rewrite Hsplit. apply elem_of_app. by left. }
  eapply (inv_touched s s' p p cs cs' l r r' os); [done|done|exact Ht|..].
  - intros l' Hne. unfold users. pose proof (inflight_insert l' cs i (l, q) (l, rest) Hi) as E0. unfold weight in E0. simpl in E0.
    rewrite !decide_False in E0 by done. unfold cs'. lia.
  - split; [|by rewrite Hlk]. rewrite Hp. unfold users. do 2 f_equal. lia.
  - intros j g l' Hj Hg. by eapply (inv_gor _ _ _ Hinv).
  - split.
    + intros j q' Hj. destruct (Hin j q' Hj) as (q0 & H0 & Eq & Hnd & Ho). destruct (C1 j q0 H0) as ([r0 A] & _ & D).
      split; [|split; [done|]].
      * rewrite Eq, (to_resources _ _ _ _ _ _ Ht). apply lookup_lt_is_Some. rewrite length_insert. by eapply lookup_lt_Some.
      * intros o Ho1. destruct (Ho o Ho1) as [Ho2 Ho3]. destruct (D o Ho2) as (ts & d & E0). exists ts, d. rewrite Eq, (to_ops _ _ _ _ _ _ Ht).
        destruct Hos as [->|(o' & Ho' & ->)]; [done|]. rewrite list_lookup_insert_ne; [done|]. congruence.
    + intros j j' q1 q2 o Hj Hj' Ho Ho'. destruct (Hin j q1 Hj) as (q0 & H0 & _ & _ & D). destruct (Hin j' q2 Hj') as (q0' & H0' & _ & _ & D').
      eapply C2; [exact H0|exact H0'|by apply D|by apply D'].
    + intros j l0 k0 Hj. destruct (C3 j l0 k0 Hj) as [q0 Hq0]. unfold cs'. destruct (decide (k0 = i)) as [->|Hne].
      * rewrite Hi in Hq0. injection Hq0 as -> ->. eexists. rewrite list_lookup_insert_eq by (by eapply lookup_lt_Some). done.
      * exists q0. by rewrite list_lookup_insert_ne.
    + pose proof (unacked_insert cs i (l, q) (l, rest) Hi) as E0. simpl in E0. rewrite Hn, length_app in E0. rewrite Hs. unfold cs'. lia.
  - intros Hpos. apply (inv_live _ _ _ Hinv); [done|]. unfold users in *. lia.
Qed.

Lemma ack_ok s p cs i l q b rest : inv_of s p cs → cs !! i = Some (l, q) → q ≡ₚ b ++ rest → (Z.of_nat (length (sent s)) < 2 ^ 64)%Z →
  ∃ s', ACKHandler conv b s = Done ((), s') ∧ inv_of s' p (<[ i := (l, rest) ]> cs).
Proof.
  intros Hinv Hi Hn Hb. pose proof (inv_clients _ _ _ Hinv) as [C1 _ _ C4].
  destruct (C1 i _ Hi) as ([r Hl] & _ & Co). simpl in Hl, Co. pose proof (unacked_lookup cs i _ Hi) as Hq. simpl in Hq.
  assert (Hlen : length b ≤ length (sent s)) by (rewrite Hn, length_app in Hq; lia).
  destruct (scan_private_spec b 0 0 0 ltac:(lia) ltac:(lia)) as [Hcount Hlast].
  assert (Hin : ∀ o, o ∈ omap id b → o ∈ omap id q).
  { intros o Ho. rewrite Hn, omap_app. apply elem_of_app. by left. }
  assert (Hle : length (omap id b) ≤ users p cs l).
  { pose proof (inflight_insert l cs i (l, q) (l, rest) Hi) as E0. unfold weight in E0. simpl in E0.
    rewrite !decide_True in E0 by done. assert (E1 : omap id q ≡ₚ omap id b ++ omap id rest) by (by rewrite Hn, omap_app).
    rewrite E1, length_app in E0. unfold users. lia. }
  destruct (inv_res _ _ _ Hinv l r Hl) as [Hpend _]. unfold ACKHandler.
  destruct (scan_private 0 b 0 0) as [c last0] eqn:Escan. simpl in Hcount, Hlast. subst c.
  destruct (decide (omap id b = [])) as [Hnil|Hne].
  - rewrite Hnil. simpl. exists s. split; [done|].
    eapply (inv_ack s s p cs i l q b rest r r (ops s)); try done; [|by rewrite Hnil, Nat.sub_0_r|by left].
    split; try done; [by rewrite list_insert_id|]. intros m Hm. by exists m.
  - destruct (Hlast Hne) as (t & -> & Et).
    destruct (last (omap id b)) as [o|] eqn:El; [|by apply last_None in El].
    assert (Ho : o ∈ omap id b) by (apply last_Some in El as [l0 ->]; apply elem_of_app; right; by left).
    destruct (Co o (Hin o Ho)) as (ts & d & Eo). destruct (inv_holds _ _ _ Hinv) as [m Hm].
    destruct (Execute_effect conv s l r o ts d (Z.of_nat (length (omap id b))) m Eo Hl Hm) as (s' & r' & E0 & Ht & Hs & Hp & Hlk).
    rewrite bool_decide_false by (destruct (omap id b); [done|simpl; lia]). exists s'. split.
    + rewrite Et. erewrite M_bind_eq by reflexivity. by rewrite Z.add_0_l.
    + eapply (inv_ack s s' p cs i l q b rest r r' _ Hinv Hi Hn Hl Ht Hs Hlk); [|right; by exists o].
      rewrite Hp. apply load_sub. rewrite Hpend. do 2 f_equal. lia.
Qed.

(** *** Cleaning *)
Lemma inflight_unacked l cs : inflight l cs ≤ unacked cs.
Proof.
  induction cs as [|q cs IH]; simpl; [lia|]. enough (weight l q ≤ length q.2) by lia. unfold weight.
  destruct (decide _); [|lia]. clear. induction q.2 as [|[o|] xs IH]; [done|..].
  - change (omap id (Some o :: xs)) with (o :: omap id xs). simpl. lia.
  - change (omap id (None :: xs)) with (omap id xs). simpl. lia.
Qed.

Lemma clean_ok s p cs started now : inv_of s p cs → (Z.of_nat (length p + length (sent s)) < 2 ^ 64)%Z →
  ∃ s', gcStore order started now s = Done ((), s') ∧ inv_of s' p cs.
Proof.
  intros Hinv Hb. unfold gcStore. erewrite M_bind_eq by reflexivity. case_bool_decide as Hnil; [by exists s|].
  destruct (inv_holds _ _ _ Hinv) as [m Hm].
  destruct (gcClean_ok (order (gcFind started now s)) s m Hm) as (res & s' & m' & E0 & Hm' & Hr & Ho & Hs & Hout & _ & Hin).
  exists s'. split; [by rewrite (M_bind_eq _ _ _ _ _ E0)|]. destruct Hinv as [H1 H2 H3 [C1 C2 C3 C4] H5 H6]. split.
  - by exists m'.
  - intros l r Hl. rewrite Hr in Hl. by apply H2.
  - intros i g l Hi Hu. rewrite Hr. by eapply H3.
  - split; [|done|done|by rewrite Hs]. intros i q Hi. unfold client_ok. rewrite Hr, Ho. by apply (C1 i).
  - intros k l Hk. rewrite Hr. destruct (Hin k) as [E1|[E1 _]]; rewrite E1 in Hk; [by apply H5|done].
  - intros l r Hl Hpos. rewrite Hr in Hl. pose proof (H6 l r Hl Hpos) as Htab. destruct (Hout (key r)) as [-> _]; [|done].
    rewrite order_perm, elem_of_elements, gcFind_spec. intros (l' & r' & Hl' & Hr' & Hc). assert (l' = l) as -> by congruence.
    assert (r' = r) as -> by congruence. apply checkCleanResource_true in Hc as [Hz _]. destruct (H2 l r Hl) as [Hpend _].
    rewrite Hz in Hpend. pose proof (inflight_unacked l cs). pose proof (count_le (uses l) p). unfold users in *.
    rewrite wrap_small in Hpend by lia. lia.
Qed.

(** *** Every move *)
Lemma gor_move_ok (c : config) i g a : inv c → pool c !! i = Some g → is_Some (act (R := R) (H := H) (Ctr := Ctr) (W := W) (U := U) (Rc := Rc) (L := L) conv g a (clients c)) →
  ∃ c', run_move conv order c (MGor i a) = Done c' ∧ inv c'.
Proof.
  intros Hinv Hi [pr Ea]. destruct c as [s p cs]. unfold inv in *. simpl in *. rewrite Hi. simpl. rewrite Ea.
  assert (Hgo : goes p i pr s); [|destruct Hgo as (g' & cs' & s' & -> & Hinv'); by eexists].
  destruct g as [|l|l k|l], a; simplify_eq/=.
  - by apply lock_goes.
  - by apply try_goes.
  - apply cancel_goes; auto.
  - by apply UpdateTTL_goes.
  - by apply publish_goes.
  - by eapply unlock_goes.
  - apply cancel_goes; auto.
Qed.

Lemma run_move_ok (c : config) m : inv c → bounded c →
  (∃ c', run_move conv order c m = Done c' ∧ inv c') ∨ run_move conv order c m = OutOfFuel.
Proof.
  intros Hinv Hb. destruct m as [i a|i skip n|started now].
  - destruct (pool c !! i) as [g|] eqn:Hi; [|right; simpl; by rewrite Hi].
    destruct (act (R := R) (H := H) (Ctr := Ctr) (W := W) (U := U) (Rc := Rc) (L := L) conv g a (clients c)) as [pr|] eqn:Ea; [|right; simpl; rewrite Hi; simpl; by rewrite Ea].
    left. eapply gor_move_ok; eauto.
  - destruct c as [s p cs]. unfold inv, bounded in *. simpl in *.
    destruct (cs !! i) as [[l q]|] eqn:Hi; [|by right]. destruct (decide (skip + n ≤ length q)) as [Hn|]; [left|by right].
    destruct (ack_ok s p cs i l q (take n (drop skip q)) (take skip q ++ drop (skip + n) q) Hinv Hi (batch_perm q skip n)) as (s' & -> & Hinv'); [lia|]. by eexists.
  - left. destruct c as [s p cs]. unfold inv, bounded in *. simpl in *.
    destruct (clean_ok s p cs started now Hinv Hb) as (s' & -> & Hinv'). by eexists.
Qed.

(** A store nobody uses yet. *)
Record unused (s : store) : Prop := mkUnused {
  un_holds : ∃ m, holds (persistent s) (persistentStore s) m;
  un_res l r : resources s !! l = Some r → uLoad (pending r) = 0%Z ∧ locked (lock r) = false;
  un_table k l : table s !! k = Some l → ∃ r, resources s !! l = Some r ∧ key r = k
}.

Lemma opened_unused (decode : X → goerr + state C) prefix access w w1 w2 ps m s : access w = Done (inr ps, w1) → holds w1 ps m →
  openStore decode access prefix w = Done (inr s, w2) → unused s.
Proof.
  intros Ha Hm Eo. destruct (openStore_ok (E := E) (U := U) (Rc := Rc) (L := L) decode prefix access w w1 ps m Ha Hm)
    as (s' & Eo' & Hh & Hp & _ & Hres & Ht).
  rewrite Eo in Eo'. injection Eo' as -> ->. split.
  - exists m. by rewrite Hp.
  - intros l r Hl. destruct (Hres l r Hl) as (k & v & ->). simpl. by rewrite uLoad_zero, MakeMutex_locked.
  - intros k l Hk. specialize (Ht k). rewrite Hk in Ht. destruct Ht as (x & v & _ & _ & _ & Hl). by eexists.
Qed.

Lemma conc_start s n : unused s → inv (start s n).
Proof.
  intros [Hh Hres Ht]. assert (Hc : ∀ f, (f Idle = false) → count f (replicate n Idle) = 0).
  { intros f Hf. induction n as [|n' IH]; simpl; [done|]. by rewrite Hf, IH. }
  split; simpl.
  - done.
  - intros l r Hl. destruct (Hres l r Hl) as [Hp Hlk]. unfold resource_ok, users. rewrite Hp, Hlk, !Hc by done. by split.
  - intros i g l Hi Hu. apply lookup_replicate in Hi as [-> _]. done.
  - split; simpl; [done|done| |lia]. intros i l k Hi. by apply lookup_replicate in Hi as [[=] _].
  - done.
  - intros l r Hl Hpos. unfold users in Hpos. rewrite Hc in Hpos by done. simpl in Hpos. lia.
Qed.

Lemma conc_reachable s n c : unused s → rtc (step conv order) (start s n) c → inv c.
Proof.
  intros Hs Hrtc. pose proof (conc_start s n Hs) as H0. induction Hrtc as [|x y z [c0 m c1 Hb E0] _ IH]; [done|].
  apply IH. destruct (run_move_ok c0 m H0 Hb) as [(c' & E1 & Hc')|E1]; congruence.
Qed.
End safety.

(** ** Schedules *)
Section schedules.
Context {R H X Ctr W U Rc L C E : Type} `{!Backend R H (state C) X, !AtomicInt Ctr, !SafeWaitGroup W,
  !AtomicUint64 U, !RefCount Rc, !Mutex L}.
Context (conv : option C → option C → goerr + option C) (order : gset string → list string).

#[export] Instance bounded_dec (c : config R H Ctr W U Rc L C E) : Decision (bounded c) := Z_lt_dec _ _.

Fixpoint run_moves (c : config R H Ctr W U Rc L C E) (ms : list (move C E)) : outcome (config R H Ctr W U Rc L C E) :=
  match ms with
  | [] => Done c
  | m :: ms => if decide (bounded c) then c ← run_move conv order c m; run_moves c ms else OutOfFuel
  end.

Lemma run_moves_rtc c ms c' : run_moves c ms = Done c' → rtc (step conv order) c c'.
Proof.
  revert c. induction ms as [|m ms IH]; intros c; simpl; [by intros [= ->]|]. case_decide as Hb; [|done].
  intros (c1 & Hm & Hms)%bind_Done_inv. eapply rtc_l; [by econstructor|by apply IH].
Qed.
End schedules.

(** * Property *)

(** C9. after the store of an input type was opened, in every interleaving of any number
    of inputs, the pipeline's acknowledgements and the cleaner, on any backend: two inputs never run on sources of the same key
    at the same time; a resource that an input uses or that has updates to be
    acknowledged stays the one in the table, so that the cleaner never takes it away
    and no second one is made for its key; and no call panics. *)
Theorem sources_are_exclusive {R H X Ctr W U Rc L C E : Type}
    `{!Convert (state C) X, !Backend R H (state C) X, !BackendLaws R H (state C) X, !EqDecision H, !AtomicInt Ctr,
      !AtomicIntLaws Ctr, !SafeWaitGroup W, !SafeWaitGroupLaws W, !AtomicUint64 U, !AtomicUint64Laws U, !RefCount Rc,
      !Mutex L, !MutexLaws L} (conv : option C → option C → goerr + option C) (order : gset string → list string)
    (decode : X → goerr + state C) prefix access w w1 w2 ps m (s : store R H Ctr W U Rc L C E) n c :
  (∀ ks, order ks ≡ₚ elements ks) → access w = Done (inr ps, w1) → holds w1 ps m →
  openStore decode access prefix w = Done (inr s, w2) → rtc (step conv order) (start s n) c →
  (∀ i j l l' k k' r r', pool c !! i = Some (Running l k) → pool c !! j = Some (Running l' k') →
     resources (cstore c) !! l = Some r → resources (cstore c) !! l' = Some r' → key r = key r' → i = j) ∧
  (∀ i g l, pool c !! i = Some g → uses l g = true →
     ∃ r, resources (cstore c) !! l = Some r ∧ table (cstore c) !! key r = Some l) ∧
  (∀ i l q, clients c !! i = Some (l, q) → omap id q ≠ [] →
     ∃ r, resources (cstore c) !! l = Some r ∧ table (cstore c) !! key r = Some l) ∧
  (bounded c → ∀ m msg, run_move conv order c m ≠ Panic msg).
Proof.
  intros Hord Ha Hm Ho Hrtc.
  pose proof (conc_reachable conv order Hord s n c (opened_unused decode prefix access w w1 w2 ps m s Ha Hm Ho) Hrtc) as Hinv.
  assert (Huse : ∀ i g l, pool c !! i = Some g → uses l g = true →
     ∃ r, resources (cstore c) !! l = Some r ∧ table (cstore c) !! key r = Some l).
  { intros i g l Hi Hu. destruct (inv_gor _ _ _ Hinv i g l Hi Hu) as [r Hl]. exists r. split; [done|].
    apply (inv_live _ _ _ Hinv); [done|]. unfold users. pose proof (count_lookup (uses l) _ i g Hi Hu). lia. }
  split; [|split; [done|split]].
  - intros i j l l' k k' r r' Hi Hj Hl Hl' Hkey.
    assert (Ht : ∀ i l k, pool c !! i = Some (Running l k) → ∃ r, resources (cstore c) !! l = Some r ∧ table (cstore c) !! key r = Some l).
    { intros i0 l0 k0 H0. eapply Huse; [exact H0|]. simpl. by rewrite bool_decide_true. }
    destruct (Ht i l k Hi) as (r0 & E0 & T0), (Ht j l' k' Hj) as (r1 & E1 & T1). assert (l' = l) as -> by congruence.
    destruct (inv_res _ _ _ Hinv l r Hl) as [_ Hc].
    apply (count_unique (runs l) (pool c) i j _ _) with (2 := Hi) (3 := Hj); [|simpl; by rewrite bool_decide_true..].
    rewrite Hc. destruct (locked (lock r)); simpl; lia.
  - intros i l q Hi Hq. destruct (co_client _ _ _ (inv_clients _ _ _ Hinv) i _ Hi) as ([r Hl] & _). simpl in Hl. exists r.
    split; [done|]. apply (inv_live _ _ _ Hinv); [done|]. unfold users.
    pose proof (inflight_insert l (clients c) i (l, q) (l, []) Hi) as E0. unfold weight in E0. simpl in E0. rewrite !decide_True in E0 by done.
    destruct (omap id q); [done|]. simpl in E0. lia.
  - intros Hb mv msg E0. destruct (run_move_ok conv order Hord c mv Hinv Hb) as [(c' & E1 & _)|E1]; congruence.
Qed.

(** ** Two inputs with the same key: one runs and has published, the other waits; the
    cleaner passes *)
#[local] Existing Instances doc_convert doc_backend doc_laws.
Definition rivals : list (move string ()) :=
  [MGor 0 (ALock "type::src"); MGor 1 (ALock "type::src"); MGor 0 ATry; MGor 1 ATry; MGor 0 (AUpdateTTL 0 1);
   MGor 0 (APublish () (Some "a"%string) 2 None); MGor 0 (APublish () (Some "b"%string) 3 None); MAck 0 1 1; MClean 0 100].

Definition open_docs : outcome ((sserr + doc_store string) * doc_world string) :=
  openStore inr (λ w, Done (inr 0, w)) "type" (opened_world string).

Lemma sources_are_exclusive_witness : ∃ (s : doc_store string) w c, open_docs = Done (inr s, w) ∧
  run_moves replace elements (start s 2) rivals = Done c ∧
  pool c = [Running 0 0; Waiting 0] ∧ table (cstore c) !! "type::src"%string = Some 0 ∧
  (∀ j l' k', pool c !! j = Some (Running l' k') → l' = 0 → 0 = j).
Proof.
  assert (∃ (s : doc_store string) w c, open_docs = Done (inr s, w) ∧ run_moves replace elements (start s 2) rivals = Done c ∧
    pool c = [Running 0 0; Waiting 0] ∧ table (cstore c) !! "type::src"%string = Some 0 ∧ is_Some (resources (cstore c) !! 0))
    as (s & w & c & Es & Ec & Ep & Et & r & Er) by (do 3 eexists; split; [vm_compute; reflexivity|]; split; [vm_compute; reflexivity|];
      split; [reflexivity|]; split; [vm_compute; reflexivity|eexists; reflexivity]).
  exists s, w, c. split; [exact Es|]. split; [exact Ec|]. split; [exact Ep|]. split; [exact Et|]. intros j l' k' Hj ->.
  destruct (sources_are_exclusive replace elements inr "type" (λ w, Done (inr 0, w)) (opened_world string) (opened_world string)
    w 0 ∅ s 2 c (λ _, reflexivity _) eq_refl (opened_holds string) Es
    (run_moves_rtc replace elements _ rivals c Ec)) as (Hex & _).
  apply (Hex 0 j 0 0 0 k' r r); [by rewrite Ep|exact Hj|exact Er|exact Er|reflexivity].
Defined.
