(* ===== verification/ManagedInput.v ===== *)
(** * The input of several sources (input.go: managedInput)

    [Run] starts a goroutine per source, each of which is [runSource]; an error of
    one cancels all, and [Run] returns when all have.  (The comment on the type,
    input.go:43-45, says that active data collecting continues after an error;
    the code does what the comment inside [Run] says: all workers are stopped if
    one fails.  The model follows the code.)  The goroutines work on
    the shared store by the steps of CursorConc, among other inputs, the
    pipeline's acknowledgements and the cleaner. *)

From stdpp Require Import base gmap strings list fin_maps relations.
From Stdlib Require Import ZArith Lia.
From S2P Require Import Prelude Fs Backend Concert Storetest Statestore StatestoreFacts StatestoreSeq StatestoreSpec Cursor CursorFacts CursorSpec CursorProps CursorConc.

(** What an input's [Run] does next: publish an event and go on as [i], go on as
    [i] without, end. *)
Inductive input_event (I C E : Type) :=
| IPublish (event : E) (update : option C) (ts : Z) (i : I)
| ITau (i : I)
| IEnd (e : run_end).
Arguments IPublish {_ _ _} _ _ _ _.
Arguments ITau {_ _ _} _.
Arguments IEnd {_ _ _} _.

(** Where the goroutine of a source is in [runSource]: before [ConnectWith]; before
    [lock]; in [LockContext]; before [UpdateTTL]; in [Run] of the input; in the
    deferred calls, with the error to return; returned; done for the group. *)
Inductive worker (I : Type) :=
| WConnect
| WLock
| WWait
| WStart
| WInput (i : I)
| WUnlock (err : option goerr)
| WRelease (err : option goerr)
| WClose (err : option goerr)
| WReturned (err : option goerr)
| WDone (err : option goerr).
Arguments WConnect {_}.
Arguments WLock {_}.
Arguments WWait {_}.
Arguments WStart {_}.
Arguments WInput {_} _.
Arguments WUnlock {_} _.
Arguments WRelease {_} _.
Arguments WClose {_} _.
Arguments WReturned {_} _.
Arguments WDone {_} _.

(** The next call of a goroutine, with the answers of the pipeline, the clock and the
    input. *)
Inductive worker_call (I C E : Type) :=
| VConnect (err : option goerr)
| VLock
| VTry
| VCancel
| VUpdateTTL (now : Z)
| VInput (ev : input_event I C E)
| VUnlock
| VRelease
| VClose.
Arguments VConnect {_ _ _} _.
Arguments VLock {_ _ _}.
Arguments VTry {_ _ _}.
Arguments VCancel {_ _ _}.
Arguments VUpdateTTL {_ _ _} _.
Arguments VInput {_ _ _} _.
Arguments VUnlock {_ _ _}.
Arguments VRelease {_ _ _}.
Arguments VClose {_ _ _}.

(** A step of [Run]: start the next goroutine, a call of goroutine [i], its end (the
    call of [cancel] and the note of the group), the return of [Wait]; and of
    the environment: the parent context is cancelled, others use the store. *)
Inductive run_step (I C E : Type) :=
| SGo
| SWorker (i : nat) (v : worker_call I C E)
| SFinish (i : nat)
| SWait
| SParent (err : goerr)
| SOthers (m : move C E).
Arguments SGo {_ _ _}.
Arguments SWorker {_ _ _} _ _.
Arguments SFinish {_ _ _} _.
Arguments SWait {_ _ _}.
Arguments SParent {_ _ _} _.
Arguments SOthers {_ _ _} _.

Definition errCanceled : goerr := errText "context canceled".

(** The error of [runSource] for how the input's [Run] ended. *)
Definition end_error (e : run_end) : option goerr :=
  match e with Returned err => err | Panicked v => Some (errText ("input panic with: " +:+ v)) end.

(** [Test]: [results] are those of the input's [Test] on each source, in the order in
    which they end; [WrapAll] is sderr's. *)
Definition testSource (e : run_end) : option goerr := end_error e.
Definition managed_Test (WrapAll : list goerr → string → goerr) (results : list run_end) : option goerr :=
  let errs := omap testSource results in
  if bool_decide (0 < length errs) then Some (WrapAll errs "input tests failed") else None.

Section managed.
Context {R H X Ctr W U Rc L C E I : Type} `{!Backend R H (state C) X, !AtomicInt Ctr, !SafeWaitGroup W,
  !AtomicUint64 U, !RefCount Rc, !Mutex L}.
Context (conv : option C → option C → goerr + option C) (order : gset string → list string).
Context (WrapAll : list goerr → string → goerr) (Type_ : string) (inp : managedInput) (istart : string → I).
Abbreviation config := (config R H Ctr W U Rc L C E).
Abbreviation worker := (worker I).
Abbreviation run_step := (run_step I C E).

(** [ctx_err] is [Err] of the context that is cancelled, [errs] the group's errors in
    the order they came, [result] that of [Run]. *)
Record run := mkRun {
  conf : config;
  workers : list worker;
  ctx_err : option goerr;
  errs : list goerr;
  result : option (option goerr)
}.
Definition set_worker (i : nat) (w : worker) (r : run) : run := mkRun (conf r) (<[ i := w ]> (workers r)) (ctx_err r) (errs r) (result r).
Definition set_conf (c : config) (r : run) : run := mkRun c (workers r) (ctx_err r) (errs r) (result r).
Definition cancel (err : goerr) (r : run) : run :=
  mkRun (conf r) (workers r) (Some (default err (ctx_err r))) (errs r) (result r).

Definition source_key (source : string) : string := createSourceID Type_ (userID inp) source.

(** The call of a goroutine: what it does to the store, and where it goes. *)
Definition worker_next (ctx : option goerr) (source : string) (w : worker) (v : worker_call I C E) :
    option (option (action C E) * worker) :=
  match w, v with
  | WConnect, VConnect None => Some (None, WLock)
  | WConnect, VConnect (Some err) => Some (None, WReturned (Some err))
  | WLock, VLock => Some (Some (ALock (source_key source)), WWait)
  | WWait, VTry => Some (Some ATry, WStart)
  | WWait, VCancel => match ctx with Some err => Some (Some ACancel, WClose (Some err)) | None => None end
  | WStart, VUpdateTTL now => Some (Some (AUpdateTTL (cleanTimeout inp) now), WInput (istart source))
  | WInput _, VInput (IPublish event update ts i) => Some (Some (APublish event update ts ctx), WInput i)
  | WInput _, VInput (ITau i) => Some (None, WInput i)
  | WInput _, VInput (IEnd e) => Some (None, WUnlock (end_error e))
  | WUnlock err, VUnlock => Some (Some AUnlock, WRelease err)
  | WRelease err, VRelease => Some (Some ARelease, WClose err)
  | WClose err, VClose => Some (None, WReturned err)
  | _, _ => None
  end.

(** The goroutine has the lock. *)
Definition acquired (c : config) (i : nat) : bool := match pool c !! i with Some (Running _ _) => true | _ => false end.
Definition is_done (w : worker) : bool := match w with WDone _ => true | _ => false end.

(** [OutOfFuel]: the step does not apply.  A goroutine in [LockContext] goes on only when
    it gets the lock or is cancelled. *)
Definition do_step (r : run) (m : run_step) : outcome run :=
  match m with
  | SGo => if decide (length (workers r) < length (sources inp))
           then Done (mkRun (conf r) (workers r ++ [WConnect]) (ctx_err r) (errs r) (result r)) else OutOfFuel
  | SWorker i v =>
    match workers r !! i, sources inp !! i with
    | Some w, Some source =>
      match worker_next (ctx_err r) source w v with
      | Some (None, w') => Done (set_worker i w' r)
      | Some (Some a, w') =>
        c ← run_move conv order (conf r) (MGor i a);
        match v with
        | VTry => if acquired c i then Done (set_worker i w' (set_conf c r)) else OutOfFuel
        | _ => Done (set_worker i w' (set_conf c r))
        end
      | None => OutOfFuel
      end
    | _, _ => OutOfFuel
    end
  | SFinish i =>
    match workers r !! i with
    | Some (WReturned None) => Done (set_worker i (WDone None) r)
    | Some (WReturned (Some err)) =>
      let r := cancel errCanceled r in
      Done (mkRun (conf r) (<[ i := WDone (Some err) ]> (workers r)) (ctx_err r) (errs r ++ [err]) (result r))
    | _ => OutOfFuel
    end
  | SWait =>
    match result r with
    | None =>
      if bool_decide (length (workers r) = length (sources inp)) && forallb is_done (workers r) then
        let r := cancel errCanceled r in
        Done (mkRun (conf r) (workers r) (ctx_err r) (errs r)
          (Some (if bool_decide (0 < length (errs r)) then Some (WrapAll (errs r) "input %{id} failed") else None)))
      else OutOfFuel
    | Some _ => OutOfFuel
    end
  | SParent err => Done (cancel err r)
  | SOthers m => c ← run_move conv order (conf r) m; Done (set_conf c r)
  end.

(** What an input may do, given [Err] of its context. *)
Context (allowed : option goerr → I → input_event I C E → Prop).
Definition permitted (r : run) (m : run_step) : Prop :=
  match m with
  | SWorker i (VInput ev) => ∀ w, workers r !! i = Some (WInput w) → allowed (ctx_err r) w ev
  | SOthers (MGor i _) => length (sources inp) ≤ i
  | _ => True
  end.
Definition own (m : run_step) : bool := match m with SParent _ | SOthers _ => false | _ => true end.

Inductive rstep (m : run_step) (r r' : run) : Prop :=
| rstep_do : bounded (conf r) → permitted r m → do_step r m = Done r' → rstep m r r'.
Definition any_step (r r' : run) : Prop := ∃ m, rstep m r r'.
(** Any steps, [n] of them steps of [Run]. *)
Inductive rsteps : nat → run → run → Prop :=
| rsteps_refl r : rsteps 0 r r
| rsteps_l m n r r' r'' : rstep m r r' → rsteps n r' r'' → rsteps (Nat.b2n (own m) + n) r r''.

(** [Run] begins, on a store that is used by [n] other goroutines. *)
Definition begin (s : store R H Ctr W U Rc L C E) (n : nat) (ctx : option goerr) : run :=
  mkRun (start s (length (sources inp) + n)) [] ctx [] None.
End managed.
Arguments run : clear implicits.

(** ** The invariant *)
Section safety.
Context {R H X Ctr W U Rc L C E I : Type} `{!Convert (state C) X, !Backend R H (state C) X, !BackendLaws R H (state C) X,
  !EqDecision H, !AtomicInt Ctr, !AtomicIntLaws Ctr, !SafeWaitGroup W, !SafeWaitGroupLaws W,
  !AtomicUint64 U, !AtomicUint64Laws U, !RefCount Rc, !Mutex L, !MutexLaws L}.
Context (conv : option C → option C → goerr + option C) (order : gset string → list string).
Hypothesis order_perm : ∀ ks, order ks ≡ₚ elements ks.
Context (WrapAll : list goerr → string → goerr) (Type_ : string) (inp : managedInput) (istart : string → I)
  (allowed : option goerr → I → input_event I C E → Prop).
Abbreviation run := (run R H Ctr W U Rc L C E I).
Abbreviation rstep := (rstep (R := R) (H := H) (X := X) (Ctr := Ctr) (W := W) (U := U) (Rc := Rc) (L := L) conv order WrapAll Type_ inp istart allowed).
Abbreviation rsteps := (rsteps (R := R) (H := H) (X := X) (Ctr := Ctr) (W := W) (U := U) (Rc := Rc) (L := L) conv order WrapAll Type_ inp istart allowed).
Abbreviation do_step := (do_step (R := R) (H := H) (X := X) (Ctr := Ctr) (W := W) (U := U) (Rc := Rc) (L := L) conv order WrapAll Type_ inp istart).
Abbreviation worker_next := (worker_next (C := C) (E := E) Type_ inp istart).

(** Where the goroutine of the pool is. *)
Definition at_worker (w : worker I) (g : gor) : Prop :=
  match w with
  | WConnect | WLock | WClose _ | WReturned _ | WDone _ => g = Idle
  | WWait => ∃ l, g = Waiting l
  | WStart | WInput _ | WUnlock _ => ∃ l k, g = Running l k
  | WRelease _ => ∃ l, g = Releasing l
  end.
Definition done_error (w : worker I) : option goerr := match w with WDone err => err | _ => None end.

Record run_inv (r : run) : Prop := {
  ri_conf : inv (conf r);
  ri_length : length (workers r) ≤ length (sources inp);
  ri_pool i : i < length (sources inp) → ∃ g, pool (conf r) !! i = Some g ∧
    match workers r !! i with Some w => at_worker w g | None => g = Idle end;
  ri_errs : errs r ≡ₚ omap done_error (workers r);
  ri_ctx : errs r ≠ [] → ctx_err r ≠ None;
  ri_result x : result r = Some x → length (workers r) = length (sources inp) ∧ Forall (λ w, is_done w = true) (workers r) ∧
    ctx_err r ≠ None ∧ x = if bool_decide (0 < length (errs r)) then Some (WrapAll (errs r) "input %{id} failed") else None
}.

(** The call of a goroutine is one that its place in the pool allows. *)
Lemma worker_act ctx source w v a w' g cs : worker_next ctx source w v = Some (Some a, w') → at_worker w g →
  is_Some (act (R := R) (H := H) (Ctr := Ctr) (W := W) (U := U) (Rc := Rc) (L := L) conv g a cs).
Proof.
  destruct w, v as [ | | | | |[]| | | ]; simpl; try done; repeat case_match; try done; intros [= <- <-]; intros Hg;
    destruct_and?; try (destruct Hg as (? & ? & ->)); try (destruct Hg as (? & ->)); subst; by eexists.
Qed.

(** Where the pool's goroutine is after the call. *)
Lemma act_place ctx source w v a w' g cs p s g' cs' s' : worker_next ctx source w v = Some (Some a, w') → at_worker w g →
  act (R := R) (H := H) (Ctr := Ctr) (W := W) (U := U) (Rc := Rc) (L := L) conv g a cs = Some p →
  p s = Done (g', cs', s') → (v = VTry → ∃ l k, g' = Running l k) → at_worker w' g'.
Proof.
  destruct w, v as [ | | | | |[]| | | ]; simpl; try done; repeat case_match; try done; intros [= <- <-]; intros Hg;
    try (destruct Hg as (? & ? & ->)); try (destruct Hg as (? & ->)); subst; intros [= <-] Hp Htry; simpl in *;
    repeat (apply M_bind_inv in Hp as (? & ? & _ & Hp)); try (injection Hp as <- <- <-); eauto.
Qed.

Lemma run_move_gor (c : config R H Ctr W U Rc L C E) i a c' : run_move conv order c (MGor i a) = Done c' →
  ∃ g p g' cs' s', pool c !! i = Some g ∧ act conv g a (clients c) = Some p ∧ p (cstore c) = Done (g', cs', s') ∧
    c' = mkConfig s' (<[ i := g' ]> (pool c)) cs'.
Proof.
  simpl. destruct (pool c !! i) as [g|]; [|done]. simpl. destruct (act conv g a (clients c)) as [p|] eqn:Ea; [|done].
  intros ([[g' cs'] s'] & Ep & [= <-])%bind_Done_inv. by exists g, p, g', cs', s'.
Qed.

Lemma run_move_inv (c : config R H Ctr W U Rc L C E) m c' : inv c → bounded c → run_move conv order c m = Done c' → inv c'.
Proof. intros Hinv Hb E0. destruct (run_move_ok conv order order_perm c m Hinv Hb) as [(c1 & E1 & Hc)|E1]; congruence. Qed.

(** Moves of others leave the goroutines of this input where they are. *)
Lemma run_move_others (c : config R H Ctr W U Rc L C E) m c' i : run_move conv order c m = Done c' →
  match m with MGor j _ => length (sources inp) ≤ j | _ => True end → i < length (sources inp) → pool c' !! i = pool c !! i.
Proof.
  destruct m as [j a|j n|started now]; intros Em Hj Hi.
  - apply run_move_gor in Em as (g & p & g' & cs' & s' & _ & _ & _ & ->). simpl. by rewrite list_lookup_insert_ne by lia.
  - simpl in Em. destruct (clients c !! j) as [[l q]|]; [|done]. case_decide; [|done].
    by apply bind_Done_inv in Em as ([] & _ & [= <-]).
  - simpl in Em. by apply bind_Done_inv in Em as ([] & _ & [= <-]).
Qed.

(** One goroutine goes from [w] to [w']. *)
Lemma run_inv_worker r i w w' c g' : run_inv r → workers r !! i = Some w → done_error w' = done_error w →
  is_done w = false → inv c → at_worker w' g' → pool c = <[ i := g' ]> (pool (conf r)) → run_inv (set_worker i w' (set_conf c r)).
Proof.
  intros [Hc Hlen Hpool Herrs Hctx Hres] Hi He Hd Hinv Hg Hp. assert (Hlt : i < length (workers r)) by (by eapply lookup_lt_Some).
  split; simpl; [done|by rewrite length_insert| | |done|].
  - intros j Hj. destruct (Hpool j Hj) as (g & Hgj & Hw). rewrite Hp. destruct (decide (j = i)) as [->|Hne].
    + exists g'. rewrite !list_lookup_insert_eq by (done || by eapply lookup_lt_Some). done.
    + exists g. by rewrite !list_lookup_insert_ne.
  - by rewrite (omap_insert_same _ _ _ w).
  - intros x Hx. destruct (Hres x Hx) as (_ & Hall & _). pose proof (proj1 (Forall_lookup _ _) Hall i w Hi) as Hw. simpl in Hw. congruence.
Qed.

(** The store and the pool stay. *)
Lemma run_inv_local r i w w' : run_inv r → workers r !! i = Some w → done_error w' = done_error w → is_done w = false →
  (∀ g, at_worker w g → at_worker w' g) → run_inv (set_worker i w' r).
Proof.
  intros Hr Hi He Hd Hg. pose proof (ri_length _ Hr) as Hlen. pose proof (lookup_lt_Some _ _ _ Hi) as Hlt.
  destruct (ri_pool _ Hr i ltac:(lia)) as (g & Hgi & Hw). rewrite Hi in Hw.
  replace (set_worker i w' r) with (set_worker i w' (set_conf (conf r) r)) by done.
  apply (run_inv_worker r i w w' (conf r) g Hr Hi He Hd (ri_conf _ Hr) (Hg g Hw)). by rewrite list_insert_id.
Qed.

Lemma run_inv_call r i w source v a w' c : run_inv r → bounded (conf r) → workers r !! i = Some w →
  worker_next (ctx_err r) source w v = Some (Some a, w') → run_move conv order (conf r) (MGor i a) = Done c →
  (v = VTry → acquired c i = true) → run_inv (set_worker i w' (set_conf c r)).
Proof.
  intros Hr Hb Hi Hn Em Htry. pose proof (ri_length _ Hr) as Hlen. pose proof (lookup_lt_Some _ _ _ Hi) as Hlt.
  destruct (ri_pool _ Hr i ltac:(lia)) as (g & Hgi & Hw). rewrite Hi in Hw.
  pose proof (run_move_inv _ _ _ (ri_conf _ Hr) Hb Em) as Hc.
  apply run_move_gor in Em as (g0 & p & g' & cs' & s' & Hg0 & Ha & Ep & ->). rewrite Hgi in Hg0. injection Hg0 as <-.
  apply (run_inv_worker r i w w' _ g' Hr Hi); [|by destruct w|done| |done].
  - clear -Hn. destruct w, v as [ | | | | |[]| | | ]; simpl in Hn; repeat case_match; simplify_eq/=; done.
  - eapply act_place; [exact Hn|exact Hw|exact Ha|exact Ep|]. intros Hv. specialize (Htry Hv). unfold acquired in Htry. simpl in Htry.
    rewrite list_lookup_insert_eq in Htry by (by eapply lookup_lt_Some). destruct g'; try done. by eexists _, _.
Qed.

Lemma cancel_inv err r : run_inv r → run_inv (cancel err r).
Proof. intros []. split; simpl; try done. intros x Hx. by destruct (ri_result0 x Hx) as (? & ? & ? & ?). Qed.

Lemma run_inv_step m r r' : rstep m r r' → run_inv r → run_inv r'.
Proof.
  intros [Hb Hperm Hd] Hr. destruct m as [|i v|i| |err|m]; simpl in Hd.
  - case_decide as Hlt; [|done]. injection Hd as <-. destruct Hr as [Hc Hlen Hpool Herrs Hctx Hres]. split; simpl; try done.
    + rewrite length_app. simpl. lia.
    + intros i Hi. destruct (Hpool i Hi) as (g & Hg & Hw). exists g. split; [done|].
      destruct (decide (i < length (workers r))); [by rewrite lookup_app_l|]. rewrite (lookup_ge_None_2 (workers r)) in Hw by lia.
      rewrite lookup_app_r by lia. destruct (i - length (workers r)); done.
    + rewrite omap_app. simpl. by rewrite app_nil_r.
    + intros x Hx. destruct (Hres x Hx). lia.
  - destruct (workers r !! i) as [w|] eqn:Hi; [|done]. destruct (sources inp !! i) as [source|]; [|done].
    destruct (worker_next (ctx_err r) source w v) as [[[a|] w']|] eqn:Hn; [| |done].
    + apply bind_Done_inv in Hd as (c & Em & Hd).
      assert (r' = set_worker i w' (set_conf c r) ∧ (v = VTry → acquired c i = true)) as [-> Htry].
      { destruct v; try (injection Hd as <-; done). destruct (acquired c i) eqn:Ha; [|done]. by injection Hd as <-. }
      by eapply run_inv_call.
    + injection Hd as <-. apply (run_inv_local r i w w' Hr Hi); clear -Hn;
        destruct w, v as [ | | | | |[]| | | ]; simpl in Hn; repeat case_match; simplify_eq/=; done.
  - destruct (workers r !! i) as [[| | | | | | | |[err|]|]|] eqn:Hi; try done.
    + injection Hd as <-. pose proof (ri_length _ Hr) as Hlen. pose proof (lookup_lt_Some _ _ _ Hi) as Hlt.
      destruct Hr as [Hc _ Hpool Herrs Hctx Hres]. split; simpl; [done|by rewrite length_insert| | |done|].
      * intros j Hj. destruct (Hpool j Hj) as (g & Hg & Hw). exists g. split; [done|]. destruct (decide (j = i)) as [->|Hne].
        -- rewrite Hi in Hw. by rewrite list_lookup_insert_eq.
        -- by rewrite list_lookup_insert_ne.
      * rewrite (omap_insert_new _ _ _ _ _ err Hi) by done. by rewrite Herrs.
      * intros x Hx. destruct (Hres x Hx) as (_ & Hall & _). pose proof (proj1 (Forall_lookup _ _) Hall i _ Hi). done.
    + injection Hd as <-. by apply (run_inv_local r i (WReturned None)).
  - destruct (result r) eqn:Hres; [done|]. destruct (bool_decide _ && _) eqn:Hall; [|done]. injection Hd as <-.
    apply andb_true_iff in Hall as [Hlen%bool_decide_eq_true Hall%Is_true_eq_left%forallb_True]. destruct Hr. split; simpl; try done.
    intros x [= <-]. split; [done|]. split; [|done]. eapply Forall_impl; [exact Hall|]. intros w Hw. by apply Is_true_eq_true.
  - injection Hd as <-. by apply cancel_inv.
  - apply bind_Done_inv in Hd as (c & Em & [= <-]). pose proof (run_move_inv _ _ _ (ri_conf _ Hr) Hb Em) as Hc.
    destruct Hr as [_ Hlen Hpool Herrs Hctx Hres]. split; simpl; try done. intros i Hi.
    rewrite (run_move_others _ _ _ i Em Hperm Hi). by apply Hpool.
Qed.

Lemma begin_inv s n ctx : unused s → run_inv (begin inp s n ctx).
Proof.
  intros Hs. split; simpl; try done; [by apply conc_start|lia|].
  intros i Hi. exists Idle. split; [apply lookup_replicate_2; lia|]. done.
Qed.

Lemma reachable_run_inv s n ctx r : unused s → rtc (any_step conv order WrapAll Type_ inp istart allowed) (begin inp s n ctx) r → run_inv r.
Proof.
  intros Hs Hrtc. pose proof (begin_inv s n ctx Hs) as H0. induction Hrtc as [|x y z [m Hm] _ IH]; [done|].
  apply IH. by eapply run_inv_step.
Qed.

(** *** The other goroutines see moves of CursorConc only *)
Lemma rstep_conf m r r' : rstep m r r' → rtc (step (R := R) (H := H) (X := X) conv order) (conf r) (conf r').
Proof.
  intros [Hb _ Hd]. destruct m as [|i v|i| |err|m]; simpl in Hd.
  - case_decide; [|done]. by injection Hd as <-.
  - destruct (workers r !! i) as [w|]; [|done]. destruct (sources inp !! i) as [source|]; [|done].
    destruct (worker_next (ctx_err r) source w v) as [[[a|] w']|]; [|by injection Hd as <-|done].
    apply bind_Done_inv in Hd as (c & Em & Hd). apply rtc_once. exists (MGor i a); [done|].
    destruct v; try (by injection Hd as <-). destruct (acquired c i); [|done]. by injection Hd as <-.
  - destruct (workers r !! i) as [[| | | | | | | |[err|]|]|]; try done; by injection Hd as <-.
  - destruct (result r); [done|]. destruct (bool_decide _ && _); [|done]. by injection Hd as <-.
  - by injection Hd as <-.
  - apply bind_Done_inv in Hd as (c & Em & [= <-]). apply rtc_once. by exists m.
Qed.

Lemma reachable_conf (r r' : run) : rtc (any_step (R := R) (H := H) (X := X) conv order WrapAll Type_ inp istart allowed) r r' →
  rtc (step (R := R) (H := H) (X := X) conv order) (conf r) (conf r').
Proof. induction 1 as [|x y z [m Hm] _ IH]; [done|]. etrans; [by eapply rstep_conf|done]. Qed.

Lemma no_errors (ws : list (worker I)) : omap done_error ws = [] ↔ Forall (λ w, done_error w = None) ws.
Proof.
  clear. induction ws as [|w ws IH]; simpl; [by split|]. rewrite Forall_cons, <- IH.
  destruct (done_error w); split; [done|by intros [? _]|by split|by intros [_ ?]].
Qed.

(** *** A cancelled [Run] ends *)
Section stops.
Context (μ : I → nat).

Definition worker_rank (source : string) (w : worker I) : nat :=
  match w with
  | WConnect => 9 + μ (istart source)
  | WLock => 8 + μ (istart source)
  | WWait => 7 + μ (istart source)
  | WStart => 6 + μ (istart source)
  | WInput i => 5 + μ i
  | WUnlock _ => 4
  | WRelease _ => 3
  | WClose _ => 2
  | WReturned _ => 1
  | WDone _ => 0
  end.
Fixpoint workers_rank (srcs : list string) (ws : list (worker I)) : nat :=
  match srcs, ws with
  | source :: srcs, w :: ws => worker_rank source w + workers_rank srcs ws
  | source :: srcs, [] => 10 + μ (istart source) + workers_rank srcs []
  | [], _ => 0
  end.
Definition rank (r : run) : nat := workers_rank (sources inp) (workers r) + match result r with Some _ => 0 | None => 1 end.

Lemma workers_rank_go srcs ws : length ws < length srcs → S (workers_rank srcs (ws ++ [WConnect])) = workers_rank srcs ws.
Proof.
  revert ws. induction srcs as [|x srcs IH]; intros [|w ws] Hl; simpl in *; try lia.
  rewrite <- (IH ws) by lia. lia.
Qed.

Lemma workers_rank_insert srcs ws i source w w' : srcs !! i = Some source → ws !! i = Some w →
  workers_rank srcs (<[ i := w' ]> ws) + worker_rank source w = workers_rank srcs ws + worker_rank source w'.
Proof.
  revert ws i. induction srcs as [|x srcs IH]; intros [|y ws] [|i] Hs Hw; simplify_eq/=; [lia|].
  specialize (IH ws i Hs Hw). lia.
Qed.

(** An input that is cancelled comes to its end. *)
Hypothesis heeds : ∀ err i ev, allowed (Some err) i ev → match ev with IPublish _ _ _ i' | ITau i' => μ i' < μ i | IEnd _ => True end.

Lemma worker_rank_next err source w v a w' : worker_next (Some err) source w v = Some (a, w') →
  (∀ i ev, w = WInput i → v = VInput ev → allowed (Some err) i ev) → worker_rank source w' < worker_rank source w.
Proof.
  intros Hn Hal. destruct w, v as [ | | | | |ev| | | ]; simpl in Hn; try done; repeat case_match; simplify_eq/=;
    try (specialize (Hal _ _ eq_refl eq_refl); apply heeds in Hal; simpl in Hal); lia.
Qed.

Lemma rank_step m r r' err : rstep m r r' → ctx_err r = Some err → length (workers r) ≤ length (sources inp) →
  ctx_err r' = Some err ∧ Nat.b2n (own m) + rank r' ≤ rank r.
Proof.
  intros [_ Hperm Hd] Hctx Hlen. unfold rank. destruct m as [|i v|i| |e|m]; simpl in Hd; simpl Nat.b2n.
  - case_decide as Hlt; [|done]. injection Hd as <-. split; [done|]. simpl. rewrite <- (workers_rank_go _ _ Hlt). lia.
  - destruct (workers r !! i) as [w|] eqn:Hi; [|done]. destruct (sources inp !! i) as [source|] eqn:Hs; [|done].
    rewrite Hctx in Hd. destruct (worker_next (Some err) source w v) as [[a w']|] eqn:Hn; [|done].
    assert (Hr : ∃ c, r' = set_worker i w' (set_conf c r)).
    { destruct a as [a|]; [|injection Hd as <-; by exists (conf r)]. apply bind_Done_inv in Hd as (c & _ & Hd). exists c.
      destruct v; try (by injection Hd as <-). destruct (acquired c i); [|done]. by injection Hd as <-. }
    destruct Hr as [c ->]. split; [done|]. simpl.
    pose proof (workers_rank_insert (sources inp) (workers r) i source w w' Hs Hi).
    pose proof (worker_rank_next err source w v a w' Hn). rewrite <- Hctx in *. unfold permitted in Hperm.
    enough (worker_rank source w' < worker_rank source w) by lia. apply H1. intros j ev -> ->. by apply Hperm.
  - destruct (workers r !! i) as [[| | | | | | | |e|]|] eqn:Hi; try done.
    destruct (sources inp !! i) as [source|] eqn:Hs; [|apply lookup_ge_None in Hs; apply lookup_lt_Some in Hi; lia].
    pose proof (workers_rank_insert (sources inp) (workers r) i source _ (WDone e) Hs Hi) as Hw. simpl in Hw.
    destruct e as [e|]; injection Hd as <-; simpl; rewrite ?Hctx; simpl; (split; [done|lia]).
  - destruct (result r); [done|]. destruct (bool_decide _ && _); [|done]. injection Hd as <-. simpl. rewrite Hctx. split; [done|lia].
  - injection Hd as <-. simpl. rewrite Hctx. split; [done|lia].
  - apply bind_Done_inv in Hd as (c & _ & [= <-]). done.
Qed.

Lemma rsteps_rank n r r' err : rsteps n r r' → run_inv r → ctx_err r = Some err →
  run_inv r' ∧ ctx_err r' = Some err ∧ n + rank r' ≤ rank r.
Proof.
  induction 1 as [|m n r r' r'' Hm _ IH]; intros Hr Hctx; [done|].
  destruct (rank_step m r r' err Hm Hctx (ri_length _ Hr)) as [Hctx' Hle].
  destruct (IH (run_inv_step _ _ _ Hm Hr) Hctx') as (? & ? & ?). split_and!; [done|done|lia].
Qed.

Hypothesis ends : ∀ err i, ∃ ev, allowed (Some err) i ev.

(** The next call of a goroutine that has not returned. *)
Lemma worker_can err source w : is_done w = false → (∀ e, w ≠ WReturned e) → ∃ v a w', worker_next (Some err) source w v = Some (a, w') ∧
  v ≠ VTry ∧ ∀ i ev, w = WInput i → v = VInput ev → allowed (Some err) i ev.
Proof.
  intros Hd Hret. destruct w as [| | | |i|e|e|e|e|e]; try done; [..|by destruct (Hret e)].
  - by exists (VConnect None), None, WLock.
  - by eexists VLock, _, WWait.
  - by eexists VCancel, _, _.
  - by eexists (VUpdateTTL 0), _, _.
  - destruct (ends err i) as [ev Hev]. exists (VInput ev). destruct ev; eexists _, _; (split; [done|]; split; [done|]); by intros ? ? [= <-] [= <-].
  - by eexists VUnlock, _, _.
  - by eexists VRelease, _, _.
  - by eexists VClose, _, _.
Qed.

Lemma own_step_possible r err : run_inv r → ctx_err r = Some err → result r = None → bounded (conf r) →
  ∃ m r', own m = true ∧ rstep m r r'.
Proof.
  intros Hr Hctx Hres Hb. destruct (decide (length (workers r) < length (sources inp))) as [Hlt|Hge].
  { exists SGo. eexists. split; [done|]. split; [done|done|]. simpl. by rewrite decide_True. }
  pose proof (ri_length _ Hr) as Hlen. destruct (forallb is_done (workers r)) eqn:Hall.
  { exists SWait. eexists. split; [done|]. split; [done|done|]. simpl. rewrite Hres, Hall, bool_decide_true by lia. done. }
  assert (Hsome : ∃ i w, workers r !! i = Some w ∧ is_done w = false).
  { clear -Hall. induction (workers r) as [|w ws IH]; [done|]. simpl in Hall. destruct (is_done w) eqn:Hw; [|by exists 0, w].
    destruct (IH Hall) as (i & w' & ? & ?). by exists (S i), w'. }
  destruct Hsome as (i & w & Hi & Hw). pose proof (lookup_lt_Some _ _ _ Hi) as Hlt.
  destruct (lookup_lt_is_Some_2 (sources inp) i ltac:(lia)) as [source Hs].
  assert (Hret : (∃ e, w = WReturned e) ∨ ∀ e, w ≠ WReturned e) by (destruct w as [| | | | | | | |e|]; try (by right); left; by exists e).
  destruct Hret as [[e ->]|Hne].
  { exists (SFinish i). destruct e; eexists; (split; [done|]); (split; [done|done|]); simpl; by rewrite Hi. }
  destruct (worker_can err source w Hw) as (v & a & w' & Hn & Hv & Hal); [done|].
  assert (Hstep : ∃ r', do_step r (SWorker i v) = Done r').
  { unfold ManagedInput.do_step. rewrite Hi, Hs, Hctx, Hn. destruct a as [a|]; [|by eexists].
    destruct (ri_pool _ Hr i ltac:(lia)) as (g & Hg & Hw'). rewrite Hi in Hw'.
    destruct (gor_move_ok conv order (conf r) i g a (ri_conf _ Hr) Hg) as (c & -> & _); [by eapply worker_act|].
    cbn [mbind outcome_bind]. destruct v; try done; by eexists. }
  destruct Hstep as [r' Hd]. exists (SWorker i v), r'. split; [done|]. split; [done| |done].
  destruct v; try done. simpl. intros j Hj. rewrite Hi in Hj. injection Hj as ->. rewrite Hctx. by apply Hal.
Qed.
End stops.
End safety.

(** C12. When [Run] of an input with several sources returns, in every interleaving of
    its goroutines with each other, with other inputs, the pipeline and the cleaner:
    a goroutine has run for every source and all are back, none of them using or
    waiting for a resource; the context handed to the sources is cancelled; and
    the result is nil if and only if no source ended with an error, otherwise
    it wraps all of them.  Before that, once a source has ended with an error the
    context of the others is cancelled.  (So active data collecting does not
    continue after an error, as the comment on [managedInput] has it: the code
    does what the comment inside [Run] says.)  All that happens to the store are
    steps of the machine in which sources are exclusive. *)
Theorem managed_run_waits_for_all {R H X Ctr W U Rc L C E I : Type}
    `{!Convert (state C) X, !Backend R H (state C) X, !BackendLaws R H (state C) X, !EqDecision H, !AtomicInt Ctr,
      !AtomicIntLaws Ctr, !SafeWaitGroup W, !SafeWaitGroupLaws W, !AtomicUint64 U, !AtomicUint64Laws U, !RefCount Rc,
      !Mutex L, !MutexLaws L} (conv : option C → option C → goerr + option C) (order : gset string → list string)
    (WrapAll : list goerr → string → goerr) Type_ inp (istart : string → I) allowed
    (s : store R H Ctr W U Rc L C E) n ctx r :
  (∀ ks, order ks ≡ₚ elements ks) → unused s →
  rtc (any_step conv order WrapAll Type_ inp istart allowed) (begin inp s n ctx) r →
  rtc (step conv order) (start s (length (sources inp) + n)) (conf r) ∧
  errs r ≡ₚ omap done_error (workers r) ∧ (errs r ≠ [] → ctx_err r ≠ None) ∧
  ∀ x, result r = Some x →
    length (workers r) = length (sources inp) ∧ Forall (λ w, is_done w = true) (workers r) ∧
    (∀ i, i < length (sources inp) → pool (conf r) !! i = Some Idle) ∧ ctx_err r ≠ None ∧
    (x = None ↔ Forall (λ w, done_error w = None) (workers r)) ∧
    (x ≠ None → x = Some (WrapAll (errs r) "input %{id} failed")).
Proof.
  intros Hord Hs Hrtc. pose proof (reachable_run_inv conv order Hord WrapAll Type_ inp istart allowed s n ctx r Hs Hrtc) as Hr.
  split; [|split; [apply Hr|split; [apply Hr|]]].
  - change (start s (length (sources inp) + n)) with (conf (I := I) (begin inp s n ctx)).
    by eapply reachable_conf.
  - intros x Hx. destruct (ri_result _ _ _ Hr x Hx) as (Hlen & Hall & Hctx & ->).
    do 2 (split; [done|]). split; [|split; [done|split]].
    + intros i Hi. destruct (ri_pool _ _ _ Hr i Hi) as (g & Hg & Hw). destruct (lookup_lt_is_Some_2 (workers r) i ltac:(lia)) as [w Hwi].
      rewrite Hwi in Hw. pose proof (proj1 (Forall_lookup _ _) Hall i w Hwi) as Hd. simpl in Hd. destruct w; try done. simpl in Hw. by subst.
    + rewrite <- no_errors. pose proof (Permutation_length (ri_errs _ _ _ Hr)) as El. rewrite <- length_zero_iff_nil, <- El.
      case_bool_decide as He; split; intros; try done; try (exfalso; lia); lia.
    + by case_bool_decide.
Qed.

(** C18. A cancelled [Run] ends.  Once the context is cancelled, from outside or by the
    error of a source, and if every input that is cancelled comes to its end in the
    number of events that [μ] bounds, then whatever the others do, the goroutines of
    [Run] take only so many more steps, and as long as [Run] has not returned one of
    them can take a step: nobody waits for a lock for ever, and [Wait]
    returns. *)
Theorem cancelled_run_ends {R H X Ctr W U Rc L C E I : Type}
    `{!Convert (state C) X, !Backend R H (state C) X, !BackendLaws R H (state C) X, !EqDecision H, !AtomicInt Ctr,
      !AtomicIntLaws Ctr, !SafeWaitGroup W, !SafeWaitGroupLaws W, !AtomicUint64 U, !AtomicUint64Laws U, !RefCount Rc,
      !Mutex L, !MutexLaws L} (conv : option C → option C → goerr + option C) (order : gset string → list string)
    (WrapAll : list goerr → string → goerr) Type_ inp (istart : string → I) allowed (μ : I → nat)
    (s : store R H Ctr W U Rc L C E) n ctx r err :
  (∀ ks, order ks ≡ₚ elements ks) → unused s →
  (∀ err i ev, allowed (Some err) i ev → match ev with IPublish _ _ _ i' | ITau i' => μ i' < μ i | IEnd _ => True end) →
  (∀ err i, ∃ ev, allowed (Some err) i ev) →
  rtc (any_step conv order WrapAll Type_ inp istart allowed) (begin inp s n ctx) r → ctx_err r = Some err →
  ∃ bound, ∀ k r', rsteps conv order WrapAll Type_ inp istart allowed k r r' → k ≤ bound ∧
    (bounded (conf r') → result r' = None →
     ∃ m r'', own m = true ∧ rstep conv order WrapAll Type_ inp istart allowed m r' r'').
Proof.
  intros Hord Hs Hheeds Hends Hrtc Hctx.
  pose proof (reachable_run_inv conv order Hord WrapAll Type_ inp istart allowed s n ctx r Hs Hrtc) as Hr.
  exists (rank inp istart μ r). intros k r' Hsteps.
  destruct (rsteps_rank conv order Hord WrapAll Type_ inp istart allowed μ Hheeds k r r' err Hsteps Hr Hctx) as (Hr' & Hctx' & Hle).
  split; [lia|]. intros Hb Hres. by eapply own_step_possible.
Qed.

(** ** Two sources of the same key, one of which fails *)
Section schedules.
Context {R H X Ctr W U Rc L C E I : Type} `{!Backend R H (state C) X, !AtomicInt Ctr, !SafeWaitGroup W,
  !AtomicUint64 U, !RefCount Rc, !Mutex L}.
Context (conv : option C → option C → goerr + option C) (order : gset string → list string).
Context (WrapAll : list goerr → string → goerr) (Type_ : string) (inp : managedInput) (istart : string → I).
Context (allowed : option goerr → I → input_event I C E → Prop) `{!∀ c i ev, Decision (allowed c i ev)}.

#[local] Instance permitted_dec (r : run R H Ctr W U Rc L C E I) m : Decision (permitted inp allowed r m).
Proof.
  destruct m as [|i []| | | |[]]; try (left; exact Logic.I); simpl; try apply _.
  destruct (workers r !! i) as [[]|]; try (left; intros w [=]; fail).
  destruct (decide (allowed (ctx_err r) i0 ev)); [left; by intros w [= <-]|right; intros Ha; by apply n, Ha].
Defined.

Fixpoint do_steps (r : run R H Ctr W U Rc L C E I) (ms : list (run_step I C E)) : outcome (run R H Ctr W U Rc L C E I) :=
  match ms with
  | [] => Done r
  | m :: ms =>
    if decide (bounded (conf r)) then
      if decide (permitted inp allowed r m) then r ← do_step conv order WrapAll Type_ inp istart r m; do_steps r ms else OutOfFuel
    else OutOfFuel
  end.

Lemma do_steps_rtc r ms r' : do_steps r ms = Done r' → rtc (any_step conv order WrapAll Type_ inp istart allowed) r r'.
Proof.
  revert r. induction ms as [|m ms IH]; intros r; simpl; [by intros [= ->]|]. case_decide; [|done]. case_decide; [|done].
  intros (r1 & Hm & Hms)%bind_Done_inv. eapply rtc_l; [by exists m; constructor|by apply IH].
Qed.
End schedules.

#[local] Existing Instances doc_convert doc_backend doc_laws.
Definition demo_input : managedInput := mkManaged "" ["src"; "src"]%string 10.
Definition counts (_ : option goerr) (i : nat) (ev : input_event nat string ()) : Prop :=
  match ev with IPublish _ _ _ i' | ITau i' => i = S i' | IEnd _ => True end.
#[local] Instance counts_dec c i ev : Decision (counts c i ev).
Proof. destruct ev; simpl; apply _. Defined.
Definition wrap_all (errs : list goerr) (msg : string) : goerr := Wrapped msg (default errConvert (head errs)).

(** The first source runs and fails, while the second waits for its lock. *)
Definition until_failure : list (run_step nat string ()) :=
  [SGo; SGo; SWorker 0 (VConnect None); SWorker 0 VLock; SWorker 0 VTry; SWorker 0 (VUpdateTTL 1);
   SWorker 1 (VConnect None); SWorker 1 VLock; SWorker 0 (VInput (IPublish () (Some "a"%string) 2 0));
   SWorker 0 (VInput (IEnd (Returned (Some (Errno EIO))))); SWorker 0 VUnlock; SWorker 0 VRelease; SWorker 0 VClose; SFinish 0].
Definition after_failure : list (run_step nat string ()) := [SWorker 1 VCancel; SWorker 1 VClose; SFinish 1; SWait].

Definition demo_steps (s : doc_store string) (ms : list (run_step nat string ())) :=
  do_steps replace elements wrap_all "type" demo_input (λ _, 1) counts (begin demo_input s 0 None) ms.

Lemma open_docs_unused (s : doc_store string) w : open_docs = Done (inr s, w) → unused s.
Proof. by apply (opened_unused inr "type" (λ w, Done (inr 0, w)) (opened_world string) (opened_world string) w 0 ∅ s eq_refl (opened_holds string)). Qed.

Lemma managed_run_waits_for_all_witness : ∃ (s : doc_store string) w r, open_docs = Done (inr s, w) ∧
  demo_steps s (until_failure ++ after_failure) = Done r ∧
  result r = Some (Some (Wrapped "input %{id} failed" (Errno EIO))) ∧ pool (conf r) !! 0 = Some Idle ∧ pool (conf r) !! 1 = Some Idle.
Proof.
  assert (∃ (s : doc_store string) w r, open_docs = Done (inr s, w) ∧ demo_steps s (until_failure ++ after_failure) = Done r ∧
    result r = Some (Some (Wrapped "input %{id} failed" (Errno EIO)))) as (s & w & r & Es & Er & Hr)
    by (do 3 eexists; split; [vm_compute; reflexivity|]; split; [vm_compute; reflexivity|reflexivity]).
  exists s, w, r. split; [exact Es|]. split; [exact Er|]. split; [exact Hr|].
  destruct (managed_run_waits_for_all replace elements wrap_all "type" demo_input (λ _, 1) counts s 0 None r (λ _, reflexivity _)
    (open_docs_unused s w Es)) as (_ & _ & _ & Hres); [eapply do_steps_rtc; exact Er|].
  destruct (Hres _ Hr) as (_ & _ & Hidle & _). split; apply Hidle; simpl; lia.
Defined.

Lemma cancelled_run_ends_witness : ∃ (s : doc_store string) w r bound, open_docs = Done (inr s, w) ∧
  demo_steps s until_failure = Done r ∧ result r = None ∧
  ∀ k r', rsteps replace elements wrap_all "type" demo_input (λ _, 1) counts k r r' → k ≤ bound.
Proof.
  assert (∃ (s : doc_store string) w r, open_docs = Done (inr s, w) ∧ demo_steps s until_failure = Done r ∧
    result r = None ∧ ctx_err r = Some errCanceled) as (s & w & r & Es & Er & Hr & Hc)
    by (do 3 eexists; split; [vm_compute; reflexivity|]; split; [vm_compute; reflexivity|split; reflexivity]).
  destruct (cancelled_run_ends replace elements wrap_all "type" demo_input (λ _, 1) counts (λ i, i) s 0 None r errCanceled (λ _, reflexivity _)
    (open_docs_unused s w Es)) as [bound Hb].
  - intros err i []; simpl; [lia|lia|done].
  - intros err i. by exists (IEnd (Returned None)).
  - eapply do_steps_rtc. exact Er.
  - exact Hc.
  - exists s, w, r, bound. split; [exact Es|]. split; [exact Er|]. split; [exact Hr|]. intros k r' Hk. exact (proj1 (Hb k r' Hk)).
Defined.
