(* ===== verification/AckedCursor.v ===== *)
(** * Cursor updates and acknowledgements, composed

    The client that [runSource] connects with [newInputACKHandler] (input.go), as a
    whole: an input publishes events with cursor updates, the pipeline adds each of
    them to the [eventDataACKer] as sent or dropped and acknowledges the sent ones,
    and the callback executes the update operations.  The steps of AckerConc.v and the
    operations of Cursor.v run in any order that two goroutines can reach, with the
    reports of the two in either order.

    The specification is the list of the events with their updates: the persisted
    cursor is always that of an event up to which everything sent was acknowledged. *)

From stdpp Require Import base gmap strings list fin_maps relations.
From Stdlib Require Import ZArith Lia.
From S2P Require Import Prelude Fs Backend Concert Storetest Statestore StatestoreFacts StatestoreSeq StatestoreSpec Cursor CursorFacts CursorSpec CursorProps Acker AckerConc.

Section composition.
Context {R H X Ctr W U Rc L C E : Type} `{!Backend R H (state C) X, !AtomicInt Ctr, !SafeWaitGroup W,
  !AtomicUint64 U, !RefCount Rc, !Mutex L}.
Abbreviation store := (store R H Ctr W U Rc L C E).
Context (conv : option C → option C → goerr + option C).

(** The ACKer, whose private data are the update operations; the store; the event
    that was given to the client and that the ACKer does not have yet; and for the
    statements, for each event in order its update operation with the operation's
    value. *)
Record net := mkNet {
  ackr : sys (option nat);
  cur : store;
  creating : option (option nat);
  events : list (option (nat * option C))
}.

(** The callback's calls. *)
Fixpoint handle (reps : list (EventData.report (option nat))) : M store () :=
  match reps with
  | [] => mret ()
  | rep :: reps => ACKHandler conv rep.2;; handle reps
  end.

(** What a step of the ACKer does outside of it. *)
Definition react (lab : label (option nat)) (c : option (option nat)) : M store (option (option nat)) :=
  match lab with
  | Append _ _ => mret None
  | Deliver reps => handle reps;; mret c
  | Silent => mret c
  end.
Definition enabled (lab : label (option nat)) (c : option (option nat)) : Prop :=
  match lab with Append d _ => c = Some d | _ => True end.

(** What a call of [Publish] has given to the client. *)
Definition given (s s' : store) : option (option nat) := (snd <$> drop (length (sent s)) (sent s')) !! 0.
Definition given_update (g : option (option nat)) (d : option C) : list (option (nat * option C)) :=
  match g with
  | None => []
  | Some private => [o ← private; d ← d; v ← value conv d; Some (o, v)]
  end.

(** The input publishes on resource [l], of which [n] others are owners; the next event
    only after [AddEvent] returned. *)
Inductive net_step (l : nat) (n : Z) : net → net → Prop :=
| net_publish y s evs ev d ts res s' :
    producer y = ProdIdle → (n + Z.of_nat (length evs) + 1 < 2 ^ 64)%Z →
    Publish conv l ev None d ts None s = Done (res, s') →
    net_step l n (mkNet y s None evs) (mkNet y s' (given s s') (evs ++ given_update (given s s') d))
| net_acker y lab y' s s' c c' evs :
    step y lab y' → enabled lab c → react lab c s = Done (c', s') →
    net_step l n (mkNet y s c evs) (mkNet y' s' c' evs).

Definition start (s : store) : net := mkNet AckerConc.init s None [].
End composition.
Arguments net : clear implicits.

(** ** The ACKer's data that the callback has not seen *)
Section unseen.
Context {D : Type}.
Implicit Types (y : sys D).

Definition unseen y : list D := ack_pending y ++ prod_pending y ++ dat y.

Lemma inv_unseen y : AckerConc.inv y → data_of (delivered y) ++ unseen y ≡ₚ (history y).*1.
Proof.
  intros (q & gone & m & t & [_ _ Hf _ _ _ Hd _]). unfold unseen. rewrite <-Hf, <-Hd. by rewrite <-!(assoc_L (++)).
Qed.

(** What the steps change of it. *)
Lemma step_seen y lab y' : step y lab y' →
  match lab with
  | Append d p => producer y = ProdIdle ∧ history y' = history y ++ [(d, p)] ∧ delivered y' = delivered y
  | Deliver reps => history y' = history y ∧ delivered y' = delivered y ++ reps
  | Silent => history y' = history y ∧ delivered y' = delivered y
  end.
Proof. by destruct 1. Qed.

Lemma step_unseen y lab y' : AckerConc.inv y → step y lab y' →
  match lab with
  | Append d p => unseen y' ≡ₚ unseen y ++ [d]
  | Deliver reps => unseen y ≡ₚ data_of reps ++ unseen y'
  | Silent => unseen y' ≡ₚ unseen y
  end.
Proof.
  intros Hinv Hstep. pose proof (inv_unseen y Hinv) as H1. pose proof (inv_unseen y' (step_inv _ _ _ Hstep Hinv)) as H2.
  pose proof (step_seen _ _ _ Hstep) as Hs. destruct lab as [d p|reps|].
  - destruct Hs as (_ & Eh & Ed). rewrite Eh, Ed, fmap_app, <-H1, <-(assoc_L (++)) in H2. by apply Permutation_app_inv_l in H2.
  - destruct Hs as [Eh Ed]. rewrite Eh, Ed, data_of_app, <-H1, <-(assoc_L (++)) in H2. by apply Permutation_app_inv_l in H2.
  - destruct Hs as [Eh Ed]. rewrite Eh, Ed, <-H1 in H2. by apply Permutation_app_inv_l in H2.
Qed.
End unseen.

(** ** The invariant of the cursor *)
Section invariant.
Context {R H X Ctr W U Rc L C E : Type} `{!Convert (state C) X, !Backend R H (state C) X, !BackendLaws R H (state C) X,
  !EqDecision H, !AtomicInt Ctr, !AtomicIntLaws Ctr, !SafeWaitGroup W, !SafeWaitGroupLaws W,
  !AtomicUint64 U, !AtomicUint64Laws U, !RefCount Rc, !Mutex L, !MutexLaws L}.
Abbreviation store := (store R H Ctr W U Rc L C E).
Context (conv : option C → option C → goerr + option C).
Context (Hcomplete : ∀ c c' d, conv c (Some d) = conv c' (Some d)).
Context (Hnil : ∀ v, conv None None = inr v → v = None).
Context (Htotal : ∀ st, ∃ x, convert_in (Convert := Convert0) st = inr x).
Context (l : nat) (k : string) (lk : L) (n : Z) (b0 : option C) (m0 : gmap string X) (s0 : store).
Implicit Types (s : store) (u : list (nat * option C)) (q : list nat) (b : option C).

Definition newest u : option C := default b0 (last u.*2).

(** Calls of [Set] that write cursors that satisfy [P] to the document of [k]. *)
Definition writes (P : option C → Prop) (ps : nat) : relation (world R H Ctr W) :=
  rtc (λ w w', ∃ st res, P (sCursor st) ∧ Set_ ps k st w = Done (res, w')).

Lemma writes_mono (P Q : option C → Prop) ps w w' : (∀ b, P b → Q b) → writes P ps w w' → writes Q ps w w'.
Proof.
  intros HPQ Hw. unfold writes in *. induction Hw as [|w1 w2 w3 (st & res & HP & E0) _ IH]; [constructor|].
  eapply rtc_l; [|exact IH]. exists st, res. auto.
Qed.

(** [u] are all updates, of which the operations [q] are not executed; [b] is the
    persisted cursor: of one that is executed, and the newest if all are.  Only
    such cursors were ever written. *)
Definition executed u q b : Prop := ∃ o, (o, b) ∈ u ∧ o ∉ q.
Record cursor_ok s u q b : Prop := {
  ck_pends : ∃ qv, pends conv s l k lk n qv (newest u) b ∧ qv.*1 ≡ₚ q ∧ ∀ ov, ov ∈ qv → ov ∈ u;
  ck_nodup : NoDup u.*1;
  ck_ops o : o ∈ u.*1 → o < length (ops s);
  ck_value : (b = b0 ∧ u.*1 ≡ₚ q) ∨ executed u q b;
  ck_newest : q = [] → b = newest u;
  ck_store : ∃ m, holds (persistent s) (persistentStore s) m ∧ persisted k b m ∧ ∀ k', k' ≠ k → m !! k' = m0 !! k';
  ck_writes : persistentStore s = persistentStore s0 ∧ writes (executed u q) (persistentStore s0) (persistent s0) (persistent s)
}.

Lemma cursor_ok_perm s u q q' b : q ≡ₚ q' → cursor_ok s u q b → cursor_ok s u q' b.
Proof.
  intros Hq [(qv & Hp & Hqv & Hu) Hnd Ho Hv Hn Hm Hw]. split; try done.
  - exists qv. by rewrite <-Hq.
  - destruct Hv as [[-> Hv]|(o & Hin & Hno)]; [left; by rewrite <-Hq|right]. exists o. by rewrite <-Hq.
  - intros ->. apply Hn. by apply Permutation_nil.
  - split; [apply Hw|]. eapply writes_mono; [|apply Hw]. intros b' (o & Hin & Hno). exists o. by rewrite <-Hq.
Qed.

(** An update is published. *)
Lemma create_cursor_ok s u q b d ts : cursor_ok s u q b → (n + Z.of_nat (length u) + 1 < 2 ^ 64)%Z →
  ∃ res s', createUpdateOp conv l (Some d) ts s = Done (res, s') ∧ sent s' = sent s ∧
    match value conv d with
    | Some v => res = inr (length (ops s)) ∧ cursor_ok s' (u ++ [(length (ops s), v)]) (q ++ [length (ops s)]) b
    | None => (∃ e, res = inl e) ∧ cursor_ok s' u q b
    end.
Proof.
  intros [(qv & Hp & Hqv & Hu) Hnd Ho Hv Hn (m & Hm & Hpm & Hoth) Hw] Hmax.
  assert (Hlen : length qv ≤ length u).
  { rewrite <-(length_fmap fst qv), <-(length_fmap fst u). apply submseteq_length, NoDup_submseteq; [apply Hp|].
    intros o (ov & -> & Hov)%list_elem_of_fmap. by apply list_elem_of_fmap_2, Hu. }
  destruct (createUpdateOp_pends conv Hcomplete Hnil s l k lk n qv _ b d ts Hp) as (res & s' & E0 & Hk & Hps & Hs & Hres); [lia|].
  destruct Hk as (_ & _ & _ & Hpst & _ & Hops). exists res, s'. split; [done|]. split; [done|].
  assert (Hm' : holds (persistent s') (persistentStore s') m) by (by rewrite Hps, Hpst).
  rewrite <-Hps, <-Hpst in Hw. destruct Hw as [Hw0 Hw].
  unfold value. destruct (conv None (Some d)) as [e|v]; destruct Hres as [-> Hp'].
  - split; [by eexists|]. split; try done; [by exists qv|intros o Ho'%Ho; lia|by exists m].
  - split; [done|]. set (o := length (ops s)) in *.
    assert (Hfresh : o ∉ u.*1) by (intros Hin%Ho; unfold o in Hin; lia).
    assert (Hexec : ∀ b', executed u q b' → executed (u ++ [(o, v)]) (q ++ [o]) b').
    { intros b' (o' & Hin & Hno). exists o'. split; [apply elem_of_app; by left|].
      intros [Hq| ->%list_elem_of_singleton]%elem_of_app; [done|]. apply Hfresh. by apply (list_elem_of_fmap_2 fst u (o, b')). }
    assert (Hnew : newest (u ++ [(o, v)]) = v) by (unfold newest; rewrite fmap_app; simpl; by rewrite last_snoc).
    split.
    + exists (qv ++ [(o, v)]). rewrite Hnew, fmap_app, Hqv. split; [done|]. split; [done|].
      intros ov [Hov| ->%list_elem_of_singleton]%elem_of_app; apply elem_of_app; [left; by apply Hu|right; by left].
    + rewrite fmap_app. apply NoDup_app. split; [done|]. split; [|apply NoDup_singleton]. by intros o' Ho' ->%list_elem_of_singleton.
    + destruct Hp' as [_ Hall _ _]. rewrite Forall_forall in Hall.
      destruct (Hall (o, v)) as (d' & ts' & Hlk%lookup_lt_Some & _); [apply elem_of_app; right; by left|]. simpl in Hlk.
      intros o'. rewrite fmap_app. intros [Ho'%Ho|Ho'%list_elem_of_singleton]%elem_of_app; simpl in *; lia.
    + rewrite fmap_app. destruct Hv as [[-> Hv]|Hv]; [left; by rewrite Hv|right; by apply Hexec].
    + by destruct q.
    + by exists m.
    + split; [done|by eapply writes_mono].
Qed.

Lemma fmap_split {A B} (f : A → B) (la : list A) (b1 b2 : list B) : f <$> la ≡ₚ b1 ++ b2 →
  ∃ l1 l2, la ≡ₚ l1 ++ l2 ∧ f <$> l1 = b1 ∧ f <$> l2 = b2.
Proof.
  intros Hperm. symmetry in Hperm. apply Permutation_map_inv in Hperm as (l3 & E0 & Hl3).
  change (map f l3) with (f <$> l3) in E0. exists (take (length b1) l3), (drop (length b1) l3).
  rewrite take_drop. split; [done|]. rewrite fmap_take, fmap_drop, <-E0.
  by rewrite take_app_length, drop_app_length.
Qed.

(** A report is handled: the operations of [pr] are executed. *)
Lemma ACKHandler_cursor_ok s u q b pr q' : cursor_ok s u q b → q ≡ₚ omap id pr ++ q' → (Z.of_nat (length pr) < 2 ^ 64)%Z →
  ∃ s' b', ACKHandler conv pr s = Done ((), s') ∧ sent s' = sent s ∧ cursor_ok s' u q' b'.
Proof.
  intros Hok Hq Hmax. destruct (scan_private_spec pr 0 0 0 ltac:(lia) ltac:(lia)) as [Hcount Hlast].
  unfold ACKHandler. destruct (scan_private 0 pr 0 0) as [cnt j]. simpl in Hcount, Hlast. subst cnt.
  destruct (decide (omap id pr = [])) as [H0|Hne].
  { exists s, b. rewrite H0, bool_decide_true by done. split; [done|]. split; [done|].
    eapply cursor_ok_perm; [|exact Hok]. by rewrite Hq, H0. }
  rewrite bool_decide_false by (destruct (omap id pr); [done|simpl; lia]).
  destruct (Hlast Hne) as (t & -> & Et). destruct (last (omap id pr)) as [o|] eqn:El; [|by apply last_None in El].
  assert (Ho : o ∈ omap id pr) by (apply last_Some in El as [l0 ->]; apply elem_of_app; right; by left).
  destruct Hok as [(qv & Hp & Hqv & Hu) Hnd Hops Hv Hn (m & Hm & Hpm & Hoth) Hw].
  assert (Hexec : ∀ b', executed u q b' → executed u q' b').
  { intros b' (o' & Hin & Hno). exists o'. split; [done|]. intros Hq'. apply Hno. rewrite Hq. apply elem_of_app. by right. }
  rewrite Hq in Hqv. apply fmap_split in Hqv as (batch & rest & Hperm & Hb & Hr).
  rewrite <-Hb in Ho. apply list_elem_of_fmap in Ho as ([o' v] & -> & Hov). simpl in Et.
  destruct (Execute_pends conv Hcomplete s l k lk n qv (newest u) b o' v batch rest m Hp Hperm Hov Hm)
    as (s' & ttl & upd & E0 & (_ & _ & _ & Hpst & _ & Hlen) & Hs & Hp' & Hm' & res & Eset).
  set (b' := if decide (rest = []) then newest u else v) in *.
  assert (Hrest : q' = [] ↔ rest = []) by (rewrite <-Hr; by destruct rest).
  assert (Hin : (o', v) ∈ u) by (apply Hu; rewrite Hperm; apply elem_of_app; by left).
  assert (Hb' : executed u q' b').
  { unfold b'. case_decide as Hnil0.
    - destruct (last u) as [[o2 v2]|] eqn:Elast; [|apply last_None in Elast; rewrite Elast in Hin; by apply not_elem_of_nil in Hin].
      exists o2. unfold newest. rewrite fmap_last, Elast. simpl. split; [|rewrite (proj2 Hrest Hnil0); apply not_elem_of_nil].
      apply last_Some in Elast as [l0 ->]. apply elem_of_app. right. by left.
    - exists o'. split; [done|]. rewrite <-Hr. destruct Hp as [_ _ Hnd' _]. rewrite Hperm, fmap_app in Hnd'.
      apply NoDup_app in Hnd' as (_ & Hdis & _). apply Hdis. by apply (list_elem_of_fmap_2 fst batch (o', v)). }
  exists s', b'. split; [|split; [done|]].
  { rewrite Et. erewrite M_bind_eq by reflexivity. simpl. rewrite <-Hb, length_fmap in *. exact E0. }
  split; try done.
  - exists rest. split; [done|]. split; [by rewrite Hr|]. intros ov Hov'. apply Hu. rewrite Hperm. apply elem_of_app. by right.
  - intros o1 Ho1%Hops. lia.
  - by right.
  - intros Hq'%Hrest. unfold b'. by rewrite decide_True.
  - eexists. split; [exact Hm'|]. split; [by apply persisted_saved|]. intros k' Hk'. rewrite saved_other by done. by apply Hoth.
  - destruct Hw as [Hw0 Hw]. rewrite Hpst. split; [done|]. eapply rtc_r; [by eapply writes_mono|]. rewrite <-Hw0.
    exists (mkState ttl upd b'), res. by split.
Qed.

Lemma handle_cursor_ok reps s u q b q' : cursor_ok s u q b → q ≡ₚ omap id (data_of reps) ++ q' →
  (Z.of_nat (length (data_of reps)) < 2 ^ 64)%Z →
  ∃ s' b', handle conv reps s = Done ((), s') ∧ sent s' = sent s ∧ cursor_ok s' u q' b'.
Proof.
  revert s q b. induction reps as [|rep reps IH]; intros s q b Hok Hq Hmax.
  - exists s, b. split; [done|]. split; [done|]. by eapply cursor_ok_perm.
  - change (data_of (rep :: reps)) with (rep.2 ++ data_of reps) in Hq, Hmax. rewrite omap_app, <-(assoc_L (++)) in Hq. rewrite length_app in Hmax.
    destruct (ACKHandler_cursor_ok s u q b rep.2 _ Hok Hq) as (s1 & b1 & E1 & Hs1 & Hok1); [lia|].
    destruct (IH s1 _ b1 Hok1 (reflexivity _)) as (s2 & b2 & E2 & Hs2 & Hok2); [lia|].
    exists s2, b2. split; [simpl; by erewrite M_bind_eq by exact E1|]. split; [congruence|done].
Qed.

(** *** The whole *)
Definition private_of (e : option (nat * option C)) : option nat := fst <$> e.

Record net_ok (x : net R H Ctr W U Rc L C E) : Prop := {
  no_acker : AckerConc.inv (ackr x);
  no_events : private_of <$> events x = (history (ackr x)).*1 ++ option_list (creating x);
  no_bound : (0 ≤ n ∧ n + Z.of_nat (length (events x)) < 2 ^ 64)%Z;
  no_cursor : ∃ b, cursor_ok (cur x) (omap id (events x)) (omap id (unseen (ackr x) ++ option_list (creating x))) b
}.

Lemma length_omap_id {A} (evs : list (option A)) : length (omap id evs) ≤ length evs.
Proof. induction evs as [|[a|] evs IH]; [done|..]; cbn -[omap]; [change (omap id (Some a :: evs)) with (a :: omap id evs)|
  change (omap id (None :: evs)) with (omap id evs)]; simpl; lia. Qed.

Lemma sent_given s s' p : sent s' = sent s ++ [p] → given s s' = Some p.2.
Proof. intros E0. unfold given. by rewrite E0, drop_app_length. Qed.
Lemma sent_nothing s s' : sent s' = sent s → given s s' = None.
Proof. intros E0. unfold given. by rewrite E0, drop_all. Qed.

(** [Publish] returns, and the event given to the client has the update. *)
Lemma Publish_ok s evs q b ev d ts : cursor_ok s (omap id evs) q b → (n + Z.of_nat (length evs) + 1 < 2 ^ 64)%Z →
  ∃ res s' g, Publish conv l ev None d ts None s = Done (res, s') ∧ given s s' = g ∧
    private_of <$> given_update conv g d = option_list g ∧
    cursor_ok s' (omap id (evs ++ given_update conv g d)) (q ++ omap id (option_list g)) b.
Proof.
  intros Hok Hmax. unfold Publish, forward. destruct d as [d|].
  - pose proof (length_omap_id evs) as Hlen.
    destruct (create_cursor_ok s _ q b d ts Hok) as (res & s1 & E0 & Hs & Hres); [lia|].
    destruct (value conv d) as [v|] eqn:Ev.
    + destruct Hres as [-> Hok']. eexists _, (set_sent (sent s1 ++ [(ev, Some (length (ops s)))]) s1), _.
      split; [by erewrite M_bind_eq by exact E0|]. split; [apply (sent_given s _ (ev, Some (length (ops s)))); simpl; by rewrite Hs|].
      simpl. rewrite Ev. split; [done|]. rewrite omap_app. destruct Hok' as [Hp H2 H3 H4 H5 H6 H7]. split; try done.
      destruct Hp as (qv & [Hr Ho Hnd Hb] & Hp). exists qv. split; [by split|done].
    + destruct Hres as [[e ->] Hok']. eexists _, s1, None. split; [by erewrite M_bind_eq by exact E0|].
      split; [by apply sent_nothing|]. split; [done|]. simpl. by rewrite !app_nil_r.
  - eexists _, (set_sent (sent s ++ [(ev, None)]) s), _. split; [done|]. split; [by apply (sent_given s _ (ev, None))|].
    split; [done|]. simpl. rewrite omap_app. simpl. rewrite !app_nil_r. destruct Hok as [Hp H2 H3 H4 H5 H6 H7]. split; try done.
    destruct Hp as (qv & [Hr Ho Hnd Hb] & Hp). exists qv. split; [by split|done].
Qed.

Lemma unseen_bound x : net_ok x → (Z.of_nat (length (unseen (ackr x))) < 2 ^ 64)%Z.
Proof.
  intros [Hi He [Hn Hb] _]. apply inv_unseen in Hi. apply (f_equal length) in He. apply Permutation_length in Hi.
  rewrite length_fmap, length_app, length_fmap in He. rewrite length_app, length_fmap in Hi. lia.
Qed.

(** Whatever the ACKer does next, what happens outside of it returns. *)
Lemma react_ok x lab y' : net_ok x → step (ackr x) lab y' → enabled lab (creating x) →
  ∃ c' s', react conv lab (creating x) (cur x) = Done (c', s') ∧ net_ok (mkNet y' s' c' (events x)).
Proof.
  intros Hx Hstep Hen. pose proof (unseen_bound x Hx) as Hub. destruct Hx as [Hi He Hb [b Hok]].
  pose proof (step_unseen _ _ _ Hi Hstep) as Hu. pose proof (step_seen _ _ _ Hstep) as Hs. pose proof (step_inv _ _ _ Hstep Hi) as Hi'.
  destruct lab as [d p|reps|].
  - simpl in Hen. rewrite Hen in He, Hok. destruct Hs as (_ & Eh & _). exists None, (cur x). split; [done|]. split; try done.
    + simpl. by rewrite Eh, fmap_app, app_nil_r.
    + exists b. simpl. rewrite app_nil_r. eapply cursor_ok_perm; [|exact Hok]. by rewrite Hu.
  - destruct Hs as [Eh _]. pose proof (Permutation_length Hu) as Hl. rewrite length_app in Hl.
    destruct (handle_cursor_ok reps (cur x) _ _ b (omap id (unseen y' ++ option_list (creating x))) Hok) as (s' & b' & E0 & _ & Hok');
      [by rewrite Hu, <-(assoc_L (++)), !omap_app|lia|].
    exists (creating x), s'. split; [unfold react; by erewrite M_bind_eq by exact E0|].
    split; try done; [simpl; by rewrite Eh|by exists b'].
  - destruct Hs as [Eh _]. exists (creating x), (cur x). split; [done|]. split; try done; [simpl; by rewrite Eh|].
    exists b. eapply cursor_ok_perm; [|exact Hok]. simpl. by rewrite Hu.
Qed.

Lemma net_step_ok x x' : net_step conv l n x x' → net_ok x → net_ok x'.
Proof.
  intros Hstep Hx. destruct Hstep as [y s evs ev d ts res s' Hidle Hmax E0|y lab y' s s' c c' evs Hstep Hen E0].
  - destruct Hx as [Hi He Hb [b Hok]]. simpl in *. rewrite app_nil_r in He, Hok.
    destruct (Publish_ok s evs _ b ev d ts Hok Hmax) as (res' & s1 & g & E1 & <- & Hupd & Hok').
    rewrite E1 in E0. injection E0 as -> ->.
    split; simpl; try done.
    + by rewrite fmap_app, He, Hupd.
    + rewrite length_app. assert (length (given_update conv (given s s') d) ≤ 1) by (destruct (given s s'); simpl; lia). lia.
    + exists b. eapply cursor_ok_perm; [|exact Hok']. simpl. by rewrite omap_app.
  - destruct (react_ok _ lab y' Hx Hstep Hen) as (c1 & s1 & E1 & Hok). simpl in *. congruence.
Qed.

Lemma start_ok acked m : follows conv s0 acked l k lk n b0 [] m → (∀ k', k' ≠ k → m !! k' = m0 !! k') → net_ok (start s0).
Proof.
  intros [Ht Hev Ha Hm Hp] Hoth. apply tracks_pends in Ht as [Hlen Ht]. apply length_zero_iff_nil in Hlen. rewrite Hlen in Ht. simpl in Ht.
  split; try done; [apply init_inv|simpl; destruct Ht as [_ _ _ [? ?]]; simpl in *; lia|].
  exists b0. split; try done.
  - exists []. split; [|split; [done|]]; [|by intros ov ?%not_elem_of_nil].
    destruct Ht as [(r & Hr) Ho Hnd Hb]. split; try done. by exists r.
  - constructor.
  - by intros o ?%not_elem_of_nil.
  - left. by split.
  - by exists m.
Qed.

Lemma reach_ok x x' : rtc (net_step conv l n) x x' → net_ok x → net_ok x'.
Proof. induction 1 as [|x y z Hs _ IH]; [done|]. intros Hx. by eapply IH, net_step_ok. Qed.

(** *** What the invariant says of the persisted cursor *)
Lemma omap_private (evs : list (option (nat * option C))) : omap id (private_of <$> evs) = (omap id evs).*1.
Proof. induction evs as [|[[o v]|] evs IH]; [done|..]; cbn; by rewrite <-IH. Qed.

Lemma updates_split x : net_ok x →
  (omap id (events x)).*1 ≡ₚ omap id (data_of (delivered (ackr x))) ++ omap id (unseen (ackr x) ++ option_list (creating x)).
Proof.
  intros [Hi He _ _]. rewrite <-omap_private, He, <-(inv_unseen _ Hi), <-omap_app. by rewrite (assoc_L (++)).
Qed.

Lemma executed_event x o b : net_ok x → NoDup (omap id (events x)).*1 → (o, b) ∈ omap id (events x) →
  o ∉ omap id (unseen (ackr x) ++ option_list (creating x)) →
  ∃ i, events x !! i = Some (Some (o, b)) ∧ i < length (reported (ackr x)).
Proof.
  intros Hx Hnd Hin Hno. pose proof (updates_split x Hx) as Hsplit. destruct Hx as [(q & gone & m & t & Hi) He _ _].
  assert (Ho : o ∈ omap id (data_of (delivered (ackr x)))).
  { assert (Hoin : o ∈ (omap id (events x)).*1) by (by apply (list_elem_of_fmap_2 fst _ (o, b))).
    rewrite Hsplit in Hoin. by apply elem_of_app in Hoin as [?|?]. }
  apply list_elem_of_omap in Ho as ([?|] & Ho & [= ->]).
  assert (Hr : Some o ∈ reported (ackr x)) by (rewrite <-(inv_delivered _ _ _ _ _ Hi); apply elem_of_app; by left).
  apply list_elem_of_lookup in Hr as [i Hr]. exists i. split; [|by eapply lookup_lt_Some].
  assert (He' : (private_of <$> events x) !! i = Some (Some o)).
  { rewrite He, <-(inv_fifo _ _ _ _ _ Hi), <-(assoc_L (++)). by apply lookup_app_l_Some. }
  rewrite list_lookup_fmap in He'. destruct (events x !! i) as [[[o' v]|]|] eqn:Ei; simplify_eq/=.
  assert (Hv : (o, v) ∈ omap id (events x)) by (apply list_elem_of_omap; exists (Some (o, v)); split; [by eapply list_elem_of_lookup_2|done]).
  do 3 f_equal. apply list_elem_of_lookup in Hv as [j1 H1]. apply list_elem_of_lookup in Hin as [j2 H2].
  assert (j1 = j2) as -> by (apply (NoDup_lookup _ _ _ o Hnd); rewrite list_lookup_fmap; [by rewrite H1|by rewrite H2]).
  congruence.
Qed.

Lemma published_in_take {D} (h : list (D * bool)) i j : i ≤ j → published_in (take i h) ≤ published_in (take j h).
Proof.
  intros Hij. rewrite !published_in_sent, !fmap_take. replace i with (i `min` j) by lia. rewrite <-take_take. apply sent_events_take.
Qed.

(** A cursor that was ever written is that of an event up to which everything was acknowledged. *)
Lemma executed_acked x b : net_ok x → executed (omap id (events x)) (omap id (unseen (ackr x) ++ option_list (creating x))) b →
  ∃ i o, events x !! i = Some (Some (o, b)) ∧ published_in (take (S i) (history (ackr x))) ≤ acknowledged (ackr x).
Proof.
  intros Hx (o & Hin & Hno). pose proof Hx as [Hi _ _ [b' [_ Hnd _ _ _ _ _]]].
  destruct (executed_event x o b Hx Hnd Hin Hno) as (i & Hev & Hlt). exists i, o. split; [done|].
  etrans; [|by apply inv_never_early]. apply published_in_take. lia.
Qed.

Lemma net_writes acked x : follows conv s0 acked l k lk n b0 [] m0 → rtc (net_step conv l n) (start s0) x →
  persistentStore (cur x) = persistentStore s0 ∧
  writes (λ b, ∃ i o, events x !! i = Some (Some (o, b)) ∧ published_in (take (S i) (history (ackr x))) ≤ acknowledged (ackr x))
    (persistentStore s0) (persistent s0) (persistent (cur x)).
Proof.
  intros Hf Hreach. pose proof (reach_ok _ _ Hreach (start_ok acked m0 Hf (λ _ _, eq_refl))) as Hx.
  pose proof Hx as [_ _ _ [b [_ _ _ _ _ _ [Hps Hw]]]]. split; [done|]. eapply writes_mono; [|exact Hw].
  intros b'. by apply executed_acked.
Qed.
End invariant.

(** C4. The persisted cursor is that of an event up to which everything was
    acknowledged.  An input publishes events on a resource, with updates or without,
    the pipeline sends or drops them and acknowledges the sent ones, and the reports of
    the two goroutines reach the callback in either order.  In every state the document
    of the resource holds the cursor it had at the start, if no update was executed
    yet, or the update of an event such that all events sent up to it were
    acknowledged: a new start from there loses none that was not delivered.  Once
    everything sent is acknowledged and no call is in progress, it is the last update.
    Other documents are untouched, and no call panics. *)
Theorem persisted_cursor_was_acknowledged {R H X Ctr W U Rc L C E : Type}
    `{!Convert (state C) X, !Backend R H (state C) X, !BackendLaws R H (state C) X, !EqDecision H, !AtomicInt Ctr,
      !AtomicIntLaws Ctr, !SafeWaitGroup W, !SafeWaitGroupLaws W, !AtomicUint64 U, !AtomicUint64Laws U, !RefCount Rc,
      !Mutex L, !MutexLaws L} (conv : option C → option C → goerr + option C) (s : store R H Ctr W U Rc L C E)
    acked l k lk n b0 m0 x :
  (∀ c c' d, conv c (Some d) = conv c' (Some d)) → (∀ v, conv None None = inr v → v = None) →
  (∀ st : state C, ∃ x, convert_in st = inr x) →
  follows conv s acked l k lk n b0 [] m0 → rtc (net_step conv l n) (start s) x →
  let y := ackr x in
  private_of <$> events x = (history y).*1 ++ option_list (creating x) ∧
  (∃ b m, holds (persistent (cur x)) (persistentStore (cur x)) m ∧ persisted k b m ∧ (∀ k', k' ≠ k → m !! k' = m0 !! k') ∧
    ((b = b0 ∧ omap id (data_of (delivered y)) = []) ∨
     ∃ i o, events x !! i = Some (Some (o, b)) ∧ published_in (take (S i) (history y)) ≤ acknowledged y) ∧
    (quiet y → creating x = None → acknowledged y = published_in (history y) →
     b = default b0 (last (omap id (events x)).*2))) ∧
  ∀ lab y', step y lab y' → enabled lab (creating x) → ∃ r, react conv lab (creating x) (cur x) = Done r.
Proof.
  intros Hcomplete Hnil Htotal Hf Hreach y. subst y.
  pose proof (reach_ok conv Hcomplete Hnil Htotal l k lk n b0 m0 s _ _ Hreach
    (start_ok conv l k lk n b0 m0 s acked m0 Hf (λ _ _, eq_refl))) as Hx.
  split; [apply Hx|]. split.
  - pose proof (updates_split _ _ _ _ _ _ _ _ _ Hx) as Hsplit. pose proof Hx as [Hi _ _ [b [_ Hnd _ Hv Hn (m & Hm & Hp & Hoth) _]]].
    exists b, m. split_and!; try done.
    + destruct Hv as [[-> Hv]|Hex]; [|right; by eapply (executed_acked _ _ _ _ _ _ _ _ x b Hx)].
      left. split; [done|]. rewrite Hv in Hsplit. apply Permutation_length in Hsplit. rewrite length_app in Hsplit.
      apply length_zero_iff_nil. lia.
    + intros Hq Hc Hall. apply Hn. rewrite Hc, app_nil_r.
      pose proof (inv_complete _ Hi Hq Hall) as Hr. pose proof (inv_unseen _ Hi) as Hu. destruct Hi as (q & gone & t & t' & Hi).
      pose proof (inv_delivered _ _ _ _ _ Hi) as Hd. rewrite Hr in Hd. destruct Hq as [Hq1 Hq2].
      unfold ack_pending, prod_pending in Hd. rewrite Hq1, Hq2, !app_nil_r in Hd. rewrite Hd in Hu.
      apply Permutation_length in Hu. rewrite length_app in Hu. assert (unseen (ackr x) = []) as ->; [|done].
      apply length_zero_iff_nil. lia.
  - intros lab y' Hstep Hen. destruct (react_ok conv Hcomplete Htotal _ _ _ _ _ _ _ x lab y' Hx Hstep Hen) as (c' & s' & E0 & _). by eexists.
Qed.

(** ** Runs *)

(** One step of the ACKer, or a call of [Publish]. *)
Inductive move := MPublish (update : option string) (ts : Z) | MAcker (lab : label (option nat)) (y : sys (option nat)).

Section runs.
Context {R H X Ctr W U Rc L : Type} `{!Backend R H (state string) X, !AtomicInt Ctr, !SafeWaitGroup W,
  !AtomicUint64 U, !RefCount Rc, !Mutex L}.
Abbreviation net := (net R H Ctr W U Rc L string ()).

Definition run_move (mv : move) (x : net) : outcome net :=
  match mv with
  | MPublish d ts => r ← Publish replace 0 () None d ts None (cur x);
      let g := given (cur x) r.2 in Done (mkNet (ackr x) r.2 g (events x ++ given_update replace g d))
  | MAcker lab y => r ← react replace lab (creating x) (cur x); Done (mkNet y r.2 r.1 (events x))
  end.
Fixpoint run_moves (l : list move) (x : net) : outcome net :=
  match l with [] => Done x | mv :: l => x ← run_move mv x; run_moves l x end.

(** The moves are steps of the ACKer, *)
Fixpoint acker_moves (l : list move) (y : sys (option nat)) : Prop :=
  match l with
  | [] => True
  | MPublish _ _ :: l => producer y = ProdIdle ∧ acker_moves l y
  | MAcker lab y' :: l => step y lab y' ∧ acker_moves l y'
  end.

(** and the input can make its part of them. *)
Definition can_move (mv : move) (x : net) : bool :=
  match mv with
  | MPublish _ _ => bool_decide (creating x = None) && (1 + Z.of_nat (length (events x)) + 1 <? 2 ^ 64)%Z
  | MAcker (Append d _) _ => bool_decide (creating x = Some d)
  | MAcker _ _ => true
  end.
Fixpoint can_moves (l : list move) (x : net) : bool :=
  match l with
  | [] => true
  | mv :: l => can_move mv x && match run_move mv x with Done x => can_moves l x | _ => false end
  end.

Lemma run_move_step mv l x x' : run_move mv x = Done x' → can_move mv x = true → acker_moves (mv :: l) (ackr x) →
  net_step replace 0 1 x x' ∧ acker_moves l (ackr x').
Proof.
  destruct x as [y s c evs], mv as [d ts|lab y']; simpl.
  - intros ([r s'] & E0 & [= <-])%bind_Done_inv [->%bool_decide_eq_true Hb%Z.ltb_lt]%andb_prop [Hidle Hl].
    split; [by eapply net_publish|done].
  - intros ([c' s'] & E0 & [= <-])%bind_Done_inv Hc [Hs Hl]. split; [|done]. eapply net_acker; [done| |done].
    destruct lab; [by apply bool_decide_eq_true in Hc|done..].
Qed.

Lemma run_moves_reach l x : acker_moves l (ackr x) → can_moves l x = true →
  ∃ x', run_moves l x = Done x' ∧ rtc (net_step replace 0 1) x x'.
Proof.
  revert x. induction l as [|mv l IH]; intros x Hl; [by exists x|]. cbn [can_moves run_moves].
  intros [Hc Hr]%andb_prop. destruct (run_move mv x) as [x1| |] eqn:E; [|done..].
  destruct (run_move_step mv l x x1 E Hc Hl) as [Hs Hl1]. destruct (IH x1 Hl1 Hr) as (x' & E' & Hx').
  exists x'. split; [exact E'|by eapply rtc_l].
Qed.

Lemma acker_moves_app l1 l2 y : acker_moves (l1 ++ l2) y → acker_moves l1 y.
Proof. revert y. induction l1 as [|[d ts|lab y'] l1 IH]; intros y; [done|..]; simpl; intros [Hs Hl]; split; eauto. Qed.
End runs.

Lemma step_to {D} (y y1 y2 : sys D) lab : step y lab y1 → y1 = y2 → step y lab y2.
Proof. by intros ? <-. Qed.

(** Proves that the next move is a step of the ACKer, by the rule [R]. *)
Ltac by_rule R := split; [eapply step_to; [eapply R; first [exact I|lia|vm_compute; (reflexivity || lia)]|vm_compute; reflexivity]|].

(** *** A run in which reports overtake each other

    The first event is sent and acknowledged; before its report is delivered the second
    is dropped, reported and executed; a third one is published; then the report of the
    first arrives and the persisted cursor goes back, to an event that is acknowledged
    all the same. *)
#[local] Existing Instances doc_convert doc_backend doc_laws.
Definition doc_net : Type := net (MemoryStore (state string)) string Z (Z * bool) Z Z bool string ().
Definition doc_start : doc_store string :=
  match (r ← manager_lock "type::src" None; match r with inl _ => mret () | inr l => UpdateTTL l 10 4 end) (new_doc_store string) with
  | Done (_, s) => s
  | _ => new_doc_store string
  end.

Lemma doc_start_follows : ∃ m, follows replace doc_start 0 0 "type::src" true 1 None [] m.
Proof.
  destruct (start_follows replace doc_total (new_doc_store string) "type::src" None 10 4 ∅ eq_refl
    (opened_holds string)) as (s & m & E & Hf & _).
  assert (doc_start = s) as -> by (unfold doc_start; by rewrite E). by exists m.
Qed.

Definition gap (s d ev : Z) : Tracking.trackingACKer := Tracking.mkTracking {[ 0 := Tracking.mkGap None s d ]} 1 0 0 ev.
Definition ev_a : option nat * bool := (Some 0, true).
Definition ev_b : option nat * bool := (Some 1, false).
Definition first_acknowledged : list move := [
  MPublish (Some "a"%string) 5;
  MAcker (Append (Some 0) true) (mkSys (gap 0 0 0) [Some 0] (ProdAdd true) AckIdle [ev_a] [] [] 0);
  MAcker Silent (mkSys (gap 1 0 1) [Some 0] (ProdReport []) AckIdle [ev_a] [] [] 0);
  MAcker (Deliver []) (mkSys (gap 1 0 1) [Some 0] ProdIdle AckIdle [ev_a] [] [] 0);
  MAcker Silent (mkSys (gap 1 0 1) [Some 0] ProdIdle (AckLoop 1 1 0 false) [ev_a] [] [] 1);
  MAcker Silent (mkSys (gap 0 0 1) [Some 0] ProdIdle (AckLoop 1 0 1 true) [ev_a] [] [] 1);
  MAcker Silent (mkSys (gap 0 0 0) [Some 0] ProdIdle (AckTake 1 1) [ev_a] [] [] 1);
  MAcker Silent (mkSys (gap 0 0 0) [] ProdIdle (AckReport [(1%Z, [Some 0])]) [ev_a] [Some 0] [] 1)].
Definition second_dropped : list move := [
  MPublish (Some "b"%string) 6;
  MAcker (Append (Some 1) false) (mkSys (gap 0 0 0) [Some 1] (ProdAdd false) (AckReport [(1%Z, [Some 0])]) [ev_a; ev_b] [Some 0] [] 1);
  MAcker Silent (mkSys (gap 0 0 0) [] (ProdReport [(0%Z, [Some 1])]) (AckReport [(1%Z, [Some 0])]) [ev_a; ev_b] [Some 0; Some 1] [] 1);
  MAcker (Deliver [(0%Z, [Some 1])]) (mkSys (gap 0 0 0) [] ProdIdle (AckReport [(1%Z, [Some 0])]) [ev_a; ev_b] [Some 0; Some 1] [(0%Z, [Some 1])] 1)].
Definition first_reported : list move := [
  MPublish (Some "c"%string) 7;
  MAcker (Deliver [(1%Z, [Some 0])])
    (mkSys (gap 0 0 0) [] ProdIdle AckIdle [ev_a; ev_b] [Some 0; Some 1] [(0%Z, [Some 1]); (1%Z, [Some 0])] 1)].

(** What is persisted for the resource. *)
Definition saved_cursor (x : doc_net) : option string := resources (cur x) !! 0 ≫= cursor.

Definition overtaken : list move := first_acknowledged ++ second_dropped ++ first_reported.

Lemma overtaken_ok : acker_moves overtaken AckerConc.init.
Proof.
  unfold overtaken. cbn [first_acknowledged second_dropped first_reported app acker_moves].
  split; [done|]. by_rule @step_append. by_rule @step_add. by_rule @step_add_report. by_rule (@step_ack (option nat) 1).
  by_rule @step_iter. by_rule @step_loop_done. by_rule @step_take.
  split; [done|]. by_rule @step_append. by_rule @step_add. by_rule @step_add_report.
  split; [done|]. by_rule @step_report. exact I.
Qed.

(** The persisted cursor goes from the second event's back to the first's. *)
Lemma cursor_can_go_back : ∃ x x' : doc_net,
  rtc (net_step replace 0 1) (start doc_start) x ∧ saved_cursor x = Some "b"%string ∧
  rtc (net_step replace 0 1) (start doc_start) x' ∧ saved_cursor x' = Some "a"%string ∧ history (ackr x') = history (ackr x).
Proof.
  destruct (run_moves_reach (first_acknowledged ++ second_dropped) (start doc_start)) as (x & E1 & H1);
    [apply (acker_moves_app _ first_reported), overtaken_ok|vm_compute; reflexivity|].
  destruct (run_moves_reach overtaken (start doc_start)) as (x' & E2 & H2); [apply overtaken_ok|vm_compute; reflexivity|].
  exists x, x'. vm_compute in E1. injection E1 as <-. vm_compute in E2. injection E2 as <-. by split_and!.
Qed.

Lemma persisted_cursor_was_acknowledged_witness : ∃ x b m, rtc (net_step replace 0 1) (start doc_start) x ∧
  history (ackr x) = [ev_a; ev_b] ∧ persisted "type::src" b m ∧
  (b = None ∧ data_of (delivered (ackr x)) = [] ∨ ∃ i o, events x !! i = Some (Some (o, b)) ∧
    published_in (take (S i) (history (ackr x))) ≤ 1).
Proof.
  destruct doc_start_follows as [m0 Hf].
  destruct (run_moves_reach overtaken (start doc_start)) as (x & E & Hreach); [apply overtaken_ok|vm_compute; reflexivity|].
  destruct (persisted_cursor_was_acknowledged replace doc_start 0 0 "type::src" true 1 None m0 x)
    as (_ & (b & m & _ & Hp & _ & Hb & _) & _);
    [reflexivity|by intros v [= <-]|exact doc_total|exact Hf|exact Hreach|].
  assert (history (ackr x) = [ev_a; ev_b] ∧ acknowledged (ackr x) = 1 ∧ omap id (data_of (delivered (ackr x))) = [1; 0]) as (Hh & Ha & Hd).
  { vm_compute in E. injection E as <-. by split_and!. }
  exists x, b, m. split; [exact Hreach|]. split; [exact Hh|]. split; [exact Hp|].
  destruct Hb as [[_ Hb]|(i & o & He & Hi)]; [rewrite Hd in Hb; discriminate Hb|]. right. exists i, o. rewrite Ha in Hi. split; assumption.
Defined.
