(* ===== verification/MemlogBackend.v ===== *)
(** * memlog as a backend of the state store

    The registry of memlog with its stores, each with a directory of its own,
    as an instance of the interface [Backend], and the interface's laws: an
    open store is a finite map whatever I/O errors happen, and without I/O
    errors a store that is opened again, after [Close] or after the process was
    killed, has its table back. *)

From stdpp Require Import base gmap strings list fin_maps.
From Stdlib Require Import ZArith Lia.
From S2P Require Import Prelude GoValue Json Fs FsFacts Txid DiskData Diskstore Memlog.
From S2P Require Import LogFacts DiskFacts DiskSpec DiskInv DiskOps MemlogFacts Returns Durable Backend.

(** ** The backend *)
Section memlog_backend.
Context `{JsonEncoder} {V : Type} `{!TypeConv V} (iterate : table → list (string * entry)).

(** The registry, the directory of each name, and the stores, in the order they
    were opened, with their names; a pointer to a store is its index.
    [access_faults] and [store_faults] are the I/O errors to come, one script per
    [Access] and one per other call; [journal] is a history of the calls that
    reached the disk, with the errors each met. *)
Record call := mkCall { on : string; writes : option (command V); errors : list fault }.
Record state := mkState {
  registry : Registry.registry;
  dirs : gmap string world;
  stores : list (string * store);
  access_faults : list (list fault);
  store_faults : list (list fault);
  journal : list call
}.

Definition no_home : world := mkWorld HomeAbsent ∅ [].
Definition dir (r : state) (name : string) : world := default no_home (dirs r !! name).
Definition set_registry g r := mkState g (dirs r) (stores r) (access_faults r) (store_faults r) (journal r).
Definition set_dir name d r := mkState (registry r) (<[ name := d ]> (dirs r)) (stores r) (access_faults r) (store_faults r) (journal r).
Definition set_stores l r := mkState (registry r) (dirs r) l (access_faults r) (store_faults r) (journal r).
Definition set_access_faults l r := mkState (registry r) (dirs r) (stores r) l (store_faults r) (journal r).
Definition set_faults l r := mkState (registry r) (dirs r) (stores r) (access_faults r) l (journal r).
Definition record e r := mkState (registry r) (dirs r) (stores r) (access_faults r) (store_faults r) (journal r ++ [e]).

(** A computation in the directory of a name. *)
Definition in_dir {A} (name : string) (flts : list fault) (m : IO A) (r : state) : outcome (A * state) :=
  let d := dir r name in
  aw ← m (mkWorld (home_is d) (files d) flts);
  Done (aw.1, set_dir name (mkWorld (home_is aw.2) (files aw.2) []) r).

Definition Access_dir (name : string) (r : state) : outcome ((goerr + nat) * state) :=
  let flts := default [] (head (access_faults r)) in
  sr ← in_dir name flts (Registry.Access (registry r) name) r;
  let r := record (mkCall name None flts) (set_access_faults (drop 1 (access_faults r)) sr.2) in
  match sr.1 with
  | inl e => Done (inl e, r)
  | inr s => Done (inr (length (stores r)), set_stores (stores r ++ [(name, s)]) r)
  end.

(** A call on the store behind a pointer that reaches the disk. *)
Definition on_store {A} (h : nat) (c : option (command V)) (f : store → IO (A * store)) (r : state) : outcome (A * state) :=
  ns ← deref (stores r !! h);
  let flts := default [] (head (store_faults r)) in
  ar ← in_dir ns.1 flts (f ns.2) r;
  let r := record (mkCall ns.1 c flts) (set_faults (drop 1 (store_faults r)) ar.2) in
  Done (ar.1.1, set_stores (<[ h := (ns.1, ar.1.2) ]> (stores r)) r).
Definition write (h : nat) (c : command V) : state → outcome (option goerr * state) := on_store h (Some c) (exec iterate c).

Definition Close_registry (r : state) : outcome (option goerr * state) :=
  match Registry.Close (registry r) with
  | Some (err, g) => Done (err, set_registry g r)
  | None => Panic "all goroutines are asleep - deadlock!"
  end.

#[local] Instance entry_convert : Convert V entry := {
  convert_in v := match convert_to_map v with inl e => inl e | inr m => inr (mkEntry m) end;
  convert_out := Decode
}.

#[local] Instance memlog_backend : Backend state nat V entry := {
  access := Access_dir;
  close_registry := Close_registry;
  close_store h := on_store h None store_Close;
  has h k r := ns ← deref (stores r !! h); Done (inr (Has ns.2 k), r);
  get h k v r := ns ← deref (stores r !! h); Done (Get ns.2 k v, r);
  set h k v := write h (CSet k v);
  remove h k := write h (CRemove k);
  each S h fn x r :=
    ns ← deref (stores r !! h);
    ex ← Each iterate fn ns.2 x;
    Done (ex.1, ex.2, r)
}.

(** *** The view *)
Definition store_view (ns : string * store) : option (string * table) := t ← mtable (mem ns.2); Some (ns.1, t).
Definition memlog_view (r : state) (h : nat) : option (string * table) := stores r !! h ≫= store_view.

Lemma memlog_view_Some r h n t : memlog_view r h = Some (n, t) →
  ∃ s, stores r !! h = Some (n, s) ∧ mtable (mem s) = Some t.
Proof.
  unfold memlog_view, store_view. intros Hv. destruct (stores r !! h) as [[n' s]|]; [|done]. simpl in *.
  destruct (mtable (mem s)) eqn:E; simplify_eq/=; eauto.
Qed.

Lemma memlog_view_insert r h ns ns' h' : stores r !! h = Some ns →
  memlog_view (set_stores (<[ h := ns' ]> (stores r)) r) h' = if decide (h' = h) then store_view ns' else memlog_view r h'.
Proof.
  intros Hh. unfold memlog_view. simpl. case_decide as Hne; [subst h'; rewrite list_lookup_insert_eq; [done|]|by rewrite list_lookup_insert_ne].
  by eapply lookup_lt_Some.
Qed.

(** *** The memory of a store *)
Lemma logOperation_mem o s w r w' : logOperation iterate o s w = Done (r, w') → mem r.2 = mem s.
Proof.
  unfold logOperation. intros E. destruct (mustCheckpoint (disk s)); unfold mbind, io_bind, mret, io_ret in E.
  - destruct (WriteCheckpoint _ _ _ _) as [[[[e|] d] w1]| |]; [|by simplify_eq/=|done..].
    destruct (LogOperation _ _ _) as [[[]]| |]; by simplify_eq/=.
  - destruct (LogOperation _ _ _) as [[[]]| |]; by simplify_eq/=.
Qed.

Lemma exec_mem c s M w r w' : mtable (mem s) = Some M → exec iterate c s w = Done (r, w') →
  mtable (mem r.2) = Some (spec_command c M) ∧
  match c with CSet _ v => ∀ e, convert_to_map v = inl e → r.1 = Some e | _ => True end.
Proof.
  intros Hm E. destruct c as [k v|k|]; simpl in *.
  - unfold store_Set in E. destruct (convert_to_map v) as [e|m].
    { injection E as <- _. split; [done|]. by intros e' [= <-]. }
    unfold mem_Set in E. rewrite Hm in E. unfold mbind, io_bind, mret, io_ret, io_lift in E.
    apply logOperation_mem in E. by rewrite E.
  - unfold store_Remove in E. apply logOperation_mem in E. rewrite E. simpl. split; [|done]. by apply mem_Remove_mtable.
  - unfold Checkpoint, mbind, io_bind, mret, io_ret in E. rewrite Hm in E.
    by destruct (WriteCheckpoint _ _ _ _) as [[[]]| |]; simplify_eq/=.
Qed.

Lemma exec_returns c s : is_Some (mtable (mem s)) → returns (exec iterate c s).
Proof. destruct c; [apply returns_store_Set|intros _; apply returns_store_Remove|intros _; apply returns_Checkpoint]. Qed.

Lemma in_dir_eq {A} n flts (m : IO A) r a w : m (mkWorld (home_is (dir r n)) (files (dir r n)) flts) = Done (a, w) →
  in_dir n flts m r = Done (a, set_dir n (mkWorld (home_is w) (files w) []) r).
Proof. intros E. unfold in_dir. by rewrite E. Qed.

(** The process is killed, and a new one starts with the same settings. *)
Definition restart (r : state) : state :=
  mkState (Registry.mkRegistry true (Registry.settings (registry r)) 0) (dirs r) [] [] [] (journal r).
End memlog_backend.
Arguments state : clear implicits.
Arguments call : clear implicits.

(** *** What an opened store has in memory *)
Definition yields {A} (m : IO A) (Q : A → Prop) : Prop := ∀ w a w', m w = Done (a, w') → Q a.

Lemma yields_any {A} (m : IO A) : yields m (λ _, True).
Proof. by intros w a w'. Qed.
Lemma yields_ret {A} (a : A) (Q : A → Prop) : Q a → yields (mret a) Q.
Proof. intros Ha w a' w' [= <- _]. done. Qed.
Lemma yields_bind {A B} (m : IO A) (f : A → IO B) (P : A → Prop) (Q : B → Prop) :
  yields m P → (∀ a, P a → yields (f a) Q) → yields (m ≫= f) Q.
Proof.
  intros Hm Hf w b w' E. unfold mbind, io_bind in E. destruct (m w) as [[a w1]| |] eqn:Em; [|done..].
  by eapply Hf; [eapply Hm|].
Qed.

(** The results of [openStore] and its parts that matter. *)
Definition on_success {A} (Q : A → Prop) (r : goerr + A) : Prop := match r with inl _ => True | inr a => Q a end.
Lemma yields_err_bind {A B} (m : IO (goerr + A)) (k : A → IO (goerr + B)) (Q : B → Prop) :
  (∀ a, yields (k a) (on_success Q)) → yields (err_bind m k) (on_success Q).
Proof. intros Hk. eapply yields_bind; [apply yields_any|]. intros [e|a] _; [by apply yields_ret|apply Hk]. Qed.
Lemma yields_err_then {B} (m : IO (option goerr)) (k : IO (goerr + B)) (Q : B → Prop) :
  yields k (on_success Q) → yields (err_then m k) (on_success Q).
Proof. intros Hk. eapply yields_bind; [apply yields_any|]. intros [e|] _; [by apply yields_ret|done]. Qed.

Lemma feed_mem recs tl t a n : ∃ err t' st, feed apply_entry recs tl (mkMem (Some t), a, n) = Done (err, (mkMem (Some t'), st.1, st.2)).
Proof. destruct (feed_returns recs tl t a n) as (err & t' & a' & n' & ->). by exists err, t', (a', n'). Qed.

Lemma loadLogFile_mem t a : yields (loadLogFile (mkMem (Some t)) a) (λ r, is_Some (mtable r.2.1.1)).
Proof.
  assert (Hread : ∀ b, yields (io_lift (readLog_loop apply_entry (S (length b)) b (mkMem (Some t), a, 0%Z)))
    (λ r, is_Some (mtable r.2.1.1))).
  { intros b. destruct (reads_total b) as (recs & tl & Hr). rewrite (readLog_loop_reads _ _ _ _ _ _ Hr) by lia.
    destruct (feed_mem recs tl t a 0) as (err & t' & st & ->). intros w r w' [= <- _]. by eexists. }
  unfold loadLogFile, readLogFile. eapply yields_bind; [apply yields_any|]. intros [e|b] _.
  - destruct (isNotExist (Some e)); [apply yields_ret; by eexists|apply (Hread [])].
  - eapply yields_bind; [apply yields_any|]. intros _ _. apply Hread.
Qed.

Lemma openStore_mem `{JsonEncoder} home mode bufSz ignore pred :
  yields (openStore home mode bufSz ignore pred) (on_success (λ s, is_Some (mtable (mem s)))).
Proof.
  unfold openStore, open_files. apply yields_err_bind. intros _. apply yields_err_bind. intros _.
  eapply yields_bind; [apply yields_any|]. intros err _. apply yields_err_then. apply yields_err_bind. intros infos.
  apply yields_err_then. eapply yields_bind; [apply yields_any|]. intros err' _. apply yields_err_then.
  apply yields_err_bind. intros [tbl tx]. eapply yields_bind; [apply loadLogFile_mem|].
  intros [err'' [[m tx'] n]] Hm. apply yields_err_bind. intros d. by apply yields_ret.
Qed.

(** *** The writer of the log has not failed *)
Definition disk_clean (d : diskstore) : Prop := ∀ b, logFile d = Some b → Bufio.werr b = None.

Lemma disk_ok_clean d M fs D : disk_ok d M fs D → logInvalid d = false → disk_clean d.
Proof.
  intros (name & a & B & recs & tl & t & Hi) Hv b Hb. destruct (inv_valid _ _ _ _ _ _ _ _ _ _ Hi Hv) as (_ & _ & Hlog).
  destruct (logNeedsTruncate d) eqn:Ht; [destruct (inv_truncate _ _ _ _ _ _ _ _ _ _ Hi Ht); congruence|].
  by eapply (Hlog eq_refl).
Qed.

Section clean.
Context `{JsonEncoder}.

Lemma tryOpenLog_yields d : yields (tryOpenLog d) (λ r, (disk_clean d → disk_clean r.2) ∧ logInvalid r.2 = logInvalid d).
Proof.
  unfold tryOpenLog. eapply yields_bind; [apply yields_any|]. intros [e|f] _; [by apply yields_ret|].
  eapply yields_bind; [apply yields_any|]. intros [e|f'] _; [eapply yields_bind; [apply yields_any|]; intros ? _; by apply yields_ret|].
  eapply yields_bind; [apply yields_any|]. intros [e|[size entries]] _;
    [eapply yields_bind; [apply yields_any|]; intros ? _; by apply yields_ret|].
  apply yields_ret. split; [|done]. by intros _ b [= <-].
Qed.

Lemma newDiskStore_clean home l t mode entries invalid bufSize pred :
  yields (newDiskStore home l t mode entries invalid bufSize pred) (on_success disk_clean).
Proof.
  unfold newDiskStore. set (s := mkDisk _ _ _ _ _ _ _ _ _ _ _ _). assert (Hs : disk_clean s) by done. clearbody s.
  assert (Hopen : yields (r ← tryOpenLog s; mret (inr r.2)) (on_success disk_clean)).
  { eapply yields_bind; [apply tryOpenLog_yields|]. intros r [Hr _]. apply yields_ret. by apply Hr. }
  eapply yields_bind; [apply yields_any|]. intros err _. eapply yields_bind; [apply yields_any|].
  intros [e|] _; [by apply yields_ret|]. eapply yields_bind; [apply yields_any|]. intros [e'|] _; [|exact Hopen].
  destruct (isNotExist (Some e')); [exact Hopen|by apply yields_ret].
Qed.

Lemma openStore_clean home mode bufSz ignore pred :
  yields (openStore home mode bufSz ignore pred) (on_success (λ s, disk_clean (disk s))).
Proof.
  unfold openStore, open_files. apply yields_err_bind. intros _. apply yields_err_bind. intros _.
  eapply yields_bind; [apply yields_any|]. intros err _. apply yields_err_then. apply yields_err_bind. intros infos.
  apply yields_err_then. eapply yields_bind; [apply yields_any|]. intros err' _. apply yields_err_then.
  apply yields_err_bind. intros [tbl tx]. eapply yields_bind; [apply yields_any|].
  intros [err'' [[m tx'] n]] _. eapply yields_bind; [apply newDiskStore_clean|]. intros [e|d] Hd; by apply yields_ret.
Qed.

Lemma LogOperation_valid o d : yields (LogOperation o d) (λ r, r.1 = None → logInvalid r.2 = false).
Proof.
  unfold LogOperation. destruct (logInvalid d) eqn:Hv; [by apply yields_ret|].
  eapply (yields_bind _ _ (λ r, logInvalid r.2 = false)).
  { destruct (logFile d); [by apply yields_ret|]. intros w r w' E. rewrite <- Hv. by apply (tryOpenLog_yields d w r w'). }
  intros [[e|] d'] Hd; simpl in Hd; [by apply yields_ret|]. destruct (logFile d') as [b|]; [|done].
  eapply yields_bind; [apply yields_any|]. intros [[e|] [n b']] _; by apply yields_ret.
Qed.

Lemma checkpointClearLog_clean d : disk_clean d → yields (checkpointClearLog d) disk_clean.
Proof.
  intros Hd. unfold checkpointClearLog. destruct (logFile d) as [b|] eqn:Hb; [|apply yields_ret; intros b; simpl; by rewrite Hb].
  do 2 (eapply yields_bind; [apply yields_any|]; intros ? _). case_match.
  - eapply yields_bind; [apply yields_any|]. intros ? _. by apply yields_ret.
  - apply yields_ret. intros b' [= <-]. exact (Hd b Hb).
Qed.

Lemma WriteCheckpoint_clean iterate M d : disk_clean d → yields (WriteCheckpoint iterate M d) (λ r, disk_clean r.2).
Proof.
  intros Hd. unfold WriteCheckpoint. eapply yields_bind; [apply yields_any|]. intros [e|n] _; [by apply yields_ret|].
  eapply yields_bind; [apply yields_any|]. intros [e|] _; [eapply yields_bind; [apply yields_any|]; intros ? _; by apply yields_ret|].
  eapply yields_bind; [apply yields_any|]. intros _ _. eapply yields_bind; [by apply checkpointClearLog_clean|]. intros d' Hd'.
  eapply yields_bind; [apply yields_any|]. intros ? _. eapply (yields_bind _ _ disk_clean).
  { unfold removeOldDataFiles. eapply yields_bind; [apply yields_any|]. intros l _. by apply yields_ret. }
  intros d2 Hd2. do 2 (eapply yields_bind; [apply yields_any|]; intros ? _). by apply yields_ret.
Qed.

Lemma logOperation_clean iterate o s : disk_clean (disk s) →
  yields (logOperation iterate o s) (λ r, r.1 = None → disk_clean (disk r.2) ∨ logInvalid (disk r.2) = false).
Proof.
  intros Hs. unfold logOperation. destruct (mustCheckpoint (disk s)).
  - eapply yields_bind; [by apply WriteCheckpoint_clean|]. intros [[e|] d] Hd; [|apply yields_ret; by left].
    eapply yields_bind; [apply yields_any|]. intros ? _. by apply yields_ret.
  - eapply yields_bind; [apply LogOperation_valid|]. intros r Hr. apply yields_ret. intros He. right. by apply Hr.
Qed.
End clean.

(** ** The backend's promises *)
Section laws.
Context `{EncoderLaws storable storable_key} {V : Type} `{!TypeConv V}.
Context (iterate : table → list (string * entry)) (Hiterate : ∀ t, iterate t ≡ₚ map_to_list t).
Abbreviation state := (state V).
#[local] Existing Instances entry_convert memlog_backend.

(** Everything written could be encoded, and the transaction IDs have not wrapped
    around.  The calls may have met any errors. *)
Definition call_writable (c : call V) : Prop :=
  match writes c with Some c => command_storable (storable := storable) (storable_key := storable_key) c | None => True end.
Definition writable (r : state) : Prop :=
  Forall call_writable (journal r) ∧ (Z.of_nat (length (journal r)) + 2 < 2 ^ 63 - 1)%Z.

(** And no call met an I/O error. *)
Definition call_ok (c : call V) : Prop := errors c = [] ∧ call_writable c.
Definition reliable (r : state) : Prop :=
  Forall call_ok (journal r) ∧ (Z.of_nat (length (journal r)) + 2 < 2 ^ 63 - 1)%Z.

(** What holds of the directory of a name: one open store is in sync with it, or
    no store is open and it can be opened. *)
Inductive dir_good (r : state) (n : string) : Prop :=
| good_open h s M :
    stores r !! h = Some (n, s) → store_ok (storable := storable) s M (files (dir r n)) (json_table M) →
    home_is (dir r n) = HomeDir → faults (dir r n) = [] → all_regular (files (dir r n)) →
    (nextTxID (disk s) ≤ Z.of_nat (length (journal r)) + 1)%Z → disk_clean (disk s) →
    (∀ h' M', memlog_view r h' = Some (n, M') → h' = h) → dir_good r n
| good_closed T t :
    (∀ h M, memlog_view r h ≠ Some (n, M)) → openable (dir r n) T t → table_storable (storable := storable) T →
    (t ≤ Z.of_nat (length (journal r)) + 1)%Z → dir_good r n.

(** [os.Stat] of a home directory must not fail. *)
Definition stat_ok (l : list fault) : Prop := ∀ n e l', l = FFail n e :: l' → e = ENOENT.
Definition memlog_ok (r : state) : Prop :=
  is_Some (Registry.CheckpointPred (Registry.settings (registry r))) ∧ Forall stat_ok (access_faults r) ∧
  (reliable r → ∀ n, dir_good r n).

Lemma dir_good_frame r r' n : dir r' n = dir r n →
  (∀ h s, stores r' !! h = Some (n, s) ↔ stores r !! h = Some (n, s)) → length (journal r) ≤ length (journal r') →
  dir_good r n → dir_good r' n.
Proof.
  intros Hd Hs Hl.
  assert (Hv : ∀ h M, memlog_view r' h = Some (n, M) → memlog_view r h = Some (n, M)).
  { intros h M (s & Hh & Hm)%memlog_view_Some. apply Hs in Hh. unfold memlog_view. rewrite Hh. simpl.
    unfold store_view. simpl. by rewrite Hm. }
  intros [h s M Hh Hok Hhome Hfl Hreg Hid Hcl Huniq|T t Hno Hop Hst Ht].
  - eapply (good_open _ _ h s M); rewrite ?Hd; try done; [by apply Hs|lia|]. intros h' M' Hv'%Hv. eauto.
  - eapply (good_closed _ _ T t); rewrite ?Hd; try done; [|lia]. intros h M Hv'%Hv. by eapply Hno.
Qed.

Lemma good_view r n h M : dir_good r n → memlog_view r h = Some (n, M) → ∃ s,
  stores r !! h = Some (n, s) ∧ store_ok (storable := storable) s M (files (dir r n)) (json_table M) ∧
  home_is (dir r n) = HomeDir ∧ faults (dir r n) = [] ∧ all_regular (files (dir r n)) ∧
  (nextTxID (disk s) ≤ Z.of_nat (length (journal r)) + 1)%Z ∧ disk_clean (disk s) ∧ ∀ h' M', memlog_view r h' = Some (n, M') → h' = h.
Proof.
  intros [h0 s M0 Hh Hok Hhome Hfl Hreg Hid Hcl Huniq|T t Hno Hop Hst Ht] Hv; [|by destruct (Hno h M)].
  pose proof (Huniq h M Hv) as <-. apply memlog_view_Some in Hv as (s' & Hh' & Hm).
  rewrite Hh in Hh'. injection Hh' as <-. destruct Hok as (Hm' & Hst & Hdk). simplify_eq. exists s. by split_and!.
Qed.

Lemma dir_set n n' d r : dir (set_dir n d r) n' = if decide (n' = n) then d else @dir V r n'.
Proof.
  unfold dir. simpl. case_decide as Hn; [subst; by rewrite lookup_insert_eq|by rewrite lookup_insert_ne].
Qed.

(** The state after a call on a store, and its view. *)
Definition called (h : nat) (n : string) (c : option (command V)) (s : store) (d : world) (r : state) : state :=
  set_stores (<[ h := (n, s) ]> (stores r)) (record (mkCall n c (default [] (head (store_faults r))))
    (set_faults (drop 1 (store_faults r)) (set_dir n d r))).

Lemma on_store_eq {A} h c (f : store → IO (A * store)) r n s : stores r !! h = Some (n, s) → returns (f s) →
  ∃ a s' w, f s (mkWorld (home_is (dir r n)) (files (dir r n)) (default [] (head (store_faults r)))) = Done ((a, s'), w) ∧
    on_store h c f r = Done (a, called h n c s' (mkWorld (home_is w) (files w) []) r).
Proof.
  intros Hh Hf. destruct (Hf (mkWorld (home_is (dir r n)) (files (dir r n)) (default [] (head (store_faults r)))))
    as ([a s'] & w & E). exists a, s', w. split; [done|]. unfold on_store. rewrite Hh. cbn [deref mbind outcome_bind].
  cbn [fst snd]. by rewrite (in_dir_eq _ _ _ _ _ _ E).
Qed.

Lemma called_view h n c s s0 d r h' : stores r !! h = Some (n, s0) →
  memlog_view (called h n c s d r) h' = if decide (h' = h) then store_view (n, s) else memlog_view r h'.
Proof.
  intros Hh. unfold called.
  exact (memlog_view_insert (record _ (set_faults (drop 1 (store_faults r)) (set_dir n d r))) h (n, s0) (n, s) h' Hh).
Qed.

Lemma called_dir h n c s d r n' : dir (called h n c s d r) n' = if decide (n' = n) then d else dir r n'.
Proof. exact (dir_set n n' d r). Qed.

Lemma called_frame h n c s s0 d r n' : stores r !! h = Some (n, s0) → n' ≠ n →
  dir_good r n' → dir_good (called h n c s d r) n'.
Proof.
  intros Hh Hn. apply dir_good_frame; [|intros h' s'; simpl|simpl; rewrite length_app; lia].
  - by rewrite called_dir, decide_False.
  - destruct (decide (h' = h)) as [->|Hne]; [|by rewrite list_lookup_insert_ne].
    rewrite list_lookup_insert_eq by (by eapply lookup_lt_Some). rewrite Hh. split; congruence.
Qed.

Lemma called_reliable h n c s d r : reliable (called h n c s d r) → reliable r ∧ default [] (head (store_faults r)) = [] ∧
  call_ok (mkCall n c []).
Proof.
  intros [Hall Hlen]. simpl in Hall, Hlen. rewrite length_app in Hlen. simpl in Hlen.
  apply Forall_app in Hall as [Hall [Hc _]%Forall_cons]. destruct Hc as [Hf Hc]. simpl in Hf, Hc. split; [split; [done|lia]|]. by split.
Qed.

(** A call that leaves the directory good keeps the invariant. *)
Lemma called_ok h n c s s0 d r : stores r !! h = Some (n, s0) → memlog_ok r →
  (reliable r → default [] (head (store_faults r)) = [] → call_ok (mkCall n c []) → dir_good (called h n c s d r) n) →
  memlog_ok (called h n c s d r).
Proof.
  intros Hh (Hp & Hstat & Hgood) Hd. split_and!; [done|done|]. intros Hrel n'.
  destruct (called_reliable _ _ _ _ _ _ Hrel) as (Hrel0 & Hf & Hc).
  destruct (decide (n' = n)) as [->|Hne]; [auto|]. eapply called_frame; eauto.
Qed.

(** *** Writes *)
Lemma exec_clean c s w err s' w' M fs D : exec iterate c s w = Done ((err, s'), w') → disk_clean (disk s) →
  store_ok (storable := storable) s' M fs D → err = command_error c → disk_clean (disk s').
Proof.
  intros E Hcl (_ & _ & Hdk) He.
  assert (Hlog : ∀ o s0, disk s0 = disk s → logOperation iterate o s0 w = Done ((err, s'), w') → err = None → disk_clean (disk s')).
  { intros o s0 Hs0 E0 He0. rewrite <- Hs0 in Hcl. destruct (logOperation_clean iterate o s0 Hcl w _ w' E0 He0) as [?|Hv]; [done|].
    by eapply disk_ok_clean. }
  destruct c as [k v|k|]; simpl in *.
  - unfold store_Set in E. destruct (convert_to_map v) as [e|m]; [by injection E as _ <- _|].
    unfold mem_Set in E. destruct (mtable (mem s)); [|done]. by apply (Hlog (opSet k m) (mkStore (disk s) (mkMem (Some (<[k:=mkEntry m]> g))))).
  - by apply (Hlog (opRemove k) (mkStore (disk s) (mem_Remove k (mem s)).2)).
  - unfold Checkpoint, mbind, io_bind, mret, io_ret in E.
    destruct (WriteCheckpoint iterate (default ∅ (mtable (mem s))) (disk s) w) as [[[e d] w1]| |] eqn:Ew; [|done..].
    injection E as <- <- <-. by apply (WriteCheckpoint_clean iterate _ _ Hcl w _ w1 Ew).
Qed.

Lemma write_ok r h n M c : memlog_ok r → memlog_view r h = Some (n, M) →
  ∃ err r', write iterate h c r = Done (err, r') ∧ memlog_ok r' ∧ memlog_view r' h = Some (n, spec_command c M) ∧
    (∀ h', h' ≠ h → memlog_view r' h' = memlog_view r h') ∧
    match c with CSet _ v => ∀ e, convert_to_map v = inl e → err = Some e | _ => True end ∧
    (reliable r' → err = command_error c) ∧ registry r' = registry r.
Proof.
  intros Hok Hv. pose proof (memlog_view_Some _ _ _ _ Hv) as (s & Hh & Hm).
  destruct (on_store_eq h (Some c) (exec iterate c) r n s Hh) as (err & s' & w & E & Ew); [apply exec_returns; eauto|].
  destruct (exec_mem iterate c s M _ _ _ Hm E) as [Hm' Herr]. set (r' := called h n (Some c) s' _ r) in *.
  assert (Hquiet : reliable r → default [] (head (store_faults r)) = [] → call_ok (mkCall n (Some c) []) →
    err = command_error c ∧ dir_good r' n).
  { intros Hrel Hf [_ Hc].
    destruct (good_view r n h M (proj2 (proj2 Hok) Hrel n) Hv) as (s1 & Hh1 & Hst & Hhome & Hfl & Hreg & Hid & Hcl & Huniq).
    rewrite Hh in Hh1. injection Hh1 as <-. destruct Hrel as [_ Hlen].
    destruct (spec_exec iterate Hiterate true c s M (files (dir r n)) (json_table M) Hst Hc ltac:(lia) Hreg
      (mkWorld (home_is (dir r n)) (files (dir r n)) []) eq_refl) as ([err1 s1] & w1 & E1 & (D' & Hst' & _ & Hid' & Hq) & Hhome1 & Hl1 & Hreg1); [done|].
    rewrite Hf, E1 in E. injection E as <- <- <-. destruct (Hq eq_refl) as [He HD]. rewrite (HD eq_refl) in Hst'. simpl in *. split; [done|].
    eapply (good_open _ _ h s1); unfold r'; rewrite ?called_dir, ?decide_True by done; simpl; [|exact Hst'|congruence|done|by apply Hreg1| |by eapply exec_clean|].
    + apply list_lookup_insert_eq. by eapply lookup_lt_Some.
    + rewrite length_app. simpl. lia.
    + intros h' M'. erewrite called_view by done. case_decide; [done|]. by intros ?%Huniq. }
  exists err, r'. split; [exact Ew|]. split; [|split; [|split; [|split; [done|split; [|done]]]]].
  - eapply called_ok; [done..|]. intros Hrel Hf Hc. by apply Hquiet.
  - unfold r'. erewrite called_view, decide_True by done. unfold store_view. simpl in *. by rewrite Hm'.
  - intros h' Hne. unfold r'. by erewrite called_view, decide_False.
  - intros (Hrel & Hf & Hc)%called_reliable. by apply Hquiet.
Qed.

(** *** Closing *)
Lemma quiet_Close d M fs D : disk_ok d M fs D → disk_clean d → spec true (Diskstore.Close d) fs (λ r fs', fs' = fs ∧ r.1 = None).
Proof.
  intros (name & a & B & recs & tl & t & Hi) Hcl. unfold Diskstore.Close. destruct (logFile d) as [b|] eqn:Hb; [|by apply spec_ret].
  destruct (inv_handle _ _ _ _ _ _ _ _ _ _ Hi b Hb) as (_ & _ & _ & Hbuf). specialize (Hcl b Hb).
  eapply (spec_bind _ _ _ _ (λ r fs', fs' = fs ∧ r.1 = None)).
  { unfold Bufio.Flush. rewrite Hcl, decide_True by auto. by apply spec_ret. }
  intros [err b'] ? [-> He]. simpl in He. subst err. simpl. eapply (spec_bind _ _ _ _ (λ r fs', fs' = fs ∧ r = None)).
  { eapply spec_mono; [apply UtilFacts.spec_syncFile|]. intros ? ? [-> [->|[? _]]]; done. }
  intros err' ? [-> ->]. spec_step spec_file_call. intros ? ? [-> _]. by apply spec_ret.
Qed.

(** What a name that is not open opens with. *)
Definition saved (r : state) (n : string) (T : table) : Prop :=
  table_storable (storable := storable) T ∧ ∃ t, openable (dir r n) T t ∧ (t ≤ Z.of_nat (length (journal r)) + 1)%Z.

Lemma memlog_close_ok r h n M : memlog_ok r → memlog_view r h = Some (n, M) →
  ∃ err r', on_store h None store_Close r = Done (err, r') ∧ memlog_ok r' ∧ memlog_view r' h = None ∧
    (∀ h', h' ≠ h → memlog_view r' h' = memlog_view r h') ∧
    (reliable r' → err = None ∧ saved r' n (json_table M)) ∧ registry r' = registry r.
Proof.
  intros Hok Hv. pose proof (memlog_view_Some _ _ _ _ Hv) as (s & Hh & Hm).
  destruct (on_store_eq h None store_Close r n s Hh) as (err & s' & w & E & Ew); [apply returns_store_Close|].
  assert (Hm' : mtable (mem s') = None).
  { unfold store_Close, mbind, io_bind, mret, io_ret in E. destruct (Diskstore.Close _ _) as [[]| |]; by simplify_eq/=. }
  set (r' := called h n None s' _ r) in *.
  assert (Hv' : ∀ h', memlog_view r' h' = if decide (h' = h) then None else memlog_view r h').
  { intros h'. unfold r'. erewrite called_view by done. unfold store_view. simpl. by rewrite Hm'. }
  assert (Hquiet : reliable r → default [] (head (store_faults r)) = [] →
    err = None ∧ saved r' n (json_table M) ∧ ∀ h' M', memlog_view r' h' ≠ Some (n, M')).
  { intros Hrel Hf.
    destruct (good_view r n h M (proj2 (proj2 Hok) Hrel n) Hv) as (s1 & Hh1 & (_ & Hst & Hdk) & Hhome & Hfl & Hreg & Hid & Hcl & Huniq).
    rewrite Hh in Hh1. injection Hh1 as <-.
    destruct (quiet_Close _ _ _ _ Hdk Hcl (mkWorld (home_is (dir r n)) (files (dir r n)) []) eq_refl (λ _, eq_refl))
      as ([e1 d1] & w1 & E1 & [Hfs He1] & Hh1 & _). simpl in Hh1, He1.
    rewrite Hf in E. unfold store_Close, mbind, io_bind, mret, io_ret in E. rewrite E1 in E. injection E as <- _ <-.
    destruct (disk_ok_dir_ok _ _ _ _ Hdk) as (t & Hd & Ht). split; [done|]. split; [split|].
    - by apply json_table_storable.
    - exists t. unfold r'. rewrite called_dir, decide_True, Hfs, Hh1, Hhome by done. split; [by apply openable_dir|].
      simpl. rewrite length_app. simpl. lia.
    - intros h' M'. rewrite Hv'. case_decide; [done|]. by intros ?%Huniq. }
  exists err, r'. split; [exact Ew|].
  split; [|split; [by rewrite Hv', decide_True|split; [intros h' Hne; by rewrite Hv', decide_False|split; [|done]]]].
  - eapply called_ok; [done..|]. intros Hrel Hf _. destruct (Hquiet Hrel Hf) as (_ & [Hst (t & Hop & Ht)] & Hno).
    by eapply (good_closed _ _ (json_table M) t).
  - intros (Hrel & Hf & _)%called_reliable. destruct (Hquiet Hrel Hf) as (? & ? & _). done.
Qed.

(** *** Opening *)
Definition accessed (n : string) (d : world) (l : list (string * store)) (r : state) : state :=
  set_stores (stores r ++ l) (record (mkCall n None (default [] (head (access_faults r))))
    (set_access_faults (drop 1 (access_faults r)) (set_dir n d r))).

Lemma accessed_old n d l r h : h < length (stores r) → memlog_view (accessed n d l r) h = memlog_view r h.
Proof. intros Hl. unfold memlog_view. simpl. by rewrite lookup_app_l. Qed.

Lemma accessed_view n d l r h : memlog_view (accessed n d l r) h =
  if decide (h < length (stores r)) then memlog_view r h else l !! (h - length (stores r)) ≫= store_view.
Proof.
  case_decide; [by apply accessed_old|]. unfold memlog_view. simpl. by rewrite lookup_app_r by lia.
Qed.

Lemma view_beyond (r : state) h : length (stores r) ≤ h → memlog_view r h = None.
Proof. intros Hl. unfold memlog_view. by rewrite lookup_ge_None_2. Qed.

Lemma accessed_frame n d l r n' : n' ≠ n → Forall (λ ns, ns.1 = n) l → dir_good r n' → dir_good (accessed n d l r) n'.
Proof.
  intros Hne Hl. apply dir_good_frame; [|intros h s; simpl|simpl; rewrite length_app; lia].
  - change (dir (set_dir n d r) n' = dir r n'). by rewrite dir_set, decide_False.
  - destruct (decide (h < length (stores r))); [by rewrite lookup_app_l|].
    rewrite lookup_app_r by lia. rewrite (lookup_ge_None_2 (stores r)) by lia. split; [|done].
    intros Hs. pose proof (proj1 (Forall_lookup _ _) Hl _ _ Hs) as Hs'. simpl in Hs'. congruence.
Qed.

Lemma accessed_ok n d l r : memlog_ok r → Forall (λ ns, ns.1 = n) l →
  (reliable r → default [] (head (access_faults r)) = [] → dir_good (accessed n d l r) n) → memlog_ok (accessed n d l r).
Proof.
  intros (Hp & Hstat & Hgood) Hl Hd. split_and!; [done|by apply Forall_drop|]. intros [Hall Hlen] n'. simpl in Hall, Hlen.
  rewrite length_app in Hlen. simpl in Hlen. apply Forall_app in Hall as [Hall [[Hf _] _]%Forall_cons].
  assert (Hrel : reliable r) by (split; [done|lia]).
  destruct (decide (n' = n)) as [->|Hne]; [auto|]. apply accessed_frame; auto.
Qed.

Lemma Access_returns n r : memlog_ok r → ∃ res w,
  Registry.Access (registry r) n (mkWorld (home_is (dir r n)) (files (dir r n)) (default [] (head (access_faults r)))) = Done (res, w) ∧
  on_success (λ s, is_Some (mtable (mem s))) res.
Proof.
  intros ([pred Hp] & Hstat & _). unfold Registry.Access. destruct (Registry.active (registry r)); [|by eexists _, _].
  rewrite Hp. edestruct returns_openStore as (res & w & E); [|exists res, w; split; [exact E|by eapply openStore_mem]].
  intros n' e l Hl. simpl in Hl. destruct (access_faults r) as [|l0 ls]; [done|]. simpl in Hl.
  inversion Hstat; subst. by eauto.
Qed.

Lemma Access_opens n r T t : memlog_ok r → Registry.active (registry r) = true → openable (dir r n) T t → (t < 2 ^ 63 - 1)%Z →
  ∃ s fs, Registry.Access (registry r) n (mkWorld (home_is (dir r n)) (files (dir r n)) []) = Done (inr s, dir_world fs []) ∧
    mtable (mem s) = Some T ∧ disk_ok (disk s) T fs T ∧ nextTxID (disk s) = (t + 1)%Z ∧ all_regular fs ∧ disk_clean (disk s).
Proof.
  intros ([pred Hp] & _) Hact Hop Ht. unfold Registry.Access. rewrite Hact, Hp.
  replace (mkWorld _ _ []) with (dir r n) by (by destruct Hop).
  edestruct open_ok as (s & fs & E & Hm & Hdk & Hid & Hreg); [exact Hop|exact Ht|]. exists s, fs.
  split; [exact E|]. split_and!; [done..|]. exact (openStore_clean _ _ _ _ _ _ _ _ E).
Qed.

(** A directory after its store was opened. *)
Lemma good_opened n r s fs T t : reliable r → memlog_ok r → (∀ h M, memlog_view r h ≠ Some (n, M)) →
  mtable (mem s) = Some T → table_storable (storable := storable) T → disk_ok (disk s) T fs T → disk_clean (disk s) → json_table T = T →
  nextTxID (disk s) = (t + 1)%Z → (t ≤ Z.of_nat (length (journal r)) + 1)%Z → all_regular fs →
  dir_good (accessed n (dir_world fs []) [(n, s)] r) n.
Proof.
  intros Hrel Hok Hno Hm Hst Hdk Hcl Hj Hid Ht Hreg.
  assert (Hd : dir (accessed n (dir_world fs []) [(n, s)] r) n = dir_world fs []).
  { change (dir (set_dir n (dir_world fs []) r) n = dir_world fs []). by rewrite dir_set, decide_True. }
  eapply (good_open _ _ (length (stores r)) s T); rewrite ?Hd; [| |done|done|done| |done|].
  - simpl. by apply list_lookup_middle.
  - simpl. rewrite Hj. by split_and!.
  - simpl. rewrite length_app. simpl. lia.
  - intros h M. rewrite accessed_view. case_decide; [by intros ?%Hno|]. intros Hl.
    destruct (h - length (stores r)) eqn:Eh; [lia|]. done.
Qed.

Lemma memlog_access_ok r n : memlog_ok r → (∀ h M, memlog_view r h ≠ Some (n, M)) →
  ∃ res r', Access_dir n r = Done (res, r') ∧ memlog_ok r' ∧
    match res with
    | inl _ => ∀ h, memlog_view r' h = memlog_view r h
    | inr h => memlog_view r h = None ∧ (∃ M, memlog_view r' h = Some (n, M)) ∧
        ∀ h', h' ≠ h → memlog_view r' h' = memlog_view r h'
    end.
Proof.
  intros Hok Hno. destruct (Access_returns n r Hok) as (res & w & E & Hres).
  set (d := mkWorld (home_is w) (files w) []). set (l := match res with inl _ => [] | inr s => [(n, s)] end).
  assert (Ea : Access_dir n r = Done (match res with inl e => inl e | inr _ => inr (length (stores r)) end, accessed n d l r)).
  { unfold Access_dir. rewrite (in_dir_eq _ _ _ _ _ _ E). cbn [mbind outcome_bind fst snd].
    destruct res; unfold accessed, l; [|done]. by rewrite app_nil_r. }
  eexists _, _. split; [exact Ea|]. split.
  - apply accessed_ok; [done|unfold l; destruct res; by repeat constructor|]. intros Hrel Hf.
    destruct (proj2 (proj2 Hok) Hrel n) as [h0 s0 M0 Hh0 (Hm0 & _)|T t _ Hop Hst Ht].
    { destruct (Hno h0 M0). unfold memlog_view. rewrite Hh0. simpl. unfold store_view. simpl. by rewrite Hm0. }
    assert (Ht' : (t < 2 ^ 63 - 1)%Z) by (destruct Hrel; lia).
    destruct (Registry.active (registry r)) eqn:Hact.
    + destruct (Access_opens n r T t Hok Hact Hop Ht') as (s & fs & E1 & Hm & Hdk & Hid & Hreg & Hcl).
      rewrite Hf, E1 in E. injection E as <- <-. eapply good_opened; eauto. by eapply json_openable.
    + unfold Registry.Access in E. rewrite Hact, Hf in E. injection E as <- <-.
      assert (Hd : dir (accessed n d l r) n = dir r n).
      { change (dir (set_dir n d r) n = dir r n). rewrite dir_set, decide_True by done. by destruct Hop. }
      eapply (good_closed _ _ T t); [|by rewrite Hd|done|simpl; rewrite length_app; lia].
      intros h M. rewrite accessed_view. case_decide; [by intros ?%Hno|]. by destruct (h - _).
  - destruct res as [e|s]; simpl in Hres.
    + intros h. rewrite accessed_view. case_decide; [done|]. unfold l. rewrite view_beyond by lia. by destruct (h - _).
    + destruct Hres as [M HM]. split; [by apply view_beyond|]. split.
      * exists M. rewrite accessed_view, decide_False, Nat.sub_diag by lia. simpl. unfold store_view. simpl. by rewrite HM.
      * intros h' Hne. rewrite accessed_view. case_decide; [done|]. rewrite view_beyond by lia. unfold l.
        by destruct (h' - length (stores r)) eqn:Eh; [lia|].
Qed.

(** A name that is not open opens with the table that its directory has. *)
Lemma memlog_opens n r T t : memlog_ok r → openable (dir r n) T t → (t < 2 ^ 63 - 1)%Z → Registry.active (registry r) = true →
  default [] (head (access_faults r)) = [] → (∀ h M, memlog_view r h ≠ Some (n, M)) →
  ∃ h r', Access_dir n r = Done (inr h, r') ∧ memlog_view r' h = Some (n, T).
Proof.
  intros Hok Hop Ht Hact Hf Hno. destruct (Access_opens n r T t Hok Hact Hop Ht) as (s & fs & E & Hm & _).
  exists (length (stores r)), (accessed n (dir_world fs []) [(n, s)] r). split.
  - unfold Access_dir. rewrite Hf. rewrite (in_dir_eq _ _ _ _ _ _ E). unfold accessed. by rewrite Hf.
  - rewrite accessed_view, decide_False, Nat.sub_diag by lia. simpl. unfold store_view. simpl. by rewrite Hm.
Qed.

(** What a call adds to the history. *)
Lemma on_store_journal {A} h c (f : store → IO (A * store)) (r r' : state) a n M : memlog_view r h = Some (n, M) → on_store h c f r = Done (a, r') →
  journal r' = journal r ++ [mkCall n c (default [] (head (store_faults r)))] ∧
  access_faults r' = access_faults r ∧ store_faults r' = drop 1 (store_faults r).
Proof.
  intros (s & Hh & _)%memlog_view_Some. unfold on_store, in_dir. rewrite Hh. cbn [deref mbind outcome_bind fst snd].
  destruct (f s _) as [[[a' s'] w]| |]; [|done..]. by intros [= <- <-].
Qed.
Lemma Access_dir_journal n (r r' : state) res : Access_dir n r = Done (res, r') →
  journal r' = journal r ++ [mkCall n None (default [] (head (access_faults r)))] ∧
  access_faults r' = drop 1 (access_faults r) ∧ store_faults r' = store_faults r ∧ registry r' = registry r.
Proof.
  unfold Access_dir, in_dir. destruct (Registry.Access _ _ _) as [[[e|s] w]| |]; [..|done|done]; by intros [= <- <-].
Qed.

Lemma Access_dir_other n n' (r r' : state) res : Access_dir n r = Done (res, r') → n' ≠ n → dir r' n' = dir r n'.
Proof.
  unfold Access_dir, in_dir. intros E Hne.
  destruct (Registry.Access _ _ _) as [[[e|s] w]| |]; [..|done|done]; injection E as _ <-; exact (eq_trans (dir_set n n' _ r) (decide_False _ _ Hne)).
Qed.

Lemma each_loop_pairs {S} (fn : string → entry → S → outcome (bool * option goerr * S)) l st :
  each_loop fn l st = each_pairs fn l st.
Proof. revert st. induction l as [|[k e] l IH]; intros st; simpl; [done|]. destruct (fn k e st) as [[[cont err] st']| |]; simpl; by rewrite ?IH. Qed.

#[local] Instance memlog_laws : @BackendLaws state nat V entry (memlog_backend iterate) entry_convert.
Proof.
  refine {| backend_ok := memlog_ok; view := memlog_view |}.
  - apply memlog_access_ok.
  - intros r h [n M] Hok Hv. destruct (memlog_close_ok r h n M Hok Hv) as (err & r' & E & Hok' & Hv' & Ho & _). by exists err, r'.
  - intros r h n M k Hok Hv. exists r. destruct (memlog_view_Some _ _ _ _ Hv) as (s & Hh & Hm).
    split_and!; [|done|done]. cbn [has memlog_backend]. rewrite Hh. cbn [deref mbind outcome_bind snd].
    unfold Has, mem_Has. by rewrite Hm.
  - intros r h n M k v Hok Hv. destruct (memlog_view_Some _ _ _ _ Hv) as (s & Hh & Hm). exists (Get s k v), r.
    split_and!; [|done|done|].
    + cbn [get memlog_backend]. by rewrite Hh.
    + unfold Get, mem_Get. rewrite Hm. by destruct (M !! k); [|eexists].
  - intros r h n M k v Hok Hv. destruct (write_ok r h n M (CSet k v) Hok Hv) as (err & r' & E & Hok' & Hv' & Ho & Herr & _).
    exists err, r'. split_and!; try done. simpl in *. destruct (convert_to_map v); [|done]. split; [by apply Herr|done].
  - intros r h n M k Hok Hv. destruct (write_ok r h n M (CRemove k) Hok Hv) as (err & r' & E & Hok' & Hv' & Ho & _).
    by exists err, r'.
  - intros S r h n M fn st Hok Hv. destruct (memlog_view_Some _ _ _ _ Hv) as (s & Hh & Hm). exists (iterate M), r.
    split_and!; [|apply Hiterate|done|done]. cbn [each memlog_backend]. rewrite Hh. cbn [deref mbind outcome_bind snd].
    unfold Each. by rewrite Hm, each_loop_pairs.
Defined.

(** ** Killing the process *)
Lemma restart_view (r : state) h : memlog_view (restart r) h = None.
Proof. done. Qed.

Lemma restart_ok r : memlog_ok r → memlog_ok (restart r).
Proof.
  intros (Hp & Hstat & Hgood). split_and!; [done|constructor|]. intros Hrel n.
  destruct (Hgood Hrel n) as [h s M Hh (Hm & Hst & Hdk) Hhome Hfl Hreg Hid Hcl Huniq|T t Hno Hop Hst Ht].
  - destruct (disk_ok_dir_ok _ _ _ _ Hdk) as (t & Hd & Ht). eapply (good_closed _ _ (json_table M) t); [done| | |simpl; lia].
    + change (dir (restart r) n) with (dir r n). rewrite (world_eta _ Hhome Hfl). by apply openable_dir.
    + by apply json_table_storable.
  - eapply (good_closed _ _ T t); done.
Qed.

(** A new process opens what the directory has. *)
Lemma killed_access r n T t : memlog_ok r → openable (dir r n) T t → (t < 2 ^ 63 - 1)%Z →
  ∃ h' r', Access_dir n (restart r) = Done (inr h', r') ∧ memlog_ok r' ∧ memlog_view r' h' = Some (n, T) ∧
    ∀ h'', h'' ≠ h' → memlog_view r' h'' = None.
Proof.
  intros Hok Hop Ht. pose proof (restart_ok r Hok) as Hok1. set (r1 := restart r) in *.
  destruct (memlog_opens n r1 T t Hok1 Hop Ht eq_refl eq_refl ltac:(done)) as (h' & r' & E & Hv').
  destruct (memlog_access_ok r1 n Hok1 ltac:(done)) as (res & r2 & E' & Hok' & Hres). rewrite E in E'. injection E' as <- <-.
  exists h', r'. split_and!; try done. intros h'' Hne. by rewrite (proj2 (proj2 Hres)).
Qed.

(** A store that was open comes back with its table. *)
Lemma good_openable r h n M : memlog_ok r → reliable r → memlog_view r h = Some (n, M) →
  ∃ t, openable (dir r n) (json_table M) t ∧ (t < 2 ^ 63 - 1)%Z.
Proof.
  intros Hok Hrel Hv.
  destruct (good_view r n h M (proj2 (proj2 Hok) Hrel n) Hv) as (s & Hh & (Hm & Hst & Hdk) & Hhome & Hfl & Hreg & Hid & _).
  destruct (disk_ok_dir_ok _ _ _ _ Hdk) as (t & Hd & Ht). exists t. rewrite (world_eta _ Hhome Hfl).
  split; [by apply openable_dir|destruct Hrel; lia].
Qed.

(** The initial state: a new registry over directories that can be opened. *)
Lemma memlog_new_ok abs settings g (ds : gmap string world) af sf :
  Registry.New abs settings = inr g → Forall stat_ok af →
  (∀ n, openable (default no_home (ds !! n)) ∅ 0) → memlog_ok (mkState g ds [] af sf []).
Proof.
  intros Hg Hst Hds. unfold Registry.New in Hg. destruct (abs (Registry.Root settings)); [done|]. injection Hg as <-.
  split_and!; [by eexists|done|]. intros _ n. eapply (good_closed _ _ ∅ 0); [done|apply Hds| |simpl; lia].
  intros k e. by rewrite lookup_empty.
Qed.
End laws.
