(* ===== verification/Recovery.v ===== *)
(** * Cursors survive the process

    The cursor inputs, the state store and memlog put together: what a new
    process resumes at after the old one was killed. *)

From stdpp Require Import base gmap strings list fin_maps.
From Stdlib Require Import ZArith Lia.
From S2P Require Import Prelude GoValue Fs DiskData DiskFacts Memlog TestEncoder Durable Backend MemlogBackend.
From S2P Require Import Concert Statestore StatestoreFacts StatestoreSeq Cursor CursorFacts CursorSpec CursorProps.

Section recovery.
Context `{EncoderLaws storable storable_key} {V : Type} `{!TypeConv V}.
Context (iterate : DiskData.table → list (string * entry)) (Hiterate : ∀ t, iterate t ≡ₚ map_to_list t).
Context {Ctr W : Type} `{!AtomicInt Ctr, !AtomicIntLaws Ctr, !SafeWaitGroup W, !SafeWaitGroupLaws W}.
#[local] Instance recovery_convert : Convert V entry := entry_convert.
#[local] Instance recovery_backend : Backend (MemlogBackend.state V) nat V entry := memlog_backend iterate.
#[local] Instance recovery_laws : BackendLaws (MemlogBackend.state V) nat V entry :=
  memlog_laws (storable := storable) (storable_key := storable_key) iterate Hiterate.

(** The new process gets the store of a name with the table that its directory has. *)
Lemma Get_killed (w : world (MemlogBackend.state V) nat Ctr W) n T t : ok w →
  openable (dir (reg_backend w) n) T t → (t < 2 ^ 63 - 1)%Z →
  ∃ s' w', Registry_Get n (NewRegistry (restart (reg_backend w)) : world (MemlogBackend.state V) nat Ctr W) = Done (inr s', w') ∧
    ok w' ∧ obs w' s' = Some (n, T).
Proof.
  intros Hok Hop Ht. destruct (killed_access (storable := storable) (storable_key := storable_key) (reg_backend w) n T t (ok_backend w Hok) Hop Ht)
    as (h' & r' & E & Hr' & Hv' & Ho).
  apply (Get_fresh_known _ n h' r' T); try done.
  apply ok_new; [|done]. apply restart_ok, (ok_backend w Hok).
Qed.
End recovery.


(** What the inputs' store of a new process has of a document on disk. *)
Section resuming.
Context `{EncoderLaws storable storable_key} {C : Type} `{!TypeConv (state C)}.
Context (iterate : DiskData.table → list (string * entry)) (Hiterate : ∀ t, iterate t ≡ₚ map_to_list t).
Context {Ctr W U Rc L E : Type} `{!AtomicInt Ctr, !AtomicIntLaws Ctr, !SafeWaitGroup W, !SafeWaitGroupLaws W,
  !AtomicUint64 U, !AtomicUint64Laws U, !RefCount Rc, !Mutex L, !MutexLaws L}.
#[local] Instance resuming_convert : Convert (state C) entry := entry_convert.
#[local] Instance resuming_backend : Backend (MemlogBackend.state (state C)) nat (state C) entry := memlog_backend iterate.
#[local] Instance resuming_laws : BackendLaws (MemlogBackend.state (state C)) nat (state C) entry :=
  memlog_laws (storable := storable) (storable_key := storable_key) iterate Hiterate.
Context (decode : entry → goerr + state C).
Context (Hdec : ∀ (st : state C) x, convert_in st = inr x → ∃ st', decode (entry_json x) = inr st' ∧ sCursor st' = sCursor st).

Lemma resume_at (w : world (MemlogBackend.state (state C)) nat Ctr W) n M t k b prefix : ok w →
  openable (dir (reg_backend w) n) (json_table M) t → (t < 2 ^ 63 - 1)%Z → persisted k b M → String.prefix (prefix +:+ "::") k = true →
  ∃ (s2 : store (MemlogBackend.state (state C)) nat Ctr W U Rc L C E) i r,
    openStore decode (Registry_Get n) prefix (NewRegistry (restart (reg_backend w))) = Done (inr s2, persistent s2) ∧
    table s2 !! k = Some i ∧ resources s2 !! i = Some r ∧ cursor r = b ∧ pendingCursor r = None ∧ stored r = true.
Proof.
  intros Hok Hop Ht (ttl & upd & x & Hx & Hk) Hpre.
  destruct (Get_killed iterate Hiterate w n _ t Hok Hop Ht) as (ps & w1 & Eg & Hok1 & Hobs1).
  destruct (openStore_ok (U := U) (Rc := Rc) (L := L) (E := E) decode prefix (Registry_Get n) _ w1 ps (json_table M) Eg)
    as (s2 & Eo & _ & _ & _ & _ & Htab); [by split; [|exists n]|].
  destruct (Hdec _ _ Hx) as (st' & Hd & Hc).
  assert (Hjk : json_table M !! k = Some (entry_json x)) by (unfold json_table; rewrite lookup_fmap, Hk; done).
  specialize (Htab k). destruct (table s2 !! k) as [i|] eqn:Hs.
  - destruct Htab as (x' & v & Hx' & _ & Hv & Hr). simplify_eq. assert (v = st') as -> by congruence.
    exists s2, i, (loaded_resource k st'). split; [exact Eo|]. split; [exact Hs|]. split; [exact Hr|]. done.
  - destruct (Htab _ Hjk) as [Hno|[e He]]; congruence.
Qed.
End resuming.

(** C3. A killed process resumes at the last acknowledged event.  The inputs' store is
    a state store on memlog.  After any publishing and acknowledging on a
    resource, kill the process, start again with the same directories, and open
    the store of the input type: the key has a resource whose cursor is the value
    of the last acknowledged update.  Nothing in memory survives: all of it was
    read from the files.  This holds if no call has met an I/O error so far,
    what was written could be encoded, a document's cursor decodes
    to what it was after a round trip through JSON, an update with a cursor
    replaces the cursor, as [typeconv.Convert] does for a target of type
    interface{}, and nil converts to nil only. *)
Theorem cursor_survives_the_process `{EncoderLaws storable storable_key} {C : Type} `{!TypeConv (state C)}
    (iterate : DiskData.table → list (string * entry)) (Hiterate : ∀ t, iterate t ≡ₚ map_to_list t)
    {Ctr W U Rc L E : Type} `{!AtomicInt Ctr, !AtomicIntLaws Ctr, !SafeWaitGroup W, !SafeWaitGroupLaws W,
      !AtomicUint64 U, !AtomicUint64Laws U, !RefCount Rc, !Mutex L, !MutexLaws L}
    (conv : option C → option C → goerr + option C) decode prefix
    (s : store (MemlogBackend.state (state C)) nat Ctr W U Rc L C E) acked l k lk n b evs m cs b' evs' :
  let _ : Convert (state C) entry := entry_convert in
  let _ : Backend (MemlogBackend.state (state C)) nat (state C) entry := memlog_backend iterate in
  let _ : BackendLaws (MemlogBackend.state (state C)) nat (state C) entry :=
    memlog_laws (storable := storable) (storable_key := storable_key) iterate Hiterate in
  (∀ c c' d, conv c (Some d) = conv c' (Some d)) → (∀ v, conv None None = inr v → v = None) →
  (∀ st : state C, ∃ x, convert_in st = inr x) →
  (∀ (st : state C) x, convert_in st = inr x → ∃ st', decode (entry_json x) = inr st' ∧ sCursor st' = sCursor st) →
  String.prefix (prefix +:+ "::") k = true → follows conv s acked l k lk n b evs m →
  spec_commands (CursorSpec.value conv) cs (b, evs) = Some (b', evs') →
  (n + Z.of_nat (length evs) + Z.of_nat (length cs) < 2 ^ 64)%Z →
  ∃ acked' s' name m', run_commands conv l cs acked s = Done (acked', s') ∧
    obs (persistent s') (persistentStore s') = Some (name, m') ∧
    (reliable (storable := storable) (storable_key := storable_key) (reg_backend (persistent s')) →
     ∃ (s2 : store (MemlogBackend.state (state C)) nat Ctr W U Rc L C E) i r,
       openStore decode (Registry_Get name) prefix (NewRegistry (restart (reg_backend (persistent s')))) =
         Done (inr s2, persistent s2) ∧
       table s2 !! k = Some i ∧ resources s2 !! i = Some r ∧
       cursor r = b' ∧ pendingCursor r = None ∧ stored r = true).
Proof.
  intros Hconv Hback Hlaws Hcomplete Hnil Htotal Hdec Hpre Hf Hspec Hmax.
  destruct (run_commands_follows conv Hcomplete Hnil Htotal cs s acked l k lk n b evs m b' evs' Hf Hspec Hmax)
    as (acked' & s' & m' & Er & Hf' & _).
  destruct (fo_holds _ _ _ _ _ _ _ _ _ _ Hf') as (Hok & name & Hobs).
  exists acked', s', name, m'. split; [done|]. split; [done|]. intros Hrel.
  destruct (obs_Some (persistent s') _ name m' Hok Hobs) as (i & sh & _ & _ & _ & _ & Hv & _).
  destruct (good_openable (reg_backend (persistent s')) (backend sh) name m' (ok_backend _ Hok) Hrel Hv) as (t & Hop & Ht).
  eapply (resume_at iterate Hiterate decode Hdec (persistent s')); [done..|apply (fo_persisted _ _ _ _ _ _ _ _ _ _ Hf')|done].
Qed.

(** ** A run *)
#[local] Instance doc_conv : TypeConv (state string) := {
  convert_to_map st := inr {[ "ttl" := VInt (sTTL st); "updated" := VInt (sUpdated st);
    "cursor" := match sCursor st with Some c => VStr c | None => VNull end ]};
  convert_from_map m st := inr (mkState (sTTL st) (sUpdated st)
    match m !! "cursor"%string with Some (VStr c) => Some c | _ => None end)
}.
Definition decode_doc (e : entry) : goerr + state string := Decode e (mkState 0 0 None).

#[local] Instance demo_convert : Convert (state string) entry := entry_convert.
#[local] Instance demo_backend : Backend (MemlogBackend.state (state string)) nat (state string) entry := memlog_backend map_to_list.
#[local] Instance demo_laws : BackendLaws (MemlogBackend.state (state string)) nat (state string) entry :=
  memlog_laws (storable := test_storable) (storable_key := test_storable_key) map_to_list (λ _, reflexivity _).
Definition demo_store : Type := store (MemlogBackend.state (state string)) nat Z (Z * bool) Z Z bool string ().

(** A new registry, with no directory yet, and a store "reg" in it. *)
Definition demo_registry : Registry.registry :=
  Registry.mkRegistry true (Registry.mkSettings "/data" 384 64 (Some Registry.defaultCheckpoint) false) 0.
Definition demo_memlog : MemlogBackend.state (state string) := MemlogBackend.mkState demo_registry ∅ [] [] [] [].
Definition demo_world : world (MemlogBackend.state (state string)) nat Z (Z * bool) :=
  match Registry_Get "reg" (NewRegistry demo_memlog) with Done (_, w) => w | _ => NewRegistry demo_memlog end.
Definition demo_inputs : demo_store := mkStore rcZero demo_world 0 ∅ [] [] [].

Lemma demo_memlog_ok : memlog_ok (storable := test_storable) (storable_key := test_storable_key) demo_memlog.
Proof.
  apply (memlog_new_ok (λ s, inr s) (Registry.mkSettings "/data" 384 64 None false)); [done|constructor|].
  intros n. rewrite lookup_empty. constructor.
Qed.

Lemma demo_holds : ∃ m, holds demo_world 0 m.
Proof.
  assert (Hok : ok (NewRegistry demo_memlog : world _ nat Z (Z * bool))) by (apply ok_new; [apply demo_memlog_ok|done]).
  destruct (Get_fresh_ok _ "reg" Hok eq_refl) as (r & w' & E & Hok' & Hres).
  assert (Hsome : match Registry_Get "reg" (NewRegistry demo_memlog : world _ nat Z (Z * bool)) with
    | Done (inr _, _) => true | _ => false end = true) by (vm_compute; reflexivity).
  unfold demo_world. rewrite E in *. destruct r as [e|s]; [done|]. destruct Hres as (-> & _ & [m Hm] & _).
  exists m. split; [done|]. by exists "reg"%string.
Qed.

Lemma demo_total (st : state string) : ∃ x : entry, convert_in st = inr x.
Proof. by eexists. Qed.

(** The input takes the source, publishes and gets acknowledgements. *)
Definition demo_start : M demo_store () :=
  r ← manager_lock "type::src" None; match r with inl _ => mret () | inr l => UpdateTTL l 10 4 end.
Definition demo_run : outcome (nat * demo_store) := (demo_start;; run_commands replace 0 history 0) demo_inputs.

(** What is written can be encoded. *)
Abbreviation encodable := (call_writable (storable := test_storable) (storable_key := test_storable_key)).
Lemma encodable_set name k (st : state string) flts m : convert_to_map st = inr m → test_storable k m →
  encodable (mkCall name (Some (Durable.CSet k st)) flts).
Proof. intros Hm Hst m' Hm'. rewrite Hm in Hm'. by injection Hm' as <-. Qed.
Ltac encodes_calls := repeat (apply Forall_cons; split; [
  lazymatch goal with |- call_ok ?c => split; [reflexivity|change (encodable c)] | _ => idtac end;
  lazymatch goal with
  | |- context [Some (Durable.CSet _ _)] => refine (encodable_set _ _ _ _ _ eq_refl _); vm_compute; reflexivity
  | |- _ => exact I
  end|]); apply Forall_nil, I.

(** Without the functions of the state, which need not be computed. *)
Definition demo_journal : list (MemlogBackend.call (state string)) :=
  match demo_run with Done (_, s) => journal (reg_backend (persistent s)) | _ => [] end.

Lemma demo_calls : Forall (call_ok (storable := test_storable) (storable_key := test_storable_key)) demo_journal ∧
  length demo_journal = 3.
Proof.
  set (j := demo_journal). vm_compute in j. split; [|reflexivity]. subst j.
  encodes_calls.
Qed.

Lemma demo_name : match demo_run with Done (_, s) => fst <$> obs (persistent s) (persistentStore s) | _ => None end = Some "reg"%string.
Proof. vm_compute. reflexivity. Qed.

Lemma cursor_survives_the_process_witness : ∃ acked (s s2 : demo_store) i r,
  demo_run = Done (acked, s) ∧
  openStore decode_doc (Registry_Get "reg") "type" (NewRegistry (restart (reg_backend (persistent s)))) = Done (inr s2, persistent s2) ∧
  table s2 !! "type::src"%string = Some i ∧ resources s2 !! i = Some r ∧ cursor r = Some "a"%string.
Proof.
  destruct demo_holds as [m Hm].
  destruct (start_follows replace demo_total demo_inputs "type::src" None 10 4 m eq_refl Hm) as (s & m1 & Es & Hf & _).
  destruct (cursor_survives_the_process (storable := test_storable) (storable_key := test_storable_key) map_to_list (λ _, reflexivity _)
    replace decode_doc "type" s 0 0 "type::src" true 1 None [] m1 history (Some "a"%string) [Some (Some "b"%string)])
    as (acked' & s' & name & m' & E & Hobs & Hrel);
    [done|by intros v [= <-]|exact demo_total| |reflexivity|exact Hf|reflexivity|reflexivity|].
  { intros st x [= <-]. eexists. split; [reflexivity|]. by destruct st as [? ? [c|]]. }
  assert (Er : demo_run = Done (acked', s')).
  { unfold demo_run, demo_start. erewrite M_bind_eq by exact Es. exact E. }
  destruct demo_calls as [Hall Hlen]. unfold demo_journal in Hall, Hlen. rewrite Er in Hall, Hlen.
  pose proof demo_name as Hname. rewrite Er in Hname.
  pose proof (eq_trans (eq_sym (f_equal (fmap fst) Hobs)) Hname) as Hn. injection Hn as ->.
  destruct Hrel as (s2 & i & r & Eo & Ht & Hr & Hc & _); [split; [exact Hall|rewrite Hlen; reflexivity]|].
  exists acked', s', s2, i, r. by split_and!.
Defined.
