(* ===== verification/CrashSafety.v ===== *)
(** * Cursors survive crashes and I/O errors

    The composition of AckedCursor.v on a state store on memlog, whose disk fails
    in any way from some point on.  A crash is a disk that fails for good.  The
    table that a new process would load follows the calls of [Set], some of them
    late: it is always one of the tables there were. *)

From stdpp Require Import base gmap strings list fin_maps relations.
From Stdlib Require Import ZArith Lia.
From S2P Require Import Prelude GoValue Fs FsFacts DiskData Diskstore DiskFacts DiskSpec DiskInv Memlog MemlogFacts TestEncoder Durable Backend MemlogBackend.
From S2P Require Import Concert Storetest Statestore StatestoreFacts StatestoreSeq StatestoreSpec Cursor CursorFacts CursorSpec CursorProps Acker AckerConc AckedCursor Recovery.

(** ** A call of [Set] reaches the backend once *)
Section reaches.
Context {R H X Ctr W C : Type} `{!Convert (state C) X, !Backend R H (state C) X, !BackendLaws R H (state C) X,
  !EqDecision H, !AtomicInt Ctr, !AtomicIntLaws Ctr, !SafeWaitGroup W, !SafeWaitGroupLaws W}.

(** The backend's handle behind an instance. *)
Definition handle_of (w : world R H Ctr W) (s : nat) : option H := i ← instances w !! s; backend <$> shareds w !! shared i.

Lemma Set_reaches_backend (w : world R H Ctr W) s n m k v : ok w → obs w s = Some (n, m) → ∃ h err r w',
  Set_ s k v w = Done (r, w') ∧ ok w' ∧ handle_of w s = Some h ∧ view (reg_backend w) h = Some (n, m) ∧
  set h k v (reg_backend w) = Done (err, reg_backend w') ∧ handle_of w' s = Some h ∧ obs w' s = Some (n, CursorFacts.saved k v m).
Proof.
  intros Hok Hobs. destruct (obs_Some w s n m Hok Hobs) as (i & sh & Hi & Ho & Hsh & Hn & Hv & _).
  destruct (set_ok _ _ n m k v (ok_backend w Hok) Hv) as (err & r' & E & _).
  pose proof (ok_idle w s i Hok Hi) as Hidle. rewrite Ho in Hidle.
  destruct (with_active_open w s i sh "store/get" (λ h, err ← on_backend (set h k v); ErrorOperation_of s "store/get" (result_of err))
    (match result_of err with inl e => inl (ErrorOperation n "store/get" e) | inr u => inr u end) r' Hi Hidle Hsh) as (g & Hg & Ecall).
  { intros w1 i1 Hi1 Hs1 Hshs Hbe. erewrite M_bind_eq by (unfold on_backend; run_M; rewrite Hbe, E; done).
    simpl. destruct err as [e|]; [|done]. unfold ErrorOperation_of. simpl.
    erewrite M_bind_eq; [|eapply (store_name_eq (set_backend r' w1)); [done|simpl; by rewrite Hs1, Hshs]]. by rewrite Hn. }
  destruct (exec_set (C := unit) w s n m k v Hok Hobs) as (r0 & w' & Eq & Hok' & _ & Hres).
  apply M_bind_inv in Eq as (r1 & w1 & Eq & [= _ <-]). pose proof (eq_trans (eq_sym Ecall) Eq) as [= <- <-].
  exists (backend sh), err. eexists _, _. split; [exact Ecall|]. split; [exact Hok'|].
  split; [by unfold handle_of; rewrite Hi; simpl; rewrite Hsh|]. split; [done|]. split; [exact E|]. split.
  - unfold handle_of, put_group. simpl. rewrite list_lookup_insert_eq by (by eapply lookup_lt_Some). simpl. by rewrite Hsh.
  - unfold CursorFacts.saved. destruct (convert_in v); [|by eapply holds_write]. destruct Hres as [_ Habs].
    apply abs_Some. rewrite Habs. by apply abs_Some.
Qed.
End reaches.

(** ** memlog on a disk that fails *)
Section failing.
Context `{EncoderLaws storable storable_key} {V : Type} `{!TypeConv V}.
Context (iterate : DiskData.table → list (string * entry)) (Hiterate : ∀ t, iterate t ≡ₚ map_to_list t).
Abbreviation state := (MemlogBackend.state V).
Abbreviation can_write := (MemlogBackend.writable (storable := storable) (storable_key := storable_key)).
Implicit Types (r : state) (M D : DiskData.table).

(** The directory of [n], on which the store [h] works, has the table [D]. *)
Definition on_disk r (h : nat) (n : string) D : Prop := ∃ s M,
  stores r !! h = Some (n, s) ∧ store_ok (storable := storable) s M (files (dir r n)) D ∧
  home_is (dir r n) = HomeDir ∧ faults (dir r n) = [] ∧ all_regular (files (dir r n)) ∧
  (nextTxID (disk s) ≤ Z.of_nat (length (journal r)) + 1)%Z.

Lemma on_disk_openable r h n D : on_disk r h n D → can_write r →
  ∃ t, openable (dir r n) D t ∧ (t < 2 ^ 63 - 1)%Z.
Proof.
  intros (s & M & _ & (_ & _ & Hdk) & Hhome & Hfl & Hreg & Hid) [_ Hlen].
  destruct (disk_ok_dir_ok _ _ _ _ Hdk) as (t & Hd & Ht). exists t. rewrite (world_eta _ Hhome Hfl).
  split; [by apply openable_dir|lia].
Qed.

(** Without an error so far, it is the table of the store. *)
Lemma reliable_on_disk r h n M : memlog_ok (storable := storable) (storable_key := storable_key) r →
  reliable (storable := storable) (storable_key := storable_key) r → memlog_view r h = Some (n, M) → on_disk r h n (json_table M).
Proof.
  intros Hok Hrel Hv. destruct (good_view r n h M (proj2 (proj2 Hok) Hrel n) Hv) as (s & Hh & Hst & Hhome & Hfl & Hreg & Hid & _).
  exists s, M. by split_and!.
Qed.

(** A write adds to what was written. *)
Lemma write_writable r h n M c err r' : memlog_view r h = Some (n, M) →
  MemlogBackend.write iterate h c r = Done (err, r') → can_write r' → can_write r.
Proof.
  intros Hv E. destruct (on_store_journal h (Some c) _ r r' err n M Hv E) as (Hj & _). unfold writable. rewrite Hj, length_app.
  intros [[Hall _]%Forall_app Hlen]. split; [done|lia].
Qed.

(** A write keeps the table of the disk or replaces it with that of the store. *)
Lemma write_on_disk r h n M D c err r' : on_disk r h n D → memlog_view r h = Some (n, M) →
  MemlogBackend.write iterate h c r = Done (err, r') → can_write r' →
  ∃ D', on_disk r' h n D' ∧ durable_step err D D' (Durable.spec_command c M).
Proof.
  intros (s & M0 & Hh & Hst & Hhome & Hfl & Hreg & Hid) Hv E Hw.
  destruct (memlog_view_Some _ _ _ _ Hv) as (s0 & Hh0 & Hm). rewrite Hh in Hh0. injection Hh0 as <-.
  assert (M0 = M) as -> by (destruct Hst as [Hm0 _]; congruence).
  destruct (on_store_eq h (Some c) (Durable.exec iterate c) r n s Hh) as (err1 & s' & w & E1 & Ew); [apply MemlogBackend.exec_returns; eauto|].
  unfold MemlogBackend.write in E. rewrite Ew in E. injection E as -> <-. destruct Hw as [Hall Hlen]. simpl in Hall, Hlen.
  rewrite length_app in Hlen. simpl in Hlen. apply Forall_app in Hall as [Hall [Hc _]%Forall_cons].
  destruct (Durable.spec_exec iterate Hiterate false c s M (files (dir r n)) D Hst Hc ltac:(lia) Hreg
    (Fs.mkWorld (home_is (dir r n)) (files (dir r n)) (default [] (head (store_faults r)))) eq_refl)
    as ([err1 s1] & w1 & E2 & (D' & Hst' & Hd & Hid' & _) & Hhome1 & _ & Hreg1); [done|].
  rewrite E1 in E2. injection E2 as <- <- <-. exists D'. split; [|exact Hd].
  exists s', (Durable.spec_command c M). unfold on_disk. rewrite called_dir, decide_True by done. simpl in *.
  split_and!; [apply list_lookup_insert_eq; by eapply lookup_lt_Some|exact Hst'|congruence|done|by apply Hreg1|].
  rewrite length_app. simpl. lia.
Qed.
End failing.

(** ** What is on the disk after a number of writes *)
Section crash.
Context `{EncoderLaws storable storable_key} {C : Type} `{!TypeConv (state C)}.
Context (iterate : DiskData.table → list (string * entry)) (Hiterate : ∀ t, iterate t ≡ₚ map_to_list t).
Context {Ctr W : Type} `{!AtomicInt Ctr, !AtomicIntLaws Ctr, !SafeWaitGroup W, !SafeWaitGroupLaws W}.
#[local] Instance crash_convert : Convert (state C) entry := entry_convert.
#[local] Instance crash_backend : Backend (MemlogBackend.state (state C)) nat (state C) entry := memlog_backend iterate.
#[local] Instance crash_laws : BackendLaws (MemlogBackend.state (state C)) nat (state C) entry :=
  memlog_laws (storable := storable) (storable_key := storable_key) iterate Hiterate.
Context (Htotal : ∀ st : state C, ∃ x, convert_in st = inr x).
Abbreviation world := (world (MemlogBackend.state (state C)) nat Ctr W).
Abbreviation can_write := (MemlogBackend.writable (storable := storable) (storable_key := storable_key)).
Abbreviation disk_has := (on_disk (storable := storable)).

(** The document of [k] on disk has a cursor that satisfies [P]. *)
Definition cursor_on_disk (P : option C → Prop) (k : string) (w : world) (ps : nat) (n : string) : Prop := ∃ h m,
  ok w ∧ obs w ps = Some (n, m) ∧ handle_of w ps = Some h ∧
  (can_write (reg_backend w) → ∃ b M, P b ∧ persisted k b M ∧ disk_has (reg_backend w) h n (json_table M)).

Lemma Set_cursor_on_disk P k (w w' : world) ps n st res : P (sCursor st) → Set_ ps k st w = Done (res, w') →
  cursor_on_disk P k w ps n → cursor_on_disk P k w' ps n.
Proof.
  intros HP E (h & m & Hok & Hobs & Hh & Hd).
  destruct (Set_reaches_backend w ps n m k st Hok Hobs) as (h1 & err & r & w1 & E1 & Hok1 & Hh1 & Hv & Eset & Hh' & Hobs').
  rewrite Hh in Hh1. injection Hh1 as <-. rewrite E in E1. injection E1 as <- <-.
  exists h, (CursorFacts.saved k st m). split_and!; [done..|]. intros Hw.
  destruct Hd as (b & M & Hb & Hp & Hd); [by eapply (write_writable iterate _ h n m (Durable.CSet k st))|].
  destruct (write_on_disk iterate Hiterate _ h n m _ (Durable.CSet k st) err _ Hd Hv Eset Hw) as (D' & Hd' & [[-> | ->] _]).
  { by exists b, M. }
  exists (sCursor st), (CursorFacts.saved k st m). split; [done|]. split.
  - destruct st as [ttl upd b']. by apply persisted_saved.
  - unfold CursorFacts.saved. simpl in Hd'. unfold convert_in. simpl. by destruct (convert_to_map st).
Qed.

Lemma writes_cursor_on_disk P k (w w' : world) ps n : writes k P ps w w' → cursor_on_disk P k w ps n → cursor_on_disk P k w' ps n.
Proof. induction 1 as [|w1 w2 w3 (st & res & HP & E) _ IH]; [done|]. intros Hd. by eapply IH, Set_cursor_on_disk. Qed.

Lemma reliable_cursor_on_disk (P : option C → Prop) k (w : world) ps m n b : ok w → obs w ps = Some (n, m) →
  reliable (storable := storable) (storable_key := storable_key) (reg_backend w) → persisted k b m → P b →
  cursor_on_disk P k w ps n.
Proof.
  intros Hok Hobs Hrel Hp Hb. destruct (obs_Some w ps n m Hok Hobs) as (i & sh & Hi & _ & Hsh & _ & Hv & _).
  exists (backend sh), m. split_and!; [done..| |].
  - unfold handle_of. rewrite Hi. simpl. by rewrite Hsh.
  - intros _. exists b, m. split_and!; [done..|]. by apply (reliable_on_disk (storable_key := storable_key)); [apply (ok_backend w Hok)| |].
Qed.
End crash.

(** C1. Crash safety of the inputs.  Start from a store of inputs on memlog that met
    no I/O error so far.  An input publishes events on a resource, the pipeline sends
    or drops them and acknowledges, the reports are handled, all in any order, and from
    now on the disk fails in any way, for good when the process is killed.  Start again
    with the same directories: the store opens, and the resource is there with a cursor
    that was not executed yet, the one of the start, or that of an event such that all
    events sent up to it were acknowledged.  So the input resumes and no event is lost,
    whenever the process dies and whatever the disk did.  (Of [typeconv.Convert] this
    takes that an update with a cursor replaces the cursor, as it does for a target of
    type interface{}, that nil converts to nil only, and that states can be encoded; of
    the decoder that it gives back the cursor of a document that was read as JSON.) *)
Theorem crash_resumes_at_acknowledged_event `{EncoderLaws storable storable_key} {C : Type} `{!TypeConv (state C)}
    (iterate : DiskData.table → list (string * entry)) (Hiterate : ∀ t, iterate t ≡ₚ map_to_list t)
    {Ctr W U Rc L E : Type} `{!AtomicInt Ctr, !AtomicIntLaws Ctr, !SafeWaitGroup W, !SafeWaitGroupLaws W,
      !AtomicUint64 U, !AtomicUint64Laws U, !RefCount Rc, !Mutex L, !MutexLaws L}
    (conv : option C → option C → goerr + option C) decode prefix
    (s : store (MemlogBackend.state (state C)) nat Ctr W U Rc L C E) acked l k lk n b0 m0 name x :
  let _ : Convert (state C) entry := entry_convert in
  let _ : Backend (MemlogBackend.state (state C)) nat (state C) entry := memlog_backend iterate in
  let _ : BackendLaws (MemlogBackend.state (state C)) nat (state C) entry :=
    memlog_laws (storable := storable) (storable_key := storable_key) iterate Hiterate in
  (∀ c c' d, conv c (Some d) = conv c' (Some d)) → (∀ v, conv None None = inr v → v = None) →
  (∀ st : state C, ∃ x, convert_in st = inr x) →
  (∀ (st : state C) x, convert_in st = inr x → ∃ st', decode (entry_json x) = inr st' ∧ sCursor st' = sCursor st) →
  String.prefix (prefix +:+ "::") k = true → follows conv s acked l k lk n b0 [] m0 →
  obs (persistent s) (persistentStore s) = Some (name, m0) →
  reliable (storable := storable) (storable_key := storable_key) (reg_backend (persistent s)) →
  rtc (net_step conv l n) (start s) x →
  writable (storable := storable) (storable_key := storable_key) (reg_backend (persistent (cur x))) →
  ∃ (s2 : store (MemlogBackend.state (state C)) nat Ctr W U Rc L C E) i r,
    openStore decode (Registry_Get name) prefix (NewRegistry (restart (reg_backend (persistent (cur x))))) =
      Done (inr s2, persistent s2) ∧
    table s2 !! k = Some i ∧ resources s2 !! i = Some r ∧ pendingCursor r = None ∧
    (cursor r = b0 ∨ ∃ j o, events x !! j = Some (Some (o, cursor r)) ∧
       published_in (take (S j) (history (ackr x))) ≤ acknowledged (ackr x)).
Proof.
  intros Hconv Hback Hlaws Hcomplete Hnil Htotal Hdec Hpre Hf Hobs Hrel Hreach Hw.
  destruct (fo_holds _ _ _ _ _ _ _ _ _ _ Hf) as (Hok & _).
  destruct (net_writes conv Hcomplete Hnil Htotal l k lk n b0 m0 s acked x Hf Hreach) as [Hps Hwr].
  set (P := λ b, b = b0 ∨ ∃ j o, events x !! j = Some (Some (o, b)) ∧ published_in (take (S j) (history (ackr x))) ≤ acknowledged (ackr x)).
  assert (Hstart : cursor_on_disk iterate Hiterate P k (persistent s) (persistentStore s) name).
  { eapply (reliable_cursor_on_disk iterate Hiterate); [done..|apply (fo_persisted _ _ _ _ _ _ _ _ _ _ Hf)|by left]. }
  assert (HwP : writes k P (persistentStore s) (persistent s) (persistent (cur x))).
  { eapply writes_mono; [|exact Hwr]. intros b Hb. by right. }
  destruct (writes_cursor_on_disk iterate Hiterate Htotal P k _ _ _ name HwP Hstart)
    as (h & m & Hok' & Hobs' & Hh & Hd).
  destruct (Hd Hw) as (b & M & Hb & Hp & Hdisk). destruct (on_disk_openable _ _ _ _ Hdisk Hw) as (t & Hop & Ht).
  destruct (resume_at (U := U) (Rc := Rc) (L := L) (E := E) iterate Hiterate decode Hdec (persistent (cur x)) name M t k b prefix Hok' Hop Ht Hp Hpre)
    as (s2 & i & r & Eo & Htab & Hr & <- & Hpc & _).
  by exists s2, i, r.
Qed.

(** ** A run on a disk that fails

    The start is written; then the first write meets errors, the second one a full disk. *)
#[local] Existing Instances doc_conv demo_convert demo_backend demo_laws.
Definition failing_faults : list (list fault) := [[]; [FOk; FFail 3 EIO; FFail 0 EIO; FFail 0 EIO; FFail 0 EIO]; [FFail 0 ENOSPC]].
Definition failing_memlog : MemlogBackend.state (state string) := MemlogBackend.mkState demo_registry ∅ [] [] failing_faults [].
Definition failing_world : world (MemlogBackend.state (state string)) nat Z (Z * bool) :=
  match Registry_Get "reg" (NewRegistry failing_memlog) with Done (_, w) => w | _ => NewRegistry failing_memlog end.
Definition failing_inputs : demo_store := mkStore rcZero failing_world 0 ∅ [] [] [].
Definition failing_start : demo_store := match demo_start failing_inputs with Done (_, s) => s | _ => failing_inputs end.

Lemma failing_holds : ∃ m, holds failing_world 0 m.
Proof.
  assert (Hok : ok (NewRegistry failing_memlog : world _ nat Z (Z * bool))).
  { apply ok_new; [|done]. apply (memlog_new_ok (λ s, inr s) (Registry.mkSettings "/data" 384 64 None false)); [done|constructor|].
    intros n. rewrite lookup_empty. constructor. }
  destruct (Get_fresh_ok _ "reg" Hok eq_refl) as (r & w' & E & Hok' & Hres).
  assert (Hsome : match Registry_Get "reg" (NewRegistry failing_memlog : world _ nat Z (Z * bool)) with
    | Done (inr _, _) => true | _ => false end = true) by (vm_compute; reflexivity).
  unfold failing_world. rewrite E in *. destruct r as [e|s]; [done|]. destruct Hres as (-> & _ & [m Hm] & _).
  exists m. split; [done|]. by exists "reg"%string.
Qed.

Lemma failing_follows : ∃ m, follows replace failing_start 0 0 "type::src" true 1 None [] m ∧
  obs (persistent failing_start) (persistentStore failing_start) = Some ("reg"%string, m).
Proof.
  destruct failing_holds as [m0 Hm].
  destruct (start_follows replace demo_total failing_inputs "type::src" None 10 4 m0 eq_refl Hm) as (s & m & Es & Hf & _).
  assert (failing_start = s) as Hs by (unfold failing_start, demo_start; by rewrite Es).
  assert (Hname : fst <$> obs (persistent failing_start) (persistentStore failing_start) = Some "reg"%string) by (vm_compute; reflexivity).
  rewrite Hs in *. exists m. split; [done|]. destruct (fo_holds _ _ _ _ _ _ _ _ _ _ Hf) as (_ & n & Hobs).
  rewrite Hobs in *. simpl in Hname. by injection Hname as ->.
Qed.

Definition journal_of (s : demo_store) : list (MemlogBackend.call (state string)) := journal (reg_backend (persistent s)).

Lemma failing_reliable : reliable (storable := test_storable) (storable_key := test_storable_key) (reg_backend (persistent failing_start)).
Proof.
  change (Forall (call_ok (storable := test_storable) (storable_key := test_storable_key)) (journal_of failing_start) ∧
    (Z.of_nat (length (journal_of failing_start)) + 2 < 2 ^ 63 - 1)%Z).
  set (j := journal_of failing_start). vm_compute in j. split; [|reflexivity]. subst j.
  encodes_calls.
Qed.

Definition failing_journal : list (MemlogBackend.call (state string)) :=
  match run_moves overtaken (start failing_start) with Done x => journal_of (cur x) | _ => [] end.
Lemma failing_writable : Forall (call_writable (storable := test_storable) (storable_key := test_storable_key)) failing_journal ∧
  length failing_journal = 4.
Proof.
  set (j := failing_journal). vm_compute in j. split; [|reflexivity]. subst j.
  encodes_calls.
Qed.

Lemma crash_resumes_at_acknowledged_event_witness : ∃ x (s2 : demo_store) i r,
  rtc (net_step replace 0 1) (start failing_start) x ∧
  openStore decode_doc (Registry_Get "reg") "type" (NewRegistry (restart (reg_backend (persistent (cur x))))) = Done (inr s2, persistent s2) ∧
  table s2 !! "type::src"%string = Some i ∧ resources s2 !! i = Some r ∧
  (cursor r = None ∨ ∃ j o, events x !! j = Some (Some (o, cursor r)) ∧
    published_in (take (S j) (AckerConc.history (ackr x))) ≤ acknowledged (ackr x)).
Proof.
  destruct failing_follows as (m & Hf & Hobs). destruct failing_writable as [Hall Hlen]. unfold failing_journal in Hall, Hlen.
  destruct (run_moves_reach overtaken (start failing_start)) as (x & E & Hreach); [apply overtaken_ok|vm_compute; reflexivity|].
  rewrite E in Hall, Hlen. exists x.
  destruct (crash_resumes_at_acknowledged_event (storable := test_storable) (storable_key := test_storable_key) map_to_list (λ _, reflexivity _)
    replace decode_doc "type" failing_start 0 0 "type::src" true 1 None m "reg" x)
    as (s2 & i & r & Eo & Ht & Hr & _ & Hc);
    [done|by intros v [= <-]|exact demo_total| |reflexivity|exact Hf|exact Hobs|exact failing_reliable|exact Hreach| |].
  { intros st y [= <-]. eexists. split; [reflexivity|]. by destruct st as [? ? [c|]]. }
  { split; [exact Hall|]. unfold journal_of in Hlen. rewrite Hlen. reflexivity. }
  exists s2, i, r. split; [exact Hreach|]. split; [exact Eo|]. split; [exact Ht|]. split; [exact Hr|exact Hc].
Defined.
