(* ===== verification/Compliance.v ===== *)
(** * The compliance suite of backends (internal/storecompliance)

    The tests that every backend has to pass, as programs over the interface
    [Backend], and the proof that memlog and the backend in memory pass them.
    [t.Fatal] ends a test; deferred calls still run. *)

From stdpp Require Import base gmap strings list fin_maps.
From Stdlib Require Import ZArith Lia.
From S2P Require Import Prelude GoValue Fs Backend.

Section suite.
Context {R H V X : Type} `{!Backend R H V X, !Convert V X, !EqDecision V}.

(** ** testing.T, reg.go and util.go

    The state of a test: the registry, the [Store] objects, whether it failed. *)
Record tstore := mkStore { tbackend : H; tname : string }.
Record tstate := mkT { treg : option R; tstores : list tstore; tfailed : bool }.

(** [None]: the test's goroutine has ended. *)
Definition T (A : Type) : Type := tstate → outcome (option A * tstate).
#[local] Instance T_ret : MRet T := λ A a s, Done (Some a, s).
#[local] Instance T_bind : MBind T := λ A B f m s,
  r ← m s;
  match r with
  | (Some a, s) => f a s
  | (None, s) => Done (None, s)
  end.

Definition set_reg (r : R) (s : tstate) : tstate := mkT (Some r) (tstores s) (tfailed s).
Definition set_tstores (l : list tstore) (s : tstate) : tstate := mkT (treg s) l (tfailed s).
Definition set_failed (s : tstate) : tstate := mkT (treg s) (tstores s) true.

Definition Fatal {A} : T A := λ s, Done (None, set_failed s).
(** [assert]: the test goes on. *)
Definition assert_ (b : bool) : T () := λ s, Done (Some (), if b then s else set_failed s).
Definition must (err : option goerr) : T () := match err with Some _ => Fatal | None => mret () end.
Definition must_ok {A} (r : goerr + A) : T A := match r with inl _ => Fatal | inr a => mret a end.

(** [defer cleanup()] before [body]. *)
Definition deferred {A} (cleanup : T ()) (body : T A) : T A := λ s,
  r ← body s;
  c ← cleanup r.2;
  Done (match c.1 with Some _ => r.1 | None => None end, c.2).

(** A call on the registry. *)
Definition call {A} (f : R → outcome (A * R)) : T A := λ s,
  r ← deref (treg s);
  a ← f r;
  Done (Some a.1, set_reg a.2 s).
Definition get_store (i : nat) : T tstore := λ s, st ← deref (tstores s !! i); Done (Some st, s).

Definition add_store (st : tstore) : T nat := λ s, Done (Some (length (tstores s)), set_tstores (tstores s ++ [st]) s).
Definition put_store (i : nat) (st : tstore) : T () := λ s, Done (Some (), set_tstores (<[ i := st ]> (tstores s)) s).
Definition Failed : T bool := λ s, Done (Some (tfailed s), s).

(** [Registry.Access] and [MustAccess]; the result is a pointer. *)
Definition Access (name : string) : T (goerr + nat) :=
  r ← call (access name);
  match r with
  | inl err => mret (inl err)
  | inr h => i ← add_store (mkStore h name); mret (inr i)
  end.
Definition MustAccess (name : string) : T nat := r ← Access name; must_ok r.

Definition Close (i : nat) : T () := st ← get_store i; err ← call (close_store (tbackend st)); must err.
Definition Reopen (i : nat) : T () :=
  Close i;;
  failed ← Failed;
  if (failed : bool) then Fatal else
  st ← get_store i;
  r ← call (access (tname st));
  h ← must_ok r;
  put_store i (mkStore h (tname st)).
Definition ReopenIf (b : bool) (i : nat) : T () := if b then Reopen i else mret ().

Definition MustHave (i : nat) (key : string) : T bool := st ← get_store i; r ← call (has (tbackend st) key); must_ok r.
Definition MustGet (i : nat) (key : string) (into : V) : T V := st ← get_store i; r ← call (get (tbackend st) key into); must_ok r.
Definition MustSet (i : nat) (key : string) (from : V) : T () := st ← get_store i; err ← call (set (tbackend st) key from); must err.
Definition MustRemove (i : nat) (key : string) : T () := st ← get_store i; err ← call (remove (tbackend st) key); must err.
Definition Each {S} (i : nat) (fn : string → X → S → outcome (bool * option goerr * S)) (st : S) : T (option goerr * S) :=
  s ← get_store i;
  call (λ r, e ← each (tbackend s) fn st r; Done (e.1, e.2)).

(** [mkdirTemp] is the result of [os.MkdirTemp]; the removal of the directory at
    the end of a test is not part of the state. *)
Context (mkdirTemp : goerr + string) (factory : string → goerr + R).

Definition put_reg (r : R) : T () := λ s, Done (Some (), set_reg r s).
Definition SetupRegistry : T () :=
  path ← must_ok mkdirTemp;
  reg ← must_ok (factory path);
  put_reg reg.
Definition cleanupReg : T () := call (close_registry (H := H));; mret ().

Definition WithPath (fn : T ()) : T () := SetupRegistry;; deferred cleanupReg fn.

Definition SetupTestStore (fn : nat → T ()) : T () :=
  SetupRegistry;;
  r ← Access "test";
  match r with
  | inl err => deferred cleanupReg (must (Some err))
  | inr i => deferred (deferred cleanupReg (Close i)) (fn i)
  end.
Definition WithStore (fn : nat → T ()) : T () := SetupTestStore fn.

(** [t.Run]: a test of its own, which passes if it did not fail. *)
Definition Run (test : T ()) : outcome bool :=
  r ← test (mkT None [] false);
  Done (negb (tfailed r.2)).

(** ** storecompliance.go *)

(** The values of the tests: [entry{A: 1}] and the zero [entry]; the two maps of
    the test data and a nil [interface{}]; the order in which [range] visits
    the data. *)
Context (entry1 entry0 hello world nil_value : V) (range_data : list (string * V)).
Definition data : gmap string V := {[ "a" := hello; "b" := world ]}.

Definition init_and_close : T () := WithPath (mret ()).
Definition open_stores : T () :=
  WithPath (store ← MustAccess "test1"; deferred (Close store) (store2 ← MustAccess "test2"; deferred (Close store2) (mret ()))).

Definition unknown_key : T () := WithStore (λ store, b ← MustHave store "key"; assert_ (negb b)).
Definition has_key_after_set (reopen : bool) : T () := WithStore (λ store,
  MustSet store "key" entry1;; ReopenIf reopen store;; b ← MustHave store "key"; assert_ b).
Definition set_and_get (reopen : bool) : T () := WithStore (λ store,
  MustSet store "key" entry1;; ReopenIf reopen store;; actual ← MustGet store "key" entry0; assert_ (bool_decide (entry1 = actual))).

Definition remove_unknown_key : T () := WithStore (λ store, MustRemove store "key").
Definition remove_key (reopen : bool) : T () := WithStore (λ store,
  MustSet store "key" entry1;; ReopenIf reopen store;; MustRemove store "key";; ReopenIf reopen store;;
  b ← MustHave store "key"; assert_ (negb b)).

Fixpoint set_all (store : nat) (l : list (string * V)) : T () :=
  match l with
  | [] => mret ()
  | (k, v) :: l => MustSet store k v;; set_all store l
  end.
Definition addTestData (store : nat) (reopen : bool) : T () := set_all store range_data;; ReopenIf reopen store.

Definition collect (key : string) (dec : X) (got : gmap string V) : outcome (bool * option goerr * gmap string V) :=
  match convert_out dec nil_value with
  | inl err => Done (false, Some err, got)
  | inr tmp => Done (true, None, <[ key := tmp ]> got)
  end.
Definition all_keys (reopen : bool) : T () := WithStore (λ store,
  addTestData store reopen;;
  r ← Each store collect ∅;
  assert_ (bool_decide (r.1 = None));;
  assert_ (bool_decide (data = r.2))).
Definition stop_on_error (reopen : bool) : T () := WithStore (λ store,
  addTestData store reopen;;
  r ← Each store (λ _ _ count, Done (true, Some (errText "oops"), S count)) 0;
  assert_ (bool_decide (r.2 = 1));; assert_ (bool_decide (r.1 ≠ None))).
Definition stop_on_bool (reopen : bool) : T () := WithStore (λ store,
  addTestData store reopen;;
  r ← Each store (λ _ _ count, Done (false, None, S count)) 0;
  assert_ (bool_decide (r.2 = 1));; assert_ (bool_decide (r.1 = None))).

Definition runWithBools (test : bool → T ()) : list (T ()) := [test false; test true].
Definition testSetGet : list (T ()) := unknown_key :: runWithBools has_key_after_set ++ runWithBools set_and_get.
Definition testRemove : list (T ()) := remove_unknown_key :: runWithBools remove_key.
Definition testIteration : list (T ()) := runWithBools all_keys ++ runWithBools stop_on_error ++ runWithBools stop_on_bool.
Definition TestBackendCompliance : list (T ()) :=
  [init_and_close; open_stores] ++ testSetGet ++ testRemove ++ testIteration.
End suite.

(** ** Backends that work

    [good n]: the next [n] calls that may fail do not, as long as values that can
    be written are; [saved]: the table a name that is not open opens with;
    [reread]: a stored value after its store was closed and opened again. *)
Class Reliable (R H V X : Type) `{BackendLaws R H V X} := {
  good : nat → R → Prop;
  saved : R → string → gmap string X → Prop;
  reread : X → X;
  writable : string → V → Prop;
  removable : string → Prop;
  good_ok n r : good n r → backend_ok r;
  good_weaken n r : good (S n) r → good n r;
  good_access n r name m : good (S n) r → (∀ h m', view r h ≠ Some (name, m')) → saved r name m →
    ∃ h r', access name r = Done (inr h, r') ∧ good n r' ∧ view r' h = Some (name, m) ∧
      ∀ name' m', name' ≠ name → saved r name' m' → saved r' name' m';
  good_close n r h name m : good (S n) r → view r h = Some (name, m) →
    ∃ r', close_store h r = Done (None, r') ∧ good n r' ∧ saved r' name (reread <$> m);
  good_has n r h name m k res r' : good n r → view r h = Some (name, m) → has h k r = Done (res, r') → good n r';
  good_get n r h name m k v res r' : good n r → view r h = Some (name, m) → get h k v r = Done (res, r') → good n r';
  good_each n r h name m {S} (fn : string → X → S → outcome (bool * option goerr * S)) st res r' :
    good n r → view r h = Some (name, m) → each h fn st r = Done (res, r') → good n r';
  good_set n r h name m k v x err r' : good (S n) r → view r h = Some (name, m) → writable k v → convert_in v = inr x →
    set h k v r = Done (err, r') → err = None ∧ good n r';
  good_remove n r h name m k err r' : good (S n) r → view r h = Some (name, m) → removable k →
    remove h k r = Done (err, r') → err = None ∧ good n r';
  good_close_registry n r : good n r → ∃ err r', close_registry (H := H) r = Done (err, r')
}.

Section passes.
Context {R H V X : Type} `{!Backend R H V X, !Convert V X, !BackendLaws R H V X, !Reliable R H V X, !EqDecision V, !EqDecision H}.
#[local] Existing Instances T_ret T_bind.
Abbreviation T := (@T R H).
Abbreviation tstate := (tstate (R := R) (H := H)).

(** A part of a test that does not end it. *)
Definition runs {A} (P : tstate → Prop) (m : T A) (Q : A → tstate → Prop) : Prop :=
  ∀ s, P s → ∃ a s', m s = Done (Some a, s') ∧ Q a s'.

Lemma runs_ret {A} (a : A) (P : tstate → Prop) : runs P (mret a) (λ a' s, a' = a ∧ P s).
Proof. intros s Hs. by exists a, s. Qed.
Lemma runs_bind {A B} (m : T A) (f : A → T B) P Q Q' : runs P m Q → (∀ a, runs (Q a) (f a) Q') → runs P (m ≫= f) Q'.
Proof.
  intros Hm Hf s Hs. destruct (Hm s Hs) as (a & s1 & E & Hq). destruct (Hf a s1 Hq) as (b & s2 & E2 & Hq').
  exists b, s2. split; [|done]. unfold mbind, T_bind, outcome_bind. by rewrite E.
Qed.
Lemma runs_mono {A} (m : T A) (P P' : tstate → Prop) (Q Q' : A → tstate → Prop) :
  runs P m Q → (∀ s, P' s → P s) → (∀ a s, Q a s → Q' a s) → runs P' m Q'.
Proof. intros Hm HP HQ s Hs. destruct (Hm s (HP s Hs)) as (a & s' & E & Hq). eauto. Qed.
Lemma runs_assert b (P : tstate → Prop) : b = true → runs P (assert_ b) (λ _, P).
Proof. intros -> s Hs. by exists (), s. Qed.

(** The test has the store "test" open, with the table [m]. *)
Record holding (n : nat) (m : gmap string X) (s : tstate) : Prop := {
  ho_reg : ∃ r h, treg s = Some r ∧ good n r ∧ tstores s = [mkStore h "test"] ∧ view r h = Some ("test"%string, m) ∧
    ∀ h' m', view r h' = Some ("test"%string, m') → h' = h;
  ho_failed : tfailed s = false
}.

Lemma call_eq {A} (f : R → outcome (A * R)) (s : tstate) r a r' : treg s = Some r → f r = Done (a, r') →
  call f s = Done (Some a, set_reg r' s).
Proof. intros Hr Hf. unfold call. rewrite Hr. simpl. by rewrite Hf. Qed.

Lemma get_store_eq (s : tstate) st l : tstores s = st :: l → get_store 0 s = Done (Some st, s).
Proof. intros Hs. unfold get_store. by rewrite Hs. Qed.

(** Calls on the store, which change its table from [m] to [m']. *)
Lemma runs_on_store {A B} (f : H → R → outcome (A * R)) (k : A → T B) n n' m m' (Q : B → Prop) :
  (∀ r h, good n r → view r h = Some ("test"%string, m) →
     ∃ a r', f h r = Done (a, r') ∧ good n' r' ∧ view r' h = Some ("test"%string, m') ∧ (∀ h', h' ≠ h → view r' h' = view r h') ∧
       ∀ s, ∃ b, k a s = Done (Some b, s) ∧ Q b) →
  runs (holding n m) (st ← get_store 0; a ← call (f (tbackend st)); k a) (λ b s, Q b ∧ holding n' m' s).
Proof.
  intros Hf s [(r & h & Hr & Hg & Hst & Hv & Huniq) Hfail]. destruct (Hf r h Hg Hv) as (a & r' & E & Hg' & Hv' & Ho & Hk).
  destruct (Hk (set_reg r' s)) as (b & Eb & Hb). exists b, (set_reg r' s). split.
  - unfold mbind, T_bind, outcome_bind, get_store. rewrite Hst. simpl. by rewrite (call_eq (f h) s r a r' Hr E).
  - split; [done|]. split; [|done]. exists r', h. split_and!; try done. intros h' m0 Hh'.
    destruct (decide (h' = h)) as [|Hne]; [done|]. rewrite Ho in Hh' by done. by eapply Huniq.
Qed.

Lemma runs_write (f : H → R → outcome (option goerr * R)) n n' m m' :
  (∀ r h, good n r → view r h = Some ("test"%string, m) →
     ∃ r', f h r = Done (None, r') ∧ good n' r' ∧ view r' h = Some ("test"%string, m') ∧ ∀ h', h' ≠ h → view r' h' = view r h') →
  runs (holding n m) (st ← get_store 0; err ← call (f (tbackend st)); must err) (λ _, holding n' m').
Proof.
  intros Hf s Hs. destruct (runs_on_store f must n n' m m' (λ _, True)) with (s := s) as (b & s' & E & _ & Hs'); [|done|by exists b, s'].
  intros r h Hg Hv. destruct (Hf r h Hg Hv) as (r' & E & Hg' & Hv' & Ho). exists None, r'. split_and!; try done. intros s0. by eexists.
Qed.

Lemma runs_have n m key : runs (holding n m) (MustHave 0 key) (λ b s, b = bool_decide (is_Some (m !! key)) ∧ holding n m s).
Proof.
  apply (runs_on_store (λ h, has h key) must_ok). intros r h Hg Hv.
  destruct (has_ok r h _ m key (good_ok n r Hg) Hv) as (r' & E & _ & Ho). eexists _, r'. split; [exact E|].
  split; [by eapply good_has|]. split; [by rewrite Ho|]. split; [done|]. intros s. by eexists.
Qed.

Lemma runs_get n m key into x v : m !! key = Some x → convert_out x into = inr v →
  runs (holding n m) (MustGet 0 key into) (λ a s, a = v ∧ holding n m s).
Proof.
  intros Hx Hc. apply (runs_on_store (λ h, get h key into) must_ok). intros r h Hg Hv.
  destruct (get_ok r h _ m key into (good_ok n r Hg) Hv) as (res & r' & E & _ & Ho & Hres). rewrite Hx, Hc in Hres. subst res.
  eexists _, r'. split; [exact E|]. split; [by eapply good_get|]. split; [by rewrite Ho|]. split; [done|]. intros s. by eexists.
Qed.

Lemma runs_set n m key v x : writable key v → convert_in v = inr x →
  runs (holding (S n) m) (MustSet 0 key v) (λ _, holding n (<[ key := x ]> m)).
Proof.
  intros Hw Hx. apply (runs_write (λ h, set h key v)). intros r h Hg Hv.
  destruct (set_ok r h _ m key v (good_ok _ r Hg) Hv) as (err & r' & E & _ & Ho & Hset). rewrite Hx in Hset.
  destruct (good_set n r h _ m key v x err r' Hg Hv Hw Hx E) as [-> Hg']. by exists r'.
Qed.

Lemma runs_remove n m key : removable key → runs (holding (S n) m) (MustRemove 0 key) (λ _, holding n (delete key m)).
Proof.
  intros Hk. apply (runs_write (λ h, remove h key)). intros r h Hg Hv.
  destruct (remove_ok r h _ m key (good_ok _ r Hg) Hv) as (err & r' & E & _ & Hv' & Ho).
  destruct (good_remove n r h _ m key err r' Hg Hv Hk E) as [-> Hg']. by exists r'.
Qed.

Lemma runs_each {S} n m (fn : string → X → S → outcome (bool * option goerr * S)) st (Q : option goerr * S → Prop) :
  (∀ l, l ≡ₚ map_to_list m → ∃ r, each_pairs fn l st = Done r ∧ Q r) →
  runs (holding n m) (Each 0 fn st) (λ r s, Q r ∧ holding n m s).
Proof.
  intros Hall s [(r & h & Hr & Hg & Hst & Hv & Huniq) Hfail].
  destruct (each_ok r h _ m fn st (good_ok n r Hg) Hv) as (l & r' & E & Hl & _ & Ho). destruct (Hall l Hl) as ([e st'] & El & Hq).
  rewrite El in E. simpl in E. exists (e, st'), (set_reg r' s). split.
  - unfold Each, mbind, T_bind, outcome_bind, get_store. rewrite Hst. simpl. apply (call_eq _ s r _ _ Hr). by rewrite E.
  - split; [done|]. split; [|done]. exists r', h. split_and!; try done; [by eapply good_each|by rewrite Ho|].
    intros h' m'. rewrite Ho. apply Huniq.
Qed.

(** Closing and opening again. *)
Lemma runs_reopen n m : runs (holding (S (S n)) m) (Reopen 0) (λ _, holding n (reread <$> m)).
Proof.
  intros s [(r & h & Hr & Hg & Hst & Hv & Huniq) Hfail].
  destruct (good_close (S n) r h _ m Hg Hv) as (r1 & E1 & Hg1 & Hsaved).
  destruct (close_ok r h _ (good_ok _ r Hg) Hv) as (err & r1' & E1' & _ & Hnone & Ho1). rewrite E1 in E1'. injection E1' as <- <-.
  assert (Hno : ∀ h' m', view r1 h' ≠ Some ("test"%string, m')).
  { intros h' m'. destruct (decide (h' = h)) as [->|Hne]; [by rewrite Hnone|]. rewrite Ho1 by done. by intros ?%Huniq. }
  destruct (good_access n r1 "test" _ Hg1 Hno Hsaved) as (h2 & r2 & E2 & Hg2 & Hv2 & _).
  destruct (access_ok r1 "test" (good_ok _ r1 Hg1) Hno) as (res & r2' & E2' & _ & Hres). rewrite E2 in E2'. injection E2' as <- <-.
  destruct Hres as (_ & _ & Ho2). exists (), (set_tstores [mkStore h2 "test"] (set_reg r2 (set_reg r1 s))). split.
  - unfold Reopen, Close, mbind, T_bind. rewrite (get_store_eq s _ _ Hst). simpl. rewrite (call_eq _ s r _ _ Hr E1). simpl.
    rewrite Hfail, (get_store_eq (set_reg r1 s) _ _ Hst). simpl. rewrite (call_eq _ (set_reg r1 s) r1 _ _ eq_refl E2). simpl.
    unfold put_store, set_tstores. simpl. by rewrite Hst.
  - split; [|done]. exists r2, h2. split_and!; try done. intros h' m' Hh'.
    destruct (decide (h' = h2)) as [|Hne]; [done|]. rewrite Ho2 in Hh' by done. by destruct (Hno h' m').
Qed.

Lemma good_le n n' r : n' ≤ n → good n r → good n' r.
Proof. induction 1; [done|]. intros Hg%good_weaken. auto. Qed.
Lemma holding_le n n' m (s : tstate) : n' ≤ n → holding n m s → holding n' m s.
Proof. intros Hn [(r & h & Hr & Hg & Hst) Hf]. split; [|done]. exists r, h. split; [done|]. split; [by eapply good_le|done]. Qed.

Lemma runs_reopen_if b n m : runs (holding (S (S n)) m) (ReopenIf b 0) (λ _, holding n (if b then reread <$> m else m)).
Proof.
  destruct b; [apply runs_reopen|]. eapply runs_mono; [apply runs_ret|done|]. intros ? s [_ Hs]. eapply holding_le, Hs. lia.
Qed.

Lemma Close_returns i (s : tstate) st r r' : treg s = Some r → tstores s !! i = Some st →
  close_store (tbackend st) r = Done (None, r') → Close i s = Done (Some (), set_reg r' s).
Proof.
  intros Hr Hst E. unfold Close, mbind, T_bind, outcome_bind, get_store. rewrite Hst. simpl. by rewrite (call_eq _ s r _ _ Hr E).
Qed.
Lemma Access_returns_store name (s : tstate) r r' h : treg s = Some r → access name r = Done (inr h, r') →
  Access name s = Done (Some (inr (length (tstores s))), mkT (Some r') (tstores s ++ [mkStore h name]) (tfailed s)).
Proof. intros Hr E. unfold Access, mbind, T_bind, outcome_bind. by rewrite (call_eq _ s r _ _ Hr E). Qed.

(** ** The tests pass *)
Section tests.
Context (mkdirTemp : goerr + string) (factory : string → goerr + R) (path : string) (r0 : R).

(** A backend that was just created, on an empty directory. *)
Record fresh : Prop := {
  fr_mkdir : mkdirTemp = inr path;
  fr_factory : factory path = inr r0;
  fr_good : good 16 r0;
  fr_none h nm : view r0 h ≠ Some nm;
  fr_saved name : saved r0 name ∅
}.
Context (Hfresh : fresh).

Lemma SetupRegistry_eq (s : tstate) : SetupRegistry (H := H) mkdirTemp factory s = Done (Some (), set_reg r0 s).
Proof. unfold SetupRegistry, mbind, T_bind, outcome_bind. rewrite (fr_mkdir Hfresh). simpl. by rewrite (fr_factory Hfresh). Qed.

Lemma cleanup_eq (s : tstate) n r : treg s = Some r → good n r → ∃ r', cleanupReg s = Done (Some (), set_reg r' s).
Proof.
  intros Hr Hg. destruct (good_close_registry n r Hg) as (err & r' & E). exists r'.
  unfold cleanupReg, mbind, T_bind, outcome_bind. by rewrite (call_eq _ s r _ _ Hr E).
Qed.

Lemma with_store_passes (fn : nat → T ()) :
  runs (holding 15 ∅) (fn 0) (λ _ s, ∃ m, holding 1 m s) → Run (WithStore mkdirTemp factory fn) = Done true.
Proof.
  intros Hfn. destruct (good_access 15 r0 "test" ∅ (fr_good Hfresh) (λ h m', fr_none Hfresh h _) (fr_saved Hfresh _))
    as (h & r & E & Hg & Hv & _).
  destruct (access_ok r0 "test" (good_ok _ _ (fr_good Hfresh)) (λ h m', fr_none Hfresh h _)) as (res & r' & E' & _ & Hres).
  rewrite E in E'. injection E' as <- <-. destruct Hres as (_ & _ & Ho).
  destruct (Hfn (mkT (Some r) [mkStore h "test"] false)) as ([] & s1 & E1 & m & [(r1 & h1 & Hr1 & Hg1 & Hst1 & Hv1 & _) Hf1]).
  { split; [|done]. exists r, h. split_and!; try done. intros h' m' Hh'. destruct (decide (h' = h)) as [|Hne]; [done|].
    rewrite Ho in Hh' by done. by apply (fr_none Hfresh) in Hh'. }
  destruct (good_close 0 r1 h1 _ m Hg1 Hv1) as (r2 & E2 & Hg2 & _).
  destruct (cleanup_eq (set_reg r2 s1) 0 r2 eq_refl Hg2) as (r3 & E3).
  unfold Run, WithStore, SetupTestStore, mbind, T_bind. rewrite SetupRegistry_eq. simpl. rewrite (Access_returns_store _ (set_reg r0 (mkT None [] false)) r0 r h eq_refl E).
  unfold deferred. simpl. unfold deferred. rewrite E1. simpl. rewrite (Close_returns 0 s1 (mkStore h1 "test") r1 r2); [|done|by rewrite Hst1|done].
  simpl. rewrite E3. simpl. by rewrite Hf1.
Qed.

Lemma init_and_close_passes : Run (H := H) (init_and_close mkdirTemp factory) = Done true.
Proof.
  unfold Run, init_and_close, WithPath, mbind, T_bind. rewrite SetupRegistry_eq. unfold deferred. simpl.
  destruct (cleanup_eq (set_reg r0 (mkT None [] false)) 16 r0 eq_refl (fr_good Hfresh)) as (r' & E). by rewrite E.
Qed.

Lemma open_stores_passes : Run (H := H) (open_stores mkdirTemp factory) = Done true.
Proof.
  destruct (good_access 15 r0 "test1" ∅ (fr_good Hfresh) (λ h m', fr_none Hfresh h _) (fr_saved Hfresh _))
    as (h1 & r1 & E1 & Hg1 & Hv1 & Hs1).
  destruct (access_ok r0 "test1" (good_ok _ _ (fr_good Hfresh)) (λ h m', fr_none Hfresh h _)) as (res & r' & E' & _ & Hres).
  rewrite E1 in E'. injection E' as <- <-. destruct Hres as (_ & _ & Ho1).
  assert (Hno : ∀ h m, view r1 h ≠ Some ("test2"%string, m)).
  { intros h m. destruct (decide (h = h1)) as [->|Hne]; [by rewrite Hv1|]. rewrite Ho1 by done. apply (fr_none Hfresh). }
  destruct (good_access 14 r1 "test2" ∅ Hg1 Hno (Hs1 "test2"%string ∅ ltac:(done) (fr_saved Hfresh _))) as (h2 & r2 & E2 & Hg2 & Hv2 & _).
  destruct (access_ok r1 "test2" (good_ok _ _ Hg1) Hno) as (res & r' & E' & _ & Hres).
  rewrite E2 in E'. injection E' as <- <-. destruct Hres as (Hnew & _ & Ho2).
  assert (h1 ≠ h2) as Hne by congruence.
  destruct (good_close 13 r2 h2 _ _ Hg2 Hv2) as (r3 & E3 & Hg3 & _).
  destruct (close_ok r2 h2 _ (good_ok _ _ Hg2) Hv2) as (err & r' & E' & _ & _ & Ho3). rewrite E3 in E'. injection E' as <- <-.
  rewrite <- Ho2, <- Ho3 in Hv1 by done. destruct (good_close 12 r3 h1 _ _ Hg3 Hv1) as (r4 & E4 & Hg4 & _).
  set (s := mkT (Some r2) [mkStore h1 "test1"; mkStore h2 "test2"] false).
  destruct (cleanup_eq (set_reg r4 (set_reg r3 s)) 12 r4 eq_refl Hg4) as (r5 & E5).
  unfold Run, open_stores, WithPath, MustAccess, mbind, T_bind. rewrite SetupRegistry_eq. unfold deferred. simpl.
  rewrite (Access_returns_store _ (set_reg r0 (mkT None [] false)) r0 r1 h1 eq_refl E1). simpl.
  rewrite (Access_returns_store _ (mkT (Some r1) [mkStore h1 "test1"] false) r1 r2 h2 eq_refl E2). simpl.
  fold s. rewrite (Close_returns 1 s (mkStore h2 "test2") r2 r3 eq_refl eq_refl E3). simpl.
  rewrite (Close_returns 0 (set_reg r3 s) (mkStore h1 "test1") r3 r4 eq_refl eq_refl E4). simpl.
  by rewrite E5.
Qed.

(** The values of the tests can be stored, and are decoded as they were, also
    after the store was opened again. *)
Definition storable_as (key : string) (v into : V) : Prop :=
  writable key v ∧ ∃ x, convert_in v = inr x ∧ convert_out x into = inr v ∧ convert_out (reread x) into = inr v.
Context (entry1 entry0 hello world nil_value : V) (range_data : list (string * V)).
Record good_values : Prop := {
  gv_entry : storable_as "key" entry1 entry0;
  gv_key : removable "key";
  gv_hello : storable_as "a" hello nil_value;
  gv_world : storable_as "b" world nil_value;
  gv_range : range_data ≡ₚ [("a"%string, hello); ("b"%string, world)]
}.
Context (Hvalues : good_values).

(** The last step of a test. *)
Lemma runs_check {A} (m : T A) (b : A → bool) n n' tbl tbl' (Q : A → Prop) : 0 < n' → (∀ a, Q a → b a = true) →
  runs (holding n tbl) m (λ a s, Q a ∧ holding n' tbl' s) →
  runs (holding n tbl) (a ← m; assert_ (b a)) (λ _ s, ∃ m, holding 1 m s).
Proof.
  intros Hn Hb Hm. eapply runs_bind; [exact Hm|]. intros a s [Hq Hs]. exists (), s. unfold assert_. rewrite (Hb a Hq).
  split; [done|]. exists tbl'. eapply holding_le, Hs. lia.
Qed.

Lemma unknown_key_passes : Run (unknown_key (H := H) (V := V) (X := X) mkdirTemp factory) = Done true.
Proof. apply with_store_passes. eapply runs_check; [| |apply runs_have]; [lia|]. intros b ->. by rewrite lookup_empty. Qed.

Lemma remove_unknown_key_passes : Run (remove_unknown_key (H := H) (V := V) (X := X) mkdirTemp factory) = Done true.
Proof. apply with_store_passes. eapply runs_mono; [apply (runs_remove 14), Hvalues|done|]. intros [] s Hs.
  eexists. eapply holding_le, Hs. lia.
Qed.

Lemma has_key_after_set_passes b : Run (has_key_after_set (H := H) (X := X) mkdirTemp factory entry1 b) = Done true.
Proof.
  destruct (gv_entry Hvalues) as (Hw & x & Hin & _). apply with_store_passes.
  eapply runs_bind; [by apply runs_set|]. intros []. eapply runs_bind; [apply runs_reopen_if|]. intros [].
  eapply runs_check; [| |apply runs_have]; [lia|]. intros ? ->.
  destruct b; rewrite ?fmap_insert, lookup_insert_eq; by apply bool_decide_eq_true.
Qed.

Lemma set_and_get_passes b : Run (set_and_get (H := H) (X := X) mkdirTemp factory entry1 entry0 b) = Done true.
Proof.
  destruct (gv_entry Hvalues) as (Hw & x & Hin & Hout & Hout'). apply with_store_passes.
  eapply runs_bind; [by apply runs_set|]. intros []. eapply runs_bind; [apply runs_reopen_if|]. intros [].
  eapply runs_check; [| |apply (runs_get _ _ _ _ (if b then reread x else x))]; [lia| | |by destruct b].
  - intros ? ->. by apply bool_decide_eq_true.
  - destruct b; by rewrite ?fmap_insert, lookup_insert_eq.
Qed.

Lemma remove_key_passes b : Run (remove_key (H := H) (X := X) mkdirTemp factory entry1 b) = Done true.
Proof.
  destruct (gv_entry Hvalues) as (Hw & x & Hin & _). apply with_store_passes.
  eapply runs_bind; [by apply runs_set|]. intros []. eapply runs_bind; [apply runs_reopen_if|]. intros [].
  eapply runs_bind; [apply runs_remove, Hvalues|]. intros []. eapply runs_bind; [apply runs_reopen_if|]. intros [].
  eapply runs_check; [| |apply runs_have]; [lia|]. intros ? ->.
  destruct b; by rewrite ?lookup_fmap, lookup_delete_eq.
Qed.

(** The test data: a table that decodes to a map. *)
Definition decodes (f : X → X) (m : gmap string X) (d : gmap string V) : Prop :=
  ∀ k, option_Forall2 (λ x v, convert_out (f x) nil_value = inr v) (m !! k) (d !! k).

Lemma decodes_insert f m d k x v : decodes f m d → convert_out (f x) nil_value = inr v →
  decodes f (<[ k := x ]> m) (<[ k := v ]> d).
Proof.
  intros Hd Hx k'. destruct (decide (k' = k)) as [->|]; [rewrite !lookup_insert_eq; by constructor|by rewrite !lookup_insert_ne].
Qed.

Lemma runs_set_all l n m d : Forall (λ kv, storable_as kv.1 kv.2 nil_value) l → decodes id m d → decodes reread m d →
  runs (holding (length l + n) m) (set_all 0 l) (λ _ s, ∃ m', holding n m' s ∧
    decodes id m' (foldl (λ d kv, <[ kv.1 := kv.2 ]> d) d l) ∧ decodes reread m' (foldl (λ d kv, <[ kv.1 := kv.2 ]> d) d l)).
Proof.
  intros Hl. revert m d. induction Hl as [|[k v] l (Hw & x & Hin & Hout & Hout') _ IH]; intros m d Hd Hd'; simpl.
  - intros s Hs. exists (), s. split; [done|]. by exists m.
  - eapply runs_bind; [by apply runs_set|]. intros []. apply IH; by apply decodes_insert.
Qed.

Lemma range_data_all : foldl (λ d kv, <[ kv.1 := kv.2 ]> d) ∅ range_data = data hello world ∧ length range_data = 2 ∧
  Forall (λ kv, storable_as kv.1 kv.2 nil_value) range_data.
Proof.
  destruct (Permutation_length_2_inv (symmetry (gv_range Hvalues))) as [->| ->]; split_and!; try done;
    try (repeat constructor; apply Hvalues).
Qed.

Lemma runs_addTestData b : runs (holding 15 ∅) (addTestData (X := X) range_data 0 b) (λ _ s, ∃ m, holding 11 m s ∧ decodes id m (data hello world)).
Proof.
  destruct range_data_all as (Hfold & Hlen & Hall). eapply runs_bind.
  { replace 15 with (length range_data + 13) by lia. apply (runs_set_all _ 13 ∅ ∅ Hall); intros k; rewrite !lookup_empty; constructor. }
  intros _ s (m & Hs & Hd & Hd'). rewrite Hfold in Hd, Hd'.
  destruct (runs_reopen_if b 11 m s Hs) as ([] & s' & E & Hs'). exists (), s'. split; [done|].
  destruct b; [|by exists m]. exists (reread <$> m). split; [done|]. intros k. rewrite lookup_fmap.
  destruct (Hd' k); simpl; by constructor.
Qed.

(** Tests that iterate. *)
Lemma iterates {S} b (fn : string → X → S → outcome (bool * option goerr * S)) st
    (c1 c2 : option goerr * S → bool) :
  (∀ m l, decodes id m (data hello world) → l ≡ₚ map_to_list m → ∃ r, each_pairs fn l st = Done r ∧ c1 r = true ∧ c2 r = true) →
  Run (WithStore (H := H) mkdirTemp factory (λ store,
    addTestData (X := X) range_data store b;; r ← Each (V := V) (X := X) store fn st; assert_ (c1 r);; assert_ (c2 r))) = Done true.
Proof.
  intros Hfn. apply with_store_passes. eapply runs_bind; [apply runs_addTestData|]. intros [] s (m & Hs & Hd).
  destruct (runs_each 11 m fn st (λ r, c1 r = true ∧ c2 r = true) (λ l Hl, Hfn m l Hd Hl) s Hs) as (r & s' & E & [Hc1 Hc2] & Hs').
  exists (), s'. unfold mbind, T_bind. rewrite E. simpl. unfold assert_. rewrite Hc1. simpl. rewrite Hc2. split; [done|].
  exists m. eapply holding_le, Hs'. lia.
Qed.
Lemma collect_eq k (x : X) v got : convert_out x nil_value = inr v → collect nil_value k x got = Done (true, None, <[ k := v ]> got).
Proof. intros Hx. unfold collect. by rewrite Hx. Qed.

Lemma collect_decodes (d : gmap string V) (l : list (string * X)) got :
  Forall (λ kx, ∃ v, d !! kx.1 = Some v ∧ convert_out kx.2 nil_value = inr v) l →
  ∃ got', each_pairs (collect nil_value) l got = Done (None, got') ∧
    ∀ k, got' !! k = if decide (k ∈ l.*1) then d !! k else got !! k.
Proof.
  intros Hl. revert got. induction Hl as [|[k x] l (v & Hk & Hx) _ IH]; intros got; [by exists got|].
  cbn [fst snd each_pairs] in *. rewrite (collect_eq k x v got Hx). simpl. destruct (IH (<[ k := v ]> got)) as (got' & E & Hgot).
  exists got'. split; [exact E|]. intros k'. rewrite Hgot. destruct (decide (k' ∈ l.*1)) as [Hin|Hout].
  - by rewrite decide_True by by right.
  - destruct (decide (k' = k)) as [->|Hne]; [by rewrite lookup_insert_eq, decide_True by left|].
    rewrite lookup_insert_ne, decide_False by (rewrite ?elem_of_cons; naive_solver). done.
Qed.

Lemma all_keys_passes b : Run (H := H) (all_keys (X := X) mkdirTemp factory hello world nil_value range_data b) = Done true.
Proof.
  apply (iterates b (collect nil_value) ∅ (λ r, bool_decide (r.1 = None)) (λ r, bool_decide (data hello world = r.2))). intros m l Hd Hl.
  destruct (collect_decodes (data hello world) l ∅) as (got & E & Hgot).
  { apply Forall_forall. intros [k x] Hin. rewrite Hl in Hin. apply elem_of_map_to_list in Hin. specialize (Hd k). rewrite Hin in Hd.
    inversion Hd; subst; eauto. }
  exists (None, got). split; [exact E|]. split; [done|]. apply bool_decide_eq_true. apply map_eq. intros k. simpl. rewrite Hgot.
  case_decide as Hin; [done|]. rewrite lookup_empty. specialize (Hd k). destruct (m !! k) as [x|] eqn:Ek; [|by inversion Hd].
  exfalso. apply Hin. rewrite Hl. apply list_elem_of_fmap. exists (k, x). split; [done|]. by apply elem_of_map_to_list.
Qed.

Lemma iteration_starts m l : decodes id m (data hello world) → l ≡ₚ map_to_list m → ∃ k x l', l = (k, x) :: l'.
Proof.
  intros Hd Hl. destruct l as [|[k x] l]; [|by exists k, x, l].
  apply Permutation_nil_l in Hl. symmetry in Hl. apply map_to_list_empty_iff in Hl as ->. specialize (Hd "a"%string). by inversion Hd.
Qed.

Lemma stop_on_error_passes b : Run (H := H) (stop_on_error (X := X) mkdirTemp factory range_data b) = Done true.
Proof.
  apply (iterates b (λ _ _ count, Done (true, Some (errText "oops"), S count)) 0 (λ r, bool_decide (r.2 = 1)) (λ r, bool_decide (r.1 ≠ None))). intros m l Hd Hl.
  destruct (iteration_starts m l Hd Hl) as (k & x & l' & ->). by eexists.
Qed.

Lemma stop_on_bool_passes b : Run (H := H) (stop_on_bool (X := X) mkdirTemp factory range_data b) = Done true.
Proof.
  apply (iterates b (λ _ _ count, Done (false, None, S count)) 0 (λ r, bool_decide (r.2 = 1)) (λ r, bool_decide (r.1 = None))). intros m l Hd Hl.
  destruct (iteration_starts m l Hd Hl) as (k & x & l' & ->). by eexists.
Qed.

Lemma suite_passes : Forall (λ test, Run (H := H) test = Done true)
  (TestBackendCompliance (X := X) mkdirTemp factory entry1 entry0 hello world nil_value range_data).
Proof.
  repeat constructor; auto using init_and_close_passes, open_stores_passes, unknown_key_passes, has_key_after_set_passes,
    set_and_get_passes, remove_unknown_key_passes, remove_key_passes, all_keys_passes, stop_on_error_passes, stop_on_bool_passes.
Qed.
End tests.
End passes.
