(* ===== verification/Compliant.v ===== *)
(** * The backends pass the compliance suite

    The backend in memory and memlog, started on an empty directory and without
    I/O errors, are [Reliable], and so pass every test of the suite. *)

From stdpp Require Import base gmap strings list fin_maps.
From Stdlib Require Import ZArith Lia SpecFloat.
From S2P Require Import Prelude GoValue Fs DiskData DiskFacts Memlog Returns TestEncoder Durable Backend MemlogBackend Compliance.
From S2P Require Storetest.

(** ** memlog *)
Section memlog.
Context `{EncoderLaws storable storable_key} {V : Type} `{!TypeConv V}.
Context (iterate : table → list (string * entry)) (Hiterate : ∀ t, iterate t ≡ₚ map_to_list t).
Abbreviation state := (state V).
#[local] Instance memlog_convert : Convert V entry := entry_convert.
#[local] Instance memlog_registry : Backend state nat V entry := memlog_backend iterate.
#[local] Instance memlog_registry_laws : BackendLaws state nat V entry :=
  memlog_laws (storable := storable) (storable_key := storable_key) iterate Hiterate.
Abbreviation call_ok := (call_ok (storable := storable) (storable_key := storable_key)).

Record running (n : nat) (r : state) : Prop := {
  ru_ok : memlog_ok (storable := storable) (storable_key := storable_key) r;
  ru_calls : Forall call_ok (journal r);
  ru_length : (Z.of_nat (length (journal r) + n) + 2 < 2 ^ 63 - 1)%Z;
  ru_faults : access_faults r = [] ∧ store_faults r = [];
  ru_registry : Registry.active (registry r) = true ∧ Registry.wg (registry r) = 0
}.

Lemma running_reliable n r : running n r → reliable (storable := storable) (storable_key := storable_key) r.
Proof. intros [_ Hc Hl _ _]. split; [done|lia]. Qed.
Lemma running_weaken n r : running (S n) r → running n r.
Proof. intros []. split; [done|done|lia|done|done]. Qed.

(** After one more call. *)
Lemma running_call n r r' name c : running (S n) r → memlog_ok (storable := storable) (storable_key := storable_key) r' →
  call_ok (mkCall name c []) → journal r' = journal r ++ [mkCall name c []] → access_faults r' = [] → store_faults r' = [] →
  registry r' = registry r → running n r'.
Proof.
  intros [_ Hc Hl _ Hreg] Hok' Hc' Hj Ha Hs Hr. split; [done| | |done|by rewrite Hr]; rewrite Hj.
  - apply Forall_app. split; [done|]. by apply Forall_singleton.
  - rewrite length_app. simpl. lia.
Qed.

Lemma running_on_store n r r' name h (m : table) c (f : Memlog.store → IO (option goerr * Memlog.store)) err :
  running (S n) r → memlog_view r h = Some (name, m) → call_ok (mkCall name c []) → on_store h c f r = Done (err, r') →
  memlog_ok (storable := storable) (storable_key := storable_key) r' → registry r' = registry r → running n r'.
Proof.
  intros Hg Hv Hc E Hok' Hr. destruct (ru_faults _ _ Hg) as [Ha Hs].
  destruct (on_store_journal h c f r r' err name m Hv E) as (Hj & Ha' & Hs'). rewrite Hs in Hj, Hs'.
  eapply (running_call n r r' name c); eauto; congruence.
Qed.

#[local] Instance memlog_reliable : Reliable state nat V entry.
Proof.
  refine {|
    good := running;
    saved := MemlogBackend.saved (storable := storable);
    reread := entry_json;
    writable k v := ∀ m, convert_to_map v = inr m → storable k m;
    removable := storable_key
  |}.
  - intros n r Hg. apply (ru_ok _ _ Hg).
  - apply running_weaken.
  - intros n r name m Hg Hno Hs. pose proof Hs as [_ (t0 & Hop0 & Ht0)]. destruct (ru_faults _ _ Hg) as [Ha Hsf]. destruct (ru_registry _ _ Hg) as [Hact Hwg].
    pose proof (proj2 (running_reliable _ _ Hg)) as Hlen0.
    destruct (memlog_opens name r m t0 (ru_ok _ _ Hg) Hop0 ltac:(lia) Hact ltac:(by rewrite Ha) Hno) as (h & r' & E & Hv).
    destruct (memlog_access_ok r name (ru_ok _ _ Hg) Hno) as (res & r1 & E1 & Hok' & _). rewrite E in E1. injection E1 as <- <-.
    destruct (Access_dir_journal name r r' _ E) as (Hj & Ha' & Hs' & Hr). rewrite Ha in Hj, Ha'.
    exists h, r'. split; [exact E|]. split; [|split; [exact Hv|]].
    + eapply (running_call n r r' name None); eauto; [done|congruence].
    + intros name' m' Hne [Hst (t & Hop & Ht)]. split; [done|]. exists t. split; [|rewrite Hj, length_app; simpl; lia].
      erewrite Access_dir_other; eauto.
  - intros n r h name m Hg Hv. destruct (memlog_close_ok r h name m (ru_ok _ _ Hg) Hv) as (err & r' & E & Hok' & _ & _ & Hq & Hr).
    assert (Hrun : running n r') by (refine (running_on_store n r r' name h m _ _ _ Hg Hv _ E Hok' Hr); by split).
    destruct (Hq (running_reliable _ _ Hrun)) as [-> Hs]. by exists r'.
  - intros n r h name m k res r' Hg Hv E. cbn in E. destruct (stores r !! h); simpl in E; [by injection E as <- <-|done].
  - intros n r h name m k v res r' Hg Hv E. cbn in E. destruct (stores r !! h); simpl in E; [by injection E as <- <-|done].
  - intros n r h name m S fn st res r' Hg Hv E. cbn in E. destruct (stores r !! h); simpl in E; [|done].
    destruct (Memlog.Each _ _ _ _); [|done..]. by injection E as _ <-.
  - intros n r h name m k v x err r' Hg Hv Hw Hin E.
    destruct (write_ok iterate Hiterate r h name m (CSet k v) (ru_ok _ _ Hg) Hv) as (err' & r1 & E1 & Hok' & _ & _ & _ & Hq & Hr).
    change (write iterate h (CSet k v) r = Done (err, r')) in E. rewrite E in E1. injection E1 as <- <-.
    cbn in Hin. destruct (convert_to_map v) as [e|m0] eqn:Em; [done|].
    assert (Hrun : running n r').
    { refine (running_on_store n r r' name h m (Some (CSet k v)) _ _ Hg Hv _ E Hok' Hr). split; [done|]. unfold call_writable. simpl. rewrite Em. by apply Hw. }
    split; [|done]. rewrite (Hq (running_reliable _ _ Hrun)). simpl. by rewrite Em.
  - intros n r h name m k err r' Hg Hv Hk E.
    destruct (write_ok iterate Hiterate r h name m (CRemove k) (ru_ok _ _ Hg) Hv) as (err' & r1 & E1 & Hok' & _ & _ & _ & Hq & Hr).
    change (write iterate h (CRemove k) r = Done (err, r')) in E. rewrite E in E1. injection E1 as <- <-.
    assert (Hrun : running n r') by (refine (running_on_store n r r' name h m _ _ _ Hg Hv _ E Hok' Hr); by split).
    split; [|done]. exact (Hq (running_reliable _ _ Hrun)).
  - intros n r Hg. destruct (ru_registry _ _ Hg) as [_ Hwg]. unfold close_registry. cbn. unfold Close_registry, Registry.Close.
    rewrite Hwg. by eexists _, _.
Defined.

Lemma memlog_storable_as key v into m : convert_to_map v = inr m → storable key m → convert_from_map m into = inr v →
  convert_from_map (as_json <$> m) into = inr v → storable_as (R := state) (H := nat) (X := entry) key v into.
Proof.
  intros Hm Hst Hin Hin'. split; [intros m'; rewrite Hm; by intros [= <-]|]. exists (mkEntry m).
  split; [unfold convert_in, memlog_convert, entry_convert; by rewrite Hm|done].
Qed.
End memlog.

(** *** A new registry *)
Section new_memlog.
Context `{EncoderLaws storable storable_key} {V : Type} `{!TypeConv V}.

(** The factory of memlog_test.go, over a temporary directory, in which no store
    exists and no I/O fails. *)
Definition memlog_factory (abs : string → goerr + string) (mode : Z) (bufSz : nat) (pred : option (Z → bool)) (ignore : bool)
    (testPath : string) : goerr + MemlogBackend.state V :=
  match Registry.New abs (Registry.mkSettings testPath mode bufSz pred ignore) with
  | inl e => inl e
  | inr g => inr (mkState g ∅ [] [] [] [])
  end.

Lemma new_memlog_running abs settings g : Registry.New abs settings = inr g →
  running (storable := storable) (storable_key := storable_key) 16 (mkState (V := V) g ∅ [] [] [] []).
Proof.
  intros Hg. split.
  - eapply memlog_new_ok; [exact Hg|constructor|]. intros n. rewrite lookup_empty. constructor.
  - constructor.
  - done.
  - done.
  - unfold Registry.New in Hg. destruct (abs _); [done|]. by injection Hg as <-.
Qed.
End new_memlog.

(** C10. memlog passes the compliance suite of the state store's backends, whatever
    its settings: in particular with a checkpoint at every write, and with one
    when the log is large.  Every test ends without having failed: stores open,
    close and open again, a key that was set is found and has its value, also
    after the store was closed and opened again, a removed key is gone, and an
    iteration visits every pair once and stops when it is told to.  The values
    of the tests have to be storable and to come back from JSON as they were. *)
Theorem memlog_is_compliant `{EncoderLaws storable storable_key} {V : Type} `{!TypeConv V, !EqDecision V}
    (iterate : table → list (string * entry)) (Hiterate : ∀ t, iterate t ≡ₚ map_to_list t)
    abs mode bufSz pred ignore path root (entry1 entry0 hello world nil_value : V) range_data :
  let _ : Convert V entry := entry_convert in
  let _ : Backend (MemlogBackend.state V) nat V entry := memlog_backend iterate in
  let _ : BackendLaws (MemlogBackend.state V) nat V entry :=
    memlog_laws (storable := storable) (storable_key := storable_key) iterate Hiterate in
  let _ : Reliable (MemlogBackend.state V) nat V entry :=
    memlog_reliable (storable := storable) (storable_key := storable_key) iterate Hiterate in
  abs path = inr root → good_values (R := MemlogBackend.state V) (H := nat) (X := entry) entry1 entry0 hello world nil_value range_data →
  Forall (λ test, Run test = Done true)
    (TestBackendCompliance (R := MemlogBackend.state V) (H := nat) (X := entry) (inr path) (memlog_factory abs mode bufSz pred ignore)
      entry1 entry0 hello world nil_value range_data).
Proof.
  intros Hconv Hback Hlaws Hrel Habs Hvalues.
  destruct (Registry.New abs (Registry.mkSettings path mode bufSz pred ignore)) as [e|g] eqn:Hg;
    [unfold Registry.New in Hg; simpl in Hg; by rewrite Habs in Hg|].
  apply (suite_passes _ _ path (mkState g ∅ [] [] [] [])); [|done].
  pose proof (new_memlog_running (storable := storable) (storable_key := storable_key) (V := V) abs _ g Hg) as Hrun.
  split; [done|unfold memlog_factory; by rewrite Hg|exact Hrun|done|].
  intros name. split; [intros k e; by rewrite lookup_empty|]. exists 0%Z. split; [|done].
  unfold dir. simpl. rewrite lookup_empty. constructor.
Qed.

(** ** The backend in memory *)
Section memory.
Import Storetest.
Context {V X : Type} `{!Convert V X, !EqDecision V}.
Context (iterate : gmap string X → list (string * X)) (Hiterate : ∀ t, iterate t ≡ₚ map_to_list t).
#[local] Instance memory_registry : Backend (MemoryStore X) string V X := memory_backend iterate.
#[local] Instance memory_registry_laws : BackendLaws (MemoryStore X) string V X := memory_laws iterate Hiterate.

(** The table of a store that is closed, or was never opened. *)
Definition closed_table (m : MemoryStore X) (name : string) : gmap string X :=
  default ∅ (default ∅ (Stores m) !! name ≫= Table).

Lemma closed_table_insert st name s name' : closed_table (mkMemoryStore (Some (<[ name := s ]> st))) name' =
  if decide (name' = name) then default ∅ (Table s) else closed_table (mkMemoryStore (Some st)) name'.
Proof.
  unfold closed_table. simpl. case_decide as Hn; [subst; by rewrite lookup_insert_eq|by rewrite lookup_insert_ne].
Qed.

#[local] Instance memory_reliable : Reliable (MemoryStore X) string V X.
Proof.
  refine {|
    good _ _ := True;
    saved m name t := closed_table m name = t;
    reread := id;
    writable _ _ := True;
    removable _ := True
  |}; [done|done|..|done|done|done| | |].
  - intros _ m name t _ Hno <-. cbn. rewrite Access_eq. eexists name, _. split; [done|]. split; [done|]. split.
    + unfold named_view. rewrite memory_view_insert, decide_True by done. unfold closed_table.
      destruct (default ∅ (Stores m) !! name) as [s|]; [|done]. by destruct s as [c [t|]].
    + intros name' t' Hne <-. by rewrite closed_table_insert, decide_False.
  - intros _ m h name t _ Hv. apply named_view_Some in Hv as [-> Hv]. unfold memory_view in Hv.
    cbn. unfold on_store. destruct (default ∅ (Stores m) !! h) as [s|] eqn:Es; [|done]. simpl in Hv.
    eexists. split; [done|]. split; [done|]. rewrite closed_table_insert, decide_True by done.
    unfold store_view in Hv. destruct (closed s); [done|]. injection Hv as <-. by rewrite map_fmap_id.
  - intros _ m h name t k v x err m' _ Hv _ Hin E. apply named_view_Some in Hv as [-> Hv]. unfold memory_view in Hv.
    cbn in E. unfold on_store in E. destruct (default ∅ (Stores m) !! h) as [s|]; [|done]. simpl in *.
    unfold Set_, store_view in *. destruct (closed s); [done|]. rewrite Hin in E. by injection E as <- <-.
  - intros _ m h name t k err m' _ Hv _ E. apply named_view_Some in Hv as [-> Hv]. unfold memory_view in Hv.
    cbn in E. unfold on_store in E. destruct (default ∅ (Stores m) !! h) as [s|]; [|done]. simpl in *.
    unfold Remove, store_view in *. destruct (closed s); [done|]. by injection E as <- <-.
  - intros _ m _. by eexists _, _.
Defined.

(** The factory of storetest_test.go. *)
Lemma memory_is_compliant (entry1 entry0 hello world nil_value : V) range_data path :
  good_values (R := MemoryStore X) (H := string) (X := X) entry1 entry0 hello world nil_value range_data →
  Forall (λ test, Run test = Done true)
    (TestBackendCompliance (R := MemoryStore X) (H := string) (X := X) (inr path) (λ _, inr NewMemoryStoreBackend)
      entry1 entry0 hello world nil_value range_data).
Proof. intros Hv. apply (suite_passes _ _ path NewMemoryStoreBackend); [|done]. by split. Qed.
End memory.

(** ** A run *)
(** The test's struct [entry], and an [interface{}] that holds a map or nil. *)
Inductive test_value := TEntry (A : Z) | TInterface (m : option mapstr).
#[local] Instance test_value_eq_dec : EqDecision test_value.
Proof. solve_decision. Defined.
Definition float_to_Z (f : float64) : Z :=
  match f with
  | S754_finite neg m e => (if neg then -1 else 1) * (if decide (0 ≤ e)%Z then Zpos m * 2 ^ e else Zpos m / 2 ^ (- e))
  | _ => 0
  end%Z.
#[local] Instance test_value_conv : TypeConv test_value := {
  convert_to_map v :=
    match v with
    | TEntry A => inr {[ "a" := VInt A ]}
    | TInterface (Some m) => inr m
    | TInterface None => inr ∅
    end;
  convert_from_map m to :=
    match to, m !! "a"%string with
    | TInterface _, _ => inr (TInterface (Some m))
    | TEntry _, Some (VInt z) => inr (TEntry z)
    | TEntry _, Some (VFloat f) => inr (TEntry (float_to_Z f))
    | TEntry A, _ => inr (TEntry A)
    end
}.
Definition field (s : string) : test_value := TInterface (Some {[ "field" := VStr s ]}).

Lemma memlog_is_compliant_witness :
  Forall (λ test, @Run (MemlogBackend.state test_value) nat test = Done true)
    (@TestBackendCompliance (MemlogBackend.state test_value) nat test_value entry (memlog_backend map_to_list) entry_convert _
      (inr "/tmp/1"%string) (memlog_factory inr 0 0 (Some (λ _, true)) false)
      (TEntry 1) (TEntry 0) (field "hello") (field "world") (TInterface None)
      [("b"%string, field "world"); ("a"%string, field "hello")]).
Proof.
  apply (memlog_is_compliant (storable := test_storable) (storable_key := test_storable_key) map_to_list (λ _, reflexivity _)
    inr 0 0 (Some (λ _, true)) false "/tmp/1" "/tmp/1"); [reflexivity|].
  split; [apply (memlog_storable_as map_to_list (λ _, reflexivity _) _ _ _ {[ "a" := VInt 1 ]})|vm_compute|..|apply Permutation_swap];
    [| | | | |apply (memlog_storable_as map_to_list (λ _, reflexivity _) _ _ _ {[ "field" := VStr "hello" ]})
    |apply (memlog_storable_as map_to_list (λ _, reflexivity _) _ _ _ {[ "field" := VStr "world" ]})];
    vm_compute; reflexivity.
Defined.
