(* ===== verification/Feature.v ===== *)
(** * The feature registry: pkg/feature

    Features by namespace and name (registry.go), the features themselves and
    their description (feature.go, details.go, stability.go), and bundles
    (bundle.go).  A factory is any value; [pointer] is what
    [reflect.ValueOf(f).Pointer()] yields for it, [None] where that panics.
    Names are ASCII: [strings.ToLower] is modelled on ASCII letters. *)

From stdpp Require Import base gmap strings list fin_maps.
From Stdlib Require Import ZArith Lia Ascii.
From S2P Require Import Prelude Fs.

Definition Stability : Type := Z.
Definition Undefined : Stability := 0%Z.
Definition Stable : Stability := 1%Z.
Definition Beta : Stability := 2%Z.
Definition Experimental : Stability := 3%Z.
(** [String], generated by stringer; [FormatInt] prints in base 10. *)
Definition stability_name : string := "UndefinedStableBetaExperimental".
Definition stability_index : list nat := [0; 9; 15; 19; 31].
Definition Stability_String (format_int : Z → string) (i : Stability) : string :=
  if bool_decide (i < 0 ∨ i >= Z.of_nat (length stability_index) - 1)%Z then "Stability(" +:+ format_int i +:+ ")"
  else
    let n := Z.to_nat i in
    let first := default 0 (stability_index !! n) in
    let last := default 0 (stability_index !! S n) in
    String.substring first (last - first) stability_name.

Record Details := mkDetails {
  DName : string;
  DStability : Stability;
  Deprecated : bool;
  Info : string;
  Doc : string
}.
Definition Details_String (format_int : Z → string) (d : Details) : string :=
  "name: " +:+ DName d +:+ ", description: " +:+ Info d +:+ (if Deprecated d then " (deprecated, " else " (") +:+
  Stability_String format_int (DStability d) +:+ ")".
Definition MakeDetails (fullName doc : string) (stability : Stability) : Details :=
  mkDetails fullName stability false doc "".

Definition normalize (s : string) : string := ToLower s.

Section feature.
Context {F : Type} (pointer : F → option Z).

Record Feature := mkFeature {
  namespace : string;
  name : string;
  factory : option F;
  description : Details
}.
Definition New (namespace name : string) (factory : option F) (description : Details) : Feature :=
  mkFeature namespace name factory description.
Definition Feature_String (format_int : Z → string) (f : Feature) : string :=
  namespace f +:+ "/" +:+ name f +:+ " (description: " +:+ Details_String format_int (description f) +:+ ")".

(** ** registry.go *)
Record Registry := mkRegistry { namespaces : gmap string (gmap string Feature) }.
Definition NewRegistry : Registry := mkRegistry ∅.

Definition nilFactory (n : string) : goerr := errText ("feature '" +:+ n +:+ "' cannot be registered with a nil factory").
Definition notUnique (n ns : string) : goerr :=
  errText ("could not register new feature '" +:+ n +:+ "' in namespace '" +:+ ns +:+ "', feature name must be unique").
Definition unknownNamespace (ns : string) : goerr := errText ("unknown namespace named '" +:+ ns +:+ "'").
Definition unknownFeature (n ns : string) : goerr := errText ("unknown feature '" +:+ n +:+ "' in namespace '" +:+ ns +:+ "'").

(** The conditions are evaluated in their order; comparing factories that have no
    pointer panics. *)
Definition Pointer (f : option F) : outcome Z :=
  match f ≫= pointer with
  | Some p => Done p
  | None => Panic "reflect: call of reflect.Value.Pointer"
  end.
Definition featuresEqual (f1 f2 : Feature) : outcome bool :=
  if bool_decide (name f1 = name f2) && bool_decide (namespace f1 = namespace f2) then
    p1 ← Pointer (factory f1);
    p2 ← Pointer (factory f2);
    Done (bool_decide (p1 = p2))
  else Done false.

Definition Register (feature : Feature) (r : Registry) : outcome (option goerr * Registry) :=
  let ns := normalize (namespace feature) in
  let n := normalize (name feature) in
  match factory feature with
  | None => Done (Some (nilFactory n), r)
  | Some _ =>
    let r := if bool_decide (is_Some (namespaces r !! ns)) then r else mkRegistry (<[ ns := ∅ ]> (namespaces r)) in
    let features := default ∅ (namespaces r !! ns) in
    match features !! n with
    | Some f =>
      eq ← featuresEqual feature f;
      if (eq : bool) then Done (None, r) else Done (Some (notUnique n ns), r)
    | None => Done (None, mkRegistry (<[ ns := <[ n := feature ]> features ]> (namespaces r)))
    end
  end.

(** The name is looked up as it is given. *)
Definition Unregister (ns n : string) (r : Registry) : option goerr * Registry :=
  let ns := normalize ns in
  match namespaces r !! ns with
  | None => (Some (unknownNamespace ns), r)
  | Some v =>
    match v !! n with
    | None => (Some (unknownFeature n ns), r)
    | Some _ => (None, mkRegistry (<[ ns := delete n v ]> (namespaces r)))
    end
  end.

Definition Lookup (ns n : string) (r : Registry) : goerr + Feature :=
  let ns := normalize ns in
  let n := normalize n in
  match namespaces r !! ns with
  | None => inl (unknownNamespace ns)
  | Some v =>
    match v !! n with
    | None => inl (unknownFeature n ns)
    | Some m => inr m
    end
  end.

(** [iterate] is the order of [range] over a map. *)
Definition LookupAll (iterate : gmap string Feature → list (string * Feature)) (ns : string) (r : Registry) :
    goerr + list Feature :=
  let ns := normalize ns in
  match namespaces r !! ns with
  | None => inl (unknownNamespace ns)
  | Some v => inr (snd <$> iterate v)
  end.

Definition Overwrite (feature : Feature) (r : Registry) : outcome (option goerr * Registry) :=
  match Lookup (namespace feature) (name feature) r with
  | inl _ => Register feature r
  | inr _ =>
    let '(err, r) := Unregister (namespace feature) (name feature) r in
    match err with
    | Some err => Done (Some err, r)
    | None => Register feature r
    end
  end.

Definition Size (r : Registry) : nat := map_fold (λ _ v c, c + size v) 0 (namespaces r).

(** ** bundle.go *)
Record Bundle := mkBundle { features : list Feature }.
Definition NewBundle (fs : list Feature) : Bundle := mkBundle fs.
Fixpoint filter_loop (pred : Feature → bool) (fs filtered : list Feature) : list Feature :=
  match fs with
  | [] => filtered
  | f :: fs => filter_loop pred fs (if pred f then filtered ++ [f] else filtered)
  end.
Definition FilterWith (pred : Feature → bool) (b : Bundle) : Bundle := NewBundle (filter_loop pred (features b) []).
Fixpoint HasStabilityPred (stabilities : list Stability) (f : Feature) : bool :=
  match stabilities with
  | [] => false
  | s :: stabilities => if bool_decide ((s : Z) = DStability (description f)) then true else HasStabilityPred stabilities f
  end.
Definition Filter (stabilities : list Stability) (b : Bundle) : Bundle := FilterWith (HasStabilityPred stabilities) b.

(** [bundleable]: a feature or a bundle. *)
Inductive bundleable := IsFeature (f : Feature) | IsBundle (b : Bundle).
Definition Features (b : bundleable) : list Feature :=
  match b with IsFeature f => [f] | IsBundle b => features b end.
Fixpoint merge_loop (bs : list bundleable) (merged : list Feature) : list Feature :=
  match bs with
  | [] => merged
  | b :: bs => merge_loop bs (merged ++ Features b)
  end.
Definition MustBundle (bs : list bundleable) : Bundle := NewBundle (merge_loop bs []).

(** ** feature.go, on the global registry [r] *)
Fixpoint RegisterBundle_loop (fs : list Feature) (r : Registry) : outcome (option goerr * Registry) :=
  match fs with
  | [] => Done (None, r)
  | f :: fs =>
    er ← Register f r;
    match er.1 with
    | Some err => Done (Some err, er.2)
    | None => RegisterBundle_loop fs er.2
    end
  end.
Definition RegisterBundle (b : Bundle) (r : Registry) : outcome (option goerr * Registry) := RegisterBundle_loop (features b) r.
(** [OverwriteBundle] calls [Register] too. *)
Definition OverwriteBundle (b : Bundle) (r : Registry) : outcome (option goerr * Registry) := RegisterBundle_loop (features b) r.

(** The [Must] functions panic on an error. *)
Definition must (m : outcome (option goerr * Registry)) : outcome Registry :=
  er ← m;
  match er.1 with
  | Some _ => Panic "error"
  | None => Done er.2
  end.
Definition MustRegisterBundle (b : Bundle) (r : Registry) : outcome Registry := must (RegisterBundle b r).
Definition MustOverwriteBundle (b : Bundle) (r : Registry) : outcome Registry := must (OverwriteBundle b r).
Definition MustRegister (f : Feature) (r : Registry) : outcome Registry := must (Register f r).
End feature.
Arguments Feature : clear implicits.
Arguments Registry : clear implicits.
Arguments Bundle : clear implicits.
Arguments bundleable : clear implicits.

(** ** The properties *)
Lemma lower_idempotent c : lower (lower c) = lower c.
Proof. destruct c as [[] [] [] [] [] [] [] []]; vm_compute; reflexivity. Qed.

Lemma normalize_idempotent s : normalize (normalize s) = normalize s.
Proof. unfold normalize. induction s as [|c s IH]; [done|]. simpl. by rewrite lower_idempotent, IH. Qed.

Section registry.
Context {F : Type} (pointer : F → option Z).

(** The feature under a normalized namespace and name. *)
Definition entry (r : Registry F) (ns n : string) : option (Feature F) := v ← namespaces r !! ns; v !! n.

Lemma Lookup_entry (r : Registry F) ns n f : Lookup ns n r = inr f ↔ entry r (normalize ns) (normalize n) = Some f.
Proof.
  unfold Lookup, entry. destruct (namespaces r !! normalize ns) as [v|]; simpl; [|done].
  destruct (v !! normalize n); naive_solver.
Qed.

Lemma entry_insert (r : Registry F) ns v ns' n' :
  entry (mkRegistry (<[ ns := v ]> (namespaces r))) ns' n' = if decide (ns' = ns) then v !! n' else entry r ns' n'.
Proof.
  unfold entry. simpl. case_decide as Hd; [subst; by rewrite lookup_insert_eq|by rewrite lookup_insert_ne].
Qed.

(** Registering makes the namespace, which cannot be seen. *)
Lemma entry_lazy (r : Registry F) ns ns' n' :
  entry (if bool_decide (is_Some (namespaces r !! ns)) then r else mkRegistry (<[ ns := ∅ ]> (namespaces r))) ns' n' = entry r ns' n'.
Proof.
  case_bool_decide as Hs; [done|]. rewrite entry_insert. case_decide as Hd; [subst|done].
  apply eq_None_not_Some in Hs. unfold entry. by rewrite Hs.
Qed.

(** Every feature is under its own normalized names and has a factory. *)
Definition registry_ok (r : Registry F) : Prop :=
  ∀ ns n f, entry r ns n = Some f → normalize (namespace f) = ns ∧ normalize (name f) = n ∧ is_Some (factory f).

(** The effect of [Register] on the entries. *)
Lemma Register_entries (f : Feature F) r err r' : Register pointer f r = Done (err, r') →
  let ns := normalize (namespace f) in let n := normalize (name f) in
  (factory f = None ∧ err = Some (nilFactory n) ∧ r' = r) ∨
  (is_Some (factory f) ∧ ∃ g, entry r ns n = Some g ∧ (∀ ns' n', entry r' ns' n' = entry r ns' n') ∧
    ((err = None ∧ featuresEqual pointer f g = Done true) ∨ (err = Some (notUnique n ns) ∧ featuresEqual pointer f g = Done false))) ∨
  (is_Some (factory f) ∧ entry r ns n = None ∧ err = None ∧
    ∀ ns' n', entry r' ns' n' = if decide (ns' = ns ∧ n' = n) then Some f else entry r ns' n').
Proof.
  unfold Register. set (ns := normalize (namespace f)). set (n := normalize (name f)).
  destruct (factory f) as [fac|] eqn:Hf; [|intros [= <- <-]; by left].
  set (r1 := if bool_decide _ then r else _).
  assert (Hr1 : ∀ ns' n', entry r1 ns' n' = entry r ns' n') by (intros; apply entry_lazy).
  assert (Hv : ∃ v, namespaces r1 !! ns = Some v).
  { unfold r1. case_bool_decide as Hs; [done|]. exists ∅. simpl. apply lookup_insert_eq. }
  destruct Hv as [v Hv]. rewrite Hv. simpl.
  assert (Hn : entry r ns n = v !! n) by (rewrite <- Hr1; unfold entry; by rewrite Hv).
  destruct (v !! n) as [g|] eqn:Hg.
  - intros (eq & Eq & Hres)%bind_Done_inv. right. left. split; [eauto|]. exists g. split; [done|].
    destruct eq; injection Hres as <- <-; (split; [done|]); auto.
  - intros [= <- <-]. right. right. split_and!; [eauto|done|done|]. intros ns' n'. rewrite entry_insert, <- Hr1.
    destruct (decide (ns' = ns)) as [->|Hne]; [|by rewrite decide_False by naive_solver].
    destruct (decide (n' = n)) as [->|Hne]; [rewrite lookup_insert_eq, decide_True; done|].
    rewrite lookup_insert_ne, decide_False by naive_solver. unfold entry. by rewrite Hv.
Qed.

(** A new name is registered. *)
Lemma Register_fresh (f : Feature F) r : is_Some (factory f) →
  entry r (normalize (namespace f)) (normalize (name f)) = None → ∃ r', Register pointer f r = Done (None, r').
Proof.
  intros [fac Hf] Hnone. rewrite <- (entry_lazy r (normalize (namespace f))) in Hnone. unfold Register. rewrite Hf.
  revert Hnone. set (r1 := if bool_decide _ then r else _). unfold entry.
  destruct (namespaces r1 !! normalize (namespace f)) as [v|]; simpl; [intros ->|rewrite lookup_empty]; by eexists.
Qed.

(** A name that is in use. *)
Lemma Register_known (f : Feature F) r g : is_Some (factory f) →
  entry r (normalize (namespace f)) (normalize (name f)) = Some g →
  Register pointer f r = (eq ← featuresEqual pointer f g;
    Done (if (eq : bool) then None else Some (notUnique (normalize (name f)) (normalize (namespace f))), r)).
Proof.
  intros [fac Hf] Hg. unfold Register, entry in *. rewrite Hf.
  destruct (namespaces r !! normalize (namespace f)) as [v|] eqn:Hv; [|done]. simpl in Hg.
  rewrite bool_decide_true by eauto. rewrite Hv. simpl. rewrite Hg. by destruct (featuresEqual pointer f g) as [[]| |].
Qed.

Lemma must_Done (m : outcome (option goerr * Registry F)) r' : must m = Done r' → m = Done (None, r').
Proof. unfold must. destruct m as [[[e|] r1]| |]; simpl; congruence. Qed.

Lemma Register_ok f r err r' : registry_ok r → Register pointer f r = Done (err, r') → registry_ok r'.
Proof.
  intros Hok Er. apply Register_entries in Er as [(_ & _ & ->)|[(_ & g & _ & He & _)|(Hf & _ & _ & He)]]; [done| |].
  - intros ns n h. rewrite He. apply Hok.
  - intros ns n h. rewrite He. case_decide as Hd; [|apply Hok]. intros [= <-]. destruct Hd as [-> ->]. done.
Qed.

Lemma Unregister_entries ns n (r : Registry F) err r' : Unregister ns n r = (err, r') →
  (err = None ∧ is_Some (entry r (normalize ns) n) ∧
    ∀ ns' n', entry r' ns' n' = if decide (ns' = normalize ns ∧ n' = n) then None else entry r ns' n') ∨
  (is_Some err ∧ r' = r ∧ entry r (normalize ns) n = None).
Proof.
  unfold Unregister. destruct (namespaces r !! normalize ns) as [v|] eqn:Hv.
  2: { intros [= <- <-]. right. split_and!; [eauto|done|]. unfold entry. by rewrite Hv. }
  assert (Hn : entry r (normalize ns) n = v !! n) by (unfold entry; by rewrite Hv). rewrite Hn.
  destruct (v !! n) as [g|] eqn:Hg; intros [= <- <-]; [left|right; eauto]. split_and!; [done|eauto|].
  intros ns' n'. rewrite entry_insert. destruct (decide (ns' = normalize ns)) as [->|Hne]; [|by rewrite decide_False by naive_solver].
  destruct (decide (n' = n)) as [->|Hne]; [rewrite lookup_delete_eq, decide_True; done|].
  rewrite lookup_delete_ne, decide_False by naive_solver. unfold entry. by rewrite Hv.
Qed.

Lemma Unregister_ok ns n (r : Registry F) : registry_ok r → registry_ok (Unregister ns n r).2.
Proof.
  intros Hok. destruct (Unregister ns n r) as [err r'] eqn:E.
  apply Unregister_entries in E as [(_ & _ & He)|(_ & -> & _)]; [|done].
  intros ns' n' f. simpl. rewrite He. case_decide; [done|]. apply Hok.
Qed.

Lemma Overwrite_ok f r err r' : registry_ok r → Overwrite pointer f r = Done (err, r') → registry_ok r'.
Proof.
  intros Hok. unfold Overwrite. destruct (Lookup _ _ r); [by apply Register_ok|].
  pose proof (Unregister_ok (namespace f) (name f) r Hok) as Hok1. destruct (Unregister _ _ r) as [[e|] r1]; [by intros [= <- <-]|].
  by apply Register_ok.
Qed.

Lemma RegisterBundle_ok fs r err r' : registry_ok r → RegisterBundle_loop pointer fs r = Done (err, r') → registry_ok r'.
Proof.
  revert r. induction fs as [|f fs IH]; intros r Hok; simpl; [by intros [= <- <-]|].
  intros ([e r1] & E & Hres)%bind_Done_inv. pose proof (Register_ok _ _ _ _ Hok E) as Hok1. simpl in Hres.
  destruct e; [by injection Hres as <- <-|]. by apply (IH r1).
Qed.
End registry.

Lemma filter_loop_eq {F} (pred : Feature F → bool) fs acc : filter_loop pred fs acc = acc ++ List.filter pred fs.
Proof.
  revert acc. induction fs as [|f fs IH]; intros acc; simpl; [by rewrite app_nil_r|]. rewrite IH.
  destruct (pred f); [by rewrite <- app_assoc|done].
Qed.

Lemma merge_loop_eq {F} (bs : list (bundleable F)) acc : merge_loop bs acc = acc ++ concat (Features <$> bs).
Proof. revert acc. induction bs as [|b bs IH]; intros acc; simpl; [by rewrite app_nil_r|]. by rewrite IH, <- app_assoc. Qed.

Lemma HasStabilityPred_eq {F} stabs (f : Feature F) : HasStabilityPred stabs f = bool_decide ((DStability (description f) : Z) ∈ stabs).
Proof.
  induction stabs as [|s stabs IH]; cbn [HasStabilityPred].
  { symmetry. apply bool_decide_eq_false. by intros ?%not_elem_of_nil. }
  destruct (decide ((s : Z) = DStability (description f))) as [Hs|Hs].
  { rewrite (bool_decide_true _ Hs). symmetry. apply bool_decide_eq_true. rewrite Hs. by left. }
  rewrite (bool_decide_false _ Hs), IH. apply bool_decide_ext. rewrite elem_of_cons. naive_solver.
Qed.

(** C32. Every operation keeps the registry well formed: a feature is found under its
    own namespace and name in lower case and nowhere else, and has a factory.
    [Unregister], [Register], [Overwrite], [RegisterBundle], [OverwriteBundle] and
    the [Must] functions, those that stop with an error after some features of a
    bundle included, keep it so; [Lookup], [LookupAll] and [Size] only read. *)
Theorem feature_registry_ok {F : Type} (pointer : F → option Z) (r : Registry F) (f : Feature F) (ns n : string)
    (b : Bundle F) :
  registry_ok (NewRegistry : Registry F) ∧
  (registry_ok r → registry_ok (Unregister ns n r).2 ∧
   (∀ err r', Register pointer f r = Done (err, r') → registry_ok r') ∧
   (∀ err r', Overwrite pointer f r = Done (err, r') → registry_ok r') ∧
   (∀ err r', RegisterBundle pointer b r = Done (err, r') → registry_ok r') ∧
   (∀ err r', OverwriteBundle pointer b r = Done (err, r') → registry_ok r') ∧
   (∀ r', MustRegister pointer f r = Done r' → registry_ok r') ∧
   (∀ r', MustRegisterBundle pointer b r = Done r' → registry_ok r') ∧
   (∀ r', MustOverwriteBundle pointer b r = Done r' → registry_ok r')).
Proof.
  split; [by intros ns' n' g|]. intros Hok. split_and!; [by apply Unregister_ok|..].
  - intros err r'. by apply Register_ok.
  - intros err r'. by apply Overwrite_ok.
  - intros err r'. by apply RegisterBundle_ok.
  - intros err r'. by apply RegisterBundle_ok.
  - intros r' E%must_Done. by apply (Register_ok pointer f r None).
  - intros r' E%must_Done. by apply (RegisterBundle_ok pointer (features b) r None).
  - intros r' E%must_Done. by apply (RegisterBundle_ok pointer (features b) r None).
Qed.

(** C30. [Register] on every branch.  A feature without a factory fails and changes
    nothing.  A feature under whose namespace and name, in any case, nothing is
    registered is added: it is found there, and every other name keeps what it
    has.  If there is a feature under the name, the registry stays as it is, the
    old feature in its place: with no error if that has the same namespace and
    name, letter for letter, and a factory of the same pointer, with the error
    that the name must be unique if it differs in one of these; and with a panic
    if the names are the same and one of the factories has no pointer to compare.
    These are all cases. *)
Theorem Register_functional {F : Type} (pointer : F → option Z) (f : Feature F) (r : Registry F) :
  let ns := normalize (namespace f) in let n := normalize (name f) in
  (factory f = None → Register pointer f r = Done (Some (nilFactory n), r)) ∧
  (is_Some (factory f) → (∀ g, Lookup (namespace f) (name f) r ≠ inr g) → ∃ r', Register pointer f r = Done (None, r') ∧
     ∀ ns' n' g, Lookup ns' n' r' = inr g ↔
       if decide (normalize ns' = ns ∧ normalize n' = n) then g = f else Lookup ns' n' r = inr g) ∧
  (is_Some (factory f) → ∀ g, Lookup (namespace f) (name f) r = inr g →
     (name f ≠ name g ∨ namespace f ≠ namespace g → Register pointer f r = Done (Some (notUnique n ns), r)) ∧
     (name f = name g → namespace f = namespace g →
        match factory f ≫= pointer, factory g ≫= pointer with
        | Some p, Some q => Register pointer f r = Done (if decide (p = q) then None else Some (notUnique n ns), r)
        | _, _ => ∃ v, Register pointer f r = Panic v
        end)).
Proof.
  intros ns n. split; [intros Hf; unfold Register; by rewrite Hf|]. split.
  - intros Hf Hno. assert (Hnone : entry r ns n = None).
    { destruct (entry r ns n) as [g|] eqn:Hg; [|done]. by apply Lookup_entry, Hno in Hg. }
    destruct (Register_fresh pointer f r Hf Hnone) as [r' Er]. exists r'. split; [done|].
    apply Register_entries in Er as [(? & _)|[(_ & h & Hh & _)|(_ & _ & _ & He)]];
      [by destruct Hf; congruence|fold ns n in Hh; congruence|].
    intros ns' n' g. rewrite !Lookup_entry, He. fold ns n. destruct (decide (normalize ns' = ns ∧ normalize n' = n)); [|symmetry; apply Lookup_entry]. naive_solver.
  - intros Hf g Hg%Lookup_entry. fold ns n in Hg. split.
    + intros Hne. rewrite (Register_known pointer f r g Hf Hg). unfold featuresEqual.
      replace (bool_decide (name f = name g) && bool_decide (namespace f = namespace g)) with false; [done|].
      symmetry. apply andb_false_iff. rewrite !bool_decide_eq_false. tauto.
    + intros Hn Hns. rewrite (Register_known pointer f r g Hf Hg). unfold featuresEqual.
      rewrite !bool_decide_true by done. simpl. unfold Pointer.
      destruct (factory f ≫= pointer) as [p|]; simpl; [|eexists; reflexivity].
      destruct (factory g ≫= pointer) as [q|]; simpl; [|by eexists]. case_bool_decide; by case_decide.
Qed.

(** [Overwrite] replaces a feature only if its name is in lower case: otherwise,
    when the feature is registered, it fails as if it were not and the old one stays. *)
Theorem Overwrite_needs_lower_case {F : Type} (pointer : F → option Z) (f g : Feature F) (r : Registry F) :
  registry_ok r → is_Some (factory f) → Lookup (namespace f) (name f) r = inr g →
  (normalize (name f) = name f → ∃ r', Overwrite pointer f r = Done (None, r') ∧ Lookup (namespace f) (name f) r' = inr f) ∧
  (normalize (name f) ≠ name f →
    Overwrite pointer f r = Done (Some (unknownFeature (name f) (normalize (namespace f))), r)).
Proof.
  intros Hok [fac Hf] Hg. pose proof Hg as Hg'. apply Lookup_entry in Hg'. split; intros Hn.
  - rewrite Hn in Hg'. unfold Overwrite. rewrite Hg. destruct (Unregister _ _ r) as [err r1] eqn:Eu.
    apply Unregister_entries in Eu as [(-> & _ & He)|(_ & _ & Hnone)]; [|congruence].
    assert (Hnone : entry r1 (normalize (namespace f)) (normalize (name f)) = None) by (by rewrite Hn, He, decide_True).
    destruct (Register_fresh pointer f r1 (ex_intro _ fac Hf) Hnone) as [r2 Er].
    exists r2. split; [done|]. apply Lookup_entry.
    apply Register_entries in Er as [(? & _)|[(_ & h & Hh & _)|(_ & _ & _ & He2)]]; [congruence..|]. by rewrite He2, decide_True.
  - unfold Overwrite. rewrite Hg. unfold Unregister. unfold entry in Hg'.
    destruct (namespaces r !! normalize (namespace f)) as [v|] eqn:Hv; [|done]. simpl in Hg'.
    destruct (v !! name f) as [h|] eqn:Hh; [|done]. destruct (Hok (normalize (namespace f)) (name f) h) as (_ & Hname & _).
    { unfold entry. by rewrite Hv. }
    destruct Hn. rewrite <- Hname at 1. rewrite normalize_idempotent. exact Hname.
Qed.

(** Filtering merged bundles by stability keeps exactly the features of one of
    the stabilities, in the order in which they were merged. *)
Theorem bundle_filter_reference {F : Type} (stabs : list Stability) (bs : list (bundleable F)) :
  features (Filter stabs (MustBundle bs)) =
    List.filter (λ f, bool_decide ((DStability (description f) : Z) ∈ stabs)) (concat (Features <$> bs)).
Proof.
  unfold Filter, FilterWith, MustBundle, NewBundle. simpl. rewrite filter_loop_eq, merge_loop_eq. simpl.
  apply List.filter_ext. intros f. apply HasStabilityPred_eq.
Qed.

(** ** Witnesses *)
Definition example_feature (n : string) (p : nat) : Feature nat := New "Input" n (Some p) (MakeDetails n "example" Beta).
Definition example_pointer (p : nat) : option Z := Some (Z.of_nat p).
Definition example_registry : Registry nat :=
  match Register example_pointer (example_feature "LoadGen" 1) NewRegistry with Done (_, r) => r | _ => NewRegistry end.
Lemma example_registry_ok : registry_ok example_registry.
Proof. eapply (Register_ok example_pointer (example_feature "LoadGen" 1) NewRegistry None); [|reflexivity]. intros ns n f. discriminate. Qed.

(** A bundle of which the second feature is refused. *)
Lemma feature_registry_ok_witness : registry_ok (Unregister "input" "loadgen" example_registry).2 ∧
  ∃ err r', OverwriteBundle example_pointer (NewBundle [example_feature "a" 1; example_feature "LoadGen" 2]) example_registry =
    Done (Some err, r') ∧ registry_ok r'.
Proof.
  destruct (feature_registry_ok example_pointer example_registry (example_feature "a" 1) "input" "loadgen"
    (NewBundle [example_feature "a" 1; example_feature "LoadGen" 2])) as [_ Hok].
  destruct (Hok example_registry_ok) as (Hu & _ & _ & _ & Hb & _). split; [exact Hu|].
  eexists _, _. split; [reflexivity|]. eapply Hb. reflexivity.
Defined.

(** A new feature, the same again, another of the name, and one with another case. *)
Lemma Register_functional_witness :
  (∃ r', Register example_pointer (example_feature "LoadGen" 1) NewRegistry = Done (None, r') ∧
     Lookup "INPUT" "loadgen" r' = inr (example_feature "LoadGen" 1)) ∧
  Register example_pointer (example_feature "LoadGen" 1) example_registry = Done (None, example_registry) ∧
  Register example_pointer (example_feature "LoadGen" 2) example_registry = Done (Some (notUnique "loadgen" "input"), example_registry) ∧
  Register example_pointer (example_feature "loadgen" 1) example_registry = Done (Some (notUnique "loadgen" "input"), example_registry).
Proof.
  split; [|split; [|split]].
  - destruct (Register_functional example_pointer (example_feature "LoadGen" 1) NewRegistry) as (_ & Hnew & _).
    destruct Hnew as (r' & E & Hl); [by eexists|discriminate|]. exists r'. split; [exact E|]. by apply Hl.
  - destruct (Register_functional example_pointer (example_feature "LoadGen" 1) example_registry) as (_ & _ & Hold).
    destruct (Hold (ex_intro _ 1 eq_refl) (example_feature "LoadGen" 1) eq_refl) as [_ Hs]. exact (Hs eq_refl eq_refl).
  - destruct (Register_functional example_pointer (example_feature "LoadGen" 2) example_registry) as (_ & _ & Hold).
    destruct (Hold (ex_intro _ 2 eq_refl) (example_feature "LoadGen" 1) eq_refl) as [_ Hs]. exact (Hs eq_refl eq_refl).
  - destruct (Register_functional example_pointer (example_feature "loadgen" 1) example_registry) as (_ & _ & Hold).
    destruct (Hold (ex_intro _ 1 eq_refl) (example_feature "LoadGen" 1) eq_refl) as [Hd _]. apply Hd. left. discriminate.
Defined.

Lemma Overwrite_needs_lower_case_witness :
  Overwrite example_pointer (example_feature "LoadGen" 2) example_registry = Done (Some (unknownFeature "LoadGen" "input"), example_registry).
Proof.
  destruct (Overwrite_needs_lower_case example_pointer (example_feature "LoadGen" 2) (example_feature "LoadGen" 1) example_registry
    example_registry_ok) as [_ Hn]; [by eexists|reflexivity|]. apply Hn. discriminate.
Defined.
