(* ===== verification/FeatureConc.v ===== *)
(** * Overwriting a feature while other goroutines work on the registry

    [Overwrite] (registry.go) takes the registry's lock three times, for [Lookup],
    [Unregister] and [Register].  In between other goroutines may change the registry:
    what it does when they leave its name alone, and when they do not. *)

From stdpp Require Import base gmap strings list fin_maps relations.
From Stdlib Require Import ZArith Lia.
From S2P Require Import Prelude Fs Feature.

Section overwrite.
Context {F : Type} (pointer : F → option Z).
Implicit Types (r : Registry F) (f : Feature F).

(** Where an [Overwrite] is: the next critical section, or returned. *)
Inductive phase := LookingUp | Unregistering | Registering | Returned (err : option goerr).

Definition Overwrite_step f (ph : phase) r : outcome (phase * Registry F) :=
  match ph with
  | LookingUp => Done (match Lookup (namespace f) (name f) r with inl _ => Registering | inr _ => Unregistering end, r)
  | Unregistering =>
    let '(err, r) := Unregister (namespace f) (name f) r in
    Done (match err with Some err => Returned (Some err) | None => Registering end, r)
  | Registering => er ← Register pointer f r; Done (Returned er.1, er.2)
  | Returned err => Done (Returned err, r)
  end.

(** Alone, the steps are [Overwrite]. *)
Lemma Overwrite_by_steps f r :
  (a ← Overwrite_step f LookingUp r; b ← Overwrite_step f a.1 a.2; Overwrite_step f b.1 b.2) =
  (er ← Overwrite pointer f r; Done (Returned er.1, er.2)).
Proof.
  unfold Overwrite, Overwrite_step. simpl. destruct (Lookup (namespace f) (name f) r); simpl.
  - by destruct (Register pointer f r) as [[e r']| |].
  - destruct (Unregister (namespace f) (name f) r) as [[e|] r1]; simpl; [done|]. by destruct (Register pointer f r1) as [[e r']| |].
Qed.

(** The critical sections that change the registry. *)
Inductive op := ORegister (f : Feature F) | OUnregister (ns n : string).
Definition run_op (o : op) r : outcome (Registry F) :=
  match o with
  | ORegister f => er ← Register pointer f r; Done er.2
  | OUnregister ns n => Done (Unregister ns n r).2
  end.
(** The entry that one may change. *)
Definition touches (o : op) : string * string :=
  match o with ORegister f => (normalize (namespace f), normalize (name f)) | OUnregister ns n => (normalize ns, n) end.
Definition key f : string * string := (normalize (namespace f), normalize (name f)).

(** The steps of an [Overwrite] and critical sections of other goroutines, those that
    [allowed] admits. *)
Inductive step (allowed : op → Prop) f : phase * Registry F → phase * Registry F → Prop :=
| step_own ph r ph' r' : Overwrite_step f ph r = Done (ph', r') → step allowed f (ph, r) (ph', r')
| step_other ph r o r' : allowed o → run_op o r = Done r' → step allowed f (ph, r) (ph, r').

Lemma run_op_ok o r r' : registry_ok r → run_op o r = Done r' → registry_ok r'.
Proof.
  intros Hok. destruct o as [f|ns n]; simpl.
  - intros ([err r1] & E & [= <-])%bind_Done_inv. by eapply Register_ok.
  - intros [= <-]. by apply Unregister_ok.
Qed.

Lemma run_op_other o r r' ns n : run_op o r = Done r' → touches o ≠ (ns, n) → entry r' ns n = entry r ns n.
Proof.
  destruct o as [f|ns' n']; simpl.
  - intros ([err r1] & E & [= <-])%bind_Done_inv Hne. apply Register_entries in E as [(_ & _ & ->)|[(_ & g & _ & He & _)|(_ & _ & _ & He)]];
      [done|by apply He|]. rewrite He, decide_False; [done|]. intros [-> ->]. by apply Hne.
  - intros [= <-] Hne. destruct (Unregister ns' n' r) as [err r1] eqn:E.
    apply Unregister_entries in E as [(_ & _ & He)|(_ & -> & _)]; [|done]. simpl. rewrite He, decide_False; [done|]. intros [-> ->]. by apply Hne.
Qed.

(** While its name is left alone. *)
Definition undisturbed f (x : phase * Registry F) : Prop :=
  registry_ok x.2 ∧
  let e := entry x.2 (normalize (namespace f)) (normalize (name f)) in
  match x.1 with
  | LookingUp => True
  | Unregistering => is_Some e
  | Registering => e = None
  | Returned err => err = None ∧ e = Some f
  end.

Lemma own_undisturbed f ph r : is_Some (factory f) → normalize (name f) = name f → undisturbed f (ph, r) →
  ∃ x, Overwrite_step f ph r = Done x ∧ undisturbed f x.
Proof.
  intros Hf Hn [Hok He]. simpl in Hok, He. destruct ph as [| | |err]; simpl in *.
  - eexists. split; [done|]. split; [done|]. simpl. destruct (Lookup (namespace f) (name f) r) as [e|g] eqn:El; simpl.
    + destruct (entry r (normalize (namespace f)) (normalize (name f))) as [g|] eqn:Eg; [|done]. apply Lookup_entry in Eg. congruence.
    + apply Lookup_entry in El. by rewrite El.
  - destruct (Unregister (namespace f) (name f) r) as [err r1] eqn:Eu. pose proof (Unregister_ok (namespace f) (name f) r Hok) as Hok1.
    rewrite Eu in Hok1. eexists. split; [done|]. split; [done|].
    apply Unregister_entries in Eu as [(-> & _ & Hr1)|(_ & _ & Hnone)]; simpl; [by rewrite Hr1, Hn, decide_True|].
    rewrite Hn, Hnone in He. by destruct He.
  - destruct (Register_fresh pointer f r Hf He) as [r1 E]. rewrite E. eexists. split; [done|]. split; [by eapply Register_ok|].
    apply Register_entries in E as [(Hnone & _)|[(_ & g & Hg & _)|(_ & _ & _ & Hr1)]]; simpl in *; [by rewrite Hnone in Hf; destruct Hf|congruence|].
    by rewrite Hr1, decide_True.
  - eexists. split; [done|]. by split.
Qed.

Lemma step_undisturbed f x y : is_Some (factory f) → normalize (name f) = name f →
  step (λ o, touches o ≠ key f) f x y → undisturbed f x → undisturbed f y.
Proof.
  intros Hf Hn [ph r ph' r' E|ph r o r' Ho E] Hx.
  - destruct (own_undisturbed f ph r Hf Hn Hx) as (z & E' & Hz). rewrite E in E'. by injection E' as <-.
  - destruct Hx as [Hok He]. split; [by eapply run_op_ok|]. simpl in *. by rewrite (run_op_other o r r' _ _ E Ho).
Qed.
End overwrite.

(** C31. [Overwrite] of a feature that has a factory and a name in lower case, while any
    number of goroutines register, unregister and overwrite features under other
    names in between its three critical sections: the registry stays well formed, its
    next step never panics, and it returns without error and with its feature found
    under the name. *)
Theorem overwrite_undisturbed {F : Type} (pointer : F → option Z) (f : Feature F) (r : Registry F) (ph : phase) (r' : Registry F) :
  registry_ok r → is_Some (factory f) → normalize (name f) = name f →
  rtc (step pointer (λ o, touches o ≠ key f) f) (LookingUp, r) (ph, r') →
  registry_ok r' ∧ (∃ x, Overwrite_step pointer f ph r' = Done x) ∧
  ∀ err, ph = Returned err → err = None ∧ Lookup (namespace f) (name f) r' = inr f.
Proof.
  intros Hok Hf Hn Hr. assert (Hu : undisturbed f (ph, r')).
  { eapply (rtc_ind_r (λ x, undisturbed f x) (LookingUp, r)); [exact (conj Hok I)| |exact Hr]. intros x y _ Hs Hx. by eapply (step_undisturbed pointer f x y). }
  split; [apply Hu|]. split; [destruct (own_undisturbed pointer f ph r' Hf Hn Hu) as (x & E & _); by exists x|].
  intros err ->. destruct Hu as [_ [He Hl]]. split; [done|]. by apply Lookup_entry.
Qed.

(** A feature is overwritten while another is registered. *)
Definition new_feature : Feature nat := example_feature "loadgen" 2.
Definition other_feature : Feature nat := example_feature "other" 3.
Definition after (m : outcome (phase * Registry nat)) : phase * Registry nat := default (LookingUp, NewRegistry) (match m with Done x => Some x | _ => None end).
Definition looked := after (Overwrite_step example_pointer new_feature LookingUp example_registry).
Definition unregistered := after (Overwrite_step example_pointer new_feature looked.1 looked.2).
Definition disturbed := after (r ← run_op example_pointer (ORegister other_feature) unregistered.2; Done (unregistered.1, r)).
Definition overwritten := after (Overwrite_step example_pointer new_feature disturbed.1 disturbed.2).

Lemma overwrite_undisturbed_witness : overwritten.1 = Returned None ∧ Lookup "input" "LoadGen" example_registry = inr (example_feature "LoadGen" 1) ∧
  Lookup (namespace new_feature) (name new_feature) overwritten.2 = inr new_feature.
Proof.
  split; [reflexivity|]. split; [reflexivity|].
  refine (proj2 (proj2 (proj2 (overwrite_undisturbed example_pointer new_feature example_registry overwritten.1 overwritten.2
    example_registry_ok (ex_intro _ 2 eq_refl) eq_refl _)) None eq_refl)).
  eapply rtc_l; [apply step_own; reflexivity|]. eapply rtc_l; [apply step_own; reflexivity|].
  eapply rtc_l; [apply (step_other _ _ _ _ _ (ORegister other_feature)); [intros [=]|reflexivity]|].
  eapply rtc_l; [apply step_own; reflexivity|]. apply rtc_refl.
Defined.

(** Two goroutines that overwrite one name: the second can find the feature when it
    looks and fail when it unregisters it, after the first did; or find none and fail
    to register it as not unique; and a reader finds no feature in between. *)
Theorem overwrites_disturb_each_other :
  let mine := example_feature "loadgen" 2 in let theirs := example_feature "loadgen" 3 in
  (∃ r r', Overwrite_step example_pointer mine LookingUp example_registry = Done (Unregistering, example_registry) ∧
     Overwrite_step example_pointer theirs Unregistering example_registry = Done (Registering, r) ∧
     Lookup "input" "loadgen" r = inl (unknownFeature "loadgen" "input") ∧
     Overwrite_step example_pointer mine Unregistering r = Done (Returned (Some (unknownFeature "loadgen" "input")), r') ) ∧
  (∃ r, Overwrite_step example_pointer mine LookingUp NewRegistry = Done (Registering, NewRegistry) ∧
     Overwrite example_pointer theirs NewRegistry = Done (None, r) ∧
     Overwrite_step example_pointer mine Registering r = Done (Returned (Some (notUnique "loadgen" "input")), r)).
Proof. split; [do 2 eexists|eexists]; repeat split; reflexivity. Qed.
