(* ===== verification/Loader.v ===== *)
(** * Plugins and their loader: pkg/manager/input

    loader.go, plugin.go, error.go, mode_string.go, simplemanager.go and the
    stateless inputs of input-stateless.  Managers are values of the interface
    [InputManager], which work on a state [S]; [Cfg] are configurations and
    [Input] configured inputs. *)

From stdpp Require Import base gmap strings list fin_maps.
From Stdlib Require Import ZArith Lia.
From S2P Require Import Prelude Fs Feature.

(** [Mode], a [uint8] with three constants, and its [String]. *)
Definition ModeRun : Z := 0%Z.
Definition ModeTest : Z := 1%Z.
Definition ModeOther : Z := 2%Z.
Definition mode_name : string := "RunTestOther".
Definition mode_index : list nat := [0; 3; 7; 12].
Definition Mode_String (format_int : Z → string) (i : Z) : string :=
  if bool_decide (i >= Z.of_nat (length mode_index) - 1)%Z then "Mode(" +:+ format_int i +:+ ")"
  else
    let n := Z.to_nat i in
    let first := default 0 (mode_index !! n) in
    let last := default 0 (mode_index !! S n) in
    String.substring first (last - first) mode_name.

(** ** error.go *)
Definition ErrUnknownInput : goerr := errText "unknown input type".
Definition ErrNoInputConfigured : goerr := errText "no input type configured".

Inductive lerr :=
| LoadError (Name : string) (Reason : option goerr) (Message : string)
| SetupError (Fails : list goerr)
| OtherError (e : goerr).

Definition LoadError_Unwrap (err : lerr) : option goerr :=
  match err with LoadError _ reason _ => reason | _ => None end.

(** [errors.Is] on the chain of causes. *)
Definition IsUnknownInputError (err : lerr) : bool :=
  match err with
  | LoadError _ (Some reason) _ => errors_is reason ErrUnknownInput
  | OtherError e => errors_is e ErrUnknownInput
  | _ => false
  end.

(** [Error()]; [text] is that of the cause.  The buffer is built in the code's order. *)
Definition LoadError_Error (text : goerr → string) (name : string) (reason : option goerr) (message : string) : string :=
  let buf := if negb (bool_decide (message = ""%string)) then message
    else if negb (bool_decide (name = ""%string)) then "failed to load " +:+ name else ""%string in
  let buf := match reason with
    | Some e => (if bool_decide (0 < String.length buf) then buf +:+ ": " else buf) +:+ text e
    | None => buf
    end in
  if bool_decide (String.length buf = 0) then "<loader error>"%string else buf.
Definition newline_tab : string := String (Ascii.ascii_of_nat 10) (String (Ascii.ascii_of_nat 9) "").
Fixpoint SetupError_loop (text : goerr → string) (fails : list goerr) (buf : string) : string :=
  match fails with
  | [] => buf
  | e :: fails => SetupError_loop text fails (buf +:+ newline_tab +:+ text e)
  end.
Definition SetupError_Error (text : goerr → string) (fails : list goerr) : string :=
  SetupError_loop text fails "invalid plugin setup found:".

Section loader.
Context {S Cfg Input : Type}.

(** The interface [InputManager]. *)
Record InputManager := mkInputManager {
  MInit : Z → M S (option goerr);
  MCreate : Cfg → M S (goerr + Input)
}.

(** simplemanager.go *)
Definition ConfigureWith (fn : Cfg → M S (goerr + Input)) : InputManager :=
  mkInputManager (λ _, mret None) fn.

(** ** plugin.go *)
Record Plugin := mkPlugin {
  PName : string;
  PStability : Stability;
  PDeprecated : bool;
  PInfo : string;
  PDoc : string;
  Manager : option InputManager
}.
Definition Plugin_Details (p : Plugin) : Details := mkDetails (PName p) (PStability p) (PDeprecated p) (PInfo p) (PDoc p).

Definition validate (p : Plugin) : option goerr :=
  if bool_decide (PName p = ""%string) then Some (errText "input plugin without name found")
  else if negb (bool_decide ((PStability p : Z) ∈ ([Beta; Experimental; Stable] : list Z))) then
    Some (errText ("plugin '" +:+ PName p +:+ "' has stability not set"))
  else match Manager p with
    | None => Some (errText ("invalid plugin (" +:+ PName p +:+ ") structure detected"))
    | Some _ => None
    end.

(** ** loader.go *)
Record Loader := mkLoader {
  registry : gmap string Plugin;
  typeField : string;
  defaultType : string
}.

(** [iterate] is the order of [range] over a map. *)
Context (iterate : ∀ {A : Type}, gmap string A → list (string * A)).
Context (format_int : Z → string).

Fixpoint validate_loop (plugins : list Plugin) (counts : gmap string nat) (errs : list goerr) : gmap string nat * list goerr :=
  match plugins with
  | [] => (counts, errs)
  | p :: plugins =>
    let counts := <[ PName p := default 0 (counts !! PName p) + 1 ]> counts in
    let errs := match validate p with Some err => errs ++ [err] | None => errs end in
    validate_loop plugins counts errs
  end.
Fixpoint count_loop (counts : list (string * nat)) (errs : list goerr) : list goerr :=
  match counts with
  | [] => errs
  | (n, c) :: counts =>
    count_loop counts (if bool_decide (1 < c) then
      errs ++ [errText ("plugin '" +:+ n +:+ "' found " +:+ format_int (Z.of_nat c) +:+ " times")] else errs)
  end.
Definition validatePlugins (plugins : list Plugin) : list goerr :=
  let '(counts, errs) := validate_loop plugins ∅ [] in
  count_loop (iterate _ counts) errs.

Definition NewLoader (plugins : list Plugin) (typeField defaultType : string) : lerr + Loader :=
  let typeField := if bool_decide (typeField = ""%string) then "type"%string else typeField in
  let errs := validatePlugins plugins in
  if bool_decide (0 < length errs) then inl (SetupError errs)
  else
    let registry := foldl (λ m p, <[ PName p := p ]> m) ∅ plugins in
    inr (mkLoader registry typeField defaultType).

(** A manager that is nil panics when called. *)
Definition manager_of (p : Plugin) : M S InputManager := nonnil (Manager p).

Fixpoint Init_loop (ps : list (string * Plugin)) (mode : Z) : M S (option goerr) :=
  match ps with
  | [] => mret None
  | (_, p) :: ps =>
    m ← manager_of p;
    err ← MInit m mode;
    match err with
    | Some e => mret (Some e)
    | None => Init_loop ps mode
    end
  end.
Definition Init (l : Loader) (mode : Z) : M S (option goerr) := Init_loop (iterate _ (registry l)) mode.

(** The warnings that are logged. *)
Definition warnings (n : string) (p : Plugin) : list string :=
  (if bool_decide ((PStability p : Z) = Experimental) then ["EXPERIMENTAL: The " +:+ n +:+ " input is experimental"]
   else if bool_decide ((PStability p : Z) = Beta) then ["BETA: The " +:+ n +:+ " input is beta"] else []) ++
  (if PDeprecated p then ["DEPRECATED: The " +:+ n +:+ " input is deprecated"] else []).

(** [get_string] is [cfg.String(field, -1)] and [warn] adds a line to the log. *)
Context (get_string : Cfg → string → goerr + string) (warn : string → S → S).

Definition configured_name (l : Loader) (cfg : Cfg) : lerr + string :=
  match get_string cfg (typeField l) with
  | inl _ =>
    if bool_decide (defaultType l = ""%string) then
      inl (LoadError "" (Some ErrNoInputConfigured) (typeField l +:+ " setting is missing"))
    else inr (defaultType l)
  | inr name => inr name
  end.
Definition Configure (l : Loader) (cfg : Cfg) : M S (lerr + Input) :=
  match configured_name l cfg with
  | inl err => mret (inl err)
  | inr name =>
    match registry l !! name with
    | None => mret (inl (LoadError name (Some ErrUnknownInput) ""))
    | Some p =>
      modify (λ s, foldl (λ s msg, warn msg s) s (warnings name p));;
      m ← manager_of p;
      r ← MCreate m cfg;
      mret (match r with inl e => inl (OtherError e) | inr i => inr i end)
    end
  end.

(** ** input-stateless/stateless.go *)

(** How an input's [Run] ends: it returns, panics with an error or with another value. *)
Inductive stateless_end := SReturned (err : option goerr) | SPanickedError (e : goerr) | SPanicked (v : string).

Definition stateless_Create (configure : Cfg → M S (goerr + Input)) (cfg : Cfg) : M S (goerr + Input) :=
  r ← configure cfg;
  match r with inl err => mret (inl err) | inr inp => mret (inr inp) end.
Definition NewInputManager (configure : Cfg → M S (goerr + Input)) : InputManager :=
  mkInputManager (λ _, mret None) (stateless_Create configure).

(** [configuredInput.Run]: [Client] are connections; the deferred [Close] also runs
    when the input panics, before the panic is recovered. *)
Definition stateless_Run {Client} (connect : M S (goerr + Client)) (run : Client → M S stateless_end) (close : Client → M S ())
    : M S (option goerr) :=
  r ← connect;
  match r with
  | inl err => mret (Some err)
  | inr client =>
    e ← run client;
    close client;;
    mret (match e with
      | SReturned err => err
      | SPanickedError e => Some e
      | SPanicked v => Some (errText ("input panic with: " +:+ v))
      end)
  end.
End loader.
Arguments InputManager : clear implicits.
Arguments Plugin : clear implicits.
Arguments Loader : clear implicits.

(** ** Lemmas *)
Section facts.
Context {S Cfg Input : Type}.
Context (iterate : ∀ {A : Type}, gmap string A → list (string * A)).
Context (format_int : Z → string).
Hypothesis iterate_perm : ∀ A (m : gmap string A), iterate A m ≡ₚ map_to_list m.
Implicit Types (p : Plugin S Cfg Input) (ps : list (Plugin S Cfg Input)).

(** A plugin's own requirements, and those on the list of all plugins. *)
Definition plugin_valid p : Prop :=
  PName p ≠ ""%string ∧ (PStability p : Z) ∈ ([Beta; Experimental; Stable] : list Z) ∧ is_Some (Manager p).
Definition plugins_valid ps : Prop := Forall plugin_valid ps ∧ NoDup (PName <$> ps).

Lemma validate_None p : validate p = None ↔ plugin_valid p.
Proof.
  unfold validate, plugin_valid. case_bool_decide as Hn; [naive_solver|].
  destruct (decide ((PStability p : Z) ∈ ([Beta; Experimental; Stable] : list Z))) as [Hs|Hs].
  - rewrite (bool_decide_true _ Hs). simpl. destruct (Manager p); split; [eauto|done| done|]. by intros (_ & _ & [? ?]).
  - rewrite (bool_decide_false _ Hs). simpl. naive_solver.
Qed.

Definition name_counts ps (counts : gmap string nat) : gmap string nat :=
  foldl (λ c p, <[ PName p := default 0 (c !! PName p) + 1 ]> c) counts ps.

Lemma validate_loop_eq ps counts errs :
  validate_loop ps counts errs = (name_counts ps counts, errs ++ omap validate ps).
Proof.
  revert counts errs. induction ps as [|p ps IH]; intros counts errs; simpl; [by rewrite app_nil_r|].
  rewrite IH. f_equal. destruct (validate p); simpl; [by rewrite <- app_assoc|done].
Qed.

Definition duplicate_error (nc : string * nat) : option goerr :=
  if bool_decide (1 < nc.2) then
    Some (errText ("plugin '" +:+ nc.1 +:+ "' found " +:+ format_int (Z.of_nat nc.2) +:+ " times")) else None.

Lemma count_loop_eq l errs : count_loop format_int l errs = errs ++ omap duplicate_error l.
Proof.
  revert errs. induction l as [|[n c] l IH]; intros errs; simpl; [by rewrite app_nil_r|]. rewrite IH.
  unfold duplicate_error at 2. simpl. case_bool_decide; simpl; [by rewrite <- app_assoc|done].
Qed.

Lemma name_counts_lookup ps counts n : default 0 (name_counts ps counts !! n) =
  default 0 (counts !! n) + Prelude.count (λ p, bool_decide (PName p = n)) ps.
Proof.
  revert counts. induction ps as [|p ps IH]; intros counts; simpl; [lia|]. rewrite IH.
  destruct (decide (PName p = n)) as [<-|Hn].
  - rewrite lookup_insert_eq, bool_decide_true by done. simpl. lia.
  - rewrite lookup_insert_ne, bool_decide_false by done. simpl. lia.
Qed.

Lemma count_names_NoDup ps : (∀ n, Prelude.count (λ p, bool_decide (PName p = n)) ps ≤ 1) ↔ NoDup (PName <$> ps).
Proof.
  induction ps as [|p ps IH]; simpl; [split; [constructor|lia]|]. rewrite NoDup_cons, <- IH. split.
  - intros H. split; [|intros n; specialize (H n); lia]. intros (q & Hq & Hin)%list_elem_of_fmap.
    specialize (H (PName p)). rewrite bool_decide_true in H by done. apply list_elem_of_lookup_1 in Hin as [i Hi].
    pose proof (count_lookup (λ q, bool_decide (PName q = PName p)) ps i q Hi (bool_decide_true _ (eq_sym Hq))).
    simpl in H. lia.
  - intros [Hp H] n. specialize (H n). case_bool_decide as Hn; simpl; [|lia]. subst n.
    destruct (Prelude.count _ ps) eqn:E; [lia|]. exfalso. destruct (count_pos (λ q, bool_decide (PName q = PName p)) ps) as (i & q & Hi & Hq); [lia|].
    apply bool_decide_eq_true in Hq. apply Hp. rewrite <- Hq. apply list_elem_of_fmap_2, (list_elem_of_lookup_2 _ _ _ Hi).
Qed.

Lemma omap_nil_iff {A B} (f : A → option B) l : omap f l = [] ↔ ∀ x, x ∈ l → f x = None.
Proof.
  induction l as [|x l IH]; simpl; [split; [intros _ x Hx; by apply not_elem_of_nil in Hx|done]|].
  destruct (f x) eqn:E; split.
  - done.
  - intros H. rewrite (H x) in E; [done|left].
  - intros H y [->|Hy]%elem_of_cons; [done|by apply IH].
  - intros H. apply IH. intros y Hy. apply H. by right.
Qed.

Lemma validatePlugins_nil ps : validatePlugins iterate format_int ps = [] ↔ plugins_valid ps.
Proof.
  unfold validatePlugins, plugins_valid. rewrite validate_loop_eq. simpl. rewrite count_loop_eq, app_nil, !omap_nil_iff, Forall_forall.
  rewrite <- count_names_NoDup. f_equiv; [by setoid_rewrite validate_None|].
  split.
  - intros H n. destruct (decide (2 ≤ Prelude.count (λ p, bool_decide (PName p = n)) ps)); [|lia]. exfalso.
    pose proof (name_counts_lookup ps ∅ n) as Hn. rewrite lookup_empty in Hn. simpl in Hn.
    destruct (name_counts ps ∅ !! n) as [c|] eqn:Hc; simpl in Hn; [|lia].
    specialize (H (n, c)). rewrite iterate_perm, elem_of_map_to_list in H. specialize (H Hc). unfold duplicate_error in H.
    simpl in H. rewrite bool_decide_true in H by lia. done.
  - intros H [n c]. rewrite iterate_perm, elem_of_map_to_list. intros Hc. unfold duplicate_error. simpl.
    pose proof (name_counts_lookup ps ∅ n) as Hn. rewrite lookup_empty, Hc in Hn. simpl in Hn. specialize (H n).
    rewrite bool_decide_false by lia. done.
Qed.

Definition plugin_table ps (m : gmap string (Plugin S Cfg Input)) : gmap string (Plugin S Cfg Input) :=
  foldl (λ m p, <[ PName p := p ]> m) m ps.
Lemma plugin_table_eq ps m : NoDup (PName <$> ps) → (∀ p, p ∈ ps → m !! PName p = None) →
  map_to_list (plugin_table ps m) ≡ₚ ((λ p, (PName p, p)) <$> ps) ++ map_to_list m.
Proof.
  revert m. induction ps as [|p ps IH]; intros m Hnd Hm; simpl in *; [done|]. apply NoDup_cons in Hnd as [Hp Hnd].
  rewrite IH; [|done|].
  - rewrite map_to_list_insert by (apply Hm; left). by rewrite <- Permutation_middle.
  - intros q Hq. rewrite lookup_insert_ne; [apply Hm; by right|]. intros E. apply Hp. rewrite E. by apply list_elem_of_fmap_2.
Qed.

Lemma NewLoader_spec ps tf dt :
  match NewLoader iterate format_int ps tf dt with
  | inr l => plugins_valid ps ∧ l = mkLoader (plugin_table ps ∅) (if decide (tf = ""%string) then "type"%string else tf) dt
  | inl err => ¬ plugins_valid ps ∧ err = SetupError (validatePlugins iterate format_int ps)
  end.
Proof.
  unfold NewLoader. case_bool_decide as H; rewrite <- validatePlugins_nil.
  - split; [|done]. intros E. rewrite E in H. simpl in H. lia.
  - split; [destruct (validatePlugins _ _ _); simpl in *; [done|lia]|]. f_equal. by case_bool_decide; case_decide.
Qed.

Lemma plugin_table_list ps : plugins_valid ps → map_to_list (plugin_table ps ∅) ≡ₚ (λ p, (PName p, p)) <$> ps.
Proof. intros [_ Hnd]. by rewrite plugin_table_eq, map_to_list_empty, app_nil_r. Qed.

Lemma plugin_table_lookup ps n p : plugins_valid ps → plugin_table ps ∅ !! n = Some p ↔ p ∈ ps ∧ PName p = n.
Proof.
  intros Hv. rewrite <- elem_of_map_to_list, (plugin_table_list _ Hv), list_elem_of_fmap. naive_solver.
Qed.

Lemma validatePlugins_elem ps e : e ∈ validatePlugins iterate format_int ps ↔
  (∃ p, p ∈ ps ∧ validate p = Some e) ∨
  (∃ n, 1 < Prelude.count (λ p, bool_decide (PName p = n)) ps ∧
    duplicate_error (n, Prelude.count (λ p, bool_decide (PName p = n)) ps) = Some e).
Proof.
  unfold validatePlugins. rewrite validate_loop_eq. simpl. rewrite count_loop_eq, elem_of_app, !list_elem_of_omap.
  f_equiv. assert (Hc : ∀ n c, name_counts ps ∅ !! n = Some c → c = Prelude.count (λ p, bool_decide (PName p = n)) ps).
  { intros n c Hn. pose proof (name_counts_lookup ps ∅ n) as H. rewrite lookup_empty, Hn in H. simpl in H. lia. }
  split.
  - intros ([n c] & Hin & He). rewrite iterate_perm, elem_of_map_to_list in Hin. apply Hc in Hin as ->. exists n.
    split; [|done]. unfold duplicate_error in He. simpl in He. by case_bool_decide.
  - intros (n & Hlt & He). pose proof (name_counts_lookup ps ∅ n) as H. rewrite lookup_empty in H. simpl in H.
    destruct (name_counts ps ∅ !! n) as [c|] eqn:Hn; simpl in H; [|lia]. exists (n, c).
    rewrite iterate_perm, elem_of_map_to_list. split; [done|]. by rewrite H in *.
Qed.

(** What [Init] does, on a list of plugins in some order. *)
Inductive initialised (mode : Z) : list (Plugin S Cfg Input) → S → option goerr → S → Prop :=
| initialised_all s : initialised mode [] s None s
| initialised_failed p ps m e s s' : Manager p = Some m → MInit m mode s = Done (Some e, s') →
    initialised mode (p :: ps) s (Some e) s'
| initialised_next p ps m err s s' s'' : Manager p = Some m → MInit m mode s = Done (None, s') →
    initialised mode ps s' err s'' → initialised mode (p :: ps) s err s''.

Lemma Init_loop_ok mode l ps s : l = (λ p, (PName p, p)) <$> ps → Forall plugin_valid ps →
  (∀ p m s, p ∈ ps → Manager p = Some m → ∃ r, MInit m mode s = Done r) →
  ∃ err s', Init_loop l mode s = Done (err, s') ∧ initialised mode ps s err s'.
Proof.
  intros ->. revert s. induction ps as [|p ps IH]; intros s Hv Hm.
  { exists None, s. split; [done|constructor]. }
  apply Forall_cons in Hv as [(_ & _ & m & Hp) Hv]. destruct (Hm p m s) as [[err s'] E]; [left|done|].
  destruct err as [e|].
  - exists (Some e), s'. split; [|by econstructor]. simpl. unfold manager_of. rewrite Hp. run_M. simpl. by rewrite E.
  - destruct (IH s' Hv) as (err & s'' & E' & Hi); [intros; eapply Hm; [by right|done]|]. exists err, s''.
    split; [|by econstructor]. simpl. unfold manager_of. rewrite Hp. run_M. simpl. by rewrite E.
Qed.
End facts.

(** * Properties *)

(** C33. a loader is created exactly when every plugin has a name, one of the three
    stabilities and a manager, and no two plugins share a name.  It then holds
    each plugin under its name and nothing else.  Otherwise the error lists each
    invalid plugin's error and one error for each repeated name. *)
Theorem loader_accepts_valid_plugins {S Cfg Input} (iterate : ∀ A : Type, gmap string A → list (string * A))
    (format_int : Z → string) (ps : list (Plugin S Cfg Input)) (tf dt : string) :
  (∀ A (m : gmap string A), iterate A m ≡ₚ map_to_list m) →
  match NewLoader iterate format_int ps tf dt with
  | inr l => plugins_valid ps ∧ typeField l = (if decide (tf = ""%string) then "type"%string else tf) ∧ defaultType l = dt ∧
      ∀ n p, registry l !! n = Some p ↔ p ∈ ps ∧ PName p = n
  | inl err => ¬ plugins_valid ps ∧ ∃ fails, err = SetupError fails ∧ fails ≠ [] ∧
      ∀ e, e ∈ fails ↔ (∃ p, p ∈ ps ∧ validate p = Some e) ∨
        (∃ n, let c := Prelude.count (λ p, bool_decide (PName p = n)) ps in
          1 < c ∧ e = errText ("plugin '" +:+ n +:+ "' found " +:+ format_int (Z.of_nat c) +:+ " times"))
  end.
Proof.
  intros Hit. pose proof (NewLoader_spec iterate format_int Hit ps tf dt) as H.
  destruct (NewLoader iterate format_int ps tf dt) as [err|l]; destruct H as [Hv ->].
  - split; [done|]. eexists. split; [done|]. split; [by rewrite validatePlugins_nil|]. intros e.
    rewrite validatePlugins_elem by done. f_equiv. f_equiv. intros n. unfold duplicate_error. simpl.
    split; intros [Hc He]; (split; [done|]); rewrite bool_decide_true in * by done; congruence.
  - simpl. split; [done|]. split; [done|]. split; [done|]. intros. by apply plugin_table_lookup.
Qed.

(** A loader initialises its plugins one after the other, each at most once, until
    the first failure, which it returns; it never calls a missing manager.  With
    managers that all succeed, every plugin is initialised. *)
Theorem loader_initialises_every_plugin {S Cfg Input} (iterate : ∀ A : Type, gmap string A → list (string * A))
    (format_int : Z → string) (ps : list (Plugin S Cfg Input)) (tf dt : string) l mode s :
  (∀ A (m : gmap string A), iterate A m ≡ₚ map_to_list m) →
  NewLoader iterate format_int ps tf dt = inr l →
  (∀ p m s, p ∈ ps → Manager p = Some m → ∃ r, MInit m mode s = Done r) →
  ∃ order err s', order ≡ₚ ps ∧ Init iterate l mode s = Done (err, s') ∧ initialised mode order s err s'.
Proof.
  intros Hit Hl Hm. pose proof (NewLoader_spec iterate format_int Hit ps tf dt) as H. rewrite Hl in H.
  destruct H as [Hv ->]. pose proof (Hit _ (plugin_table ps ∅)) as Hp. rewrite plugin_table_list in Hp by done.
  apply Permutation_map_inv in Hp as (order & Eo & Hp).
  destruct (Init_loop_ok mode (iterate _ (plugin_table ps ∅)) order s) as (err & s' & E & Hi).
  - done.
  - destruct Hv as [Hv _]. by rewrite <- Hp.
  - intros p m s0 Hin. apply Hm. by rewrite Hp.
  - exists order, err, s'. by split.
Qed.

(** What the loader says about a plugin. *)
Lemma warnings_spec {S Cfg Input} (p : Plugin S Cfg Input) n : ∃ st dep, warnings n p = st ++ dep ∧
  ((PStability p : Z) = Experimental → st = ["EXPERIMENTAL: The " +:+ n +:+ " input is experimental"]) ∧
  ((PStability p : Z) = Beta → st = ["BETA: The " +:+ n +:+ " input is beta"]) ∧
  ((PStability p : Z) = Stable → st = []) ∧
  (PDeprecated p = true → dep = ["DEPRECATED: The " +:+ n +:+ " input is deprecated"]) ∧
  (PDeprecated p = false → dep = []).
Proof.
  unfold warnings. eexists _, _. split; [reflexivity|]. unfold Experimental, Beta, Stable.
  split_and!; intros Hst; rewrite Hst; try done; by repeat case_bool_decide.
Qed.

(** C34. A loader gives a configuration to the manager of the plugin that it names (in
    the type field, or the default type when that is missing), and returns what
    the manager returns.  Before that it logs, with the name of the input, first
    that the input is experimental or beta, if the plugin is one of these, and
    then that it is deprecated, if it is, and nothing else.  An unknown name is an
    error that [IsUnknownInputError] recognises, a missing one without a default
    is one that it does not; both leave the state alone. *)
Theorem Configure_functional {S Cfg Input} (iterate : ∀ A : Type, gmap string A → list (string * A))
    (format_int : Z → string) get_string (warn : string → S → S) (ps : list (Plugin S Cfg Input)) (tf dt : string) l cfg s :
  (∀ A (m : gmap string A), iterate A m ≡ₚ map_to_list m) →
  NewLoader iterate format_int ps tf dt = inr l →
  match get_string cfg (typeField l) with
  | inr n => Some n
  | inl _ => if decide (dt = ""%string) then None else Some dt
  end = None ∧ (∃ err, Configure get_string warn l cfg s = Done (inl err, s) ∧ IsUnknownInputError err = false) ∨
  ∃ n, match get_string cfg (typeField l) with
  | inr n => Some n
  | inl _ => if decide (dt = ""%string) then None else Some dt
  end = Some n ∧
    (n ∉ PName <$> ps → ∃ err, Configure get_string warn l cfg s = Done (inl err, s) ∧ IsUnknownInputError err = true) ∧
    (∀ p, p ∈ ps → PName p = n → ∃ m stability deprecated, Manager p = Some m ∧
      ((PStability p : Z) = Experimental → stability = ["EXPERIMENTAL: The " +:+ n +:+ " input is experimental"]) ∧
      ((PStability p : Z) = Beta → stability = ["BETA: The " +:+ n +:+ " input is beta"]) ∧
      ((PStability p : Z) = Stable → stability = []) ∧
      (PDeprecated p = true → deprecated = ["DEPRECATED: The " +:+ n +:+ " input is deprecated"]) ∧
      (PDeprecated p = false → deprecated = []) ∧
      ∀ r s', MCreate m cfg (foldl (flip warn) s (stability ++ deprecated)) = Done (r, s') →
        Configure get_string warn l cfg s = Done (match r with inl e => inl (OtherError e) | inr i => inr i end, s')).
Proof.
  intros Hit Hl. pose proof (NewLoader_spec iterate format_int Hit ps tf dt) as H. rewrite Hl in H.
  destruct H as [Hv ->]. set (l := mkLoader _ _ _). assert (Hreg : ∀ n,
    (n ∉ PName <$> ps → registry l !! n = None) ∧ (∀ p, p ∈ ps → PName p = n → registry l !! n = Some p)).
  { intros n. split; [|intros; by apply plugin_table_lookup]. intros Hn. apply eq_None_not_Some. intros [p Hp].
    apply plugin_table_lookup in Hp as [Hp <-]; [|done]. by apply Hn, list_elem_of_fmap_2. }
  assert (Hdt : defaultType l = dt) by done. clearbody l. unfold Configure, configured_name. rewrite Hdt. destruct (get_string cfg (typeField l)) as [e|n];
    [destruct (decide (dt = ""%string)) as [Hd|Hd]; [rewrite bool_decide_true by done|rewrite bool_decide_false by done]|].
  1: { left. split; [done|]. by eexists. }
  all: right; eexists; split; [done|]; split; [intros Hn; rewrite (proj1 (Hreg _) Hn); by eexists|].
  all: intros p Hp Hn; rewrite (proj2 (Hreg _) p Hp Hn); destruct Hv as [Hv _]; rewrite Forall_forall in Hv;
    destruct (Hv p Hp) as (_ & _ & m & Em);
    destruct (warnings_spec p (PName p)) as (st & dep & Ew & W1 & W2 & W3 & W4 & W5); rewrite Hn in Ew, W1, W2, W4;
    exists m, st, dep; do 6 (split; [assumption|]); intros r s' E; unfold manager_of; rewrite Ew, Em; run_M;
    simpl; unfold flip in E; by rewrite E.
Qed.

(** ** A concrete loader *)
Section example.
(** Managers of the example count their calls. *)
Definition example_manager : InputManager nat string string :=
  mkInputManager (λ mode s, Done (None, S s)) (λ cfg s, Done (inr cfg, S s)).
Definition example_plugin (n : string) (st : Stability) : Plugin nat string string :=
  mkPlugin n st false "" "" (Some example_manager).
Definition example_plugins : list (Plugin nat string string) := [example_plugin "unix" Stable; example_plugin "udp" Beta].
Definition list_order (A : Type) (m : gmap string A) : list (string * A) := map_to_list m.
Definition example_string (cfg field : string) : goerr + string :=
  if bool_decide (cfg = "") then inl (errText "missing") else inr cfg.
End example.

Lemma loader_accepts_valid_plugins_witness :
  (∃ l, NewLoader list_order (λ _, "2"%string) example_plugins "" "udp" = inr l) ∧
  plugins_valid example_plugins ∧ ¬ plugins_valid (example_plugin "udp" Beta :: example_plugins).
Proof.
  pose proof (loader_accepts_valid_plugins list_order (λ _, "2"%string) example_plugins "" "udp" (λ _ _, reflexivity _)) as H.
  pose proof (loader_accepts_valid_plugins list_order (λ _, "2"%string) (example_plugin "udp" Beta :: example_plugins) "" "udp"
    (λ _ _, reflexivity _)) as H'.
  assert (∃ l, NewLoader list_order (λ _, "2"%string) example_plugins "" "udp" = inr l) as [l E] by (eexists; vm_compute; reflexivity).
  assert (∃ e, NewLoader list_order (λ _, "2"%string) (example_plugin "udp" Beta :: example_plugins) "" "udp" = inl e)
    as [e E'] by (eexists; vm_compute; reflexivity).
  rewrite E in H. rewrite E' in H'. split; [by exists l|]. split; [exact (proj1 H)|exact (proj1 H')].
Defined.

Lemma loader_initialises_every_plugin_witness :
  ∃ l order err s', NewLoader list_order (λ _, "2"%string) example_plugins "" "udp" = inr l ∧ order ≡ₚ example_plugins ∧
    Init list_order l ModeRun 0 = Done (err, s') ∧ initialised ModeRun order 0 err s'.
Proof.
  eexists. edestruct (loader_initialises_every_plugin list_order (λ _, "2"%string) example_plugins "" "udp") as (o & err & s' & H).
  - intros; reflexivity.
  - vm_compute. reflexivity.
  - intros p m s Hp Hm. repeat (apply elem_of_cons in Hp as [->|Hp]; [injection Hm as <-; by eexists|]).
    by apply not_elem_of_nil in Hp.
  - exists o, err, s'. split; [vm_compute; reflexivity|]. exact H.
Defined.

(** A plugin in beta: one warning, the one for beta, and one call of the manager. *)
Lemma Configure_functional_witness :
  let warn := λ msg s, if bool_decide (msg = "BETA: The udp input is beta"%string) then s + 10 else s + 100 in
  ∃ l, NewLoader list_order (λ _, "2"%string) example_plugins "" "udp" = inr l ∧
    Configure example_string warn l ""%string 0 = Done (inr ""%string, 11).
Proof.
  intros warn.
  assert (∃ l, NewLoader list_order (λ _, "2"%string) example_plugins "" "udp" = inr l ∧ typeField l = "type"%string)
    as (l & El & Ht) by (eexists; split; vm_compute; reflexivity).
  exists l. split; [exact El|].
  destruct (Configure_functional list_order (λ _, "2"%string) example_string warn example_plugins "" "udp" l ""%string 0
    (λ _ _, reflexivity _) El) as [[H _]|(n & H & _ & Hc)]; rewrite Ht in H; vm_compute in H; [discriminate H|].
  injection H as <-.
  destruct (Hc (example_plugin "udp" Beta)) as (m & st & dep & Hm & _ & Hb & _ & _ & Hd & E); [right; left|reflexivity|].
  injection Hm as <-. rewrite (Hb eq_refl), (Hd eq_refl) in E. exact (E (inr ""%string) 11 eq_refl).
Defined.
