(* ===== verification/Cleaner.v ===== *)
(** * The cleaner of stateful inputs (clean.go, manager.go)

    [Init] starts a goroutine that runs [gcStore] at each tick of a timer until its
    group is stopped, and then gives up the store.  The timer is go-concert's
    [timed.Periodic], which calls the function at regular times until the
    cancellation; the times are a parameter. *)

From stdpp Require Import base gmap strings list fin_maps.
From Stdlib Require Import ZArith Lia.
From S2P Require Import Prelude Loader Fs Backend Concert Storetest Statestore StatestoreFacts StatestoreSeq StatestoreSpec Cursor CursorFacts CursorSpec CursorProps.

Section cleaner.
Context {R H X Ctr W U Rc L C E : Type} `{!Backend R H (state C) X, !AtomicInt Ctr, !SafeWaitGroup W,
  !AtomicUint64 U, !RefCount Rc, !Mutex L}.
Abbreviation store := (store R H Ctr W U Rc L C E).
Abbreviation manager := (@Cursor.InputManager R H Ctr W U Rc L C E).

(** [cleaner.run]: it starts at [started]; [ticks] are the times of the calls.  The
    function returns nil always, so [Periodic] ends with the cancellation only. *)
Fixpoint ticks_loop (order : gset string → list string) (started : Z) (ticks : list Z) : M store () :=
  match ticks with
  | [] => mret ()
  | now :: ticks => gcStore order started now;; ticks_loop order started ticks
  end.
Definition cleaner_run (order : gset string → list string) (periodic : Z → list Z) (started interval : Z) : M store () :=
  ticks_loop order started (periodic interval).

(** The goroutine; [CleanupInterval] is the interval of the state store. *)
Definition cleaner_goroutine (order : gset string → list string) (periodic : Z → list Z) (started CleanupInterval : Z) : M store () :=
  cleaner_run order periodic started (cleanup_interval CleanupInterval);;
  Init_end.

(** [Init]: [Go] is the result of [group.Go]. *)
Definition Init (mode : Z) (open : M (world R H Ctr W) (sserr + store)) (Go : option goerr) (m : manager) (w : world R H Ctr W) :
    outcome (option sserr * manager * world R H Ctr W) :=
  if bool_decide (mode ≠ ModeRun) then Done (None, m, w)
  else
    r ← init open m w;
    let '(err, m, w) := (r : option sserr * manager * world R H Ctr W) in
    match err with
    | Some err => Done (Some err, m, w)
    | None =>
      s ← deref (mstore m);
      e ← Init_start Go (set_persistent w (s : store));
      let '(err, s) := (e : option goerr * store) in
      Done (Unwrapped <$> err, mkManager (initDone m) (initErr m) (DefaultCleanTimeout m) (Some s), persistent s)
    end.
End cleaner.

(** ** What a number of runs collect *)

(** The keys that have expired at one of the times. *)
Definition expired {R H Ctr W U Rc L C E} `{!AtomicUint64 U} (started : Z) (ticks : list Z)
    (s : store R H Ctr W U Rc L C E) : gset string :=
  ⋃ ((λ now, gcFind started now s) <$> ticks).

Section collects.
Context {R H X Ctr W U Rc L C E : Type} `{!Convert (state C) X, !Backend R H (state C) X, !BackendLaws R H (state C) X,
  !EqDecision H, !AtomicInt Ctr, !AtomicIntLaws Ctr, !SafeWaitGroup W, !SafeWaitGroupLaws W,
  !AtomicUint64 U, !RefCount Rc, !RefCountLaws Rc}.
Abbreviation store := (store R H Ctr W U Rc L C E).
(** The store removes documents without an error. *)
Context (Hremove : ∀ (w : world R H Ctr W) ps m k, holds w ps m → ∃ w', Remove ps k w = Done (inr (), w')).
Context (order : gset string → list string) (Horder : ∀ ks, order ks ≡ₚ elements ks).

Definition without {A} (ks : gset string) (m : gmap string A) : gmap string A := filter (λ kx, kx.1 ∉ ks) m.

Lemma without_Some {A} ks (m : gmap string A) k x : without ks m !! k = Some x ↔ m !! k = Some x ∧ k ∉ ks.
Proof. apply map_lookup_filter_Some. Qed.

(** The keys of [ks] are gone from memory and from the store; nothing else changed. *)
Record collected (ks : gset string) (s s' : store) (m m' : gmap string X) : Prop := {
  co_holds : holds (persistent s') (persistentStore s') m';
  co_same : resources s' = resources s ∧ ops s' = ops s ∧ persistentStore s' = persistentStore s ∧ refCount s' = refCount s ∧
    length (instances (persistent s')) = length (instances (persistent s));
  co_table : table s' = without ks (table s);
  co_docs : m' = without ks m
}.

Lemma without_twice {A} ks1 ks2 (m : gmap string A) : without ks2 (without ks1 m) = without (ks1 ∪ ks2) m.
Proof. apply map_eq. intros k. apply option_eq. intros x. rewrite !without_Some, not_elem_of_union. tauto. Qed.

Lemma without_none {A} (m : gmap string A) : without ∅ m = m.
Proof. apply map_eq. intros k. apply option_eq. intros x. rewrite without_Some. pose proof (not_elem_of_empty (C := gset string) k). tauto. Qed.

Lemma without_one {A} k (m : gmap string A) : without {[ k ]} m = delete k m.
Proof.
  apply map_eq. intros k'. apply option_eq. intros x. rewrite without_Some, lookup_delete_Some, not_elem_of_singleton. naive_solver.
Qed.

Lemma collected_refl (s : store) m : holds (persistent s) (persistentStore s) m → collected ∅ s s m m.
Proof. intros Hm. split; [done|by split_and!|by rewrite without_none..]. Qed.

Lemma collected_trans ks1 ks2 (s s1 s2 : store) m m1 m2 :
  collected ks1 s s1 m m1 → collected ks2 s1 s2 m1 m2 → collected (ks1 ∪ ks2) s s2 m m2.
Proof.
  intros [H1 (Er & Eo & Ep & Ec & Ei) Ht Hd] [H2 (Er' & Eo' & Ep' & Ec' & Ei') Ht' Hd'].
  split; [done|by split_and!; congruence| |]; [by rewrite Ht', Ht, without_twice|by rewrite Hd', Hd, without_twice].
Qed.

Lemma remove_one (s : store) m k : holds (persistent s) (persistentStore s) m → ∃ w',
  on_persistent (λ ps, Remove ps k) s = Done (inr (), set_persistent w' s) ∧
  collected {[ k ]} s (set_table (delete k (table s)) (set_persistent w' s)) m (delete k m).
Proof.
  intros Hm. destruct (Hremove _ _ m k Hm) as [w' E0]. exists w'. split; [by apply on_persistent_eq|].
  destruct Hm as (Hok & n & Hobs). destruct (exec_remove (C := unit) _ _ n m k Hok Hobs) as (r & w1 & Eq & Hok' & _ & Habs).
  apply M_bind_inv in Eq as (r0 & w2 & Eq & [= _ <-]). rewrite E0 in Eq. injection Eq as <- <-.
  assert (Hlen : length (instances w') = length (instances (persistent s))) by (by rewrite <-(abs_length w'), <-abs_length, Habs, length_fmap).
  split; [|by split_and!|by rewrite without_one..]. split; [done|]. exists n. by eapply holds_write.
Qed.

Lemma gcClean_all keys (s : store) m : holds (persistent s) (persistentStore s) m →
  ∃ s' m', gcClean keys s = Done (None, s') ∧ collected (list_to_set keys) s s' m m'.
Proof.
  revert s m. induction keys as [|k keys IH]; intros s m Hm; [exists s, m; split; [done|by apply collected_refl]|].
  destruct (remove_one s m k Hm) as (w' & E0 & H1).
  destruct (IH _ _ (co_holds _ _ _ _ _ H1)) as (s' & m' & E1 & H2). exists s', m'. split.
  - cbn [gcClean]. erewrite M_bind_eq by exact E0. cbn beta iota. by erewrite M_bind_eq by done.
  - exact (collected_trans _ _ _ _ _ _ _ _ H1 H2).
Qed.

Lemma gcStore_all started now (s : store) m : holds (persistent s) (persistentStore s) m →
  ∃ s' m', gcStore order started now s = Done ((), s') ∧ collected (gcFind started now s) s s' m m'.
Proof.
  intros Hm. unfold gcStore. erewrite (M_bind_eq (gets _)) by done. case_bool_decide as Hempty.
  - exists s, m. split; [done|]. rewrite Hempty. by apply collected_refl.
  - destruct (gcClean_all (order (gcFind started now s)) s m Hm) as (s' & m' & E0 & Hc).
    exists s', m'. split; [by erewrite M_bind_eq by exact E0|].
    replace (gcFind started now s) with (list_to_set (C := gset string) (order (gcFind started now s))); [done|].
    apply set_eq. intros k. by rewrite elem_of_list_to_set, Horder, elem_of_elements.
Qed.

(** What is left does not expire because other keys were collected. *)
Lemma gcFind_collected ks started now (s s' : store) m m' : collected ks s s' m m' →
  gcFind started now s' = gcFind started now s ∖ ks.
Proof.
  intros [_ (Er & _) Ht _]. apply set_eq. intros k. rewrite elem_of_difference, !gcFind_spec, Er, Ht. split.
  - intros (l & r & [Hl Hk]%without_Some & Hr). eauto.
  - intros [(l & r & Hl & Hr) Hk]. exists l, r. split; [|done]. by apply without_Some.
Qed.

Lemma expired_cons started now ticks (s : store) : expired started (now :: ticks) s = gcFind started now s ∪ expired started ticks s.
Proof. done. Qed.

Lemma expired_collected ks started ticks (s s' : store) m m' : collected ks s s' m m' →
  expired started ticks s' = expired started ticks s ∖ ks.
Proof.
  intros Hc. induction ticks as [|now ticks IH]; [apply set_eq; intros k; rewrite elem_of_difference; unfold expired; simpl; set_solver|].
  rewrite !expired_cons, IH, (gcFind_collected _ _ _ _ _ _ _ Hc). apply set_eq. intros k.
  rewrite !elem_of_union, !elem_of_difference, elem_of_union. tauto.
Qed.

Lemma ticks_loop_all started ticks (s : store) m : holds (persistent s) (persistentStore s) m →
  ∃ s' m', ticks_loop order started ticks s = Done ((), s') ∧ collected (expired started ticks s) s s' m m'.
Proof.
  revert s m. induction ticks as [|now ticks IH]; intros s m Hm; [exists s, m; split; [done|by apply collected_refl]|].
  destruct (gcStore_all started now s m Hm) as (s1 & m1 & E1 & H1).
  destruct (IH s1 m1 (co_holds _ _ _ _ _ H1)) as (s' & m' & E2 & H2). exists s', m'. split.
  - simpl. by erewrite M_bind_eq by exact E1.
  - rewrite (expired_collected _ _ _ _ _ _ _ H1) in H2. pose proof (collected_trans _ _ _ _ _ _ _ _ H1 H2) as H3.
    replace (gcFind started now s ∪ _) with (expired started (now :: ticks) s) in H3; [done|].
    rewrite expired_cons. apply set_eq. intros k. rewrite !elem_of_union, elem_of_difference.
    destruct (decide (k ∈ gcFind started now s)); tauto.
Qed.
End collects.

(** C26. The cleaner collects exactly what expires, and then gives up the store.  On a
    state store that removes documents without errors, with no inputs running: after
    the goroutine's end, whatever its ticks were, a key is gone from memory and from
    the persistent store if and only if its resource was unused and stored, and its
    time to live had passed at some tick; and if no input owns the store, it is closed. *)
Theorem cleaner_collects_expired {R H X Ctr W U Rc L C E : Type}
    `{!Convert (state C) X, !Backend R H (state C) X, !BackendLaws R H (state C) X, !EqDecision H, !AtomicInt Ctr,
      !AtomicIntLaws Ctr, !SafeWaitGroup W, !SafeWaitGroupLaws W, !AtomicUint64 U, !RefCount Rc, !RefCountLaws Rc}
    (order : gset string → list string) (periodic : Z → list Z) (s : store R H Ctr W U Rc L C E) started interval m :
  (∀ (w : world R H Ctr W) ps m k, holds w ps m → ∃ w', Remove ps k w = Done (inr (), w')) →
  (∀ ks, order ks ≡ₚ elements ks) → holds (persistent s) (persistentStore s) m → rcOwners (refCount s) = 2%Z →
  (Z.of_nat (length (instances (persistent s))) < int_max)%Z →
  ∃ s1 s' m1, cleaner_run order periodic started (cleanup_interval interval) s = Done ((), s1) ∧
    cleaner_goroutine order periodic started interval s = Done ((), s') ∧
    holds (persistent s1) (persistentStore s) m1 ∧ resources s1 = resources s ∧
    (∀ k, (∃ now l r, now ∈ periodic (cleanup_interval interval) ∧ table s !! k = Some l ∧ resources s !! l = Some r ∧
        uLoad (pending r) = 0%Z ∧ stored r = true ∧
        (Z.max started (Updated (internalState r)) + TTL (internalState r) < now)%Z) →
      table s1 !! k = None ∧ m1 !! k = None) ∧
    (∀ k, (∀ now l r, now ∈ periodic (cleanup_interval interval) → table s !! k = Some l → resources s !! l = Some r →
        uLoad (pending r) = 0%Z → stored r = true →
        (now ≤ Z.max started (Updated (internalState r)) + TTL (internalState r))%Z) →
      table s1 !! k = table s !! k ∧ m1 !! k = m !! k) ∧
    obs (persistent s') (persistentStore s) = None.
Proof.
  intros Hremove Horder Hm Hown Hmax. unfold cleaner_goroutine, cleaner_run. set (ticks := periodic _).
  destruct (ticks_loop_all Hremove order Horder started ticks s m Hm) as (s1 & m1 & E1 & Hc).
  pose proof Hc as [Hm1 (Er & _ & Ep & Ec & Ei) Ht Hd].
  destruct (two_releases_close s1 m1 ltac:(by rewrite Ec) Hm1 ltac:(by rewrite Ei)) as (s2 & s' & E2 & E3 & Hclosed).
  exists s1, s', m1. split; [done|]. split; [erewrite M_bind_eq by exact E1; unfold Init_end; by erewrite M_bind_eq by exact E2|].
  rewrite <-Ep. split; [done|]. split; [done|]. rewrite Ht, Hd.
  assert (Hexp : ∀ k, k ∈ expired started ticks s ↔ ∃ now l r, now ∈ ticks ∧ table s !! k = Some l ∧ resources s !! l = Some r ∧
    uLoad (pending r) = 0%Z ∧ stored r = true ∧ (Z.max started (Updated (internalState r)) + TTL (internalState r) < now)%Z).
  { intros k. unfold expired. rewrite elem_of_union_list. split.
    - intros (ks & (now & -> & Hnow)%list_elem_of_fmap & (l & r & Hl & Hr & Hk)%gcFind_spec).
      apply checkCleanResource_true in Hk as (? & ? & ?). exists now, l, r. by split_and!.
    - intros (now & l & r & Hnow & Hl & Hr & Hk). eexists. split; [by apply list_elem_of_fmap_2|].
      apply gcFind_spec. exists l, r. split_and!; [done..|]. by apply checkCleanResource_true. }
  split_and!; [| |done].
  - intros k Hk%Hexp. split; apply eq_None_not_Some; intros [x [_ Hx]%without_Some]; tauto.
  - intros k Hk. assert (Hno : k ∉ expired started ticks s).
    { intros (now & l & r & Hnow & Hl & Hr & Hp & Hs & Hlt)%Hexp. specialize (Hk now l r Hnow Hl Hr Hp Hs). lia. }
    split; apply option_eq; intros x; rewrite without_Some; tauto.
Qed.

(** ** A run of the cleaner *)
#[local] Existing Instances doc_convert doc_backend doc_laws.

(** The store in memory removes without errors. *)
Lemma doc_Remove (w : doc_world string) ps m k : holds w ps m → ∃ w', Remove ps k w = Done (inr (), w').
Proof.
  intros (Hok & n & Hobs).
  destruct (call_open w ps n m (delete k m) "store/remove" (λ h, remove h k) result_of (λ err, err = None) Hok Hobs)
    as (b & w' & E & -> & _).
  - intros h Hv. destruct (remove_ok _ h n m k (ok_backend w Hok) Hv) as (err & r' & E & Hok' & Hv' & Ho).
    exists err, r'. split_and!; try done. apply named_view_Some in Hv as [_ Hv].
    destruct (memory_remove_ok map_to_list (reg_backend w) h m k Hv) as (m' & E' & _). cbn in E. rewrite E' in E. by injection E as <- _.
  - exists w'. exact E.
Qed.

(** A source that was read once, at time 4 with a time to live of 10, and its input's end. *)
Definition idle_store : M (doc_store string) () :=
  r ← manager_lock "type::src" None;
  match r with inl _ => mret () | inr l => UpdateTTL l 10 4 end.
Definition before_cleaning : doc_store string :=
  match (idle_store;; releaseResource 0;; store_Retain) (new_doc_store string) with Done (_, s) => s | _ => new_doc_store string end.

Lemma before_cleaning_holds : ∃ m, holds (persistent before_cleaning) (persistentStore before_cleaning) m.
Proof.
  destruct (start_follows replace doc_total (new_doc_store string) "type::src" None 10 4 ∅ eq_refl (opened_holds string))
    as (s & m & E & Hf & _).
  destruct (releaseResource_follows replace s 0 0 "type::src" _ 1 None [] m Hf (TryLock_locked _) ltac:(lia)) as (s' & lk & E' & _ & Hf' & _).
  exists m. unfold before_cleaning, idle_store. erewrite M_bind_eq by exact E. erewrite M_bind_eq by exact E'.
  apply (fo_holds _ _ _ _ _ _ _ _ _ _ Hf').
Qed.

Lemma cleaner_collects_expired_witness : ∃ s1 s' : doc_store string,
  cleaner_run elements (λ _, [10; 16]%Z) 5 1 before_cleaning = Done ((), s1) ∧ table s1 !! "type::src"%string = None ∧
  cleaner_goroutine elements (λ _, [10; 16]%Z) 5 1 before_cleaning = Done ((), s') ∧ obs (persistent s') 0 = None.
Proof.
  destruct before_cleaning_holds as [m Hm].
  destruct (cleaner_collects_expired (RefCountLaws0 := Z_refcount_laws) elements (λ _, [10; 16]%Z) before_cleaning 5 1 m doc_Remove (λ _, reflexivity _) Hm eq_refl eq_refl)
    as (s1 & s' & m1 & E1 & E2 & _ & _ & Hgone & _ & Hc).
  exists s1, s'. split; [exact E1|]. split; [|split; [exact E2|exact Hc]].
  destruct (Hgone "type::src"%string) as [Ht _]; [|exact Ht].
  exists 16%Z, 0. eexists. split; [right; left|]. split; [vm_compute; reflexivity|]. split; [vm_compute; reflexivity|]. split; [reflexivity|]. split; [reflexivity|]. reflexivity.
Defined.
