(* ===== verification/Cleanup.v ===== *)
(** * Cleanup helpers: pkg/statestore/cleanup

    cleanup.go and multi.go.  A cleanup function is a computation on the state
    [St] that it cleans up, and may panic; the flags and predicates the helpers
    test are read when the deferred call runs. *)

From stdpp Require Import base list.
From Stdlib Require Import Lia.
From S2P Require Import Prelude.

Section cleanup.
Context {St E : Type}.

(** ** cleanup.go: [check] is the current value behind the flag's pointer. *)
Definition If (check : St → bool) (cleanup : M St ()) : M St () :=
  c ← gets check;
  if (c : bool) then cleanup else mret ().
Definition IfNot (check : St → bool) (cleanup : M St ()) : M St () :=
  c ← gets check;
  if negb c then cleanup else mret ().
Definition IfPred (pred : M St bool) (cleanup : M St ()) : M St () :=
  c ← pred;
  if (c : bool) then cleanup else mret ().
Definition IfNotPred (pred : M St bool) (cleanup : M St ()) : M St () :=
  c ← pred;
  if negb c then cleanup else mret ().
Definition WithError (fn : E → M St ()) (cleanup : M St (option E)) : M St () :=
  err ← cleanup;
  match err with Some err => fn err | None => mret () end.
Definition IgnoreError (cleanup : M St (option E)) : M St () :=
  _ ← cleanup;
  mret ().

(** ** multi.go *)
Record FailClean := mkFailClean {
  success : bool;
  fns : list (M St ())
}.
Definition zeroFailClean : FailClean := mkFailClean false [].

Definition Signal (succ : bool) (f : FailClean) : FailClean := mkFailClean succ (fns f).
Definition Add (fn : M St ()) (f : FailClean) : FailClean := mkFailClean (success f) (fns f ++ [fn]).

(** The loop from [len-1] down to 0; [n] is [i + 1]. *)
Fixpoint cleanup_loop (fs : list (M St ())) (n : nat) : M St () :=
  match n with
  | 0 => mret ()
  | S i =>
    fn ← nonnil (fs !! i);
    fn;;
    cleanup_loop fs i
  end.
Definition Cleanup (f : FailClean) : M St () :=
  if success f then mret () else cleanup_loop (fns f) (length (fns f)).

(** ** Lemmas *)

(** A user's calls before [Cleanup]. *)
Inductive call := CSignal (succ : bool) | CAdd (fn : M St ()).
Definition do_call (f : FailClean) (c : call) : FailClean :=
  match c with CSignal succ => Signal succ f | CAdd fn => Add fn f end.

(** What the calls ask for: the handlers in the order added and the last signal. *)
Definition added (cs : list call) : list (M St ()) := omap (λ c, match c with CAdd fn => Some fn | _ => None end) cs.
Definition signal (cs : list call) : bool :=
  default false (last (omap (λ c, match c with CSignal b => Some b | _ => None end) cs)).

Lemma calls_spec cs : success (foldl do_call zeroFailClean cs) = signal cs ∧ fns (foldl do_call zeroFailClean cs) = added cs.
Proof.
  unfold signal, added. induction cs as [|c cs [IH1 IH2]] using rev_ind; [done|]. rewrite foldl_snoc, !omap_app.
  destruct c; simpl; rewrite ?app_nil_r, ?last_snoc; split; [done|done|done|]. by rewrite IH2.
Qed.

(** Runs computations one after the other. *)
Fixpoint run_all (fs : list (M St ())) : M St () :=
  match fs with
  | [] => mret ()
  | fn :: fs => fn;; run_all fs
  end.

Lemma cleanup_loop_ext fs fs' n s : n ≤ length fs → cleanup_loop (fs ++ fs') n s = cleanup_loop fs n s.
Proof.
  revert s. induction n as [|n IH]; intros s Hn; [done|]. simpl. rewrite lookup_app_l by lia.
  destruct (lookup_lt_is_Some_2 fs n) as [fn ->]; [lia|]. run_M. simpl. destruct (fn s) as [[[] s']| |]; [|done..].
  apply IH. lia.
Qed.

Lemma cleanup_loop_rev fs s : cleanup_loop fs (length fs) s = run_all (rev fs) s.
Proof.
  revert s. induction fs as [|fn fs IH] using rev_ind; intros s; [done|]. rewrite rev_unit, length_app, Nat.add_1_r. simpl.
  rewrite lookup_app_r, Nat.sub_diag by lia. run_M. simpl. destruct (fn s) as [[[] s']| |]; [|done..].
  rewrite cleanup_loop_ext by done. apply IH.
Qed.
End cleanup.
Arguments FailClean : clear implicits.
Arguments call : clear implicits.

(** * Properties *)

(** After any sequence of [Add] and [Signal] calls, [Cleanup] does nothing when the
    last signal was a success, and otherwise runs every handler added, each once, in
    the reverse of the order of addition; a panic of a handler stops it. *)
Theorem cleanup_runs_handlers_in_reverse {St} (cs : list (call St)) (s : St) :
  Cleanup (foldl do_call zeroFailClean cs) s = if signal cs then Done ((), s) else run_all (rev (added cs)) s.
Proof.
  destruct (calls_spec cs) as [H1 H2]. unfold Cleanup. rewrite H1, H2. destruct (signal cs); [done|].
  apply cleanup_loop_rev.
Qed.

Example cleanup_example : Cleanup (foldl do_call zeroFailClean
    [CAdd (modify (cons 1)); CSignal true; CAdd (modify (cons 2)); CSignal false]) [] = Done ((), [1; 2]).
Proof. reflexivity. Qed.
