(* ===== verification/LoadGen.v ===== *)
(** * The load generator: inputs/loadgenerator

    core.go and config.go: [Run], the loop of one stream, over an environment that
    answers the clock, the stop channel and the writes.  (LoadUnits.v is about the
    units the agent client reports.)
    Times and durations are nanoseconds; [time.Time] has room for more than any
    clock shows, so adding to one is addition. *)

From stdpp Require Import base gmap strings list fin_maps.
From Stdlib Require Import ZArith Lia.
From S2P Require Import Prelude Fs.

(** ** config.go *)
Record Config := mkConfig {
  Delay : Z;
  TimeDelta : Z;
  CurrentTime : bool;
  EventsCount : Z;
  CLoop : bool;
  OutFile : string
}.
Definition time_Second : Z := 1000000000%Z.
Definition DefaultConfig : Config := mkConfig time_Second time_Second false 0%Z true "".

(** The states of a unit, of the agent client's protocol. *)
Inductive UnitState := UnitStateStarting | UnitStateConfiguring | UnitStateHealthy | UnitStateDegraded
  | UnitStateFailed | UnitStateStopping | UnitStateStopped.
#[export] Instance UnitState_eq_dec : EqDecision UnitState.
Proof. solve_decision. Defined.

(** ** The environment of a run

    The answers to the n-th clock reading, the n-th poll of the stop channel, the
    n-th write ([None] when it succeeds, otherwise how many bytes it wrote and its
    error), the opening of the output and the n-th event rendered. *)
Record Env := mkEnv {
  now_at : nat → Z;
  stop_at : nat → bool;
  write_result : nat → option (nat * goerr);
  open_error : option goerr;
  render : nat → Z → string
}.

(** What a run has done: calls so far, lines written and to which file ([""] is the
    standard output), pauses, files closed, unit updates, and the shared event counter. *)
Record World := mkWorld {
  clock_reads : nat;
  polls : nat;
  writes : nat;
  rendered : nat;
  written : list (string * string);
  slept : list Z;
  closed : list string;
  updates : list (UnitState * string);
  events : Z
}.
Definition newline : string := String (Ascii.ascii_of_nat 10) "".

Section run.
Context (env : Env).

Definition l_now : M World Z := fun w =>
  Done (now_at env (clock_reads w), mkWorld (S (clock_reads w)) (polls w) (writes w) (rendered w) (written w) (slept w) (closed w) (updates w) (events w)).
Definition stop_received : M World bool := fun w =>
  Done (stop_at env (polls w), mkWorld (clock_reads w) (S (polls w)) (writes w) (rendered w) (written w) (slept w) (closed w) (updates w) (events w)).
Definition next (t : Z) : M World string := fun w =>
  Done (render env (rendered w) t, mkWorld (clock_reads w) (polls w) (writes w) (S (rendered w)) (written w) (slept w) (closed w) (updates w) (events w)).
Definition send (event handle : string) : M World (option goerr) := fun w =>
  let line := event +:+ newline in
  let out := match write_result env (writes w) with None => line | Some (n, _) => String.substring 0 n line end in
  Done (snd <$> write_result env (writes w), mkWorld (clock_reads w) (polls w) (S (writes w)) (rendered w)
    (written w ++ [(handle, out)]) (slept w) (closed w) (updates w) (events w)).
Definition sleep (d : Z) : M World () := modify (fun w =>
  mkWorld (clock_reads w) (polls w) (writes w) (rendered w) (written w) (slept w ++ [d]) (closed w) (updates w) (events w)).
Definition close_file (f : string) : M World () := modify (fun w =>
  mkWorld (clock_reads w) (polls w) (writes w) (rendered w) (written w) (slept w) (closed w ++ [f]) (updates w) (events w)).
Definition UpdateState (st : UnitState) (msg : string) : M World () := modify (fun w =>
  mkWorld (clock_reads w) (polls w) (writes w) (rendered w) (written w) (slept w) (closed w) (updates w ++ [(st, msg)]) (events w)).
Definition events_Add (n : Z) : M World () := modify (fun w =>
  mkWorld (clock_reads w) (polls w) (writes w) (rendered w) (written w) (slept w) (closed w) (updates w) (wrap 64 (events w + n))).

(** The loop of [Run]; [timeDiff] and [evts] are its variables.  It returns the error,
    [gotStop] and [evts].  [fuel] bounds the iterations. *)
Fixpoint Run_loop (fuel : nat) (cfg : Config) (outFile : string) (timeDiff evts : Z) : M World (option goerr * bool * Z) :=
  match fuel with
  | 0 => fun _ => OutOfFuel
  | S fuel =>
    if negb (CLoop cfg) && bool_decide (evts = EventsCount cfg) then mret (None, false, evts)
    else
      stop ← stop_received;
      if (stop : bool) then mret (None, true, evts)
      else
        event ← next timeDiff;
        err ← send event outFile;
        match err with
        | Some err => mret (Some (Wrapped "error sending event" err), false, evts)
        | None =>
          let evts := wrap 64 (evts + 1) in
          timeDiff ← (if CurrentTime cfg then l_now else mret (timeDiff + TimeDelta cfg)%Z);
          sleep (Delay cfg);;
          Run_loop fuel cfg outFile timeDiff evts
        end
  end.

(** The deferred function: the event counter and the report of an early end. *)
Definition Run_deferred (gotStop : bool) (evts : Z) (streamID : string) : M World () :=
  events_Add evts;;
  if negb gotStop then UpdateState UnitStateHealthy ("runner for stream " +:+ streamID +:+ " is ending early") else mret ().

Definition Run (fuel : nat) (cfg : Config) (streamID : string) : M World (option goerr) :=
  timeDiff ← l_now;
  if bool_decide (OutFile cfg = ""%string) then
    '(err, gotStop, evts) ← Run_loop fuel cfg "" timeDiff 0;
    Run_deferred gotStop evts streamID;;
    mret err
  else
    match open_error env with
    | Some err =>
      Run_deferred false 0 streamID;;
      mret (Some (Wrapped ("error creating file at " +:+ OutFile cfg) err))
    | None =>
      '(err, gotStop, evts) ← Run_loop fuel cfg (OutFile cfg) timeDiff 0;
      close_file (OutFile cfg);;
      Run_deferred gotStop evts streamID;;
      mret err
    end.
End run.

(** ** Lemmas on the loop *)
Section run_facts.
Context (env : Env) (cfg : Config) (outFile : string).

(** The timestamp of event [i] when the first has [t], and the line it gives. *)
Definition stamp (t : Z) (w : World) (i : nat) : Z :=
  if CurrentTime cfg then match i with 0 => t | S i => now_at env (clock_reads w + i) end else (t + Z.of_nat i * TimeDelta cfg)%Z.
Definition line (t : Z) (w : World) (i : nat) : string := render env (rendered w + i) (stamp t w i) +:+ newline.
Definition lines (t : Z) (w : World) (n : nat) : list (string * string) := (λ i, (outFile, line t w i)) <$> seq 0 n.

(** The world after [n] complete iterations. *)
Definition after (t : Z) (n : nat) (w : World) : World :=
  mkWorld (clock_reads w + if CurrentTime cfg then n else 0) (polls w + n) (writes w + n) (rendered w + n)
    (written w ++ lines t w n) (slept w ++ replicate n (Delay cfg)) (closed w) (updates w) (events w).

Lemma stamp_shift t w i : stamp (stamp t w 1) (after t 1 w) i = stamp t w (S i).
Proof.
  unfold stamp, after. simpl. destruct (CurrentTime cfg); [|lia]. destruct i; simpl; [f_equal; lia|f_equal; lia].
Qed.

Lemma lines_shift t w n : lines t w (S n) = lines t w 1 ++ lines (stamp t w 1) (after t 1 w) n.
Proof.
  unfold lines. simpl. f_equal. rewrite <- seq_shift, <- list_fmap_compose. apply list_fmap_ext. intros ? i _. simpl.
  unfold line. rewrite stamp_shift. simpl. do 3 f_equal. lia.
Qed.

Lemma after_0 t w : after t 0 w = w.
Proof.
  unfold after, lines. destruct w as [c ? ? ? ? ? ? ? ?]. simpl. rewrite !Nat.add_0_r, !app_nil_r.
  by destruct (CurrentTime cfg); rewrite Nat.add_0_r.
Qed.

Lemma after_S t n w : after t (S n) w = after (stamp t w 1) n (after t 1 w).
Proof.
  unfold after at 1 2. rewrite lines_shift. simpl. rewrite <- !app_assoc. f_equal; try lia. destruct (CurrentTime cfg); lia.
Qed.

(** Whether the loop goes on at its head. *)
Definition goes_on (evts : Z) (w : World) : bool :=
  negb (negb (CLoop cfg) && bool_decide (evts = EventsCount cfg)) && negb (stop_at env (polls w)) &&
  match write_result env (writes w) with None => true | _ => false end.

Lemma Run_loop_step fuel t evts w : goes_on evts w = true →
  Run_loop env (S fuel) cfg outFile t evts w = Run_loop env fuel cfg outFile (stamp t w 1) (wrap 64 (evts + 1)) (after t 1 w).
Proof.
  unfold goes_on. intros H. apply andb_prop in H as [H Hw]. apply andb_prop in H as [Hc Hs].
  simpl. apply negb_true_iff in Hc as ->, Hs. unfold stop_received, next, send. run_M. rewrite Hs.
  destruct (write_result env (writes w)) eqn:Ew; [done|]. simpl.
  assert (Ht : stamp t w 0 = t) by (unfold stamp; destruct (CurrentTime cfg); [done|lia]).
  assert (H1 : stamp t w 1 = if CurrentTime cfg then now_at env (clock_reads w) else (t + TimeDelta cfg)%Z).
  { unfold stamp. destruct (CurrentTime cfg); [by rewrite Nat.add_0_r|lia]. }
  unfold sleep, modify, after, lines, line. simpl. rewrite Ht, H1, Ew, !Nat.add_1_r, Nat.add_0_r.
  unfold l_now. by destruct (CurrentTime cfg); rewrite ?Nat.add_1_r, ?Nat.add_0_r.
Qed.

(** How the loop ends after [n] complete iterations in the world [w]. *)
Inductive ends_with (t : Z) (evts : Z) (w : World) : option goerr → bool → World → Prop :=
| ends_stopped : CLoop cfg = true ∨ evts ≠ EventsCount cfg → stop_at env (polls w) = true →
    ends_with t evts w None true
      (mkWorld (clock_reads w) (S (polls w)) (writes w) (rendered w) (written w) (slept w) (closed w) (updates w) (events w))
| ends_counted : CLoop cfg = false → evts = EventsCount cfg → ends_with t evts w None false w
| ends_failed n e : CLoop cfg = true ∨ evts ≠ EventsCount cfg → stop_at env (polls w) = false →
    write_result env (writes w) = Some (n, e) →
    ends_with t evts w (Some (Wrapped "error sending event" e)) false
      (mkWorld (clock_reads w) (S (polls w)) (S (writes w)) (S (rendered w))
        (written w ++ [(outFile, String.substring 0 n (line t w 0))]) (slept w) (closed w) (updates w) (events w)).

Lemma Run_loop_end fuel t evts w : goes_on evts w = false → ∃ err gotStop w',
  Run_loop env (S fuel) cfg outFile t evts w = Done (err, gotStop, evts, w') ∧ ends_with t evts w err gotStop w'.
Proof.
  unfold goes_on. intros H. simpl. destruct (negb (CLoop cfg) && bool_decide (evts = EventsCount cfg)) eqn:Hc.
  { apply andb_prop in Hc as [Hl He]. apply negb_true_iff in Hl. apply bool_decide_eq_true in He.
    do 3 eexists. split; [done|]. by apply ends_counted. }
  assert (Hc' : CLoop cfg = true ∨ evts ≠ EventsCount cfg).
  { destruct (CLoop cfg); [by left|]. right. simpl in Hc. by apply bool_decide_eq_false in Hc. }
  unfold stop_received, next, send. run_M. destruct (stop_at env (polls w)) eqn:Hs.
  { do 3 eexists. split; [done|]. by apply ends_stopped. }
  simpl in H. destruct (write_result env (writes w)) as [[n e]|] eqn:Hw; [|done]. simpl. rewrite Hw.
  assert (Ht : render env (rendered w) t = render env (rendered w + 0) (stamp t w 0)).
  { rewrite Nat.add_0_r. unfold stamp. destruct (CurrentTime cfg); [done|f_equal; lia]. }
  do 3 eexists. split; [done|]. rewrite Ht. by apply ends_failed.
Qed.

Definition evts_after (evts : Z) (n : nat) : Z := wrap 64 (evts + Z.of_nat n).

Lemma Run_loop_inv fuel t evts w r w' : wrap 64 evts = evts →
  Run_loop env fuel cfg outFile t evts w = Done (r, w') →
  ∃ n err gotStop, n < fuel ∧ r = (err, gotStop, evts_after evts n) ∧
    (∀ i, i < n → goes_on (evts_after evts i) (after t i w) = true) ∧
    ends_with (stamp t w n) (evts_after evts n) (after t n w) err gotStop w'.
Proof.
  revert t evts w. induction fuel as [|fuel IH]; intros t evts w He E; [done|].
  assert (H0 : evts_after evts 0 = evts) by (unfold evts_after; by rewrite Z.add_0_r).
  assert (Ht : stamp t w 0 = t) by (unfold stamp; destruct (CurrentTime cfg); [done|lia]).
  destruct (goes_on evts w) eqn:Hg.
  - rewrite Run_loop_step in E by done. apply IH in E as (n & err & g & Hn & -> & Hall & Hend); [|apply wrap_idem].
    assert (Hs : ∀ i, evts_after (wrap 64 (evts + 1)) i = evts_after evts (S i)).
    { intros i. unfold evts_after. rewrite wrap_add_l. f_equal. lia. }
    exists (S n), err, g. rewrite <- Hs, (after_S t n w), <- stamp_shift. split; [lia|]. split; [done|]. split; [|done].
    intros [|i] Hi; [rewrite H0, after_0; exact Hg|]. rewrite <- Hs, after_S. apply Hall. lia.
  - destruct (Run_loop_end fuel t evts w Hg) as (err & g & w1 & E' & Hend). rewrite E in E'.
    injection E' as -> ->. exists 0, err, g. rewrite H0, Ht, after_0.
    split; [lia|]. split; [done|]. split; [intros; lia|done].
Qed.

(** If some iteration ends the loop, it returns. *)
Lemma Run_loop_returns k : ∀ fuel t evts w, k < fuel → wrap 64 evts = evts →
  goes_on (evts_after evts k) (after t k w) = false → ∃ r, Run_loop env fuel cfg outFile t evts w = Done r.
Proof.
  induction k as [|k IH]; intros [|fuel] t evts w Hf He H; try lia; (destruct (goes_on evts w) eqn:Hg;
    [|destruct (Run_loop_end fuel t evts w Hg) as (? & ? & ? & -> & _); by eexists]).
  - unfold evts_after in H. rewrite Z.add_0_r, He, after_0 in H. congruence.
  - rewrite Run_loop_step by done. apply IH; [lia|apply wrap_idem|]. rewrite <- after_S. rewrite <- H. f_equal.
    unfold evts_after. rewrite wrap_add_l. f_equal. lia.
Qed.
End run_facts.

(** ** Lemmas on [Run] *)
Section Run_facts.
Context (env : Env) (cfg : Config) (streamID : string) (w : World).
Hypothesis count_range : (0 ≤ EventsCount cfg < 2 ^ 64)%Z.

Definition open_fails : Prop := OutFile cfg ≠ ""%string ∧ open_error env ≠ None.
Definition early_end : UnitState * string := (UnitStateHealthy, "runner for stream " +:+ streamID +:+ " is ending early").
Definition start : Z := now_at env (clock_reads w).
Definition started : World :=
  mkWorld (S (clock_reads w)) (polls w) (writes w) (rendered w) (written w) (slept w) (closed w) (updates w) (events w).

(** The deferred calls, in the world a loop leaves. *)
Definition deferred (gotStop : bool) (evts : Z) (w' : World) : World :=
  mkWorld (clock_reads w') (polls w') (writes w') (rendered w') (written w') (slept w')
    (closed w' ++ if decide (OutFile cfg = ""%string) then [] else [OutFile cfg])
    (updates w' ++ if gotStop then [] else [early_end]) (wrap 64 (events w' + evts)).

Lemma Run_eq fuel : ¬ open_fails → Run env fuel cfg streamID w =
  match Run_loop env fuel cfg (OutFile cfg) start 0 started with
  | Done (err, g, evts, w') => Done (err, deferred g evts w')
  | Panic m => Panic m
  | OutOfFuel => OutOfFuel
  end.
Proof.
  unfold open_fails, Run, l_now, deferred. intros Ho. run_M. case_bool_decide as Hf.
  - rewrite Hf, decide_True by done. unfold start, started. destruct (Run_loop _ _ _ _ _ _ _) as [[[[err []] evts] w']| |]; [..|done|done];
      unfold Run_deferred, events_Add, UpdateState; run_M; by rewrite !app_nil_r.
  - destruct (open_error env) eqn:He; [exfalso; by apply Ho|]. rewrite decide_False by done. unfold start, started.
    destruct (Run_loop _ _ _ _ _ _ _) as [[[[err []] evts] w']| |]; [..|done|done];
      unfold Run_deferred, events_Add, UpdateState, close_file; run_M; by rewrite ?app_nil_r.
Qed.

Lemma Run_open_fails fuel : open_fails → ∃ e, open_error env = Some e ∧ Run env fuel cfg streamID w =
  Done (Some (Wrapped ("error creating file at " +:+ OutFile cfg) e),
    mkWorld (S (clock_reads w)) (polls w) (writes w) (rendered w) (written w) (slept w) (closed w) (updates w ++ [early_end])
      (wrap 64 (events w + 0))).
Proof.
  intros [Hf He]. unfold Run, l_now. run_M. rewrite bool_decide_false by done. destruct (open_error env) as [e|]; [|done].
  exists e. split; [done|]. done.
Qed.

(** An iteration goes on when it is before the count and nothing else ends it. *)
Lemma evts_after_small n : (Z.of_nat n < 2 ^ 64)%Z → evts_after 0 n = Z.of_nat n.
Proof. clear count_range. intros. unfold evts_after. apply wrap_small. lia. Qed.

Lemma goes_on_iff evts w' : goes_on env cfg evts w' = true ↔
  (CLoop cfg = true ∨ evts ≠ EventsCount cfg) ∧ stop_at env (polls w') = false ∧ write_result env (writes w') = None.
Proof.
  clear count_range. unfold goes_on. rewrite !andb_true_iff, negb_true_iff, andb_false_iff, negb_true_iff, negb_false_iff, bool_decide_eq_false.
  destruct (write_result env (writes w')); naive_solver.
Qed.

(** Iterations that all go on do not pass the count. *)
Lemma iterations_bound n : CLoop cfg = false →
  (∀ i, i < n → goes_on env cfg (evts_after 0 i) (after env cfg (OutFile cfg) start i started) = true) →
  (Z.of_nat n ≤ EventsCount cfg)%Z.
Proof.
  intros Hl Hall. destruct (decide (Z.of_nat n ≤ EventsCount cfg)%Z); [done|]. exfalso.
  specialize (Hall (Z.to_nat (EventsCount cfg))). rewrite evts_after_small, Z2Nat.id in Hall by lia.
  apply goes_on_iff in Hall as [[?|?] _]; [congruence|done|lia].
Qed.

(** The lines of the first [n] events. *)
Definition event_lines (n : nat) : list (string * string) := lines env cfg (OutFile cfg) start started n.

Definition Run_result (n : nat) (err : option goerr) (w' : World) : Prop :=
  (CLoop cfg = false → Z.of_nat n ≤ EventsCount cfg)%Z ∧
  slept w' = slept w ++ replicate n (Delay cfg) ∧ events w' = wrap 64 (events w + Z.of_nat n) ∧
  closed w' = closed w ++ (if decide (OutFile cfg = ""%string) then [] else [OutFile cfg]) ∧
  ((CLoop cfg = true ∨ evts_after 0 n ≠ EventsCount cfg) ∧ stop_at env (polls w + n) = true ∧ err = None ∧
     written w' = written w ++ event_lines n ∧ updates w' = updates w ∨
   (CLoop cfg = false ∧ evts_after 0 n = EventsCount cfg) ∧ err = None ∧
     written w' = written w ++ event_lines n ∧ updates w' = updates w ++ [early_end] ∨
   ∃ k e, (CLoop cfg = true ∨ evts_after 0 n ≠ EventsCount cfg) ∧ write_result env (writes w + n) = Some (k, e) ∧ err = Some (Wrapped "error sending event" e) ∧
     written w' = written w ++ event_lines n ++
       [(OutFile cfg, String.substring 0 k (line env cfg start started n))] ∧
     updates w' = updates w ++ [early_end]).

Lemma Run_spec fuel err w' : ¬ open_fails → Run env fuel cfg streamID w = Done (err, w') → ∃ n, n < fuel ∧
  (∀ i, i < n → stop_at env (polls w + i) = false ∧ write_result env (writes w + i) = None) ∧ Run_result n err w'.
Proof.
  intros Ho E. rewrite Run_eq in E by done. destruct (Run_loop _ _ _ _ _ _ _) as [[r w1]| |] eqn:El; [|done..].
  apply Run_loop_inv in El as (n & err' & g & Hn & -> & Hall & Hend); [|done]. injection E as <- <-.
  exists n. split; [done|]. split.
  { intros i Hi. by apply Hall, goes_on_iff in Hi as [_ Hi]. }
  unfold Run_result. split; [intros; by apply iterations_bound|].
  assert (He : wrap 64 (events w + evts_after 0 n) = wrap 64 (events w + Z.of_nat n)).
  { unfold evts_after. rewrite (Z.add_comm (events w)), wrap_add_l. f_equal. lia. }
  unfold deferred. simpl. destruct Hend as [Hc Hs|Hl Hc|k e Hc Hs Hw]; simpl; rewrite He.
  - do 3 (split; [done|]). left. rewrite app_nil_r. by split.
  - do 3 (split; [done|]). right. left. by split.
  - do 3 (split; [done|]). right. right. exists k, e. do 3 (split; [done|]). split; [|done].
    assert (Ht : line env cfg (stamp env cfg start started n) (after env cfg (OutFile cfg) start n started) 0 = line env cfg start started n).
    { unfold line. simpl. rewrite Nat.add_0_r. do 2 f_equal. unfold stamp at 1. destruct (CurrentTime cfg); [done|lia]. }
    by rewrite Ht, <- app_assoc.
Qed.

Lemma Run_returns k fuel : k < fuel →
  goes_on env cfg (evts_after 0 k) (after env cfg (OutFile cfg) start k started) = false →
  ∃ r, Run env fuel cfg streamID w = Done r.
Proof.
  intros Hk H. destruct (decide (OutFile cfg = ""%string)) as [Hf|Hf]; [|destruct (open_error env) eqn:He].
  2: { edestruct (Run_open_fails fuel) as (e & _ & E); [by split; [|rewrite He]|]. by eexists. }
  all: rewrite Run_eq by (unfold open_fails; naive_solver);
    destruct (Run_loop_returns env cfg (OutFile cfg) k fuel start 0 started Hk eq_refl H) as [[[[err g] evts] w'] ->]; by eexists.
Qed.
End Run_facts.

(** * Properties *)

(** C35. whatever the environment does, a run of the load generator that returns has
    written some number [n] of complete events, with the timestamps of the
    configuration (each [TimeDelta] after the one before, or the clock's), paused
    after each, closed the file it opened and added [n] to the shared counter.  It
    ends at the stop signal, at the configured count or at a write error, and only
    then; without [Loop] it never passes the count.  The unit is told of every end
    but that by the stop signal.  Or else the file could not be created: then the
    run ends with that error, of which the unit is told, and writes nothing. *)
Theorem Run_functional (env : Env) (cfg : Config) (streamID : string) (w : World) fuel err w' :
  (0 ≤ EventsCount cfg < 2 ^ 64)%Z → Run env fuel cfg streamID w = Done (err, w') →
  (∃ e, OutFile cfg ≠ ""%string ∧ open_error env = Some e ∧ err = Some (Wrapped ("error creating file at " +:+ OutFile cfg) e) ∧
     written w' = written w ∧ updates w' = updates w ++ [early_end streamID]) ∨
  ∃ n, (∀ i, i < n → stop_at env (polls w + i) = false ∧ write_result env (writes w + i) = None) ∧
    Run_result env cfg streamID w n err w'.
Proof.
  intros Hc E. destruct (decide (OutFile cfg = ""%string)) as [Hf|Hf]; [|destruct (open_error env) as [e|] eqn:He].
  2: { destruct (Run_open_fails env cfg streamID w fuel) as (e' & Ee & E'); [by split; [|rewrite He]|]. left. rewrite E in E'.
    rewrite He in Ee. injection Ee as <-. injection E' as -> ->. by exists e. }
  all: right; destruct (Run_spec env cfg streamID w Hc fuel err w') as (n & _ & H); [unfold open_fails; naive_solver|done|by exists n].
Qed.

(** With [Loop] off, no stop signal and no write error a run ends by itself, after
    exactly [EventsCount] events ([EventsCount + 1] rounds of the loop suffice). *)
Theorem Run_writes_events_count (env : Env) (cfg : Config) (streamID : string) (w : World) fuel :
  (0 ≤ EventsCount cfg < 2 ^ 64)%Z → ¬ open_fails env cfg → CLoop cfg = false →
  (∀ i, i < Z.to_nat (EventsCount cfg) → stop_at env (polls w + i) = false ∧ write_result env (writes w + i) = None) →
  (EventsCount cfg < Z.of_nat fuel)%Z →
  ∃ w', Run env fuel cfg streamID w = Done (None, w') ∧
    written w' = written w ++ event_lines env cfg w (Z.to_nat (EventsCount cfg)) ∧
    events w' = wrap 64 (events w + EventsCount cfg).
Proof.
  intros Hc Ho Hl Henv Hf. destruct (Run_returns env cfg streamID w Hc (Z.to_nat (EventsCount cfg)) fuel) as [[err w'] E].
  - lia.
  - apply not_true_iff_false. rewrite goes_on_iff, evts_after_small, Z2Nat.id by lia. intros [[?|?] _]; congruence.
  - destruct (Run_spec env cfg streamID w Hc fuel err w' Ho E) as (n & _ & Hall & Hn & _ & Hev & _ & Hend). specialize (Hn Hl).
    exists w'. destruct (decide (Z.of_nat n = EventsCount cfg)) as [Hnc|Hnc].
    + destruct Hend as [([?|H] & _)|[(_ & -> & Hw & _)|(k & e & [?|H] & _)]]; try congruence;
        try (rewrite evts_after_small in H by lia; done).
      rewrite <- Hnc, Nat2Z.id. done.
    + destruct (Henv n) as [Hs Hw]; [lia|].
      destruct Hend as [(_ & H & _)|[((_ & H) & _)|(k & e & _ & H & _)]]; try congruence.
      rewrite evts_after_small in H by lia. done.
Qed.

(** C37. a run ends, with enough rounds of its loop, exactly when its file cannot be
    opened, [Loop] is off, the stop signal arrives at some poll or some write fails;
    with none of these it runs for ever. *)
Theorem Run_ends_iff (env : Env) (cfg : Config) (streamID : string) (w : World) :
  (0 ≤ EventsCount cfg < 2 ^ 64)%Z →
  (∃ fuel r, Run env fuel cfg streamID w = Done r) ↔
  open_fails env cfg ∨ CLoop cfg = false ∨ (∃ k, stop_at env (polls w + k) = true) ∨
  (∃ k, write_result env (writes w + k) ≠ None).
Proof.
  intros Hc. split.
  - intros (fuel & [err w'] & E). destruct (decide (OutFile cfg = ""%string)); [|destruct (open_error env) eqn:He].
    2: { left. split; [done|]. by rewrite He. }
    all: destruct (Run_spec env cfg streamID w Hc fuel err w') as (m & _ & _ & _ & _ & _ & _ & Hend);
      [unfold open_fails; naive_solver|done|right]; destruct Hend as [(_ & H & _)|[((H & _) & _)|(k & e' & _ & H & _)]];
      [right; left; by exists m|by left|right; right; exists m; by rewrite H].
  - intros [[Hf He]|H].
    { exists 0. edestruct (Run_open_fails env cfg streamID w 0) as (e & _ & E); [by split|]. by eexists. }
    assert (∃ k, goes_on env cfg (evts_after 0 k) (after env cfg (OutFile cfg) (start env w) k (started w)) = false) as [k Hk].
    { destruct H as [Hl|[[k Hk]|[k Hk]]]; [exists (Z.to_nat (EventsCount cfg))|exists k|exists k];
        apply not_true_iff_false; rewrite goes_on_iff; simpl.
      - rewrite evts_after_small, Z2Nat.id by lia. intros [[?|?] _]; congruence.
      - rewrite Hk. by intros (_ & ? & _).
      - by intros (_ & _ & ?). }
    exists (S k). by apply (Run_returns env cfg streamID w Hc k); [lia|].
Qed.

(** ** A concrete run: three events to a file, on a clock that stands at 5 *)
Definition example_env : Env :=
  mkEnv (λ _, 5%Z) (λ _, false) (λ _, None) None (λ _ t, if bool_decide (t = 5%Z) then "first" else "later").
Definition example_config : Config := mkConfig 7%Z 2%Z false 3%Z false "out".
Definition example_world : World := mkWorld 0 0 0 0 [] [] [] [] 0%Z.

Example example_run_lines : match Run example_env 4 example_config "s" example_world with
  | Done (None, w) => written w = [("out", "first" +:+ newline); ("out", "later" +:+ newline); ("out", "later" +:+ newline)] ∧
      slept w = [7; 7; 7]%Z ∧ closed w = ["out"] ∧ events w = 3%Z
  | _ => False
  end.
Proof. by vm_compute. Qed.

Lemma Run_functional_witness : ∃ err w', Run example_env 4 example_config "s" example_world = Done (err, w') ∧
  ∃ n, Run_result example_env example_config "s" example_world n err w'.
Proof.
  do 2 eexists. split; [vm_compute; reflexivity|].
  destruct (Run_functional example_env example_config "s" example_world 4 None
    (mkWorld 1 3 3 3 [("out", "first" +:+ newline); ("out", "later" +:+ newline); ("out", "later" +:+ newline)]%string
      [7; 7; 7]%Z ["out"%string] [early_end "s"] 3%Z)) as [(e & _ & H & _)|(n & _ & H)].
  - split; vm_compute; congruence.
  - vm_compute. reflexivity.
  - discriminate H.
  - exists n. exact H.
Defined.

Lemma Run_writes_events_count_witness : ∃ w', Run example_env 4 example_config "s" example_world = Done (None, w') ∧
  events w' = 3%Z.
Proof.
  destruct (Run_writes_events_count example_env example_config "s" example_world 4) as (w' & E & _ & Hev).
  - split; vm_compute; congruence.
  - intros [_ H]. apply H. reflexivity.
  - reflexivity.
  - intros i _. by split.
  - reflexivity.
  - exists w'. split; [exact E|exact Hev].
Defined.

Lemma Run_ends_iff_witness : (∃ fuel r, Run example_env fuel example_config "s" example_world = Done r) ∧
  ¬ ∃ fuel r, Run example_env fuel DefaultConfig "s" example_world = Done r.
Proof.
  split.
  - apply (Run_ends_iff example_env example_config "s" example_world); [split; vm_compute; congruence|]. right. by left.
  - intros H. apply (Run_ends_iff example_env DefaultConfig "s" example_world) in H; [|split; vm_compute; congruence].
    destruct H as [[H _]|[H|[[k H]|[k H]]]]; [by apply H|discriminate H|discriminate H|by apply H].
Defined.
