(* ===== verification/LoadEvent.v ===== *)
(** * The events of the load generator (flog.go)

    The text of an event: a line of JSON, filled with fake data.  What the random
    generators answer is a parameter; the clock's time is formatted as package
    time does. *)

From stdpp Require Import base gmap strings list fin_maps.
From Stdlib Require Import ZArith Ascii Lia.
From S2P Require Import Prelude GoValue Json JsonFacts Fs Txid LoadGen.

(** ** Package fmt

    [Sprintf] with the verbs %s and %d; [None]: the verbs and the arguments do not
    match, which no call here has ([NewJSONLogFormat_text]). *)
Inductive arg := AStr (s : string) | AInt (n : Z).
Definition Itoa (n : Z) : string :=
  let d := String.string_of_list_byte (format_uint (Z.abs n)) in
  if decide (n < 0)%Z then "-" +:+ d else d.
Fixpoint Sprintf (format : string) (args : list arg) : option string :=
  match format with
  | EmptyString => match args with [] => Some ""%string | _ => None end
  | String "%"%char (String "s"%char format) =>
    match args with AStr s :: args => r ← Sprintf format args; Some (s +:+ r) | _ => None end
  | String "%"%char (String "d"%char format) =>
    match args with AInt n :: args => r ← Sprintf format args; Some (Itoa n +:+ r) | _ => None end
  | String c format => r ← Sprintf format args; Some (String c r)
  end.

(** ** Package time

    A time is an instant, in nanoseconds since 1970; its zone is an offset from
    UTC in seconds.  The calendar is the Gregorian one, for all years. *)
Definition isLeap (year : Z) : bool :=
  bool_decide (year mod 4 = 0)%Z && (negb (bool_decide (year mod 100 = 0)%Z) || bool_decide (year mod 400 = 0)%Z).
Definition daysBefore (month : Z) : Z := nth (Z.to_nat month) [0; 31; 59; 90; 120; 151; 181; 212; 243; 273; 304; 334; 365]%Z 0%Z.

(** The date, from the days since 1 January of year 1: cycles of 400, 100, 4 and
    1 years, the last of a hundred and of four being one day longer. *)
Definition date_in_year (leap : bool) (yday : Z) : Z * Z :=
  if leap && bool_decide (yday = 59)%Z then (2, 29)%Z
  else
    let day := if leap && bool_decide (59 < yday)%Z then (yday - 1)%Z else yday in
    let month := (day / 31)%Z in
    let e := daysBefore (month + 1) in
    if decide (e ≤ day)%Z then (month + 2, day - e + 1)%Z else (month + 1, day - daysBefore month + 1)%Z.
Definition absDate (d : Z) : Z * (Z * Z) :=
  let n400 := (d / 146097)%Z in let d := (d mod 146097)%Z in
  let n100 := (d / 36524 - Z.shiftr (d / 36524) 2)%Z in let d := (d - 36524 * n100)%Z in
  let n4 := (d / 1461)%Z in let d := (d - 1461 * n4)%Z in
  let n1 := (d / 365 - Z.shiftr (d / 365) 2)%Z in let d := (d - 365 * n1)%Z in
  let year := (400 * n400 + 100 * n100 + 4 * n4 + n1 + 1)%Z in
  (year, date_in_year (isLeap year) d).

(** [appendInt]: decimal, with zeros up to [width] digits. *)
Definition appendInt (x : Z) (width : nat) : string :=
  let d := format_uint (Z.abs x) in
  (if decide (x < 0)%Z then "-" else "")%string +:+ String.string_of_list_byte (replicate (width - length d) Byte.x30 ++ d).

(** The fraction of a second, without trailing zeros. *)
Fixpoint trim_zeros (l : bytes) : bytes :=
  match l with
  | c :: r => if bool_decide (c = Byte.x30) then trim_zeros r else l
  | [] => []
  end.
Definition formatNano (ns : Z) : string :=
  match reverse (trim_zeros (reverse (bs (appendInt ns 9)))) with
  | [] => ""
  | l => "." +:+ String.string_of_list_byte l
  end.

(** [Format(time.RFC3339Nano)] *)
Definition Format_RFC3339Nano (offset : Z) (t : Z) : string :=
  let local := (t / 1000000000 + offset)%Z in
  let '(year, (month, day)) := absDate (local / 86400 + 719162) in
  let s := (local mod 86400)%Z in
  let zone := (Z.quot offset 60)%Z in
  appendInt year 4 +:+ "-" +:+ appendInt month 2 +:+ "-" +:+ appendInt day 2 +:+ "T" +:+
  appendInt (s / 3600) 2 +:+ ":" +:+ appendInt (s mod 3600 / 60) 2 +:+ ":" +:+ appendInt (s mod 60) 2 +:+
  formatNano (t mod 1000000000) +:+
  if decide (offset = 0)%Z then "Z"
  else (if decide (zone < 0)%Z then "-" else "+")%string +:+ appendInt (Z.abs zone / 60) 2 +:+ ":" +:+ appendInt (Z.abs zone mod 60) 2.

(** ** Package net/url *)
Definition shouldEscape (c : Ascii.ascii) : bool :=
  let n := Ascii.nat_of_ascii c in
  negb (bool_decide (48 ≤ n ≤ 57 ∨ 65 ≤ n ≤ 90 ∨ 97 ≤ n ≤ 122) || bool_decide (c ∈ ["-"; "_"; "."; "~"]%char)).
Definition upperhex (n : nat) : Ascii.ascii := Ascii.ascii_of_nat (if decide (n < 10) then 48 + n else 55 + n).
Fixpoint QueryEscape (s : string) : string :=
  match s with
  | EmptyString => EmptyString
  | String c s =>
    let n := Ascii.nat_of_ascii c in
    if decide (c = " "%char) then String "+"%char (QueryEscape s)
    else if shouldEscape c then String "%"%char (String (upperhex (n / 16)) (String (upperhex (n mod 16)) (QueryEscape s)))
    else String c (QueryEscape s)
  end.

(** ** flog.go

    The answers of the generators to the calls for one event: gofakeit's, xid's of
    the event's time, [rand.Intn(3)], and [BS] by the number of the call. *)
Record fakes := mkFakes {
  xid : Z → string;
  HackerPhrase : string;
  IPv4Address : string;
  Username : string;
  HTTPMethod : string;
  num : Z;
  BS : nat → string;
  Intn3 : nat;
  HTTPStatusCode : Z;
  Number : Z;
  URL : string
}.

(** The loop of [RandResourceURI]: [n] iterations are left, from the [i]-th. *)
Fixpoint uri_loop (f : fakes) (n i : nat) (uri : string) : string :=
  match n with
  | 0 => uri
  | S n => uri_loop f n (S i) (uri +:+ "/" +:+ QueryEscape (BS f i))
  end.
Definition RandResourceURI (f : fakes) : string := ToLower (uri_loop f (Z.to_nat (num f)) 0 "").

Definition versions : list string := ["HTTP/1.0"; "HTTP/1.1"; "HTTP/2.0"].
Definition RandHTTPVersion (f : fakes) : outcome string :=
  match versions !! Intn3 f with Some v => Done v | None => Panic "index out of range" end.

Definition dq : string := String (Ascii.ascii_of_nat 34) "".
Definition JSONLogFormat : string :=
  "{" +:+ dq +:+ "@timestamp" +:+ dq +:+ ":" +:+ dq +:+ "%s" +:+ dq +:+ ", " +:+ dq +:+ "xid" +:+ dq +:+ ":" +:+ dq +:+ "%s" +:+ dq +:+
  ", " +:+ dq +:+ "message" +:+ dq +:+ ": " +:+ dq +:+ "%s" +:+ dq +:+ ", " +:+ dq +:+ "host" +:+ dq +:+ ":" +:+ dq +:+ "%s" +:+ dq +:+
  ", " +:+ dq +:+ "user-identifier" +:+ dq +:+ ":" +:+ dq +:+ "%s" +:+ dq +:+ ", " +:+ dq +:+ "method" +:+ dq +:+ ": " +:+ dq +:+ "%s" +:+ dq +:+
  ", " +:+ dq +:+ "request" +:+ dq +:+ ": " +:+ dq +:+ "%s" +:+ dq +:+ ", " +:+ dq +:+ "protocol" +:+ dq +:+ ":" +:+ dq +:+ "%s" +:+ dq +:+
  ", " +:+ dq +:+ "status" +:+ dq +:+ ":%d, " +:+ dq +:+ "bytes" +:+ dq +:+ ":%d, " +:+ dq +:+ "referer" +:+ dq +:+ ": " +:+ dq +:+ "%s" +:+ dq +:+ "}".

Definition NewJSONLogFormat (offset : Z → Z) (f : fakes) (t : Z) : outcome string :=
  version ← RandHTTPVersion f;
  match Sprintf JSONLogFormat
    [AStr (Format_RFC3339Nano (offset t) t); AStr (xid f t); AStr (HackerPhrase f); AStr (IPv4Address f); AStr (ToLower (Username f));
     AStr (HTTPMethod f); AStr (RandResourceURI f); AStr version; AInt (HTTPStatusCode f); AInt (Number f); AStr (URL f)] with
  | Some s => Done s
  | None => OutOfFuel
  end.

(** ** The calendar

    [absDate] is the Gregorian calendar: every day has a date that exists, and
    the days before that date add up to it. *)
Definition days_in_month (leap : bool) (month : Z) : Z :=
  (daysBefore month - daysBefore (month - 1) + if leap && bool_decide (month = 2)%Z then 1 else 0)%Z.
Definition days_before (year month day : Z) : Z :=
  (365 * (year - 1) + (year - 1) / 4 - (year - 1) / 100 + (year - 1) / 400 +
   daysBefore (month - 1) + (if isLeap year && bool_decide (2 < month)%Z then 1 else 0) + day - 1)%Z.

Definition yday_ok (leap : bool) (yday : Z) : bool :=
  let '(month, day) := date_in_year leap yday in
  bool_decide (1 ≤ month ≤ 12 ∧ 1 ≤ day ≤ days_in_month leap month ∧
    daysBefore (month - 1) + (if leap && bool_decide (2 < month)%Z then 1 else 0) + day - 1 = yday)%Z.
Lemma date_in_year_ok (leap : bool) yday : (0 ≤ yday < 365 + if leap then 1 else 0)%Z → yday_ok leap yday = true.
Proof.
  assert (H : forallb (yday_ok leap) (seqZ 0 (365 + (if leap then 1 else 0))%Z) = true) by (destruct leap; vm_compute; reflexivity).
  rewrite forallb_forall in H. intros Hy. apply H. apply list_elem_of_In, elem_of_seqZ. lia.
Qed.

Lemma isLeap_parts c n100 n4 n1 : (0 ≤ n100 < 4 → 0 ≤ n4 < 25 → 0 ≤ n1 < 4 →
  isLeap (400 * c + 100 * n100 + 4 * n4 + n1 + 1) = bool_decide (n1 = 3) && (negb (bool_decide (n4 = 24)) || bool_decide (n100 = 3)))%Z.
Proof.
  intros Hn100 Hn4 Hn1. unfold isLeap.
  rewrite (bool_decide_ext _ (n1 = 3)%Z) by (Z.div_mod_to_equations; lia).
  case_bool_decide as H1; simpl; [|done]. subst n1.
  rewrite (bool_decide_ext _ (n4 = 24)%Z) by (Z.div_mod_to_equations; lia).
  case_bool_decide as H2; simpl; [|done]. subst n4.
  apply bool_decide_ext. Z.div_mod_to_equations; lia.
Qed.

(** The year and the day of the year, which is in the year. *)
Lemma absDate_parts d : ∃ c n100 n4 n1 yday, (0 ≤ n100 < 4 ∧ 0 ≤ n4 < 25 ∧ 0 ≤ n1 < 4 ∧
  d = 146097 * c + 36524 * n100 + 1461 * n4 + 365 * n1 + yday ∧
  let year := 400 * c + 100 * n100 + 4 * n4 + n1 + 1 in
  0 ≤ yday < 365 + (if isLeap year then 1 else 0) ∧ absDate d = (year, date_in_year (isLeap year) yday))%Z.
Proof.
  pose proof (Z.mod_pos_bound d 146097 eq_refl) as Hr. pose proof (Z.div_mod d 146097 ltac:(lia)) as Hd.
  unfold absDate. cbv zeta. rewrite !Z.shiftr_div_pow2 by lia. change (2 ^ 2)%Z with 4%Z.
  set (r := (d mod 146097)%Z) in *. set (c := (d / 146097)%Z) in *. clearbody r c.
  set (n100 := (r / 36524 - r / 36524 / 4)%Z). assert (H100 : (0 ≤ n100 < 4 ∧ 0 ≤ r - 36524 * n100 < 36524 + (if decide (n100 = 3) then 1 else 0))%Z)
    by (unfold n100; case_decide; Z.div_mod_to_equations; lia).
  set (r4 := (r - 36524 * n100)%Z) in *. set (n4 := (r4 / 1461)%Z).
  assert (H4 : (0 ≤ n4 < 25 ∧ 0 ≤ r4 - 1461 * n4 < 1461 - (if decide (n4 = 24 ∧ n100 ≠ 3) then 1 else 0))%Z)
    by (unfold n4; repeat case_decide; Z.div_mod_to_equations; lia).
  set (r1 := (r4 - 1461 * n4)%Z) in *. set (n1 := (r1 / 365 - r1 / 365 / 4)%Z).
  assert (H1 : (0 ≤ n1 < 4 ∧ 0 ≤ r1 - 365 * n1 < 365 + (if decide (n1 = 3 ∧ ¬ (n4 = 24 ∧ n100 ≠ 3)) then 1 else 0))%Z)
    by (unfold n1; repeat case_decide; Z.div_mod_to_equations; lia).
  exists c, n100, n4, n1, (r1 - 365 * n1)%Z. rewrite isLeap_parts by lia. split_and!; try lia; [|done].
  destruct H1 as [_ H1]. destruct (decide (n1 = 3 ∧ ¬ (n4 = 24 ∧ n100 ≠ 3)))%Z as [Hl|Hl].
  - rewrite bool_decide_eq_true_2 by tauto. destruct (decide (n4 = 24)%Z), (decide (n100 = 3)%Z);
      rewrite ?(bool_decide_eq_true_2 (n4 = 24)%Z), ?(bool_decide_eq_false_2 (n4 = 24)%Z), ?(bool_decide_eq_true_2 (n100 = 3)%Z) by done; simpl; tauto || lia.
  - case_bool_decide; [|simpl; lia]. simpl. repeat case_bool_decide; simpl; tauto || lia.
Qed.

Lemma absDate_correct d : let '(year, (month, day)) := absDate d in
  (1 ≤ month ≤ 12 ∧ 1 ≤ day ≤ days_in_month (isLeap year) month ∧ days_before year month day = d)%Z.
Proof.
  destruct (absDate_parts d) as (c & n100 & n4 & n1 & yday & Hn100 & Hn4 & Hn1 & Hd & Hy & E). rewrite E.
  apply date_in_year_ok in Hy. unfold yday_ok in Hy. set (year := (400 * c + 100 * n100 + 4 * n4 + n1 + 1)%Z) in *.
  destruct (date_in_year (isLeap year) yday) as [month day]. apply bool_decide_eq_true in Hy as (Hm & Hdd & Hy).
  split; [done|]. split; [done|]. unfold days_before.
  replace ((year - 1) / 4)%Z with (100 * c + 25 * n100 + n4)%Z by (unfold year; Z.div_mod_to_equations; lia).
  replace ((year - 1) / 100)%Z with (4 * c + n100)%Z by (unfold year; Z.div_mod_to_equations; lia).
  replace ((year - 1) / 400)%Z with c by (unfold year; Z.div_mod_to_equations; lia). unfold year in *. lia.
Qed.

(** ** Text that needs no escapes *)
Definition plain_byte (c : Byte.byte) : bool :=
  bool_decide (32 ≤ code c)%Z && negb (bool_decide (c = quote)) && negb (bool_decide (c = backslash)).
Definition plain (s : string) : Prop := Forall (λ c, plain_byte c = true) (bs s) ∧ valid_utf8 s = true.
Definition ascii_byte (c : Byte.byte) : bool := plain_byte c && in_range 0 127 c.
Definition ascii_plain (s : string) : Prop := Forall (λ c, ascii_byte c = true) (bs s).

Lemma bs_app s t : bs (s +:+ t) = bs s ++ bs t.
Proof. induction s as [|c s IH]; [done|]. exact (f_equal (cons _) IH). Qed.

Lemma ascii_plain_app s t : ascii_plain s → ascii_plain t → ascii_plain (s +:+ t).
Proof. unfold ascii_plain. rewrite bs_app, Forall_app. done. Qed.

Lemma valid_utf8_ascii fuel b : length b ≤ fuel → Forall (λ c, in_range 0 127 c = true) b → valid_utf8_loop fuel b = true.
Proof.
  revert fuel. induction b as [|c b IH]; intros [|fuel] Hl Hb; simpl in Hl; try done; [lia|].
  apply Forall_cons in Hb as [Hc Hb]. cbn [valid_utf8_loop rune_length]. rewrite Hc. apply IH; [lia|done].
Qed.

Lemma ascii_plain_plain s : ascii_plain s → plain s.
Proof.
  intros Hs. assert (Hs' : Forall (λ c, plain_byte c = true ∧ in_range 0 127 c = true) (bs s)).
  { eapply Forall_impl; [exact Hs|]. intros c Hc. by apply andb_true_iff in Hc. }
  apply Forall_and in Hs' as [Hp Ha]. split; [done|]. by apply valid_utf8_ascii.
Qed.

Lemma plain_byte_inv c : plain_byte c = true → (32 ≤ code c)%Z ∧ c ≠ quote ∧ c ≠ backslash.
Proof.
  unfold plain_byte. rewrite !andb_true_iff, !negb_true_iff, !bool_decide_eq_false, bool_decide_eq_true. tauto.
Qed.

Lemma scan_string_plain b r : Forall (λ c, plain_byte c = true) b → scan_string (b ++ quote :: r) = Some (b, r).
Proof.
  induction 1 as [|c b Hc _ IH]; [done|]. apply plain_byte_inv in Hc as (Hr & Hq & Hb). simpl app. cbn [scan_string].
  rewrite !bool_decide_eq_false_2 by done. unfold in_range. rewrite bool_decide_eq_false_2 by lia. by rewrite IH.
Qed.

Lemma unquote_loop_plain fuel fuel' b : valid_utf8_loop fuel b = true → length b ≤ fuel' → Forall (λ c, plain_byte c = true) b →
  unquote_loop fuel' b = b.
Proof.
  revert fuel' b. induction fuel as [|fuel IH]; intros [|fuel'] [|c b] Hv Hl Hb; simpl in Hl; try done; try lia.
  cbn [valid_utf8_loop] in Hv. cbn [unquote_loop].
  rewrite bool_decide_eq_false_2 by (by apply Forall_cons in Hb as [(_ & _ & Hc)%plain_byte_inv _]).
  destruct (rune_length (c :: b)) as [|n] eqn:En; [done|]. rewrite IH; [by rewrite take_drop|done| |by apply Forall_drop].
  rewrite length_drop. simpl. lia.
Qed.

Lemma string_of_bs s : String.string_of_list_byte (bs s) = s.
Proof. apply String.string_of_list_byte_of_string. Qed.

Lemma unquote_plain s : plain s → unquote (bs s) = s.
Proof. intros [Hb Hv]. unfold unquote. rewrite (unquote_loop_plain _ _ _ Hv); [apply string_of_bs|done|done]. Qed.

Lemma parse_string_plain s r : plain s → parse_string (quote :: bs s ++ quote :: r) = Some (s, r).
Proof.
  intros Hs. unfold parse_string. change (skip_ws (quote :: bs s ++ quote :: r)) with (quote :: bs s ++ quote :: r).
  cbn iota. change (bool_decide (quote = quote)) with true. cbn iota. rewrite scan_string_plain by apply Hs.
  cbn [mbind option_bind fst snd]. by rewrite unquote_plain.
Qed.

Lemma parse_value_plain fuel s r : plain s → parse_value (S fuel) (quote :: bs s ++ quote :: r) = Some (JStr s, r).
Proof.
  intros Hs. cbn [parse_value]. change (skip_ws (quote :: bs s ++ quote :: r)) with (quote :: bs s ++ quote :: r).
  change (bool_decide (quote = open_brace)) with false. change (bool_decide (quote = open_bracket)) with false.
  change (bool_decide (quote = quote)) with true. cbn iota. by rewrite (parse_string_plain s r Hs).
Qed.

(** ** The members of an object, as the format writes them *)
Record piece := mkPiece { key : string; space : bytes; text : bytes; parsed : json }.
Definition ends_member (c : Byte.byte) : Prop := c = comma ∨ c = close_brace.
Record piece_ok (p : piece) : Prop := {
  pk_key : plain (key p);
  pk_parse fuel c r : ends_member c → parse_value (S fuel) (space p ++ text p ++ c :: r) = Some (parsed p, c :: r)
}.
Definition member (p : piece) : bytes := quote :: bs (key p) ++ quote :: colon :: space p ++ text p.
Fixpoint members_text (l : list piece) : bytes :=
  match l with
  | [] => []
  | [p] => member p ++ [close_brace]
  | p :: l => member p ++ comma :: Byte.x20 :: members_text l
  end.

Lemma parse_value_space fuel b : parse_value fuel (Byte.x20 :: b) = parse_value fuel b.
Proof. by apply parse_value_skip. Qed.
Lemma parse_members_space fuel b : parse_members fuel (Byte.x20 :: b) = parse_members fuel b.
Proof. by destruct fuel. Qed.

Lemma string_piece k (sp : bool) s : plain k → plain s →
  piece_ok (mkPiece k (if sp then [Byte.x20] else []) (quote :: bs s ++ [quote]) (JStr s)).
Proof.
  intros Hk Hs. split; [done|]. intros fuel c r _. simpl text. simpl parsed.
  assert (E : parse_value (S fuel) ((quote :: bs s ++ [quote]) ++ c :: r) = Some (JStr s, c :: r)).
  { rewrite <- app_comm_cons, <- app_assoc. by apply parse_value_plain. }
  destruct sp; [|exact E]. exact (eq_trans (parse_value_space _ _) E).
Qed.

Lemma uint_piece k n : plain k → (0 ≤ n)%Z → piece_ok (mkPiece k [] (format_uint n) (JNum (format_uint n))).
Proof. intros Hk Hn. split; [done|]. intros fuel c r Hc. by apply parse_value_uint. Qed.

Lemma parse_member fuel p c r : piece_ok p → ends_member c →
  parse_members (S (S fuel)) (member p ++ c :: r) =
    match expect comma (c :: r) with
    | Some r => mr ← parse_members (S fuel) r; Some ((key p, parsed p) :: mr.1, mr.2)
    | None => r ← expect close_brace (c :: r); Some ([(key p, parsed p)], r)
    end.
Proof.
  intros [Hk Hp] Hc. unfold member. rewrite <- app_comm_cons, <- app_assoc. cbn [parse_members].
  rewrite <- app_comm_cons. rewrite (parse_string_plain (key p)) by done. cbn [mbind option_bind fst snd].
  change (expect colon ((colon :: space p ++ text p) ++ c :: r)) with (Some ((space p ++ text p) ++ c :: r)).
  cbn [mbind option_bind fst snd]. rewrite <- app_assoc, Hp by done. cbn [mbind option_bind fst snd]. done.
Qed.

Lemma parse_members_text l fuel : l ≠ [] → Forall piece_ok l → length l < fuel →
  parse_members fuel (members_text l) = Some ((λ p, (key p, parsed p)) <$> l, []).
Proof.
  intros Hne Hl. revert fuel. induction Hl as [|p l Hp Hl IH]; intros fuel Hf; [done|]. simpl in Hf.
  destruct fuel as [|[|fuel]]; [lia..|]. destruct l as [|p' l].
  - change (members_text [p]) with (member p ++ [close_brace]). rewrite parse_member by (done || by right). done.
  - change (members_text (p :: p' :: l)) with (member p ++ comma :: Byte.x20 :: members_text (p' :: l)).
    rewrite parse_member by (done || by left).
    change (expect comma (comma :: Byte.x20 :: members_text (p' :: l))) with (Some (Byte.x20 :: members_text (p' :: l))).
    cbn iota. rewrite parse_members_space, IH by (done || simpl in *; lia). done.
Qed.

Lemma parse_object_text l : l ≠ [] → Forall piece_ok l →
  parse (open_brace :: members_text l) = Some (JObj ((λ p, (key p, parsed p)) <$> l), []).
Proof.
  intros Hne Hl. apply (parse_any_fuel (S (S (length l)))). cbn [parse_value].
  change (skip_ws (open_brace :: members_text l)) with (open_brace :: members_text l). cbn iota.
  change (bool_decide (open_brace = open_brace)) with true. cbn iota.
  assert (He : expect close_brace (members_text l) = None) by (destruct l as [|p [|p' l]]; done). rewrite He.
  rewrite parse_members_text by (done || lia). done.
Qed.

(** ** What is plain *)
Lemma ascii_plain_cons c s : ascii_plain (String c s) ↔ ascii_byte (Ascii.byte_of_ascii c) = true ∧ ascii_plain s.
Proof. exact (Forall_cons _ _ _). Qed.

Lemma lower_ascii c : ascii_byte (Ascii.byte_of_ascii c) = true → ascii_byte (Ascii.byte_of_ascii (lower c)) = true.
Proof. destruct c as [[] [] [] [] [] [] [] []]; vm_compute; auto. Qed.

Lemma ToLower_ascii s : ascii_plain s → ascii_plain (ToLower s).
Proof. induction s as [|c s IH]; [done|]. rewrite ascii_plain_cons. intros [Hc Hs]. apply ascii_plain_cons. auto using lower_ascii. Qed.

Lemma upperhex_ascii n : n < 16 → ascii_byte (Ascii.byte_of_ascii (upperhex n)) = true.
Proof. intros Hn. do 16 (destruct n as [|n]; [done|]). lia. Qed.

Lemma unescaped_ascii c : shouldEscape c = false → ascii_byte (Ascii.byte_of_ascii c) = true.
Proof. destruct c as [[] [] [] [] [] [] [] []]; vm_compute; auto. Qed.

Lemma QueryEscape_ascii s : ascii_plain (QueryEscape s).
Proof.
  induction s as [|c s IH]; [constructor|]. cbn [QueryEscape]. pose proof (Ascii.nat_ascii_bounded c) as Hc.
  repeat case_match; rewrite ?ascii_plain_cons; split_and?; try done.
  - apply upperhex_ascii. apply Nat.Div0.div_lt_upper_bound. lia.
  - apply upperhex_ascii, Nat.mod_upper_bound. lia.
  - by apply unescaped_ascii.
Qed.

Lemma uri_loop_ascii f n i uri : ascii_plain uri → ascii_plain (uri_loop f n i uri).
Proof.
  revert i uri. induction n as [|n IH]; intros i uri Hu; [done|]. apply IH.
  repeat apply ascii_plain_app; [done|by repeat constructor|apply QueryEscape_ascii].
Qed.

(** Whatever [BS] answers. *)
Lemma RandResourceURI_ascii f : ascii_plain (RandResourceURI f).
Proof. apply ToLower_ascii, uri_loop_ascii. constructor. Qed.

Lemma digits_ascii l : Forall (λ c, is_digit c = true) l → Forall (λ c, ascii_byte c = true) l.
Proof. intros Hl. eapply Forall_impl; [exact Hl|]. intros c. by destruct c. Qed.

Lemma appendInt_ascii x w : ascii_plain (appendInt x w).
Proof.
  unfold appendInt. apply ascii_plain_app; [by case_decide; repeat constructor|]. unfold ascii_plain. rewrite bs_string.
  apply Forall_app. split; [by apply Forall_replicate|]. apply digits_ascii, format_uint_spec. lia.
Qed.

Lemma trim_zeros_sub (P : Byte.byte → Prop) l : Forall P l → Forall P (trim_zeros l).
Proof. induction 1; simpl; [done|]. case_bool_decide; by auto. Qed.

Lemma formatNano_ascii ns : ascii_plain (formatNano ns).
Proof.
  unfold formatNano. assert (Hl : Forall (λ c, ascii_byte c = true) (reverse (trim_zeros (reverse (bs (appendInt ns 9)))))).
  { apply Forall_reverse, trim_zeros_sub, Forall_reverse, appendInt_ascii. }
  destruct (reverse _); [constructor|]. apply ascii_plain_app; [by repeat constructor|]. unfold ascii_plain. by rewrite bs_string.
Qed.

Lemma Format_ascii offset t : ascii_plain (Format_RFC3339Nano offset t).
Proof.
  unfold Format_RFC3339Nano. destruct (absDate _) as [year [month day]].
  repeat first [apply appendInt_ascii | apply formatNano_ascii | apply ascii_plain_app | case_decide]; by repeat constructor.
Qed.

(** ** The event *)
Record good_fakes (f : fakes) : Prop := {
  gf_xid t : plain (xid f t);
  gf_phrase : plain (HackerPhrase f);
  gf_address : plain (IPv4Address f);
  gf_username : ascii_plain (Username f);
  gf_method : plain (HTTPMethod f);
  gf_Intn3 : Intn3 f < 3;
  gf_status : (0 ≤ HTTPStatusCode f)%Z;
  gf_bytes : (0 ≤ Number f)%Z;
  gf_url : plain (URL f)
}.

Definition str_piece (k : string) (sp : bool) (s : string) : piece :=
  mkPiece k (if sp then [Byte.x20] else []) (quote :: bs s ++ [quote]) (JStr s).
Definition int_piece (k : string) (n : Z) : piece := mkPiece k [] (format_uint n) (JNum (format_uint n)).
Definition pieces (offset : Z → Z) (f : fakes) (version : string) (t : Z) : list piece :=
  [str_piece "@timestamp" false (Format_RFC3339Nano (offset t) t); str_piece "xid" false (xid f t);
   str_piece "message" true (HackerPhrase f); str_piece "host" false (IPv4Address f);
   str_piece "user-identifier" false (ToLower (Username f)); str_piece "method" true (HTTPMethod f);
   str_piece "request" true (RandResourceURI f); str_piece "protocol" false version;
   int_piece "status" (HTTPStatusCode f); int_piece "bytes" (Number f); str_piece "referer" true (URL f)].

Lemma Itoa_uint n : (0 ≤ n)%Z → bs (Itoa n) = format_uint n.
Proof. intros Hn. unfold Itoa. rewrite decide_False, bs_string, Z.abs_eq by lia. done. Qed.

Lemma bs_cons c s : bs (String c s) = Ascii.byte_of_ascii c :: bs s.
Proof. done. Qed.

Definition version (f : fakes) : string := nth (Intn3 f) versions ""%string.

Lemma NewJSONLogFormat_text offset f t : good_fakes f → ∃ s, NewJSONLogFormat offset f t = Done s ∧
  bs s = open_brace :: members_text (pieces offset f (version f) t).
Proof.
  intros Hf. unfold NewJSONLogFormat, RandHTTPVersion, version. destruct (versions !! Intn3 f) as [v|] eqn:Hv.
  2:{ apply lookup_ge_None in Hv. pose proof (gf_Intn3 f Hf). simpl in Hv. lia. }
  rewrite (nth_lookup_Some _ _ _ _ Hv). simpl. eexists. split; [reflexivity|].
  repeat rewrite ?bs_app, ?bs_cons, ?(Itoa_uint _ (gf_status f Hf)), ?(Itoa_uint _ (gf_bytes f Hf)).
  simpl. rewrite <- ?app_assoc. simpl. reflexivity.
Qed.

(** The members of an event's object. *)
Definition event_members (offset : Z → Z) (f : fakes) (t : Z) : list (string * json) :=
  [("@timestamp", JStr (Format_RFC3339Nano (offset t) t)); ("xid", JStr (xid f t)); ("message", JStr (HackerPhrase f));
   ("host", JStr (IPv4Address f)); ("user-identifier", JStr (ToLower (Username f))); ("method", JStr (HTTPMethod f));
   ("request", JStr (RandResourceURI f)); ("protocol", JStr (version f)); ("status", JNum (format_uint (HTTPStatusCode f)));
   ("bytes", JNum (format_uint (Number f))); ("referer", JStr (URL f))]%string.

Lemma version_ascii f : good_fakes f → ascii_plain (version f).
Proof.
  intros Hf. unfold version. pose proof (gf_Intn3 f Hf) as Hi. destruct (Intn3 f) as [|[|[|n]]]; [by repeat constructor..|lia].
Qed.

Lemma pieces_ok offset f t : good_fakes f → Forall piece_ok (pieces offset f (version f) t).
Proof.
  intros Hf. assert (Hkey : ∀ k, ascii_plain k → plain k) by apply ascii_plain_plain.
  repeat apply (Forall_cons_2 piece_ok); [..|apply Forall_nil_2]; (apply string_piece || apply uint_piece);
    first [apply Hf | apply Hkey; first [apply Format_ascii | apply RandResourceURI_ascii | by apply version_ascii | apply ToLower_ascii, Hf | by repeat constructor]].
Qed.

Lemma event_parses offset f t : good_fakes f → ∃ s, NewJSONLogFormat offset f t = Done s ∧
  parse (bs s) = Some (JObj (event_members offset f t), []).
Proof.
  intros Hf. destruct (NewJSONLogFormat_text offset f t Hf) as (s & E & Ht). exists s. split; [done|].
  rewrite Ht, parse_object_text; [done|done|by apply pieces_ok].
Qed.

(** ** The output *)

(** The environment whose events are those of [NewJSONLogFormat], on the answers [fk]. *)
Definition with_events (offset : Z → Z) (fk : nat → fakes) (env : Env) : Env :=
  mkEnv (now_at env) (stop_at env) (write_result env) (open_error env)
    (λ n t, match NewJSONLogFormat offset (fk n) t with Done s => s | _ => ""%string end).

(** A reader of the output: [Decode] while there is [More]. *)
Fixpoint decode_stream (fuel : nat) (b : bytes) : option (list json) :=
  match fuel with
  | 0 => None
  | S fuel => if more b then jr ← parse b; l ← decode_stream fuel jr.2; Some (jr.1 :: l) else Some []
  end.

Lemma decode_next fuel b j r : more b = true → parse b = Some (j, r) → decode_stream (S fuel) b = l ← decode_stream fuel r; Some (j :: l).
Proof. intros Hm Hp. change (decode_stream (S fuel) b) with (if more b then jr ← parse b; l ← decode_stream fuel jr.2; Some (jr.1 :: l) else Some []). by rewrite Hm, Hp. Qed.

Lemma decode_lines (ls : list (bytes * json)) fuel :
  Forall (λ lj, more lj.1 = true ∧ parse lj.1 = Some (lj.2, []) ∧ is_number lj.2 = false) ls → length ls < fuel →
  decode_stream fuel (mjoin ((λ lj, lj.1 ++ [Json.newline]) <$> ls)) = Some (snd <$> ls) ∧
  decode_stream fuel (Json.newline :: mjoin ((λ lj, lj.1 ++ [Json.newline]) <$> ls)) = Some (snd <$> ls).
Proof.
  intros Hls. revert fuel. induction Hls as [|[b j] ls (Hm & Hp & Hn) _ IH]; intros [|fuel] Hf; simpl in Hf; try lia; [done|].
  destruct (IH fuel ltac:(lia)) as [_ IH2]. clear IH. cbn [fst snd] in Hm, Hp, Hn.
  set (rest := mjoin ((λ lj : bytes * json, lj.1 ++ [Json.newline]) <$> ls)) in *.
  replace (mjoin ((λ lj : bytes * json, lj.1 ++ [Json.newline]) <$> (b, j) :: ls)) with (b ++ Json.newline :: rest)
    by (unfold rest; simpl; by rewrite <- app_assoc).
  assert (Hp' : parse (b ++ Json.newline :: rest) = Some (j, Json.newline :: rest)).
  { exact (parse_extend b (Json.newline :: rest) j [] Hp (or_intror Hn)). }
  assert (Hm' : more (b ++ Json.newline :: rest) = true).
  { unfold more in *. destruct (skip_ws b) as [|c r] eqn:Eb; [done|]. by rewrite (skip_ws_cons b c r _ Eb). }
  assert (Hm2 : more (Json.newline :: b ++ Json.newline :: rest) = true) by (by rewrite more_newline).
  pose proof (parse_newline _ _ _ Hp' (or_intror Hn)) as Hp2.
  split; [rewrite (decode_next _ _ _ _ Hm' Hp')|rewrite (decode_next _ _ _ _ Hm2 Hp2)]; by rewrite IH2.
Qed.

Lemma join_cons {A} (x : list A) l : mjoin (x :: l) = x ++ mjoin l.
Proof. done. Qed.

Lemma event_more offset f t s : NewJSONLogFormat offset f t = Done s → good_fakes f → more (bs s) = true.
Proof.
  intros E Hf. destruct (NewJSONLogFormat_text offset f t Hf) as (s' & E' & Ht). rewrite E in E'. injection E' as <-. by rewrite Ht.
Qed.

(** What is written to a file, as one text. *)
Definition output (l : list (string * string)) : bytes := mjoin ((λ hs : string * string, bs hs.2) <$> l).

Lemma lines_output env cfg outFile offset fk t w n : (∀ i, good_fakes (fk i)) →
  ∃ ls, output (lines (with_events offset fk env) cfg outFile t w n) = mjoin ((λ lj, lj.1 ++ [Json.newline]) <$> ls) ∧
    Forall (λ lj, more lj.1 = true ∧ parse lj.1 = Some (lj.2, []) ∧ is_number lj.2 = false) ls ∧
    snd <$> ls = (λ i, JObj (event_members offset (fk (rendered w + i)) (stamp env cfg t w i))) <$> seq 0 n.
Proof.
  intros Hf. unfold lines. generalize 0. induction n as [|n IH]; intros k; [by exists []|].
  destruct (IH (S k)) as (ls & El & Hls & Es). destruct (event_parses offset (fk (rendered w + k)) (stamp env cfg t w k) (Hf _)) as (s & E & Hp).
  exists ((bs s, JObj (event_members offset (fk (rendered w + k)) (stamp env cfg t w k))) :: ls). split; [|split].
  - unfold output in *. cbn [seq]. rewrite !fmap_cons, !join_cons, El. f_equal. unfold line. cbn [fst snd render with_events].
    change (stamp (with_events offset fk env) cfg t w k) with (stamp env cfg t w k). by rewrite E, bs_app.
  - constructor; [|done]. split; [by eapply event_more|done].
  - rewrite fmap_cons, Es. done.
Qed.

(** C36. What a stream writes is a text of JSON objects.  A [Run] that ends without an
    error has written a number of lines; a JSON decoder that reads them one after
    the other gets exactly that many objects and the end of the text, the i-th with
    the eleven members of the format in their order: the time of the i-th event in RFC 3339,
    and the values that the generators gave for it.  Nothing is escaped, so this asks of the
    generators' texts that they hold no quotes, backslashes or control
    characters and are valid UTF-8; not of the resource, the time and the HTTP
    version, which are plain whatever was generated. *)
Theorem output_is_json env cfg offset fk streamID fuel w w' :
  (0 ≤ EventsCount cfg < 2 ^ 64)%Z → (∀ i, good_fakes (fk i)) →
  Run (with_events offset fk env) fuel cfg streamID w = Done (None, w') →
  ∃ n new, written w' = written w ++ new ∧ length new = n ∧ Forall (λ hs, hs.1 = OutFile cfg) new ∧
    decode_stream (S n) (output new) =
      Some ((λ i, JObj (event_members offset (fk (rendered w + i)) (stamp env cfg (start env w) (started w) i))) <$> seq 0 n).
Proof.
  intros Hc Hf E. set (env' := with_events offset fk env) in *.
  assert (Ho : ¬ open_fails env' cfg).
  { intros Ho. destruct (Run_open_fails env' cfg streamID w fuel Ho) as (e & _ & E'). congruence. }
  destruct (Run_spec env' cfg streamID w Hc fuel None w' Ho E) as (n & _ & _ & _ & _ & _ & _ & Hend).
  exists n, (event_lines env' cfg w n). split; [by destruct Hend as [(_ & _ & _ & H & _)|[(_ & _ & H & _)|(? & ? & _ & _ & ? & _)]]|].
  split; [unfold event_lines, lines; by rewrite length_fmap, length_seq|]. split.
  { unfold event_lines, lines. by apply Forall_fmap, Forall_true. }
  destruct (lines_output env cfg (OutFile cfg) offset fk (start env w) (started w) n Hf) as (ls & El & Hls & Es).
  unfold event_lines. change (start env' w) with (start env w). unfold env'. rewrite El.
  assert (Hlen : length ls = n) by (apply (f_equal length) in Es; by rewrite !length_fmap, length_seq in Es).
  destruct (decode_lines ls (S n) Hls ltac:(lia)) as [-> _]. by rewrite Es.
Qed.

(** ** Three events *)
Definition example_fakes : fakes :=
  mkFakes (λ _, "9m4e2mr0ui3e8a215n4g"%string) "We need to parse the back-end port!" "192.0.2.7" "Gopher" "GET" 2 (λ _, "e-business & co"%string) 1
    200 3000 "http://example.org/".
Lemma example_fakes_good : good_fakes example_fakes.
Proof. split; [intros t|..]; try (split; [repeat constructor|reflexivity]); try (simpl; lia). repeat constructor. Qed.

Example example_event : NewJSONLogFormat (λ _, 3600%Z) example_fakes 1700000000120000000 = Done (
  "{" +:+ dq +:+ "@timestamp" +:+ dq +:+ ":" +:+ dq +:+ "2023-11-14T23:13:20.12+01:00" +:+ dq +:+ ", " +:+ dq +:+ "xid" +:+ dq +:+ ":" +:+ dq +:+
  "9m4e2mr0ui3e8a215n4g" +:+ dq +:+ ", " +:+ dq +:+ "message" +:+ dq +:+ ": " +:+ dq +:+ "We need to parse the back-end port!" +:+ dq +:+ ", " +:+
  dq +:+ "host" +:+ dq +:+ ":" +:+ dq +:+ "192.0.2.7" +:+ dq +:+ ", " +:+ dq +:+ "user-identifier" +:+ dq +:+ ":" +:+ dq +:+ "gopher" +:+ dq +:+ ", " +:+
  dq +:+ "method" +:+ dq +:+ ": " +:+ dq +:+ "GET" +:+ dq +:+ ", " +:+ dq +:+ "request" +:+ dq +:+ ": " +:+ dq +:+
  "/e-business+%26+co/e-business+%26+co" +:+ dq +:+ ", " +:+ dq +:+ "protocol" +:+ dq +:+ ":" +:+ dq +:+ "HTTP/1.1" +:+ dq +:+ ", " +:+
  dq +:+ "status" +:+ dq +:+ ":200, " +:+ dq +:+ "bytes" +:+ dq +:+ ":3000, " +:+ dq +:+ "referer" +:+ dq +:+ ": " +:+ dq +:+
  "http://example.org/" +:+ dq +:+ "}")%string.
Proof. vm_compute. reflexivity. Qed.

Lemma output_is_json_witness : ∃ w' new,
  Run (with_events (λ _, 0%Z) (λ _, example_fakes) example_env) 4 example_config "s" example_world = Done (None, w') ∧
  written w' = new ∧ length new = 3 ∧
  (hd JNull <$> decode_stream 4 (output new)) = Some (JObj (event_members (λ _, 0%Z) example_fakes 5)).
Proof.
  set (r := Run _ 4 example_config "s" example_world).
  assert (Hr : match r with Done (None, w') => length (written w') = 3 | _ => False end) by (vm_compute; reflexivity).
  destruct r as [[[e|] w']| |] eqn:E; try contradiction.
  destruct (output_is_json example_env example_config (λ _, 0%Z) (λ _, example_fakes) "s" 4 example_world w') as (n & new & Hw & Hn & _ & Hd).
  - split; vm_compute; congruence.
  - intros _. exact example_fakes_good.
  - exact E.
  - simpl in Hw. rewrite Hw in Hr. assert (n = 3) as -> by congruence. exists w', new. split; [reflexivity|]. split; [exact Hw|]. split; [exact Hr|].
    rewrite Hd. reflexivity.
Defined.
