(* ===== verification/LoadUnits.v ===== *)
(** * The load generator's units: inputs/loadgenerator/core.go

    The agent client reports that units are added,
    modified and removed; each unit has streams, each stream a goroutine that runs
    [LoadGen.Run] and a channel, of capacity one, on which it is told to stop.  Units
    and protobuf sources belong to the client ([Unit], [Source]): [Expected] is what
    a unit expects while one of its changes is handled. *)

From stdpp Require Import base gmap strings list fin_maps.
From Stdlib Require Import ZArith Lia.
From S2P Require Import Prelude Fs LoadGen.

Section units.
Context {Unit Source C : Type}.
Context (ID : Unit → string).

Record Stream := mkStream { Id : string; StreamSource : Source }.
Context (Expected : Unit → UnitState * option (list Stream)).
(** The configuration library, error texts and the order of [range] over a map. *)
Context (NewConfigFrom : Source → goerr + C) (Unpack : C → Config → option goerr * Config).
Context (err_text : goerr → string).
Context (iterate : gmap string nat → list (string * nat)).

(** A stop channel: the values waiting in it, and all the values it was ever sent. *)
Record channel := mkChannel { waiting : nat; sent : nat }.

(** [loadRunner]; the mutexes are held by one goroutine, that of the main loop. *)
Record loadRunner := mkLoadRunner {
  stopFuncs : gmap string nat;
  runner_unit : option Unit
}.
Definition newLoadRunner : loadRunner := mkLoadRunner ∅ None.

(** A goroutine started for a stream. *)
Record goroutine := mkGoroutine { g_stop : nat; g_config : Config; g_unit : string; g_stream : string }.

Record loadGenerator := mkLoadGenerator {
  runners : gmap string loadRunner;
  channels : list channel;
  goroutines : list goroutine;
  unit_updates : list (string * UnitState * string)
}.
Definition newLoadGenerator : loadGenerator := mkLoadGenerator ∅ [] [] [].

Definition unit_UpdateState (u : Unit) (st : UnitState) (msg : string) : M loadGenerator () := modify (fun l =>
  mkLoadGenerator (runners l) (channels l) (goroutines l) (unit_updates l ++ [(ID u, st, msg)])).

(** [runner <- struct{}{}]: a full channel makes the sender wait; [Panic] marks it. *)
Definition send_stop (ch : nat) : M loadGenerator () := fun l =>
  match channels l !! ch with
  | Some c =>
    if decide (waiting c < 1) then
      Done ((), mkLoadGenerator (runners l) (<[ ch := mkChannel (S (waiting c)) (S (sent c)) ]> (channels l))
        (goroutines l) (unit_updates l))
    else Panic "blocked: the channel is full"
  | None => Panic "blocked: nil channel"
  end.
Definition make_chan : M loadGenerator nat := fun l =>
  Done (length (channels l), mkLoadGenerator (runners l) (channels l ++ [mkChannel 0 0]) (goroutines l) (unit_updates l)).
Definition go_stream (g : goroutine) : M loadGenerator () := modify (fun l =>
  mkLoadGenerator (runners l) (channels l) (goroutines l ++ [g]) (unit_updates l)).
Definition set_runners (f : gmap string loadRunner → gmap string loadRunner) : M loadGenerator () := modify (fun l =>
  mkLoadGenerator (f (runners l)) (channels l) (goroutines l) (unit_updates l)).

(** [Close] has nothing to do. *)
Definition Close : M loadGenerator (option goerr) := mret None.

Definition checkDone : M loadGenerator bool := gets (fun l => bool_decide (size (runners l) = 0)).
Definition removeUnit (u : Unit) : M loadGenerator () := set_runners (delete (ID u)).

(** The loop of [tearDownUnit] over the streams of the unit [id]. *)
Fixpoint stop_loop (u : Unit) (id : string) (streams : list (string * nat)) : M loadGenerator () :=
  match streams with
  | [] => mret ()
  | (streamID, runner) :: streams =>
    unit_UpdateState u UnitStateStopping ("sending shutdown to unit " +:+ streamID);;
    send_stop runner;;
    set_runners (alter (fun r => mkLoadRunner (delete streamID (stopFuncs r)) (runner_unit r)) id);;
    stop_loop u id streams
  end.
Definition tearDownUnit (u : Unit) : M loadGenerator () :=
  unit_UpdateState u UnitStateStopping "starting unit shutdown";;
  runners ← gets runners;
  unitRunner ← nonnil (runners !! ID u);
  stop_loop u (ID u) (iterate (stopFuncs unitRunner));;
  unit_UpdateState u UnitStateStopped "all runners for unit have stopped".

Definition configFromProtobuf (source : Source) : Config * option goerr :=
  match NewConfigFrom source with
  | inl err => (DefaultConfig, Some (Wrapped "error creating new config" err))
  | inr c =>
    let '(err, result) := Unpack c DefaultConfig in
    match err with
    | Some err => (result, Some (Wrapped "error unpacking config" err))
    | None => (result, None)
    end
  end.

Fixpoint stream_loop (u : Unit) (streams : list Stream) (mgr : loadRunner) : M loadGenerator loadRunner :=
  match streams with
  | [] => mret mgr
  | runner :: streams =>
    let streamID := Id runner in
    let '(cfg, err) := configFromProtobuf (StreamSource runner) in
    match err with
    | Some err => unit_UpdateState u UnitStateDegraded
        ("Error creating config from protobuf data for unit " +:+ streamID +:+ ": " +:+ err_text err)
    | None => mret ()
    end;;
    stop ← make_chan;
    unit_UpdateState u UnitStateStarting ("Starting stream with ID " +:+ streamID);;
    go_stream (mkGoroutine stop cfg (ID u) streamID);;
    stream_loop u streams (mkLoadRunner (<[ streamID := stop ]> (stopFuncs mgr)) (runner_unit mgr))
  end.
Definition handleNewUnit (u : Unit) : M loadGenerator () :=
  let '(_, cfg) := Expected u in
  unit_UpdateState u UnitStateConfiguring "configuring unit";;
  streams ← nonnil cfg;
  mgr ← stream_loop u streams newLoadRunner;
  set_runners <[ ID u := mkLoadRunner (stopFuncs mgr) (Some u) ]>;;
  unit_UpdateState u UnitStateHealthy "started runners".

Definition handleUnitModified (u : Unit) : M loadGenerator () :=
  let '(state, _) := Expected u in
  if bool_decide (state = UnitStateStopped) then tearDownUnit u
  else tearDownUnit u;; handleNewUnit u.

(** ** The main loop

    What it waits for: the end of its context and the client's changes.  Between
    them a stream's goroutine may poll its channel. *)
Inductive change := UnitChangedAdded | UnitChangedModified | UnitChangedRemoved | UnitChangedOther.
Inductive input := CtxDone | Changed (ty : change) (u : Unit) | Polled (ch : nat).

Definition poll (ch : nat) : M loadGenerator () := modify (fun l =>
  mkLoadGenerator (runners l) (alter (fun c => mkChannel 0 (sent c)) ch (channels l)) (goroutines l) (unit_updates l)).

(** [false]: the inputs are used up and the loop still waits; [true]: it returned nil. *)
Fixpoint main_loop (ins : list input) : M loadGenerator bool :=
  match ins with
  | [] => mret false
  | CtxDone :: _ => mret true
  | Polled ch :: ins => poll ch;; main_loop ins
  | Changed ty u :: ins =>
    match ty with
    | UnitChangedAdded => handleNewUnit u;; main_loop ins
    | UnitChangedModified => handleUnitModified u;; main_loop ins
    | UnitChangedRemoved =>
      removeUnit u;;
      b ← checkDone;
      if (b : bool) then mret true else main_loop ins
    | UnitChangedOther => main_loop ins
    end
  end.

(** [start_error] is the answer of the client's [Start]. *)
Definition StartWithClient (start_error : option goerr) (ins : list input) : M loadGenerator (option goerr * bool) :=
  match start_error with
  | Some err => mret (Some (Wrapped "error starting client" err), true)
  | None => b ← main_loop ins; mret (None, b)
  end.

(** [client] is the client that is read from the standard input, with the answer of
    its [Start]. *)
Definition Start (client : goerr + option goerr) (ins : list input) : M loadGenerator (option goerr * bool) :=
  match client with
  | inl err => mret (Some (Wrapped "error fetching client from stdin" err), true)
  | inr start_error => StartWithClient start_error ins
  end.
End units.
Arguments loadRunner : clear implicits.
Arguments loadGenerator : clear implicits.
Arguments Stream : clear implicits.
Arguments input : clear implicits.

(** ** Lemmas *)
Section facts.
Context {Unit Source C : Type}.
Context (ID : Unit → string) (Expected : Unit → UnitState * option (list (Stream Source))).
Context (NewConfigFrom : Source → goerr + C) (Unpack : C → Config → option goerr * Config) (err_text : goerr → string).
Context (iterate : gmap string nat → list (string * nat)).
Hypothesis iterate_perm : ∀ m, iterate m ≡ₚ map_to_list m.
Implicit Types (u : Unit) (r : loadRunner Unit) (rs : gmap string (loadRunner Unit)) (l : loadGenerator Unit).

(** Channel [ch] is registered for a stream of a unit; it was told to stop, once. *)
Definition registered rs (id sid : string) (ch : nat) : Prop := ∃ r, rs !! id = Some r ∧ stopFuncs r !! sid = Some ch.
Definition told (chs : list channel) (ch : nat) : Prop := ∃ n, chs !! ch = Some (mkChannel n 1).

(** The invariant of the machine: a registered channel was never used and belongs to
    one stream, and every goroutine's channel is registered or was used. *)
Record streams_ok rs (chs : list channel) (gs : list goroutine) : Prop := mkStreamsOk {
  ok_unused : ∀ id sid ch, registered rs id sid ch → chs !! ch = Some (mkChannel 0 0);
  ok_unique : ∀ id sid id' sid' ch, registered rs id sid ch → registered rs id' sid' ch → id = id' ∧ sid = sid';
  ok_reachable : ∀ g, g ∈ gs → told chs (g_stop g) ∨ registered rs (g_unit g) (g_stream g) (g_stop g)
}.

Lemma streams_ok_ext rs rs' chs gs : (∀ id sid ch, registered rs id sid ch ↔ registered rs' id sid ch) →
  streams_ok rs chs gs → streams_ok rs' chs gs.
Proof.
  intros E [H1 H2 H3]. constructor.
  - intros *. rewrite <- E. eauto.
  - intros *. rewrite <- !E. eauto.
  - intros g. rewrite <- E. eauto.
Qed.

(** A runner without streams registers nothing. *)
Lemma registered_insert rs id0 r id sid ch : registered (<[ id0 := r ]> rs) id sid ch ↔
  id = id0 ∧ stopFuncs r !! sid = Some ch ∨ id ≠ id0 ∧ registered rs id sid ch.
Proof.
  unfold registered. destruct (decide (id = id0)) as [->|Hne].
  - rewrite lookup_insert_eq. naive_solver.
  - rewrite lookup_insert_ne by done. naive_solver.
Qed.

Lemma registered_empty rs id r : stopFuncs r = ∅ → (∀ r', rs !! id = Some r' → stopFuncs r' = ∅) →
  ∀ id' sid ch, registered rs id' sid ch ↔ registered (<[ id := r ]> rs) id' sid ch.
Proof.
  intros Hr Hrs id' sid ch. rewrite registered_insert, Hr, lookup_empty. destruct (decide (id' = id)) as [->|]; [|naive_solver].
  split; [|naive_solver]. intros (r' & E & Hl). apply Hrs in E. rewrite E, lookup_empty in Hl. done.
Qed.

(** Telling one stream to stop. *)
Lemma streams_ok_stop rs chs gs id r sid ch : rs !! id = Some r → stopFuncs r !! sid = Some ch → streams_ok rs chs gs →
  streams_ok (<[ id := mkLoadRunner (delete sid (stopFuncs r)) (runner_unit r) ]> rs) (<[ ch := mkChannel 1 1 ]> chs) gs.
Proof.
  intros Er Ech [H1 H2 H3]. set (rs' := <[ id := _ ]> rs). assert (Hreg : registered rs id sid ch) by (by exists r).
  assert (Hr : ∀ id' sid' ch', registered rs' id' sid' ch' ↔ registered rs id' sid' ch' ∧ (id', sid') ≠ (id, sid)).
  { intros id' sid' ch'. unfold rs'. rewrite registered_insert. simpl. destruct (decide (id' = id)) as [->|Hne]; [|naive_solver].
    unfold registered. rewrite Er. destruct (decide (sid' = sid)) as [->|Hs].
    - rewrite lookup_delete_eq. naive_solver.
    - rewrite lookup_delete_ne by done. naive_solver. }
  constructor.
  - intros id' sid' ch' [Hr' Hne]%Hr. rewrite list_lookup_insert_ne; [by eapply H1|]. intros <-.
    apply Hne. by destruct (H2 _ _ _ _ _ Hreg Hr') as [-> ->].
  - intros id1 sid1 id2 sid2 ch' [? _]%Hr [? _]%Hr. eauto.
  - intros g Hg. destruct (H3 g Hg) as [[n Hn]|Hg'].
    + left. exists n. rewrite list_lookup_insert_ne; [done|]. intros E. rewrite <- E, (H1 _ _ _ Hreg) in Hn. done.
    + destruct (decide ((g_unit g, g_stream g) = (id, sid))) as [[= Eu Es]|Hne]; [|right; by apply Hr].
      left. exists 1. destruct Hg' as (r' & Er' & Ec). rewrite Eu, Er in Er'. injection Er' as <-. rewrite Es, Ech in Ec.
      injection Ec as <-. apply list_lookup_insert_eq. eapply lookup_lt_Some, (H1 _ _ _ Hreg).
Qed.

Lemma stop_loop_ok u id streams r l : runners l !! id = Some r → NoDup streams.*1 →
  (∀ sid ch, stopFuncs r !! sid = Some ch ↔ (sid, ch) ∈ streams) → streams_ok (runners l) (channels l) (goroutines l) →
  ∃ l', stop_loop ID u id streams l = Done ((), l') ∧ goroutines l' = goroutines l ∧
    runners l' = <[ id := mkLoadRunner ∅ (runner_unit r) ]> (runners l) ∧ streams_ok (runners l') (channels l') (goroutines l').
Proof.
  revert r l. induction streams as [|[sid ch] streams IH]; intros r l Er Hnd Hin Hok; simpl.
  { exists l. split; [done|]. split; [done|]. split; [|done]. symmetry. apply insert_id. rewrite Er. f_equal.
    destruct r as [m o]. simpl in *. f_equal. apply map_empty. intros sid. apply eq_None_not_Some. intros [ch Hch].
    apply Hin in Hch. by apply not_elem_of_nil in Hch. }
  apply NoDup_cons in Hnd as [Hni Hnd]. assert (Ech : stopFuncs r !! sid = Some ch) by (apply Hin; left).
  pose proof (streams_ok_stop _ _ _ _ _ _ _ Er Ech Hok) as Hok'. destruct Hok as [H1 H2 H3].
  assert (Hc : channels l !! ch = Some (mkChannel 0 0)) by (eapply H1; by exists r).
  unfold unit_UpdateState, send_stop, set_runners. run_M. simpl. rewrite Hc. simpl.
  assert (Ea : alter (λ r, mkLoadRunner (delete sid (stopFuncs r)) (runner_unit r)) id (runners l) =
    <[ id := mkLoadRunner (delete sid (stopFuncs r)) (runner_unit r) ]> (runners l)).
  { apply map_eq. intros i. destruct (decide (i = id)) as [->|?].
    - by rewrite lookup_alter_eq, lookup_insert_eq, Er.
    - by rewrite lookup_alter_ne, lookup_insert_ne. }
  rewrite Ea. edestruct (IH (mkLoadRunner (delete sid (stopFuncs r)) (runner_unit r))) as (l' & E & Hg & Hr & Hok'').
  5: { exists l'. split; [exact E|]. split; [done|]. split; [|done]. rewrite Hr. simpl. by rewrite insert_insert_eq. }
  - simpl. by rewrite lookup_insert_eq.
  - done.
  - simpl. intros sid' ch'. destruct (decide (sid' = sid)) as [->|Hne].
    + rewrite lookup_delete_eq. split; [done|]. intros Hs. exfalso. apply Hni. by apply (list_elem_of_fmap_2 fst) in Hs.
    + rewrite lookup_delete_ne, Hin, elem_of_cons by done. naive_solver.
  - done.
Qed.

Lemma tearDownUnit_ok u r l : runners l !! ID u = Some r → streams_ok (runners l) (channels l) (goroutines l) →
  ∃ l', tearDownUnit ID iterate u l = Done ((), l') ∧
    runners l' = <[ ID u := mkLoadRunner ∅ (runner_unit r) ]> (runners l) ∧ streams_ok (runners l') (channels l') (goroutines l').
Proof.
  intros Er Hok. unfold tearDownUnit. erewrite M_bind_eq by done. erewrite M_bind_eq by done. simpl. rewrite Er.
  erewrite M_bind_eq by done.
  set (l0 := mkLoadGenerator _ _ _ _).
  destruct (stop_loop_ok u (ID u) (iterate (stopFuncs r)) r l0) as (l' & E & Hg & Hr & Hok').
  - done.
  - rewrite iterate_perm. apply NoDup_fst_map_to_list.
  - intros. by rewrite iterate_perm, elem_of_map_to_list.
  - done.
  - rewrite (M_bind_eq _ _ _ _ _ E). eexists. split; [done|]. by split.
Qed.

(** Starting one stream. *)
Lemma streams_ok_start rs chs gs id mgr sid cfg : stopFuncs mgr !! sid = None →
  streams_ok (<[ id := mgr ]> rs) chs gs →
  streams_ok (<[ id := mkLoadRunner (<[ sid := length chs ]> (stopFuncs mgr)) (runner_unit mgr) ]> rs) (chs ++ [mkChannel 0 0])
    (gs ++ [mkGoroutine (length chs) cfg id sid]).
Proof.
  intros Hs [H1 H2 H3]. set (rs' := <[ id := mkLoadRunner _ _ ]> rs).
  assert (Hr : ∀ id' sid' ch', registered rs' id' sid' ch' ↔
    (id', sid', ch') = (id, sid, length chs) ∨ registered (<[ id := mgr ]> rs) id' sid' ch').
  { intros id' sid' ch'. unfold rs'. rewrite !registered_insert. simpl. destruct (decide (id' = id)) as [->|Hne]; [|naive_solver].
    destruct (decide (sid' = sid)) as [->|Hne].
    - rewrite lookup_insert_eq, Hs. naive_solver.
    - rewrite lookup_insert_ne by done. naive_solver. }
  assert (Hlt : ∀ id' sid' ch', registered (<[ id := mgr ]> rs) id' sid' ch' → ch' < length chs).
  { intros id' sid' ch' H. by eapply lookup_lt_Some, H1. }
  constructor.
  - intros id' sid' ch' [[= -> -> ->]|H]%Hr; [by rewrite lookup_app_r, Nat.sub_diag|].
    rewrite lookup_app_l by eauto. eauto.
  - intros id1 sid1 id2 sid2 ch' [E1|Ha]%Hr [E2|Hb]%Hr.
    + by simplify_eq.
    + apply Hlt in Hb. simplify_eq. lia.
    + apply Hlt in Ha. simplify_eq. lia.
    + eauto.
  - intros g [Hg| ->%list_elem_of_singleton]%elem_of_app; [|right; apply Hr; by left].
    destruct (H3 g Hg) as [[n Hn]|Hg']; [|right; apply Hr; by right]. left. exists n. by apply lookup_app_l_Some.
Qed.

Lemma stream_loop_ok u streams mgr l : NoDup (Id <$> streams) → (∀ s, s ∈ streams → stopFuncs mgr !! Id s = None) →
  streams_ok (<[ ID u := mgr ]> (runners l)) (channels l) (goroutines l) →
  ∃ mgr' l', stream_loop ID NewConfigFrom Unpack err_text u streams mgr l = Done (mgr', l') ∧ runners l' = runners l ∧
    streams_ok (<[ ID u := mgr' ]> (runners l')) (channels l') (goroutines l').
Proof.
  revert mgr l. induction streams as [|s streams IH]; intros mgr l Hnd Hs Hok; simpl.
  { exists mgr, l. by split. }
  destruct (configFromProtobuf NewConfigFrom Unpack (StreamSource s)) as [cfg err]. simpl in Hnd.
  apply NoDup_cons in Hnd as [Hni Hnd].
  assert (∃ l1, match err with Some err => unit_UpdateState ID u UnitStateDegraded
      ("Error creating config from protobuf data for unit " +:+ Id s +:+ ": " +:+ err_text err) | None => mret () end l = Done ((), l1) ∧
    runners l1 = runners l ∧ channels l1 = channels l ∧ goroutines l1 = goroutines l) as (l1 & E1 & Er & Ec & Eg).
  { destruct err; eexists; (split; [reflexivity|]); by split. }
  erewrite M_bind_eq by exact E1. unfold make_chan, unit_UpdateState, go_stream. run_M. simpl. rewrite Er, Ec, Eg.
  edestruct (IH (mkLoadRunner (<[ Id s := length (channels l) ]> (stopFuncs mgr)) (runner_unit mgr))) as (mgr' & l' & E & Hr & Hok').
  4: { exists mgr', l'. split; [exact E|]. by split. }
  - done.
  - intros s' Hs'. simpl. rewrite lookup_insert_ne; [apply Hs; by right|]. intros E. apply Hni. rewrite E.
    by apply list_elem_of_fmap_2.
  - simpl. apply streams_ok_start; [|done]. apply Hs. by left.
Qed.

(** What a unit must come with: its streams, with distinct ids. *)
Definition good_config u : Prop := ∃ streams, (Expected u).2 = Some streams ∧ NoDup (Id <$> streams).

Lemma handleNewUnit_ok u l : good_config u → (∀ r, runners l !! ID u = Some r → stopFuncs r = ∅) →
  streams_ok (runners l) (channels l) (goroutines l) →
  ∃ r l', handleNewUnit ID Expected NewConfigFrom Unpack err_text u l = Done ((), l') ∧
    runners l' = <[ ID u := r ]> (runners l) ∧ streams_ok (runners l') (channels l') (goroutines l').
Proof.
  intros (streams & Es & Hnd) Hr Hok. unfold handleNewUnit. destruct (Expected u) as [st o]. simpl in Es. subst o.
  erewrite M_bind_eq by done. erewrite M_bind_eq by done. set (l0 := mkLoadGenerator _ _ _ _).
  destruct (stream_loop_ok u streams newLoadRunner l0) as (mgr & l' & E & Er & Hok').
  - done.
  - done.
  - by apply (streams_ok_ext _ _ _ _ (registered_empty (runners l) (ID u) newLoadRunner eq_refl Hr)).
  - rewrite (M_bind_eq _ _ _ _ _ E). exists (mkLoadRunner (stopFuncs mgr) (Some u)). eexists. split; [done|].
    simpl. rewrite Er. split; [done|]. eapply streams_ok_ext; [|exact Hok']. intros id sid ch. rewrite Er, !registered_insert. done.
Qed.

(** The agent client's protocol: which of its units are known, and whether they were
    stopped.  A unit is added once, modified while known, and removed once stopped. *)
Fixpoint protocol (known : gmap string bool) (ins : list (input Unit)) : Prop :=
  match ins with
  | [] | CtxDone :: _ => True
  | Polled _ :: ins => protocol known ins
  | Changed UnitChangedAdded u :: ins => known !! ID u = None ∧ good_config u ∧ protocol (<[ ID u := false ]> known) ins
  | Changed UnitChangedModified u :: ins => is_Some (known !! ID u) ∧
      if decide ((Expected u).1 = UnitStateStopped) then protocol (<[ ID u := true ]> known) ins
      else good_config u ∧ protocol (<[ ID u := false ]> known) ins
  | Changed UnitChangedRemoved u :: ins => known !! ID u = Some true ∧ protocol (delete (ID u) known) ins
  | Changed UnitChangedOther _ :: ins => protocol known ins
  end.

(** The runners are those of the known units, and a stopped one has no streams. *)
Definition runners_match (known : gmap string bool) rs : Prop := ∀ id,
  match known !! id with
  | None => rs !! id = None
  | Some stopped => ∃ r, rs !! id = Some r ∧ (stopped = true → stopFuncs r = ∅)
  end.

Lemma runners_match_insert known rs id stopped r : runners_match known rs → (stopped = true → stopFuncs r = ∅) →
  runners_match (<[ id := stopped ]> known) (<[ id := r ]> rs).
Proof.
  intros H Hr id'. destruct (decide (id' = id)) as [->|?].
  - rewrite !lookup_insert_eq. by exists r.
  - rewrite !lookup_insert_ne by done. apply H.
Qed.

Lemma streams_ok_poll rs chs gs ch : streams_ok rs chs gs →
  streams_ok rs (alter (λ c, mkChannel 0 (sent c)) ch chs) gs.
Proof.
  intros [H1 H2 H3]. constructor; [|done|].
  - intros id sid ch' Hr. apply H1 in Hr. destruct (decide (ch' = ch)) as [->|?];
      [by rewrite list_lookup_alter_eq, Hr|by rewrite list_lookup_alter_ne].
  - intros g Hg. destruct (H3 g Hg) as [[n Hn]|?]; [left|by right]. destruct (decide (g_stop g = ch)) as [<-|?].
    + exists 0. by rewrite list_lookup_alter_eq, Hn.
    + exists n. by rewrite list_lookup_alter_ne.
Qed.

Lemma streams_ok_delete rs chs gs id r : rs !! id = Some r → stopFuncs r = ∅ → streams_ok rs chs gs →
  streams_ok (delete id rs) chs gs.
Proof.
  intros Er He. apply streams_ok_ext. intros id' sid ch. unfold registered. destruct (decide (id' = id)) as [->|?].
  - rewrite lookup_delete_eq, Er. split; [intros (? & [= <-] & H); by rewrite He, lookup_empty in H|naive_solver].
  - by rewrite lookup_delete_ne.
Qed.

Lemma handleUnitModified_ok known u l : runners_match known (runners l) → is_Some (known !! ID u) →
  streams_ok (runners l) (channels l) (goroutines l) → ((Expected u).1 ≠ UnitStateStopped → good_config u) →
  ∃ l', handleUnitModified ID Expected NewConfigFrom Unpack err_text iterate u l = Done ((), l') ∧
    runners_match (<[ ID u := bool_decide ((Expected u).1 = UnitStateStopped) ]> known) (runners l') ∧
    streams_ok (runners l') (channels l') (goroutines l').
Proof.
  intros Hm [stopped Hk] Hok Hc. pose proof (Hm (ID u)) as Hu. rewrite Hk in Hu. destruct Hu as (r & Er & _).
  destruct (tearDownUnit_ok u r l Er Hok) as (l1 & E1 & Er1 & Hok1).
  unfold handleUnitModified. destruct (Expected u) as [st cfg] eqn:Eu. simpl in *. case_bool_decide as Hst.
  - exists l1. split; [done|]. split; [|done]. rewrite Er1. by apply runners_match_insert.
  - rewrite (M_bind_eq _ _ _ _ _ E1). destruct (handleNewUnit_ok u l1) as (r2 & l2 & E2 & Er2 & Hok2).
    + by apply Hc.
    + rewrite Er1, lookup_insert_eq. by intros ? [= <-].
    + done.
    + exists l2. split; [done|]. split; [|done]. rewrite Er2, Er1, insert_insert_eq. by apply runners_match_insert.
Qed.

(** What the client knows after an input. *)
Definition next_known (known : gmap string bool) (inp : input Unit) : gmap string bool :=
  match inp with
  | Changed UnitChangedAdded u => <[ ID u := false ]> known
  | Changed UnitChangedModified u => <[ ID u := bool_decide ((Expected u).1 = UnitStateStopped) ]> known
  | Changed UnitChangedRemoved u => delete (ID u) known
  | _ => known
  end.

Lemma protocol_cons known inp ins : protocol known (inp :: ins) →
  protocol known [inp] ∧ (inp = CtxDone ∨ protocol (next_known known inp) ins).
Proof.
  destruct inp as [|[] u|ch]; simpl; try tauto. case_decide as Hst; [rewrite bool_decide_true by done|rewrite bool_decide_false by done]; tauto.
Qed.

Abbreviation loop := (main_loop ID Expected NewConfigFrom Unpack err_text iterate).
Lemma main_loop_cons inp ins l :
  loop (inp :: ins) l = (b ← loop [inp]; if (b : bool) then mret true else loop ins) l.
Proof.
  destruct inp as [|[] u|ch]; simpl; try done; unfold mbind, M_bind, mret, M_ret.
  - by destruct (handleNewUnit _ _ _ _ _ u l) as [[[] l1]| |].
  - by destruct (handleUnitModified _ _ _ _ _ _ u l) as [[[] l1]| |].
  - simpl. by case_bool_decide.
Qed.

Lemma main_step_ok known inp l : runners_match known (runners l) → protocol known [inp] →
  streams_ok (runners l) (channels l) (goroutines l) →
  ∃ b l', loop [inp] l = Done (b, l') ∧ streams_ok (runners l') (channels l') (goroutines l') ∧
    runners_match (next_known known inp) (runners l').
Proof.
  intros Hm Hp Hok. destruct inp as [|[] u|ch]; simpl in *; [by eexists _, _|..|by eexists _, _|].
  - destruct Hp as (Hk & Hc & _). pose proof (Hm (ID u)) as Hu. rewrite Hk in Hu.
    destruct (handleNewUnit_ok u l Hc) as (r & l1 & E & Er & Hok1); [by rewrite Hu|done|].
    rewrite (M_bind_eq _ _ _ _ _ E). exists false, l1. split; [done|]. split; [done|]. rewrite Er. by apply runners_match_insert.
  - destruct Hp as (Hk & Hp). destruct (handleUnitModified_ok known u l Hm Hk Hok) as (l1 & E & Hm1 & Hok1).
    { intros. rewrite decide_False in Hp by done. apply Hp. }
    rewrite (M_bind_eq _ _ _ _ _ E). by exists false, l1.
  - destruct Hp as (Hk & Hp). pose proof (Hm (ID u)) as Hu. rewrite Hk in Hu. destruct Hu as (r & Er & Hs).
    pose proof (streams_ok_delete _ _ _ _ r Er (Hs eq_refl) Hok) as Hok1.
    unfold removeUnit, set_runners, checkDone. run_M. simpl.
    assert (Hm1 : runners_match (delete (ID u) known) (delete (ID u) (runners l))).
    { intros id. destruct (decide (id = ID u)) as [->|?]; [by rewrite !lookup_delete_eq|]. rewrite !lookup_delete_ne by done. apply Hm. }
    case_bool_decide; by eexists _, _.
  - eexists _, _. split; [reflexivity|]. split; [|done]. by apply streams_ok_poll.
Qed.

Lemma main_loop_ok known ins l : runners_match known (runners l) → protocol known ins →
  streams_ok (runners l) (channels l) (goroutines l) →
  ∃ b l', loop ins l = Done (b, l') ∧ streams_ok (runners l') (channels l') (goroutines l').
Proof.
  revert known l. induction ins as [|inp ins IH]; intros known l Hm Hp Hok; [by eexists _, _|].
  apply protocol_cons in Hp as [Hp Hps]. destruct (main_step_ok known inp l Hm Hp Hok) as (b & l1 & E & Hok1 & Hm1).
  rewrite main_loop_cons, (M_bind_eq _ _ _ _ _ E). destruct b; [by eexists _, _|].
  destruct Hps as [->|Hps]; [by simplify_eq/=|]. by eapply IH.
Qed.
End facts.

(** * Properties *)

(** Under the agent client's protocol the main loop never panics and never waits to
    send, whatever the streams do; and every goroutine it ever started either can
    still be told to stop, through its unit's runner, or was told exactly once.  So
    when no unit is left every goroutine was told to stop. *)
Theorem streams_are_told_to_stop {Unit Source C : Type} (ID : Unit → string)
    (Expected : Unit → UnitState * option (list (Stream Source))) (NewConfigFrom : Source → goerr + C)
    (Unpack : C → Config → option goerr * Config) (err_text : goerr → string) (iterate : gmap string nat → list (string * nat))
    (ins : list (input Unit)) :
  (∀ m, iterate m ≡ₚ map_to_list m) → protocol ID Expected ∅ ins →
  ∃ b l, StartWithClient ID Expected NewConfigFrom Unpack err_text iterate None ins newLoadGenerator = Done ((None, b), l) ∧
    ∀ g, g ∈ goroutines l → ∃ c, channels l !! g_stop g = Some c ∧
      (sent c = 0 ∧ registered (runners l) (g_unit g) (g_stream g) (g_stop g) ∨ sent c = 1) ∧
      (runners l = ∅ → sent c = 1).
Proof.
  intros Hit Hp. destruct (main_loop_ok ID Expected NewConfigFrom Unpack err_text iterate Hit ∅ ins newLoadGenerator)
    as (b & l & E & [H1 H2 H3]).
  - intros id. by rewrite !lookup_empty.
  - done.
  - constructor.
    + intros id sid ch (r & H & _). simpl in H. by rewrite lookup_empty in H.
    + intros id sid id' sid' ch (r & H & _). simpl in H. by rewrite lookup_empty in H.
    + intros g Hg. simpl in Hg. by apply not_elem_of_nil in Hg.
  - exists b, l. split; [unfold StartWithClient; by rewrite (M_bind_eq _ _ _ _ _ E)|]. intros g Hg.
    destruct (H3 g Hg) as [[n Hn]|Hr].
    + eexists. split; [exact Hn|]. split; [by right|done].
    + eexists. split; [by eapply H1|]. split; [by left|]. intros He. destruct Hr as (r & Hl & _).
      by rewrite He, lookup_empty in Hl.
Qed.

(** ** Concrete units: a unit is its id, its state and its streams, which have no source *)
Definition example_unit : Type := string * UnitState * list string.
Definition example_ID (u : example_unit) : string := u.1.1.
Definition example_Expected (u : example_unit) : UnitState * option (list (Stream ())) :=
  (u.1.2, Some ((λ id, mkStream id ()) <$> u.2)).
Definition example_loop (ins : list (input example_unit)) : outcome (option goerr * bool * loadGenerator example_unit) :=
  StartWithClient example_ID example_Expected inr (λ (_ : ()) cfg, (None, cfg)) (λ _, ""%string) map_to_list None ins newLoadGenerator.
Definition lifecycle (streams : list string) : list (input example_unit) :=
  let u st : example_unit := ("u"%string, st, streams) in
  [Changed UnitChangedAdded (u UnitStateHealthy); Changed UnitChangedModified (u UnitStateHealthy); Polled 0;
   Changed UnitChangedModified (u UnitStateStopped); Changed UnitChangedRemoved (u UnitStateStopped)].

Lemma streams_are_told_to_stop_witness : protocol example_ID example_Expected ∅ (lifecycle ["a"; "b"]%string) ∧
  ∃ b l, example_loop (lifecycle ["a"; "b"]%string) = Done ((None, b), l) ∧ (runners l = ∅ → ∀ g, g ∈ goroutines l →
    ∃ c, channels l !! g_stop g = Some c ∧ sent c = 1).
Proof.
  assert (Hg : ∀ st, good_config example_Expected ("u"%string, st, ["a"; "b"]%string)).
  { intros st. eexists. split; [reflexivity|]. simpl. apply NoDup_cons. split; [|apply NoDup_singleton].
    intros H. apply list_elem_of_singleton in H. discriminate H. }
  assert (Hp : protocol example_ID example_Expected ∅ (lifecycle ["a"; "b"]%string)).
  { simpl. split; [reflexivity|]. split; [apply Hg|]. split; [by eexists|]. split; [apply Hg|]. split; [by eexists|].
    split; [reflexivity|exact I]. }
  split; [exact Hp|].
  destruct (streams_are_told_to_stop example_ID example_Expected inr (λ (_ : ()) cfg, (None, cfg)) (λ _, ""%string) map_to_list
    (lifecycle ["a"; "b"]%string) (λ _, reflexivity _) Hp) as (b & l & E & H).
  exists b, l. split; [exact E|]. intros He g Hin. destruct (H g Hin) as (c & Hc & _ & Hs). exists c. auto.
Defined.

(** Outside the protocol streams are lost.  When two streams of a unit share an id
    one of their goroutines is never told to stop, though the loop returns; a
    change to a unit that is not known makes the program panic. *)
Theorem duplicate_stream_ids_leak_goroutine :
  (∃ l g c, example_loop (lifecycle ["a"; "a"]%string) = Done ((None, true), l) ∧ goroutines l !! 0 = Some g ∧
     channels l !! g_stop g = Some c ∧ sent c = 0) ∧
  ∃ msg, example_loop [Changed UnitChangedModified ("u", UnitStateStopped, [])%string] = Panic msg.
Proof. split; [do 3 eexists|eexists]; vm_compute; repeat split; reflexivity. Qed.
