(* ===== verification/LoadConc.v ===== *)
(** * The load generator at work: the main loop and the streams' goroutines

    core.go as a whole: the main loop handles the client's changes (LoadUnits.v) while
    each stream's goroutine runs [Run] (LoadGen.v), one iteration of its loop at a
    time, and polls the channel on which the main loop tells it to stop.  The steps
    interleave in any order; the counter of events is shared. *)

From stdpp Require Import base gmap strings list fin_maps relations.
From Stdlib Require Import ZArith Lia.
From S2P Require Import Prelude Fs LoadGen LoadUnits.

(** ** One iteration of [Run] *)

(** The loop's body: the loop ends with the error, [gotStop] and [evts], or goes on
    with [timeDiff] and [evts]. *)
Definition Run_iter (env : Env) (cfg : Config) (outFile : string) (timeDiff evts : Z) :
    M World ((option goerr * bool * Z) + (Z * Z)) :=
  if negb (CLoop cfg) && bool_decide (evts = EventsCount cfg) then mret (inl (None, false, evts))
  else
    stop ← stop_received env;
    if (stop : bool) then mret (inl (None, true, evts))
    else
      event ← next env timeDiff;
      err ← send env event outFile;
      match err with
      | Some err => mret (inl (Some (Wrapped "error sending event" err), false, evts))
      | None =>
        timeDiff ← (if CurrentTime cfg then l_now env else mret (timeDiff + TimeDelta cfg)%Z);
        sleep (Delay cfg);;
        mret (inr (timeDiff, wrap 64 (evts + 1)))
      end.

Lemma Run_loop_iter env fuel cfg outFile t evts w :
  Run_loop env (S fuel) cfg outFile t evts w =
    (r ← Run_iter env cfg outFile t evts; match r with inl e => mret e | inr (t, evts) => Run_loop env fuel cfg outFile t evts end) w.
Proof.
  unfold Run_iter. cbn [Run_loop]. destruct (negb (CLoop cfg) && bool_decide (evts = EventsCount cfg)); [done|].
  unfold mbind, M_bind, stop_received, next, send, l_now, sleep, modify, mret, M_ret.
  destruct (stop_at env (polls w)); [done|]. simpl. destruct (write_result env (writes w)) as [[]|]; [done|]. simpl.
  by destruct (CurrentTime cfg).
Qed.

(** The environment with other answers of the stop channel. *)
Definition with_stop (f : nat → bool) (e : Env) : Env := mkEnv (now_at e) f (write_result e) (open_error e) (render e).

Lemma Run_iter_stop f g e cfg outFile t evts w : f (polls w) = g (polls w) →
  Run_iter (with_stop f e) cfg outFile t evts w = Run_iter (with_stop g e) cfg outFile t evts w.
Proof.
  intros Hfg. unfold Run_iter. destruct (negb (CLoop cfg) && bool_decide (evts = EventsCount cfg)); [done|].
  unfold mbind, M_bind, stop_received. simpl. rewrite Hfg. destruct (g (polls w)); [done|].
  unfold next, send, l_now, sleep, modify, mret, M_ret. simpl.
  destruct (write_result e (writes w)) as [[]|]; [done|]. simpl. by destruct (CurrentTime cfg).
Qed.

(** ** The whole *)

(** A stream's goroutine: before its output is open, in the loop, or returned with
    the error, [gotStop] and the number of events; and what it has done. *)
Inductive stream_state := Opening | Looping (timeDiff evts : Z) | Ended (err : option goerr) (gotStop : bool) (evts : Z).
Record stream := mkStr { st : stream_state; wd : World }.

Definition fresh : World := mkWorld 0 0 0 0 [] [] [] [] 0.
Definition set_events (n : Z) (w : World) : World :=
  mkWorld (clock_reads w) (polls w) (writes w) (rendered w) (written w) (slept w) (closed w) (updates w) n.

Section system.
Context {Unit Source C : Type}.
Context (ID : Unit → string) (Expected : Unit → UnitState * option (list (Stream Source))).
Context (NewConfigFrom : Source → goerr + C) (Unpack : C → Config → option goerr * Config) (err_text : goerr → string).
Context (iterate : gmap string nat → list (string * nat)).

(** The end of the goroutine: the deferred calls, and the report of an error. *)
Definition report (streamID : string) (err : option goerr) : M World () :=
  match err with
  | Some err => UpdateState UnitStateDegraded ("Error running stream with ID " +:+ streamID +:+ ": " +:+ err_text err)
  | None => mret ()
  end.
Definition finish (g : goroutine) (err : option goerr) (gotStop : bool) (evts : Z) : M World stream_state :=
  Run_deferred gotStop evts (g_stream g);;
  report (g_stream g) err;;
  mret (Ended err gotStop evts).

Definition open_step (e : Env) (g : goroutine) : M World stream_state :=
  timeDiff ← l_now e;
  if bool_decide (OutFile (g_config g) = ""%string) then mret (Looping timeDiff 0)
  else
    match open_error e with
    | Some err => finish g (Some (Wrapped ("error creating file at " +:+ OutFile (g_config g)) err)) false 0
    | None => mret (Looping timeDiff 0)
    end.
Definition loop_step (e : Env) (g : goroutine) (t n : Z) : M World stream_state :=
  r ← Run_iter e (g_config g) (OutFile (g_config g)) t n;
  match r with
  | inr (t, n) => mret (Looping t n)
  | inl (err, gotStop, n) =>
    (if bool_decide (OutFile (g_config g) = ""%string) then mret () else close_file (OutFile (g_config g)));;
    finish g err gotStop n
  end.
Definition stream_step (e : Env) (g : goroutine) (s : stream_state) : M World stream_state :=
  match s with
  | Opening => open_step e g
  | Looping t n => loop_step e g t n
  | Ended _ _ _ => mret s
  end.

(** The machine of units, the streams in the order of their goroutines, the counter
    [events], and whether the main loop returned, which ends the process. *)
Record sys := mkSys { machine : loadGenerator Unit; strs : list stream; total : Z; returned : bool }.
Definition start_sys : sys := mkSys newLoadGenerator [] 0 false.

(** A change is handled; new goroutines are before their output. *)
Definition handle (inp : input Unit) (x : sys) : outcome sys :=
  r ← main_loop ID Expected NewConfigFrom Unpack err_text iterate [inp] (machine x);
  Done (mkSys r.2 (strs x ++ replicate (length (goroutines r.2) - length (strs x)) (mkStr Opening fresh)) (total x) r.1).

(** The turn of stream [i], whose environment is [env i] but for its channel. *)
Context (env : nat → Env).
Definition turn (i : nat) (x : sys) : outcome sys :=
  g ← deref (goroutines (machine x) !! i);
  s ← deref (strs x !! i);
  c ← deref (channels (machine x) !! g_stop g);
  rw ← stream_step (with_stop (λ _, bool_decide (0 < waiting c)) (env i)) g (st s) (set_events (total x) (wd s));
  m ← (if bool_decide (polls rw.2 = polls (wd s)) then Done ((), machine x) else poll (g_stop g) (machine x));
  Done (mkSys m.2 (<[ i := mkStr rw.1 (set_events 0 rw.2) ]> (strs x)) (events rw.2) (returned x)).

Inductive step : gmap string bool * sys → gmap string bool * sys → Prop :=
| step_main known inp x x' : returned x = false → (∀ ch, inp ≠ Polled ch) → protocol ID Expected known [inp] →
    handle inp x = Done x' → step (known, x) (next_known ID Expected known inp, x')
| step_stream known i s x x' : returned x = false → strs x !! i = Some s → (∀ err g n, st s ≠ Ended err g n) →
    turn i x = Done x' → step (known, x) (known, x').
End system.
Arguments sys : clear implicits.

(** ** What the main loop does to channels and goroutines *)
Section machine.
Context {Unit Source C : Type}.
Context (ID : Unit → string) (Expected : Unit → UnitState * option (list (Stream Source))).
Context (NewConfigFrom : Source → goerr + C) (Unpack : C → Config → option goerr * Config) (err_text : goerr → string).
Context (iterate : gmap string nat → list (string * nat)).
Implicit Types (l : loadGenerator Unit).

(** Each goroutine has a channel of its own, that of its index. *)
Definition indexed l : Prop :=
  length (channels l) = length (goroutines l) ∧ ∀ i g, goroutines l !! i = Some g → g_stop g = i.

(** Goroutines and channels are added; what is sent to a channel waits in it. *)
Record grows l l' : Prop := {
  gr_goroutines : goroutines l `prefix_of` goroutines l';
  gr_channels : length (channels l) ≤ length (channels l');
  gr_indexed : indexed l → indexed l';
  gr_sent ch c' : channels l' !! ch = Some c' →
    match channels l !! ch with
    | Some c => waiting c' + sent c = waiting c + sent c' ∧ sent c ≤ sent c'
    | None => waiting c' = sent c'
    end
}.

Lemma grows_trans l l1 l2 : grows l l1 → grows l1 l2 → grows l l2.
Proof.
  intros [Hg Hc Hi Hs] [Hg' Hc' Hi' Hs']. split; [by etrans|lia|auto|]. intros ch c2 E2. apply Hs' in E2.
  destruct (channels l1 !! ch) as [c1|] eqn:E1.
  - apply Hs in E1. destruct (channels l !! ch); lia.
  - assert (channels l !! ch = None) as -> by (apply lookup_ge_None in E1; apply lookup_ge_None; lia). done.
Qed.

Lemma grows_same l l' : goroutines l' = goroutines l → channels l' = channels l → grows l l'.
Proof.
  intros Hg Hc. unfold indexed. split; [by rewrite Hg|by rewrite Hc|unfold indexed; by rewrite Hg, Hc|].
  rewrite Hc. intros ch c' ->. lia.
Qed.

Definition keeps {A} (m : M (loadGenerator Unit) A) : Prop := ∀ l a l', m l = Done (a, l') → grows l l'.

Lemma keeps_bind {A B} (m : M _ A) (f : A → M _ B) : keeps m → (∀ a, keeps (f a)) → keeps (m ≫= f).
Proof.
  intros Hm Hf l b l' E. unfold mbind, M_bind in E. destruct (m l) as [[a l1]| |] eqn:Em; [|done..].
  eapply grows_trans; [by eapply Hm|by eapply Hf].
Qed.
Lemma keeps_ret {A} (a : A) : keeps (mret a).
Proof. intros l a' l' [= _ <-]. by apply grows_same. Qed.
Lemma keeps_modify f : (∀ l, goroutines (f l) = goroutines l ∧ channels (f l) = channels l) → keeps (modify f).
Proof. intros Hf l a l' [= _ <-]. destruct (Hf l). by apply grows_same. Qed.
Lemma keeps_gets {A} (f : _ → A) : keeps (gets f).
Proof. intros l a l' [= _ <-]. by apply grows_same. Qed.
Lemma keeps_nonnil {A} (o : option A) : keeps (nonnil o).
Proof. destruct o; intros l a' l' E; [|done]. injection E as _ <-. by apply grows_same. Qed.
Lemma keeps_update u st msg : keeps (unit_UpdateState ID u st msg).
Proof. by apply keeps_modify. Qed.
Lemma keeps_runners f : keeps (set_runners f).
Proof. by apply keeps_modify. Qed.

Lemma keeps_send ch : keeps (send_stop ch).
Proof.
  intros l a l' E. unfold send_stop in E. destruct (channels l !! ch) as [c|] eqn:Ec; [|done].
  destruct (decide (waiting c < 1)); [|done]. injection E as _ <-. split; simpl; [done|by rewrite length_insert| |].
  - unfold indexed. simpl. by rewrite length_insert.
  - intros ch' c'. destruct (decide (ch' = ch)) as [->|Hne].
    + rewrite list_lookup_insert_eq by (by eapply lookup_lt_Some). intros [= <-]. rewrite Ec. simpl. lia.
    + rewrite list_lookup_insert_ne by done. intros ->. lia.
Qed.

(** A channel is made and its goroutine is started. *)
Lemma keeps_start {B} u st msg cfg id sid (f : nat → M _ B) : (∀ stop, keeps (f stop)) →
  keeps (stop ← make_chan; unit_UpdateState ID u st msg;; go_stream (mkGoroutine stop cfg id sid);; f stop).
Proof.
  intros Hf l b l' E. unfold make_chan, unit_UpdateState, go_stream, mbind, M_bind, modify in E. simpl in E.
  eapply grows_trans; [|by eapply Hf]. split; simpl.
  - by apply prefix_app_r.
  - rewrite length_app. lia.
  - intros [Hlen Hi]. split; simpl; [rewrite !length_app; simpl; lia|].
    intros i g [Hg|[Hge Hg]]%lookup_app_Some; [by apply Hi|]. apply list_lookup_singleton_Some in Hg as [Hz <-]. simpl. lia.
  - intros ch c' [Hc|[Hge Hc]]%lookup_app_Some; [rewrite Hc; lia|]. rewrite lookup_ge_None_2 by done.
    apply list_lookup_singleton_Some in Hc as [_ <-]. done.
Qed.

(** One primitive, or the first of a sequence. *)
Ltac keep := first [apply keeps_ret|apply keeps_gets|apply keeps_nonnil|apply keeps_update|apply keeps_runners|apply keeps_send].
Ltac keep_first := apply keeps_bind; [keep|intros ?].

Lemma keeps_stop_loop u id streams : keeps (stop_loop ID u id streams).
Proof.
  induction streams as [|[sid ch] streams IH]; simpl; [keep|]. do 3 keep_first. exact IH.
Qed.

Lemma keeps_tearDownUnit u : keeps (tearDownUnit ID iterate u).
Proof.
  unfold tearDownUnit. do 3 keep_first. apply keeps_bind; [apply keeps_stop_loop|intros _; keep].
Qed.

Lemma keeps_stream_loop u streams mgr : keeps (stream_loop ID NewConfigFrom Unpack err_text u streams mgr).
Proof.
  revert mgr. induction streams as [|s streams IH]; intros mgr; simpl; [keep|].
  destruct (configFromProtobuf _ _ _) as [cfg err]. apply keeps_bind; [destruct err; keep|intros _]. apply keeps_start. intros stop. apply IH.
Qed.

Lemma keeps_handleNewUnit u : keeps (handleNewUnit ID Expected NewConfigFrom Unpack err_text u).
Proof.
  unfold handleNewUnit. destruct (Expected u) as [st cfg]. do 2 keep_first.
  apply keeps_bind; [apply keeps_stream_loop|intros mgr]. keep_first. keep.
Qed.

Lemma keeps_handle inp : (∀ ch, inp ≠ Polled ch) → keeps (main_loop ID Expected NewConfigFrom Unpack err_text iterate [inp]).
Proof.
  intros Hp. destruct inp as [|[] u|ch]; simpl; [keep|..|keep|by destruct (Hp ch)].
  - apply keeps_bind; [apply keeps_handleNewUnit|intros _; keep].
  - apply keeps_bind; [|intros _; keep]. unfold handleUnitModified. destruct (Expected u) as [st cfg].
    case_bool_decide; [apply keeps_tearDownUnit|]. apply keeps_bind; [apply keeps_tearDownUnit|intros _; apply keeps_handleNewUnit].
  - apply keeps_bind; [by apply keeps_modify|intros _]. apply keeps_bind; [keep|intros []; keep].
Qed.
End machine.

(** ** A stream is a run of [Run] *)

(** The counter is only added to. *)
Lemma Run_iter_cases env cfg outFile t n w : ∃ r w', Run_iter env cfg outFile t n w = Done (r, w') ∧
  (∀ k, Run_iter env cfg outFile t n (set_events k w) = Done (r, set_events k w')) ∧ events w' = events w ∧
  ((w' = w ∧ r = inl (None, false, n)) ∨
   (polls w' = S (polls w) ∧ stop_at env (polls w) = true ∧ written w' = written w ∧ r = inl (None, true, n)) ∨
   (polls w' = S (polls w) ∧ stop_at env (polls w) = false)).
Proof.
  unfold Run_iter. destruct (negb (CLoop cfg) && bool_decide (n = EventsCount cfg)); [by eexists _, w; split_and!; auto|].
  unfold mbind, M_bind, stop_received. simpl. destruct (stop_at env (polls w)) eqn:Hs.
  { eexists _, _. split; [reflexivity|]. split_and!; [done..|]. by right; left. }
  unfold next, send, l_now, sleep, modify, mret, M_ret. simpl. destruct (write_result env (writes w)) as [[b e]|].
  { eexists _, _. split; [reflexivity|]. split_and!; [done..|]. by right; right. }
  simpl. destruct (CurrentTime cfg); (eexists _, _; split; [reflexivity|]; split_and!; [done..|]; by right; right).
Qed.

Section runs.
Context (err_text : goerr → string) (e : Env) (g : goroutine).
Abbreviation cfg := (g_config g).
Abbreviation id := (g_stream g).
Abbreviation out := (OutFile (g_config g)).

(** What [Run] does after the loop. *)
Definition Run_tail (r : option goerr * bool * Z) : M World (option goerr) :=
  let '(err, gotStop, n) := r in
  (if bool_decide (out = ""%string) then mret () else close_file out);;
  Run_deferred gotStop n id;;
  mret err.

Lemma Run_opened env fuel w : out = ""%string ∨ open_error env = None →
  Run env fuel cfg id w = (t ← l_now env; r ← Run_loop env fuel cfg out t 0; Run_tail r) w.
Proof.
  intros Ho. unfold Run, Run_tail, mbind, M_bind. simpl. case_bool_decide as Hout.
  - rewrite Hout. by destruct (Run_loop _ _ _ _ _ _ _) as [[[[? ?] ?] ?]| |].
  - destruct Ho as [?| ->]; [done|]. by destruct (Run_loop _ _ _ _ _ _ _) as [[[[? ?] ?] ?]| |].
Qed.

(** What a stream has done is what [Run] does with some answers of the channel. *)
Definition is_run (s : stream) : Prop :=
  events (wd s) = 0%Z ∧
  match st s with
  | Opening => wd s = fresh
  | Looping t n => ∃ k, ∀ f fuel, (∀ j, j < polls (wd s) → f j = false) →
      Run (with_stop f e) (k + fuel) cfg id fresh = (r ← Run_loop (with_stop f e) fuel cfg out t n; Run_tail r) (wd s)
  | Ended err gotStop n => ∃ f fuel w, Run (with_stop f e) fuel cfg id fresh = Done (err, w) ∧ events w = wrap 64 n ∧
      report err_text id err (set_events 0 w) = Done ((), wd s)
  end.

Definition counted (tot : Z) (s : stream_state) : Z := match s with Ended _ _ n => wrap 64 (tot + n) | _ => tot end.
Definition is_ended (s : stream_state) : Prop := match s with Ended _ _ _ => True | _ => False end.

(** The end of the goroutine and that of [Run]. *)
Lemma finish_run err gotStop n w tot : ∃ w1 w2,
  (Run_deferred gotStop n id;; mret (M := M World) err) w = Done (err, w1) ∧ events w1 = wrap 64 (events w + n) ∧
  finish err_text g err gotStop n (set_events tot w) = Done (Ended err gotStop n, w2) ∧ events w2 = wrap 64 (tot + n) ∧
  report err_text id err (set_events 0 w1) = Done ((), set_events 0 w2) ∧ polls w2 = polls w ∧ written w2 = written w.
Proof.
  unfold finish, Run_deferred, report, UpdateState, events_Add, mbind, M_bind, modify, mret, M_ret.
  destruct gotStop, err; simpl; (do 2 eexists; split; [reflexivity|]; split; [reflexivity|]; split; [reflexivity|]; by split_and!).
Qed.

(** The same with the file closed first. *)
Lemma tail_run err gotStop n w tot : ∃ w1 w2,
  Run_tail (err, gotStop, n) w = Done (err, w1) ∧ events w1 = wrap 64 (events w + n) ∧
  ((if bool_decide (out = ""%string) then mret () else close_file out);; finish err_text g err gotStop n) (set_events tot w) =
    Done (Ended err gotStop n, w2) ∧ events w2 = wrap 64 (tot + n) ∧
  report err_text id err (set_events 0 w1) = Done ((), set_events 0 w2) ∧ polls w2 = polls w ∧ written w2 = written w.
Proof.
  unfold Run_tail. case_bool_decide; [exact (finish_run err gotStop n w tot)|].
  exact (finish_run err gotStop n (mkWorld (clock_reads w) (polls w) (writes w) (rendered w) (written w) (slept w)
    (closed w ++ [out]) (updates w) (events w)) tot).
Qed.

Lemma open_step_ok b tot : ∃ st' w', open_step err_text (with_stop (λ _, b) e) g (set_events tot fresh) = Done (st', w') ∧
  is_run (mkStr st' (set_events 0 w')) ∧ events w' = counted tot st' ∧ polls w' = 0.
Proof.
  set (w0 := mkWorld 1 0 0 0 [] [] [] [] 0).
  assert (Hnow : ∀ f k, l_now (with_stop f e) (set_events k fresh) = Done (now_at e 0, set_events k w0)) by done.
  unfold open_step. erewrite M_bind_eq by apply Hnow. cbn [open_error with_stop].
  destruct (decide (out = ""%string ∨ open_error e = None)) as [Ho|Ho].
  - exists (Looping (now_at e 0) 0), (set_events tot w0). split; [|split; [split|done]].
    + case_bool_decide as Hout; [done|]. by destruct Ho as [?| ->].
    + done.
    + exists 0. intros f fuel _. rewrite Run_opened by done. by erewrite M_bind_eq by apply (Hnow f 0%Z).
  - destruct (open_error e) as [err|] eqn:Eo; [|tauto]. assert (Hout : out ≠ ""%string) by tauto. rewrite bool_decide_false by done.
    set (werr := Some (Wrapped ("error creating file at " +:+ out) err)).
    destruct (finish_run werr false 0 w0 tot) as (w1 & w2 & E1 & He1 & E2 & He2 & Hr & Hp & _).
    exists (Ended werr false 0), w2. split; [exact E2|]. split; [|by split]. split; [done|].
    exists (λ _, b), 0, w1. split; [|by split]. unfold Run. erewrite M_bind_eq by apply (Hnow _ 0%Z).
    rewrite bool_decide_false by done. cbn [open_error with_stop]. rewrite Eo. exact E1.
Qed.

Lemma loop_step_ok t n w b tot : is_run (mkStr (Looping t n) w) →
  ∃ st' w', loop_step err_text (with_stop (λ _, b) e) g t n (set_events tot w) = Done (st', w') ∧
    is_run (mkStr st' (set_events 0 w')) ∧ events w' = counted tot st' ∧
    (polls w' = polls w ∨ (b = true → is_ended st')) ∧ (b = true → is_ended st' ∧ written w' = written w).
Proof.
  intros [He [k Hk]]. simpl in He, Hk.
  destruct (Run_iter_cases (with_stop (λ _, b) e) cfg out t n w) as (r & w1 & E & Ek & He1 & Hc).
  assert (Hiter : ∀ f, f (polls w) = b → Run_iter (with_stop f e) cfg out t n w = Done (r, w1)).
  { intros f Hf. rewrite <-E. by apply Run_iter_stop. }
  unfold loop_step. erewrite M_bind_eq by apply Ek. destruct r as [[[err got] n']|[t' n']].
  - destruct (tail_run err got n' w1 tot) as (w2 & w3 & E1 & Ev1 & E2 & Ev2 & Hr & Hp & Hw).
    exists (Ended err got n'), w3. split; [exact E2|]. split; [|split; [done|split; [by right|]]].
    + split; [done|]. exists (λ j, if decide (j = polls w) then b else false), (k + 1), w2.
      split; [|split; [by rewrite Ev1, He1, He|done]].
      rewrite Hk by (intros j Hj; rewrite decide_False by lia; done).
      erewrite M_bind_eq; [exact E1|]. rewrite Run_loop_iter. by erewrite M_bind_eq by (by apply Hiter; rewrite decide_True).
    + intros ->. split; [done|]. destruct Hc as [[-> _]|[(_ & _ & Hw1 & _)|[_ Hs]]]; [done|congruence|done].
  - exists (Looping t' n'), (set_events tot w1). split; [done|]. destruct Hc as [[_ ?]|[(_ & _ & _ & ?)|[Hp Hs]]]; [done..|].
    simpl in Hs. split; [|split; [done|split; [by right; intros ->|by intros ->]]]. split; [done|]. simpl. exists (S k). intros f fuel Hf.
    rewrite Hp in Hf. rewrite Nat.add_succ_l, <-Nat.add_succ_r, Hk by (intros j Hj; apply Hf; lia).
    unfold mbind at 1, M_bind at 1. rewrite Run_loop_iter. erewrite M_bind_eq by (apply Hiter; rewrite Hf by lia; done).
    assert (Hw1 : w1 = set_events 0 (set_events tot w1)) by (rewrite He in He1; destruct w1; simpl in *; by rewrite He1).
    by rewrite <-Hw1.
Qed.

Lemma stream_step_ok s b tot : is_run s → ¬ is_ended (st s) →
  ∃ st' w', stream_step err_text (with_stop (λ _, b) e) g (st s) (set_events tot (wd s)) = Done (st', w') ∧
    is_run (mkStr st' (set_events 0 w')) ∧ events w' = counted tot st' ∧
    (polls w' = polls (wd s) ∨ (b = true → is_ended st')) ∧
    (b = true → st s ≠ Opening → is_ended st' ∧ written w' = written (wd s)).
Proof.
  destruct s as [[|t n|err got n] w]; intros Hs He; [|..|by destruct He]; simpl in *.
  - destruct Hs as [_ Hw]. simpl in Hw. subst w. destruct (open_step_ok b tot) as (st' & w' & E & Hr & Hev & Hp).
    exists st', w'. split_and!; [done..|by left|done].
  - destruct (loop_step_ok t n w b tot Hs) as (st' & w' & E & Hr & Hev & Hp & Hb). exists st', w'. split_and!; try done. auto.
Qed.
End runs.

(** ** The invariant *)
Definition evts_of (s : stream) : Z := match st s with Ended _ _ n => n | _ => 0%Z end.
Definition sum_evts (ss : list stream) : Z := foldr (λ s acc, (evts_of s + acc)%Z) 0%Z ss.

Lemma sum_evts_insert ss i s s' : ss !! i = Some s → sum_evts (<[ i := s' ]> ss) = (sum_evts ss - evts_of s + evts_of s')%Z.
Proof. revert i. induction ss as [|s0 ss IH]; intros [|i]; simpl; intros Hi; simplify_eq; [lia|]. rewrite (IH i Hi). lia. Qed.

Lemma sum_evts_new ss n : sum_evts (ss ++ replicate n (mkStr Opening fresh)) = sum_evts ss.
Proof. induction ss as [|s ss IH]; simpl; [|by rewrite IH]. induction n; simpl; [done|]. unfold sum_evts in *. simpl. by rewrite IHn. Qed.

Section invariant.
Context {Unit Source C : Type}.
Context (ID : Unit → string) (Expected : Unit → UnitState * option (list (Stream Source))).
Context (NewConfigFrom : Source → goerr + C) (Unpack : C → Config → option goerr * Config) (err_text : goerr → string).
Context (iterate : gmap string nat → list (string * nat)) (Hiterate : ∀ m, iterate m ≡ₚ map_to_list m).
Context (env : nat → Env).
Implicit Types (x : sys Unit) (known : gmap string bool).
Abbreviation step := (step ID Expected NewConfigFrom Unpack err_text iterate env).
Abbreviation turn := (turn err_text env).

Record sys_ok known x : Prop := {
  so_streams : streams_ok (runners (machine x)) (channels (machine x)) (goroutines (machine x));
  so_known : runners_match known (runners (machine x));
  so_indexed : indexed (machine x);
  so_length : length (strs x) = length (goroutines (machine x));
  so_waiting i s c : strs x !! i = Some s → channels (machine x) !! i = Some c → ¬ is_ended (st s) → waiting c = sent c;
  so_run i s g : strs x !! i = Some s → goroutines (machine x) !! i = Some g → is_run err_text (env i) g s;
  so_total : total x = wrap 64 (sum_evts (strs x))
}.

Lemma start_sys_ok : sys_ok ∅ start_sys.
Proof.
  split; simpl; try done. split.
  - intros id sid ch (r & Hr & _). by rewrite lookup_empty in Hr.
  - intros id sid id' sid' ch (r & Hr & _). by rewrite lookup_empty in Hr.
  - intros g Hg. by apply not_elem_of_nil in Hg.
Qed.

Lemma handle_sys_ok known inp x x' : sys_ok known x → (∀ ch, inp ≠ Polled ch) → protocol ID Expected known [inp] →
  handle ID Expected NewConfigFrom Unpack err_text iterate inp x = Done x' → sys_ok (next_known ID Expected known inp) x'.
Proof.
  intros [Hs Hk [Hlen Hix] Hl Hw Hr Ht] Hp Hpr E0. unfold handle in E0.
  destruct (main_step_ok ID Expected NewConfigFrom Unpack err_text iterate Hiterate known inp (machine x) Hk Hpr Hs)
    as (b & m' & E & Hs' & Hk'). rewrite E in E0. cbn in E0. injection E0 as <-.
  destruct (keeps_handle ID Expected NewConfigFrom Unpack err_text iterate inp Hp _ _ _ E) as [Hpre Hge Hi Hsent].
  destruct (Hi (conj Hlen Hix)) as [Hlen' Hix']. pose proof (prefix_length _ _ Hpre) as Hgl.
  set (new := replicate (length (goroutines m') - length (strs x)) (mkStr Opening fresh)).
  assert (Hcase : ∀ i s, (strs x ++ new) !! i = Some s → (strs x !! i = Some s ∧ i < length (strs x)) ∨
    (length (strs x) ≤ i ∧ s = mkStr Opening fresh)).
  { intros i s [Hi'|[Hge' Hi']]%lookup_app_Some; [left; split; [done|by eapply lookup_lt_Some]|].
    right. apply lookup_replicate in Hi' as [-> _]. done. }
  split; simpl; try done.
  - rewrite length_app. unfold new. rewrite length_replicate. lia.
  - intros i s c [[Hi' Hlt]|[Hge' ->]]%Hcase Hc Hne; apply Hsent in Hc.
    + destruct (lookup_lt_is_Some_2 (channels (machine x)) i) as [c0 Hc0]; [lia|]. rewrite Hc0 in Hc.
      pose proof (Hw i s c0 Hi' Hc0 Hne). lia.
    + rewrite lookup_ge_None_2 in Hc by lia. done.
  - intros i s g [[Hi' Hlt]|[Hge' ->]]%Hcase Hg; [|done].
    destruct (lookup_lt_is_Some_2 (goroutines (machine x)) i) as [g0 Hg0]; [lia|].
    pose proof (prefix_lookup_Some _ _ _ _ Hg0 Hpre) as Hg'. rewrite Hg in Hg'. injection Hg' as ->. by apply (Hr i).
  - unfold new. by rewrite sum_evts_new.
Qed.

(** The turn of a stream that has not ended. *)
Lemma turn_ok known x i s : sys_ok known x → strs x !! i = Some s → ¬ is_ended (st s) →
  ∃ x' s' c, turn i x = Done x' ∧ sys_ok known x' ∧ strs x' !! i = Some s' ∧ channels (machine x) !! i = Some c ∧
    returned x' = returned x ∧ (sent c = 1 → st s ≠ Opening → is_ended (st s') ∧ written (wd s') = written (wd s)).
Proof.
  intros [Hs Hk [Hlen Hix] Hl Hw Hr Ht] Hi Hne. pose proof (lookup_lt_Some _ _ _ Hi) as Hlt.
  destruct (lookup_lt_is_Some_2 (goroutines (machine x)) i) as [g Hg]; [lia|].
  destruct (lookup_lt_is_Some_2 (channels (machine x)) i) as [c Hc]; [lia|].
  pose proof (Hix i g Hg) as Hstop. pose proof (Hw i s c Hi Hc Hne) as Hwait.
  destruct (stream_step_ok err_text (env i) g s (bool_decide (0 < waiting c)) (total x) (Hr i s g Hi Hg) Hne)
    as (st' & w' & E & Hrun & Hev & Hpoll & Htold).
  set (s' := mkStr st' (set_events 0 w')).
  set (m' := if bool_decide (polls w' = polls (wd s)) then machine x else
    mkLoadGenerator (runners (machine x)) (alter (λ c, mkChannel 0 (sent c)) i (channels (machine x))) (goroutines (machine x)) (unit_updates (machine x))).
  assert (Hm' : runners m' = runners (machine x) ∧ goroutines m' = goroutines (machine x) ∧ length (channels m') = length (channels (machine x)) ∧
    (∀ j, j ≠ i → channels m' !! j = channels (machine x) !! j) ∧ streams_ok (runners m') (channels m') (goroutines m')).
  { unfold m'. destruct (bool_decide (polls w' = polls (wd s))); [exact (conj eq_refl (conj eq_refl (conj eq_refl (conj (λ _ _, eq_refl) Hs))))|]. simpl. split_and!; [done..|by rewrite length_alter| |by apply streams_ok_poll].
    intros j Hj. by rewrite list_lookup_alter_ne. }
  destruct Hm' as (Em1 & Em2 & Em3 & Em4 & Em5).
  exists (mkSys m' (<[ i := s' ]> (strs x)) (events w') (returned x)), s', c.
  split; [|split; [|split; [by apply list_lookup_insert_eq|split; [done|split; [done|]]]]].
  - unfold LoadConc.turn. rewrite Hg, Hi. cbn [deref mbind outcome_bind]. rewrite Hstop, Hc. cbn [deref mbind outcome_bind].
    rewrite E. cbn [mbind outcome_bind fst snd]. unfold m'. by destruct (bool_decide (polls w' = polls (wd s))).
  - split; cbn [machine strs total]; rewrite ?Em1, ?Em2; try done.
    + by rewrite <-Em1, <-Em2.
    + split; [by rewrite Em3, Em2|by rewrite Em2].
    + by rewrite length_insert.
    + intros j sj cj. destruct (decide (j = i)) as [->|Hj]; [|rewrite list_lookup_insert_ne, Em4 by done; apply Hw].
      rewrite list_lookup_insert_eq by done. intros [= <-] Hcj Hnj. unfold m' in Hcj. destruct (bool_decide (polls w' = polls (wd s))) eqn:Hp; [congruence|]. apply bool_decide_eq_false in Hp.
      simpl in Hcj. rewrite list_lookup_alter_eq, Hc in Hcj. injection Hcj as <-. simpl.
      destruct Hpoll as [?|Hb]; [done|]. destruct (decide (0 < waiting c)) as [Hpos|Hz]; [|lia].
      destruct Hnj. apply Hb. by rewrite bool_decide_true.
    + intros j sj gj. destruct (decide (j = i)) as [->|Hj]; [|rewrite list_lookup_insert_ne by done; apply Hr].
      rewrite list_lookup_insert_eq by done. intros [= <-] Hgj. assert (gj = g) as -> by congruence. exact Hrun.
    + rewrite (sum_evts_insert _ _ _ s' Hi), Hev. assert (evts_of s = 0%Z) as -> by (unfold evts_of; by destruct (st s); [..|destruct Hne]).
      unfold counted, evts_of, s'. simpl. rewrite Ht. destruct st' as [| |err got n]; [f_equal; lia..|]. rewrite wrap_add_l. f_equal. lia.
  - intros Hsent Hop. apply Htold; [|done]. apply bool_decide_eq_true. lia.
Qed.

Lemma step_sys_ok kx kx' : step kx kx' → sys_ok kx.1 kx.2 → sys_ok kx'.1 kx'.2.
Proof.
  intros [known inp x x' Hret Hp Hpr E|known i s x x' Hret Hi Hne E] Hok; simpl in *; [by eapply handle_sys_ok|].
  assert (Hend : ¬ is_ended (st s)) by (intros He; destruct (st s) eqn:Es; try done; by eapply Hne).
  destruct (turn_ok known x i s Hok Hi Hend) as (x1 & s1 & c & E1 & Hok1 & _). rewrite E in E1. by injection E1 as ->.
Qed.

Lemma reach_sys_ok kx kx' : rtc step kx kx' → sys_ok kx.1 kx.2 → sys_ok kx'.1 kx'.2.
Proof. induction 1 as [|kx kx1 kx2 Hs _ IH]; [done|]. intros Hok. by eapply IH, step_sys_ok. Qed.

Lemma told_or_registered known x i s g : sys_ok known x → strs x !! i = Some s → goroutines (machine x) !! i = Some g →
  ∃ c, channels (machine x) !! i = Some c ∧
    (sent c = 0 ∧ registered (runners (machine x)) (g_unit g) (g_stream g) i ∨ sent c = 1) ∧ (runners (machine x) = ∅ → sent c = 1).
Proof.
  intros Hok Hi Hg. destruct (so_indexed _ _ Hok) as [_ Hix]. destruct (so_streams _ _ Hok) as [H1 _ H3].
  pose proof (Hix i g Hg) as Hst. destruct (H3 g) as [[n Hn]|Hr]; [by eapply list_elem_of_lookup_2|rewrite Hst in *..].
  - eexists. split; [exact Hn|]. split; [by right|done].
  - eexists. split; [by eapply H1|]. split; [by left|]. intros He. destruct Hr as (r & Hl & _). by rewrite He, lookup_empty in Hl.
Qed.
End invariant.

(** C19. The load generator with its streams, in every interleaving.  While the client
    follows its protocol, no change makes the main loop wait or panic and no turn of
    a stream fails.  What a stream does, whatever is interleaved with it, is what
    [Run] does alone with some answers of its channel, its lines and its result
    included; the shared counter is the number of events of the streams that ended,
    modulo 2^64.  A stream can still be told to stop, through its unit's runner, or was
    told exactly once, and was told when no unit is left; then it ends at its next
    turn and writes nothing more, but for one that has yet to open its file: that
    takes one turn to open it, and ends at the turn after that. *)
Theorem streams_run_and_stop {Unit Source C : Type} (ID : Unit → string)
    (Expected : Unit → UnitState * option (list (Stream Source))) (NewConfigFrom : Source → goerr + C)
    (Unpack : C → Config → option goerr * Config) (err_text : goerr → string) (iterate : gmap string nat → list (string * nat))
    (env : nat → Env) known (x : sys Unit) :
  (∀ m, iterate m ≡ₚ map_to_list m) →
  rtc (step ID Expected NewConfigFrom Unpack err_text iterate env) (∅, start_sys) (known, x) →
  (∀ inp, (∀ ch, inp ≠ Polled ch) → protocol ID Expected known [inp] →
    ∃ x', handle ID Expected NewConfigFrom Unpack err_text iterate inp x = Done x') ∧
  length (strs x) = length (goroutines (machine x)) ∧
  (∀ i s g, strs x !! i = Some s → goroutines (machine x) !! i = Some g →
    is_run err_text (env i) g s ∧
    (∃ c, channels (machine x) !! i = Some c ∧
       (sent c = 0 ∧ registered (runners (machine x)) (g_unit g) (g_stream g) i ∨ sent c = 1) ∧ (runners (machine x) = ∅ → sent c = 1)) ∧
    (¬ is_ended (st s) → ∃ x' s' c, turn err_text env i x = Done x' ∧ strs x' !! i = Some s' ∧ channels (machine x) !! i = Some c ∧
      (sent c = 1 → st s ≠ Opening → is_ended (st s') ∧ written (wd s') = written (wd s)))) ∧
  total x = wrap 64 (sum_evts (strs x)).
Proof.
  intros Hit Hreach.
  pose proof (reach_sys_ok ID Expected NewConfigFrom Unpack err_text iterate Hit env _ _ Hreach (start_sys_ok err_text env)) as Hok. simpl in Hok.
  split; [|split; [apply Hok|split; [|apply Hok]]].
  - intros inp Hp Hpr.
    destruct (main_step_ok ID Expected NewConfigFrom Unpack err_text iterate Hit known inp (machine x) (so_known _ _ _ _ Hok) Hpr (so_streams _ _ _ _ Hok))
      as (b & m' & E & _). unfold handle. rewrite E. by eexists.
  - intros i s g Hi Hg. split; [by apply (so_run _ _ _ _ Hok i)|]. split; [by apply (told_or_registered err_text env known x i s g)|].
    intros Hne. destruct (turn_ok err_text env known x i s Hok Hi Hne) as (x' & s' & c & E & _ & Hs' & Hc & _ & Htold).
    exists x', s', c. by split_and!.
Qed.

(** ** A stream that is started, writes an event and is stopped *)
Definition quiet_env : Env := mkEnv (λ _, 0%Z) (λ _, false) (λ _, None) None (λ _ _, "event"%string).
Definition example_handle (inp : input example_unit) : sys example_unit → outcome (sys example_unit) :=
  handle example_ID example_Expected inr (λ (_ : ()) cfg, (None, cfg)) (λ _, ""%string) map_to_list inp.
Definition example_turn : nat → sys example_unit → outcome (sys example_unit) := turn (λ _, ""%string) (λ _, quiet_env).
Definition example_step := step example_ID example_Expected inr (λ (_ : ()) cfg, (None, cfg)) (λ _, ""%string) map_to_list (λ _, quiet_env).
Definition example_u (st : UnitState) : example_unit := ("u"%string, st, ["a"%string]).

(** A step, or the state if it cannot be made. *)
Definition after_step (f : sys example_unit → outcome (sys example_unit)) (x : sys example_unit) : sys example_unit :=
  match f x with Done x => x | _ => x end.
Definition added := after_step (example_handle (Changed UnitChangedAdded (example_u UnitStateHealthy))) start_sys.
Definition opened := after_step (example_turn 0) added.
Definition wrote := after_step (example_turn 0) opened.
Definition stopped := after_step (example_handle (Changed UnitChangedModified (example_u UnitStateStopped))) wrote.

Lemma example_reach : rtc example_step (∅, start_sys) ({[ "u"%string := true ]}, stopped).
Proof.
  assert (Hg : good_config example_Expected (example_u UnitStateHealthy)).
  { eexists. split; [reflexivity|]. simpl. apply NoDup_singleton. }
  eapply rtc_l; [apply (step_main _ _ _ _ _ _ _ ∅ (Changed UnitChangedAdded (example_u UnitStateHealthy)) start_sys added)|];
    [reflexivity|done|split; [reflexivity|split; [exact Hg|exact I]]|vm_compute; reflexivity|].
  eapply rtc_l; [eapply (step_stream _ _ _ _ _ _ _ _ 0 _ added opened)|];
    [reflexivity|vm_compute; reflexivity|discriminate|vm_compute; reflexivity|].
  eapply rtc_l; [eapply (step_stream _ _ _ _ _ _ _ _ 0 _ opened wrote)|];
    [reflexivity|vm_compute; reflexivity|discriminate|vm_compute; reflexivity|].
  eapply rtc_l; [apply (step_main _ _ _ _ _ _ _ _ (Changed UnitChangedModified (example_u UnitStateStopped)) wrote stopped)|];
    [reflexivity|done|split; [by eexists|exact I]|vm_compute; reflexivity|].
  apply rtc_refl.
Qed.

Lemma streams_run_and_stop_witness : ∃ s x' s', strs stopped !! 0 = Some s ∧ written (wd s) = [(""%string, ("event" +:+ newline)%string)] ∧
  example_turn 0 stopped = Done x' ∧ strs x' !! 0 = Some s' ∧ is_ended (st s') ∧ written (wd s') = written (wd s).
Proof.
  destruct (streams_run_and_stop example_ID example_Expected inr (λ (_ : ()) cfg, (None, cfg)) (λ _, ""%string) map_to_list
    (λ _, quiet_env) {[ "u"%string := true ]} stopped (λ _, reflexivity _) example_reach) as (_ & _ & Hs & _).
  assert (∃ s g c, strs stopped !! 0 = Some s ∧ goroutines (machine stopped) !! 0 = Some g ∧ channels (machine stopped) !! 0 = Some c ∧
    sent c = 1 ∧ written (wd s) = [(""%string, ("event" +:+ newline)%string)] ∧ st s = Looping 1000000000 1%Z) as (s & g & c & Es & Eg & Ec & Hc & Hw & Hst).
  { do 3 eexists. split; [vm_compute; reflexivity|]. split; [vm_compute; reflexivity|]. split; [vm_compute; reflexivity|].
    split; [reflexivity|]. split; reflexivity. }
  destruct (Hs 0 s g Es Eg) as (_ & _ & Hturn). destruct Hturn as (x' & s' & c' & E & Es' & Ec' & Htold); [rewrite Hst; intros []|].
  rewrite Ec in Ec'. injection Ec' as <-. destruct Htold as [He Hw']; [exact Hc|by rewrite Hst|].
  exists s, x', s'. by split_and!.
Defined.
