(* ===== verification/Start.v ===== *)
(** * Start of the program: main.go, pkg/config/config.go, loadgenerator.go

    What [main] does, as the list of its calls to the outside: reading the
    configuration file, configuring the log, running the command.  The YAML reader,
    the logger's settings and cobra are parameters. *)

From stdpp Require Import base gmap strings list fin_maps.
From Stdlib Require Import ZArith Ascii Lia.
From S2P Require Import Prelude GoValue Fs LoadGen.

(** ** Package path/filepath, for Unix

    [Clean] goes through the components: empty ones and "." are skipped, ".." removes
    the component before it, unless there is none. *)
Definition slash : Ascii.ascii := "/"%char.
Fixpoint components (s : string) : list string :=
  match s with
  | EmptyString => [""%string]
  | String c s =>
    if decide (c = slash) then ""%string :: components s
    else match components s with
      | x :: l => String c x :: l
      | [] => [String c ""]
      end
  end.
Fixpoint join_slash (l : list string) : string :=
  match l with
  | [] => ""
  | [x] => x
  | x :: l => x +:+ String slash "" +:+ join_slash l
  end.

(** [out] is what is kept so far, the last component first. *)
Definition clean_step (rooted : bool) (out : list string) (c : string) : list string :=
  if bool_decide (c = "" ∨ c = ".")%string then out
  else if bool_decide (c = "..")%string then
    match out with
    | x :: out' => if bool_decide (x = "..")%string then c :: out else out'
    | [] => if rooted then [] else [c]
    end
  else c :: out.
Definition IsAbs (path : string) : bool := String.prefix "/" path.
Definition Clean (path : string) : string :=
  let rooted := IsAbs path in
  let s := (if rooted then "/" else "")%string +:+ join_slash (reverse (foldl (clean_step rooted) [] (components path))) in
  if bool_decide (s = "")%string then "." else s.
Fixpoint Join (elem : list string) : string :=
  match elem with
  | [] => ""
  | e :: elem' => if bool_decide (e = "")%string then Join elem' else Clean (join_slash elem)
  end.

(** ** config.go *)
Definition defaultConfigName : string := "agent-inputs.yml".

(** The flag variables; [init] gives them their defaults. *)
Record flags := mkFlags { ConfigPath : string; ConfigFilePath : string }.
Definition init_flags : flags := mkFlags "" defaultConfigName.

Definition Filepath (f : flags) : string :=
  if bool_decide (ConfigFilePath f = "" ∨ ConfigFilePath f = defaultConfigName)%string then Join [ConfigPath f; defaultConfigName]
  else if IsAbs (ConfigFilePath f) then ConfigFilePath f
  else Join [ConfigPath f; ConfigFilePath f].

Section start.
(** The settings of the logger that the program does not set, and a parsed file. *)
Context {Settings Raw : Type}.

Record LogConfig := mkLogConfig {
  Beat : string;
  ToStderr : bool;
  ToFiles : bool;
  Level : Z;
  Selectors : list string;
  others : Settings
}.
(** [logp.DefaultConfig], and [logp.DebugLevel]. *)
Context (log_default : LogConfig) (DebugLevel : Z).

Record Config := mkConfig { Log : LogConfig; LoadGenerator : LoadGen.Config }.

Definition defaultConfig : Config :=
  mkConfig (mkLogConfig "agent-inputs" true false DebugLevel ["*"%string] (others log_default)) LoadGen.DefaultConfig.

(** The zero value of a configuration. *)
Context (zero_settings : Settings).
Definition zeroConfig : Config :=
  mkConfig (mkLogConfig "" false false 0 [] zero_settings) (LoadGen.mkConfig 0 0 false 0 false "").

(** The outside: files, the YAML reader and its [Unpack], the logger, cobra's reading
    of the command line (the flag variables and the command that it selects, if any),
    and how the load generator's [Start] ends. *)
Record Env := mkEnv {
  ReadFile : string → goerr + bytes;
  NewConfigWithYAML : bytes → goerr + Raw;
  Unpack : Raw → Config → option goerr * Config;
  Configure : LogConfig → option goerr;
  parse_args : list string → flags → flags * (goerr + option string);
  Start : option goerr
}.

Definition ReadConfig (env : Env) (f : flags) : Config * option goerr :=
  let path := Filepath f in
  match ReadFile env path with
  | inl err => (zeroConfig, Some (Wrapped ("error reading input file '" +:+ path +:+ "'") err))
  | inr configYAML =>
    match NewConfigWithYAML env configYAML with
    | inl err => (zeroConfig, Some (Wrapped "error parsing yaml config" err))
    | inr raw =>
      match Unpack env raw defaultConfig with
      | (Some err, config) => (config, Some (Wrapped "error unpacking shipper config" err))
      | (None, config) => (config, None)
      end
    end
  end.

(** ** loadgenerator.go: [Command] and the function [run] makes of a configuration *)
Inductive action :=
| AConfigure (c : LogConfig)
| ARead (path : string)
| AStart
| AFatal (err : goerr)
| APanic (err : goerr).

(** [AStart] is the call of [Start] on a [newLoadGenerator], whose units are in
    LoadUnits.v. *)
Definition run (env : Env) (cfg : LoadGen.Config) : list action :=
  AStart :: match Start env with Some err => [AFatal err] | None => [] end.
Record Command := mkCommand { Use : string; Run : list action }.
Definition Command_ (env : Env) (cfg : LoadGen.Config) : Command := mkCommand "loadgenerator" (run env cfg).

(** ** main.go *)
Definition Execute (env : Env) (cmds : list Command) (args : list string) (f : flags) : option goerr * list action :=
  match (parse_args env args f).2 with
  | inl err => (Some err, [])
  | inr None => (None, [])
  | inr (Some name) => (None, match list_find (λ c, Use c = name) cmds with Some (_, c) => Run c | None => [] end)
  end.

Definition logConfig : LogConfig := mkLogConfig "agent-inputs" true false (Level log_default) (Selectors log_default) (others log_default).

(** [logger.Fatal] ends the process. *)
Definition main (env : Env) (args : list string) : list action :=
  AConfigure logConfig ::
  match Configure env logConfig with
  | Some err => [APanic (Wrapped "could not initialise logger" err)]
  | None =>
    ARead (Filepath init_flags) ::
    match ReadConfig env init_flags with
    | (_, Some err) => [AFatal (Wrapped "could not read config file" err)]
    | (cfg, None) =>
      AConfigure (Log cfg) ::
      match Configure env (Log cfg) with
      | Some err => [AFatal (Wrapped "applying logger configuration" err)]
      | None =>
        let '(res, acts) := Execute env [Command_ env (LoadGenerator cfg)] args init_flags in
        acts ++ match res with Some err => [AFatal err] | None => [] end
      end
    end
  end.
End start.
Arguments LogConfig : clear implicits.
Arguments Config : clear implicits.
Arguments Env : clear implicits.
Arguments action : clear implicits.

(** ** Facts *)
Example Clean_examples : Clean "a//b/./../c/" = "a/c"%string ∧ Clean "/../a" = "/a"%string ∧ Clean "../../x" = "../../x"%string ∧
  Clean "a/.." = "."%string ∧ Join [""; "agent-inputs.yml"] = "agent-inputs.yml"%string.
Proof. by vm_compute. Qed.

(** A relative file is looked up in the configuration directory, an absolute one is
    taken as it is, and naming the default file changes nothing. *)
Example Filepath_examples :
  Filepath (mkFlags "/etc/agent" defaultConfigName) = "/etc/agent/agent-inputs.yml"%string ∧
  Filepath (mkFlags "/etc/agent" "") = "/etc/agent/agent-inputs.yml"%string ∧
  Filepath (mkFlags "/etc/agent" "sub/my.yml") = "/etc/agent/sub/my.yml"%string ∧
  Filepath (mkFlags "/etc/agent" "/tmp/my.yml") = "/tmp/my.yml"%string.
Proof. by vm_compute. Qed.

Section facts.
Context {Settings Raw : Type} (log_default : LogConfig Settings) (DebugLevel : Z) (zero_settings : Settings).
Implicit Types (env : Env Settings Raw).

(** The file that is read does not depend on the flags of the command line: they are
    parsed by [Execute], after [ReadConfig]. *)
Lemma main_reads_default_file env args path :
  ARead path ∈ main log_default DebugLevel zero_settings env args → path = defaultConfigName.
Proof.
  assert (Hc : ∀ cfg cmds a, ARead path ∉ (Execute env [Command_ env cfg] a cmds).2).
  { intros cfg f a. unfold Execute. destruct (parse_args env a f).2 as [err|[name|]]; simpl; [apply not_elem_of_nil| |apply not_elem_of_nil].
    case_decide; [|apply not_elem_of_nil]. simpl. unfold run. destruct (Start env); repeat (rewrite elem_of_cons || rewrite elem_of_nil); naive_solver. }
  unfold main. rewrite elem_of_cons. intros [Heq|Hin]; [done|]. destruct (Configure env _) as [err|].
  { apply list_elem_of_singleton in Hin. done. }
  apply elem_of_cons in Hin as [[= ->]|Hin]; [reflexivity|].
  destruct (ReadConfig _ _ _ _ _) as [cfg [err|]]; [by apply list_elem_of_singleton in Hin|].
  apply elem_of_cons in Hin as [|Hin]; [done|]. destruct (Configure env _) as [err|]; [by apply list_elem_of_singleton in Hin|].
  specialize (Hc (LoadGenerator cfg) init_flags args). destruct (Execute _ _ _ _) as [res acts]. simpl in Hc.
  apply elem_of_app in Hin as [Hin|Hin]; [done|]. destruct res; [by apply list_elem_of_singleton in Hin|by apply not_elem_of_nil in Hin].
Qed.

(** Nothing depends on the section "loadgenerator" of the file. *)
Lemma section_is_ignored env unpack args :
  (∀ raw c, (unpack raw c).1 = (Unpack env raw c).1 ∧ Log (unpack raw c).2 = Log (Unpack env raw c).2) →
  main log_default DebugLevel zero_settings env args = main log_default DebugLevel zero_settings
    (mkEnv (ReadFile env) (NewConfigWithYAML env) unpack (Configure env) (parse_args env) (Start env)) args.
Proof.
  intros Hu. unfold main. f_equal. simpl. destruct (Configure env _); [done|]. f_equal. unfold ReadConfig. simpl.
  destruct (ReadFile env _) as [|y]; [done|]. destruct (NewConfigWithYAML env y) as [|raw]; [done|].
  specialize (Hu raw (defaultConfig log_default DebugLevel)). destruct (Unpack env raw _) as [e1 c1], (unpack raw _) as [e2 c2].
  simpl in Hu. destruct Hu as [-> Hl]. destruct e1; [done|]. rewrite Hl. done.
Qed.
End facts.
