(* ===== verification/TestSupport.v ===== *)
(** * What the tests of the repository use

    The goroutine checker (manager/internal/resources), the clients and connectors of
    publisher/testing, and the mocks of manager/input/internal/inputest. *)

From stdpp Require Import base gmap strings list fin_maps relations.
From Stdlib Require Import ZArith Lia.
From S2P Require Import Prelude Fs Concert Feature Loader.

(** ** resources/goroutines.go *)
Module Goroutines.

(** The environment answers the n-th reading of the clock and the n-th
    [runtime.NumGoroutine]; a pause only takes time. *)
Record Env := mkEnv { Now : nat → Z; NumGoroutine : nat → Z }.
Record GoroutinesChecker := mkChecker { before : Z; FinalizationTimeout : Z }.
Definition defaultFinalizationTimeout : Z := (35 * 10 ^ 9)%Z.
Definition pause : Z := (10 * 10 ^ 6)%Z.

Definition NewGoroutinesChecker (count : Z) : GoroutinesChecker := mkChecker count defaultFinalizationTimeout.
Definition ErrTimeout : goerr := errText "timeout waiting for finalization of goroutines".

(** [i] rounds were made: the clock was read once before the loop and once per round. *)
Fixpoint wait_loop (fuel : nat) (env : Env) (c : GoroutinesChecker) (timeout : Z) (i : nat) (after : Z) : outcome (Z * option goerr) :=
  match fuel with
  | 0 => OutOfFuel
  | S fuel =>
    if bool_decide (Now env (S i) < timeout)%Z then
      let after := NumGoroutine env i in
      if bool_decide (after ≤ before c)%Z then Done (after, None) else wait_loop fuel env c timeout (S i) after
    else Done (after, Some ErrTimeout)
  end.
Definition rounds (c : GoroutinesChecker) : nat := S (Z.to_nat (FinalizationTimeout c / pause + 1)).
Definition WaitUntilOriginalCount (env : Env) (c : GoroutinesChecker) : outcome (Z * option goerr) :=
  wait_loop (rounds c) env c (Now env 0 + FinalizationTimeout c) 0 0.

Definition check (format_int : Z → string) (env : Env) (c : GoroutinesChecker) : outcome (option goerr) :=
  r ← WaitUntilOriginalCount env c;
  Done (match r with
    | (after, Some err) => if errors_is err ErrTimeout then
        Some (errText ("possible goroutines leak, before: " +:+ format_int (before c) +:+ ", after: " +:+ format_int after)) else Some err
    | (_, None) => None
    end).

Fixpoint WaitUntilIncreased (fuel : nat) (env : Env) (c : GoroutinesChecker) (n : Z) (i : nat) : outcome nat :=
  match fuel with
  | 0 => OutOfFuel
  | S fuel => if bool_decide (NumGoroutine env i < before c + n)%Z then WaitUntilIncreased fuel env c n (S i) else Done i
  end.

(** A clock that goes on, and by a pause at least between two rounds. *)
Definition clock_ok (env : Env) : Prop := (Now env 0 ≤ Now env 1)%Z ∧ ∀ i, (Now env (S i) + pause ≤ Now env (S (S i)))%Z.

Lemma clock_after env i : clock_ok env → (Now env 0 + pause * Z.of_nat i ≤ Now env (S i))%Z.
Proof. intros [H0 Hs]. induction i as [|i IH]; [lia|]. specialize (Hs i). lia. Qed.

Lemma wait_loop_ok env c timeout fuel i after : clock_ok env → (timeout - Now env 0 ≤ pause * (Z.of_nat i + Z.of_nat fuel - 1))%Z → 0 < fuel →
  ∃ a err, wait_loop fuel env c timeout i after = Done (a, err) ∧
    match err with
    | None => (a ≤ before c)%Z ∧ ∃ j, a = NumGoroutine env j ∧ (Now env (S j) < timeout)%Z
    | Some e => e = ErrTimeout ∧ ∃ j, i ≤ j ∧ (timeout ≤ Now env (S j))%Z ∧ ∀ j', i ≤ j' → j' < j → (before c < NumGoroutine env j')%Z
    end.
Proof.
  intros Hc. revert i after. induction fuel as [|fuel IH]; intros i after Hf Hpos; [lia|]. cbn [wait_loop].
  case_bool_decide as Ht; [|exists after, (Some ErrTimeout); split; [done|]; split; [done|]; exists i; split_and!; [lia..|intros; lia]].
  case_bool_decide as Ha; [exists (NumGoroutine env i), None; split; [done|]; split; [done|]; by exists i|].
  assert (Hfuel : 0 < fuel).
  { pose proof (clock_after env i Hc). destruct fuel; [|lia]. unfold pause in *. lia. }
  destruct (IH (S i) (NumGoroutine env i)) as (a & err & -> & Hres); [lia|lia|].
  exists a, err. split; [done|]. destruct err as [e|]; [|done]. destruct Hres as (-> & j & Hj & Hjt & Hall).
  split; [done|]. exists j. split_and!; [lia|done|]. intros j' H1 H2. destruct (decide (j' = i)) as [->|]; [lia|]. apply Hall; lia.
Qed.

(** The checker returns within its timeout: it reports the count that it saw at or
    below the first one, or, if every count it saw until the timeout was above, an
    error. *)
Theorem WaitUntilOriginalCount_returns env c : clock_ok env →
  ∃ a err, WaitUntilOriginalCount env c = Done (a, err) ∧
    match err with
    | None => (a ≤ before c)%Z
    | Some e => e = ErrTimeout ∧ ∃ j, (Now env 0 + FinalizationTimeout c ≤ Now env (S j))%Z ∧ ∀ j', j' < j → (before c < NumGoroutine env j')%Z
    end.
Proof.
  intros Hc. unfold WaitUntilOriginalCount.
  destruct (wait_loop_ok env c (Now env 0 + FinalizationTimeout c) (rounds c) 0 0 Hc) as (a & err & E & Hres).
  - pose proof (Z.div_mod (FinalizationTimeout c) pause ltac:(done)). pose proof (Z.mod_pos_bound (FinalizationTimeout c) pause ltac:(done)).
    unfold rounds. unfold pause in *. lia.
  - unfold rounds. lia.
  - exists a, err. split; [done|]. destruct err as [e|]; [|by destruct Hres]. destruct Hres as (-> & j & _ & Hj & Hall).
    split; [done|]. exists j. split; [done|]. intros j' Hj'. apply Hall; lia.
Qed.

(** A run: three goroutines more, which end after two pauses. *)
Lemma WaitUntilOriginalCount_returns_witness :
  let env := mkEnv (λ i, Z.of_nat i * pause)%Z (λ i, if decide (i < 2) then 8%Z else 5%Z) in
  WaitUntilOriginalCount env (NewGoroutinesChecker 5) = Done (5%Z, None) ∧
  ∃ a err, WaitUntilOriginalCount env (NewGoroutinesChecker 5) = Done (a, err).
Proof.
  split; [vm_compute; reflexivity|].
  destruct (WaitUntilOriginalCount_returns (mkEnv (λ i, Z.of_nat i * pause)%Z (λ i, if decide (i < 2) then 8%Z else 5%Z))
    (NewGoroutinesChecker 5)) as (a & err & E & _); [|by exists a, err].
  split; simpl; unfold pause; intros; lia.
Defined.
End Goroutines.

(** ** publisher/testing/testing.go

    [ChanClient] with the goroutines that use it: they call [PublishAll] or
    [ReceiveEvent].  A blocked goroutine is one whose step does not apply. *)
Module Chan.
Section chan.
Context {E : Type}.

(** A goroutine has the events [es] still to publish; calls the callback for [e]; takes
    an event back from the channel after the callback; waits in [ReceiveEvent]. *)
Inductive pc :=
| Publishing (es : list E)
| Calling (e : E) (es : list E)
| Draining (es : list E)
| Receiving
| Returned.

(** The channel's capacity, whether there is a callback, [done], the channel; and for the
    statements the events that the callback saw, that were received, and that were not
    published because the client was closed. *)
Record ChanClient := mkChan { size : nat; publishCallback : bool; done : bool; Channel : list E }.
Record sys := mkSys { client : ChanClient; pool : list pc; called : list E; received : list E; skipped : list E }.

Definition NewChanClientWith (size : nat) : ChanClient := mkChan size false false [].
(** A nil channel is replaced by one of size 1. *)
Definition NewChanClientWithChan (ch : option nat) : ChanClient := NewChanClientWith (default 1 ch).
Definition NewChanClient (bufSize : nat) : ChanClient := NewChanClientWith bufSize.
Definition NewChanClientWithCallback (bufSize : nat) : ChanClient :=
  let c := NewChanClientWith bufSize in mkChan (size c) true (done c) (Channel c).

Definition set_channel (b : list E) (c : ChanClient) : ChanClient := mkChan (size c) (publishCallback c) (done c) b.
(** After a send: the callback, if there is one. *)
Definition sent (c : ChanClient) (e : E) (es : list E) : pc := if publishCallback c then Calling e es else Publishing es.

(** One step: goroutine [i] finds the client closed in the [select] of [Publish]; sends to
    the channel; hands its event to the waiting goroutine [j]; calls the callback; takes
    from the channel; or the client is closed, a second time with a panic. *)
Inductive choice := CDone (i : nat) | CSend (i : nat) | CHand (i j : nat) | CCall (i : nat) | CTake (i : nat) | CClose.
Definition step (ch : choice) (s : sys) : outcome sys :=
  let c := client s in
  match ch with
  | CDone i =>
    match pool s !! i with
    | Some (Publishing (e :: es)) => if done c then Done (mkSys c (<[ i := Publishing es ]> (pool s)) (called s) (received s) (e :: skipped s)) else OutOfFuel
    | _ => OutOfFuel
    end
  | CSend i =>
    match pool s !! i with
    | Some (Publishing (e :: es)) =>
      if decide (length (Channel c) < size c) then
        Done (mkSys (set_channel (Channel c ++ [e]) c) (<[ i := sent c e es ]> (pool s)) (called s) (received s) (skipped s))
      else OutOfFuel
    | _ => OutOfFuel
    end
  | CHand i j =>
    match pool s !! i, pool s !! j, Channel c with
    | Some (Publishing (e :: es)), Some Receiving, [] =>
      Done (mkSys c (<[ j := Returned ]> (<[ i := sent c e es ]> (pool s))) (called s) (received s ++ [e]) (skipped s))
    | Some (Publishing (e :: es)), Some (Draining es'), [] =>
      Done (mkSys c (<[ j := Publishing es' ]> (<[ i := sent c e es ]> (pool s))) (called s) (received s) (skipped s))
    | _, _, _ => OutOfFuel
    end
  | CCall i =>
    match pool s !! i with
    | Some (Calling e es) => Done (mkSys c (<[ i := Draining es ]> (pool s)) (called s ++ [e]) (received s) (skipped s))
    | _ => OutOfFuel
    end
  | CTake i =>
    match pool s !! i, Channel c with
    | Some (Draining es), _ :: b => Done (mkSys (set_channel b c) (<[ i := Publishing es ]> (pool s)) (called s) (received s) (skipped s))
    | Some Receiving, e :: b => Done (mkSys (set_channel b c) (<[ i := Returned ]> (pool s)) (called s) (received s ++ [e]) (skipped s))
    | _, _ => OutOfFuel
    end
  | CClose =>
    if done c then Panic "close of closed channel"
    else Done (mkSys (mkChan (size c) (publishCallback c) true (Channel c)) (pool s) (called s) (received s) (skipped s))
  end.
Definition steps (s s' : sys) : Prop := ∃ ch, step ch s = Done s'.
Definition start (c : ChanClient) (work : list (list E)) : sys := mkSys c (Publishing <$> work) [] [] [].

(** ** Publishing with a callback *)
Definition holds_event (g : pc) : bool := match g with Calling _ _ | Draining _ => true | _ => false end.
Definition publisher (g : pc) : Prop := match g with Receiving | Returned => False | _ => True end.
(** The events of a goroutine that the callback has not seen. *)
Definition todo (g : pc) : list E := match g with Publishing es | Draining es => es | Calling e es => e :: es | _ => [] end.

Record chan_ok (n : nat) (all : list E) (s : sys) : Prop := {
  co_client : size (client s) = n ∧ publishCallback (client s) = true;
  co_pool : Forall publisher (pool s);
  co_channel : length (Channel (client s)) = count holds_event (pool s);
  co_events : called s ++ skipped s ++ (pool s ≫= todo) ≡ₚ all;
  co_skipped : done (client s) = false → skipped s = []
}.

Lemma bind_insert_perm {A B} (f : A → list B) (l : list A) i x y : l !! i = Some x →
  f x ++ (<[ i := y ]> l ≫= f) ≡ₚ f y ++ (l ≫= f).
Proof.
  revert i. induction l as [|z l IH]; intros [|i] Hi; simplify_eq/=; [by rewrite !(assoc_L (++)), (comm (++) (f x))|].
  rewrite !(assoc (++)), (comm (++) (f x)), (comm (++) (f y)), <-!(assoc (++)). by rewrite IH.
Qed.

(** One goroutine changes its place: what the parts of the invariant become. *)
Lemma pool_change (s : sys) i g g' ca sk : pool s !! i = Some g → Forall publisher (pool s) → publisher g' →
  ca ++ sk ++ todo g' ≡ₚ called s ++ skipped s ++ todo g →
  Forall publisher (<[ i := g' ]> (pool s)) ∧
  count holds_event (<[ i := g' ]> (pool s)) + Nat.b2n (holds_event g) = count holds_event (pool s) + Nat.b2n (holds_event g') ∧
  ca ++ sk ++ (<[ i := g' ]> (pool s) ≫= todo) ≡ₚ called s ++ skipped s ++ (pool s ≫= todo).
Proof.
  intros Hi Hp Hg' Hperm. split_and!; [by apply Forall_insert|by apply count_insert|].
  pose proof (bind_insert_perm todo (pool s) i g g' Hi) as Hb.
  apply (Permutation_app_inv_l (todo g)). rewrite (Permutation_app_swap_app (todo g)), (Permutation_app_swap_app (todo g) sk), Hb.
  rewrite !(assoc (++)) in Hperm |- *. rewrite Hperm.
  rewrite <-!(assoc (++)). rewrite (Permutation_app_swap_app (todo g)). by rewrite (Permutation_app_swap_app (todo g) (skipped s)).
Qed.

Lemma step_ok n all ch s s' : chan_ok n all s → step ch s = Done s' → chan_ok n all s'.
Proof.
  intros [[Hn Hcb] Hp Hc Hev Hsk] Hstep.
  assert (Hno : ∀ j, pool s !! j ≠ Some Receiving).
  { intros j Hj. rewrite Forall_lookup in Hp. by apply (Hp j) in Hj. }
  destruct ch as [i|i|i j|i|i|]; simpl in Hstep.
  - destruct (pool s !! i) as [[[|e es]| | | |]|] eqn:Hi; try done. destruct (done (client s)) eqn:Hd; [|done]. injection Hstep as <-.
    destruct (pool_change s i _ (Publishing es) (called s) (e :: skipped s) Hi Hp I) as (H1 & H2 & H3); [simpl; f_equiv; apply Permutation_middle|].
    split; simpl in *; [done|done|lia|by rewrite <-Hev|by rewrite Hd].
  - destruct (pool s !! i) as [[[|e es]| | | |]|] eqn:Hi; try done. case_decide; [|done]. injection Hstep as <-.
    unfold sent. rewrite Hcb.
    destruct (pool_change s i _ (Calling e es) (called s) (skipped s) Hi Hp I) as (H1 & H2 & H3); [done|].
    split; simpl in *; [done|done|rewrite length_app; simpl; lia|by rewrite <-Hev|done].
  - destruct (pool s !! i) as [[[|e es]| | | |]|] eqn:Hi; try done. destruct (pool s !! j) as [[|?|es'| |]|] eqn:Hj; try done.
    + destruct (Channel (client s)); [|done]. exfalso. simpl in Hc.
      assert (0 < count holds_event (pool s)) by (by apply (count_lookup holds_event _ _ _ Hj)). lia.
    + by apply Hno in Hj.
  - destruct (pool s !! i) as [[|e es| | |]|] eqn:Hi; try done. injection Hstep as <-.
    destruct (pool_change s i _ (Draining es) (called s ++ [e]) (skipped s) Hi Hp I) as (H1 & H2 & H3).
    { simpl. rewrite <-(assoc (++)). simpl. f_equiv. apply Permutation_middle. }
    split; simpl in *; [done|done|lia|by rewrite <-Hev|done].
  - destruct (pool s !! i) as [[| |es| |]|] eqn:Hi; try done; [|by apply Hno in Hi].
    destruct (Channel (client s)) as [|x b] eqn:Hb; [done|]. injection Hstep as <-.
    destruct (pool_change s i _ (Publishing es) (called s) (skipped s) Hi Hp I) as (H1 & H2 & H3); [done|].
    split; simpl in *; [done|done|lia|by rewrite <-Hev|done].
  - destruct (done (client s)); [done|]. injection Hstep as <-. by split.
Qed.

Lemma start_chan_ok n work : chan_ok n (mjoin work) (start (NewChanClientWithCallback n) work).
Proof.
  split; simpl; try done.
  - apply Forall_fmap, Forall_forall. done.
  - induction work; simpl; [done|]. by rewrite IHwork.
  - induction work as [|es work IH]; [done|]. simpl. by rewrite IH.
Qed.
End chan.
Arguments sys : clear implicits.

(** Publishing through a client with a callback, by any number of goroutines over a
    channel of size at least 1: no event is lost or seen twice by the callback, those
    skipped were published after [Close]; a goroutine that is not done can go on, so
    that they do not block each other; and what is in the channel are the events of the
    goroutines between their send and their receive. *)
Theorem ChanClient_callback_sees_all {E} n work (s : sys E) : 0 < n → rtc steps (start (NewChanClientWithCallback n) work) s →
  called s ++ skipped s ++ (pool s ≫= todo) ≡ₚ mjoin work ∧
  (done (client s) = false → skipped s = []) ∧
  length (Channel (client s)) = count holds_event (pool s) ∧
  ((∃ i g, pool s !! i = Some g ∧ g ≠ Publishing []) → ∃ ch s', ch ≠ CClose ∧ step ch s = Done s').
Proof.
  intros Hn Hreach. assert (Hok : chan_ok n (mjoin work) s).
  { pose proof (start_chan_ok n work) as H0. revert H0. induction Hreach as [|x y z [ch Hs] _ IH]; [done|]. intros H0. by eapply IH, step_ok. }
  destruct Hok as [[Hsz Hcb] Hp Hc Hev Hsk]. split_and!; try done. intros (i & g & Hi & Hg).
  destruct (decide (length (Channel (client s)) = 0)) as [H0|Hne].
  - rewrite Forall_lookup in Hp. pose proof (Hp _ _ Hi) as Hpg.
    assert (holds_event g = false) by (destruct (holds_event g) eqn:E0; [pose proof (count_lookup holds_event _ _ _ Hi E0); lia|done]).
    destruct g as [[|e es]| | | |]; try done. exists (CSend i). eexists. split; [done|]. simpl. rewrite Hi.
    rewrite decide_True by lia. reflexivity.
  - destruct (count_pos holds_event (pool s)) as (j & h & Hj & Hh); [lia|]. destruct h as [|e es|es| |]; try done.
    + exists (CCall j). eexists. split; [done|]. simpl. by rewrite Hj.
    + destruct (Channel (client s)) as [|x b] eqn:Eb; [done|]. exists (CTake j). eexists. split; [done|]. simpl. by rewrite Hj, Eb.
Qed.

(** Over a channel of size 0 nothing happens but [Close]. *)
Lemma unbuffered_callback_blocks {E} work (s : sys E) ch : step ch (start (NewChanClientWithCallback 0) work) = Done s → ch = CClose.
Proof.
  assert (Hp : ∀ i, (start (NewChanClientWithCallback 0) work).(pool) !! i = None ∨
    ∃ es : list E, (start (NewChanClientWithCallback 0) work).(pool) !! i = Some (Publishing es)).
  { intros i. simpl. rewrite list_lookup_fmap. destruct (work !! i); [right; by eexists|by left]. }
  destruct ch as [i|i|i j|i|i|]; [..|done]; cbn [step]; destruct (Hp i) as [-> |[es ->]]; try done; destruct es; try done.
  by destruct (Hp j) as [-> |[es' ->]].
Qed.

Lemma ChanClient_callback_sees_all_witness : ∃ s : sys nat,
  rtc steps (start (NewChanClientWithCallback 1) [[1; 2]; [3]]) s ∧ called s = [3] ∧
  called s ++ skipped s ++ (pool s ≫= todo) ≡ₚ [1; 2; 3].
Proof.
  set (s := mkSys (mkChan 1 true false [1]) [Calling 1 [2]; Publishing []] [3] [] []).
  assert (Hr : rtc steps (start (NewChanClientWithCallback 1) [[1; 2]; [3]]) s).
  { eapply rtc_l; [exists (CSend 1); vm_compute; reflexivity|]. eapply rtc_l; [exists (CCall 1); vm_compute; reflexivity|].
    eapply rtc_l; [exists (CTake 1); vm_compute; reflexivity|]. eapply rtc_l; [exists (CSend 0); vm_compute; reflexivity|]. apply rtc_refl. }
  exists s. split; [exact Hr|]. split; [reflexivity|].
  apply (ChanClient_callback_sees_all 1 [[1; 2]; [3]] s); [lia|exact Hr].
Defined.
End Chan.

(** ** publisher/testing/connector.go

    Function values work on the state [S] of the test. *)
Module Connector.
Section connector.
Context {S E ClientConfig : Type} (zeroConfig : ClientConfig).

Record FakeClient := mkClient { PublishFunc : option (E → M S ()); CloseFunc : option (M S (option goerr)) }.
Definition FakeConnector : Type := ClientConfig → M S (goerr + FakeClient).
Definition ConnectWith (c : FakeConnector) (cfg : ClientConfig) : M S (goerr + FakeClient) := c cfg.
Definition Connect (c : FakeConnector) : M S (goerr + FakeClient) := ConnectWith c zeroConfig.
Definition Publish (c : FakeClient) (event : E) : M S () := match PublishFunc c with Some f => f event | None => mret () end.
Definition Close (c : FakeClient) : M S (option goerr) := match CloseFunc c with None => mret None | Some f => f end.
Fixpoint PublishAll (c : FakeClient) (events : list E) : M S () :=
  match events with
  | [] => mret ()
  | event :: events => Publish c event;; PublishAll c events
  end.

Definition FailingConnector (err : goerr) : FakeConnector := λ _, mret (inl err).
Definition ConstClient (client : FakeClient) : FakeConnector := λ _, mret (inr client).
(** [send] is the send on the channel. *)
Definition ChClient (send : E → M S ()) : FakeClient := mkClient (Some send) None.
End connector.
Arguments FakeClient : clear implicits.
Arguments FakeConnector : clear implicits.

Section counter.
Context {E ClientConfig Ctr : Type} `{!AtomicInt Ctr, !AtomicIntLaws Ctr}.

Record ClientCounter := mkCounter { total : Ctr; active : Ctr }.
Definition new_counter : ClientCounter := mkCounter (MakeInt 0) (MakeInt 0).
Definition Active (c : ClientCounter) : Z := Load (active c).
Definition Total (c : ClientCounter) : Z := Load (total c).
Definition close_counted : M ClientCounter (option goerr) :=
  modify (λ c, mkCounter (total c) (Dec (active c)).2);; mret None.
Definition BuildConnector : FakeConnector ClientCounter E ClientConfig := λ _,
  modify (λ c, mkCounter (Inc (total c)).2 (active c));;
  modify (λ c, mkCounter (total c) (Inc (active c)).2);;
  mret (inr (mkClient None (Some close_counted))).

(** Connections are made and closed, each at most once. *)
Fixpoint use (l : list bool) (cfg : ClientConfig) : M ClientCounter () :=
  match l with
  | [] => mret ()
  | true :: l => ConnectWith BuildConnector cfg;; use l cfg
  | false :: l => close_counted;; use l cfg
  end.
Fixpoint open_after (l : list bool) (n : Z) : option Z :=
  match l with
  | [] => Some n
  | true :: l => open_after l (n + 1)
  | false :: l => if decide (0 < n)%Z then open_after l (n - 1) else None
  end.

Lemma counter_counts (l : list bool) cfg c n : (0 ≤ Active c ≤ Total c)%Z → (Total c + Z.of_nat (length l) < int_max)%Z →
  open_after l (Active c) = Some n → ∃ c', use l cfg c = Done ((), c') ∧
    Active c' = n ∧ Total c' = (Total c + Z.of_nat (length (filter (λ b, b = true) l)))%Z.
Proof.
  revert c. induction l as [|[] l IH]; intros c Hc Hmax Ho; simpl in Ho.
  - injection Ho as <-. exists c. split; [done|]. split; [done|]. simpl. lia.
  - set (c1 := mkCounter (Inc (total c)).2 (Inc (active c)).2). rewrite length_cons in Hmax.
    assert (Ht : Total c1 = (Total c + 1)%Z) by (apply Load_Inc; unfold Total in *; lia).
    assert (Ha : Active c1 = (Active c + 1)%Z) by (apply Load_Inc; unfold Active, Total in *; lia).
    destruct (IH c1) as (c' & E1 & E2 & E3); [lia|lia|by rewrite Ha|].
    exists c'. split; [simpl; erewrite M_bind_eq by reflexivity; exact E1|]. split; [done|]. simpl. rewrite E3, Ht. lia.
  - case_decide; [|done]. set (c1 := mkCounter (total c) (Dec (active c)).2). rewrite length_cons in Hmax.
    assert (Ha : Active c1 = (Active c - 1)%Z) by (apply Load_Dec; unfold Active, Total in *; lia).
    assert (Ht : Total c1 = Total c) by done.
    destruct (IH c1) as (c' & E1 & E2 & E3); [lia|lia|by rewrite Ha|].
    exists c'. split; [simpl; erewrite M_bind_eq by reflexivity; exact E1|]. split; [done|]. simpl. by rewrite E3.
Qed.
End counter.
End Connector.

(** ** manager/input/internal/inputest *)
Module Inputest.
Section inputest.
Context {S Cfg TestContext RunContext : Type}.

Record MockInput := mkInput {
  Type_ : string;
  OnTest : option (TestContext → M S (option goerr));
  OnRun : option (RunContext → M S (option goerr))
}.
Definition Name (f : MockInput) : string := Type_ f.
Definition Test_ (f : MockInput) (ctx : TestContext) : M S (option goerr) := match OnTest f with Some h => h ctx | None => mret None end.
Definition Run (f : MockInput) (ctx : RunContext) : M S (option goerr) := match OnRun f with Some h => h ctx | None => mret None end.

Context {Input : Type}.
Definition InputConfigurer : Type := Cfg → M S (goerr + Input).
Record MockInputManager := mkManager { OnInit : option (Z → M S (option goerr)); OnConfigure : option InputConfigurer }.
Definition Init (m : MockInputManager) (mode : Z) : M S (option goerr) := match OnInit m with Some h => h mode | None => mret None end.
Definition Create (m : MockInputManager) (cfg : Cfg) : M S (goerr + Input) :=
  match OnConfigure m with Some h => h cfg | None => mret (inl (errText "oops, OnConfigure not implemented ")) end.

(** The mock as a value of the interface. *)
Definition as_manager (m : MockInputManager) : InputManager S Cfg Input := mkInputManager (Init m) (Create m).

Definition ConfigureConstInput (i : Input) : InputConfigurer := λ _, mret (inr i).
Definition ConstInputManager (i : Input) : MockInputManager := mkManager None (Some (ConfigureConstInput i)).
Definition SinglePlugin (name : string) (manager : option (InputManager S Cfg Input)) : list (Plugin S Cfg Input) :=
  [mkPlugin name Stable false "" "" manager].

Context (iterate : ∀ A : Type, gmap string A → list (string * A)) (format_int : Z → string).
Context (get_string : Cfg → string → goerr + string) (warn : string → S → S).

(** [inl]: the test ends with [t.Fatalf]. *)
Definition MustNewTestLoader (plugins : list (Plugin S Cfg Input)) (typeField defaultType : string) : lerr + Loader S Cfg Input :=
  NewLoader iterate format_int plugins typeField defaultType.
Definition MustConfigure (l : Loader S Cfg Input) (cfg : Cfg) : M S (lerr + Input) := Configure get_string warn l cfg.

(** The loader of a single constant input: it can be made if the plugin has a name, and
    gives the input for every configuration that names it, or names nothing when it is
    the default. *)
Lemma const_input_loader name tf dt i cfg s : (∀ A (m : gmap string A), iterate A m ≡ₚ map_to_list m) → name ≠ ""%string →
  ∃ l, MustNewTestLoader (SinglePlugin name (Some (as_manager (ConstInputManager i)))) tf dt = inr l ∧
    (match get_string cfg (typeField l) with inr n => n | inl _ => dt end = name →
     MustConfigure l cfg s = Done (inr i, s)).
Proof.
  intros Hit Hname. unfold MustNewTestLoader. set (ps := SinglePlugin _ _).
  pose proof (NewLoader_spec iterate format_int Hit ps tf dt) as Hspec.
  destruct (NewLoader iterate format_int ps tf dt) as [err|l].
  - destruct Hspec as [Hbad _]. exfalso. apply Hbad. split; [|apply NoDup_singleton]. constructor; [|constructor].
    split; [done|]. split; [|by eexists]. right. right. left.
  - destruct Hspec as [Hv ->]. eexists. split; [reflexivity|]. intros Hn. unfold MustConfigure, Configure, configured_name.
    destruct (get_string cfg _) as [e|n]; simpl in *; subst.
    + rewrite bool_decide_false by done. rewrite lookup_insert_eq. done.
    + rewrite lookup_insert_eq. done.
Qed.
End inputest.
End Inputest.
